(* ===== verification/_CoqProject ===== *)
-Q . S2P
Prelude.v
Common.v
Identity.v
Logging.v
Effects.v
Determinism.v
LruCache.v
History.v
Workflow.v
Interceptors.v
Runner.v
Reference.v
RunnerFacts.v
Commands.v
ReplaySpec.v
Replay.v
RunnerTypes.v
StickyReplay.v
TaskHandler.v
Replayer.v
TaskHandlerFacts.v
ActivityHandler.v
NexusHandler.v
Base64.v
Converter.v
Tracing.v
TracingFacts.v
Rpc.v
Client.v
ClientFacts.v
Typed.v
TypedFacts.v
SearchAttributes.v
Sessions.v
Coroutine.v
Threads.v
Worker.v
Pollers.v
PollersFacts.v
Loops.v
LoopsFacts.v
WorkerApi.v
SessionWorkers.v
TestEnv.v
