(* ===== verification/Prelude.v ===== *)
(** * Verification of the Temporal C++ SDK: root of the development

    The SDK in [src/src] and [src/include/temporal] runs workflows: user functions
    whose progress is recorded by a server as an event history.  A worker polls the
    server for tasks; a workflow task carries history, and the worker answers with
    the commands the workflow asks for next.  A run is kept suspended in a sticky
    cache between tasks; when it is lost, it is rebuilt by replaying the history, and
    the commands of the replay must be those the history records.

    ** Parts

    - [Prelude]: record update, notations, tactics and lemmas the other files share.
    - [Common]: payloads, exceptions, options and the conversions to and from
      protobuf ([common/*.h], [internal/proto_util.cpp]); the
      classes [Codec]/[CodecLaws], by which the engine sees the data converter.
    - [Identity], [Logging]: [NewUuid] and [DefaultIdentity] ([internal/proto_util.cpp])
      over the random source and the host; the console logger ([log/logger.cpp]).
    - [Effects]: calls over a shared state that return, throw, block or are undefined
      ([outcome], [Act]), with their notations: what handlers, interceptors and the
      client are written in.
    - [Determinism]: [internal/determinism.h], the ordered comparison of produced and
      recorded commands.
    - [LruCache]: [internal/lru_cache.h], a list of nodes and an index of iterators
      (nodes are named by an address), refined to a bounded most-recently-used list.
    - [History]: the history events and [ScanHistory], the prescan of a history.
    - [Workflow]: what a workflow body is: a resumable program ([prog]) over the calls
      of [workflow::Context], [Future], [ReceiveChannel] and [Selector].
    - [Interceptors]: the interfaces of [interceptor/interceptor.h] with their inputs
      and base classes, the chains and their terminals; a factory is a function from
      the next interceptor to a wrapper or none.
    - [Runner]: class [WorkflowRunner]: its fields as a record, each operation of
      [workflow_task_handler.cpp] as a definition in a state and exception monad, the
      interpretation of bodies, [Run], [ApplyAndResume], queries and updates.
    - [Reference], [RunnerFacts], [Commands]: a reference instance of the converter
      for closed examples; the invariants of a runner; the numbering of operations and
      the relation between emitted and produced commands.
    - [RunnerTypes]: the runner's futures, tables and addresses as a typed store.
    - [ReplaySpec], [Replay], [StickyReplay]: what a history says about the operations
      a body started and how the server extends it from task to task ([delivered]); a
      simulation between a live runner and a replay of the history it has seen; the
      equivalence of the two for a whole run ([lives]).
    - [TaskHandler], [TaskHandlerFacts]: class [WorkflowTaskHandler]: the store of
      runners behind shared pointers, the cache of pointers, [Handle] with every RPC
      as an oracle that may throw, [BuildRunnerForQuery], [ReplayHistory].
    - [Replayer]: offline replays ([ReplayHistory]) of open and closed histories, for
      bodies that do not look at the run's identity ([portable]).
    - [ActivityHandler], [NexusHandler]: the two other task handlers.
    - [Coroutine], [Threads]: [internal/coroutine.{h,cpp}]: controller and body as two
      threads sharing the fields of the class and a state of their own, as a step
      relation; a workflow as the body, with its runner as what they share.
    - [Base64], [Converter]: [converter/data_converter.cpp]: payload converters,
      codecs, protobuf encodings and payload stores.
    - [Tracing], [TracingFacts]: [interceptor/tracing.{h,cpp}]: the tracer interface
      (class [Tracer]), the no-op and in-memory tracers, the header format and the
      wrappers the interceptor installs, over a state reached by a [Lens].
    - [Rpc]: [internal/grpc_client.{h,cpp}]: the connection, the RPCs a client makes as
      a family indexed by their response type, [UnaryCall].
    - [Client], [ClientFacts]: [client/client.{h,cpp}]: every method of [Client] and
      [WorkflowHandle] over the client process ([Rpc.World]).
    - [Typed], [TypedFacts]: the templates of the public API: parameter packs and
      result types as the classes [Pack] and [Returned] ([typed_handles.h],
      [internal/callable_traits.h]), typed bodies ([body]) and the adapters that lower
      them ([worker/worker.h], [workflow/context.h]), coroutine workflows
      ([workflow/coro.h]), typed futures, channels and client methods.
    - [SearchAttributes]: [common/search_attribute.cpp], up to the server.
    - [Sessions], [SessionWorkers]: [common/session.h] and both ends of a session: the
      calls of the workflow, the worker's two activities, and a fleet of workers between
      which answers may be lost; the fleet that workers as they are built make up.
    - [Worker], [Pollers], [PollersFacts]: [internal/worker_impl.{h,cpp}]: the gate,
      the poller scaler, the rate limiter and the session counter one by one, then all
      poll threads and [Stop] as an interleaving of their atomic steps.
    - [Loops], [LoopsFacts]: the three poll loops statement by statement, exception
      handlers, permits and metrics included; their equivalence with the machine of
      [Pollers], and the accounting of their metrics.
    - [WorkerApi]: the worker as a whole ([WorkerImpl]'s constructor, registration,
      [Start], the poll requests, [ReplayWorkflowHistory]) and its handle
      ([worker/worker.cpp]).
    - [TestEnv]: [testing/test_workflow_environment.h] against a test server with its
      documented lock counter.

    [TaskHandler] drives [Runner] through [Run], [ApplyAndResume] and the handler
    calls only; [Runner] uses [History] for what is recorded, [Interceptors] for the
    chains and [Common.Codec] for values, whose implementation [Converter] supplies
    ([converter_codec]).  The worker's threads call the handlers as one atomic step of
    their loop.  [Threads] justifies the runner's view of a resume as one call.
    [Client] starts workflows through the chains of [Interceptors], of which [Tracing]
    is an instance, and makes its calls through [Rpc]; the header it sends is the one
    [History] reads and the inbound wrappers of [Tracing] take their parent from.
    [WorkerApi] puts [TaskHandler], [ActivityHandler], [NexusHandler] and [Pollers]
    together; [Typed] lowers to [Workflow] in the worker and to [Client] outside it.

    ** Conventions

    A C++ exception is a value of [Common.exn]; [result A] is an exception or an [A].
    [is_std_exception] says which ones [catch (const std::exception&)] catches.  A call
    that blocks the calling thread forever is [Hang], undefined behaviour is [UB]
    ([Effects.outcome]).  [int] counters that can wrap are wrapped ([wrap_signed]); the
    counters that number operations are unbounded, and a run of 2^31 operations is out
    of reach.  [unordered_map] is [gmap]; no modelled operation depends on its order
    of iteration.  The outside world (values a side effect reads, which resume
    overruns its deadline, RPC results, the clock, file-system faults) is a parameter.
    JSON, zlib, the protobuf runtime and the generated stubs are code outside [src]:
    classes of operations ([Json], [JsonObject], [Zlib], [Message], [EnumNames],
    [Stub]) with their documented laws ([JsonLaws], [JsonObjectLaws], [ZlibLaws],
    [MessageLaws], [EnumNamesLaws]) as separate classes, and closed instances for the
    examples.  Protobuf messages are records of the fields the SDK sets or reads.

    ** What is proved

    - Sticky cache and replay agree: a run advanced task by task and a run rebuilt from
      the whole history reach the same state and send the same commands, and the
      replay passes the determinism check ([StickyReplay.sticky_equals_replay]).
    - Replay: the prescan keeps every recorded command and every signal, in order, and
      delivers nothing ahead of an accepted update; [MatchReplayCommands] accepts
      exactly the replays that reproduce the recorded commands and names the first
      divergence; a non-deterministic replay is rejected by policy and never cached.
    - Offline replay: a worker accepts the history of any run of the same portable
      workflow, fetched page by page from the server; it refuses one that starts a
      child under a default id.
    - Typed API: the function a worker runs sees the arguments the client passed and
      the client sees the value it returned; coroutine workflows are plain workflows;
      arguments are checked by position.
    - Runner: resolved futures and outcomes are never taken back; operations are
      numbered by call order; each emitted command has its produced record; driving a
      body returns; futures are well typed throughout.
    - Task handler: one response per task; the sticky cache stays sound (no dangling,
      shared or deadlocked runner); a cache miss asks for the full history.
    - Cache: refinement of the LRU list, eviction of the least recent entry.
    - Coroutine: strict alternation, no lost wake-up; every interleaving of a resume is
      the runner's one call; teardown of a workflow terminates exactly when its body,
      called back with the abort, ends, which one that completes a session does not.
    - Worker: permits and poll slots account for the threads; [Stop] terminates when
      no wake-up is lost, and a reachable state in which one is; rate limit and
      session bounds; every queue a worker hands out is polled.  The loops as written
      and the machine these theorems are about simulate each other; permits, slots and
      counters are balanced on every path of an iteration; the gauge of tasks in flight
      never reports an idle worker.
    - Identities and search attributes: a uuid is of version 4 and keeps 122 bits; an
      attribute reaches the server readable whatever codecs the client has.
    - Sessions: workers, through their activity handlers, and a fleet of counters
      simulate each other; counters are exact while answers arrive, and are not when
      some are lost; the activities of a session go to the right queues.
    - Test environment: one environment balances the server's lock, several that
      overlap do not.
    - Activities and Nexus: one report per task, throttled heartbeats, the registry.
    - Converter: round trips of values, messages and stored payloads; base64.
    - Tracing: headers are read back; inbound spans bracket their calls; one trace
      follows a request across processes; the spans of the in-memory tracer form a
      forest; a failed outbound call leaves its span open.
    - Client: list calls are complete; [Result] follows a chain of runs to its end; a
      start carries the interceptors' header; a slow page truncates a history.

    ** Fuel and bounds

    [fetch_pages] and [fetch_all] take the number of pages as fuel and are [Hang]
    beyond it, as the loops in the source are when the server never ends the history;
    so do the client's [Paginate] and [ResultPayloads], for which [lists_are_complete]
    and [ResultPayloads_follows_chain] say how many rounds are enough.
    [evict_loop] is fuelled by the length of the list, each round of which pops a
    node; the local-activity loop by the number of attempts.  All other recursion is
    structural; bodies are inductive programs, so a body makes finitely many calls
    between two suspension points.

    ** Not modelled

    The log calls of the components are not part of their state, and a metrics sink that
    throws is not considered.  [static_assert]s and overload resolution have no run-time
    meaning; a typed call names its overload.  Of what activity functions
    share with each other only [active_sessions_] is followed; when one is run in line as
    a local activity, what it finds there is a parameter.
    [sticky_equals_replay] is about bodies whose calls do not poll, cancel,
    race or version ([Replay.steady_call]), for which the two do differ, and about a
    replay without the deadlock detector, which [ReplayHistory] leaves off as well.
    The in-memory tracer is modelled for one thread at a time: it has no lock.  The
    fixed arguments of an RPC (the update's wait policy) are part of its name. *)

From stdpp Require Export base tactics gmap strings list pretty numbers fin_maps relations.
From Stdlib Require Export QArith_base.
From Stdlib Require Export ZArith Lia.

#[global] Open Scope Z_scope.

(** ** Functional record update

    [r <| f := v |>] and [r <| f ::= g |>] update one field of a record.  A
    record opts in with an [Eta] instance (its eta expansion); the updater of a
    field is then derived by abstracting that field's projection. *)

Declare Scope record_scope.
Delimit Scope record_scope with record.

Class Eta (R : Type) := eta : R -> R.

Class Update {R T : Type} (proj : R -> T) := update : (T -> T) -> R -> R.
Global Arguments update {R T} proj {_} f r /.

Ltac derive_update :=
  lazymatch goal with
  | |- @Update ?R ?T ?proj =>
    let inst := constr:(_ : Eta R) in
    let h := lazymatch inst with ?f _ _ => f | ?f _ => f | ?f => f end in
    let body := eval cbv delta [h] beta in inst in
    lazymatch eval pattern proj in body with
    | ?abstracted _ =>
      let u := constr:(fun (g : T -> T) (r : R) => abstracted (fun x => g (proj x)) r) in
      let u := eval cbv beta in u in
      exact u
    end
  end.

#[export] Hint Extern 1 (Update _) => derive_update : typeclass_instances.

Notation "r <| p := v |>" := (update p (fun _ => v) r)
  (at level 1, left associativity, p at next level) : record_scope.
Notation "r <| p ::= f |>" := (update p f r)
  (at level 1, left associativity, p at next level) : record_scope.
#[global] Open Scope record_scope.

(** ** Tactics and hints of the development *)

Create HintDb temporal.
Create Rewrite HintDb temporal_rw.

(** Break the first [match]/[if] of the goal or of a hypothesis, keeping the
    equation and simplifying. *)
Ltac split_match :=
  repeat (case_match; simplify_eq/=).

Ltac case_match_in H :=
  match type of H with
  | context [ match ?x with _ => _ end ] => destruct x eqn:?
  end.

Ltac split_match_in H :=
  repeat (case_match_in H; simplify_eq/=).

(** Close a goal that follows by computing map lookups. *)
Ltac map_tac := repeat (simplify_map_eq; try case_decide; subst; try done).

(** Split every conjunction in the goal and close the easy parts. *)
Ltac split_all := repeat split; eauto with temporal.

(** ** Integers and strings *)

(** [std::to_string] of an integer: decimal, with a minus sign when negative. *)
Definition to_string (z : Z) : string := pretty z.

#[export] Instance to_string_inj : Inj (=) (=) to_string.
Proof. intros a b. unfold to_string. apply (inj pretty). Qed.

(** [std::string::empty]. *)
Definition str_empty (s : string) : bool := bool_decide (s = "").

Lemma str_empty_true s : str_empty s = true <-> s = "".
Proof. unfold str_empty. apply bool_decide_eq_true. Qed.

Lemma str_empty_false s : str_empty s = false <-> s <> "".
Proof. unfold str_empty. apply bool_decide_eq_false. Qed.

#[export] Hint Rewrite str_empty_true str_empty_false : temporal_rw.

(** Two's complement wrap of a mathematical integer to a signed width, which is
    what C++20 assigns to a shift or a narrowing cast of a signed integer. *)
Definition wrap_signed (w : Z) (z : Z) : Z := (z + 2 ^ (w - 1)) mod 2 ^ w - 2 ^ (w - 1).

(** ** Generic list lemmas *)

Section ListLemmas.
Context {A B : Type}.

Lemma fold_left_snoc (f : A -> B -> A) (l : list B) (x : B) (a : A) :
  fold_left f (l ++ [x]) a = f (fold_left f l a) x.
Proof. rewrite fold_left_app. done. Qed.

(** Rule of invariants for a left fold, from the front of the list. *)
Lemma fold_left_inv (f : A -> B -> A) (P : A -> Prop) (l : list B) (a : A) :
  P a -> (forall a x, P a -> x ∈ l -> P (f a x)) -> P (fold_left f l a).
Proof.
  revert a. induction l as [|x l IH]; intros a Ha Hstep; simpl; [done|].
  apply IH.
  - apply Hstep; [done|]. left.
  - intros a' y Ha' Hy. apply Hstep; [done|]. by right.
Qed.

(** A left fold commutes with a projection that every step respects. *)
Lemma fold_left_proj {C : Type} (f : A -> B -> A) (g : C -> B -> C) (p : A -> C)
  (l : list B) (a : A) :
  (forall a x, p (f a x) = g (p a) x) -> p (fold_left f l a) = fold_left g l (p a).
Proof. intros H. revert a. induction l as [|x l IH]; intros a; simpl; [done|]. by rewrite IH, H. Qed.
End ListLemmas.

#[export] Hint Rewrite @fold_left_snoc : temporal_rw.
