(* ===== verification/Common.v ===== *)
(** * Values shared by every component

    Payloads, the exceptions the SDK throws, the option structs, and the
    conversions between the public types and their protobuf form
    ([src/src/internal/proto_util.cpp], [src/src/converter/failure_converter.cpp],
    the headers under [src/include/temporal/common/]).

    A protobuf message class is generated code: a message is represented by the
    record of the fields the SDK sets or reads, a submessage field by an
    [option], an unset scalar by its proto3 default. *)

From S2P Require Import Prelude.

(** ** Payloads ([common/payload.h]) *)

Record Payload := mkPayload {
  p_metadata : gmap string string;
  p_data : string
}.

#[export] Instance Payload_eta : Eta Payload :=
  fun p => {| p_metadata := p_metadata p; p_data := p_data p |}.

#[export] Instance Payload_eq_dec : EqDecision Payload.
Proof. solve_decision. Defined.

Abbreviation Payloads := (list Payload).

(** [Payload{}]. *)
Definition empty_payload : Payload := {| p_metadata := ∅; p_data := "" |}.

(** [Header]: context-propagation headers, an ordered map of payloads. *)
Abbreviation Header := (gmap string Payload).

Module metadata_keys.
Definition kEncoding : string := "encoding".
Definition kMessageType : string := "messageType".
End metadata_keys.

Module encodings.
Definition kNull : string := "binary/null".
Definition kRaw : string := "binary/plain".
Definition kJson : string := "json/plain".
Definition kProto : string := "binary/protobuf".
Definition kProtoJson : string := "json/protobuf".
End encodings.

(** ** Exceptions ([common/errors.h])

    One constructor per class that code under [src/] throws or catches by type.
    [StdException] stands for every other class derived from [std::exception];
    the last three do not derive from it, so a [catch (const std::exception&)]
    lets them through. *)

Inductive exn :=
| TemporalError (message : string)
| ApplicationError (message type : string) (non_retryable : bool)
| ActivityError (type message : string)
| WorkflowFailedError (message type : string)
| DataConverterError (message : string)
| RpcError (message : string) (not_found : bool)
| NotFoundError (message : string)
| StdException (what : string)
| ContinueAsNewRequested (workflow_type : string) (input : Payloads)
| CoroutineAbort
| ForeignException.

#[export] Instance exn_eq_dec : EqDecision exn.
Proof. solve_decision. Defined.

(** [std::exception::what].  [ActivityError] falls back to its type when the
    message is empty. *)
Definition what (e : exn) : string :=
  match e with
  | TemporalError m => m
  | ApplicationError m _ _ => m
  | ActivityError t m => if str_empty m then t else m
  | WorkflowFailedError m _ => m
  | DataConverterError m => m
  | RpcError m _ => m
  | NotFoundError m => m
  | StdException w => w
  | ContinueAsNewRequested _ _ | CoroutineAbort | ForeignException => ""
  end.

(** Whether [catch (const std::exception&)] catches it. *)
Definition is_std_exception (e : exn) : bool :=
  match e with
  | ContinueAsNewRequested _ _ | CoroutineAbort | ForeignException => false
  | _ => true
  end.

(** [RpcError::not_found()], inherited by [NotFoundError]. *)
Definition rpc_not_found (e : exn) : option bool :=
  match e with
  | RpcError _ nf => Some nf
  | NotFoundError _ => Some true
  | _ => None
  end.

(** A call that may throw. *)
Abbreviation result A := (exn + A)%type.

(** [ApplicationError(message, type)] with the default [non_retryable]. *)
Definition app_error (message type : string) : exn := ApplicationError message type false.

(** ** Options ([common/options.h])

    Durations are [std::chrono] counts: milliseconds in the option structs,
    nanoseconds where the engine works with them.  A double is represented by a
    rational (the code copies it and compares it with zero). *)

Record RetryPolicy := mkRetryPolicy {
  initial_interval : Z;
  backoff_coefficient : Q;
  maximum_interval : Z;
  maximum_attempts : Z;
  non_retryable_error_types : list string
}.

Definition default_retry_policy : RetryPolicy :=
  {| initial_interval := 1000; backoff_coefficient := 2; maximum_interval := 0;
     maximum_attempts := 0; non_retryable_error_types := [] |}.

Record ActivityOptions := mkActivityOptions {
  ao_task_queue : string;
  ao_schedule_to_close_timeout : Z;
  ao_schedule_to_start_timeout : Z;
  ao_start_to_close_timeout : Z;
  ao_heartbeat_timeout : Z;
  ao_retry_policy : option RetryPolicy
}.

Definition default_activity_options : ActivityOptions :=
  {| ao_task_queue := ""; ao_schedule_to_close_timeout := 0; ao_schedule_to_start_timeout := 0;
     ao_start_to_close_timeout := 0; ao_heartbeat_timeout := 0; ao_retry_policy := None |}.

Record LocalActivityOptions := mkLocalActivityOptions {
  la_start_to_close_timeout : Z;
  la_retry_policy : option RetryPolicy
}.

Inductive ParentClosePolicy := PolicyTerminate | PolicyAbandon | PolicyRequestCancel.

Record ChildWorkflowOptions := mkChildWorkflowOptions {
  co_id : string;
  co_task_queue : string;
  co_parent_close_policy : ParentClosePolicy
}.

Inductive WorkflowPanicPolicy := BlockWorkflow | FailWorkflowPolicy.

Record StartWorkflowOptions := mkStartWorkflowOptions {
  so_id : string;
  so_task_queue : string;
  so_execution_timeout : Z;
  so_run_timeout : Z;
  so_task_timeout : Z;
  so_retry_policy : option RetryPolicy;
  so_memo : gmap string Payload;
  so_search_attributes : gmap string Payload;
  so_headers : Header
}.

#[export] Instance StartWorkflowOptions_eta : Eta StartWorkflowOptions := fun o =>
  {| so_id := so_id o; so_task_queue := so_task_queue o;
     so_execution_timeout := so_execution_timeout o; so_run_timeout := so_run_timeout o;
     so_task_timeout := so_task_timeout o; so_retry_policy := so_retry_policy o;
     so_memo := so_memo o; so_search_attributes := so_search_attributes o;
     so_headers := so_headers o |}.

Record ScheduleOptions := mkScheduleOptions {
  sch_interval : Z;
  sch_cron_expressions : list string;
  sch_workflow_type : string;
  sch_task_queue : string;
  sch_workflow_id : string
}.

(** [activity::ActivityInfo] ([activity/activity.h]). *)
Record ActivityInfo := mkActivityInfo {
  ai_activity_id : string;
  ai_activity_type : string;
  ai_workflow_id : string;
  ai_run_id : string;
  ai_task_queue : string;
  ai_task_token : string;
  ai_headers : Header;
  ai_attempt : Z
}.

(** ** Protobuf conversions ([src/internal/proto_util.cpp]) *)

Module Proto.
Record Payload := mk { metadata : gmap string string; data : string }.

#[export] Instance Payload_eq_dec : EqDecision Payload.
Proof. solve_decision. Defined.

Record Payloads := mkPayloads { payloads : list Payload }.

#[export] Instance Payloads_eq_dec : EqDecision Payloads.
Proof. solve_decision. Defined.

Record Duration := mkDuration { seconds : Z; nanos : Z }.

#[export] Instance Duration_eq_dec : EqDecision Duration.
Proof. solve_decision. Defined.

Record RetryPolicy := mkRetryPolicy {
  initial_interval : option Duration;
  backoff_coefficient : Q;
  maximum_interval : option Duration;
  maximum_attempts : Z;
  non_retryable_error_types : list string
}.

#[export] Instance Q_eq_dec : EqDecision Q.
Proof. solve_decision. Defined.

#[export] Instance RetryPolicy_eq_dec : EqDecision RetryPolicy.
Proof. solve_decision. Defined.

Record ApplicationFailureInfo := mkApplicationFailureInfo { type : string; non_retryable : bool }.

#[export] Instance ApplicationFailureInfo_eq_dec : EqDecision ApplicationFailureInfo.
Proof. solve_decision. Defined.

Record Failure := mkFailure {
  message : string;
  source : string;
  application_failure_info : option ApplicationFailureInfo
}.

#[export] Instance Failure_eq_dec : EqDecision Failure.
Proof. solve_decision. Defined.

(** [failure.application_failure_info().type()]: the accessor of an unset
    submessage returns its default instance. *)
Definition app_type (f : Failure) : string :=
  match application_failure_info f with Some i => type i | None => "" end.
End Proto.

(** Both directions copy the metadata entry by entry and then the bytes. *)
Definition ToProtoPayload (p : Payload) : Proto.Payload :=
  {| Proto.metadata := map_fold (fun k v out => <[k := v]> out) ∅ (p_metadata p);
     Proto.data := p_data p |}.

Definition FromProtoPayload (p : Proto.Payload) : Payload :=
  {| p_metadata := map_fold (fun k v out => <[k := v]> out) ∅ (Proto.metadata p);
     p_data := Proto.data p |}.

Definition ToProtoPayloads (ps : Payloads) : Proto.Payloads :=
  {| Proto.payloads := fold_left (fun out p => out ++ [ToProtoPayload p]) ps [] |}.

Definition FromProtoPayloads (ps : Proto.Payloads) : Payloads :=
  fold_left (fun out p => out ++ [FromProtoPayload p]) (Proto.payloads ps) [].

(** [duration_cast<seconds>] truncates toward zero; the remainder is narrowed to
    32 bits. *)
Definition ToProtoDuration (d : Z) : Proto.Duration :=
  let secs := Z.quot d 1000000000 in
  {| Proto.seconds := secs; Proto.nanos := wrap_signed 32 (d - secs * 1000000000) |}.

(** Implicit conversion of a [std::chrono::milliseconds] to nanoseconds. *)
Definition ms (m : Z) : Z := m * 1000000.

Definition ToProtoRetryPolicy (policy : RetryPolicy) : Proto.RetryPolicy :=
  {| Proto.initial_interval :=
       if 0 <? initial_interval policy then Some (ToProtoDuration (ms (initial_interval policy)))
       else None;
     Proto.backoff_coefficient :=
       if negb (Qle_bool (backoff_coefficient policy) 0) then backoff_coefficient policy else 0%Q;
     Proto.maximum_interval :=
       if 0 <? maximum_interval policy then Some (ToProtoDuration (ms (maximum_interval policy)))
       else None;
     Proto.maximum_attempts :=
       if negb (maximum_attempts policy =? 0) then maximum_attempts policy else 0;
     Proto.non_retryable_error_types :=
       fold_left (fun out t => out ++ [t]) (non_retryable_error_types policy) [] |}.

Definition MakeApplicationFailure (message type : string) (non_retryable : bool) : Proto.Failure :=
  {| Proto.message := message;
     Proto.source := "";
     Proto.application_failure_info :=
       Some {| Proto.type := if str_empty type then "" else type;
               Proto.non_retryable := non_retryable |} |}.

(** A timeout field is set only when the option is positive. *)
Definition opt_timeout (t : Z) : option Proto.Duration :=
  if 0 <? t then Some (ToProtoDuration (ms t)) else None.

(** A [Payloads] field is set only when there is something to put in it. *)
Definition opt_payloads (ps : Payloads) : option Proto.Payloads :=
  match ps with [] => None | _ => Some (ToProtoPayloads ps) end.

(** A header or attribute map copied entry by entry. *)
Definition ToProtoFields (m : gmap string Payload) : gmap string Proto.Payload :=
  map_fold (fun k v out => <[k := ToProtoPayload v]> out) ∅ m.

Definition FromProtoFields (m : gmap string Proto.Payload) : gmap string Payload :=
  map_fold (fun k v out => <[k := FromProtoPayload v]> out) ∅ m.

(** ** Failure conversion ([src/converter/failure_converter.cpp]) *)

Definition kSource : string := "cpp-sdk".

Definition ErrorToFailure (error : exn) : Proto.Failure :=
  {| Proto.message := what error;
     Proto.source := kSource;
     Proto.application_failure_info :=
       match error with
       | ApplicationError _ type non_retryable =>
         Some {| Proto.type := type; Proto.non_retryable := non_retryable |}
       | _ => Some {| Proto.type := ""; Proto.non_retryable := false |}
       end |}.

Definition FailureToError (failure : Proto.Failure) : exn :=
  match Proto.application_failure_info failure with
  | Some info =>
    ApplicationError (Proto.message failure) (Proto.type info) (Proto.non_retryable info)
  | None => ApplicationError (Proto.message failure) "" false
  end.

(** ** Lemmas *)

Section MapCopy.
Context {V W : Type}.

(** Copying a map entry by entry through [f] is mapping [f] over it. *)
Lemma map_fold_copy (f : V -> W) (m : gmap string V) :
  map_fold (fun k v (out : gmap string W) => <[k := f v]> out) ∅ m = f <$> m.
Proof.
  apply (map_fold_weak_ind (fun out m => out = f <$> m)).
  - by rewrite fmap_empty.
  - intros k v m' out _ ->. by rewrite fmap_insert.
Qed.
End MapCopy.

Lemma push_back_all {A B} (f : A -> B) (l : list A) (acc : list B) :
  fold_left (fun out x => out ++ [f x]) l acc = acc ++ (f <$> l).
Proof.
  revert acc. induction l as [|x l IH]; intros acc; simpl.
  - by rewrite app_nil_r.
  - by rewrite IH, <- app_assoc.
Qed.

Lemma ToProtoPayload_eq p :
  ToProtoPayload p = {| Proto.metadata := p_metadata p; Proto.data := p_data p |}.
Proof. unfold ToProtoPayload. by rewrite (map_fold_copy id), map_fmap_id. Qed.

Lemma FromProtoPayload_eq p :
  FromProtoPayload p = {| p_metadata := Proto.metadata p; p_data := Proto.data p |}.
Proof. unfold FromProtoPayload. by rewrite (map_fold_copy id), map_fmap_id. Qed.

Lemma ToProtoPayloads_eq ps :
  ToProtoPayloads ps = {| Proto.payloads := ToProtoPayload <$> ps |}.
Proof. unfold ToProtoPayloads. by rewrite push_back_all. Qed.

Lemma FromProtoPayloads_eq ps : FromProtoPayloads ps = FromProtoPayload <$> Proto.payloads ps.
Proof. unfold FromProtoPayloads. by rewrite push_back_all. Qed.

Lemma payload_roundtrip p : FromProtoPayload (ToProtoPayload p) = p.
Proof. rewrite ToProtoPayload_eq, FromProtoPayload_eq. by destruct p. Qed.

Lemma proto_payload_roundtrip p : ToProtoPayload (FromProtoPayload p) = p.
Proof. rewrite FromProtoPayload_eq, ToProtoPayload_eq. by destruct p. Qed.

Lemma payloads_roundtrip ps : FromProtoPayloads (ToProtoPayloads ps) = ps.
Proof.
  rewrite FromProtoPayloads_eq, ToProtoPayloads_eq. simpl.
  rewrite <- list_fmap_compose. rewrite <- (list_fmap_id ps) at 2.
  apply list_fmap_ext. intros i p _. apply payload_roundtrip.
Qed.

Lemma ToProtoFields_eq m : ToProtoFields m = ToProtoPayload <$> m.
Proof. apply map_fold_copy. Qed.

Lemma FromProtoFields_eq m : FromProtoFields m = FromProtoPayload <$> m.
Proof. apply map_fold_copy. Qed.

Lemma fields_roundtrip m : FromProtoFields (ToProtoFields m) = m.
Proof.
  rewrite FromProtoFields_eq, ToProtoFields_eq, <- map_fmap_compose.
  rewrite <- (map_fmap_id m) at 2. apply map_fmap_ext. intros k p _. apply payload_roundtrip.
Qed.

#[export] Hint Rewrite payload_roundtrip proto_payload_roundtrip payloads_roundtrip
  fields_roundtrip : temporal_rw.

Lemma wrap_signed_small w z : 0 < w -> - 2 ^ (w - 1) <= z < 2 ^ (w - 1) -> wrap_signed w z = z.
Proof.
  intros Hw Hz. unfold wrap_signed.
  assert (2 ^ w = 2 * 2 ^ (w - 1)) by (rewrite <- Z.pow_succ_r by lia; f_equal; lia).
  rewrite Z.mod_small by lia. lia.
Qed.

(** The two fields of a protobuf duration always recombine to the nanosecond
    count, and the sub-second part is in the range the format allows, with the
    sign of the whole. *)
Lemma ToProtoDuration_exact d :
  let p := ToProtoDuration d in
  Proto.seconds p * 1000000000 + Proto.nanos p = d /\
  - 999999999 <= Proto.nanos p <= 999999999 /\
  (0 <= d -> 0 <= Proto.seconds p /\ 0 <= Proto.nanos p) /\
  (d <= 0 -> Proto.seconds p <= 0 /\ Proto.nanos p <= 0).
Proof.
  simpl.
  assert (Hr : d - Z.quot d 1000000000 * 1000000000 = Z.rem d 1000000000)
    by (pose proof (Z.quot_rem' d 1000000000); lia).
  assert (Hb : Z.abs (Z.rem d 1000000000) < 1000000000)
    by (pose proof (Z.rem_bound_abs d 1000000000); lia).
  rewrite wrap_signed_small by (simpl; lia).
  rewrite Hr. pose proof (Z.quot_rem' d 1000000000) as Hq.
  split_and!; try lia.
  - intros Hd. split; [apply Z.quot_pos; lia | apply Z.rem_nonneg; lia].
  - intros Hd. pose proof (Z.rem_nonpos d 1000000000). split; [|lia].
    pose proof (Z.quot_pos (- d) 1000000000). rewrite Z.quot_opp_l in * by lia. lia.
Qed.
