(* ===== verification/Identity.v ===== *)
(** * Identities

    The names a process makes up ([internal/proto_util.cpp]): [NewUuid], which names
    workflow ids, request ids and the queues of a worker, and [DefaultIdentity].  The
    random source, the process id and the host name are the outside world. *)

From Stdlib Require Import Ascii.
From S2P Require Import Prelude.

(** ** [snprintf] *)

Definition hex_digit (d : Z) : ascii :=
  match d with
  | 0 => "0" | 1 => "1" | 2 => "2" | 3 => "3" | 4 => "4" | 5 => "5" | 6 => "6" | 7 => "7"
  | 8 => "8" | 9 => "9" | 10 => "a" | 11 => "b" | 12 => "c" | 13 => "d" | 14 => "e" | _ => "f"
  end%char.

(** [%x]: the digits of a number, the last one first; 16 are enough for 64 bits. *)
Fixpoint hex_digits (fuel : nat) (n : Z) : list ascii :=
  match fuel with
  | O => []
  | S fuel => hex_digit (n mod 16) :: if n / 16 =? 0 then [] else hex_digits fuel (n / 16)
  end.

(** [%0wx] *)
Definition printf_x (w : nat) (n : Z) : list ascii :=
  let ds := rev (hex_digits 16 n) in replicate (w - length ds) "0"%char ++ ds.

(** [snprintf] into a buffer of [size] bytes, the terminator included. *)
Definition snprintf (size : nat) (s : list ascii) : list ascii := take (size - 1) s.

(** ** [NewUuid] *)

Definition uuid_layout (a b : Z) : list ascii :=
  printf_x 8 (Z.shiftr a 32 mod 2 ^ 32) ++ ["-"%char] ++
  printf_x 4 (Z.land (Z.shiftr a 16) 65535) ++ ["-"; "4"]%char ++
  printf_x 3 (Z.land a 4095) ++ ["-"%char] ++
  printf_x 4 (Z.lor (Z.land (Z.shiftr b 48) 16383) 32768) ++ ["-"%char] ++
  printf_x 12 (Z.land b 281474976710655).

(** From the two 64-bit numbers the generator gives. *)
Definition NewUuid (a b : Z) : list ascii := snprintf 37 (uuid_layout a b).

(** [gethostname] into 256 bytes: the name when it fits, nothing when the call fails. *)
Definition DefaultIdentity (pid : Z) (hostname : option string) : string :=
  to_string pid +:+ "@" +:+ String.substring 0 255 (default "" hostname).

(** ** Facts *)

Lemma hex_digit_inj d d' : 0 <= d < 16 -> 0 <= d' < 16 -> hex_digit d = hex_digit d' -> d = d'.
Proof.
  intros Hd Hd' He.
  assert (forall x, 0 <= x < 16 -> x = 0 \/ x = 1 \/ x = 2 \/ x = 3 \/ x = 4 \/ x = 5 \/ x = 6 \/ x = 7 \/
    x = 8 \/ x = 9 \/ x = 10 \/ x = 11 \/ x = 12 \/ x = 13 \/ x = 14 \/ x = 15) as Hx by lia.
  destruct (Hx d Hd) as [->|[->|[->|[->|[->|[->|[->|[->|[->|[->|[->|[->|[->|[->|[->| ->]]]]]]]]]]]]]]];
  destruct (Hx d' Hd') as [->|[->|[->|[->|[->|[->|[->|[->|[->|[->|[->|[->|[->|[->|[->| ->]]]]]]]]]]]]]]];
  first [reflexivity|discriminate He].
Qed.

(** The last [w] digits. *)
Fixpoint fixed_hex (w : nat) (n : Z) : list ascii :=
  match w with
  | O => []
  | S w => fixed_hex w (n / 16) ++ [hex_digit (n mod 16)]
  end.

Lemma fixed_hex_length w n : length (fixed_hex w n) = w.
Proof. revert n. induction w as [|w IH]; intros n; simpl; [done|]. rewrite length_app, IH. simpl. lia. Qed.

Lemma fixed_hex_zero w : fixed_hex w 0 = replicate w "0"%char.
Proof.
  induction w as [|w IH]; [done|]. cbn [fixed_hex]. change (0 / 16) with 0. change (0 mod 16) with 0.
  rewrite IH. symmetry. apply replicate_cons_app.
Qed.

Lemma fixed_hex_inj w n n' :
  0 <= n < 16 ^ Z.of_nat w -> 0 <= n' < 16 ^ Z.of_nat w -> fixed_hex w n = fixed_hex w n' -> n = n'.
Proof.
  revert n n'. induction w as [|w IH]; intros n n' Hn Hn' He; [change (16 ^ Z.of_nat 0) with 1 in *; lia|].
  rewrite Nat2Z.inj_succ, Z.pow_succ_r in Hn, Hn' by lia. cbn [fixed_hex] in He.
  apply app_inj_2 in He as [He [= Hd]]; [|done].
  pose proof (Z.mod_pos_bound n 16 ltac:(lia)). pose proof (Z.mod_pos_bound n' 16 ltac:(lia)).
  pose proof (Z.div_mod n 16 ltac:(lia)). pose proof (Z.div_mod n' 16 ltac:(lia)).
  apply IH in He; [|split; [apply Z.div_pos; lia|apply Z.div_lt_upper_bound; lia]..].
  apply hex_digit_inj in Hd; lia.
Qed.

Lemma rev_hex_digits fuel w n :
  (0 < w <= fuel)%nat -> 0 <= n < 16 ^ Z.of_nat w ->
  replicate (w - length (hex_digits fuel n)) "0"%char ++ rev (hex_digits fuel n) = fixed_hex w n.
Proof.
  revert w n. induction fuel as [|fuel IH]; intros w n Hw Hn; [lia|].
  destruct w as [|w]; [lia|]. rewrite Nat2Z.inj_succ, Z.pow_succ_r in Hn by lia.
  cbn [hex_digits fixed_hex]. destruct (n / 16 =? 0) eqn:E.
  - apply Z.eqb_eq in E. rewrite E, fixed_hex_zero. simpl. by rewrite Nat.sub_0_r.
  - apply Z.eqb_neq in E. assert (Hq : 0 < n / 16) by (pose proof (Z.div_pos n 16); lia).
    assert (Hlt : n / 16 < 16 ^ Z.of_nat w) by (apply Z.div_lt_upper_bound; lia).
    destruct w as [|w]; [change (16 ^ Z.of_nat 0) with 1 in Hlt; lia|].
    simpl rev. simpl length. rewrite Nat.sub_succ, (app_assoc (replicate _ _)), (IH (S w)); [done|lia|lia].
Qed.

Lemma printf_x_fixed w n :
  (0 < w <= 16)%nat -> 0 <= n < 16 ^ Z.of_nat w -> printf_x w n = fixed_hex w n.
Proof. intros Hw Hn. unfold printf_x. rewrite length_rev. by apply rev_hex_digits. Qed.

(** The five fields. *)

Lemma clock_seq m : 0 <= m < 2 ^ 14 -> Z.lor m 32768 = m + 2 ^ 15.
Proof.
  intros Hm. rewrite <- Z.add_lor_land. change 32768 with (2 ^ 15).
  enough (Z.land m (2 ^ 15) = 0) by lia.
  apply Z.bits_inj'. intros i Hi. rewrite Z.land_spec, Z.pow2_bits_eqb, Z.bits_0 by lia.
  destruct (15 =? i) eqn:E; [|apply andb_false_r]. apply Z.eqb_eq in E as <-.
  rewrite <- (Z.mod_small m (2 ^ 14)), Z.mod_pow2_bits_high by lia. done.
Qed.

(** The fields of a uuid. *)
Definition fields (a b : Z) : list ascii :=
  fixed_hex 8 (a / 2 ^ 32) ++ ["-"%char] ++ fixed_hex 4 (a / 2 ^ 16 mod 2 ^ 16) ++ ["-"; "4"]%char ++
  fixed_hex 3 (a mod 2 ^ 12) ++ ["-"%char] ++ fixed_hex 4 (b / 2 ^ 48 mod 2 ^ 14 + 2 ^ 15) ++ ["-"%char] ++
  fixed_hex 12 (b mod 2 ^ 48).

Lemma div_range a : 0 <= a < 2 ^ 64 -> 0 <= a / 2 ^ 32 < 2 ^ 32.
Proof. intros Ha. split; [apply Z.div_pos; lia|apply Z.div_lt_upper_bound; lia]. Qed.

Lemma uuid_layout_fields a b : 0 <= a < 2 ^ 64 -> uuid_layout a b = fields a b.
Proof.
  intros Ha. unfold uuid_layout, fields.
  change 65535 with (Z.ones 16). change 4095 with (Z.ones 12). change 16383 with (Z.ones 14).
  change 281474976710655 with (Z.ones 48).
  rewrite !Z.land_ones, !Z.shiftr_div_pow2 by lia.
  pose proof (div_range a Ha).
  pose proof (Z.mod_pos_bound (a / 2 ^ 16) (2 ^ 16) ltac:(lia)).
  pose proof (Z.mod_pos_bound a (2 ^ 12) ltac:(lia)).
  pose proof (Z.mod_pos_bound (b / 2 ^ 48) (2 ^ 14) ltac:(lia)).
  pose proof (Z.mod_pos_bound b (2 ^ 48) ltac:(lia)).
  rewrite clock_seq, (Z.mod_small (a / 2 ^ 32)) by lia.
  rewrite !printf_x_fixed; [done|lia..].
Qed.

Lemma fields_inj a b a' b' :
  0 <= a < 2 ^ 64 -> 0 <= a' < 2 ^ 64 -> fields a b = fields a' b' ->
  a / 2 ^ 16 = a' / 2 ^ 16 /\ a mod 2 ^ 12 = a' mod 2 ^ 12 /\ b mod 2 ^ 62 = b' mod 2 ^ 62.
Proof.
  intros Ha Ha' He. unfold fields in He.
  apply app_inj_1 in He as [H1 He]; [|by rewrite !fixed_hex_length]. apply app_inj_1 in He as [_ He]; [|done].
  apply app_inj_1 in He as [H2 He]; [|by rewrite !fixed_hex_length]. apply app_inj_1 in He as [_ He]; [|done].
  apply app_inj_1 in He as [H3 He]; [|by rewrite !fixed_hex_length]. apply app_inj_1 in He as [_ He]; [|done].
  apply app_inj_1 in He as [H4 He]; [|by rewrite !fixed_hex_length]. apply app_inj_1 in He as [_ He]; [|done].
  assert (Hpos : forall x n, 0 < n -> 0 <= x mod n < n) by (intros; by apply Z.mod_pos_bound).
  apply fixed_hex_inj in H1; [|by apply div_range..].
  apply fixed_hex_inj in H2; [|apply Hpos; lia..].
  apply fixed_hex_inj in H3;
    [|change (16 ^ Z.of_nat 3) with (2 ^ 12); apply Hpos; lia..].
  apply fixed_hex_inj in H4;
    [|pose proof (Hpos (b / 2 ^ 48) (2 ^ 14)); pose proof (Hpos (b' / 2 ^ 48) (2 ^ 14)); lia..].
  apply fixed_hex_inj in He;
    [|change (16 ^ Z.of_nat 12) with (2 ^ 48); apply Hpos; lia..].
  split_and!; [|done|].
  - pose proof (Z.div_mod (a / 2 ^ 16) (2 ^ 16) ltac:(lia)).
    pose proof (Z.div_mod (a' / 2 ^ 16) (2 ^ 16) ltac:(lia)).
    rewrite !Z.div_div in * by lia. change (2 ^ 16 * 2 ^ 16) with (2 ^ 32) in *. lia.
  - change (2 ^ 62) with (2 ^ 48 * 2 ^ 14). rewrite !Z.rem_mul_r by lia. lia.
Qed.

(** [NewUuid] makes a version 4 uuid out of any two 64-bit numbers: 36 characters,
    which with the terminator just fill its buffer; dashes, the version and the variant
    in their places; and it keeps 122 bits - two numbers that differ in one of them
    never make the same uuid. *)
Theorem NewUuid_is_v4 a b :
  0 <= a < 2 ^ 64 -> 0 <= b < 2 ^ 64 ->
  length (uuid_layout a b) = 36%nat /\ NewUuid a b = uuid_layout a b /\
  (forall i, i ∈ [8; 13; 18; 23]%nat -> NewUuid a b !! i = Some "-"%char) /\
  NewUuid a b !! 14%nat = Some "4"%char /\
  (exists d, 8 <= d < 12 /\ NewUuid a b !! 19%nat = Some (hex_digit d)) /\
  (forall a' b', 0 <= a' < 2 ^ 64 -> 0 <= b' < 2 ^ 64 ->
     (NewUuid a b = NewUuid a' b' <->
      a / 2 ^ 16 = a' / 2 ^ 16 /\ a mod 2 ^ 12 = a' mod 2 ^ 12 /\ b mod 2 ^ 62 = b' mod 2 ^ 62)).
Proof.
  intros Ha Hb.
  assert (Hu : forall a b, 0 <= a < 2 ^ 64 -> NewUuid a b = fields a b).
  { intros a0 b0 Ha0. unfold NewUuid. by rewrite uuid_layout_fields. }
  rewrite (Hu a b Ha), uuid_layout_fields by done. split_and!; try done.
  - intros i Hi. repeat (apply elem_of_cons in Hi as [->|Hi]; [reflexivity|]). by apply elem_of_nil in Hi.
  - pose proof (Z.mod_pos_bound (b / 2 ^ 48) (2 ^ 14) ltac:(lia)) as Hm. set (m := b / 2 ^ 48 mod 2 ^ 14) in *.
    exists ((m + 2 ^ 15) / 16 / 16 / 16 mod 16). split; [|reflexivity].
    rewrite !Z.div_div by lia. change (16 * (16 * 16)) with 4096.
    assert (8 <= (m + 2 ^ 15) / 4096 < 12)
      by (split; [apply Z.div_le_lower_bound; lia|apply Z.div_lt_upper_bound; lia]).
    rewrite Z.mod_small; lia.
  - intros a' b' Ha' Hb'. rewrite (Hu a' b' Ha'). split; [by apply fields_inj|].
    intros (H1 & H2 & H3). unfold fields.
    assert (Hq : a / 2 ^ 32 = a' / 2 ^ 32).
    { change (2 ^ 32) with (2 ^ 16 * 2 ^ 16). rewrite <- !Z.div_div by lia. by rewrite H1. }
    assert (Hc : b / 2 ^ 48 mod 2 ^ 14 = b' / 2 ^ 48 mod 2 ^ 14 /\ b mod 2 ^ 48 = b' mod 2 ^ 48).
    { change (2 ^ 62) with (2 ^ 48 * 2 ^ 14) in H3. rewrite !Z.rem_mul_r in H3 by lia.
      pose proof (Z.mod_pos_bound b (2 ^ 48) ltac:(lia)). pose proof (Z.mod_pos_bound b' (2 ^ 48) ltac:(lia)). lia. }
    destruct Hc as [Hc1 Hc2]. by rewrite Hq, H1, H2, Hc1, Hc2.
Qed.

Lemma NewUuid_is_v4_witness :
  NewUuid 0 0 = String.list_ascii_of_string "00000000-0000-4000-8000-000000000000" /\
  NewUuid (2 ^ 63 + 4096) 5 <> NewUuid (2 ^ 63 + 65536) 5.
Proof.
  destruct (NewUuid_is_v4 (2 ^ 63 + 4096) 5) as (_ & _ & _ & _ & _ & Hi); [lia..|].
  split; [reflexivity|]. intros He.
  apply (Hi (2 ^ 63 + 65536) 5) in He as (H1 & _); [|lia..]. discriminate H1.
Defined.
