(* ===== verification/Logging.v ===== *)
(** * Logging

    [log/logger.{h,cpp}]: the levels, the logger interface and the console logger, which
    writes a record as one line.  The clock ([gmtime_r] of the system clock) is an
    argument; the mutex makes a record one write to the stream. *)

From Stdlib Require Import Ascii.
From S2P Require Import Prelude.

Inductive Level := Debug | Info | Warn | Error.

(** Anything outside the enumeration is ["?"]. *)
Definition LevelName (level : Level) : string :=
  match level with Debug => "DEBUG" | Info => "INFO" | Warn => "WARN" | Error => "ERROR" end.

Record Field := mkField { key : string; value : string }.

(** [std::tm], as far as it is printed, and the milliseconds. *)
Record tm := mkTm { tm_year : Z; tm_mon : Z; tm_mday : Z; tm_hour : Z; tm_min : Z; tm_sec : Z; tm_ms : Z }.

(** [%0wd] *)
Definition printf_d (w : nat) (n : Z) : string :=
  let digits := to_string (Z.abs n) in
  let width := (w - (if (n <? 0)%Z then 1 else 0) - String.length digits)%nat in
  (if n <? 0 then "-" else "") +:+ String.string_of_list_ascii (replicate width "0"%char) +:+ digits.

(** [snprintf] into 32 bytes. *)
Definition Utc8601 (t : tm) : string :=
  String.substring 0 31
    (printf_d 4 (tm_year t + 1900) +:+ "-" +:+ printf_d 2 (tm_mon t + 1) +:+ "-" +:+ printf_d 2 (tm_mday t) +:+
     "T" +:+ printf_d 2 (tm_hour t) +:+ ":" +:+ printf_d 2 (tm_min t) +:+ ":" +:+ printf_d 2 (tm_sec t) +:+
     "." +:+ printf_d 3 (tm_ms t) +:+ "Z").

Definition newline : string := String (ascii_of_nat 10) "".

Fixpoint show_fields (fields : list Field) : string :=
  match fields with
  | [] => ""
  | f :: fields => " " +:+ key f +:+ "=" +:+ value f +:+ show_fields fields
  end.

(** What [ConsoleLogger::Log] writes. *)
Definition Log (now : tm) (level : Level) (message : string) (fields : list Field) : string :=
  Utc8601 now +:+ " " +:+ LevelName level +:+ " " +:+ message +:+ show_fields fields +:+ newline.

(** ** Facts *)

Fixpoint newlines (s : string) : nat :=
  match s with
  | EmptyString => 0
  | String a s => (if Ascii.eqb a (ascii_of_nat 10) then 1 else 0) + newlines s
  end.

Lemma newlines_app s s' : newlines (s +:+ s') = (newlines s + newlines s')%nat.
Proof. induction s as [|a s IH]; [done|]. simpl. rewrite IH. lia. Qed.

Fixpoint all_newlines (fields : list Field) : nat :=
  match fields with
  | [] => 0
  | f :: fields => newlines (key f) + newlines (value f) + all_newlines fields
  end.

Lemma newlines_fields fields : newlines (show_fields fields) = all_newlines fields.
Proof.
  induction fields as [|f fields IH]; [done|]. cbn [show_fields all_newlines].
  rewrite !newlines_app, IH. simpl. lia.
Qed.

Lemma newlines_level level : newlines (LevelName level) = 0%nat.
Proof. by destruct level. Qed.

(** A record is a line of its own exactly when nothing in it breaks the line: the console
    logger writes keys, values and the message as they are. *)
Lemma Log_lines now level message fields :
  newlines (Utc8601 now) = 0%nat ->
  newlines (Log now level message fields) = (1 + newlines message + all_newlines fields)%nat.
Proof.
  intros Ht. unfold Log. rewrite !newlines_app, newlines_fields, newlines_level, Ht. simpl. lia.
Qed.

Example utc : Utc8601 (mkTm 126 5 8 12 0 0 123) = "2026-06-08T12:00:00.123Z".
Proof. reflexivity. Qed.

Example log_line :
  Log (mkTm 126 5 8 12 0 0 123) Info "workflow completed" [mkField "run_id" "abc"; mkField "result" "ok"] =
  "2026-06-08T12:00:00.123Z INFO workflow completed run_id=abc result=ok" +:+ newline.
Proof. reflexivity. Qed.
