(* ===== verification/Effects.v ===== *)
(** * Calls with effects

    A call made by a handler, a client or an interceptor: it runs over a state and
    ends with a value or an exception, unless the calling thread blocks forever or its
    behaviour is undefined. *)

From S2P Require Import Prelude Common.

(** A value, the calling thread blocked forever, or undefined behaviour. *)
Inductive outcome (A : Type) :=
| Val (a : A)
| Hang
| UB.
Arguments Val {A}.
Arguments Hang {A}.
Arguments UB {A}.

Abbreviation Act S A := (S -> outcome (S * result A)).

Section Act.
Context {S : Type}.

Definition hret {A} (a : A) : Act S A := fun s => Val (s, inr a).
Definition hthrow {A} (e : exn) : Act S A := fun s => Val (s, inl e).
Definition hbind {A B} (m : Act S A) (k : A -> Act S B) : Act S B := fun s =>
  match m s with
  | Val (s, inr a) => k a s
  | Val (s, inl e) => Val (s, inl e)
  | Hang => Hang
  | UB => UB
  end.
Definition hlift {A} (x : result A) : Act S A := fun s => Val (s, x).

(** A step whose exception is handed to the continuation instead of propagating. *)
Definition htry {A B} (m : Act S A) (k : result A -> Act S B) : Act S B := fun s =>
  match m s with
  | Val (s, x) => k x s
  | Hang => Hang
  | UB => UB
  end.

(** [catch (const std::exception&)]. *)
Definition catch_std {A B} (x : result A) (on_error : exn -> Act S B) (on_ok : A -> Act S B) :
    Act S B :=
  match x with
  | inr a => on_ok a
  | inl e => if is_std_exception e then on_error e else hthrow e
  end.

(** Evaluating the first step of a sequence. *)
Lemma hbind_val {A B} (m : Act S A) (k : A -> Act S B) s s1 a :
  m s = Val (s1, inr a) -> hbind m k s = k a s1.
Proof. intros Hm. unfold hbind. by rewrite Hm. Qed.

Lemma hbind_exn {A B} (m : Act S A) (k : A -> Act S B) s s1 e :
  m s = Val (s1, inl e) -> hbind m k s = Val (s1, inl e).
Proof. intros Hm. unfold hbind. by rewrite Hm. Qed.

Lemma hbind_ret {A B} (a : A) (k : A -> Act S B) s : hbind (hret a) k s = k a s.
Proof. reflexivity. Qed.

Lemma hbind_assoc {A B C} (m : Act S A) (f : A -> Act S B) (g : B -> Act S C) s :
  hbind (hbind m f) g s = hbind m (fun a => hbind (f a) g) s.
Proof. unfold hbind. destruct (m s) as [[s1 [e|a]]| |]; reflexivity. Qed.
End Act.

Declare Scope act_scope.
Delimit Scope act_scope with act.
Notation "x <== m ;; k" := (hbind m (fun x => k))
  (at level 100, m at next level, right associativity) : act_scope.
Notation "m ;;== k" := (hbind m (fun _ => k)) (at level 100, right associativity) : act_scope.
#[global] Open Scope act_scope.
