(* ===== verification/Determinism.v ===== *)
(** * Non-determinism detection ([src/src/internal/determinism.h])

    The orchestration commands of a workflow as an ordered stream of
    [CommandEvent]s, and [MatchReplayCommands], which compares the stream a replay
    produced with the stream history recorded.  The specification
    ([consistent]) is that history is a prefix of what the replay produced, up to
    [CommandMatchesEvent]. *)

From S2P Require Import Prelude.

Module CommandEvent.
Inductive Kind :=
| Activity | RequestCancelActivity | Timer | CancelTimer | ChildWorkflow
| RequestCancelExternalWorkflow | SignalExternalWorkflow | UpsertSearchAttributes
| NexusOperation | Marker | CompleteWorkflow | FailWorkflow | ContinueAsNew.

#[export] Instance Kind_eq_dec : EqDecision Kind.
Proof. solve_decision. Defined.

Record t := mk { kind : Kind; id : string; name : string }.

#[export] Instance t_eq_dec : EqDecision t.
Proof. solve_decision. Defined.
End CommandEvent.
Import CommandEvent.

Abbreviation CommandEvent := CommandEvent.t.

(** The enumerators are contiguous from 0, in declaration order. *)
Definition kind_index (k : Kind) : nat :=
  match k with
  | Activity => 0 | RequestCancelActivity => 1 | Timer => 2 | CancelTimer => 3
  | ChildWorkflow => 4 | RequestCancelExternalWorkflow => 5 | SignalExternalWorkflow => 6
  | UpsertSearchAttributes => 7 | NexusOperation => 8 | Marker => 9
  | CompleteWorkflow => 10 | FailWorkflow => 11 | ContinueAsNew => 12
  end%nat.

Definition kCommandKindNames : list string :=
  [ "ScheduleActivity"; "RequestCancelActivity"; "StartTimer"; "CancelTimer";
    "StartChildWorkflow"; "RequestCancelExternalWorkflowExecution";
    "SignalExternalWorkflowExecution"; "UpsertWorkflowSearchAttributes";
    "ScheduleNexusOperation"; "RecordMarker"; "CompleteWorkflowExecution";
    "FailWorkflowExecution"; "ContinueAsNewWorkflowExecution" ].

Definition CommandKindName (k : Kind) : string :=
  let idx := kind_index k in
  if bool_decide (idx < length kCommandKindNames)%nat
  then default "" (kCommandKindNames !! idx) else "Unknown".

(** Activities and children are keyed by id and type name, timers, markers and
    the like by id, terminal commands by kind alone. *)
Definition CommandMatchesEvent (produced expected : CommandEvent) : bool :=
  if negb (bool_decide (kind produced = kind expected)) then false else
  match kind produced with
  | Activity | ChildWorkflow =>
    bool_decide (id produced = id expected) && bool_decide (name produced = name expected)
  | RequestCancelActivity | RequestCancelExternalWorkflow | SignalExternalWorkflow
  | UpsertSearchAttributes | Timer | CancelTimer | NexusOperation | Marker =>
    bool_decide (id produced = id expected)
  | CompleteWorkflow | FailWorkflow | ContinueAsNew => true
  end.

Definition Describe (c : CommandEvent) : string :=
  let s := CommandKindName (kind c) in
  let s := if negb (str_empty (id c)) then s +:+ ("/" +:+ id c) else s in
  let s := if negb (str_empty (name c)) then s +:+ ("/" +:+ name c) else s in
  s.

(** The two messages the loop can return. *)
Definition missing_message (expected : CommandEvent) : string :=
  "[TMPRL1100] nondeterministic workflow: missing replay command for history "
    +:+ Describe expected.

Definition mismatch_message (i : nat) (produced expected : CommandEvent) : string :=
  "[TMPRL1100] nondeterministic workflow: at command #" +:+ to_string (Z.of_nat i)
    +:+ " history recorded " +:+ Describe expected
    +:+ " but replay produced " +:+ Describe produced.

(** The [for] loop, from index [i] with [n] iterations left. *)
Fixpoint match_loop (produced expected : list CommandEvent) (i n : nat) : option string :=
  match n with
  | O => None
  | S n' =>
    match expected !! i with
    | None => None
    | Some e =>
      match produced !! i with
      | None => Some (missing_message e)
      | Some p =>
        if negb (CommandMatchesEvent p e) then Some (mismatch_message i p e)
        else match_loop produced expected (S i) n'
      end
    end
  end.

Definition MatchReplayCommands (produced expected : list CommandEvent) : option string :=
  match_loop produced expected 0 (length expected).

(** ** Specification *)

(** [expected] is matched, position by position, by a prefix of [produced]. *)
Definition consistent (produced expected : list CommandEvent) : Prop :=
  exists front trailing, produced = front ++ trailing /\
    Forall2 (fun p e => CommandMatchesEvent p e = true) front expected.

(** What [CommandMatchesEvent] compares: the part of a command the server echoes
    back into its history event. *)
Definition echoed (c : CommandEvent) : Kind * option (string * option string) :=
  (kind c,
   match kind c with
   | Activity | ChildWorkflow => Some (id c, Some (name c))
   | CompleteWorkflow | FailWorkflow | ContinueAsNew => None
   | _ => Some (id c, None)
   end).

(** ** Lemmas *)

Lemma CommandMatchesEvent_echoed p e : CommandMatchesEvent p e = true <-> echoed p = echoed e.
Proof.
  unfold CommandMatchesEvent, echoed. destruct p as [k i n], e as [k' i' n']; simpl.
  destruct (decide (k = k')) as [<-|Hk].
  - rewrite bool_decide_eq_true_2 by done. simpl.
    destruct k; rewrite ?andb_true_iff, ?bool_decide_eq_true; intuition congruence.
  - rewrite bool_decide_eq_false_2 by done. simpl. intuition congruence.
Qed.

Lemma CommandMatchesEvent_refl c : CommandMatchesEvent c c = true.
Proof. by apply CommandMatchesEvent_echoed. Qed.

#[export] Hint Resolve CommandMatchesEvent_refl : temporal.

(** The loop read as a recursion on the two suffixes that are left. *)
Fixpoint match_from (i : nat) (produced expected : list CommandEvent) {struct expected}
  : option string :=
  match expected with
  | [] => None
  | e :: es =>
    match produced with
    | [] => Some (missing_message e)
    | p :: ps =>
      if CommandMatchesEvent p e then match_from (S i) ps es else Some (mismatch_message i p e)
    end
  end.

Lemma match_loop_from produced expected i n :
  (i + n = length expected)%nat ->
  match_loop produced expected i n = match_from i (drop i produced) (drop i expected).
Proof.
  revert i. induction n as [|n IH]; intros i Hi; simpl.
  - by rewrite (drop_ge expected) by lia.
  - destruct (lookup_lt_is_Some_2 expected i) as [e He]; [lia|].
    rewrite He, (drop_S expected e i He). simpl.
    destruct (produced !! i) as [p|] eqn:Hp.
    + rewrite (drop_S produced p i Hp). destruct (CommandMatchesEvent p e); simpl; [|done].
      apply IH. lia.
    + by rewrite (drop_ge produced) by (by apply lookup_ge_None).
Qed.

Lemma MatchReplayCommands_from produced expected :
  MatchReplayCommands produced expected = match_from 0 produced expected.
Proof. unfold MatchReplayCommands. rewrite match_loop_from by lia. by rewrite !drop_0. Qed.

Lemma consistent_nil produced : consistent produced [].
Proof. by exists [], produced. Qed.

Lemma consistent_no_command e es : ~ consistent [] (e :: es).
Proof. intros (front & tr & Heq & H2). inversion H2; subst. discriminate. Qed.

Lemma consistent_cons p ps e es :
  consistent (p :: ps) (e :: es) <-> CommandMatchesEvent p e = true /\ consistent ps es.
Proof.
  split.
  - intros (front & tr & Heq & H2). inversion H2; subst. simplify_eq/=. split; [done|].
    by exists l, tr.
  - intros [Hm (front & tr & -> & H2)]. exists (p :: front), tr. split; [done|]. by constructor.
Qed.

#[export] Hint Resolve consistent_nil : temporal.

Lemma match_from_None i produced expected :
  match_from i produced expected = None <-> consistent produced expected.
Proof.
  revert i produced. induction expected as [|e es IH]; intros i [|p ps]; simpl.
  - split; auto with temporal.
  - split; auto with temporal.
  - split; [done|]. by intros ?%consistent_no_command.
  - rewrite consistent_cons. destruct (CommandMatchesEvent p e); [|intuition congruence].
    rewrite IH. intuition.
Qed.

(** Where and why the comparison stops, at index [i] plus the offset [k]. *)
Definition diverges_at (i k : nat) (produced expected : list CommandEvent) (msg : string) : Prop :=
  exists e, expected !! k = Some e /\ consistent produced (take k expected) /\
    ((produced !! k = None /\ msg = missing_message e) \/
     (exists p, produced !! k = Some p /\ CommandMatchesEvent p e = false /\
        msg = mismatch_message (i + k) p e)).

Lemma diverges_at_S i k p ps e es msg :
  diverges_at i (S k) (p :: ps) (e :: es) msg <->
  CommandMatchesEvent p e = true /\ diverges_at (S i) k ps es msg.
Proof.
  unfold diverges_at. simpl. rewrite Nat.add_succ_r. setoid_rewrite consistent_cons. naive_solver.
Qed.

Lemma match_from_Some i produced expected msg :
  match_from i produced expected = Some msg <-> exists k, diverges_at i k produced expected msg.
Proof.
  revert i produced. induction expected as [|e es IH]; intros i [|p ps]; simpl.
  - split; [done|]. by intros (k & e & ? & _).
  - split; [done|]. by intros (k & e & ? & _).
  - split.
    + intros [= <-]. exists 0%nat, e. simpl. auto with temporal.
    + intros ([|k] & e' & He & Hc & Hor); simplify_eq/=.
      * by destruct Hor as [[_ ->]|(p & Hp & _)].
      * by apply consistent_no_command in Hc.
  - destruct (CommandMatchesEvent p e) eqn:Hm.
    + rewrite IH. split.
      * intros [k Hk]. exists (S k). by apply diverges_at_S.
      * intros [[|k] Hk].
        { destruct Hk as (e' & ? & _ & [[? _]|(? & ? & ? & _)]); simplify_eq/=; congruence. }
        exists k. by apply diverges_at_S in Hk as [_ Hk].
    + split.
      * intros [= <-]. exists 0%nat, e. simpl. rewrite Nat.add_0_r.
        split_and!; [done | apply consistent_nil |]. right. by exists p.
      * intros [[|k] Hk]; [|apply diverges_at_S in Hk as [? _]; congruence].
        destruct Hk as (e' & ? & _ & [[? _]|(p' & ? & _ & ->)]); simplify_eq/=.
        by rewrite Nat.add_0_r.
Qed.

Lemma consistent_app_trailing produced trailing expected :
  consistent produced expected -> consistent (produced ++ trailing) expected.
Proof.
  intros (front & tr & -> & H). exists front, (tr ++ trailing). by rewrite <- app_assoc.
Qed.

Lemma consistent_refl_prefix produced trailing : consistent (produced ++ trailing) produced.
Proof.
  exists produced, trailing. split; [done|].
  induction produced; constructor; auto with temporal.
Qed.

#[export] Hint Resolve consistent_app_trailing consistent_refl_prefix : temporal.

(** ** Properties *)

(** C20: [MatchReplayCommands] accepts a replay exactly when every recorded
    command is reproduced at the same position; commands past the recorded ones
    are forward progress and never refused. *)
Theorem MatchReplayCommands_accepts produced expected :
  MatchReplayCommands produced expected = None <-> consistent produced expected.
Proof. rewrite MatchReplayCommands_from. apply match_from_None. Qed.

(** When it rejects, the message names the first position at which history
    and replay part: either the replay has no command there (missing), or one that
    does not match (mismatch); everything before that position matched. *)
Theorem MatchReplayCommands_first_divergence produced expected msg :
  MatchReplayCommands produced expected = Some msg <->
  exists k e, expected !! k = Some e /\ consistent produced (take k expected) /\
    ((produced !! k = None /\ msg = missing_message e) \/
     (exists p, produced !! k = Some p /\ CommandMatchesEvent p e = false /\
        msg = mismatch_message k p e)).
Proof. rewrite MatchReplayCommands_from. apply match_from_Some. Qed.
