(* ===== verification/LruCache.v ===== *)
(** * The sticky cache's container ([src/src/internal/lru_cache.h])

    [LruCache<K, V>] keeps a doubly linked list of entries, most recently used
    first, and a hash map from key to the list iterator of its entry.  An iterator
    is a node identity here, so a stale iterator can be expressed; the invariant
    [wf] says there is none.  The specification [spec_get]/[spec_put]/[spec_remove] works on an association list,
    most recently used first, truncated to the capacity. *)

From S2P Require Import Prelude.

Module Lru.
Section LruCache.
Context {K : Type} `{Countable K} {V : Type}.

(** A list node: its identity and the stored pair. *)
Abbreviation node := (nat * (K * V))%type.
Definition node_id (n : node) : nat := n.1.
Definition node_key (n : node) : K := n.2.1.
Definition node_val (n : node) : V := n.2.2.

Record LruCache := mkLruCache {
  capacity_ : nat;
  order_ : list node;
  index_ : gmap K nat;
  next_node : nat
}.

#[export] Instance LruCache_eta : Eta LruCache := fun c =>
  {| capacity_ := capacity_ c; order_ := order_ c; index_ := index_ c;
     next_node := next_node c |}.

Definition make (capacity : nat) : LruCache :=
  {| capacity_ := capacity; order_ := []; index_ := ∅; next_node := 0 |}.

(** The node an iterator points to. *)
Definition deref (it : nat) (l : list node) : option node :=
  snd <$> list_find (fun n => node_id n = it) l.

(** Unlink the node of an iterator. *)
Definition unlink (it : nat) (l : list node) : list node :=
  filter (fun n => node_id n <> it) l.

(** [order_.splice(order_.begin(), order_, it)]. *)
Definition splice_front (it : nat) (l : list node) : list node :=
  match deref it l with
  | Some n => n :: unlink it l
  | None => l
  end.

(** [it->second = std::move(value)]. *)
Definition assign (it : nat) (v : V) (l : list node) : list node :=
  (fun n => if decide (node_id n = it) then (node_id n, (node_key n, v)) else n) <$> l.

Definition Get (key : K) (c : LruCache) : option V * LruCache :=
  match index_ c !! key with
  | None => (None, c)
  | Some it =>
    let c := c <| order_ := splice_front it (order_ c) |> in
    (node_val <$> deref it (order_ c), c)
  end.

(** The [while] loop of [EvictToCapacity]; every round pops a node, so the
    length of the list bounds the rounds. *)
Fixpoint evict_loop (fuel : nat) (c : LruCache) : LruCache :=
  match fuel with
  | O => c
  | S fuel' =>
    if bool_decide (capacity_ c <> 0%nat /\ (capacity_ c < size (index_ c))%nat) then
      match last (order_ c) with
      | None => c
      | Some victim =>
        evict_loop fuel'
          (c <| index_ := delete (node_key victim) (index_ c) |>
             <| order_ := removelast (order_ c) |>)
      end
    else c
  end.

Definition EvictToCapacity (c : LruCache) : LruCache := evict_loop (length (order_ c)) c.

Definition Put (key : K) (value : V) (c : LruCache) : LruCache :=
  match index_ c !! key with
  | Some it =>
    EvictToCapacity (c <| order_ := splice_front it (assign it value (order_ c)) |>)
  | None =>
    let it := next_node c in
    EvictToCapacity
      (c <| order_ := (it, (key, value)) :: order_ c |>
         <| next_node := S it |>
         <| index_ := <[key := it]> (index_ c) |>)
  end.

Definition Erase (key : K) (c : LruCache) : LruCache :=
  match index_ c !! key with
  | None => c
  | Some it =>
    c <| order_ := unlink it (order_ c) |> <| index_ := delete key (index_ c) |>
  end.

Definition Contains (key : K) (c : LruCache) : bool := bool_decide (is_Some (index_ c !! key)).
Definition csize (c : LruCache) : nat := size (index_ c).

(** ** Invariant *)

Definition keys (l : list node) : list K := node_key <$> l.

Record wf (c : LruCache) : Prop := {
  wf_ids : NoDup (node_id <$> order_ c);
  wf_keys : NoDup (keys (order_ c));
  wf_fresh : Forall (fun n => (node_id n < next_node c)%nat) (order_ c);
  wf_index : forall k it, index_ c !! k = Some it <->
    exists v, (it, (k, v)) ∈ order_ c;
}.

Definition bounded (c : LruCache) : Prop :=
  capacity_ c <> 0%nat -> (length (order_ c) <= capacity_ c)%nat.

(** ** Specification *)

Definition spec_lookup (key : K) (m : list (K * V)) : option V :=
  (fun p => p.2.2) <$> list_find (fun p : K * V => p.1 = key) m.

Definition spec_remove (key : K) (m : list (K * V)) : list (K * V) :=
  filter (fun p => p.1 <> key) m.

Definition spec_truncate (capacity : nat) (m : list (K * V)) : list (K * V) :=
  if decide (capacity = 0%nat) then m else take capacity m.

Definition spec_get (key : K) (m : list (K * V)) : option V * list (K * V) :=
  match spec_lookup key m with
  | Some v => (Some v, (key, v) :: spec_remove key m)
  | None => (None, m)
  end.

Definition spec_put (capacity : nat) (key : K) (v : V) (m : list (K * V)) : list (K * V) :=
  spec_truncate capacity ((key, v) :: spec_remove key m).

(** The entries of a cache, most recently used first. *)
Definition entries (c : LruCache) : list (K * V) := snd <$> order_ c.

(** ** Lemmas *)

Lemma wf_make n : wf (make n).
Proof.
  split; simpl; [constructor | constructor | constructor |].
  intros k it. rewrite lookup_empty. split; [done|]. by intros [v Hv%elem_of_nil].
Qed.

Lemma filter_all {A} (P : A -> Prop) `{forall x, Decision (P x)} (l : list A) :
  Forall P l -> filter P l = l.
Proof. induction 1; [done|]. by rewrite filter_cons_True, IHForall. Qed.

(** The entry an iterator of the index designates, with its surroundings. *)
Lemma wf_split c key it :
  wf c -> index_ c !! key = Some it ->
  exists l1 v l2, order_ c = l1 ++ (it, (key, v)) :: l2 /\
    Forall (fun n => node_id n <> it /\ node_key n <> key) (l1 ++ l2).
Proof.
  intros [Hids Hkeys _ Hidx] Hk. apply Hidx in Hk as [v Hin].
  apply list_elem_of_split in Hin as (l1 & l2 & Heq). exists l1, v, l2. split; [done|].
  rewrite Heq in Hids, Hkeys. unfold keys in Hkeys.
  rewrite fmap_app in Hids. rewrite fmap_app in Hkeys. simpl in Hids, Hkeys.
  apply NoDup_app in Hids as (_ & Hi1 & [Hi2 _]%NoDup_cons).
  apply NoDup_app in Hkeys as (_ & Hk1 & [Hk2 _]%NoDup_cons).
  apply Forall_forall. intros n [Hn|Hn]%elem_of_app; split; intros E;
    pose proof (list_elem_of_fmap_2 node_id _ _ Hn) as Hni;
    pose proof (list_elem_of_fmap_2 node_key _ _ Hn) as Hnk; rewrite E in *.
  - apply (Hi1 it); [done | left].
  - apply (Hk1 key); [done | left].
  - done.
  - done.
Qed.

Lemma list_find_app_skip {A} (P : A -> Prop) `{forall x, Decision (P x)} l1 x l2 :
  Forall (fun y => ~ P y) l1 -> P x -> snd <$> list_find P (l1 ++ x :: l2) = Some x.
Proof.
  intros Hl Hx. induction Hl as [|y l1 Hy _ IH]; simpl.
  - by rewrite decide_True.
  - rewrite decide_False by done. rewrite <- IH.
    by destruct (list_find P (l1 ++ x :: l2)) as [[? ?]|].
Qed.

Lemma list_find_none {A} (P : A -> Prop) `{forall x, Decision (P x)} l :
  Forall (fun y => ~ P y) l -> list_find P l = None.
Proof. intros Hl. by apply list_find_None. Qed.

Section Split.
Context (l1 l2 : list node) (it : nat) (key : K) (v : V).
Hypothesis Hother : Forall (fun n => node_id n <> it /\ node_key n <> key) (l1 ++ l2).

Lemma split_ids1 : Forall (fun n => node_id n <> it) l1.
Proof. apply Forall_app in Hother as [H1 _]. eapply Forall_impl; [exact H1|]. naive_solver. Qed.

Lemma split_ids : Forall (fun n => node_id n <> it) (l1 ++ l2).
Proof. eapply Forall_impl; [exact Hother|]. naive_solver. Qed.

Lemma deref_split : deref it (l1 ++ (it, (key, v)) :: l2) = Some (it, (key, v)).
Proof. apply list_find_app_skip; [apply split_ids1 | done]. Qed.

Lemma unlink_split : unlink it (l1 ++ (it, (key, v)) :: l2) = l1 ++ l2.
Proof.
  unfold unlink. rewrite filter_app, filter_cons_False by (simpl; auto).
  rewrite <- filter_app. apply filter_all, split_ids.
Qed.

Lemma splice_split :
  splice_front it (l1 ++ (it, (key, v)) :: l2) = (it, (key, v)) :: l1 ++ l2.
Proof. unfold splice_front. by rewrite deref_split, unlink_split. Qed.

Lemma assign_split v' :
  assign it v' (l1 ++ (it, (key, v)) :: l2) = l1 ++ (it, (key, v')) :: l2.
Proof.
  assert (Hid : forall l, Forall (fun n => node_id n <> it) l -> assign it v' l = l).
  { unfold assign. induction 1 as [|n l Hn _ IH]; [done|].
    rewrite fmap_cons, decide_False, IH by done. done. }
  pose proof split_ids as [H1 H2]%Forall_app.
  unfold assign in *. rewrite fmap_app, fmap_cons, Hid, Hid by done. simpl.
  by rewrite decide_True.
Qed.

Lemma spec_remove_split :
  spec_remove key (snd <$> (l1 ++ (it, (key, v)) :: l2)) = snd <$> (l1 ++ l2).
Proof.
  unfold spec_remove. rewrite fmap_app, fmap_cons, filter_app, filter_cons_False by (simpl; auto).
  rewrite <- filter_app, <- fmap_app. apply filter_all, Forall_fmap.
  eapply Forall_impl; [exact Hother|]. by intros n [_ ?].
Qed.

Lemma spec_lookup_split : spec_lookup key (snd <$> (l1 ++ (it, (key, v)) :: l2)) = Some v.
Proof.
  unfold spec_lookup. rewrite fmap_app, fmap_cons. simpl.
  pose proof (list_find_app_skip (fun p : K * V => p.1 = key) (snd <$> l1) (key, v) (snd <$> l2))
    as Hf.
  destruct (list_find _ _) as [[? ?]|]; simpl in *.
  - assert (Some p = Some (key, v)) as [= ->]; [apply Hf|done]; [|done].
    apply Forall_app in Hother as [H1 _]. apply Forall_fmap.
    eapply Forall_impl; [exact H1|]. by intros n' [_ ?].
  - assert (None = Some (key, v)); [apply Hf|done]; [|done].
    apply Forall_app in Hother as [H1 _]. apply Forall_fmap.
    eapply Forall_impl; [exact H1|]. by intros n' [_ ?].
Qed.
End Split.

(** Removing a node together with its index entry, and putting a node in
    front, are the two moves every operation is made of. *)
Lemma wf_remove c l1 it key v l2 :
  wf c -> order_ c = l1 ++ (it, (key, v)) :: l2 ->
  wf (c <| order_ := l1 ++ l2 |> <| index_ := delete key (index_ c) |>).
Proof.
  intros [Hids Hkeys Hfresh Hidx] Heq. rewrite Heq in Hids, Hkeys, Hfresh.
  assert (Hp : l1 ++ (it, (key, v)) :: l2 ≡ₚ (it, (key, v)) :: (l1 ++ l2)).
  { by rewrite Permutation_middle. }
  unfold keys in Hkeys. rewrite Hp in Hids. rewrite Hp in Hkeys. rewrite Hp in Hfresh.
  apply Forall_cons in Hfresh as [_ Hfresh].
  apply NoDup_cons in Hids as [_ Hids]. apply NoDup_cons in Hkeys as [Hk Hkeys].
  split; simpl; [done | done | done |]. intros k i. rewrite lookup_delete_Some, Hidx, Heq.
  setoid_rewrite Hp. setoid_rewrite elem_of_cons. split.
  - intros [Hne [v' [[=]|Hin]]]; [congruence|]. by exists v'.
  - intros [v' Hin]. split; [|by exists v'; right].
    intros <-. apply Hk. by apply (list_elem_of_fmap_2 node_key _ (i, (key, v'))).
Qed.

Lemma wf_push c it key v :
  wf c -> index_ c !! key = None ->
  (it < next_node c)%nat -> it ∉ (node_id <$> order_ c) ->
  wf (c <| order_ := (it, (key, v)) :: order_ c |> <| index_ := <[key := it]> (index_ c) |>).
Proof.
  intros [Hids Hkeys Hfresh Hidx] Hnone Hlt Hnew.
  assert (Hk : forall i w, (i, (key, w)) ∉ order_ c).
  { intros i w Hin. assert (index_ c !! key = Some i) by (apply Hidx; by exists w). congruence. }
  split; simpl.
  - by constructor.
  - constructor; [|done]. unfold keys. intros ([i [k w]] & E & Hin)%list_elem_of_fmap.
    cbv in E. subst. by apply (Hk i w).
  - by constructor.
  - intros k i. rewrite lookup_insert_Some, Hidx. setoid_rewrite elem_of_cons. split.
    + intros [[<- <-]|[Hne [w Hin]]]; eauto.
    + intros [w [[=]|Hin]]; subst; [by left|]. right. split; [|by exists w].
      intros ->. by apply (Hk i w).
Qed.

Lemma wf_next c n : wf c -> (next_node c <= n)%nat -> wf (c <| next_node := n |>).
Proof.
  intros [Hids Hkeys Hfresh Hidx] Hn. split; simpl; try done.
  eapply Forall_impl; [exact Hfresh|]. simpl. intros x Hx. lia.
Qed.

Lemma wf_index_size c : wf c -> size (index_ c) = length (order_ c).
Proof.
  intros [Hids Hkeys _ Hidx].
  assert (Hnd : NoDup ((fun n => (node_key n, node_id n)) <$> order_ c).*1).
  { by rewrite <- list_fmap_compose. }
  assert (index_ c = list_to_map ((fun n => (node_key n, node_id n)) <$> order_ c)) as ->.
  { apply map_eq. intros k. apply option_eq. intros it.
    rewrite Hidx, <- elem_of_list_to_map by done. rewrite list_elem_of_fmap. split.
    - intros [v Hin]. by exists (it, (k, v)).
    - intros ([i [k' v]] & [= -> ->] & Hin). by exists v. }
  rewrite map_size_list_to_map by done. by rewrite length_fmap.
Qed.

Lemma entries_length c : length (entries c) = length (order_ c).
Proof. apply length_fmap. Qed.

(** The eviction loop stops within its fuel, at the capacity, having dropped
    the tail of the recency order and nothing else. *)
Lemma evict_loop_spec fuel c :
  wf c -> (length (order_ c) <= fuel)%nat ->
  wf (evict_loop fuel c) /\ bounded (evict_loop fuel c) /\
  capacity_ (evict_loop fuel c) = capacity_ c /\
  entries (evict_loop fuel c) = spec_truncate (capacity_ c) (entries c).
Proof.
  revert c. induction fuel as [|fuel IH]; intros c Hwf Hfuel; simpl.
  - unfold bounded, entries, spec_truncate. destruct (order_ c); [|simpl in Hfuel; lia].
    split_and!; [done | simpl; lia | done |]. simpl. case_decide; [done|]. by rewrite take_nil.
  - rewrite wf_index_size by done. case_bool_decide as Hc.
    + destruct (last (order_ c)) as [[it [k v]]|] eqn:Hlast.
      2:{ apply last_None in Hlast. rewrite Hlast in Hc. simpl in Hc. lia. }
      apply last_Some in Hlast as [l Hl]. unfold node_key at 1; simpl.
      rewrite Hl, removelast_last.
      pose proof (wf_remove c l it k v [] Hwf Hl) as Hwf'. rewrite app_nil_r in Hwf'.
      rewrite Hl, length_app in Hfuel. rewrite Hl, length_app in Hc. simpl in Hfuel, Hc.
      destruct (IH _ Hwf') as (H1 & H2 & H3 & H4); [simpl; lia|].
      split_and!; [exact H1 | exact H2 | exact H3 |].
      etransitivity; [exact H4|]. unfold entries, spec_truncate. simpl. rewrite Hl.
      case_decide; [lia|]. rewrite fmap_app, take_app_le; [done|]. rewrite length_fmap. lia.
    + split_and!; [done | unfold bounded; lia | done |].
      unfold spec_truncate. case_decide; [done|]. rewrite take_ge; [done|].
      rewrite entries_length. lia.
Qed.

Lemma EvictToCapacity_spec c :
  wf c ->
  wf (EvictToCapacity c) /\ bounded (EvictToCapacity c) /\
  capacity_ (EvictToCapacity c) = capacity_ c /\
  entries (EvictToCapacity c) = spec_truncate (capacity_ c) (entries c).
Proof. intros Hwf. by apply evict_loop_spec. Qed.

Lemma wf_not_indexed c key :
  wf c -> index_ c !! key = None -> Forall (fun p : K * V => p.1 <> key) (entries c).
Proof.
  intros Hwf Hk. apply Forall_fmap, Forall_forall. intros [it [k v]] Hin E. simpl in E. subst.
  assert (index_ c !! key = Some it) by (apply (wf_index c Hwf); by exists v). congruence.
Qed.

(** The refinement relation between a cache and the list it implements. *)
Definition implements (capacity : nat) (c : LruCache) (m : list (K * V)) : Prop :=
  wf c /\ bounded c /\ capacity_ c = capacity /\ entries c = m.

Lemma make_implements n : implements n (make n) [].
Proof. split_and!; [apply wf_make | intros _; simpl; lia | done | done]. Qed.

Lemma spec_lookup_None key m :
  Forall (fun p : K * V => p.1 <> key) m -> spec_lookup key m = None.
Proof. intros Hm. unfold spec_lookup. by rewrite list_find_none. Qed.

Lemma spec_remove_None key m :
  Forall (fun p : K * V => p.1 <> key) m -> spec_remove key m = m.
Proof. apply filter_all. Qed.

(** Taking the indexed node out leaves a well-formed cache whose entries are the
    specification's removal; its identity and key are free again. *)
Lemma wf_take_out c key it l1 v l2 :
  wf c -> order_ c = l1 ++ (it, (key, v)) :: l2 ->
  Forall (fun n => node_id n <> it /\ node_key n <> key) (l1 ++ l2) ->
  let c' := c <| order_ := l1 ++ l2 |> <| index_ := delete key (index_ c) |> in
  wf c' /\ (it < next_node c)%nat /\ it ∉ (node_id <$> order_ c') /\
  index_ c' !! key = None.
Proof.
  intros Hwf Heq Hother c'. split_and!.
  - by eapply wf_remove.
  - pose proof (wf_fresh c Hwf) as Hf. rewrite Heq in Hf.
    apply Forall_app in Hf as [_ [Hf _]%Forall_cons]. exact Hf.
  - simpl. intros (n & -> & Hn)%list_elem_of_fmap.
    rewrite Forall_forall in Hother. by destruct (Hother n Hn).
  - simpl. apply lookup_delete_eq.
Qed.

Lemma Get_implements n key c m :
  implements n c m ->
  (Get key c).1 = (spec_get key m).1 /\ implements n (Get key c).2 (spec_get key m).2.
Proof.
  intros (Hwf & Hb & Hn & <-). unfold Get, spec_get, entries in *.
  destruct (index_ c !! key) as [it|] eqn:Hk.
  - destruct (wf_split c key it Hwf Hk) as (l1 & v & l2 & Heq & Ho).
    destruct (wf_take_out c key it l1 v l2 Hwf Heq Ho) as (Hwf' & Hlt & Hnew & Hfree).
    simpl. rewrite Heq, spec_lookup_split, splice_split, spec_remove_split by done.
    unfold deref. simpl. rewrite decide_True by done. simpl.
    split; [done|]. split_and!; [| | done | done].
    + pose proof (wf_push _ it key v Hwf' Hfree Hlt Hnew) as Hp. simpl in Hp.
      by rewrite insert_delete_id in Hp.
    + intros Hc. specialize (Hb Hc). rewrite Heq, length_app in Hb. simpl in *.
      rewrite length_app. lia.
  - rewrite spec_lookup_None; [done|]. by apply wf_not_indexed.
Qed.

Lemma Erase_implements n key c m :
  implements n c m -> implements n (Erase key c) (spec_remove key m).
Proof.
  intros (Hwf & Hb & Hn & <-). unfold Erase, entries in *.
  destruct (index_ c !! key) as [it|] eqn:Hk.
  - destruct (wf_split c key it Hwf Hk) as (l1 & v & l2 & Heq & Ho).
    destruct (wf_take_out c key it l1 v l2 Hwf Heq Ho) as (Hwf' & _).
    rewrite Heq, unlink_split, spec_remove_split by done.
    split_and!; [done | | done | done].
    intros Hc. specialize (Hb Hc). rewrite Heq, length_app in Hb. simpl in *.
    rewrite length_app. lia.
  - rewrite spec_remove_None by (by apply wf_not_indexed). done.
Qed.

Lemma Put_implements n key v c m :
  implements n c m -> implements n (Put key v c) (spec_put n key v m).
Proof.
  intros (Hwf & Hb & <- & <-). unfold Put, spec_put, entries in *.
  destruct (index_ c !! key) as [it|] eqn:Hk.
  - destruct (wf_split c key it Hwf Hk) as (l1 & w & l2 & Heq & Ho).
    destruct (wf_take_out c key it l1 w l2 Hwf Heq Ho) as (Hwf' & Hlt & Hnew & Hfree).
    rewrite Heq, assign_split, splice_split, spec_remove_split by done.
    pose proof (wf_push _ it key v Hwf' Hfree Hlt Hnew) as Hp. simpl in Hp.
    rewrite insert_delete_id in Hp by done. by apply EvictToCapacity_spec in Hp.
  - rewrite spec_remove_None by (by apply wf_not_indexed).
    assert (Hnew : next_node c ∉ (node_id <$> order_ c)).
    { intros (x & E & Hx)%list_elem_of_fmap. pose proof (wf_fresh c Hwf) as Hf.
      rewrite Forall_forall in Hf. specialize (Hf x Hx). simpl in Hf. lia. }
    assert (Hwf1 : wf (c <| next_node := S (next_node c) |>)) by (apply wf_next; [done|lia]).
    pose proof (wf_push _ (next_node c) key v Hwf1) as Hp. simpl in Hp.
    specialize (Hp Hk ltac:(lia) Hnew). by apply EvictToCapacity_spec in Hp.
Qed.

(** A client: a sequence of calls, and what each [Get] returns. *)
Inductive call := CGet (key : K) | CPut (key : K) (v : V) | CErase (key : K).

Definition run_call (c : LruCache) (x : call) : option (option V) * LruCache :=
  match x with
  | CGet key => let '(r, c) := Get key c in (Some r, c)
  | CPut key v => (None, Put key v c)
  | CErase key => (None, Erase key c)
  end.

Definition spec_call (n : nat) (m : list (K * V)) (x : call)
  : option (option V) * list (K * V) :=
  match x with
  | CGet key => let '(r, m) := spec_get key m in (Some r, m)
  | CPut key v => (None, spec_put n key v m)
  | CErase key => (None, spec_remove key m)
  end.

Fixpoint run_calls {S : Type} (step : S -> call -> option (option V) * S) (s : S) (xs : list call)
  : list (option (option V)) * S :=
  match xs with
  | [] => ([], s)
  | x :: xs =>
    let '(r, s) := step s x in
    let '(rs, s) := run_calls step s xs in (r :: rs, s)
  end.

Lemma run_call_implements n c m x :
  implements n c m ->
  (run_call c x).1 = (spec_call n m x).1 /\ implements n (run_call c x).2 (spec_call n m x).2.
Proof.
  intros Hi. destruct x as [key|key v|key]; simpl.
  - destruct (Get_implements n key c m Hi) as [Hr Hi'].
    destruct (Get key c), (spec_get key m). simpl in *. by subst.
  - split; [done|]. by apply Put_implements.
  - split; [done|]. by apply Erase_implements.
Qed.

Lemma run_calls_implements n c m xs :
  implements n c m ->
  (run_calls run_call c xs).1 = (run_calls (spec_call n) m xs).1 /\
  implements n (run_calls run_call c xs).2 (run_calls (spec_call n) m xs).2.
Proof.
  revert c m. induction xs as [|x xs IH]; intros c m Hi; simpl; [done|].
  destruct (run_call_implements n c m x Hi) as [Hr Hi'].
  destruct (run_call c x) as [r c1], (spec_call n m x) as [r' m1]. simpl in *. subst.
  destruct (IH c1 m1 Hi') as [Hrs Hi2].
  destruct (run_calls run_call c1 xs), (run_calls (spec_call n) m1 xs). simpl in *. by subst.
Qed.

(** ** Properties *)

(** C23: whatever sequence of [Get]/[Put]/[Erase] calls a client makes on a new
    cache, the pointer-based implementation answers exactly like the recency list
    truncated to the capacity, keeps its index and its list consistent, and never
    holds more entries than a non-zero capacity. *)
Theorem LruCache_refines (n : nat) (xs : list call) :
  let impl := run_calls run_call (make n) xs in
  let spec := run_calls (spec_call n) [] xs in
  impl.1 = spec.1 /\ entries impl.2 = spec.2 /\ wf impl.2 /\
  (n <> 0 -> csize impl.2 <= n)%nat.
Proof.
  simpl. destruct (run_calls_implements n (make n) [] xs (make_implements n))
    as [Hr (Hwf & Hb & Hn & He)].
  split_and!; [done..|]. intros Hne. unfold csize. rewrite wf_index_size by done.
  unfold bounded in Hb. rewrite Hn in Hb. by apply Hb.
Qed.

(** Inserting a new key into a full cache evicts the least recently used
    entry and only that one: the new entry comes first, then all the others but the
    last, in unchanged recency order. *)
Theorem Put_evicts_least_recent (n : nat) (m : list (K * V)) (old : K * V)
  (c : LruCache) (key : K) (v : V) :
  implements n c (m ++ [old]) -> length (m ++ [old]) = n ->
  Contains key c = false ->
  entries (Put key v c) = (key, v) :: m.
Proof.
  intros Hi Hlen Hc.
  destruct (Put_implements n key v c _ Hi) as (_ & _ & _ & ->).
  destruct Hi as (Hwf & _ & _ & He).
  unfold Contains in Hc. apply bool_decide_eq_false, eq_None_not_Some in Hc.
  unfold spec_put. rewrite spec_remove_None by (rewrite <- He; by apply wf_not_indexed).
  rewrite length_app in Hlen. simpl in Hlen.
  unfold spec_truncate. case_decide; [lia|].
  destruct n as [|n]; [done|]. simpl. f_equal. rewrite take_app_le by lia.
  apply take_ge. lia.
Qed.
End LruCache.

Lemma Put_evicts_least_recent_witness :
  entries (Put 3 "c" (Put 2 "b" (Put 1 "a" (make 2)))) = [(3, "c"); (2, "b")].
Proof.
  apply (Put_evicts_least_recent 2 [(2, "b")] (1, "a")).
  - exact (Put_implements 2 2 "b" _ _ (Put_implements 2 1 "a" _ _ (make_implements 2))).
  - reflexivity.
  - reflexivity.
Defined.

End Lru.
