(* ===== verification/History.v ===== *)
(** * Scanning a recorded history ([src/src/internal/workflow_task_handler.cpp])

    The history events the engine reads, the [Prescan] index a replay runs
    against, and [ScanHistory], which builds it in one pass.  An event's type and
    its attributes are one constructor of [EventBody]; the types the [switch] sends
    to its [default] are [OtherEvent]. *)

From S2P Require Import Prelude Common Determinism.
Import CommandEvent.

(** ** History events *)

Inductive EventBody :=
| WorkflowExecutionStarted (workflow_type : string) (input : Proto.Payloads)
    (header : gmap string Proto.Payload)
| ActivityTaskScheduled (activity_id activity_type : string)
| ActivityTaskCancelRequested (scheduled_event_id : Z)
| ActivityTaskCompleted (scheduled_event_id : Z) (result : Proto.Payloads)
| ActivityTaskFailed (scheduled_event_id : Z) (failure : Proto.Failure)
| ActivityTaskTimedOut (scheduled_event_id : Z)
| ActivityTaskCanceled (scheduled_event_id : Z)
| TimerStarted (timer_id : string)
| TimerFired (timer_id : string)
| TimerCanceled (timer_id : string)
| StartChildWorkflowExecutionInitiated (workflow_id workflow_type : string)
| ChildWorkflowExecutionCompleted (workflow_id : string) (result : Proto.Payloads)
| ChildWorkflowExecutionFailed (workflow_id : string) (failure : Proto.Failure)
| ChildWorkflowExecutionCanceled (workflow_id : string)
| RequestCancelExternalWorkflowExecutionInitiated (workflow_id : string)
| SignalExternalWorkflowExecutionInitiated (workflow_id : string)
| UpsertWorkflowSearchAttributesEvent
| NexusOperationScheduled
| NexusOperationCompleted (scheduled_event_id : Z) (result : Proto.Payload)
| NexusOperationFailed (scheduled_event_id : Z) (failure : Proto.Failure)
| NexusOperationTimedOut (scheduled_event_id : Z)
| NexusOperationCanceled (scheduled_event_id : Z)
| WorkflowExecutionSignaled (signal_name : string) (input : Proto.Payloads)
| WorkflowExecutionUpdateAccepted (update_name : string) (args : Proto.Payloads)
| WorkflowExecutionCancelRequested
| MarkerRecorded (marker_name : string) (details : gmap string Proto.Payloads)
| WorkflowExecutionCompleted (result : Proto.Payloads)
| WorkflowExecutionFailed (failure : Proto.Failure)
| WorkflowExecutionContinuedAsNew (new_execution_run_id : string)
| OtherEvent (event_type_name : string).

Record HistoryEvent := mkEvent { event_id : Z; event_body : EventBody }.

Abbreviation History := (list HistoryEvent).

(** ** The prescan *)

Record ActivityOutcome := mkActivityOutcome {
  act_scheduled : bool;
  act_resolved : bool;
  act_failed : bool;
  act_cancel_requested : bool;
  act_result : Payloads;
  act_failure_type : string;
  act_failure_message : string
}.

#[export] Instance ActivityOutcome_eta : Eta ActivityOutcome := fun o =>
  {| act_scheduled := act_scheduled o; act_resolved := act_resolved o;
     act_failed := act_failed o; act_cancel_requested := act_cancel_requested o;
     act_result := act_result o; act_failure_type := act_failure_type o;
     act_failure_message := act_failure_message o |}.

Definition no_activity : ActivityOutcome :=
  {| act_scheduled := false; act_resolved := false; act_failed := false;
     act_cancel_requested := false; act_result := []; act_failure_type := "";
     act_failure_message := "" |}.

Record TimerOutcome := mkTimerOutcome {
  tm_started : bool;
  tm_fired : bool;
  tm_cancelled : bool
}.

#[export] Instance TimerOutcome_eta : Eta TimerOutcome := fun o =>
  {| tm_started := tm_started o; tm_fired := tm_fired o; tm_cancelled := tm_cancelled o |}.

Definition no_timer : TimerOutcome :=
  {| tm_started := false; tm_fired := false; tm_cancelled := false |}.

Record ChildOutcome := mkChildOutcome {
  ch_initiated : bool;
  ch_cancel_requested : bool;
  ch_resolved : bool;
  ch_failed : bool;
  ch_result : Payloads;
  ch_failure_type : string;
  ch_failure_message : string
}.

#[export] Instance ChildOutcome_eta : Eta ChildOutcome := fun o =>
  {| ch_initiated := ch_initiated o; ch_cancel_requested := ch_cancel_requested o;
     ch_resolved := ch_resolved o; ch_failed := ch_failed o; ch_result := ch_result o;
     ch_failure_type := ch_failure_type o; ch_failure_message := ch_failure_message o |}.

Definition no_child : ChildOutcome :=
  {| ch_initiated := false; ch_cancel_requested := false; ch_resolved := false;
     ch_failed := false; ch_result := []; ch_failure_type := ""; ch_failure_message := "" |}.

Record NexusOpOutcome := mkNexusOpOutcome {
  nx_scheduled : bool;
  nx_resolved : bool;
  nx_failed : bool;
  nx_result : Payloads;
  nx_failure_type : string;
  nx_failure_message : string
}.

#[export] Instance NexusOpOutcome_eta : Eta NexusOpOutcome := fun o =>
  {| nx_scheduled := nx_scheduled o; nx_resolved := nx_resolved o; nx_failed := nx_failed o;
     nx_result := nx_result o; nx_failure_type := nx_failure_type o;
     nx_failure_message := nx_failure_message o |}.

Definition no_nexus_op : NexusOpOutcome :=
  {| nx_scheduled := false; nx_resolved := false; nx_failed := false; nx_result := [];
     nx_failure_type := ""; nx_failure_message := "" |}.

Record MutableSideEffectMarkerRaw := mkMse {
  mse_id : Payload;
  mse_call_index : Payload;
  mse_data : Payload
}.

Record LocalActivityMarkerRaw := mkLa {
  la_failed : bool;
  la_result : Payloads;
  la_failure_type : Payload;
  la_failure_message : Payload
}.

#[export] Instance LocalActivityMarkerRaw_eta : Eta LocalActivityMarkerRaw := fun m =>
  {| la_failed := la_failed m; la_result := la_result m;
     la_failure_type := la_failure_type m; la_failure_message := la_failure_message m |}.

(** [is_update] selects which of the other fields are meaningful. *)
Inductive ReplayStep :=
| UpdateStep (update_name : string) (update_args : Payloads)
| EventStep (event : HistoryEvent).

Record Prescan := mkPrescan {
  ps_input : Payloads;
  ps_headers : Header;
  ps_activities : gmap string ActivityOutcome;
  ps_timers : gmap string TimerOutcome;
  ps_children : gmap string ChildOutcome;
  ps_nexus_ops : gmap string NexusOpOutcome;
  ps_signals : gmap string (list Payloads);
  ps_cancel_requested : bool;
  ps_ext_signals_initiated : Z;
  ps_upserts_initiated : Z;
  ps_sched_event_to_activity : gmap Z string;
  ps_activity_to_sched_event : gmap string Z;
  ps_sched_event_to_nexus : gmap Z string;
  ps_nexus_ops_scheduled : Z;
  ps_last_event_id : Z;
  ps_commands : list CommandEvent;
  ps_side_effects : list Payload;
  ps_version_markers : list (Payloads * Payloads);
  ps_mutable_side_effect_markers : list MutableSideEffectMarkerRaw;
  ps_local_activities : list LocalActivityMarkerRaw;
  ps_post_update_timeline : list ReplayStep
}.

#[export] Instance Prescan_eta : Eta Prescan := fun p =>
  {| ps_input := ps_input p; ps_headers := ps_headers p; ps_activities := ps_activities p;
     ps_timers := ps_timers p; ps_children := ps_children p; ps_nexus_ops := ps_nexus_ops p;
     ps_signals := ps_signals p; ps_cancel_requested := ps_cancel_requested p;
     ps_ext_signals_initiated := ps_ext_signals_initiated p;
     ps_upserts_initiated := ps_upserts_initiated p;
     ps_sched_event_to_activity := ps_sched_event_to_activity p;
     ps_activity_to_sched_event := ps_activity_to_sched_event p;
     ps_sched_event_to_nexus := ps_sched_event_to_nexus p;
     ps_nexus_ops_scheduled := ps_nexus_ops_scheduled p;
     ps_last_event_id := ps_last_event_id p; ps_commands := ps_commands p;
     ps_side_effects := ps_side_effects p; ps_version_markers := ps_version_markers p;
     ps_mutable_side_effect_markers := ps_mutable_side_effect_markers p;
     ps_local_activities := ps_local_activities p;
     ps_post_update_timeline := ps_post_update_timeline p |}.

Definition empty_prescan : Prescan :=
  {| ps_input := []; ps_headers := ∅; ps_activities := ∅; ps_timers := ∅; ps_children := ∅;
     ps_nexus_ops := ∅; ps_signals := ∅; ps_cancel_requested := false;
     ps_ext_signals_initiated := 0; ps_upserts_initiated := 0;
     ps_sched_event_to_activity := ∅; ps_activity_to_sched_event := ∅;
     ps_sched_event_to_nexus := ∅; ps_nexus_ops_scheduled := 0; ps_last_event_id := 0;
     ps_commands := []; ps_side_effects := []; ps_version_markers := [];
     ps_mutable_side_effect_markers := []; ps_local_activities := [];
     ps_post_update_timeline := [] |}.

(** [m[k]] used as an lvalue: the entry is created with the default value [d] when
    it is missing, then modified. *)
Definition at_key {V} (d : V) (k : string) (f : V -> V) (m : gmap string V) : gmap string V :=
  <[k := f (default d (m !! k))]> m.

(** Events that only resolve a future or deliver a signal. *)
Definition IsDeferredOnReplay (b : EventBody) : bool :=
  match b with
  | ActivityTaskCompleted _ _ | ActivityTaskFailed _ _ | ActivityTaskTimedOut _
  | ActivityTaskCanceled _ | TimerFired _ | ChildWorkflowExecutionCompleted _ _
  | ChildWorkflowExecutionFailed _ _ | ChildWorkflowExecutionCanceled _
  | NexusOperationCompleted _ _ | NexusOperationFailed _ _ | NexusOperationTimedOut _
  | NexusOperationCanceled _ | WorkflowExecutionSignaled _ _
  | WorkflowExecutionCancelRequested => true
  | _ => false
  end.

(** ** [ScanHistory], one definition per group of [case] labels *)

Definition push_command (c : CommandEvent) (ps : Prescan) : Prescan :=
  ps <| ps_commands ::= fun l => l ++ [c] |>.

Definition scan_started (input : Proto.Payloads) (header : gmap string Proto.Payload)
    (ps : Prescan) : Prescan :=
  ps <| ps_input := FromProtoPayloads input |>
     <| ps_headers ::= fun h =>
          map_fold (fun key value h => <[key := FromProtoPayload value]> h) h header |>.

Definition scan_activity_scheduled (ev : Z) (id type : string) (ps : Prescan) : Prescan :=
  push_command (mk Activity id type)
    (ps <| ps_activities ::= at_key no_activity id (fun o => o <| act_scheduled := true |>) |>
        <| ps_sched_event_to_activity ::= <[ev := id]> |>
        <| ps_activity_to_sched_event ::= <[id := ev]> |>).

(** The activity a completion event belongs to, if its schedule was seen. *)
Definition on_scheduled_activity (sched : Z) (f : ActivityOutcome -> ActivityOutcome)
    (ps : Prescan) : Prescan :=
  match ps_sched_event_to_activity ps !! sched with
  | Some id => ps <| ps_activities ::= at_key no_activity id f |>
  | None => ps
  end.

Definition scan_activity_cancel_requested (sched : Z) (ps : Prescan) : Prescan :=
  on_scheduled_activity sched (fun o => o <| act_cancel_requested := true |>)
    (push_command (mk RequestCancelActivity (to_string sched) "") ps).

Definition resolve_activity (result : Payloads) (o : ActivityOutcome) : ActivityOutcome :=
  o <| act_resolved := true |> <| act_result := result |>.

Definition fail_activity (message type : string) (o : ActivityOutcome) : ActivityOutcome :=
  o <| act_resolved := true |> <| act_failed := true |> <| act_failure_message := message |>
    <| act_failure_type := type |>.

Definition scan_activity_completed (sched : Z) (result : Proto.Payloads) (ps : Prescan) : Prescan :=
  on_scheduled_activity sched (resolve_activity (FromProtoPayloads result)) ps.

Definition scan_activity_failed (sched : Z) (f : Proto.Failure) (ps : Prescan) : Prescan :=
  on_scheduled_activity sched (fail_activity (Proto.message f) (Proto.app_type f)) ps.

Definition scan_activity_timed_out (sched : Z) (ps : Prescan) : Prescan :=
  on_scheduled_activity sched (fail_activity "activity timed out" "TimeoutError") ps.

Definition scan_activity_canceled (sched : Z) (ps : Prescan) : Prescan :=
  on_scheduled_activity sched (fail_activity "activity cancelled" "CanceledError") ps.

Definition scan_timer_started (id : string) (ps : Prescan) : Prescan :=
  push_command (mk Timer id "")
    (ps <| ps_timers ::= at_key no_timer id (fun o => o <| tm_started := true |>) |>).

Definition scan_timer_fired (id : string) (ps : Prescan) : Prescan :=
  ps <| ps_timers ::= at_key no_timer id (fun o => o <| tm_fired := true |>) |>.

Definition scan_timer_canceled (id : string) (ps : Prescan) : Prescan :=
  push_command (mk CancelTimer id "")
    (ps <| ps_timers ::= at_key no_timer id (fun o => o <| tm_cancelled := true |>) |>).

Definition scan_child_initiated (id type : string) (ps : Prescan) : Prescan :=
  push_command (mk ChildWorkflow id type)
    (ps <| ps_children ::= at_key no_child id (fun o => o <| ch_initiated := true |>) |>).

Definition fail_child (message type : string) (o : ChildOutcome) : ChildOutcome :=
  o <| ch_resolved := true |> <| ch_failed := true |> <| ch_failure_message := message |>
    <| ch_failure_type := type |>.

Definition scan_child_completed (id : string) (result : Proto.Payloads) (ps : Prescan) : Prescan :=
  ps <| ps_children ::= at_key no_child id (fun o =>
          o <| ch_resolved := true |> <| ch_result := FromProtoPayloads result |>) |>.

Definition scan_child_failed (id : string) (f : Proto.Failure) (ps : Prescan) : Prescan :=
  ps <| ps_children ::= at_key no_child id (fail_child (Proto.message f) (Proto.app_type f)) |>.

Definition scan_child_canceled (id : string) (ps : Prescan) : Prescan :=
  ps <| ps_children ::=
       at_key no_child id (fail_child "child workflow cancelled" "CanceledError") |>.

Definition scan_request_cancel_external (wid : string) (ps : Prescan) : Prescan :=
  (push_command (mk RequestCancelExternalWorkflow wid "") ps)
    <| ps_children ::= at_key no_child wid (fun o => o <| ch_cancel_requested := true |>) |>.

Definition scan_signal_external (wid : string) (ps : Prescan) : Prescan :=
  (push_command (mk SignalExternalWorkflow wid "") ps) <| ps_ext_signals_initiated ::= Z.succ |>.

Definition scan_upsert (ps : Prescan) : Prescan :=
  (push_command (mk UpsertSearchAttributes "" "") ps) <| ps_upserts_initiated ::= Z.succ |>.

Definition scan_nexus_scheduled (ev : Z) (ps : Prescan) : Prescan :=
  let id := to_string (ps_nexus_ops_scheduled ps) in
  push_command (mk NexusOperation id "")
    (ps <| ps_nexus_ops_scheduled ::= Z.succ |>
        <| ps_nexus_ops ::= at_key no_nexus_op id (fun o => o <| nx_scheduled := true |>) |>
        <| ps_sched_event_to_nexus ::= <[ev := id]> |>).

Definition on_scheduled_nexus (sched : Z) (f : NexusOpOutcome -> NexusOpOutcome)
    (ps : Prescan) : Prescan :=
  match ps_sched_event_to_nexus ps !! sched with
  | Some id => ps <| ps_nexus_ops ::= at_key no_nexus_op id f |>
  | None => ps
  end.

Definition fail_nexus (message type : string) (o : NexusOpOutcome) : NexusOpOutcome :=
  o <| nx_resolved := true |> <| nx_failed := true |> <| nx_failure_message := message |>
    <| nx_failure_type := type |>.

Definition scan_nexus_completed (sched : Z) (result : Proto.Payload) (ps : Prescan) : Prescan :=
  on_scheduled_nexus sched
    (fun o => o <| nx_resolved := true |> <| nx_result := [FromProtoPayload result] |>) ps.

Definition scan_nexus_failed (sched : Z) (f : Proto.Failure) (ps : Prescan) : Prescan :=
  on_scheduled_nexus sched (fail_nexus (Proto.message f) (Proto.app_type f)) ps.

Definition scan_nexus_timed_out (sched : Z) (ps : Prescan) : Prescan :=
  on_scheduled_nexus sched (fail_nexus "nexus operation timed out" "TimeoutError") ps.

Definition scan_nexus_canceled (sched : Z) (ps : Prescan) : Prescan :=
  on_scheduled_nexus sched (fail_nexus "nexus operation cancelled" "CanceledError") ps.

Definition scan_signaled (name : string) (input : Proto.Payloads) (ps : Prescan) : Prescan :=
  ps <| ps_signals ::= at_key [] name (fun l => l ++ [FromProtoPayloads input]) |>.

Definition push_step (s : ReplayStep) (ps : Prescan) : Prescan :=
  ps <| ps_post_update_timeline ::= fun l => l ++ [s] |>.

Definition scan_update_accepted (name : string) (args : Proto.Payloads) (ps : Prescan) : Prescan :=
  push_step (UpdateStep name (FromProtoPayloads args)) ps.

Definition scan_side_effect_marker (details : gmap string Proto.Payloads) (ps : Prescan) : Prescan :=
  match details !! "data" with
  | Some d =>
    match FromProtoPayloads d with
    | data :: _ => ps <| ps_side_effects ::= fun l => l ++ [data] |>
    | [] => ps
    end
  | None => ps
  end.

Definition scan_version_marker (details : gmap string Proto.Payloads) (ps : Prescan) : Prescan :=
  match details !! "change-id", details !! "version" with
  | Some id, Some ver =>
    ps <| ps_version_markers ::= fun l => l ++ [(FromProtoPayloads id, FromProtoPayloads ver)] |>
  | _, _ => ps
  end.

Definition scan_mutable_side_effect_marker (details : gmap string Proto.Payloads)
    (ps : Prescan) : Prescan :=
  match details !! "id", details !! "mse-call-index", details !! "data" with
  | Some id, Some idx, Some data =>
    match FromProtoPayloads id, FromProtoPayloads idx, FromProtoPayloads data with
    | idp :: _, idxp :: _, datap :: _ =>
      ps <| ps_mutable_side_effect_markers ::= fun l => l ++ [mkMse idp idxp datap] |>
    | _, _, _ => ps
    end
  | _, _, _ => ps
  end.

Definition first_payload (d : option Proto.Payloads) : Payload :=
  match d with
  | Some ps => match FromProtoPayloads ps with p :: _ => p | [] => empty_payload end
  | None => empty_payload
  end.

Definition scan_local_activity_marker (details : gmap string Proto.Payloads)
    (ps : Prescan) : Prescan :=
  let rec0 := mkLa false [] empty_payload empty_payload in
  let rec1 :=
    match details !! "failure-message" with
    | Some fm =>
      rec0 <| la_failed := true |> <| la_failure_message := first_payload (Some fm) |>
           <| la_failure_type := first_payload (details !! "failure-type") |>
    | None =>
      match details !! "result" with
      | Some res => rec0 <| la_result := FromProtoPayloads res |>
      | None => rec0
      end
    end in
  ps <| ps_local_activities ::= fun l => l ++ [rec1] |>.

Definition scan_marker (name : string) (details : gmap string Proto.Payloads)
    (ps : Prescan) : Prescan :=
  let ps := push_command (mk Marker name "") ps in
  if String.eqb name "SideEffect" then scan_side_effect_marker details ps
  else if String.eqb name "Version" then scan_version_marker details ps
  else if String.eqb name "MutableSideEffect" then scan_mutable_side_effect_marker details ps
  else if String.eqb name "LocalActivity" then scan_local_activity_marker details ps
  else ps.

(** The [switch] on the event type. *)
Definition scan_event (ev : HistoryEvent) (ps : Prescan) : Prescan :=
  match event_body ev with
  | WorkflowExecutionStarted _ input header => scan_started input header ps
  | ActivityTaskScheduled id type => scan_activity_scheduled (event_id ev) id type ps
  | ActivityTaskCancelRequested sched => scan_activity_cancel_requested sched ps
  | ActivityTaskCompleted sched r => scan_activity_completed sched r ps
  | ActivityTaskFailed sched f => scan_activity_failed sched f ps
  | ActivityTaskTimedOut sched => scan_activity_timed_out sched ps
  | ActivityTaskCanceled sched => scan_activity_canceled sched ps
  | TimerStarted id => scan_timer_started id ps
  | TimerFired id => scan_timer_fired id ps
  | TimerCanceled id => scan_timer_canceled id ps
  | StartChildWorkflowExecutionInitiated id type => scan_child_initiated id type ps
  | ChildWorkflowExecutionCompleted id r => scan_child_completed id r ps
  | ChildWorkflowExecutionFailed id f => scan_child_failed id f ps
  | ChildWorkflowExecutionCanceled id => scan_child_canceled id ps
  | RequestCancelExternalWorkflowExecutionInitiated id => scan_request_cancel_external id ps
  | SignalExternalWorkflowExecutionInitiated id => scan_signal_external id ps
  | UpsertWorkflowSearchAttributesEvent => scan_upsert ps
  | NexusOperationScheduled => scan_nexus_scheduled (event_id ev) ps
  | NexusOperationCompleted sched r => scan_nexus_completed sched r ps
  | NexusOperationFailed sched f => scan_nexus_failed sched f ps
  | NexusOperationTimedOut sched => scan_nexus_timed_out sched ps
  | NexusOperationCanceled sched => scan_nexus_canceled sched ps
  | WorkflowExecutionSignaled name input => scan_signaled name input ps
  | WorkflowExecutionUpdateAccepted name args => scan_update_accepted name args ps
  | WorkflowExecutionCancelRequested => ps <| ps_cancel_requested := true |>
  | MarkerRecorded name details => scan_marker name details ps
  | WorkflowExecutionCompleted _ => push_command (mk CompleteWorkflow "" "") ps
  | WorkflowExecutionFailed _ => push_command (mk FailWorkflow "" "") ps
  | WorkflowExecutionContinuedAsNew _ => push_command (mk ContinueAsNew "" "") ps
  | OtherEvent _ => ps
  end.

Definition is_update_accepted (b : EventBody) : bool :=
  match b with WorkflowExecutionUpdateAccepted _ _ => true | _ => false end.

(** One iteration of the loop, with [seen_update] threaded. *)
Definition scan_step (acc : Prescan * bool) (ev : HistoryEvent) : Prescan * bool :=
  let '(ps, seen_update) := acc in
  let ps := ps <| ps_last_event_id := event_id ev |> in
  if seen_update && IsDeferredOnReplay (event_body ev) then
    (push_step (EventStep ev) ps, seen_update)
  else (scan_event ev ps, seen_update || is_update_accepted (event_body ev)).

Definition ScanHistory (h : History) : Prescan :=
  fst (fold_left scan_step h (empty_prescan, false)).

(** ** Specification *)

Definition is_nexus_scheduled (b : EventBody) : bool :=
  match b with NexusOperationScheduled => true | _ => false end.

(** The command an event records, given how many Nexus operations precede it. *)
Definition event_command (nexus_before : Z) (b : EventBody) : option CommandEvent :=
  match b with
  | ActivityTaskScheduled id type => Some (mk Activity id type)
  | ActivityTaskCancelRequested sched => Some (mk RequestCancelActivity (to_string sched) "")
  | TimerStarted id => Some (mk Timer id "")
  | TimerCanceled id => Some (mk CancelTimer id "")
  | StartChildWorkflowExecutionInitiated id type => Some (mk ChildWorkflow id type)
  | RequestCancelExternalWorkflowExecutionInitiated id =>
    Some (mk RequestCancelExternalWorkflow id "")
  | SignalExternalWorkflowExecutionInitiated id => Some (mk SignalExternalWorkflow id "")
  | UpsertWorkflowSearchAttributesEvent => Some (mk UpsertSearchAttributes "" "")
  | NexusOperationScheduled => Some (mk NexusOperation (to_string nexus_before) "")
  | MarkerRecorded name _ => Some (mk Marker name "")
  | WorkflowExecutionCompleted _ => Some (mk CompleteWorkflow "" "")
  | WorkflowExecutionFailed _ => Some (mk FailWorkflow "" "")
  | WorkflowExecutionContinuedAsNew _ => Some (mk ContinueAsNew "" "")
  | _ => None
  end.

Fixpoint history_commands (nexus_before : Z) (h : History) : list CommandEvent :=
  match h with
  | [] => []
  | ev :: h =>
    option_list (event_command nexus_before (event_body ev)) ++
    history_commands
      (if is_nexus_scheduled (event_body ev) then Z.succ nexus_before else nexus_before) h
  end.

(** The step of the replay timeline an event at or after the first update makes. *)
Definition replay_step (ev : HistoryEvent) : option ReplayStep :=
  match event_body ev with
  | WorkflowExecutionUpdateAccepted name args => Some (UpdateStep name (FromProtoPayloads args))
  | b => if IsDeferredOnReplay b then Some (EventStep ev) else None
  end.

Definition no_update (h : History) : Prop :=
  Forall (fun ev => is_update_accepted (event_body ev) = false) h.

Definition starts_with_update (h : History) : Prop :=
  match h with [] => True | ev :: _ => is_update_accepted (event_body ev) = true end.

Definition keep (ev : HistoryEvent) : bool := negb (IsDeferredOnReplay (event_body ev)).

(** What a prescan hands to the body: the resolved operations, the signals and the
    cancellation request. *)
Record delivers_as (a b : Prescan) : Prop := {
  da_activity : forall id, from_option act_resolved false (ps_activities a !! id) =
                           from_option act_resolved false (ps_activities b !! id);
  da_timer : forall id, from_option tm_fired false (ps_timers a !! id) =
                        from_option tm_fired false (ps_timers b !! id);
  da_child : forall id, from_option ch_resolved false (ps_children a !! id) =
                        from_option ch_resolved false (ps_children b !! id);
  da_nexus : forall id, from_option nx_resolved false (ps_nexus_ops a !! id) =
                        from_option nx_resolved false (ps_nexus_ops b !! id);
  da_signals : ps_signals a = ps_signals b;
  da_cancel : ps_cancel_requested a = ps_cancel_requested b
}.

(** The signals of one name, in delivery order, of a history and of a timeline. *)
Definition signal_of (name : string) (b : EventBody) : option Payloads :=
  match b with
  | WorkflowExecutionSignaled n input =>
    if decide (n = name) then Some (FromProtoPayloads input) else None
  | _ => None
  end.

Definition history_signals (name : string) (h : History) : list Payloads :=
  omap (fun ev => signal_of name (event_body ev)) h.

Definition timeline_signals (name : string) (l : list ReplayStep) : list Payloads :=
  omap (fun s => match s with EventStep ev => signal_of name (event_body ev) | _ => None end) l.

(** ** Lemmas *)

Create HintDb scan.
#[local] Hint Unfold scan_event push_command push_step scan_started scan_activity_scheduled
  on_scheduled_activity scan_activity_cancel_requested scan_activity_completed
  scan_activity_failed scan_activity_timed_out scan_activity_canceled scan_timer_started
  scan_timer_fired scan_timer_canceled scan_child_initiated scan_child_completed
  scan_child_failed scan_child_canceled scan_request_cancel_external scan_signal_external
  scan_upsert scan_nexus_scheduled on_scheduled_nexus scan_nexus_completed scan_nexus_failed
  scan_nexus_timed_out scan_nexus_canceled scan_signaled scan_update_accepted scan_marker
  scan_side_effect_marker scan_version_marker scan_mutable_side_effect_marker
  scan_local_activity_marker : scan.

(** Evaluates [scan_event] on every constructor of the event body [b]. *)
Ltac scan_cases b :=
  destruct b; autounfold with scan; simpl; repeat (case_match; simpl);
  rewrite ?app_nil_r; try done.

#[local] Arguments scan_event : simpl never.

Section ScanEvent.
Context (id : Z) (b : EventBody) (ps : Prescan).

Lemma scan_event_commands :
  ps_commands (scan_event (mkEvent id b) ps) =
  ps_commands ps ++ option_list (event_command (ps_nexus_ops_scheduled ps) b).
Proof. scan_cases b. Qed.

Lemma scan_event_nexus :
  ps_nexus_ops_scheduled (scan_event (mkEvent id b) ps) =
  if is_nexus_scheduled b then Z.succ (ps_nexus_ops_scheduled ps)
  else ps_nexus_ops_scheduled ps.
Proof. scan_cases b. Qed.

Lemma scan_event_last_event_id :
  ps_last_event_id (scan_event (mkEvent id b) ps) = ps_last_event_id ps.
Proof. scan_cases b. Qed.

Lemma scan_event_timeline :
  ps_post_update_timeline (scan_event (mkEvent id b) ps) =
  ps_post_update_timeline ps ++
  (if is_update_accepted b then option_list (replay_step (mkEvent id b)) else []).
Proof. scan_cases b. Qed.

Lemma scan_event_signals name :
  default [] (ps_signals (scan_event (mkEvent id b) ps) !! name) =
  default [] (ps_signals ps !! name) ++ option_list (signal_of name b).
Proof.
  unfold signal_of. scan_cases b; unfold at_key; subst;
    rewrite ?lookup_insert_eq, ?lookup_insert_ne by done; rewrite ?app_nil_r; done.
Qed.
End ScanEvent.

(** A deferred event bears no command and is neither an update nor a schedule. *)
Lemma deferred_no_command n b : IsDeferredOnReplay b = true -> event_command n b = None.
Proof. by destruct b. Qed.

Lemma deferred_not_nexus b : IsDeferredOnReplay b = true -> is_nexus_scheduled b = false.
Proof. by destruct b. Qed.

Lemma deferred_not_update b : IsDeferredOnReplay b = true -> is_update_accepted b = false.
Proof. by destruct b. Qed.

Lemma scan_last_event_id h acc :
  ps_last_event_id (fst (fold_left scan_step h acc)) =
  default (ps_last_event_id (fst acc)) (event_id <$> last h).
Proof.
  revert acc. induction h as [|[id b] h IH] using rev_ind; intros [ps seen]; [done|].
  rewrite fold_left_snoc, last_snoc. simpl.
  destruct (fold_left scan_step h (ps, seen)) as [ps' seen']. simpl.
  destruct (seen' && IsDeferredOnReplay b); simpl; [done|]. by rewrite scan_event_last_event_id.
Qed.

(** [last_event_id] is the id of the last event whatever was deferred. *)
Lemma ScanHistory_last_event_id h :
  ps_last_event_id (ScanHistory h) = default 0 (event_id <$> last h).
Proof. apply (scan_last_event_id h (empty_prescan, false)). Qed.

Lemma scan_commands h acc :
  ps_commands (fst (fold_left scan_step h acc)) =
  ps_commands (fst acc) ++ history_commands (ps_nexus_ops_scheduled (fst acc)) h.
Proof.
  revert acc. induction h as [|[id b] h IH]; intros [ps seen]; simpl; [by rewrite app_nil_r|].
  rewrite IH. destruct (seen && IsDeferredOnReplay b) eqn:Hd; simpl.
  - apply andb_true_iff in Hd as [_ Hd].
    by rewrite deferred_no_command, deferred_not_nexus.
  - rewrite scan_event_commands, scan_event_nexus, <- app_assoc. done.
Qed.

(** The flag is set exactly from the first update on. *)
Lemma scan_no_update h ps :
  no_update h ->
  fold_left scan_step h (ps, false) =
  (fold_left (fun ps ev => scan_event ev (ps <| ps_last_event_id := event_id ev |>)) h ps, false).
Proof.
  intros Hn. revert ps. induction Hn as [|ev h Hev Hn IH]; intros ps; simpl; [done|].
  by rewrite Hev, IH.
Qed.

Lemma scan_timeline_seen h ps :
  ps_post_update_timeline (fst (fold_left scan_step h (ps, true))) =
  ps_post_update_timeline ps ++ omap replay_step h.
Proof.
  revert ps. induction h as [|[id b] h IH]; intros ps; simpl; [by rewrite app_nil_r|].
  destruct (IsDeferredOnReplay b) eqn:Hd; rewrite IH; simpl.
  - rewrite <- app_assoc. f_equal. by destruct b.
  - rewrite scan_event_timeline, <- app_assoc. f_equal. by destruct b.
Qed.

Lemma scan_timeline_no_update h ps :
  no_update h ->
  ps_post_update_timeline (fst (fold_left scan_step h (ps, false))) = ps_post_update_timeline ps.
Proof.
  intros Hn. rewrite scan_no_update by done. simpl.
  revert ps. induction Hn as [|[id b] h Hev Hn IH]; intros ps; simpl in *; [done|].
  rewrite IH, scan_event_timeline. simpl. by rewrite Hev, app_nil_r.
Qed.

Lemma scan_before_update h :
  no_update h ->
  exists ps, fold_left scan_step h (empty_prescan, false) = (ps, false) /\
             ps_post_update_timeline ps = [].
Proof.
  intros Hn. pose proof (scan_timeline_no_update h empty_prescan Hn) as Ht.
  rewrite scan_no_update in * by done. eexists. split; [done|exact Ht].
Qed.

(** The prescan without the two fields a deferred event writes. *)
Definition strip (ps : Prescan) : Prescan :=
  ps <| ps_post_update_timeline := [] |> <| ps_last_event_id := 0 |>.

Lemma scan_event_strip ev ps ps' :
  strip ps = strip ps' -> strip (scan_event ev ps) = strip (scan_event ev ps').
Proof.
  destruct ev as [id b], ps, ps'. unfold strip; simpl. intros [= -> -> -> -> -> -> -> -> -> -> -> -> ->
    -> -> -> -> -> ->]. scan_cases b.
Qed.

Lemma scan_strip_keep h ps ps' :
  strip ps = strip ps' ->
  strip (fst (fold_left scan_step h (ps, true))) =
  strip (fst (fold_left scan_step (filter (fun ev => keep ev) h) (ps', true))).
Proof.
  revert ps ps'. induction h as [|[id b] h IH]; intros ps ps' Heq; simpl; [done|].
  unfold keep at 1; simpl. destruct (IsDeferredOnReplay b) eqn:Hd.
  - rewrite filter_cons_False by (unfold keep; cbn [event_body]; rewrite Hd; cbn; tauto). apply IH. exact Heq.
  - rewrite filter_cons_True by (unfold keep; cbn [event_body]; rewrite Hd; cbn; tauto). simpl. rewrite Hd.
    apply IH, scan_event_strip. exact Heq.
Qed.

(** Signals already delivered plus signals waiting in the timeline. *)
Definition all_signals (name : string) (ps : Prescan) : list Payloads :=
  default [] (ps_signals ps !! name) ++ timeline_signals name (ps_post_update_timeline ps).

Lemma all_signals_event name id b ps :
  (is_update_accepted b = true \/ timeline_signals name (ps_post_update_timeline ps) = [] \/
   IsDeferredOnReplay b = false) ->
  all_signals name (scan_event (mkEvent id b) ps) =
  all_signals name ps ++ option_list (signal_of name b).
Proof.
  intros Hcase. unfold all_signals, timeline_signals.
  rewrite scan_event_signals, scan_event_timeline, omap_app.
  destruct (is_update_accepted b) eqn:Hu.
  - destruct b; try done. simpl. by rewrite !app_nil_r.
  - destruct Hcase as [?|[Hn|Hd]]; [done| |].
    + fold (timeline_signals name (ps_post_update_timeline ps)). rewrite Hn. simpl.
      by rewrite !app_nil_r.
    + assert (signal_of name b = None) as -> by by destruct b. simpl. by rewrite !app_nil_r.
Qed.

Lemma scan_signals name h ps seen :
  (seen = true \/ timeline_signals name (ps_post_update_timeline ps) = []) ->
  all_signals name (fst (fold_left scan_step h (ps, seen))) =
  all_signals name ps ++ history_signals name h.
Proof.
  revert ps seen. induction h as [|[id b] h IH]; intros ps seen Hs; simpl; [by rewrite app_nil_r|].
  destruct (seen && IsDeferredOnReplay b) eqn:Hd.
  - apply andb_true_iff in Hd as [-> Hd]. rewrite IH by by left.
    unfold all_signals, timeline_signals, push_step; simpl. rewrite omap_app. simpl.
    destruct (signal_of name b); simpl; rewrite <- ?app_assoc, ?app_nil_r; done.
  - rewrite IH.
    + rewrite all_signals_event.
      * unfold all_signals; simpl. destruct (signal_of name b); simpl;
          rewrite <- ?app_assoc, ?app_nil_r; done.
      * simpl. destruct seen; simpl in Hd; [by right; right|]. destruct Hs as [?|Hs]; [done|].
        by right; left.
    + destruct (is_update_accepted b) eqn:Hu; [left; by rewrite orb_true_r|].
      destruct Hs as [->|Hs]; [by left|]. right. rewrite scan_event_timeline. simpl.
      by rewrite Hu, app_nil_r.
Qed.

(** ** Properties *)

(** C21: the command list a replay is matched against is complete: it is the
    command-bearing events of the history, in order, with the count-based ids of
    Nexus operations, whatever the interleaving of updates and of deferred events. *)
Theorem ScanHistory_commands_complete (h : History) :
  ps_commands (ScanHistory h) = history_commands 0 h.
Proof. apply (scan_commands h (empty_prescan, false)). Qed.

(** No signal is lost, duplicated or reordered by the deferral: for every
    name, the signals delivered up front followed by those waiting in the replay
    timeline are the signals of the history in order. *)
Theorem ScanHistory_signals_conserved (name : string) (h : History) :
  let ps := ScanHistory h in
  default [] (ps_signals ps !! name) ++ timeline_signals name (ps_post_update_timeline ps) =
  history_signals name h.
Proof. apply (scan_signals name h empty_prescan false). by right. Qed.

#[export] Instance delivers_as_preorder : PreOrder delivers_as.
Proof.
  split; [done|]. intros a b c [] [].
  constructor; intros; etrans; eauto.
Qed.

(** Updating one entry of a map without changing what [P] reads in it. *)
Lemma from_option_at_key {V} (P : V -> bool) (d : V) k f (m : gmap string V) id :
  P d = false -> (forall v, P (f v) = P v) ->
  from_option P false (at_key d k f m !! id) = from_option P false (m !! id).
Proof.
  intros Hd Hf. unfold at_key. destruct (decide (k = id)) as [->|Hne].
  - rewrite lookup_insert_eq. simpl. rewrite Hf. by destruct (m !! id).
  - by rewrite lookup_insert_ne.
Qed.

(** Only the deferred kinds of events resolve or deliver anything. *)
Lemma scan_event_delivers ev ps :
  IsDeferredOnReplay (event_body ev) = false -> delivers_as (scan_event ev ps) ps.
Proof.
  destruct ev as [id b]. simpl. intros Hd.
  destruct b; try discriminate Hd; try done;
    autounfold with scan; simpl; repeat (case_match; simpl); try done;
    constructor; intros; simpl; try done;
    by apply from_option_at_key.
Qed.

Lemma scan_seen_delivers h ps : delivers_as (fst (fold_left scan_step h (ps, true))) ps.
Proof.
  revert ps. induction h as [|ev h IH]; intros ps; simpl; [done|].
  destruct (IsDeferredOnReplay (event_body ev)) eqn:Hd; (etrans; [apply IH|]); [done|].
  etrans; [by apply scan_event_delivers|done].
Qed.

(** The first accepted update is a barrier.  Of the history from it on, the
    timeline holds every update and every future-resolving event, in order; the
    rest of the prescan is what scanning the history without those events gives; and
    no operation is resolved, no signal delivered and no cancellation requested that
    the history before the update did not already have. *)
Theorem ScanHistory_update_barrier (pre post : History) :
  no_update pre -> starts_with_update post ->
  ps_post_update_timeline (ScanHistory (pre ++ post)) = omap replay_step post /\
  strip (ScanHistory (pre ++ post)) =
  strip (ScanHistory (pre ++ filter (fun ev => keep ev) post)) /\
  delivers_as (ScanHistory (pre ++ post)) (ScanHistory pre).
Proof.
  intros Hpre Hpost. unfold ScanHistory. rewrite !fold_left_app.
  destruct (scan_before_update pre Hpre) as (ps & -> & Ht).
  destruct post as [|[id b] post]; simpl; [by rewrite Ht; split_and!|]. simpl in Hpost.
  rewrite filter_cons_True by (unfold keep; by destruct b). simpl. rewrite Hpost.
  split_and!.
  - rewrite scan_timeline_seen, scan_event_timeline, Hpost. simpl. rewrite Ht.
    unfold replay_step at 2; simpl. by destruct b.
  - by apply scan_strip_keep.
  - etrans; [apply scan_seen_delivers|]. by destruct b.
Qed.

Lemma ScanHistory_update_barrier_witness :
  let pre := [mkEvent 1 (WorkflowExecutionStarted "w" (Proto.mkPayloads []) ∅);
              mkEvent 2 (TimerStarted "t0")] in
  let post := [mkEvent 3 (WorkflowExecutionUpdateAccepted "u" (Proto.mkPayloads []));
               mkEvent 4 (TimerFired "t0"); mkEvent 5 (TimerStarted "t1")] in
  ps_post_update_timeline (ScanHistory (pre ++ post)) =
  [UpdateStep "u" []; EventStep (mkEvent 4 (TimerFired "t0"))].
Proof.
  intros pre post.
  refine (proj1 (ScanHistory_update_barrier pre post _ _)).
  - repeat constructor.
  - reflexivity.
Defined.
