(* ===== verification/Workflow.v ===== *)
(** * Workflow bodies and the commands they emit

    What a workflow function can do through its [Context]
    ([src/include/temporal/workflow/]), as a tree of calls, and the commands the
    engine sends for them.

    A body is a well-founded tree: a call of the [Context] API and, for every
    answer the engine may give, the rest of the body.  User code between two calls
    is the Rocq function that picks the continuation; [try]/[catch] is a
    continuation that inspects a failed answer; the variables a body shares with
    its query and update handlers (captured by reference) are cells read and
    written by [GetVar]/[SetVar].  The three library loops that can suspend
    ([Future::Get], [ReceiveChannel::Receive], [Selector::Select]) are single
    calls that the engine retries on every resume. *)

From S2P Require Import Prelude Common.

(** ** Futures ([internal/workflow_outbound.h]) *)

Inductive Op := OpNone | OpTimer | OpActivity | OpChildWorkflow | OpNexusOperation.

#[export] Instance Op_eq_dec : EqDecision Op.
Proof. solve_decision. Defined.

Record FutureState := mkFutureState {
  f_ready : bool;
  f_failed : bool;
  f_cancelled : bool;
  f_result : Payloads;
  f_failure_type : string;
  f_failure_message : string;
  f_op : Op;
  f_op_id : string
}.

#[export] Instance FutureState_eta : Eta FutureState := fun s =>
  {| f_ready := f_ready s; f_failed := f_failed s; f_cancelled := f_cancelled s;
     f_result := f_result s; f_failure_type := f_failure_type s;
     f_failure_message := f_failure_message s; f_op := f_op s; f_op_id := f_op_id s |}.

#[export] Instance FutureState_eq_dec : EqDecision FutureState.
Proof. solve_decision. Defined.

(** [std::make_shared<FutureState>()]. *)
Definition new_future : FutureState :=
  {| f_ready := false; f_failed := false; f_cancelled := false; f_result := [];
     f_failure_type := ""; f_failure_message := ""; f_op := OpNone; f_op_id := "" |}.

(** A [std::shared_ptr<FutureState>]: an address in the runner's heap of futures,
    so that the body, the runner's tables and a selector case alias one state. *)
Abbreviation loc := nat.

Inductive MutableSideEffectStep := ReplayChange | ReplayUnchanged | Live.

(** [WorkflowInfo] ([workflow/context.h]). *)
Record WorkflowInfo := mkWorkflowInfo {
  wi_workflow_id : string;
  wi_run_id : string;
  wi_workflow_type : string;
  wi_task_queue : string;
  wi_ns : string;
  wi_headers : Header
}.

#[export] Instance WorkflowInfo_eta : Eta WorkflowInfo := fun i =>
  {| wi_workflow_id := wi_workflow_id i; wi_run_id := wi_run_id i;
     wi_workflow_type := wi_workflow_type i; wi_task_queue := wi_task_queue i;
     wi_ns := wi_ns i; wi_headers := wi_headers i |}.

Definition kDefaultVersion : Z := -1.

(** ** The [Context] API *)

(** A [Selector] case: a future, or a receive on a signal channel. *)
Inductive select_case :=
| CaseFuture (l : loc)
| CaseReceive (name : string).

Inductive call :=
| ExecuteActivity (options : ActivityOptions) (activity_type : string) (input : Payloads)
| NewTimer (duration : Z)
| ExecuteChildWorkflow (options : ChildWorkflowOptions) (workflow_type : string) (input : Payloads)
| ExecuteNexusOperation (endpoint service operation : string) (input : Payload)
    (schedule_to_close : Z)
| FutureIsReady (l : loc)
| FutureGet (l : loc)
| FutureCancel (l : loc)
| Receive (name : string)
| ReceiveAsync (name : string)
| HasPending (name : string)
| Select (cases : list select_case) (has_default : bool)
| IsCancelled
| AwaitCancellation
| CancelExternalWorkflow (workflow_id : string)
| SignalExternalWorkflow (workflow_id signal_name : string) (input : Payloads)
| UpsertSearchAttributes (attributes : gmap string Payload)
| SideEffect
| GetVersion (change_id : string) (min_supported max_supported : Z)
| MutableSideEffect (id : string) (equals : Payload -> Payload -> bool)
| ExecuteLocalActivity (options : LocalActivityOptions) (activity_type : string)
    (input : Payloads)
| GetInfo
| IsReplaying
| GetVar (x : string)
| SetVar (x : string) (v : Payload).

(** What each call returns when it does not throw.  A selector returns the index
    of the case it runs, or [None] for its default. *)
Definition answer (c : call) : Type :=
  match c with
  | ExecuteActivity _ _ _ | NewTimer _ | ExecuteChildWorkflow _ _ _
  | ExecuteNexusOperation _ _ _ _ _ | AwaitCancellation => loc
  | FutureIsReady _ | HasPending _ | IsCancelled | IsReplaying => bool
  | FutureGet _ | Receive _ | ExecuteLocalActivity _ _ _ => Payloads
  | ReceiveAsync _ => option Payloads
  | Select _ _ => option nat
  | FutureCancel _ | CancelExternalWorkflow _ | SignalExternalWorkflow _ _ _
  | UpsertSearchAttributes _ | SetVar _ _ => unit
  | SideEffect | MutableSideEffect _ _ => Payload
  | GetVersion _ _ _ => Z
  | GetInfo => WorkflowInfo
  | GetVar _ => option Payload
  end.

Inductive handler_kind := QueryHandler | UpdateHandler | UpdateValidator.

Inductive prog :=
| Return (result : Payloads)
| Throw (e : exn)
| Call (c : call) (k : result (answer c) -> prog)
| SetHandler (kind : handler_kind) (name : string) (handler : Payloads -> prog) (k : prog).

(** An exception that is not caught propagates. *)
Definition bind_ok {A} (k : A -> prog) (r : result A) : prog :=
  match r with inr a => k a | inl e => Throw e end.

Declare Scope prog_scope.
Delimit Scope prog_scope with prog.

Notation "x <~ c ; k" := (Call c (bind_ok (fun x => k)))
  (at level 100, c at level 90, k at level 200, right associativity) : prog_scope.
#[global] Open Scope prog_scope.

(** [Context::ContinueAsNew]: [throw ContinueAsNewRequested]. *)
Definition ContinueAsNew (workflow_type : string) (input : Payloads) : prog :=
  Throw (ContinueAsNewRequested workflow_type input).

(** [Context::Sleep]. *)
Definition Sleep (duration : Z) (k : prog) : prog :=
  l <~ NewTimer duration; _ <~ FutureGet l; k.

(** [Context::SetUpdateHandler] with a validator registers the validator first. *)
Definition SetUpdateHandler (name : string) (handler validator : Payloads -> prog) (k : prog) :
    prog :=
  SetHandler UpdateValidator name validator (SetHandler UpdateHandler name handler k).

(** [Selector::Select]: the chosen case consumes its value ([Future::Get] or
    [Receive]) and passes it to the case's handler. *)
Definition exec_case (c : select_case) (handler : Payloads -> prog) : prog :=
  match c with
  | CaseFuture l => Call (FutureGet l) (bind_ok handler)
  | CaseReceive name => Call (Receive name) (bind_ok handler)
  end.

Definition SelectorSelect (cases : list (select_case * (Payloads -> prog)))
    (default_ : option prog) : prog :=
  Call (Select (fst <$> cases) (bool_decide (is_Some default_)))
    (bind_ok (fun chosen : option nat =>
       match chosen with
       | Some i => match cases !! i with Some (c, h) => exec_case c h | None => Return [] end
       | None => match default_ with Some d => d | None => Return [] end
       end)).

(** ** Commands (the [Command] messages the engine builds) *)

Inductive Command :=
| ScheduleActivityTask (activity_id activity_type task_queue : string)
    (input : option Proto.Payloads) (header : gmap string Proto.Payload)
    (schedule_to_close schedule_to_start start_to_close heartbeat : option Proto.Duration)
    (retry : option Proto.RetryPolicy)
| StartTimerCommand (timer_id : string) (start_to_fire : Proto.Duration)
| CancelTimerCommand (timer_id : string)
| RequestCancelActivityTask (scheduled_event_id : Z)
| StartChildWorkflowExecution (ns workflow_id workflow_type task_queue : string)
    (input : option Proto.Payloads) (policy : ParentClosePolicy)
| ScheduleNexusOperationCommand (endpoint service operation : string) (input : Proto.Payload)
    (schedule_to_close : option Proto.Duration)
| RequestCancelExternalWorkflowExecution (ns workflow_id : string) (child_workflow_only : bool)
| SignalExternalWorkflowExecution (ns workflow_id signal_name : string)
    (input : option Proto.Payloads)
| UpsertWorkflowSearchAttributes (indexed_fields : gmap string Proto.Payload)
| RecordMarker (marker_name : string) (details : gmap string Proto.Payloads)
| CompleteWorkflowExecution (result : option Proto.Payloads)
| FailWorkflowExecution (failure : Proto.Failure)
| ContinueAsNewWorkflowExecution (workflow_type : string) (input : option Proto.Payloads).
