(* ===== verification/Interceptors.v ===== *)
(** * Interceptor chains

    [src/include/temporal/interceptor/interceptor.h].  An interceptor object is the
    record of the functions it overrides, already closed over its [next] pointer; a
    factory's [Intercept*] method maps the next interceptor to a wrapper, or to
    nothing.

    The runner drives a workflow body it can suspend, and sees of a workflow
    interceptor what it does to such a body ([WorkflowInboundInterceptor],
    [WorkflowOutboundInterceptor]); the interfaces as calls with effects, which the
    tracing interceptor implements, are [WorkflowInbound] and [WorkflowOutbound]. *)

From S2P Require Import Prelude Common Effects Workflow.

(** ** Chain composition *)

Section Chain.
Context {Inbound : Type}.

Record InterceptorChain := mkChain { chain_head : Inbound; chain_owned : list Inbound }.

(** The loop over [factories.rbegin() .. rend()]. *)
Definition BuildChain (factories : list (Inbound -> option Inbound)) (terminal : Inbound) :
    InterceptorChain :=
  fold_left
    (fun chain intercept =>
       match intercept (chain_head chain) with
       | Some wrapper =>
         {| chain_head := wrapper; chain_owned := chain_owned chain ++ [wrapper] |}
       | None => chain
       end)
    (rev factories) {| chain_head := terminal; chain_owned := [] |}.

(** What one factory does to the chain behind it. *)
Definition wrap_with (intercept : Inbound -> option Inbound) (next : Inbound) : Inbound :=
  default next (intercept next).

Lemma BuildChain_head_foldr factories terminal :
  chain_head (BuildChain factories terminal) = fold_right wrap_with terminal factories.
Proof.
  unfold BuildChain. rewrite <- (rev_involutive factories) at 2.
  generalize (rev factories) as l. clear factories. intros l.
  assert (H : forall c, chain_head (fold_left (fun chain (intercept : Inbound -> option Inbound) =>
       match intercept (chain_head chain) with
       | Some wrapper =>
         {| chain_head := wrapper; chain_owned := chain_owned chain ++ [wrapper] |}
       | None => chain
       end) l c) = fold_right wrap_with (chain_head c) (rev l)).
  { induction l as [|f l IH]; intros c; simpl; [done|].
    rewrite IH, fold_right_app. simpl. f_equal. unfold wrap_with. by destruct (f (chain_head c)). }
  apply H.
Qed.
End Chain.

Arguments InterceptorChain : clear implicits.

(** ** The interceptor interfaces *)

(** [WorkflowOutboundInterceptor]: of the methods, the engine routes only
    [ExecuteActivity] through the chain, and of what the method may change it uses
    the header. *)
Record WorkflowOutboundInterceptor := mkWorkflowOutbound {
  out_ExecuteActivity : string -> ActivityOptions -> Payloads -> Header -> result Header
}.

(** [WorkflowInboundInterceptor]: [Init] returns the outbound interceptor that
    reaches the terminal. *)
Record WorkflowInboundInterceptor := mkWorkflowInbound {
  in_Init : WorkflowOutboundInterceptor -> WorkflowOutboundInterceptor;
  in_ExecuteWorkflow : Payloads -> Header -> prog
}.

(** [ActivityInboundInterceptor], over the state [S] the interceptors share. *)
Record ActivityInboundInterceptor (S : Type) := mkActivityInbound {
  in_ExecuteActivity : ActivityInfo -> Payloads -> Header -> Act S Payloads
}.
Arguments in_ExecuteActivity {S}.
Arguments mkActivityInbound {S}.

Record StartWorkflowInput := mkStartWorkflowInput {
  sw_workflow_type : string;
  sw_options : StartWorkflowOptions;
  sw_args : Payloads
}.

Record SignalWorkflowInput := mkSignalWorkflowInput {
  sg_workflow_id : string;
  sg_run_id : string;
  sg_signal_name : string;
  sg_args : Payloads
}.

Record QueryWorkflowInput := mkQueryWorkflowInput {
  qw_workflow_id : string;
  qw_run_id : string;
  qw_query_type : string;
  qw_args : Payloads
}.

(** [ClientOutboundInterceptor].  Input and header are references: an interceptor
    passes on what it made of them. *)
Record ClientOutboundInterceptor (S : Type) := mkClientOutbound {
  cl_StartWorkflow : StartWorkflowInput -> Header -> Act S string;
  cl_SignalWorkflow : SignalWorkflowInput -> Header -> Act S unit;
  cl_QueryWorkflow : QueryWorkflowInput -> Header -> Act S Payloads
}.
Arguments cl_StartWorkflow {S}.
Arguments cl_SignalWorkflow {S}.
Arguments cl_QueryWorkflow {S}.
Arguments mkClientOutbound {S}.

(** ** The workflow interfaces as calls *)

Record ExecuteActivityOutboundInput := mkExecuteActivityOutboundInput {
  ea_activity_type : string;
  ea_options : ActivityOptions;
  ea_args : Payloads
}.

Record ExecuteChildWorkflowInput := mkExecuteChildWorkflowInput {
  ec_workflow_type : string;
  ec_options : ChildWorkflowOptions;
  ec_args : Payloads
}.

Record SignalExternalWorkflowInput := mkSignalExternalWorkflowInput {
  se_workflow_id : string;
  se_run_id : string;
  se_signal_name : string;
  se_args : Payloads
}.

Record CancelExternalWorkflowInput := mkCancelExternalWorkflowInput {
  ce_workflow_id : string;
  ce_run_id : string
}.

Record UpsertSearchAttributesInput := mkUpsertSearchAttributesInput {
  us_attributes : gmap string Payload
}.

(** A workflow calling the SDK; the header as the call left it is the answer. *)
Record WorkflowOutbound (S : Type) := mkWorkflowOutboundCalls {
  wo_ExecuteActivity : WorkflowInfo -> ExecuteActivityOutboundInput -> Header -> Act S Header;
  wo_ExecuteChildWorkflow : WorkflowInfo -> ExecuteChildWorkflowInput -> Header -> Act S Header;
  wo_SignalExternalWorkflow : WorkflowInfo -> SignalExternalWorkflowInput -> Header -> Act S Header;
  wo_CancelExternalWorkflow : WorkflowInfo -> CancelExternalWorkflowInput -> Act S unit;
  wo_UpsertSearchAttributes : WorkflowInfo -> UpsertSearchAttributesInput -> Act S unit
}.
Arguments wo_ExecuteActivity {S}.
Arguments wo_ExecuteChildWorkflow {S}.
Arguments wo_SignalExternalWorkflow {S}.
Arguments wo_CancelExternalWorkflow {S}.
Arguments wo_UpsertSearchAttributes {S}.
Arguments mkWorkflowOutboundCalls {S}.

Record WorkflowInbound (S : Type) := mkWorkflowInboundCalls {
  wi_Init : WorkflowOutbound S -> WorkflowOutbound S;
  wi_ExecuteWorkflow : WorkflowInfo -> Payloads -> Header -> Act S Payloads;
  wi_HandleSignal : WorkflowInfo -> string -> Payloads -> Header -> Act S unit;
  wi_HandleQuery : WorkflowInfo -> string -> Payloads -> Header -> Act S Payloads
}.
Arguments wi_Init {S}.
Arguments wi_ExecuteWorkflow {S}.
Arguments wi_HandleSignal {S}.
Arguments wi_HandleQuery {S}.
Arguments mkWorkflowInboundCalls {S}.

(** ** The base classes

    Every method delegates through [next_]; a null [next_] is dereferenced. *)
Section Base.
Context {S : Type}.

Definition through {I A} (next : option I) (method : I -> Act S A) : Act S A :=
  match next with Some n => method n | None => fun _ => UB end.

Definition WorkflowOutboundInterceptorBase (next : option (WorkflowOutbound S)) :
    WorkflowOutbound S :=
  {| wo_ExecuteActivity := fun ctx i h => through next (fun n => wo_ExecuteActivity n ctx i h);
     wo_ExecuteChildWorkflow := fun ctx i h =>
       through next (fun n => wo_ExecuteChildWorkflow n ctx i h);
     wo_SignalExternalWorkflow := fun ctx i h =>
       through next (fun n => wo_SignalExternalWorkflow n ctx i h);
     wo_CancelExternalWorkflow := fun ctx i =>
       through next (fun n => wo_CancelExternalWorkflow n ctx i);
     wo_UpsertSearchAttributes := fun ctx i =>
       through next (fun n => wo_UpsertSearchAttributes n ctx i) |}.

(** [Init] alone checks its [next_]. *)
Definition WorkflowInboundInterceptorBase (next : option (WorkflowInbound S)) : WorkflowInbound S :=
  {| wi_Init := fun outbound => match next with Some n => wi_Init n outbound | None => outbound end;
     wi_ExecuteWorkflow := fun ctx args h =>
       through next (fun n => wi_ExecuteWorkflow n ctx args h);
     wi_HandleSignal := fun ctx name args h =>
       through next (fun n => wi_HandleSignal n ctx name args h);
     wi_HandleQuery := fun ctx name args h =>
       through next (fun n => wi_HandleQuery n ctx name args h) |}.

Definition ActivityInboundInterceptorBase (next : option (ActivityInboundInterceptor S)) :
    ActivityInboundInterceptor S :=
  {| in_ExecuteActivity := fun ctx args h =>
       through next (fun n => in_ExecuteActivity n ctx args h) |}.

Definition ClientOutboundInterceptorBase (next : option (ClientOutboundInterceptor S)) :
    ClientOutboundInterceptor S :=
  {| cl_StartWorkflow := fun i h => through next (fun n => cl_StartWorkflow n i h);
     cl_SignalWorkflow := fun i h => through next (fun n => cl_SignalWorkflow n i h);
     cl_QueryWorkflow := fun i h => through next (fun n => cl_QueryWorkflow n i h) |}.
End Base.

(** ** The three chains *)

Definition BuildWorkflowInboundChain :=
  @BuildChain WorkflowInboundInterceptor.

Definition BuildActivityInboundChain {S : Type} :=
  @BuildChain (ActivityInboundInterceptor S).

Definition BuildClientOutboundChain {S : Type} :=
  @BuildChain (ClientOutboundInterceptor S).

(** ** The base [Interceptor]

    Its three factory methods return null: an interceptor wraps only what it overrides. *)

Module Interceptor.
Definition InterceptWorkflow (next : WorkflowInboundInterceptor) : option WorkflowInboundInterceptor :=
  None.

Definition InterceptActivity {S : Type} (next : ActivityInboundInterceptor S) :
    option (ActivityInboundInterceptor S) := None.

Definition InterceptClient {S : Type} (next : ClientOutboundInterceptor S) :
    option (ClientOutboundInterceptor S) := None.
End Interceptor.

(** Factories that wrap nothing leave any chain as it is, wherever they stand. *)
Lemma BuildChain_skips {I : Type} (before after : list (I -> option I)) (terminal : I) none :
  (forall next, none next = None) ->
  chain_head (BuildChain (before ++ none :: after) terminal) =
  chain_head (BuildChain (before ++ after) terminal).
Proof.
  intros Hn. rewrite !BuildChain_head_foldr, !fold_right_app. simpl. unfold wrap_with at 2.
  by rewrite Hn.
Qed.

(** Terminals of the two worker-side chains ([workflow_task_handler.cpp],
    [activity_task_handler.cpp]). *)
Definition RootWorkflowOutbound : WorkflowOutboundInterceptor :=
  {| out_ExecuteActivity := fun _ _ _ header => inr header |}.

Definition RootWorkflowInbound (fn : Payloads -> prog) : WorkflowInboundInterceptor :=
  {| in_Init := fun outbound => outbound; in_ExecuteWorkflow := fun args _ => fn args |}.

Definition RootActivityInbound {S : Type}
    (fn : ActivityInfo -> Payloads -> S -> S * result Payloads) : ActivityInboundInterceptor S :=
  {| in_ExecuteActivity := fun info args _ s => Val (fn info args s) |}.
