(* ===== verification/Runner.v ===== *)
(** * The workflow runner ([class WorkflowRunner])

    State and operations of the object that runs one workflow execution
    ([src/src/internal/workflow_task_handler.cpp]).  The operations are those of
    the [WorkflowOutbound] interface a running body calls, plus the ones the task
    handler drives it with.  An operation is a function from the runner to the
    runner and a result or an exception. *)

From S2P Require Import Prelude Common Effects Determinism History Workflow Interceptors.
Import CommandEvent.

(** ** State *)

Inductive Status := Blocked | StatusCompleted | StatusFailed | StatusContinueAsNew.

#[export] Instance Status_eq_dec : EqDecision Status.
Proof. solve_decision. Defined.

(** [std::unique_ptr<Coroutine>]: not created, created and not yet started, suspended
    with the rest of its body, or done.  [CoroDone] keeps the exception the body let escape, if any
    ([Coroutine::error_]). *)
Inductive Coro :=
| NoCoroutine
| Created
| Suspended (rest : prog)
| CoroDone (error : option exn).

Record WorkflowRunner := mkRunner {
  info_ : WorkflowInfo;
  is_replaying_ : bool;
  deadlock_timeout_ : Z;
  deadlocked_ : bool;
  abandoned_ : bool;
  scan_ : Prescan;
  workflow_fn_ : Payloads -> prog;
  input_ : Payloads;
  signal_cursor_ : gmap string nat;
  query_handlers_ : gmap string (Payloads -> prog);
  update_handlers_ : gmap string (Payloads -> prog);
  update_validators_ : gmap string (Payloads -> prog);
  heap_ : list FutureState;
  activity_futures_ : gmap string loc;
  timer_futures_ : gmap string loc;
  child_futures_ : gmap string loc;
  nexus_futures_ : gmap string loc;
  cancel_futures_ : list loc;
  commands_ : list Command;
  produced_commands_ : list CommandEvent;
  status_ : Status;
  result_ : Payloads;
  failure_ : Proto.Failure;
  continue_as_new_ : string * Payloads;
  activity_seq_ : Z;
  timer_seq_ : Z;
  child_seq_ : Z;
  nexus_seq_ : Z;
  side_effect_seq_ : nat;
  ext_signal_seq_ : nat;
  upsert_seq_ : nat;
  change_versions_ : gmap string Z;
  mse_recorded_ : gmap string (list (Z * Payload));
  mse_call_count_ : gmap string nat;
  mse_cursor_ : gmap string nat;
  mse_current_ : gmap string Payload;
  local_activity_seq_ : nat;
  outbound_chain_ : option WorkflowOutboundInterceptor;
  coroutine_ : Coro;
  vars_ : gmap string Payload;
  reads_ : nat;
  resumes_ : nat
}.

#[export] Instance WorkflowRunner_eta : Eta WorkflowRunner := fun r =>
  {| info_ := info_ r; is_replaying_ := is_replaying_ r;
     deadlock_timeout_ := deadlock_timeout_ r; deadlocked_ := deadlocked_ r;
     abandoned_ := abandoned_ r; scan_ := scan_ r; workflow_fn_ := workflow_fn_ r;
     input_ := input_ r; signal_cursor_ := signal_cursor_ r;
     query_handlers_ := query_handlers_ r; update_handlers_ := update_handlers_ r;
     update_validators_ := update_validators_ r; heap_ := heap_ r;
     activity_futures_ := activity_futures_ r; timer_futures_ := timer_futures_ r;
     child_futures_ := child_futures_ r; nexus_futures_ := nexus_futures_ r;
     cancel_futures_ := cancel_futures_ r; commands_ := commands_ r;
     produced_commands_ := produced_commands_ r; status_ := status_ r;
     result_ := result_ r; failure_ := failure_ r;
     continue_as_new_ := continue_as_new_ r; activity_seq_ := activity_seq_ r;
     timer_seq_ := timer_seq_ r; child_seq_ := child_seq_ r;
     nexus_seq_ := nexus_seq_ r; side_effect_seq_ := side_effect_seq_ r;
     ext_signal_seq_ := ext_signal_seq_ r; upsert_seq_ := upsert_seq_ r;
     change_versions_ := change_versions_ r; mse_recorded_ := mse_recorded_ r;
     mse_call_count_ := mse_call_count_ r; mse_cursor_ := mse_cursor_ r;
     mse_current_ := mse_current_ r; local_activity_seq_ := local_activity_seq_ r;
     outbound_chain_ := outbound_chain_ r; coroutine_ := coroutine_ r;
     vars_ := vars_ r; reads_ := reads_ r; resumes_ := resumes_ r |}.

(** ** What the runner is given *)

(** The scalars the engine itself encodes through the [DataConverter].  Encoding
    can throw (a string that is not UTF-8 does). *)
Class Codec := {
  ToPayload_string : string -> result Payload;
  FromPayload_string : Payload -> result string;
  ToPayload_int : Z -> result Payload;
  FromPayload_int : Payload -> result Z
}.

(** What the engine relies on: decoding reads back what was encoded, and encoding
    an integer does not throw. *)
Class CodecLaws `(Codec) : Prop := {
  codec_string : forall s p, ToPayload_string s = inr p -> FromPayload_string p = inr s;
  codec_int : forall z p, ToPayload_int z = inr p -> FromPayload_int p = inr z;
  codec_int_total : forall z, exists p, ToPayload_int z = inr p
}.

(** An activity function, resolved for inline execution; its first argument counts
    the reads of the outside world the runner has made. *)
Abbreviation ActivityFn := (nat -> ActivityInfo -> Payloads -> result Payloads).

Record Env := mkEnv {
  (** the value the [n]th call of a [SideEffect] function computes *)
  e_world : nat -> Payload;
  (** whether the [n]th resume does not yield within the deadlock timeout *)
  e_overruns : nat -> bool;
  e_local_activity_resolver : option (string -> option ActivityFn);
  e_interceptors : list (WorkflowInboundInterceptor -> option WorkflowInboundInterceptor);
  e_failure_converter : option (exn -> Proto.Failure)
}.

(** ** Operations that may throw *)

Abbreviation M A := (WorkflowRunner -> WorkflowRunner * result A).

Definition ok {A} (a : A) : M A := fun r => (r, inr a).
Definition throw {A} (e : exn) : M A := fun r => (r, inl e).
Definition and_then {A B} (m : M A) (k : A -> M B) : M B :=
  fun r => match m r with (r, inr a) => k a r | (r, inl e) => (r, inl e) end.
Definition get {A} (f : WorkflowRunner -> A) : M A := fun r => (r, inr (f r)).
Definition modify (f : WorkflowRunner -> WorkflowRunner) : M unit := fun r => (f r, inr tt).
Definition lift {A} (x : result A) : M A := fun r => (r, x).

Declare Scope runner_scope.
Delimit Scope runner_scope with runner.
Notation "x <- m ;; k" := (and_then m (fun x => k))
  (at level 100, m at next level, right associativity) : runner_scope.
Notation "m ;;; k" := (and_then m (fun _ => k)) (at level 100, right associativity) : runner_scope.
#[global] Open Scope runner_scope.

Definition produce (c : CommandEvent) : M unit :=
  modify (fun r => r <| produced_commands_ ::= fun l => l ++ [c] |>).

Definition emit (c : Command) : M unit :=
  modify (fun r => r <| commands_ ::= fun l => l ++ [c] |>).

(** [std::make_shared<FutureState>()], initialised. *)
Definition alloc (s : FutureState) : M loc := fun r =>
  (r <| heap_ ::= fun h => h ++ [s] |>, inr (length (heap_ r))).

(** The state a future points to.  A body only holds addresses it was given, so
    the default is never read. *)
Definition future (r : WorkflowRunner) (l : loc) : FutureState := default new_future (heap_ r !! l).

Definition on_future (l : loc) (f : FutureState -> FutureState) (r : WorkflowRunner) :
    WorkflowRunner := r <| heap_ ::= alter f l |>.

(** ** Building commands *)

Definition queue_or_default (r : WorkflowRunner) (q : string) : string :=
  if str_empty q then wi_task_queue (info_ r) else q.

Definition EmitScheduleActivity (id activity_type : string) (input : Payloads)
    (options : ActivityOptions) (header : Header) : M unit :=
  queue <- get (fun r => queue_or_default r (ao_task_queue options));;
  emit (ScheduleActivityTask id activity_type queue (opt_payloads input) (ToProtoFields header)
          (opt_timeout (ao_schedule_to_close_timeout options))
          (opt_timeout (ao_schedule_to_start_timeout options))
          (opt_timeout (ao_start_to_close_timeout options))
          (opt_timeout (ao_heartbeat_timeout options))
          (ToProtoRetryPolicy <$> ao_retry_policy options)).

Definition EmitStartTimer (id : string) (duration : Z) : M unit :=
  emit (StartTimerCommand id (ToProtoDuration duration)).

Definition EmitCancelTimer (id : string) : M unit := emit (CancelTimerCommand id).

Definition EmitRequestCancelActivity (scheduled_event_id : Z) : M unit :=
  emit (RequestCancelActivityTask scheduled_event_id).

Definition EmitStartChildWorkflow (id workflow_type : string) (input : Payloads)
    (options : ChildWorkflowOptions) : M unit :=
  queue <- get (fun r => queue_or_default r (co_task_queue options));;
  ns <- get (fun r => wi_ns (info_ r));;
  emit (StartChildWorkflowExecution ns id workflow_type queue (opt_payloads input)
          (co_parent_close_policy options)).

Definition EmitNexusOperation (endpoint service operation : string) (input : Payload)
    (schedule_to_close : Z) : M unit :=
  emit (ScheduleNexusOperationCommand endpoint service operation (ToProtoPayload input)
          (if 0 <? schedule_to_close then Some (ToProtoDuration schedule_to_close) else None)).

Definition EmitRequestCancelExternalWorkflow (workflow_id : string) (child_only : bool) : M unit :=
  ns <- get (fun r => wi_ns (info_ r));;
  emit (RequestCancelExternalWorkflowExecution ns workflow_id child_only).

Definition EmitSignalExternalWorkflow (workflow_id signal_name : string) (input : Payloads) :
    M unit :=
  ns <- get (fun r => wi_ns (info_ r));;
  emit (SignalExternalWorkflowExecution ns workflow_id signal_name (opt_payloads input)).

Definition EmitUpsertSearchAttributes (attributes : gmap string Payload) : M unit :=
  emit (UpsertWorkflowSearchAttributes (ToProtoFields attributes)).

Definition EmitRecordMarker (name : string) (details : list (string * Payloads)) : M unit :=
  emit (RecordMarker name
          (fold_left (fun m '(key, payloads) => <[key := ToProtoPayloads payloads]> m) details ∅)).

(** ** Scheduling operations *)

(** The future a recorded outcome starts in: resolved, or pending. *)
Definition outcome_future (op : Op) (id : string) (resolved failed : bool) (result : Payloads)
    (failure_type failure_message : string) : FutureState :=
  let s := new_future <| f_op := op |> <| f_op_id := id |> in
  if resolved then
    s <| f_ready := true |> <| f_failed := failed |> <| f_result := result |>
      <| f_failure_type := failure_type |> <| f_failure_message := failure_message |>
  else s.

Definition ScheduleActivity (activity_type : string) (input : Payloads)
    (options : ActivityOptions) : M loc :=
  id <- get (fun r => to_string (activity_seq_ r));;
  modify (fun r => r <| activity_seq_ ::= Z.succ |>);;;
  produce (mk Activity id activity_type);;;
  recorded <- get (fun r => ps_activities (scan_ r) !! id);;
  match recorded with
  | Some (mkActivityOutcome true resolved failed _ result ftype fmsg) =>
    l <- alloc (outcome_future OpActivity id resolved failed result ftype fmsg);;
    modify (fun r => r <| activity_futures_ ::= <[id := l]> |>);;;
    ok l
  | _ =>
    header <- get (fun r => wi_headers (info_ r));;
    outbound <- get outbound_chain_;;
    header <- match outbound with
              | Some o => lift (out_ExecuteActivity o activity_type options input header)
              | None => ok header
              end;;
    EmitScheduleActivity id activity_type input options header;;;
    l <- alloc (outcome_future OpActivity id false false [] "" "");;
    modify (fun r => r <| activity_futures_ ::= <[id := l]> |>);;;
    ok l
  end.

Definition StartTimer (duration : Z) : M loc :=
  id <- get (fun r => "t" +:+ to_string (timer_seq_ r));;
  modify (fun r => r <| timer_seq_ ::= Z.succ |>);;;
  produce (mk Timer id "");;;
  recorded <- get (fun r => ps_timers (scan_ r) !! id);;
  l <- match recorded with
       | Some (mkTimerOutcome true fired _) =>
         alloc (new_future <| f_op := OpTimer |> <| f_op_id := id |> <| f_ready := fired |>)
       | _ =>
         EmitStartTimer id duration;;;
         alloc (new_future <| f_op := OpTimer |> <| f_op_id := id |>)
       end;;
  modify (fun r => r <| timer_futures_ ::= <[id := l]> |>);;;
  ok l.

Definition StartChildWorkflow (workflow_type : string) (input : Payloads)
    (options : ChildWorkflowOptions) : M loc :=
  auto_id <- get (fun r => wi_workflow_id (info_ r) +:+ "_c" +:+ to_string (child_seq_ r));;
  modify (fun r => r <| child_seq_ ::= Z.succ |>);;;
  let id := if str_empty (co_id options) then auto_id else co_id options in
  produce (mk ChildWorkflow id workflow_type);;;
  recorded <- get (fun r => ps_children (scan_ r) !! id);;
  l <- match recorded with
       | Some (mkChildOutcome true _ resolved failed result ftype fmsg) =>
         alloc (outcome_future OpChildWorkflow id resolved failed result ftype fmsg)
       | _ =>
         EmitStartChildWorkflow id workflow_type input options;;;
         alloc (outcome_future OpChildWorkflow id false false [] "" "")
       end;;
  modify (fun r => r <| child_futures_ ::= <[id := l]> |>);;;
  ok l.

Definition ScheduleNexusOperation (endpoint service operation : string) (input : Payload)
    (schedule_to_close : Z) : M loc :=
  id <- get (fun r => to_string (nexus_seq_ r));;
  modify (fun r => r <| nexus_seq_ ::= Z.succ |>);;;
  produce (mk NexusOperation id "");;;
  recorded <- get (fun r => ps_nexus_ops (scan_ r) !! id);;
  l <- match recorded with
       | Some (mkNexusOpOutcome true resolved failed result ftype fmsg) =>
         alloc (outcome_future OpNexusOperation id resolved failed result ftype fmsg)
       | _ =>
         EmitNexusOperation endpoint service operation input schedule_to_close;;;
         alloc (outcome_future OpNexusOperation id false false [] "" "")
       end;;
  modify (fun r => r <| nexus_futures_ ::= <[id := l]> |>);;;
  ok l.

(** ** Cancellation and fire-and-forget operations *)

Definition CancelTimerFuture (l : loc) (op_id : string) : M unit :=
  produce (mk CancelTimer op_id "");;;
  recorded <- get (fun r => ps_timers (scan_ r) !! op_id);;
  (match recorded with
   | Some (mkTimerOutcome _ _ true) => ok tt
   | _ => EmitCancelTimer op_id
   end);;;
  modify (on_future l (fun s => s <| f_ready := true |> <| f_cancelled := true |>)).

Definition CancelActivityFuture (op_id : string) : M unit :=
  sched <- get (fun r => ps_activity_to_sched_event (scan_ r) !! op_id);;
  match sched with
  | None => ok tt   (* only a warning is logged *)
  | Some ev =>
    produce (mk RequestCancelActivity (to_string ev) "");;;
    act <- get (fun r => ps_activities (scan_ r) !! op_id);;
    match act with
    | Some (mkActivityOutcome _ _ _ true _ _ _) => ok tt
    | _ => EmitRequestCancelActivity ev
    end
  end.

(** Shared by [Cancel] of a child workflow and [CancelExternalWorkflow]. *)
Definition request_cancel_external (id : string) (child_only : bool) : M unit :=
  produce (mk RequestCancelExternalWorkflow id "");;;
  child <- get (fun r => ps_children (scan_ r) !! id);;
  match child with
  | Some (mkChildOutcome _ true _ _ _ _ _) => ok tt
  | _ => EmitRequestCancelExternalWorkflow id child_only
  end.

Definition Cancel (l : loc) : M unit :=
  state <- get (fun r => heap_ r !! l);;
  match state with
  | None => ok tt
  | Some s =>
    if f_cancelled s then ok tt else
    match f_op s with
    | OpTimer => CancelTimerFuture l (f_op_id s)
    | OpActivity => CancelActivityFuture (f_op_id s)
    | OpChildWorkflow => request_cancel_external (f_op_id s) true
    | OpNone | OpNexusOperation => ok tt   (* only a warning is logged *)
    end
  end.

Definition CancelExternal (workflow_id : string) : M unit :=
  request_cancel_external workflow_id false.

Definition SignalExternal (workflow_id signal_name : string) (input : Payloads) : M unit :=
  produce (mk SignalExternalWorkflow workflow_id "");;;
  seq <- get ext_signal_seq_;;
  modify (fun r => r <| ext_signal_seq_ ::= S |>);;;
  initiated <- get (fun r => ps_ext_signals_initiated (scan_ r));;
  if initiated <=? Z.of_nat seq then EmitSignalExternalWorkflow workflow_id signal_name input
  else ok tt.

Definition Upsert (attributes : gmap string Payload) : M unit :=
  produce (mk UpsertSearchAttributes "" "");;;
  seq <- get upsert_seq_;;
  modify (fun r => r <| upsert_seq_ ::= S |>);;;
  initiated <- get (fun r => ps_upserts_initiated (scan_ r));;
  if initiated <=? Z.of_nat seq then EmitUpsertSearchAttributes attributes else ok tt.

(** ** Signals and cancellation state *)

Definition TryConsumeSignal (name : string) (r : WorkflowRunner) :
    WorkflowRunner * option Payloads :=
  match ps_signals (scan_ r) !! name with
  | None => (r, None)
  | Some buffered =>
    let cursor := default 0%nat (signal_cursor_ r !! name) in
    match buffered !! cursor with
    | None => (r <| signal_cursor_ ::= <[name := cursor]> |>, None)
    | Some out => (r <| signal_cursor_ ::= <[name := S cursor]> |>, Some out)
    end
  end.

Definition HasSignal (name : string) (r : WorkflowRunner) : bool :=
  match ps_signals (scan_ r) !! name with
  | None => false
  | Some buffered => (default 0%nat (signal_cursor_ r !! name) <? length buffered)%nat
  end.

Definition IsCancelRequested (r : WorkflowRunner) : bool := ps_cancel_requested (scan_ r).

Definition AwaitCancellationFuture : M loc :=
  requested <- get IsCancelRequested;;
  if requested then alloc (new_future <| f_ready := true |>)
  else
    l <- alloc new_future;;
    modify (fun r => r <| cancel_futures_ ::= fun ls => ls ++ [l] |>);;;
    ok l.

(** ** Handlers *)

Definition register (kind : handler_kind) (name : string) (handler : Payloads -> prog)
    (r : WorkflowRunner) : WorkflowRunner :=
  match kind with
  | QueryHandler => r <| query_handlers_ ::= <[name := handler]> |>
  | UpdateHandler => r <| update_handlers_ ::= <[name := handler]> |>
  | UpdateValidator => r <| update_validators_ ::= <[name := handler]> |>
  end.

Section Ops.
Context `{Codec} (env : Env).

(** ** Markers *)

(** One call of a user function that reads the outside world. *)
Definition read_world : M Payload :=
  n <- get reads_;;
  modify (fun r => r <| reads_ ::= S |>);;;
  ok (e_world env n).

Definition ReplaySideEffect : M (option Payload) :=
  produce (mk Marker "SideEffect" "");;;
  ordinal <- get side_effect_seq_;;
  modify (fun r => r <| side_effect_seq_ ::= S |>);;;
  get (fun r => ps_side_effects (scan_ r) !! ordinal).

Definition RecordSideEffect (value : Payload) : M unit :=
  id <- get (fun r => Z.of_nat (side_effect_seq_ r) - 1);;
  idp <- lift (ToPayload_int id);;
  EmitRecordMarker "SideEffect" [("side-effect-id", [idp]); ("data", [value])].

(** [Context::SideEffect]. *)
Definition ContextSideEffect : M Payload :=
  recorded <- ReplaySideEffect;;
  match recorded with
  | Some p => ok p
  | None =>
    value <- read_world;;
    RecordSideEffect value;;;
    ok value
  end.

Definition version_mismatch (change_id : string) (v min_supported max_supported : Z) : exn :=
  app_error ("workflow change '" +:+ change_id +:+ "': recorded version " +:+ to_string v +:+
             " not in supported range [" +:+ to_string min_supported +:+ ", " +:+
             to_string max_supported +:+ "]") "VersionMismatch".

Definition GetVersionOp (change_id : string) (min_supported max_supported : Z) : M Z :=
  known <- get (fun r => change_versions_ r !! change_id);;
  match known with
  | Some v =>
    produce (mk Marker "Version" "");;;
    if (v <? min_supported) || (max_supported <? v)
    then throw (version_mismatch change_id v min_supported max_supported)
    else ok v
  | None =>
    replaying <- get is_replaying_;;
    if replaying then
      modify (fun r => r <| change_versions_ ::= <[change_id := kDefaultVersion]> |>);;;
      ok kDefaultVersion
    else
      produce (mk Marker "Version" "");;;
      idp <- lift (ToPayload_string change_id);;
      verp <- lift (ToPayload_int max_supported);;
      EmitRecordMarker "Version" [("change-id", [idp]); ("version", [verp])];;;
      modify (fun r => r <| change_versions_ ::= <[change_id := max_supported]> |>);;;
      ok max_supported
  end.

(** Returns the step, [value_out] and [has_current]. *)
Definition BeginMutableSideEffect (id : string) : M (MutableSideEffectStep * Payload * bool) :=
  idx <- get (fun r => wrap_signed 32 (Z.of_nat (default 0%nat (mse_call_count_ r !! id))));;
  modify (fun r => r <| mse_call_count_ ::= at_key 0%nat id S |>);;;
  recorded <- get (fun r => mse_recorded_ r !! id);;
  cur <- (match recorded with
          | Some _ => modify (fun r => r <| mse_cursor_ ::= at_key 0%nat id (fun c => c) |>);;;
                      get (fun r => default 0%nat (mse_cursor_ r !! id))
          | None => ok 0%nat
          end);;
  match default [] recorded !! cur with
  | Some (i, v) =>
    if i =? idx then
      produce (mk Marker "MutableSideEffect" "");;;
      modify (fun r => r <| mse_current_ ::= <[id := v]> |> <| mse_cursor_ ::= <[id := S cur]> |>);;;
      ok (ReplayChange, v, false)
    else
      modify (fun r => r <| mse_current_ ::= at_key empty_payload id (fun p => p) |>);;;
      v <- get (fun r => default empty_payload (mse_current_ r !! id));;
      ok (ReplayUnchanged, v, false)
  | None =>
    current <- get (fun r => mse_current_ r !! id);;
    match current with
    | Some v => ok (Live, v, true)
    | None => ok (Live, empty_payload, false)
    end
  end.

Definition RecordMutableSideEffect (id : string) (changed : bool) (value : Payload) : M unit :=
  if negb changed then ok tt
  else
    idx <- get (fun r => wrap_signed 32 (Z.of_nat (default 0%nat (mse_call_count_ r !! id))) - 1);;
    modify (fun r => r <| mse_call_count_ ::= at_key 0%nat id (fun c => c) |>);;;
    produce (mk Marker "MutableSideEffect" "");;;
    modify (fun r => r <| mse_current_ ::= <[id := value]> |>);;;
    idp <- lift (ToPayload_string id);;
    idxp <- lift (ToPayload_int idx);;
    EmitRecordMarker "MutableSideEffect"
      [("id", [idp]); ("mse-call-index", [idxp]); ("data", [value])].

(** [Context::MutableSideEffect]. *)
Definition ContextMutableSideEffect (id : string) (equals : Payload -> Payload -> bool) :
    M Payload :=
  begun <- BeginMutableSideEffect id;;
  let '(step, value_out, has_current) := begun in
  match step with
  | ReplayChange | ReplayUnchanged => ok value_out
  | Live =>
    value <- read_world;;
    if has_current && equals value_out value then
      RecordMutableSideEffect id false empty_payload;;;
      ok value_out
    else
      RecordMutableSideEffect id true value;;;
      ok value
  end.

(** ** Local activities *)

Definition local_activity_info (r : WorkflowRunner) (activity_type : string) (attempt : Z) :
    ActivityInfo :=
  {| ai_activity_id := ""; ai_activity_type := activity_type;
     ai_workflow_id := wi_workflow_id (info_ r); ai_run_id := wi_run_id (info_ r);
     ai_task_queue := wi_task_queue (info_ r); ai_task_token := "";
     ai_headers := wi_headers (info_ r); ai_attempt := attempt |}.

Definition run_local_activity (fn : ActivityFn) (activity_type : string) (input : Payloads)
    (attempt : Z) : M (result Payloads) :=
  n <- get reads_;;
  modify (fun r => r <| reads_ ::= S |>);;;
  info <- get (fun r => local_activity_info r activity_type attempt);;
  ok (fn n info input).

Definition fail_local_activity (fail_type fail_msg : string) : M Payloads :=
  tp <- lift (ToPayload_string fail_type);;
  mp <- lift (ToPayload_string fail_msg);;
  EmitRecordMarker "LocalActivity" [("failure-type", [tp]); ("failure-message", [mp])];;;
  throw (app_error fail_msg fail_type).

(** The retry loop, [remaining] attempts from [attempt] on. *)
Fixpoint local_activity_loop (remaining : nat) (fn : ActivityFn) (activity_type : string)
    (input : Payloads) (attempt max_attempts : Z) (fail_type fail_msg : string) : M Payloads :=
  match remaining with
  | O => fail_local_activity fail_type fail_msg
  | S remaining =>
    outcome <- run_local_activity fn activity_type input attempt;;
    match outcome with
    | inr result => EmitRecordMarker "LocalActivity" [("result", result)];;; ok result
    | inl (ApplicationError msg type non_retryable) =>
      if non_retryable || (attempt =? max_attempts) then fail_local_activity type msg
      else local_activity_loop remaining fn activity_type input (attempt + 1) max_attempts type msg
    | inl e =>
      if negb (is_std_exception e) then throw e
      else if attempt =? max_attempts then fail_local_activity "" (what e)
      else local_activity_loop remaining fn activity_type input (attempt + 1) max_attempts ""
             (what e)
    end
  end.

Definition max_attempts_of (options : LocalActivityOptions) : Z :=
  match la_retry_policy options with
  | Some policy => if 0 <? maximum_attempts policy then maximum_attempts policy else 1
  | None => 1
  end.

(** A recorded failure string; a payload that does not decode reads as empty. *)
Definition decode_or_empty (p : Payload) : string :=
  if str_empty (p_data p) then ""
  else match FromPayload_string p with inr s => s | inl _ => "" end.

Definition ExecuteLocal (activity_type : string) (input : Payloads)
    (options : LocalActivityOptions) : M Payloads :=
  produce (mk Marker "LocalActivity" "");;;
  ordinal <- get local_activity_seq_;;
  modify (fun r => r <| local_activity_seq_ ::= S |>);;;
  recorded <- get (fun r => ps_local_activities (scan_ r) !! ordinal);;
  match recorded with
  | Some rec =>
    if la_failed rec then
      throw (app_error (decode_or_empty (la_failure_message rec))
               (decode_or_empty (la_failure_type rec)))
    else ok (la_result rec)
  | None =>
    match e_local_activity_resolver env with
    | None =>
      throw (app_error "local activities are not available on this worker" "LocalActivityError")
    | Some resolve =>
      match resolve activity_type with
      | None =>
        throw (app_error ("no activity registered for type: " +:+ activity_type)
                 "NotRegisteredError")
      | Some fn =>
        let max_attempts := max_attempts_of options in
        local_activity_loop (Z.to_nat max_attempts) fn activity_type input 1 max_attempts "" ""
      end
    end
  end.
End Ops.

(** ** Running a body *)

(** What a call does: it answers (a value or an exception), it suspends the body
    ([Yield]) to be retried at the next resume, or its behaviour is undefined. *)
Inductive reply (A : Type) :=
| Answer (a : result A)
| Park
| Undef.
Arguments Answer {A}.
Arguments Park {A}.
Arguments Undef {A}.

Definition answering {A} (m : M A) (r : WorkflowRunner) : WorkflowRunner * reply A :=
  let '(r, a) := m r in (r, Answer a).

Definition coro_done (r : WorkflowRunner) : bool :=
  match coroutine_ r with CoroDone _ => true | _ => false end.

(** [outbound_chain_] points into the stack of the running body: once the body has
    finished, calling through it is undefined. *)
Definition outbound_dangles (r : WorkflowRunner) : bool :=
  coro_done r && bool_decide (is_Some (outbound_chain_ r)).

Definition activity_recorded (r : WorkflowRunner) (id : string) : bool :=
  match ps_activities (scan_ r) !! id with Some o => act_scheduled o | None => false end.

(** [Future::Get]: [Block] until ready, then throw or return. *)
Definition future_get (l : loc) (r : WorkflowRunner) : reply Payloads :=
  let s := future r l in
  if f_ready s then
    if f_failed s then Answer (inl (ActivityError (f_failure_type s) (f_failure_message s)))
    else Answer (inr (f_result s))
  else Park.

Definition case_ready (r : WorkflowRunner) (c : select_case) : bool :=
  match c with
  | CaseFuture l => f_ready (future r l)
  | CaseReceive name => HasSignal name r
  end.

(** The index of the first ready case. *)
Fixpoint first_ready (r : WorkflowRunner) (i : nat) (cases : list select_case) : option nat :=
  match cases with
  | [] => None
  | c :: cases => if case_ready r c then Some i else first_ready r (S i) cases
  end.

Definition select (cases : list select_case) (has_default : bool) (r : WorkflowRunner) :
    reply (option nat) :=
  match first_ready r 0 cases with
  | Some i => Answer (inr (Some i))
  | None => if has_default then Answer (inr None) else Park
  end.

Section Interp.
Context `{Codec} (env : Env).

Definition do_call (c : call) (r : WorkflowRunner) : WorkflowRunner * reply (answer c) :=
  match c return WorkflowRunner * reply (answer c) with
  | ExecuteActivity options activity_type input =>
    if outbound_dangles r && negb (activity_recorded r (to_string (activity_seq_ r)))
    then (r, Undef)
    else answering (ScheduleActivity activity_type input options) r
  | NewTimer duration => answering (StartTimer duration) r
  | ExecuteChildWorkflow options workflow_type input =>
    answering (StartChildWorkflow workflow_type input options) r
  | ExecuteNexusOperation endpoint service operation input schedule_to_close =>
    answering (ScheduleNexusOperation endpoint service operation input schedule_to_close) r
  | FutureIsReady l => (r, Answer (inr (f_ready (future r l))))
  | FutureGet l => (r, future_get l r)
  | FutureCancel l => answering (Cancel l) r
  | Receive name =>
    match TryConsumeSignal name r with
    | (r, Some out) => (r, Answer (inr out))
    | (r, None) => (r, Park)
    end
  | ReceiveAsync name => let '(r, out) := TryConsumeSignal name r in (r, Answer (inr out))
  | HasPending name => (r, Answer (inr (HasSignal name r)))
  | Select cases has_default => (r, select cases has_default r)
  | IsCancelled => (r, Answer (inr (IsCancelRequested r)))
  | AwaitCancellation => answering AwaitCancellationFuture r
  | CancelExternalWorkflow workflow_id => answering (CancelExternal workflow_id) r
  | Workflow.SignalExternalWorkflow workflow_id signal_name input =>
    answering (SignalExternal workflow_id signal_name input) r
  | Workflow.UpsertSearchAttributes attributes => answering (Upsert attributes) r
  | SideEffect => answering (ContextSideEffect env) r
  | GetVersion change_id min_supported max_supported =>
    answering (GetVersionOp change_id min_supported max_supported) r
  | MutableSideEffect id equals => answering (ContextMutableSideEffect env id equals) r
  | ExecuteLocalActivity options activity_type input =>
    answering (ExecuteLocal env activity_type input options) r
  | GetInfo => (r, Answer (inr (info_ r)))
  | IsReplaying => (r, Answer (inr (is_replaying_ r)))
  | GetVar x => (r, Answer (inr (vars_ r !! x)))
  | SetVar x v => (r <| vars_ ::= <[x := v]> |>, Answer (inr tt))
  end.

(** How far a body got. *)
Inductive run_state :=
| Finished (r : WorkflowRunner) (outcome : result Payloads)
| Parked (r : WorkflowRunner) (rest : prog)
| Stuck.

Fixpoint interp (p : prog) (r : WorkflowRunner) : run_state :=
  match p with
  | Return v => Finished r (inr v)
  | Throw e => Finished r (inl e)
  | SetHandler kind name handler k => interp k (register kind name handler r)
  | Call c k =>
    match do_call c r with
    | (r, Answer a) => interp (k a) r
    | (r, Park) => Parked r (Call c k)
    | (_, Undef) => Stuck
    end
  end.

(** ** The runner's public operations *)

(** The commands of the coroutine body after the workflow function returned or
    threw: the [catch] clauses of [RunBody] and the terminal command record. *)
Definition encode_failure (e : exn) (type : string) : Proto.Failure :=
  match e_failure_converter env with
  | Some convert => convert e
  | None => MakeApplicationFailure (what e) type false
  end.

Definition terminal_kind (s : Status) : option CommandEvent :=
  match s with
  | StatusCompleted => Some (mk CompleteWorkflow "" "")
  | StatusFailed => Some (mk FailWorkflow "" "")
  | StatusContinueAsNew => Some (mk CommandEvent.ContinueAsNew "" "")
  | Blocked => None
  end.

Definition finish_body (res : result Payloads) (r : WorkflowRunner) : WorkflowRunner :=
  let r :=
    match res with
    | inr v => r <| result_ := v |> <| status_ := StatusCompleted |>
    | inl (ContinueAsNewRequested t input) =>
      r <| continue_as_new_ := (t, input) |> <| status_ := StatusContinueAsNew |>
    | inl (ApplicationError m t nr as e) =>
      r <| failure_ := encode_failure e t |> <| status_ := StatusFailed |>
    | inl e =>
      if is_std_exception e
      then r <| failure_ := encode_failure e "std::exception" |> <| status_ := StatusFailed |>
      else r
    end in
  match res with
  | inl CoroutineAbort => r <| coroutine_ := CoroDone None |>
  | inl ForeignException => r <| coroutine_ := CoroDone (Some ForeignException) |>
  | _ =>
    r <| produced_commands_ ::= fun l => l ++ option_list (terminal_kind (status_ r)) |>
      <| coroutine_ := CoroDone None |>
  end.

(** Entering [RunBody]: build the inbound chain around the workflow function, wire
    the outbound chain, and call the head. *)
Definition RunBody (r : WorkflowRunner) : WorkflowRunner * prog :=
  let head := chain_head (BuildWorkflowInboundChain (e_interceptors env)
                            (RootWorkflowInbound (workflow_fn_ r))) in
  (r <| outbound_chain_ := Some (in_Init head RootWorkflowOutbound) |>,
   in_ExecuteWorkflow head (input_ r) (wi_headers (info_ r))).

(** Run [p] on the coroutine to its next suspension point. *)
Definition resume_with (p : prog) (r : WorkflowRunner) : outcome WorkflowRunner :=
  match interp p r with
  | Finished r res => Val (finish_body res r)
  | Parked r rest => Val (r <| coroutine_ := Suspended rest |>)
  | Stuck => UB
  end.

(** The [n]th resume gave up waiting.  The body is then still running on its
    thread; the caller may only abandon it, so its effects are not observed. *)
Definition overran (r : WorkflowRunner) (n : nat) : bool :=
  (0 <? deadlock_timeout_ r) && e_overruns env n.

Definition ResumeCoroutine (r : WorkflowRunner) : outcome WorkflowRunner :=
  let n := resumes_ r in
  let r := r <| resumes_ ::= S |> in
  match coroutine_ r with
  | NoCoroutine => UB
  | CoroDone _ => Val r
  | Created =>
    if overran r n then Val (r <| deadlocked_ := true |>)
    else let '(r, p) := RunBody r in resume_with p r
  | Suspended p =>
    if overran r n then Val (r <| deadlocked_ := true |>) else resume_with p r
  end.

(** A handler runs on the controller's thread: if it blocks, that thread waits
    for a turn nobody gives it. *)
Definition run_handler (handler : Payloads -> prog) (args : Payloads) (r : WorkflowRunner) :
    outcome (WorkflowRunner * result Payloads) :=
  match interp (handler args) r with
  | Finished r res => Val (r, res)
  | Parked _ _ => Hang
  | Stuck => UB
  end.

Definition RunQuery (name : string) (args : Payloads) (r : WorkflowRunner) :
    outcome (WorkflowRunner * result Payloads) :=
  match query_handlers_ r !! name with
  | None => Val (r, inl (app_error ("unknown query type: " +:+ name) "QueryNotRegistered"))
  | Some h => run_handler h args r
  end.

Definition RunUpdate (name : string) (args : Payloads) (r : WorkflowRunner) :
    outcome (WorkflowRunner * result Payloads) :=
  match update_handlers_ r !! name with
  | None => Val (r, inl (app_error ("unknown update: " +:+ name) "UpdateNotRegistered"))
  | Some h => run_handler h args r
  end.

Definition ValidateUpdate (name : string) (args : Payloads) (r : WorkflowRunner) :
    outcome (WorkflowRunner * result Payloads) :=
  match update_validators_ r !! name with
  | None => Val (r, inr [])
  | Some h => run_handler h args r
  end.

(** ** Applying history events to a live runner *)

Definition resolve_future (failed : bool) (result : Payloads)
    (failure_type failure_message : string) (s : FutureState) : FutureState :=
  s <| f_ready := true |> <| f_failed := failed |> <| f_result := result |>
    <| f_failure_type := failure_type |> <| f_failure_message := failure_message |>.

Definition on_registered (futures : gmap string loc) (id : string)
    (f : FutureState -> FutureState) (r : WorkflowRunner) : WorkflowRunner :=
  match futures !! id with Some l => on_future l f r | None => r end.

Definition ResolveActivity (sched : Z) (failed : bool) (result : Payloads)
    (failure_type failure_message : string) (r : WorkflowRunner) : WorkflowRunner :=
  match ps_sched_event_to_activity (scan_ r) !! sched with
  | Some id =>
    on_registered (activity_futures_ r) id
      (resolve_future failed result failure_type failure_message) r
  | None => r
  end.

Definition ResolveNexusOperation (sched : Z) (failed : bool) (result : Payloads)
    (failure_type failure_message : string) (r : WorkflowRunner) : WorkflowRunner :=
  match ps_sched_event_to_nexus (scan_ r) !! sched with
  | Some id =>
    on_registered (nexus_futures_ r) id
      (resolve_future failed result failure_type failure_message) r
  | None => r
  end.

Definition apply_activity_scheduled (ev : Z) (id : string) (r : WorkflowRunner) : WorkflowRunner :=
  r <| scan_ ::= fun ps => ps <| ps_sched_event_to_activity ::= <[ev := id]> |>
                              <| ps_activity_to_sched_event ::= <[id := ev]> |> |>.

Definition apply_nexus_scheduled (ev : Z) (r : WorkflowRunner) : WorkflowRunner :=
  r <| scan_ ::= fun ps =>
         let id := to_string (ps_nexus_ops_scheduled ps) in
         ps <| ps_nexus_ops_scheduled ::= Z.succ |>
            <| ps_nexus_ops ::= at_key no_nexus_op id (fun o => o <| nx_scheduled := true |>) |>
            <| ps_sched_event_to_nexus ::= <[ev := id]> |> |>.

Definition apply_activity_cancel_requested (sched : Z) (r : WorkflowRunner) : WorkflowRunner :=
  r <| scan_ ::= on_scheduled_activity sched (fun o => o <| act_cancel_requested := true |>) |>.

Definition apply_timer_fired (id : string) (r : WorkflowRunner) : WorkflowRunner :=
  on_registered (timer_futures_ r) id (fun s => s <| f_ready := true |>) r.

Definition apply_timer_canceled (id : string) (r : WorkflowRunner) : WorkflowRunner :=
  on_registered (timer_futures_ r) id
    (fun s => s <| f_ready := true |> <| f_cancelled := true |>) r.

Definition apply_child_completed (id : string) (result : Proto.Payloads) (r : WorkflowRunner) :
    WorkflowRunner :=
  on_registered (child_futures_ r) id
    (fun s => s <| f_ready := true |> <| f_result := FromProtoPayloads result |>) r.

Definition apply_child_failed (id message type : string) (r : WorkflowRunner) : WorkflowRunner :=
  on_registered (child_futures_ r) id
    (fun s => s <| f_ready := true |> <| f_failed := true |> <| f_failure_message := message |>
                <| f_failure_type := type |>) r.

Definition apply_signaled (name : string) (input : Proto.Payloads) (r : WorkflowRunner) :
    WorkflowRunner := r <| scan_ ::= scan_signaled name input |>.

Definition apply_cancel_requested (r : WorkflowRunner) : WorkflowRunner :=
  fold_left (fun r l => on_future l (fun s => s <| f_ready := true |>) r) (cancel_futures_ r)
    (r <| scan_ ::= fun ps => ps <| ps_cancel_requested := true |> |>).

Definition ApplyEventToState (ev : HistoryEvent) (r : WorkflowRunner) : WorkflowRunner :=
  match event_body ev with
  | ActivityTaskScheduled id _ => apply_activity_scheduled (event_id ev) id r
  | NexusOperationScheduled => apply_nexus_scheduled (event_id ev) r
  | NexusOperationCompleted sched res =>
    ResolveNexusOperation sched false [FromProtoPayload res] "" "" r
  | NexusOperationFailed sched f =>
    ResolveNexusOperation sched true [] (Proto.app_type f) (Proto.message f) r
  | NexusOperationTimedOut sched =>
    ResolveNexusOperation sched true [] "TimeoutError" "nexus operation timed out" r
  | NexusOperationCanceled sched =>
    ResolveNexusOperation sched true [] "CanceledError" "nexus operation cancelled" r
  | ActivityTaskCompleted sched res =>
    ResolveActivity sched false (FromProtoPayloads res) "" "" r
  | ActivityTaskFailed sched f =>
    ResolveActivity sched true [] (Proto.app_type f) (Proto.message f) r
  | ActivityTaskTimedOut sched =>
    ResolveActivity sched true [] "TimeoutError" "activity timed out" r
  | ActivityTaskCanceled sched =>
    ResolveActivity sched true [] "CanceledError" "activity cancelled" r
  | ActivityTaskCancelRequested sched => apply_activity_cancel_requested sched r
  | TimerFired id => apply_timer_fired id r
  | TimerCanceled id => apply_timer_canceled id r
  | ChildWorkflowExecutionCompleted id res => apply_child_completed id res r
  | ChildWorkflowExecutionFailed id f =>
    apply_child_failed id (Proto.message f) (Proto.app_type f) r
  | ChildWorkflowExecutionCanceled id =>
    apply_child_failed id "child workflow cancelled" "CanceledError" r
  | WorkflowExecutionSignaled name input => apply_signaled name input r
  | WorkflowExecutionCancelRequested => apply_cancel_requested r
  | _ => r
  end.

Definition last_event_id (r : WorkflowRunner) : Z := ps_last_event_id (scan_ r).

Definition ApplyEvents (h : History) (r : WorkflowRunner) : WorkflowRunner :=
  fold_left
    (fun r ev =>
       if event_id ev <=? last_event_id r then r
       else (ApplyEventToState ev r)
              <| scan_ ::= fun ps => ps <| ps_last_event_id := event_id ev |> |>)
    h r.

(** ** Driving the runner *)

(** Each step of the timeline: an update re-runs its handler (a standard exception
    is swallowed), an event is applied; then the body is resumed. *)
Fixpoint reapply (timeline : list ReplayStep) (r : WorkflowRunner) :
    outcome (WorkflowRunner * result unit) :=
  match timeline with
  | [] => Val (r, inr tt)
  | step :: timeline =>
    if coro_done r || deadlocked_ r then Val (r, inr tt)
    else
      let continue r :=
        match ResumeCoroutine r with
        | Val r => reapply timeline r
        | Hang => Hang
        | UB => UB
        end in
      match step with
      | EventStep ev => continue (ApplyEventToState ev r)
      | UpdateStep name args =>
        match update_handlers_ r !! name with
        | None => continue r
        | Some h =>
          match run_handler h args r with
          | Val (r, inl e) => if is_std_exception e then continue r else Val (r, inl e)
          | Val (r, inr _) => continue r
          | Hang => Hang
          | UB => UB
          end
        end
      end
  end.

Definition ReapplyHistoricalUpdates (r : WorkflowRunner) : outcome (WorkflowRunner * result unit) :=
  reapply (ps_post_update_timeline (scan_ r)) r.

Definition clear_commands (r : WorkflowRunner) : WorkflowRunner :=
  r <| commands_ := [] |> <| produced_commands_ := [] |>.

Definition ensure_coroutine (r : WorkflowRunner) : WorkflowRunner :=
  match coroutine_ r with NoCoroutine => r <| coroutine_ := Created |> | _ => r end.

Definition Run (r : WorkflowRunner) : outcome (WorkflowRunner * result unit) :=
  match ResumeCoroutine (ensure_coroutine (clear_commands r)) with
  | Val r => ReapplyHistoricalUpdates r
  | Hang => Hang
  | UB => UB
  end.

Definition ApplyAndResume (h : History) (r : WorkflowRunner) : outcome WorkflowRunner :=
  let r := ApplyEvents h (clear_commands r) in
  match coroutine_ r with
  | NoCoroutine => Val r
  | _ => ResumeCoroutine r
  end.

Definition SetDeadlockTimeout (timeout : Z) (r : WorkflowRunner) : WorkflowRunner :=
  r <| deadlock_timeout_ := timeout |>.

Definition AbandonCoroutine (r : WorkflowRunner) : WorkflowRunner :=
  match coroutine_ r with NoCoroutine => r | _ => r <| abandoned_ := true |> end.

Definition CheckDeterminism (r : WorkflowRunner) : option string :=
  MatchReplayCommands (produced_commands_ r) (ps_commands (scan_ r)).

Definition Completed (r : WorkflowRunner) : bool := bool_decide (status_ r = StatusCompleted).
Definition Failed (r : WorkflowRunner) : bool := bool_decide (status_ r = StatusFailed).
Definition IsContinueAsNew (r : WorkflowRunner) : bool :=
  bool_decide (status_ r = StatusContinueAsNew).
Definition IsDone (r : WorkflowRunner) : bool := coro_done r.

(** ** The constructor *)

(** Decode the recorded version markers; a malformed one is ignored. *)
Definition decode_versions (markers : list (Payloads * Payloads)) : gmap string Z :=
  fold_left
    (fun versions '(ids, vers) =>
       match ids, vers with
       | idp :: _, verp :: _ =>
         match FromPayload_string idp, FromPayload_int verp with
         | inr id, inr v => <[id := v]> versions
         | _, _ => versions
         end
       | _, _ => versions
       end)
    markers ∅.

Definition decode_mse (markers : list MutableSideEffectMarkerRaw) :
    gmap string (list (Z * Payload)) :=
  fold_left
    (fun recorded m =>
       match FromPayload_string (mse_id m), FromPayload_int (mse_call_index m) with
       | inr id, inr idx => at_key [] id (fun l => l ++ [(idx, mse_data m)]) recorded
       | _, _ => recorded
       end)
    markers ∅.

Definition new_runner (info : WorkflowInfo) (is_replaying : bool) (scan : Prescan)
    (workflow_fn : Payloads -> prog) (input : Payloads) : WorkflowRunner :=
  {| info_ := info <| wi_headers := ps_headers scan |>; is_replaying_ := is_replaying;
     deadlock_timeout_ := 0; deadlocked_ := false; abandoned_ := false; scan_ := scan;
     workflow_fn_ := workflow_fn; input_ := input; signal_cursor_ := ∅; query_handlers_ := ∅;
     update_handlers_ := ∅; update_validators_ := ∅; heap_ := []; activity_futures_ := ∅;
     timer_futures_ := ∅; child_futures_ := ∅; nexus_futures_ := ∅; cancel_futures_ := [];
     commands_ := []; produced_commands_ := []; status_ := Blocked; result_ := [];
     failure_ := Proto.mkFailure "" "" None; continue_as_new_ := ("", []); activity_seq_ := 0;
     timer_seq_ := 0; child_seq_ := 0; nexus_seq_ := 0; side_effect_seq_ := 0;
     ext_signal_seq_ := 0; upsert_seq_ := 0;
     change_versions_ := decode_versions (ps_version_markers scan);
     mse_recorded_ := decode_mse (ps_mutable_side_effect_markers scan); mse_call_count_ := ∅;
     mse_cursor_ := ∅; mse_current_ := ∅; local_activity_seq_ := 0; outbound_chain_ := None;
     coroutine_ := NoCoroutine; vars_ := ∅; reads_ := 0; resumes_ := 0 |}.
End Interp.

Arguments Val {A}.
Arguments Hang {A}.
Arguments UB {A}.
