(* ===== verification/Reference.v ===== *)
(** * Concrete instances

    A codec that satisfies [CodecLaws], an environment, and small workflow bodies
    and histories.  The closed instances of the theorems are evaluated on them. *)

From Stdlib Require Import Ascii.
From S2P Require Import Prelude Common Effects Determinism History Workflow Interceptors Runner.

(** ** A codec *)

(** Integers in binary, least significant digit first, after their sign. *)
Fixpoint encode_pos (p : positive) : string :=
  match p with
  | xH => "1"
  | xO p => String "0" (encode_pos p)
  | xI p => String "I" (encode_pos p)
  end.

Fixpoint decode_pos (s : string) : option positive :=
  match s with
  | String a s' =>
    if Ascii.eqb a "1"%char then (if str_empty s' then Some xH else None)
    else if Ascii.eqb a "0"%char then xO <$> decode_pos s'
    else if Ascii.eqb a "I"%char then xI <$> decode_pos s'
    else None
  | EmptyString => None
  end.

Definition encode_int (z : Z) : string :=
  match z with
  | Z0 => "z"
  | Zpos p => String "p" (encode_pos p)
  | Zneg p => String "n" (encode_pos p)
  end.

Definition decode_int (s : string) : option Z :=
  match s with
  | String a s' =>
    if Ascii.eqb a "z"%char then (if str_empty s' then Some 0 else None)
    else if Ascii.eqb a "p"%char then Zpos <$> decode_pos s'
    else if Ascii.eqb a "n"%char then Zneg <$> decode_pos s'
    else None
  | EmptyString => None
  end.

Lemma decode_encode_pos p : decode_pos (encode_pos p) = Some p.
Proof. induction p as [p IH|p IH|]; simpl; [by rewrite IH|by rewrite IH|done]. Qed.

Lemma decode_encode_int z : decode_int (encode_int z) = Some z.
Proof. destruct z; simpl; [done|by rewrite decode_encode_pos..]. Qed.

Definition bytes (s : string) : Payload := {| p_metadata := ∅; p_data := s |}.

#[export] Instance ref_codec : Codec := {
  ToPayload_string s := inr (bytes s);
  FromPayload_string p := inr (p_data p);
  ToPayload_int z := inr (bytes (encode_int z));
  FromPayload_int p :=
    match decode_int (p_data p) with
    | Some z => inr z
    | None => inl (DataConverterError "not an integer")
    end
}.

#[export] Instance ref_codec_laws : CodecLaws ref_codec.
Proof.
  split; simpl.
  - by intros s p [= <-].
  - intros z p [= <-]. simpl. by rewrite decode_encode_int.
  - eauto.
Qed.

(** ** An environment without interceptors or local activities *)

Definition ref_env : Env :=
  {| e_world := fun n => bytes (to_string (Z.of_nat n)); e_overruns := fun _ => false;
     e_local_activity_resolver := None; e_interceptors := []; e_failure_converter := None |}.

(** Like [ref_env], but the outside world always answers [s]. *)
Definition world_env (s : string) : Env :=
  {| e_world := fun _ => bytes s; e_overruns := fun _ => false;
     e_local_activity_resolver := None; e_interceptors := []; e_failure_converter := None |}.

Definition ref_info : WorkflowInfo :=
  {| wi_workflow_id := "wf"; wi_run_id := "run"; wi_workflow_type := "W"; wi_task_queue := "q";
     wi_ns := "default"; wi_headers := ∅ |}.

Definition ref_runner (is_replaying : bool) (h : History) (fn : Payloads -> prog) : WorkflowRunner :=
  new_runner ref_info is_replaying (ScanHistory h) fn (ps_input (ScanHistory h)).

(** ** Workflow bodies *)

Definition one_activity (_ : Payloads) : prog :=
  l <~ ExecuteActivity default_activity_options "Greet" [];
  r <~ FutureGet l;
  Return r.

(** ** Histories *)

Definition started : HistoryEvent :=
  mkEvent 1 (WorkflowExecutionStarted "W" (Proto.mkPayloads []) ∅).

(** The runner a run, a continuation or a handler leaves, for those that return. *)
Definition after_run (env : Env) (r : WorkflowRunner) : WorkflowRunner :=
  match Run env r with Val (r', _) => r' | _ => r end.

Definition after_continue (env : Env) (h : History) (r : WorkflowRunner) : WorkflowRunner :=
  match ApplyAndResume env h r with Val r' => r' | _ => r end.

Definition greeted : History :=
  [mkEvent 2 (ActivityTaskScheduled "0" "Greet");
   mkEvent 3 (ActivityTaskCompleted 2 (ToProtoPayloads [bytes "hi"]))].
