(* ===== verification/RunnerFacts.v ===== *)
(** * Properties of one run of a workflow body

    A small relational logic for the runner's operations: [respects R m] says that
    every execution of [m] relates the runner before and after by [R].  For a
    preorder it composes along the operations and along a whole body. *)

From S2P Require Import Prelude Common Effects Determinism History Workflow Interceptors Runner Reference.
Import CommandEvent.

(** ** Relations preserved by operations *)

Definition respects (R : relation WorkflowRunner) {A} (m : M A) : Prop :=
  forall r, R r (fst (m r)).

Section Respects.
Context (R : relation WorkflowRunner) `{!PreOrder R}.

Lemma respects_ok {A} (a : A) : respects R (ok a).
Proof. intros r. done. Qed.

Lemma respects_throw {A} e : respects R (@throw A e).
Proof. intros r. done. Qed.

Lemma respects_lift {A} (x : result A) : respects R (lift x).
Proof. intros r. done. Qed.

Lemma respects_get {A} (f : WorkflowRunner -> A) : respects R (get f).
Proof. intros r. done. Qed.

Lemma respects_and_then {A B} (m : M A) (k : A -> M B) :
  respects R m -> (forall a, respects R (k a)) -> respects R (and_then m k).
Proof.
  intros Hm Hk r. unfold and_then. specialize (Hm r).
  destruct (m r) as [r1 [e|a]]; simpl in *; [done|].
  etrans; [done|]. apply Hk.
Qed.

Lemma respects_modify f : (forall r, R r (f r)) -> respects R (modify f).
Proof. intros H r. apply H. Qed.

(** The runner a body leaves behind. *)
Definition run_state_respects (r : WorkflowRunner) (s : run_state) : Prop :=
  match s with Finished r' _ | Parked r' _ => R r r' | Stuck => True end.

Lemma interp_respects `{Codec} (env : Env) :
  (forall c r, R r (fst (do_call env c r))) ->
  (forall kind name h r, R r (register kind name h r)) ->
  forall p r, run_state_respects r (interp env p r).
Proof.
  intros Hcall Hreg p. induction p as [v|e|c k IH|kind name h _ k IH]; intros r; simpl.
  - reflexivity.
  - reflexivity.
  - pose proof (Hcall c r) as Hc. destruct (do_call env c r) as [r1 [a| |]]; simpl in *; [|done|done].
    specialize (IH a r1). destruct (interp env (k a) r1); simpl in *; [by etrans|by etrans|done].
  - specialize (IH (register kind name h r)).
    destruct (interp env k (register kind name h r)); simpl in *; [| |done];
      (etrans; [apply Hreg|done]).
Qed.
End Respects.

(** Decomposes an operation into its atomic steps. *)
Ltac respects_step :=
  lazymatch goal with
  | |- respects _ (and_then _ _) => apply respects_and_then; [apply _| |intros ?]
  | |- respects _ (ok _) => apply respects_ok; apply _
  | |- respects _ (throw _) => apply respects_throw; apply _
  | |- respects _ (lift _) => apply respects_lift; apply _
  | |- respects _ (get _) => apply respects_get; apply _
  | |- respects _ (match ?x with _ => _ end) => destruct x
  | |- respects _ (let '_ := ?x in _) => destruct x
  | |- respects _ (if ?b then _ else _) => destruct b
  end.

#[export] Hint Unfold ScheduleActivity StartTimer StartChildWorkflow ScheduleNexusOperation
  CancelTimerFuture CancelActivityFuture request_cancel_external Cancel CancelExternal
  SignalExternal Upsert AwaitCancellationFuture read_world ReplaySideEffect RecordSideEffect
  ContextSideEffect GetVersionOp BeginMutableSideEffect RecordMutableSideEffect
  ContextMutableSideEffect run_local_activity fail_local_activity ExecuteLocal
  EmitScheduleActivity EmitStartTimer EmitCancelTimer EmitRequestCancelActivity
  EmitStartChildWorkflow EmitNexusOperation EmitRequestCancelExternalWorkflow
  EmitSignalExternalWorkflow EmitUpsertSearchAttributes EmitRecordMarker : runner_ops.

Ltac respects_ops := repeat (autounfold with runner_ops; repeat respects_step).

Section LocalLoop.
Context (R : relation WorkflowRunner) `{!PreOrder R} `{Codec}.
Hypothesis R_emit : forall c, respects R (emit c).
Hypothesis R_read : respects R (modify (fun r => r <| reads_ ::= S |>)).

Lemma respects_local_activity_loop n fn t input attempt max ft fm :
  respects R (local_activity_loop n fn t input attempt max ft fm).
Proof.
  revert attempt ft fm. induction n as [|n IH]; intros attempt ft fm; simpl.
  - respects_ops. apply R_emit.
  - apply respects_and_then; [apply _| |].
    + respects_ops. apply R_read.
    + intros [e|res].
      * assert (Hfail : forall a b, respects R (fail_local_activity a b))
          by (intros; respects_ops; apply R_emit).
        destruct e; simpl; repeat case_match; try apply IH; try apply Hfail; by respects_ops.
      * respects_ops. apply R_emit.
Qed.
End LocalLoop.

(** ** The fields a body cannot change *)

Definition same_frame : relation WorkflowRunner := fun r r' =>
  info_ r' = info_ r /\ is_replaying_ r' = is_replaying_ r /\
  deadlock_timeout_ r' = deadlock_timeout_ r /\ deadlocked_ r' = deadlocked_ r /\
  abandoned_ r' = abandoned_ r /\ scan_ r' = scan_ r /\ workflow_fn_ r' = workflow_fn_ r /\
  input_ r' = input_ r /\ status_ r' = status_ r /\ result_ r' = result_ r /\
  failure_ r' = failure_ r /\ continue_as_new_ r' = continue_as_new_ r /\
  outbound_chain_ r' = outbound_chain_ r /\ coroutine_ r' = coroutine_ r /\
  resumes_ r' = resumes_ r.

#[export] Instance same_frame_preorder : PreOrder same_frame.
Proof.
  split; [by intros r; unfold same_frame|].
  unfold same_frame. intros a b c Hab Hbc. destruct_and!. split_and!; congruence.
Qed.

(** [R] holds across a call when it holds across the operation behind it. *)
Lemma answering_respects (R : relation WorkflowRunner) {A} (m : M A) r :
  respects R m -> R r (fst (answering m r)).
Proof. intros Hm. specialize (Hm r). unfold answering. by destruct (m r). Qed.

Lemma TryConsumeSignal_cases name r :
  fst (TryConsumeSignal name r) = r \/
  exists n, fst (TryConsumeSignal name r) = r <| signal_cursor_ ::= <[name := n]> |>.
Proof. unfold TryConsumeSignal. repeat case_match; eauto. Qed.

(** Reduces [forall c r, R r (fst (do_call env c r))] to the atomic steps; [leaf]
    closes those. *)
Ltac do_call_one leaf :=
  simpl; try reflexivity;
  lazymatch goal with
  | |- context [TryConsumeSignal ?name ?r] =>
    let H := fresh in
    pose proof (TryConsumeSignal_cases name r) as H;
    destruct (TryConsumeSignal name r) as [? [?|]]; simpl in *;
    destruct H as [->|[? ->]]; first [reflexivity|leaf]
  | |- _ => repeat case_match; try reflexivity; try (apply answering_respects); respects_ops;
            try (apply respects_local_activity_loop; [apply _|..]); intros; try intros ?; leaf
  end.

Ltac do_call_cases c leaf := destruct c; do_call_one leaf.

Lemma do_call_frame `{Codec} (env : Env) c r : same_frame r (fst (do_call env c r)).
Proof. do_call_cases c ltac:(by repeat split). Qed.

Lemma interp_frame `{Codec} (env : Env) p r :
  run_state_respects same_frame r (interp env p r).
Proof.
  apply interp_respects; [apply _|apply do_call_frame|].
  intros kind name h r'. by destruct kind.
Qed.

(** ** Futures are never un-resolved *)

Definition future_le (s s' : FutureState) : Prop :=
  (f_ready s = true -> f_ready s' = true) /\ f_op s' = f_op s /\ f_op_id s' = f_op_id s.

#[export] Instance future_le_preorder : PreOrder future_le.
Proof.
  split; [by intros s|]. intros a b c (?&?&?) (?&?&?). split_and!; [auto|congruence..].
Qed.

Definition heap_le : relation WorkflowRunner := fun r r' =>
  forall l s, heap_ r !! l = Some s -> exists s', heap_ r' !! l = Some s' /\ future_le s s'.

#[export] Instance heap_le_preorder : PreOrder heap_le.
Proof.
  split.
  - intros r l s Hl. by exists s.
  - intros a b c Hab Hbc l s Hl. destruct (Hab l s Hl) as (s1 & Hl1 & ?).
    destruct (Hbc l s1 Hl1) as (s2 & Hl2 & ?). exists s2. split; [done|by etrans].
Qed.

Lemma heap_le_same r r' : heap_ r' = heap_ r -> heap_le r r'.
Proof. intros Heq l s Hl. rewrite Heq. by exists s. Qed.

Lemma heap_le_alloc s : respects heap_le (alloc s).
Proof. intros r l s' Hl. exists s'. split; [|done]. by apply lookup_app_l_Some. Qed.

Lemma heap_le_on_future l f r : (forall s, future_le s (f s)) -> heap_le r (on_future l f r).
Proof.
  intros Hf l' s Hl. unfold on_future. simpl.
  destruct (decide (l = l')) as [->|Hne].
  - exists (f s). split; [|apply Hf]. by rewrite list_lookup_alter_eq, Hl.
  - exists s. split; [|done]. by rewrite list_lookup_alter_ne.
Qed.

Lemma do_call_heap_le `{Codec} (env : Env) c r : heap_le r (fst (do_call env c r)).
Proof.
  do_call_cases c ltac:(first [ apply heap_le_alloc | apply heap_le_same; reflexivity
                              | apply heap_le_on_future; by intros [] ]).
Qed.

Lemma interp_heap_le `{Codec} (env : Env) p r : run_state_respects heap_le r (interp env p r).
Proof.
  apply interp_respects; [apply _|apply do_call_heap_le|].
  intros kind name h r'. by destruct kind; apply heap_le_same.
Qed.

Lemma fold_on_future_heap_le ls r :
  heap_le r (fold_left (fun r l => on_future l (fun s => s <| f_ready := true |>) r) ls r).
Proof.
  apply (fold_left_inv _ (heap_le r)); [done|].
  intros r' l Hle _. etrans; [done|]. apply heap_le_on_future. by intros [].
Qed.

Lemma ApplyEventToState_heap_le ev r : heap_le r (ApplyEventToState ev r).
Proof.
  assert (Hreg : forall m id f r, (forall s, future_le s (f s)) -> heap_le r (on_registered m id f r)).
  { intros m id f r' Hf. unfold on_registered. case_match; [|done]. by apply heap_le_on_future. }
  unfold ApplyEventToState, ResolveActivity, ResolveNexusOperation, apply_timer_fired,
    apply_timer_canceled, apply_child_completed, apply_child_failed, apply_cancel_requested.
  repeat case_match; try done; try (by apply heap_le_same); try (apply Hreg; by intros []).
  etrans; [|apply fold_on_future_heap_le]. by apply heap_le_same.
Qed.

Lemma ApplyEvents_heap_le h r : heap_le r (ApplyEvents h r).
Proof.
  apply (fold_left_inv _ (heap_le r)); [done|].
  intros r' ev Hle _. case_match; [done|]. etrans; [done|].
  etrans; [apply ApplyEventToState_heap_le|]. by apply heap_le_same.
Qed.

(** ** Driving a runner: the transitions the task handler can make *)

Section Driving.
Context `{Codec} (env : Env).

(** Rule for any relation: it holds along a resume when it holds along the body
    and the bookkeeping around it. *)
Definition finish_respects (R : relation WorkflowRunner) : Prop :=
  (forall res r, coro_done r = false -> R r (finish_body env res r)) /\
  (forall rest r, coro_done r = false -> R r (r <| coroutine_ := Suspended rest |>)) /\
  (forall d n o r,
     R r (r <| resumes_ := n |> <| deadlocked_ := d |> <| outbound_chain_ := o |>)).

Lemma coro_done_frame r r' : same_frame r r' -> coro_done r' = coro_done r.
Proof.
  unfold same_frame, coro_done. intros Hf.
  by assert (coroutine_ r' = coroutine_ r) as -> by tauto.
Qed.

Lemma resume_with_respects R `{!PreOrder R} p r r' :
  (forall p r, run_state_respects R r (interp env p r)) -> finish_respects R ->
  coro_done r = false -> resume_with env p r = Val r' -> R r r'.
Proof.
  intros Hi (Hfin & Hpark & _) Hd. unfold resume_with.
  pose proof (Hi p r) as Hr. pose proof (interp_frame env p r) as Hf.
  destruct (interp env p r) as [r1 res|r1 rest|]; simpl in *; [| |done]; intros [= <-];
    (etrans; [exact Hr|]); apply coro_done_frame in Hf; [apply Hfin|apply Hpark]; congruence.
Qed.

Lemma ResumeCoroutine_respects R `{!PreOrder R} r r' :
  (forall p r, run_state_respects R r (interp env p r)) -> finish_respects R ->
  ResumeCoroutine env r = Val r' -> R r r'.
Proof.
  intros Hi Hfin. pose proof Hfin as (_ & _ & Hbook). unfold ResumeCoroutine.
  set (r1 := r <| resumes_ ::= S |>). change (coroutine_ r1) with (coroutine_ r).
  assert (Hstep : forall d o, R r (r1 <| deadlocked_ := d |> <| outbound_chain_ := o |>))
    by (intros d o; apply (Hbook d (S (resumes_ r)) o r)).
  destruct (coroutine_ r) eqn:Hc; simpl; [done| | |].
  - destruct (overran env r1 (resumes_ r)); [intros [= <-]; apply (Hstep true (outbound_chain_ r))|].
    intros Hrw. eapply resume_with_respects in Hrw; [|done..|].
    + etrans; [|exact Hrw]. apply (Hstep (deadlocked_ r)).
    + unfold coro_done. simpl. by rewrite Hc.
  - destruct (overran env r1 (resumes_ r)); [intros [= <-]; apply (Hstep true (outbound_chain_ r))|].
    intros Hrw. eapply resume_with_respects in Hrw; [|done..|].
    + etrans; [|exact Hrw]. apply (Hstep (deadlocked_ r) (outbound_chain_ r)).
    + unfold coro_done. simpl. by rewrite Hc.
  - intros [= <-]. apply (Hstep (deadlocked_ r) (outbound_chain_ r)).
Qed.

Lemma run_handler_respects R `{!PreOrder R} h args r r' res :
  (forall p r, run_state_respects R r (interp env p r)) ->
  run_handler env h args r = Val (r', res) -> R r r'.
Proof.
  intros Hi. unfold run_handler. specialize (Hi (h args) r).
  destruct (interp env (h args) r); simpl in *; [|done|done]. by intros [= <- <-].
Qed.

Lemma reapply_respects R `{!PreOrder R} l r r' res :
  (forall p r, run_state_respects R r (interp env p r)) -> finish_respects R ->
  (forall ev r, R r (ApplyEventToState ev r)) ->
  reapply env l r = Val (r', res) -> R r r'.
Proof.
  intros Hi Hf Hev. revert r. induction l as [|step l IH]; intros r; simpl; [by intros [= <- <-]|].
  case_match; [by intros [= <- <-]|].
  assert (Hk : forall r1, match ResumeCoroutine env r1 with
                          | Val r2 => reapply env l r2 | Hang => Hang | UB => UB end
                          = Val (r', res) -> R r1 r').
  { intros r1. destruct (ResumeCoroutine env r1) as [r2| |] eqn:Hr; [|done|done].
    intros Hl. etrans; [eapply ResumeCoroutine_respects; [..|exact Hr]; done|eauto]. }
  destruct step as [name args|ev].
  - case_match; [|by apply Hk].
    destruct (run_handler env _ args r) as [[r1 [e|v]]| |] eqn:Hh; try done;
      apply run_handler_respects with (R := R) in Hh; try done.
    + case_match; [|by intros [= <- <-]]. intros Hl. etrans; eauto.
    + intros Hl. etrans; eauto.
  - intros Hl. etrans; [apply Hev|eauto].
Qed.

Lemma Run_respects_cleared R `{!PreOrder R} r r' res :
  (forall p r, run_state_respects R r (interp env p r)) -> finish_respects R ->
  (forall ev r, R r (ApplyEventToState ev r)) ->
  Run env r = Val (r', res) -> R (ensure_coroutine (clear_commands r)) r'.
Proof.
  intros Hi Hf Hev. unfold Run.
  destruct (ResumeCoroutine env _) as [r1| |] eqn:Hr; [|done|done].
  intros Hl. apply reapply_respects with (R := R) in Hl; try done.
  etrans; [eapply ResumeCoroutine_respects; [..|exact Hr]; done|done].
Qed.

Lemma Run_respects R `{!PreOrder R} r r' res :
  (forall p r, run_state_respects R r (interp env p r)) -> finish_respects R ->
  (forall ev r, R r (ApplyEventToState ev r)) ->
  (forall r, R r (ensure_coroutine (clear_commands r))) ->
  Run env r = Val (r', res) -> R r r'.
Proof. intros ? ? ? Hc ?. etrans; [apply Hc|by eapply Run_respects_cleared]. Qed.

Lemma ApplyAndResume_respects_applied R `{!PreOrder R} h r r' :
  (forall p r, run_state_respects R r (interp env p r)) -> finish_respects R ->
  ApplyAndResume env h r = Val r' -> R (ApplyEvents h (clear_commands r)) r'.
Proof.
  intros Hi Hf. unfold ApplyAndResume. intros Hr.
  destruct (coroutine_ (ApplyEvents h (clear_commands r))); [by injection Hr as <-|..];
    (eapply ResumeCoroutine_respects; [..|exact Hr]; done).
Qed.

Lemma ApplyAndResume_respects R `{!PreOrder R} h r r' :
  (forall p r, run_state_respects R r (interp env p r)) -> finish_respects R ->
  (forall h r, R r (ApplyEvents h r)) -> (forall r, R r (clear_commands r)) ->
  ApplyAndResume env h r = Val r' -> R r r'.
Proof.
  intros ? ? Hev Hc ?. etrans; [|by eapply ApplyAndResume_respects_applied].
  etrans; [apply Hc|apply Hev].
Qed.

(** The transitions of a runner, as the task handler drives it. *)
Inductive runner_step (r : WorkflowRunner) : WorkflowRunner -> Prop :=
| step_run r' res : Run env r = Val (r', res) -> runner_step r r'
| step_continue h r' : ApplyAndResume env h r = Val r' -> runner_step r r'
| step_query name args r' res : RunQuery env name args r = Val (r', res) -> runner_step r r'
| step_update name args r' res : RunUpdate env name args r = Val (r', res) -> runner_step r r'
| step_validate name args r' res :
    ValidateUpdate env name args r = Val (r', res) -> runner_step r r'
| step_timeout t : runner_step r (SetDeadlockTimeout t r)
| step_abandon : runner_step r (AbandonCoroutine r).

(** What is settled for good: identity, replay mode, and, once the body has
    finished, its outcome. *)
Definition settled : relation WorkflowRunner := fun r r' =>
  (is_replaying_ r' = is_replaying_ r /\ info_ r' = info_ r /\
   workflow_fn_ r' = workflow_fn_ r /\ input_ r' = input_ r) /\
  (coro_done r = true ->
   coroutine_ r' = coroutine_ r /\ status_ r' = status_ r /\ result_ r' = result_ r /\
   failure_ r' = failure_ r /\ continue_as_new_ r' = continue_as_new_ r).

#[export] Instance settled_preorder : PreOrder settled.
Proof.
  split; [by intros r|]. intros a b c (H1 & H2) (H3 & H4).
  split; [destruct_and!; split_and!; congruence|].
  intros Hd. specialize (H2 Hd). destruct H2 as (Hc & ?). unfold coro_done in *.
  rewrite Hc in H4. specialize (H4 Hd). destruct_and!. split_and!; congruence.
Qed.

Lemma frame_settled r r' : same_frame r r' -> settled r r'.
Proof. unfold same_frame, settled. tauto. Qed.

Lemma interp_settled p r : run_state_respects settled r (interp env p r).
Proof.
  pose proof (interp_frame env p r) as Hf.
  destruct (interp env p r); simpl in *; eauto using frame_settled.
Qed.

Lemma finish_settled : finish_respects settled.
Proof.
  split_and!; [| |done].
  - intros res r Hd. split; [|by rewrite Hd]. unfold finish_body. by repeat case_match.
  - intros rest r Hd. split; [done|by rewrite Hd].
Qed.

Lemma finish_heap_le : finish_respects heap_le.
Proof.
  split_and!; intros; apply heap_le_same; try done. unfold finish_body. by repeat case_match.
Qed.

(** Applying events only touches the prescan and the heap. *)
Definition event_frame : relation WorkflowRunner := fun r r' =>
  exists scan heap, r' = r <| scan_ := scan |> <| heap_ := heap |>.

#[export] Instance event_frame_preorder : PreOrder event_frame.
Proof.
  split; [intros r; exists (scan_ r), (heap_ r); by destruct r|].
  intros a b c (? & ? & ->) (s & h & ->). by exists s, h.
Qed.

Lemma on_future_event_frame l f r : event_frame r (on_future l f r).
Proof. exists (scan_ r), (alter f l (heap_ r)). by destruct r. Qed.

Lemma ApplyEventToState_event_frame ev r : event_frame r (ApplyEventToState ev r).
Proof.
  assert (Hscan : forall f, event_frame r (r <| scan_ ::= f |>))
    by (intros f; exists (f (scan_ r)), (heap_ r); by destruct r).
  assert (Hreg : forall m id f, event_frame r (on_registered m id f r)).
  { intros m id f. unfold on_registered. case_match; [|done]. apply on_future_event_frame. }
  unfold ApplyEventToState, ResolveActivity, ResolveNexusOperation, apply_timer_fired,
    apply_timer_canceled, apply_child_completed, apply_child_failed, apply_signaled,
    apply_activity_scheduled, apply_nexus_scheduled, apply_activity_cancel_requested.
  repeat case_match; try reflexivity; eauto.
  unfold apply_cancel_requested.
  apply (fold_left_inv _ (event_frame r)); [apply Hscan|].
  intros r' l Hr _. etrans; [exact Hr|]. apply on_future_event_frame.
Qed.

Lemma ApplyEvents_event_frame h r : event_frame r (ApplyEvents h r).
Proof.
  apply (fold_left_inv _ (event_frame r)); [done|].
  intros r' ev Hr _. case_match; [done|]. etrans; [exact Hr|].
  etrans; [apply (ApplyEventToState_event_frame ev)|].
  generalize (ApplyEventToState ev r') as r2. intros r2.
  exists ((scan_ r2) <| ps_last_event_id := event_id ev |>), (heap_ r2). by destruct r2.
Qed.

Lemma event_frame_settled r r' : event_frame r r' -> settled r r'.
Proof. intros (? & ? & ->). by repeat split. Qed.
End Driving.

(** ** Progress *)

Section Progress.
Context `{Codec} (env : Env).

Lemma interp_not_stuck p r : coro_done r = false -> interp env p r <> Stuck.
Proof.
  revert r. induction p as [v|e|c k IH|kind name h _ k IH]; intros r Hd; simpl; try done.
  - pose proof (do_call_frame env c r) as Hf. apply coro_done_frame in Hf.
    destruct (do_call env c r) as [r1 [a| |]] eqn:Hc; simpl in *; [|done|].
    + apply IH. congruence.
    + intros _. destruct c; simpl in Hc;
        unfold answering, future_get, select, outbound_dangles in Hc; rewrite ?Hd in Hc;
        simpl in Hc; repeat case_match; simplify_eq.
  - apply IH. by destruct kind.
Qed.

Lemma resume_with_returns p r : coro_done r = false -> exists r', resume_with env p r = Val r'.
Proof.
  intros Hd. unfold resume_with. pose proof (interp_not_stuck p r Hd).
  destruct (interp env p r); [eauto|eauto|done].
Qed.

Lemma ResumeCoroutine_returns r :
  coroutine_ r <> NoCoroutine -> exists r', ResumeCoroutine env r = Val r'.
Proof.
  intros Hc. unfold ResumeCoroutine. set (r1 := r <| resumes_ ::= S |>).
  change (coroutine_ r1) with (coroutine_ r).
  destruct (coroutine_ r) eqn:Heq; [done| | |eauto]; case_match; eauto;
    apply resume_with_returns; unfold coro_done; simpl; by rewrite Heq.
Qed.

Lemma ResumeCoroutine_scan r r' : ResumeCoroutine env r = Val r' -> scan_ r' = scan_ r.
Proof.
  set (R := fun r r' => scan_ r' = scan_ r).
  assert (PreOrder R) by (split; [intros a; reflexivity|intros a b c; unfold R; congruence]).
  apply (ResumeCoroutine_respects env R).
  - intros p r2. pose proof (interp_frame env p r2) as Hf.
    destruct (interp env p r2); simpl in *; unfold same_frame in *; tauto.
  - split_and!; intros; try done. unfold finish_body. by repeat case_match.
Qed.

(** A resume never takes the coroutine away. *)
Lemma ResumeCoroutine_coroutine r r' :
  ResumeCoroutine env r = Val r' -> coroutine_ r <> NoCoroutine /\ coroutine_ r' <> NoCoroutine.
Proof.
  unfold ResumeCoroutine. set (r1 := r <| resumes_ ::= S |>).
  change (coroutine_ r1) with (coroutine_ r).
  assert (Hw : forall p r2, resume_with env p r2 = Val r' -> coroutine_ r' <> NoCoroutine).
  { intros p r2. unfold resume_with.
    destruct (interp env p r2); intros [= <-]; [|done].
    unfold finish_body. by repeat case_match. }
  destruct (coroutine_ r) eqn:Heq; [done| | |]; intros Hr; (split; [done|]).
  - destruct (overran env r1 (resumes_ r)); [|simpl in Hr; by eapply Hw].
    injection Hr as <-. simpl. by rewrite Heq.
  - destruct (overran env r1 (resumes_ r)); [|by eapply Hw].
    injection Hr as <-. simpl. by rewrite Heq.
  - injection Hr as <-. simpl. by rewrite Heq.
Qed.

Lemma ensure_coroutine_some r : coroutine_ (ensure_coroutine r) <> NoCoroutine.
Proof. unfold ensure_coroutine. destruct (coroutine_ r) eqn:Hc; simpl; congruence. Qed.

Lemma reapply_returns l r :
  Forall (fun s => match s with EventStep _ => True | UpdateStep _ _ => False end) l ->
  coroutine_ r <> NoCoroutine -> exists r', reapply env l r = Val (r', inr tt).
Proof.
  intros Hl. revert r. induction Hl as [|[|ev] l Hs _ IH]; intros r Hc; simpl; [eauto|done|].
  case_match; [eauto|].
  destruct (ApplyEventToState_event_frame ev r) as (? & ? & ->).
  destruct (ResumeCoroutine_returns (r <| scan_ := x |> <| heap_ := x0 |>)) as [r1 Hr]; [done|].
  rewrite Hr. apply IH. by eapply ResumeCoroutine_coroutine.
Qed.
End Progress.

(** ** Properties *)

Section LifeProperties.
Context `{Codec} (env : Env).

Lemma runner_step_heap_le r r' : runner_step env r r' -> heap_le r r'.
Proof.
  pose proof (interp_heap_le env) as Hi. pose proof (finish_heap_le env) as Hf.
  intros [r1 res Hr|h r1 Hr|n a r1 res Hr|n a r1 res Hr|n a r1 res Hr|t|].
  - eapply Run_respects;
      [apply _|exact Hi|exact Hf|apply ApplyEventToState_heap_le| |exact Hr].
    intros r2. apply heap_le_same. unfold ensure_coroutine. by case_match.
  - eapply ApplyAndResume_respects;
      [apply _|exact Hi|exact Hf|apply ApplyEvents_heap_le| |exact Hr].
    intros r2. by apply heap_le_same.
  - unfold RunQuery in Hr. case_match; simplify_eq; [|done].
    by apply run_handler_respects with (R := heap_le) in Hr; try apply _.
  - unfold RunUpdate in Hr. case_match; simplify_eq; [|done].
    by apply run_handler_respects with (R := heap_le) in Hr; try apply _.
  - unfold ValidateUpdate in Hr. case_match; simplify_eq; [|done].
    by apply run_handler_respects with (R := heap_le) in Hr; try apply _.
  - by apply heap_le_same.
  - apply heap_le_same. unfold AbandonCoroutine. by case_match.
Qed.

Lemma runner_step_settled r r' : runner_step env r r' -> settled r r'.
Proof.
  pose proof (interp_settled env) as Hi. pose proof (finish_settled env) as Hf.
  intros [r1 res Hr|h r1 Hr|n a r1 res Hr|n a r1 res Hr|n a r1 res Hr|t|].
  - eapply Run_respects; [apply _|exact Hi|exact Hf| | |exact Hr];
      [intros; apply event_frame_settled, ApplyEventToState_event_frame|].
    intros r2. unfold ensure_coroutine. case_match; try done.
    split; [done|]. unfold coro_done; simpl in *. intros Hd. by rewrite H0 in Hd.
  - eapply ApplyAndResume_respects; [apply _|exact Hi|exact Hf| | |exact Hr]; [|done].
    intros; apply event_frame_settled, ApplyEvents_event_frame.
  - unfold RunQuery in Hr. case_match; simplify_eq; [|done].
    by apply run_handler_respects with (R := settled) in Hr; try apply _.
  - unfold RunUpdate in Hr. case_match; simplify_eq; [|done].
    by apply run_handler_respects with (R := settled) in Hr; try apply _.
  - unfold ValidateUpdate in Hr. case_match; simplify_eq; [|done].
    by apply run_handler_respects with (R := settled) in Hr; try apply _.
  - done.
  - unfold AbandonCoroutine. by case_match.
Qed.

End LifeProperties.

Section ProgressProperties.
Context `{Codec} (env : Env).

End ProgressProperties.

(** ** Closed instances *)


