(* ===== verification/Commands.v ===== *)
(** * What a run produces and emits

    Two lists leave a run: [produced_commands_], the calls the body made, which a
    replay is matched by, and [commands_], what is sent to the server.  This file
    relates them, and shows how operations are numbered. *)

From S2P Require Import Prelude Common Effects Determinism History Workflow Interceptors Runner RunnerFacts Reference.
Import CommandEvent.

(** ** Emitted commands are produced *)

(** The produced record a command answers for. *)
Definition command_for (e : CommandEvent) (c : Command) : bool :=
  match kind e, c with
  | Activity, ScheduleActivityTask id type _ _ _ _ _ _ _ _ =>
    String.eqb (CommandEvent.id e) id && String.eqb (name e) type
  | Timer, StartTimerCommand id _ | CancelTimer, CancelTimerCommand id =>
    String.eqb (CommandEvent.id e) id
  | RequestCancelActivity, RequestCancelActivityTask sched =>
    String.eqb (CommandEvent.id e) (to_string sched)
  | ChildWorkflow, StartChildWorkflowExecution _ id type _ _ _ =>
    String.eqb (CommandEvent.id e) id && String.eqb (name e) type
  | NexusOperation, ScheduleNexusOperationCommand _ _ _ _ _ => true
  | RequestCancelExternalWorkflow, RequestCancelExternalWorkflowExecution _ id _
  | CommandEvent.SignalExternalWorkflow, SignalExternalWorkflowExecution _ id _ _ =>
    String.eqb (CommandEvent.id e) id
  | CommandEvent.UpsertSearchAttributes, UpsertWorkflowSearchAttributes _ => true
  | Marker, RecordMarker name _ => String.eqb (CommandEvent.id e) name
  | _, _ => false
  end.

(** The commands answer, in order, for a subsequence of the produced records. *)
Definition covers (produced : list CommandEvent) (commands : list Command) : Prop :=
  exists sub, sublist sub produced /\ Forall2 (fun e c => command_for e c = true) sub commands.

Lemma covers_nil p : covers p [].
Proof. exists []. split; [apply sublist_nil_l|constructor]. Qed.

Lemma covers_app p1 p2 c1 c2 : covers p1 c1 -> covers p2 c2 -> covers (p1 ++ p2) (c1 ++ c2).
Proof.
  intros (s1 & H1 & F1) (s2 & H2 & F2). exists (s1 ++ s2).
  split; [by apply sublist_app|by apply Forall2_app].
Qed.

Lemma covers_elem p e c : e ∈ p -> command_for e c = true -> covers p [c].
Proof.
  intros He Hc. exists [e]. split; [|by repeat constructor].
  apply list_elem_of_split in He as (l1 & l2 & ->).
  apply sublist_inserts_l. apply sublist_skip, sublist_nil_l.
Qed.

(** [outputs pend m]: [m] appends to both lists, and its commands are covered by
    what it produces together with the records [pend] produced just before. *)
Definition outputs_of (pend : list CommandEvent) (r r' : WorkflowRunner) : Prop :=
  exists dp dc, produced_commands_ r' = produced_commands_ r ++ dp /\
                commands_ r' = commands_ r ++ dc /\ covers (pend ++ dp) dc.

Definition outputs (pend : list CommandEvent) {A} (m : M A) : Prop :=
  forall r, outputs_of pend r (fst (m r)).

Definition same_out : relation WorkflowRunner := fun r r' =>
  produced_commands_ r' = produced_commands_ r /\ commands_ r' = commands_ r.

#[export] Instance same_out_preorder : PreOrder same_out.
Proof.
  split; [by intros r|]. intros a b c [] []. split; congruence.
Qed.

#[export] Instance outputs_of_preorder : PreOrder (outputs_of []).
Proof.
  split.
  - intros r. exists [], []. rewrite !app_nil_r. split_and!; try done. apply covers_nil.
  - intros a b c (p1 & c1 & Hp1 & Hc1 & H1) (p2 & c2 & Hp2 & Hc2 & H2).
    exists (p1 ++ p2), (c1 ++ c2). rewrite Hp2, Hc2, Hp1, Hc1, <- !app_assoc.
    split_and!; [done..|]. simpl in *. by apply covers_app.
Qed.

Lemma same_out_outputs pend r r' : same_out r r' -> outputs_of pend r r'.
Proof.
  intros [Hp Hc]. exists [], []. rewrite !app_nil_r. split_and!; try done. apply covers_nil.
Qed.

Lemma outputs_quiet {A} pend (m : M A) : respects same_out m -> outputs pend m.
Proof. intros Hm r. apply same_out_outputs, Hm. Qed.

Lemma outputs_of_weaken pend r r' : outputs_of [] r r' -> outputs_of pend r r'.
Proof.
  intros (dp & dc & Hp & Hc & Hcov). exists dp, dc. split_and!; try done.
  destruct Hcov as (sub & Hs & HF). exists sub. split; [|done]. by apply sublist_inserts_l.
Qed.

Lemma outputs_and_then {A B} pend (m : M A) (k : A -> M B) :
  outputs pend m -> (forall a, outputs [] (k a)) -> outputs pend (and_then m k).
Proof.
  intros Hm Hk r. unfold and_then. destruct (Hm r) as (p1 & c1 & Hp1 & Hc1 & H1).
  destruct (m r) as [r1 [e|a]]; simpl in *; [by exists p1, c1|].
  destruct (Hk a r1) as (p2 & c2 & Hp2 & Hc2 & H2). exists (p1 ++ p2), (c1 ++ c2).
  rewrite Hp2, Hc2, Hp1, Hc1, !(app_assoc pend), <- !(app_assoc _ p1), <- !(app_assoc _ c1).
  split_and!; try done. rewrite (app_assoc pend). by apply covers_app.
Qed.

Lemma outputs_quiet_then {A B} pend (m : M A) (k : A -> M B) :
  respects same_out m -> (forall a, outputs pend (k a)) -> outputs pend (and_then m k).
Proof.
  intros Hm Hk r. unfold and_then. destruct (Hm r) as [Hp1 Hc1].
  destruct (m r) as [r1 [e|a]]; simpl in *; [by apply same_out_outputs|].
  destruct (Hk a r1) as (p2 & c2 & Hp2 & Hc2 & H2). exists p2, c2.
  by rewrite Hp2, Hc2, Hp1, Hc1.
Qed.

Lemma outputs_produce {A} pend c (k : unit -> M A) :
  (forall a, outputs (pend ++ [c]) (k a)) -> outputs pend (and_then (produce c) k).
Proof.
  intros Hk r. unfold and_then, produce, modify.
  destruct (Hk tt (r <| produced_commands_ ::= fun l => l ++ [c] |>)) as (p & cs & Hp & Hc & Hcov).
  exists ([c] ++ p), cs. rewrite Hp, Hc. simpl. rewrite <- !app_assoc in *. done.
Qed.

Lemma outputs_emit pend e c : e ∈ pend -> command_for e c = true -> outputs pend (emit c).
Proof.
  intros He Hc r. exists [], [c]. simpl. rewrite !app_nil_r. split_and!; try done.
  by eapply covers_elem.
Qed.

Lemma outputs_assoc {A B C} pend (m : M A) (k1 : A -> M B) (k2 : B -> M C) :
  outputs pend (and_then m (fun a => and_then (k1 a) k2)) ->
  outputs pend (and_then (and_then m k1) k2).
Proof.
  intros Hm r. specialize (Hm r). unfold and_then in *. by destruct (m r) as [r1 [e|a]].
Qed.

Ltac quiet := respects_ops; intros ?; by split.

Ltac outputs_step :=
  lazymatch goal with
  | |- outputs _ (and_then (and_then _ _) _) => apply outputs_assoc
  | |- outputs _ (and_then (produce _) _) => apply outputs_produce; intros ?
  | |- outputs _ (and_then (emit _) _) => apply outputs_and_then; [|intros ?]
  | |- outputs _ (and_then (match ?x with _ => _ end) _) =>
    first [ apply outputs_quiet_then; [solve [quiet]|intros ?]
          | apply outputs_and_then; [|intros ?] ]
  | |- outputs _ (and_then _ _) => apply outputs_quiet_then; [solve [quiet]|intros ?]
  | |- outputs _ (match ?x with _ => _ end) => destruct x
  | |- outputs _ (let '_ := ?x in _) => destruct x
  | |- outputs _ (emit _) =>
    eapply outputs_emit; [simpl; left|
                          unfold command_for; simpl; rewrite ?String.eqb_refl; reflexivity]
  | |- outputs _ _ => apply outputs_quiet; solve [quiet]
  end.

Ltac outputs_ops := repeat (autounfold with runner_ops; repeat outputs_step).

Section Outputs.
Context `{Codec} (env : Env).

Lemma outputs_local_loop n fn t input attempt max ft fm :
  outputs [mk Marker "LocalActivity" ""]
    (local_activity_loop n fn t input attempt max ft fm).
Proof.
  revert attempt ft fm. induction n as [|n IH]; intros attempt ft fm; simpl; [by outputs_ops|].
  apply outputs_quiet_then; [quiet|]. intros [e|res]; [|by outputs_ops].
  assert (Hfail : forall a b, outputs [mk Marker "LocalActivity" ""] (fail_local_activity a b))
    by (intros; by outputs_ops).
  destruct e; simpl; repeat case_match; try apply IH; try apply Hfail; by outputs_ops.
Qed.

Lemma do_call_outputs c r : outputs_of [] r (fst (do_call env c r)).
Proof.
  assert (Ha : forall {A} (m : M A), outputs [] m -> outputs_of [] r (fst (answering m r))).
  { intros A m Hm. specialize (Hm r). unfold answering. by destruct (m r). }
  destruct c; simpl; try reflexivity; try (by apply same_out_outputs);
    lazymatch goal with
    | |- context [TryConsumeSignal ?name ?r] =>
      pose proof (TryConsumeSignal_cases name r) as Hs;
      destruct (TryConsumeSignal name r) as [? [?|]]; simpl in *;
      destruct Hs as [->|[? ->]]; apply same_out_outputs; by split
    | |- _ => repeat case_match; try reflexivity; apply Ha; outputs_ops
    end; try (by apply outputs_local_loop).
Qed.

Lemma interp_outputs p r : run_state_respects (outputs_of []) r (interp env p r).
Proof.
  apply interp_respects; [apply _|apply do_call_outputs|].
  intros kind name h r'. by destruct kind; apply same_out_outputs.
Qed.

Lemma finish_outputs : finish_respects env (outputs_of []).
Proof.
  assert (Ht : forall r r' dp, produced_commands_ r' = produced_commands_ r ++ dp ->
               commands_ r' = commands_ r -> outputs_of [] r r').
  { intros r r' dp Hp Hc. exists dp, []. rewrite app_nil_r. split_and!; try done.
    apply covers_nil. }
  split_and!.
  - intros res r _. unfold finish_body.
    repeat case_match;
      first [by apply same_out_outputs | eapply Ht; simpl; reflexivity].
  - intros rest r _. by apply same_out_outputs.
  - intros d n o r. by apply same_out_outputs.
Qed.

Lemma event_frame_outputs r r' : event_frame r r' -> outputs_of [] r r'.
Proof. intros (? & ? & ->). by apply same_out_outputs. Qed.

Lemma outputs_from_cleared r r' :
  commands_ r = [] -> produced_commands_ r = [] -> outputs_of [] r r' ->
  covers (produced_commands_ r') (commands_ r').
Proof. intros Hc Hp (dp & dc & -> & -> & H'). by rewrite Hc, Hp. Qed.
End Outputs.

(** ** Numbering *)

(** The ids of the produced records of one kind. *)
Definition ids_of (k : Kind) (l : list CommandEvent) : list string :=
  omap (fun c => if decide (kind c = k) then Some (id c) else None) l.

Lemma ids_of_app k l1 l2 : ids_of k (l1 ++ l2) = ids_of k l1 ++ ids_of k l2.
Proof. apply omap_app. Qed.

Section Numbering.
Context `{Codec} (env : Env).
Context (k : Kind) (seq : WorkflowRunner -> Z) (label : string -> string).

(** From [r] to [r'] the produced records of kind [k] are numbered consecutively
    from [seq r] on. *)
Definition numbered : relation WorkflowRunner := fun r r' =>
  exists dp, produced_commands_ r' = produced_commands_ r ++ dp /\ seq r <= seq r' /\
             ids_of k dp = (fun n => label (to_string n)) <$> seqZ (seq r) (seq r' - seq r).

#[export] Instance numbered_preorder : PreOrder numbered.
Proof.
  split.
  - intros r. exists []. rewrite app_nil_r, Z.sub_diag. by split_and!.
  - intros a b c (p1 & Hp1 & Hs1 & H1) (p2 & Hp2 & Hs2 & H2). exists (p1 ++ p2).
    rewrite Hp2, Hp1, <- app_assoc, ids_of_app, H1, H2, <- fmap_app. split_and!; [done|lia|].
    replace (seq c - seq a) with ((seq b - seq a) + (seq c - seq b)) by lia.
    rewrite seqZ_app by lia. do 3 f_equal. lia.
Qed.

Lemma numbered_same r r' :
  produced_commands_ r' = produced_commands_ r -> seq r' = seq r -> numbered r r'.
Proof.
  intros Hp Hs. exists []. rewrite app_nil_r, Hs, Z.sub_diag. by split_and!.
Qed.

Lemma numbered_other e r :
  kind e <> k -> seq (r <| produced_commands_ ::= fun l => l ++ [e] |>) = seq r ->
  numbered r (r <| produced_commands_ ::= fun l => l ++ [e] |>).
Proof.
  intros Hk Hs. exists [e]. rewrite Hs, Z.sub_diag. simpl. split_and!; [done|done|].
  unfold ids_of. simpl. by rewrite decide_False.
Qed.

(** The shape of a scheduling operation: take the next number, produce the record. *)
Lemma numbered_take {A} (inc : WorkflowRunner -> WorkflowRunner) nm (rest : string -> M A) :
  (forall r, seq (inc r) = seq r + 1 /\ produced_commands_ (inc r) = produced_commands_ r) ->
  (forall e r, seq (r <| produced_commands_ ::= fun l => l ++ [e] |>) = seq r) ->
  (forall id, respects numbered (rest id)) ->
  respects numbered
    (id <- get (fun r => label (to_string (seq r)));; modify inc;;; produce (mk k id nm);;; rest id).
Proof.
  intros Hinc Hpr Hrest r. unfold and_then, get, modify, produce. simpl.
  destruct (Hinc r) as [Hs Hp].
  etrans; [|apply Hrest]. set (e := mk k (label (to_string (seq r))) nm).
  pose proof (Hpr e (inc r)) as He. simpl in He. exists [e]. simpl. split_and!.
  - by rewrite Hp.
  - rewrite He. lia.
  - rewrite He, Hs. replace (seq r + 1 - seq r) with 1 by lia.
    unfold ids_of; simpl. by rewrite decide_True by done.
Qed.
End Numbering.

Section Numbered.
Context `{Codec} (env : Env).

Ltac numbered_leaf :=
  first [ apply numbered_same; reflexivity
        | apply numbered_other; [done|reflexivity] ].

Abbreviation activities_numbered := (numbered Activity activity_seq_ (fun s => s)).
Abbreviation timers_numbered := (numbered Timer timer_seq_ (fun s => "t" +:+ s)).
Abbreviation nexus_numbered := (numbered NexusOperation nexus_seq_ (fun s => s)).

Ltac numbered_op k seq lbl :=
  simpl; repeat case_match; try reflexivity; apply answering_respects;
  apply (numbered_take k seq lbl);
  [done|done|intros ?; respects_ops; intros ?; numbered_leaf].

Lemma do_call_activities c r : activities_numbered r (fst (do_call env c r)).
Proof.
  destruct c; try solve [do_call_one numbered_leaf].
  numbered_op Activity activity_seq_ (fun s : string => s).
Qed.

Lemma do_call_timers c r : timers_numbered r (fst (do_call env c r)).
Proof.
  destruct c; try solve [do_call_one numbered_leaf].
  numbered_op Timer timer_seq_ (fun s => "t" +:+ s).
Qed.

Lemma do_call_nexus c r : nexus_numbered r (fst (do_call env c r)).
Proof.
  destruct c; try solve [do_call_one numbered_leaf].
  numbered_op NexusOperation nexus_seq_ (fun s : string => s).
Qed.
End Numbered.

Section RunNumbered.
Context `{Codec} (env : Env) (k : Kind) (seq : WorkflowRunner -> Z) (label : string -> string).
Hypothesis Hcall : forall c r, numbered k seq label r (fst (do_call env c r)).
Hypothesis Hk : forall s e, terminal_kind s = Some e -> kind e <> k.
(** [seq] reads a counter: any update of another field keeps it. *)
Hypothesis Hseq : forall r r', activity_seq_ r' = activity_seq_ r -> timer_seq_ r' = timer_seq_ r ->
  nexus_seq_ r' = nexus_seq_ r -> seq r' = seq r.

Lemma interp_numbered p r : run_state_respects (numbered k seq label) r (interp env p r).
Proof.
  apply interp_respects; [apply _|done|].
  intros kind name h r'. destruct kind; (apply numbered_same; [done|by apply Hseq]).
Qed.

Lemma finish_produced res r :
  exists s, produced_commands_ (finish_body env res r) =
            produced_commands_ r ++ option_list (terminal_kind s).
Proof.
  unfold finish_body. destruct res as [e|v]; [destruct e|]; simpl;
    first [by exists StatusFailed | by exists StatusCompleted | by exists StatusContinueAsNew
          | exists Blocked; simpl; by rewrite app_nil_r].
Qed.

Lemma finish_numbered : finish_respects env (numbered k seq label).
Proof.
  split_and!; intros; try (apply numbered_same; [done|by apply Hseq]).
  destruct (finish_produced res r) as [s Hs].
  exists (option_list (terminal_kind s)).
  assert (seq (finish_body env res r) = seq r) as ->
    by (unfold finish_body; repeat case_match; by apply Hseq).
  rewrite Z.sub_diag. split_and!; [done|done|].
  destruct (terminal_kind s) as [e|] eqn:He; simpl; [|done].
  unfold ids_of; simpl. rewrite decide_False; [done|]. by eapply Hk.
Qed.

Lemma Run_numbered r r' res :
  Run env r = Val (r', res) ->
  ids_of k (produced_commands_ r') = (fun n => label (to_string n)) <$> seqZ (seq r) (seq r' - seq r).
Proof.
  intros Hr.
  assert (Hev : forall ev r, numbered k seq label r (ApplyEventToState ev r)).
  { intros ev r2. destruct (ApplyEventToState_event_frame ev r2) as (? & ? & ->).
    apply numbered_same; [done|by apply Hseq]. }
  destruct (Run_respects_cleared env _ _ _ _ interp_numbered finish_numbered Hev Hr)
    as (dp & Hdp & _ & Hids).
  assert (produced_commands_ (ensure_coroutine (clear_commands r)) = [] /\
                  seq (ensure_coroutine (clear_commands r)) = seq r) as [Hp0 Hs0].
  { unfold ensure_coroutine. split; [by case_match|case_match; by apply Hseq]. }
  by rewrite Hdp, Hp0, <- Hs0.
Qed.
End RunNumbered.

(** ** Properties *)

Section CommandProperties.
Context `{Codec} (env : Env).

(** C10: nothing is sent that the body did not ask for: after a run, a replay or a
    sticky continuation, the commands of the response answer, in order, for a
    subsequence of the records the body produced (so a later replay, which
    produces the same records, accounts for each of them). *)
Theorem emitted_commands_are_produced (r : WorkflowRunner) :
  (forall r' res, Run env r = Val (r', res) -> covers (produced_commands_ r') (commands_ r')) /\
  (forall h r', ApplyAndResume env h r = Val r' ->
                covers (produced_commands_ r') (commands_ r')).
Proof.
  split.
  - intros r' res Hr.
    assert (Hev : forall ev r, outputs_of [] r (ApplyEventToState ev r))
      by (intros; apply event_frame_outputs, ApplyEventToState_event_frame).
    pose proof (Run_respects_cleared env _ _ _ _ (interp_outputs env) (finish_outputs env) Hev Hr)
      as Ho.
    eapply outputs_from_cleared; [..|exact Ho]; unfold ensure_coroutine; by case_match.
  - intros h r' Hr.
    pose proof (ApplyAndResume_respects_applied env _ _ _ _ (interp_outputs env)
                  (finish_outputs env) Hr) as Ho. clear Hr. rename Ho into Hr.
    destruct (ApplyEvents_event_frame h (clear_commands r)) as (? & ? & He).
    rewrite He in Hr. eapply outputs_from_cleared; [..|exact Hr]; done.
Qed.

(** C11: operation ids are assigned by call order: the activities, timers and Nexus
    operations of a run are numbered consecutively, with no gap and no repetition,
    from the counters the runner started with. *)
Theorem operations_numbered_by_call_order (r r' : WorkflowRunner) (res : result unit) :
  Run env r = Val (r', res) ->
  ids_of Activity (produced_commands_ r') =
    to_string <$> seqZ (activity_seq_ r) (activity_seq_ r' - activity_seq_ r) /\
  ids_of Timer (produced_commands_ r') =
    (fun n => "t" +:+ to_string n) <$> seqZ (timer_seq_ r) (timer_seq_ r' - timer_seq_ r) /\
  ids_of NexusOperation (produced_commands_ r') =
    to_string <$> seqZ (nexus_seq_ r) (nexus_seq_ r' - nexus_seq_ r) /\
  NoDup (ids_of Activity (produced_commands_ r')) /\
  NoDup (ids_of Timer (produced_commands_ r')).
Proof.
  intros Hr.
  pose proof (Run_numbered env Activity activity_seq_ (fun s => s) (do_call_activities env)) as Ha.
  pose proof (Run_numbered env Timer timer_seq_ (fun s => "t" +:+ s) (do_call_timers env)) as Ht.
  pose proof (Run_numbered env NexusOperation nexus_seq_ (fun s => s) (do_call_nexus env)) as Hn.
  assert (Hk : forall k, k = Activity \/ k = Timer \/ k = NexusOperation ->
            forall s e, terminal_kind s = Some e -> kind e <> k)
    by (intros k Hk s e; destruct s; simpl; intros ?; simplify_eq; naive_solver).
  specialize (Ha (Hk _ (or_introl eq_refl)) ltac:(done) _ _ _ Hr).
  specialize (Ht (Hk _ (or_intror (or_introl eq_refl))) ltac:(done) _ _ _ Hr).
  specialize (Hn (Hk _ (or_intror (or_intror eq_refl))) ltac:(done) _ _ _ Hr).
  rewrite Ha, Ht, Hn. split_and!; try done.
  - apply NoDup_fmap; [apply to_string_inj|apply NoDup_seqZ].
  - apply NoDup_fmap; [|apply NoDup_seqZ]. intros a b Hab. by simplify_eq.
Qed.
End CommandProperties.

(** ** Closed instances *)

Lemma emitted_commands_are_produced_witness :
  let r := after_run ref_env (ref_runner false [started] one_activity) in
  length (commands_ r) = 1%nat /\ covers (produced_commands_ r) (commands_ r).
Proof.
  split; [vm_compute; reflexivity|].
  refine (proj1 (emitted_commands_are_produced ref_env
                   (ref_runner false [started] one_activity)) _ (inr tt) _).
  vm_compute. reflexivity.
Defined.

Lemma operations_numbered_by_call_order_witness :
  let r := ref_runner false [started] one_activity in
  let r' := after_run ref_env r in
  NoDup (ids_of Activity (produced_commands_ r')) /\
  ids_of Activity (produced_commands_ r') = ["0"].
Proof.
  intros r r'.
  assert (Hr : Run ref_env r = Val (r', inr tt)) by (vm_compute; reflexivity).
  pose proof (operations_numbered_by_call_order ref_env r r' (inr tt) Hr) as (Ha & _ & _ & Hn & _).
  split; [exact Hn|]. rewrite Ha. vm_compute. reflexivity.
Defined.
