(* ===== verification/ReplaySpec.v ===== *)
(** * The server's side of a replay

    What a history says about the operations a body started: which are recorded,
    how each recorded one ended, and how the history grows from one workflow task to
    the next.  [delivered] is the server's contract: a task's history is what was
    there, the events of the commands the worker answered with, and resolutions of
    operations that history already holds. *)

From S2P Require Import Prelude Common Effects Determinism History Workflow Interceptors Runner RunnerFacts.
From S2P Require Import Commands.
Import CommandEvent.

(** ** The four kinds of operation that return a future *)

Inductive sort := Act | Tim | Chi | Nex.

#[export] Instance sort_eq_dec : EqDecision sort.
Proof. solve_decision. Defined.

Definition op_of (k : sort) : Op :=
  match k with
  | Act => OpActivity | Tim => OpTimer | Chi => OpChildWorkflow | Nex => OpNexusOperation
  end.

#[export] Instance op_of_inj : Inj (=) (=) op_of.
Proof. by intros [] []. Qed.

Definition kind_of (k : sort) : Kind :=
  match k with
  | Act => Activity | Tim => Timer | Chi => ChildWorkflow | Nex => NexusOperation
  end.

(** Whether history holds the start of the operation. *)
Definition recorded (ps : Prescan) (k : sort) (id : string) : bool :=
  match k with
  | Act => from_option act_scheduled false (ps_activities ps !! id)
  | Tim => from_option tm_started false (ps_timers ps !! id)
  | Chi => from_option ch_initiated false (ps_children ps !! id)
  | Nex => from_option nx_scheduled false (ps_nexus_ops ps !! id)
  end.

(** Whether history holds its end. *)
Definition resolved (ps : Prescan) (k : sort) (id : string) : bool :=
  match k with
  | Act => from_option act_resolved false (ps_activities ps !! id)
  | Tim => from_option tm_fired false (ps_timers ps !! id)
  | Chi => from_option ch_resolved false (ps_children ps !! id)
  | Nex => from_option nx_resolved false (ps_nexus_ops ps !! id)
  end.

(** The state of the operation's future once history up to here is applied. *)
Definition recorded_future (ps : Prescan) (k : sort) (id : string) : FutureState :=
  match k with
  | Act =>
    let o := default no_activity (ps_activities ps !! id) in
    outcome_future OpActivity id (act_resolved o) (act_failed o) (act_result o)
      (act_failure_type o) (act_failure_message o)
  | Tim =>
    let o := default no_timer (ps_timers ps !! id) in
    new_future <| f_op := OpTimer |> <| f_op_id := id |> <| f_ready := tm_fired o |>
  | Chi =>
    let o := default no_child (ps_children ps !! id) in
    outcome_future OpChildWorkflow id (ch_resolved o) (ch_failed o) (ch_result o)
      (ch_failure_type o) (ch_failure_message o)
  | Nex =>
    let o := default no_nexus_op (ps_nexus_ops ps !! id) in
    outcome_future OpNexusOperation id (nx_resolved o) (nx_failed o) (nx_result o)
      (nx_failure_type o) (nx_failure_message o)
  end.

Definition pending_future (k : sort) (id : string) : FutureState :=
  new_future <| f_op := op_of k |> <| f_op_id := id |>.

(** ** The server's contract *)

(** The event the server records for a command. *)
Definition echo (c : Command) : EventBody :=
  match c with
  | ScheduleActivityTask id type _ _ _ _ _ _ _ _ => ActivityTaskScheduled id type
  | StartTimerCommand id _ => TimerStarted id
  | CancelTimerCommand id => TimerCanceled id
  | RequestCancelActivityTask sched => ActivityTaskCancelRequested sched
  | StartChildWorkflowExecution _ id type _ _ _ => StartChildWorkflowExecutionInitiated id type
  | ScheduleNexusOperationCommand _ _ _ _ _ => NexusOperationScheduled
  | RequestCancelExternalWorkflowExecution _ id _ =>
    RequestCancelExternalWorkflowExecutionInitiated id
  | SignalExternalWorkflowExecution _ id _ _ => SignalExternalWorkflowExecutionInitiated id
  | UpsertWorkflowSearchAttributes _ => UpsertWorkflowSearchAttributesEvent
  | RecordMarker name details => MarkerRecorded name details
  | CompleteWorkflowExecution result => WorkflowExecutionCompleted (default (Proto.mkPayloads []) result)
  | FailWorkflowExecution failure => WorkflowExecutionFailed failure
  | ContinueAsNewWorkflowExecution _ _ => WorkflowExecutionContinuedAsNew ""
  end.

(** The commands of operations that are only started: no cancellation, no ending. *)
Definition starting (c : Command) : bool :=
  match c with
  | ScheduleActivityTask _ _ _ _ _ _ _ _ _ _ | StartTimerCommand _ _
  | StartChildWorkflowExecution _ _ _ _ _ _ | ScheduleNexusOperationCommand _ _ _ _ _
  | SignalExternalWorkflowExecution _ _ _ _ | UpsertWorkflowSearchAttributes _
  | RecordMarker _ _ => true
  | _ => false
  end.

(** Events that neither record a command nor resolve an operation. *)
Definition quiet_event (b : EventBody) : bool :=
  match b with
  | WorkflowExecutionSignaled _ _ | WorkflowExecutionCancelRequested | OtherEvent _ => true
  | _ => false
  end.

(** The ended operation and the state its future is left in. *)
Abbreviation ending := (sort * string * FutureState)%type.

Definition end_activity (ps : Prescan) (sched : Z) (failed : bool) (result : Payloads)
    (type message : string) : option ending :=
  (fun id => (Act, id, outcome_future OpActivity id true failed result type message)) <$>
  ps_sched_event_to_activity ps !! sched.

Definition end_nexus (ps : Prescan) (sched : Z) (failed : bool) (result : Payloads)
    (type message : string) : option ending :=
  (fun id => (Nex, id, outcome_future OpNexusOperation id true failed result type message)) <$>
  ps_sched_event_to_nexus ps !! sched.

Definition end_child (id : string) (failed : bool) (result : Payloads) (type message : string) :
    option ending :=
  Some (Chi, id, outcome_future OpChildWorkflow id true failed result type message).

(** The operation an event ends. *)
Definition resolution (ps : Prescan) (b : EventBody) : option ending :=
  match b with
  | ActivityTaskCompleted sched r => end_activity ps sched false (FromProtoPayloads r) "" ""
  | ActivityTaskFailed sched f => end_activity ps sched true [] (Proto.app_type f) (Proto.message f)
  | ActivityTaskTimedOut sched => end_activity ps sched true [] "TimeoutError" "activity timed out"
  | ActivityTaskCanceled sched => end_activity ps sched true [] "CanceledError" "activity cancelled"
  | TimerFired id => Some (Tim, id, (pending_future Tim id) <| f_ready := true |>)
  | ChildWorkflowExecutionCompleted id r => end_child id false (FromProtoPayloads r) "" ""
  | ChildWorkflowExecutionFailed id f => end_child id true [] (Proto.app_type f) (Proto.message f)
  | ChildWorkflowExecutionCanceled id =>
    end_child id true [] "CanceledError" "child workflow cancelled"
  | NexusOperationCompleted sched r => end_nexus ps sched false [FromProtoPayload r] "" ""
  | NexusOperationFailed sched f => end_nexus ps sched true [] (Proto.app_type f) (Proto.message f)
  | NexusOperationTimedOut sched =>
    end_nexus ps sched true [] "TimeoutError" "nexus operation timed out"
  | NexusOperationCanceled sched =>
    end_nexus ps sched true [] "CanceledError" "nexus operation cancelled"
  | _ => None
  end.

(** An operation ends once, after it was recorded. *)
Definition admissible (ps : Prescan) (b : EventBody) : Prop :=
  quiet_event b = true \/
  exists k id s, resolution ps b = Some (k, id, s) /\
                 recorded ps k id = true /\ resolved ps k id = false.

(** One event of a history without updates. *)
Definition scan1 (ps : Prescan) (ev : HistoryEvent) : Prescan :=
  scan_event ev (ps <| ps_last_event_id := event_id ev |>).

Fixpoint all_admissible (ps : Prescan) (h : History) : Prop :=
  match h with
  | [] => True
  | ev :: h => admissible ps (event_body ev) /\ all_admissible (scan1 ps ev) h
  end.

(** Event ids increase from [last] on. *)
Fixpoint ids_after (last : Z) (h : History) : Prop :=
  match h with
  | [] => True
  | ev :: h => last < event_id ev /\ ids_after (event_id ev) h
  end.

(** The history [fresh] a task brings after the worker answered with [commands] to
    the history scanned to [ps]: bookkeeping events, the commands' events, and
    whatever happened since. *)
Definition delivered (ps : Prescan) (commands : list Command) (fresh : History) : Prop :=
  ids_after (ps_last_event_id ps) fresh /\
  exists before echoes after, fresh = before ++ echoes ++ after /\
    Forall (fun ev => quiet_event (event_body ev) = true) before /\
    event_body <$> echoes = echo <$> commands /\
    all_admissible (fold_left scan1 (before ++ echoes) ps) after.

(** The history of the first task. *)
Definition opening (h : History) : Prop :=
  exists ev0 rest type input header, h = ev0 :: rest /\
    event_body ev0 = WorkflowExecutionStarted type input header /\
    Forall (fun ev => quiet_event (event_body ev) = true) rest.

(** ** Scanning one more event *)

#[local] Hint Unfold scan_event push_command push_step scan_started scan_activity_scheduled
  on_scheduled_activity scan_activity_cancel_requested scan_activity_completed
  scan_activity_failed scan_activity_timed_out scan_activity_canceled scan_timer_started
  scan_timer_fired scan_timer_canceled scan_child_initiated scan_child_completed
  scan_child_failed scan_child_canceled scan_request_cancel_external scan_signal_external
  scan_upsert scan_nexus_scheduled on_scheduled_nexus scan_nexus_completed scan_nexus_failed
  scan_nexus_timed_out scan_nexus_canceled scan_signaled scan_update_accepted scan_marker
  scan_side_effect_marker scan_version_marker scan_mutable_side_effect_marker
  scan_local_activity_marker : scan.

Ltac scan_event_cases b := destruct b; autounfold with scan; simpl; repeat (case_match; simpl).

Lemma from_option_at_key_set {V} (P : V -> bool) (d : V) k f (m : gmap string V) id :
  (forall v, P (f v) = true) ->
  from_option P false (at_key d k f m !! id) =
  from_option P false (m !! id) || bool_decide (id = k).
Proof.
  intros Hf. unfold at_key. destruct (decide (id = k)) as [->|Hne].
  - rewrite lookup_insert_eq, bool_decide_eq_true_2, orb_true_r by done. apply Hf.
  - by rewrite lookup_insert_ne, bool_decide_eq_false_2, orb_false_r by done.
Qed.

(** The command an event records, if it is one of an operation of sort [k]. *)
Definition records (ps : Prescan) (b : EventBody) (k : sort) (id : string) : bool :=
  bool_decide (id ∈ ids_of (kind_of k) (option_list (event_command (ps_nexus_ops_scheduled ps) b))).

Lemma records_one ps b k id c :
  event_command (ps_nexus_ops_scheduled ps) b = Some c ->
  records ps b k id = bool_decide (kind c = kind_of k) && bool_decide (id = CommandEvent.id c).
Proof.
  intros Hc. unfold records. rewrite Hc. unfold ids_of. simpl.
  destruct (decide (kind c = kind_of k)) as [Hk|Hk].
  - rewrite (bool_decide_eq_true_2 (kind c = _)) by done. simpl.
    apply bool_decide_ext. apply list_elem_of_singleton.
  - rewrite (bool_decide_eq_false_2 (kind c = _)) by done. done.
Qed.

Lemma records_none ps b k id :
  event_command (ps_nexus_ops_scheduled ps) b = None -> records ps b k id = false.
Proof.
  intros Hc. unfold records. by rewrite Hc.
Qed.

Lemma scan_event_recorded ev ps k id :
  recorded (scan_event ev ps) k id = recorded ps k id || records ps (event_body ev) k id.
Proof.
  destruct ev as [n b]. simpl.
  destruct (event_command (ps_nexus_ops_scheduled ps) b) as [c|] eqn:Hc.
  - rewrite (records_one _ _ _ _ _ Hc).
    destruct b; simplify_eq/=; destruct k; simpl;
      rewrite ?orb_false_r; autounfold with scan; simpl; repeat (case_match; simpl);
      try done; by first [apply from_option_at_key_set | apply from_option_at_key].
  - rewrite records_none, orb_false_r by done.
    destruct b; simplify_eq/=; destruct k; autounfold with scan; simpl; repeat (case_match; simpl);
      try done; by apply from_option_at_key.
Qed.

Lemma resolved_ready ps k id : resolved ps k id = f_ready (recorded_future ps k id).
Proof.
  destruct k; simpl;
    [destruct (ps_activities ps !! id) as [o|]|destruct (ps_timers ps !! id)|
     destruct (ps_children ps !! id) as [o|]|destruct (ps_nexus_ops ps !! id) as [o|]]; simpl;
    try done; unfold outcome_future; by case_match.
Qed.

(** What an operation's outcome is until it is resolved. *)
Record tidy (ps : Prescan) : Prop := {
  ti_activity : forall id o, ps_activities ps !! id = Some o -> act_resolved o = false ->
    act_failed o = false /\ act_result o = [] /\ act_failure_type o = "" /\ act_failure_message o = "";
  ti_child : forall id o, ps_children ps !! id = Some o -> ch_resolved o = false ->
    ch_failed o = false /\ ch_result o = [] /\ ch_failure_type o = "" /\ ch_failure_message o = "";
  ti_nexus : forall id o, ps_nexus_ops ps !! id = Some o -> nx_resolved o = false ->
    nx_failed o = false /\ nx_result o = [] /\ nx_failure_type o = "" /\ nx_failure_message o = ""
}.

Lemma tidy_empty : tidy empty_prescan.
Proof. constructor; simpl; intros ? ? Hm; by rewrite lookup_empty in Hm. Qed.

Lemma at_key_Some {V} (d : V) k f (m : gmap string V) id v :
  at_key d k f m !! id = Some v ->
  (id <> k /\ m !! id = Some v) \/ (id = k /\ v = f (default d (m !! k))).
Proof.
  unfold at_key. destruct (decide (id = k)) as [->|Hne].
  - rewrite lookup_insert_eq. intros [= <-]. by right.
  - rewrite lookup_insert_ne by done. by left.
Qed.

Lemma scan_event_tidy ev ps : tidy ps -> tidy (scan_event ev ps).
Proof.
  intros [Ha Hc Hn]. destruct ev as [n b].
  scan_event_cases b; try done; constructor; simpl; try done; intros i o Hm Hr;
    apply at_key_Some in Hm as [[_ Hm]|[-> ->]]; eauto; simpl in *; try done;
    lazymatch goal with
    | H : _ = false |- context [ps_activities ps !! ?x] =>
      destruct (ps_activities ps !! x) eqn:?; simpl in *; [by eapply Ha|done]
    | H : _ = false |- context [ps_children ps !! ?x] =>
      destruct (ps_children ps !! x) eqn:?; simpl in *; [by eapply Hc|done]
    | H : _ = false |- context [ps_nexus_ops ps !! ?x] =>
      destruct (ps_nexus_ops ps !! x) eqn:?; simpl in *; [by eapply Hn|done]
    end.
Qed.

(** Reading a key that was not touched, or the one that was. *)
Lemma at_key_eq {V} (d : V) k f (m : gmap string V) :
  at_key d k f m !! k = Some (f (default d (m !! k))).
Proof. apply lookup_insert_eq. Qed.

Lemma at_key_ne {V} (d : V) k f (m : gmap string V) id :
  id <> k -> at_key d k f m !! id = m !! id.
Proof. intros Hne. unfold at_key. by rewrite lookup_insert_ne. Qed.

Ltac at_key_cases id :=
  lazymatch goal with
  | |- context [at_key _ ?k _ _ !! id] =>
    destruct (decide (id = k)) as [?|?];
    [subst; rewrite ?at_key_eq|rewrite ?at_key_ne by done]
  end.

Lemma scan_event_unresolving ev ps k id :
  resolution ps (event_body ev) = None ->
  recorded_future (scan_event ev ps) k id = recorded_future ps k id.
Proof.
  destruct ev as [n b]. simpl. intros Hr.
  destruct b; simplify_eq/=; autounfold with scan; unfold end_activity, end_nexus, end_child in *;
    simpl in *; repeat (case_match; simplify_eq/=); try done; destruct k; simpl; try done;
    at_key_cases id; try done;
    lazymatch goal with |- context [default ?d (?m !! ?i)] => by destruct (m !! i) end.
Qed.

Lemma scan_event_resolving ev ps k0 id0 s k id :
  tidy ps -> resolution ps (event_body ev) = Some (k0, id0, s) -> resolved ps k0 id0 = false ->
  recorded_future (scan_event ev ps) k id =
  if decide (k = k0 /\ id = id0) then s else recorded_future ps k id.
Proof.
  intros [Ha Hc Hn]. destruct ev as [n b]. simpl. intros Hr Hu.
  destruct b; simplify_eq/=; unfold end_activity, end_nexus, end_child in *;
    simplify_option_eq; autounfold with scan; simpl; simplify_option_eq;
    destruct_and?; subst; simpl;
    try solve [destruct k; simpl; try done; at_key_cases id; tauto];
    rewrite at_key_eq; simpl; try done;
    lazymatch goal with
    | |- context [default _ (?m !! ?x)] =>
      destruct (m !! x) as [o|] eqn:Hm; simpl in *; [|done]
    end;
    first [destruct (Ha _ _ Hm Hu) as (Hf & Hp & Ht & Hs)
          |destruct (Hc _ _ Hm Hu) as (Hf & Hp & Ht & Hs)
          |destruct (Hn _ _ Hm Hu) as (Hf & Hp & Ht & Hs)|idtac];
    unfold outcome_future, pending_future; simpl; congruence.
Qed.

(** ** Well-scanned histories *)

(** The counts and flags of a prescan agree with the commands it lists, and only
    recorded operations have ended. *)
Record well_scanned (ps : Prescan) : Prop := {
  ws_tidy : tidy ps;
  ws_recorded : forall k id,
    recorded ps k id = bool_decide (id ∈ ids_of (kind_of k) (ps_commands ps));
  ws_resolved : forall k id, resolved ps k id = true -> recorded ps k id = true;
  ws_signals : ps_ext_signals_initiated ps =
    Z.of_nat (length (ids_of CommandEvent.SignalExternalWorkflow (ps_commands ps)));
  ws_upserts : ps_upserts_initiated ps =
    Z.of_nat (length (ids_of CommandEvent.UpsertSearchAttributes (ps_commands ps)));
  ws_nexus : ps_nexus_ops_scheduled ps =
    Z.of_nat (length (ids_of NexusOperation (ps_commands ps)))
}.

Lemma well_scanned_empty : well_scanned empty_prescan.
Proof.
  constructor; try done; by intros [] id; simpl; rewrite lookup_empty.
Qed.

(** [later] is the prescan of a longer history: what was resolved stays resolved the
    same way, and signals are only added at the end. *)
Record advances (ps later : Prescan) : Prop := {
  ad_future : forall k id, resolved ps k id = true ->
    recorded_future later k id = recorded_future ps k id;
  ad_signals : forall name,
    default [] (ps_signals ps !! name) `prefix_of` default [] (ps_signals later !! name)
}.

#[export] Instance advances_preorder : PreOrder advances.
Proof.
  split; [intros a; split; [done|intros; reflexivity]|].
  intros a b c [Fab Sab] [Fbc Sbc]. split.
  - intros k id Hr. rewrite Fbc; [by apply Fab|].
    by rewrite resolved_ready, Fab, <- resolved_ready.
  - intros name. etrans; [apply Sab|apply Sbc].
Qed.

(** The value a side-effect marker records. *)
Definition side_effect_of (b : EventBody) : option Payload :=
  match b with
  | MarkerRecorded name details =>
    if String.eqb name "SideEffect"
    then d ← details !! "data"; head (FromProtoPayloads d) else None
  | _ => None
  end.

Lemma scan_event_side_effects ev ps :
  ps_side_effects (scan_event ev ps) =
  ps_side_effects ps ++ option_list (side_effect_of (event_body ev)).
Proof.
  destruct ev as [n b]. simpl.
  destruct b; autounfold with scan; simpl; repeat (case_match; simplify_eq/=);
    by rewrite ?app_nil_r.
Qed.

Lemma scan_event_counts ev ps :
  well_scanned ps ->
  let ps' := scan_event ev ps in
  ps_ext_signals_initiated ps' =
    Z.of_nat (length (ids_of CommandEvent.SignalExternalWorkflow (ps_commands ps'))) /\
  ps_upserts_initiated ps' =
    Z.of_nat (length (ids_of CommandEvent.UpsertSearchAttributes (ps_commands ps'))) /\
  ps_nexus_ops_scheduled ps' =
    Z.of_nat (length (ids_of NexusOperation (ps_commands ps'))).
Proof.
  intros [_ _ _ Hs Hu Hn]. destruct ev as [n b].
  destruct b; autounfold with scan; simpl; repeat (case_match; simpl);
    rewrite ?ids_of_app, ?length_app; simpl; lia.
Qed.

(** An event a server may deliver after the first one. *)
Definition proper (ps : Prescan) (b : EventBody) : Prop :=
  (exists c, b = echo c /\ starting c = true) \/ admissible ps b.

Lemma echo_resolution ps c : resolution ps (echo c) = None.
Proof. by destruct c. Qed.

Lemma proper_neutral ps b :
  proper ps b ->
  is_update_accepted b = false /\
  match b with WorkflowExecutionStarted _ _ _ => False | _ => True end.
Proof.
  intros [(c & -> & _)|[Hq|(k & id & s & Hs & _)]]; [by destruct c|by destruct b|].
  by destruct b.
Qed.

Lemma proper_resolution ps b k id s :
  proper ps b -> resolution ps b = Some (k, id, s) ->
  recorded ps k id = true /\ resolved ps k id = false.
Proof.
  intros [(c & -> & _)|[Hq|(k' & id' & s' & Hs & Hrec & Hres)]] Hr.
  - by rewrite echo_resolution in Hr.
  - by destruct b.
  - rewrite Hr in Hs. by simplify_eq.
Qed.

Lemma resolution_ready ps b k id s :
  resolution ps b = Some (k, id, s) -> f_ready s = true /\ f_op s = op_of k /\ f_op_id s = id.
Proof.
  destruct b; simpl; unfold end_activity, end_nexus, end_child; intros Hr;
    simplify_option_eq; split_and!; done.
Qed.

Lemma scan1_commands ev ps :
  ps_commands (scan1 ps ev) =
  ps_commands ps ++ option_list (event_command (ps_nexus_ops_scheduled ps) (event_body ev)).
Proof. unfold scan1. destruct ev. by rewrite scan_event_commands. Qed.

Section Step.
Context (ev : HistoryEvent) (ps : Prescan).
Hypothesis (Hws : well_scanned ps) (Hev : proper ps (event_body ev)).

Let last := (ps <| ps_last_event_id := event_id ev |>).

Lemma at_last_future k id : recorded_future last k id = recorded_future ps k id.
Proof. by destruct k. Qed.

Lemma at_last_resolved k id : resolved last k id = resolved ps k id.
Proof. by destruct k. Qed.

Lemma at_last_resolution b : resolution last b = resolution ps b.
Proof. by destruct b. Qed.

Lemma Hws' : well_scanned last.
Proof.
  destruct Hws as [[Ha Hc Hx] Hrec Hres Hs Hu Hn].
  constructor; [by constructor|..]; try done; intros []; done || apply Hrec || apply Hres.
Qed.

(** How one event changes the future of an operation. *)
Lemma scan1_future k id :
  recorded_future (scan1 ps ev) k id =
  match resolution ps (event_body ev) with
  | Some (k0, id0, s) => if decide (k = k0 /\ id = id0) then s else recorded_future ps k id
  | None => recorded_future ps k id
  end.
Proof.
  destruct (resolution ps (event_body ev)) as [[[k0 id0] s]|] eqn:Hr.
  - destruct (proper_resolution _ _ _ _ _ Hev Hr) as [_ Hu]. unfold scan1.
    rewrite (scan_event_resolving _ _ k0 id0 s), at_last_future; [done|apply Hws'|..].
    + by rewrite at_last_resolution.
    + by rewrite at_last_resolved.
  - unfold scan1. rewrite scan_event_unresolving, at_last_future; [done|].
    by rewrite at_last_resolution.
Qed.

Lemma scan1_advances : advances ps (scan1 ps ev).
Proof.
  split.
  - intros k id Hk. rewrite scan1_future.
    destruct (resolution ps (event_body ev)) as [[[k0 id0] s]|] eqn:Hr; [|done].
    case_decide as Hd; [|done]. destruct Hd as [-> ->].
    destruct (proper_resolution _ _ _ _ _ Hev Hr). congruence.
  - intros name. unfold scan1. destruct ev as [n b].
    destruct b; autounfold with scan; simpl; repeat (case_match; simpl); try reflexivity.
    destruct (decide (name = signal_name)) as [->|Hne].
    + rewrite at_key_eq. simpl. by eexists.
    + by rewrite at_key_ne.
Qed.

Lemma scan1_well_scanned : well_scanned (scan1 ps ev).
Proof.
  destruct (scan_event_counts ev _ Hws') as (Hs & Hu & Hn). constructor; [|..]; try done.
  - apply scan_event_tidy. apply Hws'.
  - intros k id. unfold scan1. rewrite scan_event_recorded, (ws_recorded _ Hws').
    destruct ev as [n b]. rewrite scan_event_commands. unfold records. simpl. rewrite ids_of_app.
    rewrite <- bool_decide_or. apply bool_decide_ext. by rewrite elem_of_app.
  - intros k id Hk. unfold scan1. rewrite scan_event_recorded. apply orb_true_iff. left.
    rewrite resolved_ready, scan1_future in Hk.
    destruct (resolution ps (event_body ev)) as [[[k0 id0] s]|] eqn:Hr.
    + case_decide as Hd.
      * destruct Hd as [-> ->]. by destruct (proper_resolution _ _ _ _ _ Hev Hr).
      * apply (ws_resolved _ Hws). by rewrite resolved_ready.
    + apply (ws_resolved _ Hws). by rewrite resolved_ready.
Qed.
End Step.

(** ** Histories that grow properly *)

Fixpoint all_proper (ps : Prescan) (h : History) : Prop :=
  match h with
  | [] => True
  | ev :: h => proper ps (event_body ev) /\ all_proper (scan1 ps ev) h
  end.

Lemma all_proper_app ps h1 h2 :
  all_proper ps (h1 ++ h2) <-> all_proper ps h1 /\ all_proper (fold_left scan1 h1 ps) h2.
Proof.
  revert ps. induction h1 as [|ev h1 IH]; intros ps; simpl; [tauto|]. rewrite IH. tauto.
Qed.

Lemma all_proper_always ps h :
  Forall (fun ev => quiet_event (event_body ev) = true \/
                    exists c, event_body ev = echo c /\ starting c = true) h ->
  all_proper ps h.
Proof.
  intros Hall. revert ps. induction Hall as [|ev h Hq Hall IH]; intros ps; simpl; [done|].
  split; [|apply IH]. destruct Hq as [Hq|Hc]; [right; by left|by left].
Qed.

Lemma all_admissible_proper ps h : all_admissible ps h -> all_proper ps h.
Proof.
  revert ps. induction h as [|ev h IH]; intros ps; simpl; [done|].
  intros [Ha Hh]. split; [by right|by apply IH].
Qed.

Lemma delivered_proper ps commands fresh :
  Forall (fun c => starting c = true) commands -> delivered ps commands fresh ->
  all_proper ps fresh.
Proof.
  intros Hst [_ (before & echoes & after & -> & Hb & He & Ha)].
  rewrite app_assoc, all_proper_app. split; [|by apply all_admissible_proper].
  apply all_proper_always, Forall_app. split.
  - eapply Forall_impl; [exact Hb|]. intros ev Hq. by left.
  - apply Forall_forall. intros ev Hin. right.
    assert (Hm : event_body ev ∈ echo <$> commands)
      by (rewrite <- He; by apply list_elem_of_fmap_2).
    apply list_elem_of_fmap in Hm as (c & Hc & Hin').
    exists c. split; [done|]. rewrite Forall_forall in Hst. by apply Hst.
Qed.

Lemma scan_all ps h :
  well_scanned ps -> all_proper ps h ->
  well_scanned (fold_left scan1 h ps) /\ advances ps (fold_left scan1 h ps).
Proof.
  revert ps. induction h as [|ev h IH]; intros ps Hws; simpl; [by split|]. intros [Hev Hh].
  destruct (IH (scan1 ps ev)) as [Hw Ha]; [by apply scan1_well_scanned|done|].
  split; [done|]. etrans; [by apply scan1_advances|done].
Qed.

Lemma scan_all_commands ps h :
  ps_commands (fold_left scan1 h ps) =
  ps_commands ps ++ history_commands (ps_nexus_ops_scheduled ps) h.
Proof.
  revert ps. induction h as [|ev h IH]; intros ps; simpl; [by rewrite app_nil_r|].
  rewrite IH, scan1_commands, <- app_assoc. destruct ev as [n b]. unfold scan1.
  by rewrite scan_event_nexus.
Qed.

Lemma scan_all_side_effects ps h :
  ps_side_effects (fold_left scan1 h ps) =
  ps_side_effects ps ++ omap (fun ev => side_effect_of (event_body ev)) h.
Proof.
  revert ps. induction h as [|ev h IH]; intros ps; simpl; [by rewrite app_nil_r|].
  rewrite IH. unfold scan1. rewrite scan_event_side_effects, <- app_assoc. simpl.
  by destruct (side_effect_of (event_body ev)).
Qed.

Lemma scan_all_input ps h :
  all_proper ps h ->
  ps_input (fold_left scan1 h ps) = ps_input ps /\
  ps_headers (fold_left scan1 h ps) = ps_headers ps /\
  ps_post_update_timeline (fold_left scan1 h ps) = ps_post_update_timeline ps.
Proof.
  revert ps. induction h as [|[n b] h IH]; intros ps; simpl; [done|]. intros [Hev Hh].
  destruct (IH _ Hh) as (-> & -> & ->). destruct (proper_neutral _ _ Hev) as [Hu Hs].
  unfold scan1. rewrite scan_event_timeline, Hu, app_nil_r.
  split_and!; [..|done]; clear Hev Hh IH; simpl in *;
    destruct b; try done; autounfold with scan; simpl; by repeat (case_match; simpl).
Qed.

Lemma all_proper_no_update ps h : all_proper ps h -> no_update h.
Proof.
  revert ps. induction h as [|ev h IH]; intros ps; simpl; [constructor|]. intros [Hev Hh].
  constructor; [by destruct (proper_neutral _ _ Hev)|by eapply IH].
Qed.

Lemma ScanHistory_app h1 h2 :
  no_update (h1 ++ h2) -> ScanHistory (h1 ++ h2) = fold_left scan1 h2 (ScanHistory h1).
Proof.
  intros Hn. unfold ScanHistory. rewrite !scan_no_update; [|by apply Forall_app in Hn as [? _]|done].
  simpl. by rewrite fold_left_app.
Qed.

Lemma ScanHistory_scan1 h : no_update h -> ScanHistory h = fold_left scan1 h empty_prescan.
Proof. apply (ScanHistory_app [] h). Qed.

(** A history that opens a run and then grows properly. *)
Definition proper_history (h : History) : Prop :=
  exists ev0 rest type input header, h = ev0 :: rest /\
    event_body ev0 = WorkflowExecutionStarted type input header /\
    all_proper (scan1 empty_prescan ev0) rest.

Lemma proper_history_no_update h : proper_history h -> no_update h.
Proof.
  intros (ev0 & rest & type & input & header & -> & H0 & Hr). constructor; [by rewrite H0|].
  by eapply all_proper_no_update.
Qed.

Lemma proper_history_well_scanned h : proper_history h -> well_scanned (ScanHistory h).
Proof.
  intros Hp. pose proof (proper_history_no_update h Hp) as Hn.
  destruct Hp as (ev0 & rest & type & input & header & -> & H0 & Hr).
  rewrite ScanHistory_scan1 by done. simpl. apply scan_all; [|done]. destruct ev0 as [n b]. simpl in H0. subst b.
  destruct well_scanned_empty as [[] ? ? ? ? ?].
  constructor; [constructor|..]; try done; by intros [].
Qed.

Lemma proper_history_app h fresh :
  proper_history h -> all_proper (ScanHistory h) fresh ->
  proper_history (h ++ fresh) /\
  ScanHistory (h ++ fresh) = fold_left scan1 fresh (ScanHistory h).
Proof.
  intros Hp Hf. assert (Hn : no_update (h ++ fresh)).
  { apply Forall_app. split; [by apply proper_history_no_update|by eapply all_proper_no_update]. }
  split; [|by apply ScanHistory_app].
  pose proof (proper_history_no_update h Hp) as Hn1.
  destruct Hp as (ev0 & rest & type & input & header & -> & H0 & Hr).
  exists ev0, (rest ++ fresh), type, input, header. split_and!; [done..|].
  apply all_proper_app. split; [done|].
  by rewrite ScanHistory_scan1 in Hf.
Qed.
