(* ===== verification/Replay.v ===== *)
(** * A sticky continuation is a replay

    A run kept in the sticky cache is advanced by the events of each new task
    ([ApplyAndResume]); a run that is not is rebuilt by running its body from the
    start against the prescan of the whole history ([Run]).  For bodies whose calls
    do not depend on when history delivers something ([steady]), and a server that
    keeps its contract ([delivered]), the two reach the same state, answer with the
    same commands, and the replay passes the determinism check. *)

From S2P Require Import Prelude Common Effects Determinism History Workflow Interceptors Runner RunnerFacts.
From S2P Require Import Commands ReplaySpec Reference.
Import CommandEvent.

(** ** The tables of a runner, by sort of operation *)

Definition futures_of (k : sort) (r : WorkflowRunner) : gmap string loc :=
  match k with
  | Act => activity_futures_ r | Tim => timer_futures_ r
  | Chi => child_futures_ r | Nex => nexus_futures_ r
  end.

Definition seq_of (k : sort) (r : WorkflowRunner) : Z :=
  match k with
  | Act => activity_seq_ r | Tim => timer_seq_ r | Chi => child_seq_ r | Nex => nexus_seq_ r
  end.

Definition label_of (k : sort) (info : WorkflowInfo) (n : Z) : string :=
  match k with
  | Act | Nex => to_string n
  | Tim => "t" +:+ to_string n
  | Chi => wi_workflow_id info +:+ "_c" +:+ to_string n
  end.

#[export] Instance label_of_inj k info : Inj (=) (=) (label_of k info).
Proof.
  intros a b. by destruct k; simpl; intros Hl; simplify_eq.
Qed.

(** ** A runner between two tasks

    [tracks ps r]: the runner [r] has applied the history scanned to [ps].  Every
    future is in the state history gives it and is found in its table; the
    operations the runner will number next are not in its own prescan. *)
Record tracks (ps : Prescan) (r : WorkflowRunner) : Prop := {
  tr_signals : ps_signals (scan_ r) = ps_signals ps;
  tr_activity : ps_sched_event_to_activity (scan_ r) = ps_sched_event_to_activity ps;
  tr_nexus : ps_sched_event_to_nexus (scan_ r) = ps_sched_event_to_nexus ps;
  tr_nexus_count : ps_nexus_ops_scheduled (scan_ r) = ps_nexus_ops_scheduled ps;
  tr_last : ps_last_event_id (scan_ r) = ps_last_event_id ps;
  tr_heap : forall l s, heap_ r !! l = Some s ->
    exists k id, s = recorded_future ps k id /\ futures_of k r !! id = Some l;
  tr_futures : forall k id l, futures_of k r !! id = Some l ->
    heap_ r !! l = Some (recorded_future ps k id);
  tr_numbered : forall k id l, futures_of k r !! id = Some l ->
    exists n, n < seq_of k r /\ id = label_of k (info_ r) n;
  tr_cancel : cancel_futures_ r = [];
  tr_new : forall k n, seq_of k r <= n -> recorded (scan_ r) k (label_of k (info_ r) n) = false;
  tr_new_signals : ps_ext_signals_initiated (scan_ r) <= Z.of_nat (ext_signal_seq_ r);
  tr_new_upserts : ps_upserts_initiated (scan_ r) <= Z.of_nat (upsert_seq_ r);
  tr_new_side_effects : (length (ps_side_effects (scan_ r)) <= side_effect_seq_ r)%nat
}.

Lemma unresolved_pending ps k id :
  resolved ps k id = false -> recorded_future ps k id = pending_future k id.
Proof.
  destruct k; simpl;
    [destruct (ps_activities ps !! id) as [o|]|destruct (ps_timers ps !! id)|
     destruct (ps_children ps !! id) as [o|]|destruct (ps_nexus_ops ps !! id) as [o|]]; simpl;
    try done; by intros ->.
Qed.

Lemma recorded_future_ids ps k id :
  f_op (recorded_future ps k id) = op_of k /\ f_op_id (recorded_future ps k id) = id.
Proof. destruct k; simpl; unfold outcome_future; by try case_match. Qed.

Lemma alter_some {A} (f : A -> A) (l : nat) (x : A) (h : list A) :
  h !! l = Some x -> alter f l h = <[l := f x]> h.
Proof.
  revert l. induction h as [|y h IH]; intros [|l]; simpl; intros Hl; simplify_eq; [done|].
  f_equal. by apply IH.
Qed.

(** Evaluates the application of the event [b], which ends an operation. *)
Ltac apply_ending b Hr Ht :=
  unfold ApplyEventToState; simpl in *;
  destruct b; simpl in Hr; unfold end_activity, end_nexus, end_child in Hr; simplify_option_eq;
  unfold ResolveActivity, ResolveNexusOperation, apply_timer_fired, apply_child_completed,
    apply_child_failed;
  rewrite ?(tr_activity _ _ Ht), ?(tr_nexus _ _ Ht);
  repeat match goal with
         | H : ps_sched_event_to_activity ?ps !! _ = Some _ |- _ => rewrite H; clear H
         | H : ps_sched_event_to_nexus ?ps !! _ = Some _ |- _ => rewrite H; clear H
         end;
  unfold on_registered; simpl in *.

(** An event resolves the future of the operation it ends, and no other. *)
Lemma apply_event_heap ev ps r :
  well_scanned ps -> proper ps (event_body ev) -> tracks ps r ->
  heap_ (ApplyEventToState ev r) =
  match resolution ps (event_body ev) with
  | Some (k, id, s) =>
    match futures_of k r !! id with Some l => <[l := s]> (heap_ r) | None => heap_ r end
  | None => heap_ r
  end.
Proof.
  intros Hws Hp Ht. destruct (resolution ps (event_body ev)) as [[[k id] s]|] eqn:Hr.
  - destruct (proper_resolution _ _ _ _ _ Hp Hr) as [_ Hu].
    destruct (futures_of k r !! id) as [l|] eqn:Hl.
    + pose proof (tr_futures _ _ Ht _ _ _ Hl) as Hh. rewrite unresolved_pending in Hh by done.
      destruct ev as [n b]. apply_ending b Hr Ht; rewrite Hl; simpl;
        by rewrite (alter_some _ _ _ _ Hh).
    + destruct ev as [n b]. apply_ending b Hr Ht; by rewrite Hl.
  - destruct ev as [n b]. destruct Hp as [(c & Hc & Hst)|[Hq|(k & id & s & Hs & _)]];
      [| |congruence]; simpl in *.
    + subst b. by destruct c.
    + destruct b; try done.
      unfold ApplyEventToState, apply_cancel_requested. simpl. by rewrite (tr_cancel _ _ Ht).
Qed.

#[local] Hint Unfold scan_event push_command push_step scan_started scan_activity_scheduled
  on_scheduled_activity scan_activity_cancel_requested scan_activity_completed
  scan_activity_failed scan_activity_timed_out scan_activity_canceled scan_timer_started
  scan_timer_fired scan_timer_canceled scan_child_initiated scan_child_completed
  scan_child_failed scan_child_canceled scan_request_cancel_external scan_signal_external
  scan_upsert scan_nexus_scheduled on_scheduled_nexus scan_nexus_completed scan_nexus_failed
  scan_nexus_timed_out scan_nexus_canceled scan_signaled scan_update_accepted scan_marker
  scan_side_effect_marker scan_version_marker scan_mutable_side_effect_marker
  scan_local_activity_marker ResolveActivity ResolveNexusOperation on_registered
  apply_activity_scheduled apply_nexus_scheduled apply_activity_cancel_requested
  apply_timer_fired apply_timer_canceled apply_child_completed apply_child_failed
  apply_signaled apply_cancel_requested : apply.

Lemma fold_on_future_scan f ls r :
  scan_ (fold_left (fun r l => on_future l f r) ls r) = scan_ r.
Proof. revert r. induction ls as [|l ls IH]; intros r; simpl; [done|]. by rewrite IH. Qed.

(** How an event changes the parts of the prescan a live runner keeps up to date. *)
Definition next_signals (b : EventBody) (m : gmap string (list Payloads)) :=
  match b with
  | WorkflowExecutionSignaled name input => at_key [] name (fun l => l ++ [FromProtoPayloads input]) m
  | _ => m
  end.

Definition next_activity (ev : HistoryEvent) (m : gmap Z string) :=
  match event_body ev with ActivityTaskScheduled id _ => <[event_id ev := id]> m | _ => m end.

Definition next_nexus (ev : HistoryEvent) (n : Z) (m : gmap Z string) :=
  match event_body ev with NexusOperationScheduled => <[event_id ev := to_string n]> m | _ => m end.

Definition next_nexus_count (b : EventBody) (n : Z) :=
  match b with NexusOperationScheduled => Z.succ n | _ => n end.

Lemma scan_event_next ev ps :
  let ps' := scan_event ev ps in
  ps_signals ps' = next_signals (event_body ev) (ps_signals ps) /\
  ps_sched_event_to_activity ps' = next_activity ev (ps_sched_event_to_activity ps) /\
  ps_sched_event_to_nexus ps' =
    next_nexus ev (ps_nexus_ops_scheduled ps) (ps_sched_event_to_nexus ps) /\
  ps_nexus_ops_scheduled ps' = next_nexus_count (event_body ev) (ps_nexus_ops_scheduled ps).
Proof.
  destruct ev as [n b]. destruct b; autounfold with apply; simpl; by repeat (case_match; simpl).
Qed.

Lemma apply_event_next ev r :
  let ps := scan_ r in
  let ps' := scan_ (ApplyEventToState ev r) in
  ps_signals ps' = next_signals (event_body ev) (ps_signals ps) /\
  ps_sched_event_to_activity ps' = next_activity ev (ps_sched_event_to_activity ps) /\
  ps_sched_event_to_nexus ps' =
    next_nexus ev (ps_nexus_ops_scheduled ps) (ps_sched_event_to_nexus ps) /\
  ps_nexus_ops_scheduled ps' = next_nexus_count (event_body ev) (ps_nexus_ops_scheduled ps).
Proof.
  destruct ev as [n b]. unfold ApplyEventToState; simpl.
  destruct b; autounfold with apply; simpl; repeat (case_match; simpl);
    by rewrite ?fold_on_future_scan.
Qed.

(** The rest stays as it was, except that a Nexus operation is noted as scheduled. *)
Lemma apply_event_rest ev r :
  let ps := scan_ r in
  let ps' := scan_ (ApplyEventToState ev r) in
  ps_ext_signals_initiated ps' = ps_ext_signals_initiated ps /\
  ps_upserts_initiated ps' = ps_upserts_initiated ps /\
  ps_side_effects ps' = ps_side_effects ps /\
  forall k id, recorded ps' k id = true ->
    recorded ps k id = true \/
    (k = Nex /\ event_body ev = NexusOperationScheduled /\
     id = to_string (ps_nexus_ops_scheduled ps)).
Proof.
  destruct ev as [n b]. unfold ApplyEventToState; simpl.
  destruct b; autounfold with apply; simpl; repeat (case_match; simpl);
    rewrite ?fold_on_future_scan; simpl; split_and!; try done; intros k id; destruct k; simpl;
    try tauto;
    [rewrite from_option_at_key by done; tauto
    |rewrite from_option_at_key_set by done; intros [?|?%bool_decide_eq_true]%orb_true_iff; tauto].
Qed.

(** Futures stay in the state history gives them when one operation ends. *)
Section Heap.
Context (ev : HistoryEvent) (ps : Prescan) (r : WorkflowRunner).
Hypothesis (Hws : well_scanned ps) (Hp : proper ps (event_body ev)) (Ht : tracks ps r).

Lemma same_location k id k0 id0 l :
  futures_of k r !! id = Some l -> futures_of k0 r !! id0 = Some l -> k = k0 /\ id = id0.
Proof.
  intros H1%(tr_futures _ _ Ht) H2%(tr_futures _ _ Ht). rewrite H1 in H2.
  injection H2 as Heq. destruct (recorded_future_ids ps k id) as [Ho Hi].
  destruct (recorded_future_ids ps k0 id0) as [Ho' Hi']. rewrite Heq in *.
  split; [apply (inj op_of)|]; congruence.
Qed.

Lemma apply_event_futures k id l :
  futures_of k r !! id = Some l ->
  heap_ (ApplyEventToState ev r) !! l = Some (recorded_future (scan1 ps ev) k id).
Proof.
  intros Hl. rewrite (apply_event_heap _ _ _ Hws Hp Ht), (scan1_future _ _ Hws Hp).
  pose proof (tr_futures _ _ Ht _ _ _ Hl) as Hh.
  destruct (resolution ps (event_body ev)) as [[[k0 id0] s0]|]; [|done].
  case_decide as Hd.
  - destruct Hd as [-> ->]. rewrite Hl. apply list_lookup_insert_eq.
    by eapply lookup_lt_Some.
  - destruct (futures_of k0 r !! id0) as [l0|] eqn:Hl0; [|done].
    rewrite list_lookup_insert_ne; [done|]. intros ->. apply Hd. by eapply same_location.
Qed.

Lemma apply_event_owned l s :
  heap_ (ApplyEventToState ev r) !! l = Some s ->
  exists k id, s = recorded_future (scan1 ps ev) k id /\ futures_of k r !! id = Some l.
Proof.
  intros Hs. assert (Hlt : (l < length (heap_ r))%nat).
  { apply lookup_lt_Some in Hs. rewrite (apply_event_heap _ _ _ Hws Hp Ht) in Hs.
    repeat case_match; by rewrite ?length_insert in Hs. }
  apply lookup_lt_is_Some in Hlt as [s0 Hs0].
  destruct (tr_heap _ _ Ht _ _ Hs0) as (k & id & _ & Hl). exists k, id. split; [|done].
  apply apply_event_futures in Hl. rewrite Hl in Hs. by simplify_eq.
Qed.
End Heap.

(** Applying one event to a runner that tracks the history before it. *)
Lemma apply_event_tracks ev ps r :
  well_scanned ps -> proper ps (event_body ev) -> tracks ps r ->
  (event_body ev = NexusOperationScheduled -> ps_nexus_ops_scheduled ps < nexus_seq_ r) ->
  tracks (scan1 ps ev)
    ((ApplyEventToState ev r) <| scan_ ::= fun p => p <| ps_last_event_id := event_id ev |> |>).
Proof.
  intros Hws Hp Ht Hnx. pose proof (apply_event_futures _ _ _ Hws Hp Ht) as Hfut.
  pose proof (apply_event_owned _ _ _ Hws Hp Ht) as Hown.
  destruct (apply_event_next ev r) as (Hs & Ha & Hn & Hc).
  destruct (apply_event_rest ev r) as (He & Hu & Hse & Hrec).
  destruct (scan_event_next ev (ps <| ps_last_event_id := event_id ev |>)) as (Hs' & Ha' & Hn' & Hc').
  destruct (ApplyEventToState_event_frame ev r) as (sc & hp & Hf). rewrite Hf in *.
  destruct Ht as [T1 T2 T3 T4 T5 T6 T7 Tn T8 T9 T10 T11 T12]. simpl in *.
  unfold scan1. constructor; simpl.
  - by rewrite Hs, Hs', T1.
  - by rewrite Ha, Ha', T2.
  - by rewrite Hn, Hn', T3, T4.
  - by rewrite Hc, Hc', T4.
  - destruct ev. by rewrite scan_event_last_event_id.
  - intros l s Hl. apply (Hown l s Hl).
  - intros k id l Hl. apply (Hfut k id l Hl).
  - apply Tn.
  - done.
  - intros k n Hk. apply not_true_is_false. intros Hr. change (seq_of k r <= n) in Hk.
    destruct (Hrec _ _ Hr) as [Ho|(-> & Hb & Hid)].
    + by rewrite T9 in Ho.
    + simpl in *. specialize (Hnx Hb). simplify_eq. lia.
  - by rewrite He.
  - by rewrite Hu.
  - by rewrite Hse.
Qed.

Lemma nexus_count_mono h ps :
  ps_nexus_ops_scheduled ps <= ps_nexus_ops_scheduled (fold_left scan1 h ps).
Proof.
  revert ps. induction h as [|ev h IH]; intros ps; simpl; [lia|].
  etrans; [|apply IH]. unfold scan1. destruct ev as [n b]. rewrite scan_event_nexus. simpl.
  case_match; lia.
Qed.

Lemma event_frame_nexus_seq r r' : event_frame r r' -> nexus_seq_ r' = nexus_seq_ r.
Proof. by intros (? & ? & ->). Qed.

(** Applying the events of a task. *)
Lemma ApplyEvents_tracks h ps r :
  well_scanned ps -> all_proper ps h -> ids_after (ps_last_event_id ps) h -> tracks ps r ->
  ps_nexus_ops_scheduled (fold_left scan1 h ps) <= nexus_seq_ r ->
  tracks (fold_left scan1 h ps) (ApplyEvents h r).
Proof.
  revert ps r. induction h as [|ev h IH]; intros ps r Hws; simpl; [done|].
  intros [Hev Hh] [Hid Hids] Ht Hnx.
  assert (Hgt : (event_id ev <=? last_event_id r) = false).
  { apply Z.leb_gt. unfold last_event_id. by rewrite (tr_last _ _ Ht). }
  rewrite Hgt. apply IH; [by apply scan1_well_scanned|done| | |].
  - unfold scan1. destruct ev as [n b]. by rewrite scan_event_last_event_id.
  - apply apply_event_tracks; [done..|]. intros Hb.
    pose proof (nexus_count_mono h (scan1 ps ev)) as Hm.
    assert (ps_nexus_ops_scheduled (scan1 ps ev) = Z.succ (ps_nexus_ops_scheduled ps)) as Hs.
    { unfold scan1. destruct ev as [n b]. simpl in Hb. subst b. done. }
    lia.
  - simpl. by rewrite (event_frame_nexus_seq _ _ (ApplyEventToState_event_frame ev r)).
Qed.

Lemma clear_commands_tracks ps r : tracks ps r -> tracks ps (clear_commands r).
Proof. intros []. constructor; try done; intros []; eauto. Qed.

(** ** Steady bodies *)

(** The calls whose answer depends on what history delivers and not on when:
    operations are started and waited for, signals are received, side effects are
    taken; nothing polls, cancels or races. *)
Definition steady_call (c : call) : bool :=
  match c with
  | ExecuteActivity _ _ _ | NewTimer _ | ExecuteNexusOperation _ _ _ _ _ | FutureGet _
  | Receive _ | Workflow.SignalExternalWorkflow _ _ _ | Workflow.UpsertSearchAttributes _
  | SideEffect | GetInfo | GetVar _ | SetVar _ _ => true
  | ExecuteChildWorkflow options _ _ => str_empty (co_id options)
  | _ => false
  end.

Inductive steady : prog -> Prop :=
| steady_return v : steady (Return v)
| steady_throw e : steady (Throw e)
| steady_step c k : steady_call c = true -> (forall a, steady (k a)) -> steady (Call c k)
| steady_handler kind name handler k : steady k -> steady (SetHandler kind name handler k).

(** ** What a live run and a replay share *)

Definition erase_future (s : FutureState) : FutureState :=
  new_future <| f_op := f_op s |> <| f_op_id := f_op_id s |>.

(** A runner without what depends on how it got where it is: the prescan, the state
    of its futures, what it produced, how often it was resumed. *)
Definition erase (r : WorkflowRunner) : WorkflowRunner :=
  r <| scan_ := empty_prescan |> <| is_replaying_ := false |> <| signal_cursor_ := ∅ |>
    <| heap_ ::= fmap erase_future |> <| commands_ := [] |> <| produced_commands_ := [] |>
    <| change_versions_ := ∅ |> <| mse_recorded_ := ∅ |> <| coroutine_ := NoCoroutine |>
    <| reads_ := 0%nat |> <| resumes_ := 0%nat |>.

(** The values the side effects of a run took. *)
Definition side_effects_of (commands : list Command) : list Payload :=
  omap (fun c => side_effect_of (echo c)) commands.

(** The side-effect values history holds once the commands of [r] are recorded. *)
Definition values_of (h : History) (r : WorkflowRunner) : list Payload :=
  ps_side_effects (ScanHistory h) ++ side_effects_of (commands_ r).

(** A runner that is being driven live, at history [h]; [before] is what its earlier
    tasks produced.  Its numbering, its records and what it sent agree. *)
Record live (h : History) (before : list CommandEvent) (r : WorkflowRunner) : Prop := {
  li_tracks : tracks (ScanHistory h) r;
  li_before : history_commands 0 h = before;
  li_ids : forall k, ids_of (kind_of k) (before ++ produced_commands_ r) =
                     label_of k (info_ r) <$> seqZ 0 (seq_of k r);
  li_seq : forall k, 0 <= seq_of k r;
  li_signals : length (ids_of CommandEvent.SignalExternalWorkflow
                        (before ++ produced_commands_ r)) = ext_signal_seq_ r;
  li_upserts : length (ids_of CommandEvent.UpsertSearchAttributes
                        (before ++ produced_commands_ r)) = upsert_seq_ r;
  li_starting : Forall (fun c => starting c = true) (commands_ r);
  li_commands : history_commands 0 (h ++ (mkEvent 0 ∘ echo <$> commands_ r)) =
                before ++ produced_commands_ r;
  li_values : length (values_of h r) = side_effect_seq_ r
}.

(** Whether the run being compared was recorded before the replay, or is the one
    that answers the current task. *)
Inductive mode := Recorded | Fresh.

(** [r] live at [h], [r'] replaying against [later], both at the same point of the
    body; [reads0] world reads were made before the current run. *)
Record sim (m : mode) (before : list CommandEvent) (later : Prescan) (reads0 : nat)
    (r r' : WorkflowRunner) : Prop := {
  sm_erase : erase r = erase r';
  sm_cursor : forall name,
    default 0%nat (signal_cursor_ r !! name) = default 0%nat (signal_cursor_ r' !! name);
  sm_scan : scan_ r' = later;
  sm_futures : forall k id l, futures_of k r' !! id = Some l ->
    heap_ r' !! l = Some (recorded_future later k id);
  sm_produced : produced_commands_ r' = before ++ produced_commands_ r;
  sm_commands : commands_ r' = match m with Recorded => [] | Fresh => commands_ r end;
  sm_reads : match m with Recorded => reads_ r' = 0 | Fresh => reads_ r = reads0 + reads_ r' end%nat
}.

(** ** Starting an operation *)

Definition bump (k : sort) (r : WorkflowRunner) : WorkflowRunner :=
  match k with
  | Act => r <| activity_seq_ ::= Z.succ |> | Tim => r <| timer_seq_ ::= Z.succ |>
  | Chi => r <| child_seq_ ::= Z.succ |> | Nex => r <| nexus_seq_ ::= Z.succ |>
  end.

Definition enter (k : sort) (id : string) (l : loc) (r : WorkflowRunner) : WorkflowRunner :=
  match k with
  | Act => r <| activity_futures_ ::= <[id := l]> |>
  | Tim => r <| timer_futures_ ::= <[id := l]> |>
  | Chi => r <| child_futures_ ::= <[id := l]> |>
  | Nex => r <| nexus_futures_ ::= <[id := l]> |>
  end.

(** The id the next operation of a sort gets. *)
Definition next_id (k : sort) (r : WorkflowRunner) : string := label_of k (info_ r) (seq_of k r).

Definition append_sent (sent : option Command) (l : list Command) : list Command :=
  match sent with Some c => l ++ [c] | None => l end.

(** The runner after it started an operation named [nm], sent [sent] and allocated
    the future [s]. *)
Definition started_op (k : sort) (nm : string) (sent : option Command) (s : FutureState)
    (r : WorkflowRunner) : WorkflowRunner :=
  enter k (next_id k r) (length (heap_ r))
    ((bump k r) <| produced_commands_ ::= fun l => l ++ [mk (kind_of k) (next_id k r) nm] |>
                <| commands_ ::= append_sent sent |> <| heap_ ::= fun l => l ++ [s] |>).

(** Scheduling an activity does not fail in the interceptors. *)
Definition calm (outbound : option WorkflowOutboundInterceptor) : Prop :=
  match outbound with
  | Some o => forall type options input header,
      exists header', out_ExecuteActivity o type options input header = inr header'
  | None => True
  end.

Section Calls.
Context `{Codec} (env : Env).

(** The operation a steady call starts: its sort, the name it is recorded with and the
    command it sends from [r] when history does not hold it. *)
Definition starts (c : call) (r : WorkflowRunner) : option (sort * string * Command) :=
  match c with
  | ExecuteActivity options type input =>
    match match outbound_chain_ r with
          | Some o => out_ExecuteActivity o type options input (wi_headers (info_ r))
          | None => inr (wi_headers (info_ r))
          end with
    | inr header =>
      Some (Act, type,
            ScheduleActivityTask (next_id Act r) type (queue_or_default r (ao_task_queue options))
              (opt_payloads input) (ToProtoFields header)
              (opt_timeout (ao_schedule_to_close_timeout options))
              (opt_timeout (ao_schedule_to_start_timeout options))
              (opt_timeout (ao_start_to_close_timeout options))
              (opt_timeout (ao_heartbeat_timeout options))
              (ToProtoRetryPolicy <$> ao_retry_policy options))
    | inl _ => None
    end
  | NewTimer duration =>
    Some (Tim, "", StartTimerCommand (next_id Tim r) (ToProtoDuration duration))
  | ExecuteChildWorkflow options type input =>
    Some (Chi, type,
          StartChildWorkflowExecution (wi_ns (info_ r)) (next_id Chi r) type
            (queue_or_default r (co_task_queue options)) (opt_payloads input)
            (co_parent_close_policy options))
  | ExecuteNexusOperation endpoint service operation input schedule_to_close =>
    Some (Nex, "",
          ScheduleNexusOperationCommand endpoint service operation (ToProtoPayload input)
            (if 0 <? schedule_to_close then Some (ToProtoDuration schedule_to_close) else None))
  | _ => None
  end.

(** The future a call that starts an operation answers with. *)
Definition to_answer (c : call) : loc -> option (answer c) :=
  match c with
  | ExecuteActivity _ _ _ => fun l => Some l
  | NewTimer _ => fun l => Some l
  | ExecuteChildWorkflow _ _ _ => fun l => Some l
  | ExecuteNexusOperation _ _ _ _ _ => fun l => Some l
  | _ => fun _ => None
  end.

(** Evaluates a starting call whose record is looked up as [m]. *)
Ltac start_call Hr m :=
  unfold answering, ScheduleActivity, StartTimer, StartChildWorkflow, ScheduleNexusOperation,
    EmitScheduleActivity, EmitStartTimer, EmitStartChildWorkflow, EmitNexusOperation, emit,
    and_then, get, modify, produce, lift, alloc, ok, started_op, next_id in *;
  simpl in *; destruct m as [[[] ? ?]|]; simpl in Hr |- *; try discriminate Hr.

(** The first time, the command is sent and the future is pending. *)
Lemma do_call_starts c r k nm cmd :
  steady_call c = true -> starts c r = Some (k, nm, cmd) -> coro_done r = false ->
  recorded (scan_ r) k (next_id k r) = false ->
  exists a, to_answer c (length (heap_ r)) = Some a /\
    do_call env c r =
    (started_op k nm (Some cmd) (pending_future k (next_id k r)) r, Answer (inr a)).
Proof.
  intros Hst Hs Hc Hr. destruct c; simplify_eq/=.
  - exists (length (heap_ r)). split; [done|].
    unfold outbound_dangles. rewrite Hc. simpl.
    destruct (outbound_chain_ r) as [o|] eqn:Ho;
      [destruct (out_ExecuteActivity _ _ _ _ _) as [|header] eqn:Hout|]; simplify_eq;
      start_call Hr (ps_activities (scan_ r) !! to_string (activity_seq_ r));
      rewrite ?Ho; simpl; rewrite ?Hout; reflexivity.
  - exists (length (heap_ r)). split; [done|].
    start_call Hr (ps_timers (scan_ r) !! ("t" +:+ to_string (timer_seq_ r))); reflexivity.
  - exists (length (heap_ r)). split; [done|]. unfold StartChildWorkflow. rewrite Hst.
    start_call Hr (ps_children (scan_ r) !!
                   (wi_workflow_id (info_ r) +:+ "_c" +:+ to_string (child_seq_ r))); reflexivity.
  - exists (length (heap_ r)). split; [done|].
    start_call Hr (ps_nexus_ops (scan_ r) !! to_string (nexus_seq_ r)); reflexivity.
Qed.

(** Replayed, nothing is sent and the future is in its recorded state. *)
Lemma do_call_replays c r k nm cmd :
  steady_call c = true -> starts c r = Some (k, nm, cmd) -> coro_done r = false ->
  recorded (scan_ r) k (next_id k r) = true ->
  exists a, to_answer c (length (heap_ r)) = Some a /\
    do_call env c r =
    (started_op k nm None (recorded_future (scan_ r) k (next_id k r)) r, Answer (inr a)).
Proof.
  intros Hst Hs Hc Hr. destruct c; simplify_eq/=.
  - exists (length (heap_ r)). split; [done|].
    unfold outbound_dangles. rewrite Hc. simpl.
    assert (k = Act /\ nm = activity_type) as [-> ->] by (repeat case_match; by simplify_eq).
    start_call Hr (ps_activities (scan_ r) !! to_string (activity_seq_ r)). reflexivity.
  - exists (length (heap_ r)). split; [done|].
    start_call Hr (ps_timers (scan_ r) !! ("t" +:+ to_string (timer_seq_ r))); reflexivity.
  - exists (length (heap_ r)). split; [done|]. unfold StartChildWorkflow. rewrite Hst.
    start_call Hr (ps_children (scan_ r) !!
                   (wi_workflow_id (info_ r) +:+ "_c" +:+ to_string (child_seq_ r))); reflexivity.
  - exists (length (heap_ r)). split; [done|].
    start_call Hr (ps_nexus_ops (scan_ r) !! to_string (nexus_seq_ r)); reflexivity.
Qed.
End Calls.

(** ** One call, live *)

(** The fields an operation that is started changes. *)
Section StartedOp.
Context (k : sort) (nm : string) (sent : option Command) (s : FutureState) (r : WorkflowRunner).
Let r' := started_op k nm sent s r.

Lemma started_op_heap : heap_ r' = heap_ r ++ [s].
Proof. by destruct k. Qed.

Lemma started_op_scan : scan_ r' = scan_ r.
Proof. by destruct k. Qed.

Lemma started_op_info : info_ r' = info_ r.
Proof. by destruct k. Qed.

Lemma started_op_produced :
  produced_commands_ r' = produced_commands_ r ++ [mk (kind_of k) (next_id k r) nm].
Proof. by destruct k. Qed.

Lemma started_op_commands : commands_ r' = append_sent sent (commands_ r).
Proof. by destruct k. Qed.

Lemma started_op_futures k' :
  futures_of k' r' =
  if decide (k' = k) then <[next_id k r := length (heap_ r)]> (futures_of k r) else futures_of k' r.
Proof. by destruct k, k'. Qed.

Lemma started_op_seq k' :
  seq_of k' r' = if decide (k' = k) then Z.succ (seq_of k r) else seq_of k' r.
Proof. by destruct k, k'. Qed.

Lemma started_op_rest :
  cancel_futures_ r' = cancel_futures_ r /\ ext_signal_seq_ r' = ext_signal_seq_ r /\
  upsert_seq_ r' = upsert_seq_ r /\ side_effect_seq_ r' = side_effect_seq_ r /\
  signal_cursor_ r' = signal_cursor_ r /\ reads_ r' = reads_ r.
Proof. by destruct k. Qed.
End StartedOp.

Lemma next_id_unused ps k r : tracks ps r -> futures_of k r !! next_id k r = None.
Proof.
  intros Ht. apply eq_None_not_Some. intros [l Hl].
  destruct (tr_numbered _ _ Ht _ _ _ Hl) as (n & Hn & He). apply (inj (label_of k (info_ r))) in He. lia.
Qed.

Lemma tracks_started ps k nm sent r :
  tracks ps r -> resolved ps k (next_id k r) = false ->
  tracks ps (started_op k nm sent (pending_future k (next_id k r)) r).
Proof.
  intros Ht Hu. pose proof (next_id_unused _ k _ Ht) as Hnew.
  destruct Ht as [T1 T2 T3 T4 T5 T6 T7 Tn T8 T9 T10 T11 T12].
  destruct (started_op_rest k nm sent (pending_future k (next_id k r)) r)
    as (Rc & Re & Ru & Rs & _).
  constructor; rewrite ?started_op_scan, ?started_op_info, ?Rc, ?Re, ?Ru, ?Rs; try done.
  - intros l s. rewrite started_op_heap. intros [Hl|[Hl Hs]]%lookup_app_Some.
    + destruct (T6 _ _ Hl) as (k' & id & -> & Hf). exists k', id. split; [done|].
      rewrite started_op_futures. case_decide; subst; [|done].
      rewrite lookup_insert_ne; [done|]. intros <-. congruence.
    + apply list_lookup_singleton_Some in Hs as [Hz <-]. exists k, (next_id k r).
      rewrite started_op_futures, decide_True, lookup_insert_eq by done.
      split; [by rewrite unresolved_pending|]. f_equal. lia.
  - intros k' id l. rewrite started_op_futures, started_op_heap.
    assert (Hold : futures_of k' r !! id = Some l ->
                   (heap_ r ++ [pending_future k (next_id k r)]) !! l = Some (recorded_future ps k' id))
      by (intros Hf; by apply lookup_app_l_Some, T7).
    case_decide; subst; [|done]. intros [[<- <-]|[_ Hf]]%lookup_insert_Some; [|by apply Hold].
    by rewrite list_lookup_middle, unresolved_pending.
  - intros k' id l. rewrite started_op_futures, started_op_seq. case_decide; subst; [|apply Tn].
    intros [[<- <-]|[_ Hf]]%lookup_insert_Some; [exists (seq_of k r); split; [lia|done]|].
    destruct (Tn _ _ _ Hf) as (n & ? & ->). exists n. split; [lia|done].
  - intros k' n. rewrite started_op_seq. intros Hn. apply T9. case_decide; subst; lia.
Qed.

Lemma history_commands_app n h1 h2 :
  history_commands n (h1 ++ h2) =
  history_commands n h1 ++
  history_commands (n + Z.of_nat (length (ids_of NexusOperation (history_commands n h1)))) h2.
Proof.
  revert n. induction h1 as [|ev h1 IH]; intros n; simpl; [by rewrite Z.add_0_r|].
  rewrite IH, <- app_assoc, ids_of_app, length_app. do 2 f_equal.
  destruct (event_body ev); simpl; try lia; f_equal; lia.
Qed.

Lemma ids_of_snoc kd l c :
  ids_of kd (l ++ [c]) = ids_of kd l ++ (if decide (kind c = kd) then [CommandEvent.id c] else []).
Proof. rewrite ids_of_app. f_equal. unfold ids_of. simpl. by case_decide. Qed.

Lemma starts_command c r k nm cmd :
  starts c r = Some (k, nm, cmd) ->
  starting cmd = true /\ side_effect_of (echo cmd) = None /\
  forall n, (k = Nex -> n = nexus_seq_ r) ->
    event_command n (echo cmd) = Some (mk (kind_of k) (next_id k r) nm).
Proof.
  intros Hs. destruct c; simpl in Hs; try discriminate Hs;
    try (case_match; [discriminate Hs|]); injection Hs as <- <- <-;
    (split; [done|split; [done|]]); intros n Hn; simpl; try done. by rewrite Hn.
Qed.

Section Live.
Context (h : History) (before : list CommandEvent).
Hypothesis (Hh : proper_history h).

Lemma live_unrecorded k r :
  live h before r -> recorded (ScanHistory h) k (next_id k r) = false.
Proof.
  intros Hl. rewrite (ws_recorded _ (proper_history_well_scanned _ Hh)).
  apply bool_decide_eq_false_2. rewrite ScanHistory_commands_complete, (li_before _ _ _ Hl).
  intros Hin. assert (Hm : next_id k r ∈ ids_of (kind_of k) (before ++ produced_commands_ r))
    by (rewrite ids_of_app; apply elem_of_app; by left).
  rewrite (li_ids _ _ _ Hl) in Hm. apply list_elem_of_fmap in Hm as (n & He & Hn).
  apply (inj (label_of k (info_ r))) in He. apply elem_of_seqZ in Hn. lia.
Qed.

Lemma live_unresolved k r :
  live h before r -> resolved (ScanHistory h) k (next_id k r) = false.
Proof.
  intros Hl. apply not_true_is_false. intros Hr.
  apply (ws_resolved _ (proper_history_well_scanned _ Hh)) in Hr.
  by rewrite live_unrecorded in Hr.
Qed.

(** The Nexus operations recorded so far are those the runner numbered. *)
Lemma live_nexus r :
  live h before r ->
  Z.of_nat (length (ids_of NexusOperation (before ++ produced_commands_ r))) = nexus_seq_ r.
Proof.
  intros Hl. pose proof (li_ids _ _ _ Hl Nex) as Hids. simpl in Hids.
  rewrite Hids, length_fmap, length_seqZ. pose proof (li_seq _ _ _ Hl Nex). simpl in *. lia.
Qed.

(** The events of the commands after one more is sent. *)
Lemma live_echo r c :
  live h before r ->
  history_commands 0 (h ++ (mkEvent 0 ∘ echo <$> (commands_ r ++ [c]))) =
  (before ++ produced_commands_ r) ++ option_list (event_command (nexus_seq_ r) (echo c)).
Proof.
  intros Hl. rewrite fmap_app, app_assoc, history_commands_app, (li_commands _ _ _ Hl).
  f_equal. rewrite Z.add_0_l, live_nexus by done. simpl. by rewrite app_nil_r.
Qed.

Lemma live_started c r k nm cmd :
  live h before r -> starts c r = Some (k, nm, cmd) ->
  live h before (started_op k nm (Some cmd) (pending_future k (next_id k r)) r).
Proof.
  intros Hl Hs. destruct (starts_command _ _ _ _ _ Hs) as (Hst & Hse & Hev).
  pose proof (live_unresolved k r Hl) as Hu. pose proof (live_echo r cmd Hl) as He.
  destruct (started_op_rest k nm (Some cmd) (pending_future k (next_id k r)) r)
    as (Rc & Re & Ru & Rs & _).
  destruct Hl as [Ht Hb Hids Hseq Hsig Hups Hstart Hcmd Hval].
  constructor; rewrite ?started_op_produced, ?started_op_commands, ?started_op_info,
    ?Re, ?Ru, ?Rs, ?app_assoc; try done.
  - by apply tracks_started.
  - intros k'. rewrite ids_of_snoc, Hids, started_op_seq. simpl. unfold next_id.
    destruct (decide (k' = k)) as [->|Hne].
    + rewrite decide_True by done. rewrite <- Z.add_1_r.
      specialize (Hseq k). rewrite seqZ_app, fmap_app by lia. simpl. by rewrite Z.add_0_l.
    + rewrite decide_False by (intros Hk; apply Hne; by destruct k, k'). by rewrite app_nil_r.
  - intros k'. rewrite started_op_seq. specialize (Hseq k'). case_decide; subst; lia.
  - rewrite ids_of_snoc, decide_False by (by destruct k). by rewrite app_nil_r.
  - rewrite ids_of_snoc, decide_False by (by destruct k). by rewrite app_nil_r.
  - simpl. apply Forall_app. by split; [|constructor].
  - simpl. rewrite He, Hev; [done|]. intros ->. done.
  - unfold values_of. rewrite started_op_commands. simpl. unfold side_effects_of.
    rewrite omap_app. simpl. rewrite Hse. by rewrite !app_nil_r.
Qed.
End Live.

(** ** One call, replayed *)

Definition sent_in (m : mode) (c : Command) : option Command :=
  match m with Recorded => None | Fresh => Some c end.

Lemma erase_started k nm sent s r :
  erase (started_op k nm sent s r) =
  enter k (next_id k (erase r)) (length (heap_ (erase r)))
    ((bump k (erase r)) <| heap_ ::= fun l => l ++ [erase_future s] |>).
Proof.
  destruct k; unfold started_op, next_id, erase; simpl; by rewrite fmap_app, length_fmap.
Qed.

Lemma erase_recorded ps k id : erase_future (recorded_future ps k id) = erase_future (pending_future k id).
Proof. destruct k; simpl; unfold outcome_future; by try case_match. Qed.

Lemma starts_erase c r : starts c (erase r) = starts c r.
Proof. by destruct c. Qed.

Lemma next_id_erase k r : next_id k (erase r) = next_id k r.
Proof. by destruct k. Qed.

(** Erased runners agree on whatever does not read an erased field. *)
Lemma erase_agree {A} (f : WorkflowRunner -> A) r r' :
  (forall r, f (erase r) = f r) -> erase r = erase r' -> f r = f r'.
Proof. intros Hf He. by rewrite <- (Hf r), He, Hf. Qed.

Lemma erase_heap_length r r' : erase r = erase r' -> length (heap_ r) = length (heap_ r').
Proof.
  intros He. pose proof (f_equal (length ∘ heap_) He) as Hl. simpl in Hl.
  by rewrite !length_fmap in Hl.
Qed.

Lemma erase_futures k r r' : erase r = erase r' -> futures_of k r = futures_of k r'.
Proof. intros He. apply erase_agree; [|done]. by destruct k. Qed.

(** What the replay's prescan has to hold for the calls made up to [r1]. *)
Definition covered (m : mode) (h : History) (before : list CommandEvent) (later : Prescan)
    (r1 : WorkflowRunner) : Prop :=
  match m with
  | Recorded => (before ++ produced_commands_ r1) `prefix_of` ps_commands later /\
                values_of h r1 `prefix_of` ps_side_effects later
  | Fresh => later = ScanHistory h
  end.

(** ** The other calls that leave a record *)

Definition signalled (workflow_id : string) (sent : option Command) (r : WorkflowRunner) :
    WorkflowRunner :=
  r <| produced_commands_ ::= fun l => l ++ [mk CommandEvent.SignalExternalWorkflow workflow_id ""] |>
    <| ext_signal_seq_ ::= S |> <| commands_ ::= append_sent sent |>.

Definition upserted (sent : option Command) (r : WorkflowRunner) : WorkflowRunner :=
  r <| produced_commands_ ::= fun l => l ++ [mk CommandEvent.UpsertSearchAttributes "" ""] |>
    <| upsert_seq_ ::= S |> <| commands_ ::= append_sent sent |>.

Definition took (reads : nat) (sent : option Command) (r : WorkflowRunner) : WorkflowRunner :=
  r <| produced_commands_ ::= fun l => l ++ [mk Marker "SideEffect" ""] |>
    <| side_effect_seq_ ::= S |> <| reads_ ::= Nat.add reads |> <| commands_ ::= append_sent sent |>.

(** The command [SignalExternalWorkflow] or [UpsertSearchAttributes] sends from [r]. *)
Definition external_signal (workflow_id signal_name : string) (input : Payloads)
    (r : WorkflowRunner) : Command :=
  SignalExternalWorkflowExecution (wi_ns (info_ r)) workflow_id signal_name (opt_payloads input).

Section Marker.
Context `{Codec}.

(** The marker of the [n]th side effect. *)
Definition side_effect_marker (n : nat) (v : Payload) : Command :=
  let idp := match ToPayload_int (Z.of_nat (S n) - 1) with inr p => p | inl _ => empty_payload end in
  RecordMarker "SideEffect"
    (fold_left (fun m '(key, payloads) => <[key := ToProtoPayloads payloads]> m)
       [("side-effect-id", [idp]); ("data", [v])] ∅).

Lemma side_effect_marker_value n v : side_effect_of (echo (side_effect_marker n v)) = Some v.
Proof.
  unfold side_effect_marker. cbn [echo side_effect_of String.eqb Ascii.eqb Bool.eqb fold_left].
  rewrite lookup_insert_eq. cbn [mbind option_bind]. by rewrite payloads_roundtrip.
Qed.

Context `{!CodecLaws _} (env : Env).

Lemma do_call_side_effect r :
  do_call env SideEffect r =
  match (ps_side_effects (scan_ r) !! side_effect_seq_ r : option Payload) with
  | Some v => (took 0 None r, Answer (inr v))
  | None =>
    let v := e_world env (reads_ r) in
    (took 1 (Some (side_effect_marker (side_effect_seq_ r) v)) r, Answer (inr v))
  end.
Proof.
  unfold do_call, answering, ContextSideEffect, ReplaySideEffect, RecordSideEffect, read_world,
    EmitRecordMarker, emit, and_then, get, modify, produce, lift, ok, took. cbn -[Z.of_nat Z.sub].
  destruct (ps_side_effects (scan_ r) !! side_effect_seq_ r) as [v|]; [done|].
  unfold side_effect_marker.
  destruct (codec_int_total (Z.of_nat (S (side_effect_seq_ r)) - 1)) as [p Hp].
  cbn -[Z.of_nat Z.sub]. by rewrite Hp.
Qed.
End Marker.

Lemma do_call_signal `{Codec} env wid nm input r :
  do_call env (Workflow.SignalExternalWorkflow wid nm input) r =
  (signalled wid
     (if ps_ext_signals_initiated (scan_ r) <=? Z.of_nat (ext_signal_seq_ r)
      then Some (external_signal wid nm input r) else None) r, Answer (inr tt)).
Proof.
  unfold do_call, answering, SignalExternal, EmitSignalExternalWorkflow, emit, and_then, get,
    modify, produce, ok, signalled, external_signal. simpl.
  by destruct (_ <=? _).
Qed.

Lemma do_call_upsert `{Codec} env attributes r :
  do_call env (Workflow.UpsertSearchAttributes attributes) r =
  (upserted
     (if ps_upserts_initiated (scan_ r) <=? Z.of_nat (upsert_seq_ r)
      then Some (UpsertWorkflowSearchAttributes (ToProtoFields attributes)) else None) r,
   Answer (inr tt)).
Proof.
  unfold do_call, answering, Upsert, EmitUpsertSearchAttributes, emit, and_then, get, modify,
    produce, ok, upserted. simpl.
  by destruct (_ <=? _).
Qed.

(** These calls keep a runner on track. *)
Section Kept.
Context (ps : Prescan) (r : WorkflowRunner) (Ht : tracks ps r).

Lemma tracks_signalled wid sent : tracks ps (signalled wid sent r).
Proof. destruct Ht. constructor; try done; try (by intros []; eauto). simpl. lia. Qed.

Lemma tracks_upserted sent : tracks ps (upserted sent r).
Proof. destruct Ht. constructor; try done; try (by intros []; eauto). simpl. lia. Qed.

Lemma tracks_took reads sent : tracks ps (took reads sent r).
Proof. destruct Ht. constructor; try done; try (by intros []; eauto). simpl. lia. Qed.

Lemma tracks_cursor name n : tracks ps (r <| signal_cursor_ ::= <[name := n]> |>).
Proof. destruct Ht. constructor; try done; by intros []; eauto. Qed.

Lemma tracks_vars x v : tracks ps (r <| vars_ ::= <[x := v]> |>).
Proof. destruct Ht. constructor; try done; by intros []; eauto. Qed.

Lemma tracks_register kind name handler : tracks ps (register kind name handler r).
Proof. destruct Ht, kind; constructor; try done; by intros []; eauto. Qed.
End Kept.

Section LiveKept.
Context (h : History) (before : list CommandEvent) (r r2 : WorkflowRunner).
Hypothesis (Hl : live h before r) (Ht : tracks (ScanHistory h) r2).
Hypothesis (Hinfo : info_ r2 = info_ r) (Hseqs : forall k, seq_of k r2 = seq_of k r).

(** One more record and its command. *)
Lemma live_sent e c :
  produced_commands_ r2 = produced_commands_ r ++ [e] -> commands_ r2 = commands_ r ++ [c] ->
  starting c = true -> event_command (nexus_seq_ r) (echo c) = Some e ->
  (forall k, kind e <> kind_of k) ->
  ext_signal_seq_ r2 =
    (ext_signal_seq_ r + if decide (kind e = CommandEvent.SignalExternalWorkflow) then 1 else 0)%nat ->
  upsert_seq_ r2 =
    (upsert_seq_ r + if decide (kind e = CommandEvent.UpsertSearchAttributes) then 1 else 0)%nat ->
  side_effect_seq_ r2 =
    (side_effect_seq_ r + length (option_list (side_effect_of (echo c))))%nat ->
  live h before r2.
Proof.
  intros Hp Hc Hst Hev Hk Hs Hu Hse. pose proof (live_echo _ _ _ c Hl) as He.
  destruct Hl as [_ Hb Hids Hseq Hsig Hups Hstart Hcmd Hval].
  constructor; rewrite ?Hp, ?Hc, ?Hinfo, ?Hs, ?Hu, ?Hse, ?app_assoc; try done.
  - intros k. rewrite ids_of_snoc, decide_False, app_nil_r by done. by rewrite Hids, Hseqs.
  - intros k. by rewrite Hseqs.
  - rewrite ids_of_snoc, length_app, Hsig. by repeat case_decide.
  - rewrite ids_of_snoc, length_app, Hups. by repeat case_decide.
  - apply Forall_app. by split; [|constructor].
  - by rewrite He, Hev.
  - unfold values_of in *. rewrite Hc. unfold side_effects_of in *.
    rewrite omap_app, app_assoc, length_app, Hval. simpl.
    by destruct (side_effect_of (echo c)).
Qed.

(** Nothing recorded. *)
Lemma live_silent :
  produced_commands_ r2 = produced_commands_ r -> commands_ r2 = commands_ r ->
  ext_signal_seq_ r2 = ext_signal_seq_ r -> upsert_seq_ r2 = upsert_seq_ r ->
  side_effect_seq_ r2 = side_effect_seq_ r -> live h before r2.
Proof.
  intros Hp Hc Hs Hu Hse. destruct Hl as [_ Hb Hids Hseq Hsig Hups Hstart Hcmd Hval].
  constructor; rewrite ?Hp, ?Hc, ?Hinfo, ?Hs, ?Hu, ?Hse; try done.
  - intros k. by rewrite Hids, Hseqs.
  - intros k. by rewrite Hseqs.
  - unfold values_of in *. by rewrite Hc.
Qed.
End LiveKept.

(** What a live call finds: the counters are ahead of the runner's own prescan. *)
Lemma do_call_signal_live `{Codec} env ps wid nm input r :
  tracks ps r ->
  do_call env (Workflow.SignalExternalWorkflow wid nm input) r =
  (signalled wid (Some (external_signal wid nm input r)) r, Answer (inr tt)).
Proof.
  intros Ht. rewrite do_call_signal.
  pose proof (tr_new_signals _ _ Ht) as Hle. by apply Z.leb_le in Hle as ->.
Qed.

Lemma do_call_upsert_live `{Codec} env ps attributes r :
  tracks ps r ->
  do_call env (Workflow.UpsertSearchAttributes attributes) r =
  (upserted (Some (UpsertWorkflowSearchAttributes (ToProtoFields attributes))) r, Answer (inr tt)).
Proof.
  intros Ht. rewrite do_call_upsert.
  pose proof (tr_new_upserts _ _ Ht) as Hle. by apply Z.leb_le in Hle as ->.
Qed.

Lemma do_call_side_effect_live `{Codec, !CodecLaws _} env ps r :
  tracks ps r ->
  do_call env SideEffect r =
  (took 1 (Some (side_effect_marker (side_effect_seq_ r) (e_world env (reads_ r)))) r,
   Answer (inr (e_world env (reads_ r)))).
Proof.
  intros Ht. rewrite do_call_side_effect.
  pose proof (tr_new_side_effects _ _ Ht) as Hle.
  pose proof (lookup_ge_None_2 _ _ Hle) as Hn. by rewrite Hn.
Qed.

Section Sim.
Context (h : History) (before : list CommandEvent) (later : Prescan) (m : mode) (reads0 : nat).
Hypothesis (Hh : proper_history h) (Hlater : well_scanned later)
  (Hadv : advances (ScanHistory h) later).
Abbreviation sim := (sim m before later reads0).
Abbreviation covered := (covered m h before later).

Lemma sim_started k nm cmd r r' :
  sim r r' ->
  sim (started_op k nm (Some cmd) (pending_future k (next_id k r)) r)
      (started_op k nm (sent_in m cmd) (recorded_future later k (next_id k r)) r').
Proof.
  intros [He Hc Hs Hf Hp Hm Hr].
  assert (Hid : next_id k r = next_id k r') by (apply erase_agree; [apply next_id_erase|done]).
  destruct (started_op_rest k nm (Some cmd) (pending_future k (next_id k r)) r)
    as (_ & _ & _ & _ & Rc & Rr).
  destruct (started_op_rest k nm (sent_in m cmd) (recorded_future later k (next_id k r)) r')
    as (_ & _ & _ & _ & Rc' & Rr').
  constructor; rewrite ?started_op_scan, ?started_op_produced, ?started_op_commands,
    ?Rc, ?Rr, ?Rc', ?Rr'; try done.
  - by rewrite !erase_started, He, erase_recorded.
  - intros k' id l. rewrite started_op_futures, started_op_heap.
    assert (Hold : futures_of k' r' !! id = Some l ->
                   (heap_ r' ++ [recorded_future later k (next_id k r)]) !! l =
                   Some (recorded_future later k' id))
      by (intros ?; by apply lookup_app_l_Some, Hf).
    case_decide; subst; [|done]. intros [[<- <-]|[_ ?]]%lookup_insert_Some; [|by apply Hold].
    by rewrite list_lookup_middle, Hid.
  - by rewrite Hp, app_assoc, Hid.
  - rewrite Hm. by destruct m.
Qed.

(** A call that starts an operation does the same in the replay, from the record. *)
Lemma replays_start `{Codec} env c r r' k nm cmd :
  steady_call c = true -> starts c r = Some (k, nm, cmd) -> coro_done r' = false ->
  live h before r -> sim r r' ->
  covered (started_op k nm (Some cmd) (pending_future k (next_id k r)) r) ->
  exists a, to_answer c (length (heap_ r)) = Some a /\
    do_call env c r' =
    (started_op k nm (sent_in m cmd) (recorded_future later k (next_id k r)) r', Answer (inr a)).
Proof.
  intros Hst Hs Hd Hl Hsim Hcov. pose proof (sm_erase _ _ _ _ _ _ Hsim) as He.
  assert (Hid : next_id k r = next_id k r') by (apply erase_agree; [apply next_id_erase|done]).
  assert (Hs' : starts c r' = Some (k, nm, cmd))
    by (rewrite <- Hs; symmetry; apply erase_agree; [apply starts_erase|done]).
  rewrite (erase_heap_length _ _ He), Hid. rewrite Hid in Hcov.
  rewrite <- (sm_scan _ _ _ _ _ _ Hsim) in *. destruct m; simpl in *.
  - apply (do_call_replays env c r' k nm cmd); [done..|]. rewrite (ws_recorded _ Hlater).
    apply bool_decide_eq_true_2. destruct Hcov as [[rest ->] _].
    rewrite started_op_produced, !ids_of_app, !elem_of_app. left. right. right.
    unfold ids_of. simpl. rewrite decide_True by done. rewrite Hid. left.
  - assert (Hn : recorded (scan_ r') k (next_id k r') = false)
      by (rewrite Hcov, <- Hid; by eapply live_unrecorded).
    rewrite unresolved_pending; [by apply (do_call_starts env c r' k nm cmd)|].
    rewrite Hcov, <- Hid. by eapply live_unresolved.
Qed.

Lemma erase_signalled wid sent r :
  erase (signalled wid sent r) = (erase r) <| ext_signal_seq_ ::= S |>.
Proof. reflexivity. Qed.

Lemma erase_upserted sent r : erase (upserted sent r) = (erase r) <| upsert_seq_ ::= S |>.
Proof. reflexivity. Qed.

Lemma erase_took n sent r : erase (took n sent r) = (erase r) <| side_effect_seq_ ::= S |>.
Proof. reflexivity. Qed.

Lemma erase_vars x v r :
  erase (r <| vars_ ::= <[x := v]> |>) = (erase r) <| vars_ ::= <[x := v]> |>.
Proof. reflexivity. Qed.

Lemma sim_signalled wid c r r' :
  sim r r' -> sim (signalled wid (Some c) r) (signalled wid (sent_in m c) r').
Proof.
  intros [He Hc Hs Hf Hp Hm Hr].
  constructor; [rewrite !erase_signalled, He; reflexivity|exact Hc|exact Hs| | | |exact Hr].
  - intros []; [exact (Hf Act)|exact (Hf Tim)|exact (Hf Chi)|exact (Hf Nex)].
  - simpl. by rewrite Hp, app_assoc.
  - simpl. rewrite Hm. by destruct m.
Qed.

Lemma sim_upserted c r r' :
  sim r r' -> sim (upserted (Some c) r) (upserted (sent_in m c) r').
Proof.
  intros [He Hc Hs Hf Hp Hm Hr].
  constructor; [rewrite !erase_upserted, He; reflexivity|exact Hc|exact Hs| | | |exact Hr].
  - intros []; [exact (Hf Act)|exact (Hf Tim)|exact (Hf Chi)|exact (Hf Nex)].
  - simpl. by rewrite Hp, app_assoc.
  - simpl. rewrite Hm. by destruct m.
Qed.

Lemma sim_took c r r' :
  sim r r' ->
  sim (took 1 (Some c) r)
      (took (match m with Recorded => 0 | Fresh => 1 end) (sent_in m c) r').
Proof.
  intros [He Hc Hs Hf Hp Hm Hr].
  constructor; [rewrite !erase_took, He; reflexivity|exact Hc|exact Hs| | | |destruct m; simpl; lia].
  - intros []; [exact (Hf Act)|exact (Hf Tim)|exact (Hf Chi)|exact (Hf Nex)].
  - simpl. by rewrite Hp, app_assoc.
  - simpl. rewrite Hm. by destruct m.
Qed.

(** Changes of the fields both runs share. *)
Lemma sim_silent (f g : WorkflowRunner -> WorkflowRunner) r r' :
  sim r r' -> erase (f r) = erase (g r') ->
  (forall name, default 0%nat (signal_cursor_ (f r) !! name) =
                default 0%nat (signal_cursor_ (g r') !! name)) ->
  scan_ (g r') = scan_ r' -> heap_ (g r') = heap_ r' ->
  (forall k, futures_of k (g r') = futures_of k r') ->
  produced_commands_ (f r) = produced_commands_ r ->
  produced_commands_ (g r') = produced_commands_ r' ->
  commands_ (f r) = commands_ r -> commands_ (g r') = commands_ r' ->
  reads_ (f r) = reads_ r -> reads_ (g r') = reads_ r' -> sim (f r) (g r').
Proof.
  intros [He Hc Hs Hf Hp Hm Hr] E C S1 H1 F1 P P1 Cm Cm1 R R1.
  constructor; rewrite ?S1, ?H1, ?P, ?P1, ?Cm, ?Cm1, ?R, ?R1; try done.
  intros k id l. rewrite F1. apply Hf.
Qed.

Ltac silent f g Hs :=
  apply (sim_silent f g _ _ Hs); [| |reflexivity|reflexivity|by intros []|reflexivity..].

Lemma sim_cursor name n n' r r' :
  sim r r' -> n = n' ->
  sim (r <| signal_cursor_ ::= <[name := n]> |>) (r' <| signal_cursor_ ::= <[name := n']> |>).
Proof.
  intros Hs <-. silent (fun r => r <| signal_cursor_ ::= <[name := n]> |>)
                       (fun r => r <| signal_cursor_ ::= <[name := n]> |>) Hs.
  - exact (sm_erase _ _ _ _ _ _ Hs).
  - intros nm. simpl. destruct (decide (nm = name)) as [->|Hne].
    + by rewrite !lookup_insert_eq.
    + rewrite !lookup_insert_ne by done. apply Hs.
Qed.

(** The cursor entry a failed receive may create reads as before. *)
Lemma sim_touch name r r' :
  sim r r' ->
  sim (r <| signal_cursor_ ::= <[name := default 0%nat (signal_cursor_ r !! name)]> |>) r'.
Proof.
  intros Hs. silent
    (fun r0 => r0 <| signal_cursor_ ::= <[name := default 0%nat (signal_cursor_ r !! name)]> |>)
    (fun r : WorkflowRunner => r) Hs.
  - exact (sm_erase _ _ _ _ _ _ Hs).
  - intros nm. simpl. destruct (decide (nm = name)) as [->|Hne].
    + rewrite lookup_insert_eq. apply Hs.
    + rewrite lookup_insert_ne by done. apply Hs.
Qed.

Lemma sim_vars x v r r' :
  sim r r' -> sim (r <| vars_ ::= <[x := v]> |>) (r' <| vars_ ::= <[x := v]> |>).
Proof.
  intros Hs. silent (fun r => r <| vars_ ::= <[x := v]> |>)
                    (fun r => r <| vars_ ::= <[x := v]> |>) Hs.
  - rewrite !erase_vars, (sm_erase _ _ _ _ _ _ Hs). reflexivity.
  - apply Hs.
Qed.

Lemma erase_register kind name handler r :
  erase (register kind name handler r) = register kind name handler (erase r).
Proof. by destruct kind. Qed.

Lemma sim_register kind name handler r r' :
  sim r r' -> sim (register kind name handler r) (register kind name handler r').
Proof.
  intros Hs.
  apply (sim_silent (register kind name handler) (register kind name handler) _ _ Hs);
    [rewrite !erase_register, (sm_erase _ _ _ _ _ _ Hs); reflexivity
    |intros nm; destruct kind; apply (sm_cursor _ _ _ _ _ _ Hs nm)
    |by destruct kind|by destruct kind|by intros []; destruct kind|by destruct kind..].
Qed.

(** ** Steady calls, both ways *)

(** What a parked call waits for. *)
Definition waits (c : call) (r : WorkflowRunner) : Prop :=
  match c with
  | FutureGet l => f_ready (future r l) = false
  | Receive name =>
    default [] (ps_signals (scan_ r) !! name) !! default 0%nat (signal_cursor_ r !! name) = None
  | _ => False
  end.

Context `{Codec, !CodecLaws _} (env env' : Env).
Hypothesis Hworld : m = Fresh -> forall i, e_world env' i = e_world env (reads0 + i)%nat.

(** The live answer of a call is the replay's, once what the call leaves is recorded. *)
Definition agrees (c : call) (r r' : WorkflowRunner) : Prop :=
  match do_call env c r with
  | (r2, Answer a) =>
    live h before r2 /\ (covered r2 -> exists r2', do_call env' c r' = (r2', Answer a) /\ sim r2 r2')
  | (r2, Park) => live h before r2 /\ sim r2 r' /\ waits c r2
  | (_, Undef) => False
  end.

Section Call.
Context (r r' : WorkflowRunner) (Hl : live h before r) (Hs : sim r r').
Hypothesis (Hc : coro_done r = false) (Hc' : coro_done r' = false).

Lemma agrees_start c k nm cmd :
  steady_call c = true -> starts c r = Some (k, nm, cmd) -> agrees c r r'.
Proof.
  intros Hst Hk. unfold agrees.
  assert (Hrec : recorded (scan_ r) k (next_id k r) = false)
    by (apply (tr_new _ _ (li_tracks _ _ _ Hl)); lia).
  destruct (do_call_starts env c r k nm cmd Hst Hk Hc Hrec) as (a & Ha & ->).
  split; [by eapply live_started|]. intros Hcov.
  destruct (replays_start env' c r r' k nm cmd Hst Hk Hc' Hl Hs Hcov) as (a' & Ha' & ->).
  rewrite Ha in Ha'. injection Ha' as <-.
  eexists. split; [done|]. by apply sim_started.
Qed.

(** A counted call finds itself recorded exactly when the replay is behind history. *)
Lemma counted kd r2 e :
  produced_commands_ r2 = produced_commands_ r ++ [e] -> kind e = kd -> covered r2 ->
  (Z.of_nat (length (ids_of kd (ps_commands later))) <=?
   Z.of_nat (length (ids_of kd (before ++ produced_commands_ r)))) =
  match m with Recorded => false | Fresh => true end.
Proof.
  intros Hp Hk Hcov. unfold Replay.covered in Hcov. destruct m; simpl in Hcov.
  - destruct Hcov as [[rest ->] _]. apply Z.leb_gt.
    assert (length (ids_of kd [e]) = 1%nat) by (unfold ids_of; simpl; by rewrite decide_True).
    rewrite Hp, !ids_of_app, !length_app. lia.
  - apply Z.leb_le. rewrite Hcov, ScanHistory_commands_complete, (li_before _ _ _ Hl).
    rewrite ids_of_app, length_app. lia.
Qed.

(** The command lists of a counted call in the two modes. *)
Lemma sent_when (c : Command) :
  (if match m with Recorded => false | Fresh => true end then Some c else None) = sent_in m c.
Proof. by destruct m. Qed.

Lemma agrees_signal wid nm input : agrees (Workflow.SignalExternalWorkflow wid nm input) r r'.
Proof.
  unfold agrees. rewrite (do_call_signal_live _ (ScanHistory h)) by apply Hl.
  set (c := external_signal wid nm input r).
  set (e := mk CommandEvent.SignalExternalWorkflow wid ""). split.
  - eapply (live_sent h before r); [exact Hl|apply tracks_signalled, Hl|reflexivity|by intros []|
      reflexivity|reflexivity|done|done|by intros []|simpl; lia|simpl; lia|simpl; lia].
  - intros Hcov. rewrite do_call_signal. exists (signalled wid (sent_in m c) r').
    split; [|by apply sim_signalled].
    pose proof (sm_erase _ _ _ _ _ _ Hs) as He.
    replace (ext_signal_seq_ r') with (ext_signal_seq_ r) by (by apply erase_agree).
    replace (external_signal wid nm input r') with c by (by apply erase_agree).
    rewrite (sm_scan _ _ _ _ _ _ Hs), (ws_signals _ Hlater), <- (li_signals _ _ _ Hl).
    by rewrite (counted _ (signalled wid (Some c) r) e), sent_when.
Qed.

Lemma agrees_upsert attributes : agrees (Workflow.UpsertSearchAttributes attributes) r r'.
Proof.
  unfold agrees. rewrite (do_call_upsert_live _ (ScanHistory h)) by apply Hl.
  set (c := UpsertWorkflowSearchAttributes (ToProtoFields attributes)).
  set (e := mk CommandEvent.UpsertSearchAttributes "" ""). split.
  - eapply (live_sent h before r); [exact Hl|apply tracks_upserted, Hl|reflexivity|by intros []|
      reflexivity|reflexivity|done|done|by intros []|simpl; lia|simpl; lia|simpl; lia].
  - intros Hcov. rewrite do_call_upsert. exists (upserted (sent_in m c) r').
    split; [|by apply sim_upserted].
    replace (upsert_seq_ r') with (upsert_seq_ r)
      by (apply erase_agree; [done|apply (sm_erase _ _ _ _ _ _ Hs)]).
    rewrite (sm_scan _ _ _ _ _ _ Hs), (ws_upserts _ Hlater), <- (li_upserts _ _ _ Hl).
    by rewrite (counted _ (upserted (Some c) r) e), sent_when.
Qed.

(** A side effect returns the recorded value, or reads the world as the live run did. *)
Lemma agrees_side_effect : agrees SideEffect r r'.
Proof.
  unfold agrees. rewrite (do_call_side_effect_live _ (ScanHistory h)) by apply Hl.
  set (v := e_world env (reads_ r)). set (c := side_effect_marker (side_effect_seq_ r) v).
  assert (Hv : side_effect_of (echo c) = Some v) by apply side_effect_marker_value. split.
  - eapply (live_sent h before r); [exact Hl|apply tracks_took, Hl|reflexivity|by intros []|
      reflexivity|reflexivity|done|done|by intros []|simpl; lia|simpl; lia|rewrite Hv; simpl; lia].
  - intros Hcov. rewrite do_call_side_effect, (sm_scan _ _ _ _ _ _ Hs).
    exists (took (match m with Recorded => 0 | Fresh => 1 end) (sent_in m c) r').
    assert (He : side_effect_seq_ r' = side_effect_seq_ r)
      by (symmetry; apply erase_agree; [done|apply (sm_erase _ _ _ _ _ _ Hs)]).
    split; [|by apply sim_took]. rewrite He.
    pose proof (li_values _ _ _ Hl) as Hlen. pose proof (sm_reads _ _ _ _ _ _ Hs) as Hr.
    unfold Replay.covered in Hcov. destruct m; simpl in *.
    + destruct Hcov as [_ [rest Hvals]].
      assert (Hat : ps_side_effects later !! side_effect_seq_ r = Some v).
      { rewrite Hvals. unfold values_of, side_effects_of in *. simpl.
        rewrite omap_app. simpl. rewrite Hv, app_assoc, <- Hlen, <- app_assoc.
        by apply list_lookup_middle. }
      by rewrite Hat.
    + assert (Hat : ps_side_effects later !! side_effect_seq_ r = None).
      { apply lookup_ge_None_2. rewrite Hcov, <- Hlen. unfold values_of. rewrite length_app. lia. }
      rewrite Hat, Hworld, <- Hr by done. done.
Qed.

(** A future that is ready live is ready in the replay, with the same outcome. *)
Lemma agrees_get l : agrees (FutureGet l) r r'.
Proof.
  unfold agrees. simpl. unfold future_get, future.
  destruct (heap_ r !! l) as [s|] eqn:Hat; simpl;
    [|by split_and!].
  destruct (f_ready s) eqn:Hready; [|by split_and!].
  destruct (tr_heap _ _ (li_tracks _ _ _ Hl) _ _ Hat) as (k & id & -> & Hf).
  rewrite (erase_futures k _ _ (sm_erase _ _ _ _ _ _ Hs)) in Hf.
  pose proof (sm_futures _ _ _ _ _ _ Hs _ _ _ Hf) as Hat'.
  rewrite (ad_future _ _ Hadv) in Hat' by (by rewrite resolved_ready).
  assert (Hsame : do_call env' (FutureGet l) r' =
                  (r', future_get l r)).
  { simpl. unfold future_get, future. by rewrite Hat, Hat'. }
  unfold future_get, future in Hsame. rewrite Hat in Hsame. simpl in Hsame.
  rewrite Hready in Hsame. destruct (f_failed _); split; try done; intros _; by exists r'.
Qed.

(** A signal that is there live is there in the replay, at the same position. *)
Lemma agrees_receive name : agrees (Receive name) r r'.
Proof.
  unfold agrees. simpl. unfold TryConsumeSignal.
  pose proof (tr_signals _ _ (li_tracks _ _ _ Hl)) as Hsig.
  pose proof (ad_signals _ _ Hadv name) as [more Hmore].
  pose proof (sm_cursor _ _ _ _ _ _ Hs name) as Hcur.
  assert (Hsilent : forall n, live h before (r <| signal_cursor_ ::= <[name := n]> |>)).
  { intros n. eapply (live_silent h before r);
      [exact Hl|apply tracks_cursor, Hl|reflexivity|by intros []|reflexivity..]. }
  destruct (ps_signals (scan_ r) !! name) as [buffered|] eqn:Hb.
  - destruct (buffered !! default 0%nat (signal_cursor_ r !! name)) as [out|] eqn:Hout.
    + split; [by apply Hsilent|]. intros _.
      exists (r' <| signal_cursor_ ::= <[name := S (default 0%nat (signal_cursor_ r' !! name))]> |>).
      split; [|apply sim_cursor; [done|by rewrite Hcur]]. simpl.
      rewrite (sm_scan _ _ _ _ _ _ Hs), <- Hcur.
      rewrite Hsig in Hb. rewrite Hb in Hmore. simpl in Hmore.
      destruct (ps_signals later !! name) as [buffered'|] eqn:Hb'; simpl in Hmore.
      * rewrite Hmore, (lookup_app_l_Some _ _ _ _ Hout). done.
      * symmetry in Hmore. apply app_nil in Hmore as [-> _]. done.
    + split_and!; [by apply Hsilent|by apply sim_touch|]. simpl.
      by rewrite Hb, lookup_insert_eq.
  - split_and!; [done|done|]. simpl. by rewrite Hb.
Qed.

Lemma agrees_same c (a : answer c) :
  do_call env c r = (r, Answer (inr a)) -> do_call env' c r' = (r', Answer (inr a)) ->
  agrees c r r'.
Proof. unfold agrees. intros -> ->. split; [done|]. intros _. by exists r'. Qed.

Lemma agrees_vars c : (exists x v, c = SetVar x v) \/ (exists x, c = GetVar x) \/ c = GetInfo ->
  agrees c r r'.
Proof.
  pose proof (sm_erase _ _ _ _ _ _ Hs) as He. intros [(x & v & ->)|[[x ->]| ->]].
  - unfold agrees. simpl. split.
    + eapply (live_silent h before r);
        [exact Hl|apply tracks_vars, Hl|reflexivity|by intros []|reflexivity..].
    + intros _. exists (r' <| vars_ ::= <[x := v]> |>). split; [done|]. by apply sim_vars.
  - apply (agrees_same (GetVar x) (vars_ r !! x)); [done|]. simpl.
    by replace (vars_ r') with (vars_ r) by (by apply erase_agree).
  - apply (agrees_same GetInfo (info_ r)); [done|]. simpl.
    by replace (info_ r') with (info_ r) by (by apply erase_agree).
Qed.

Lemma do_call_agrees c : steady_call c = true -> calm (outbound_chain_ r) -> agrees c r r'.
Proof.
  intros Hst Hcalm. destruct (starts c r) as [[[k nm] cmd]|] eqn:Hk; [by eapply agrees_start|].
  destruct c; simplify_eq/=; eauto using agrees_get, agrees_receive, agrees_signal, agrees_upsert,
    agrees_side_effect; try (apply agrees_vars; eauto; fail).
  exfalso. destruct (outbound_chain_ r) as [o|]; simpl in *; [|done].
  destruct (Hcalm activity_type options input (wi_headers (info_ r))) as [hd Hhd].
  by rewrite Hhd in Hk.
Qed.
End Call.

Lemma covered_earlier r1 r2 : outputs_of [] r1 r2 -> covered r2 -> covered r1.
Proof.
  intros (dp & dc & Hp & Hc & _). unfold Replay.covered, values_of, side_effects_of.
  destruct m; [|done]. rewrite Hp, Hc, omap_app, !app_assoc.
  intros [H1 H2]. split; (etrans; [by apply prefix_app_r|done]).
Qed.

Lemma register_frame kind name handler r : same_frame r (register kind name handler r).
Proof. by destruct kind. Qed.

(** Running a steady body, live and in a replay, from the same point of it.  Where the
    live run parks, the replay gets there too, and goes on from there. *)
Definition runs_agree (s : run_state) (p : prog) (r' : WorkflowRunner) : Prop :=
  match s with
  | Finished r1 res =>
    covered r1 -> live h before r1 /\
      exists r1', interp env' p r' = Finished r1' res /\ sim r1 r1' /\ same_frame r' r1'
  | Parked r1 p1 =>
    covered r1 -> live h before r1 /\ steady p1 /\ (exists c k, p1 = Call c k /\ waits c r1) /\
      exists r1', interp env' p r' = interp env' p1 r1' /\ sim r1 r1' /\ same_frame r' r1'
  | Stuck => True
  end.

(** A first step of both runs. *)
Lemma runs_agree_step s p r' p2 r2' :
  interp env' p r' = interp env' p2 r2' -> same_frame r' r2' -> runs_agree s p2 r2' ->
  runs_agree s p r'.
Proof.
  intros Hi Hf. destruct s as [r1 res|r1 p1|]; simpl; [| |done]; rewrite Hi; intros Hrun Hcov.
  - destruct (Hrun Hcov) as (Hl & r1' & He & Hs & Hf'). split; [done|].
    exists r1'. split_and!; [done..|by etrans].
  - destruct (Hrun Hcov) as (Hl & Hp & Hw & r1' & He & Hs & Hf'). split_and!; [done..|].
    exists r1'. split_and!; [done..|by etrans].
Qed.

Lemma interp_agrees p r r' :
  steady p -> live h before r -> sim r r' -> calm (outbound_chain_ r) ->
  coro_done r = false -> coro_done r' = false -> runs_agree (interp env p r) p r'.
Proof.
  intros Hp. revert r r'.
  induction Hp as [v|e|c k Hc Hk IH|kind name handler k Hk IH]; intros r r' Hl Hs Hcalm Hd Hd'; simpl.
  - intros _. split; [done|]. by exists r'.
  - intros _. split; [done|]. by exists r'.
  - pose proof (do_call_agrees r r' Hl Hs Hd Hd' c Hc Hcalm) as Ha. unfold agrees in Ha.
    pose proof (do_call_frame env c r) as Hf. pose proof (do_call_frame env' c r') as Hf'.
    destruct (do_call env c r) as [r2 [a| |]]; simpl in Hf; [|clear IH|done].
    + destruct Ha as [Hl2 Hrep].
      assert (Hgo : forall r1, outputs_of [] r2 r1 -> covered r1 ->
                               runs_agree (interp env (k a) r2) (Call c k) r').
      { intros r1 Ho Hcov. destruct Hrep as (r2' & Hcall & Hs2); [by eapply covered_earlier|].
        rewrite Hcall in Hf'. simpl in Hf'.
        apply (runs_agree_step _ _ _ (k a) r2'); [simpl; by rewrite Hcall|done|].
        apply IH; [done|done| | |].
        - by destruct Hf as (?&?&?&?&?&?&?&?&?&?&?&?&->&_).
        - by rewrite (coro_done_frame _ _ Hf).
        - by rewrite (coro_done_frame _ _ Hf'). }
      pose proof (interp_outputs env (k a) r2) as Hout.
      destruct (interp env (k a) r2) as [r1 res|r1 p1|]; simpl in Hout; [| |done];
        intros Hcov; by apply (Hgo r1).
    + destruct Ha as (Hl2 & Hs2 & Hw). intros _.
      split_and!; [done|by constructor|by exists c, k|by exists r'].
  - apply (runs_agree_step _ _ _ k (register kind name handler r')); [done|apply register_frame|].
    apply IH; try (by destruct kind); [|by apply sim_register].
    destruct kind; (eapply (live_silent h before r);
      [exact Hl|apply tracks_register, Hl|reflexivity|by intros []|reflexivity..]).
Qed.
End Sim.
