(* ===== verification/RunnerTypes.v ===== *)
(** * The runner's futures are well typed

    The runner keeps its futures in one heap, and finds them through four tables of
    ids, the list of cancellation futures and the addresses the body holds.  [typed]
    is what these agree on: a table's id leads to a future of the table's sort and of
    that id, a future that is not ready holds nothing, only timers are cancelled.  Every
    way the task handler drives a runner keeps it. *)

From S2P Require Import Prelude Common Effects Determinism History Workflow Interceptors Runner RunnerFacts.
From S2P Require Import ReplaySpec Replay Reference.
Import CommandEvent.

(** ** Well-typed runners *)

Record typed_future (s : FutureState) : Prop := {
  tf_pending : f_ready s = false ->
    f_failed s = false /\ f_cancelled s = false /\ f_result s = [] /\
    f_failure_type s = "" /\ f_failure_message s = "";
  tf_cancelled : f_cancelled s = true -> f_op s = OpTimer;
  tf_signal : f_op s = OpTimer \/ f_op s = OpNone -> f_failed s = false /\ f_result s = []
}.

(** The address [l] holds a future of the operation [op]. *)
Definition points (op : Op) (l : loc) (r : WorkflowRunner) : Prop :=
  exists s, heap_ r !! l = Some s /\ f_op s = op.

Record typed (r : WorkflowRunner) : Prop := {
  ty_heap : Forall typed_future (heap_ r);
  ty_tables : forall k id l, futures_of k r !! id = Some l ->
    exists s, heap_ r !! l = Some s /\ f_op s = op_of k /\ f_op_id s = id;
  ty_cancel : Forall (fun l => points OpNone l r) (cancel_futures_ r);
  ty_cursor : forall name n, signal_cursor_ r !! name = Some n ->
    (n <= length (default [] (ps_signals (scan_ r) !! name)))%nat
}.

(** A relation on runners, so that it composes along operations. *)
Definition keeps_typed : relation WorkflowRunner := fun r r' => typed r -> typed r'.

#[export] Instance keeps_typed_preorder : PreOrder keeps_typed.
Proof. split; [by intros r Hr|]. intros a b c Hab Hbc Ha. by apply Hbc, Hab. Qed.

(** What [typed] does not look at. *)
Definition same_store : relation WorkflowRunner := fun r r' =>
  heap_ r' = heap_ r /\ (forall k, futures_of k r' = futures_of k r) /\
  cancel_futures_ r' = cancel_futures_ r /\ signal_cursor_ r' = signal_cursor_ r /\
  ps_signals (scan_ r') = ps_signals (scan_ r).

Lemma same_store_typed r r' : same_store r r' -> keeps_typed r r'.
Proof.
  intros (Hh & Hf & Hc & Hs & Hp) [T1 T2 T3 T4]. constructor.
  - by rewrite Hh.
  - intros k id l. rewrite Hf, Hh. apply T2.
  - rewrite Hc. unfold points. by rewrite Hh.
  - rewrite Hs, Hp. apply T4.
Qed.

Ltac same_store_leaf := apply same_store_typed; split_and!; [done|by intros []|done..].

(** ** Changing a future in place *)

(** [f] keeps what a future is, and the types of the futures it meets. *)
Definition retypes (op : Op) (f : FutureState -> FutureState) : Prop := forall s,
  f_op (f s) = f_op s /\ f_op_id (f s) = f_op_id s /\
  (typed_future s -> f_op s = op -> typed_future (f s)).

Lemma points_on_future op l l' f r :
  (forall s, f_op (f s) = f_op s) -> points op l r -> points op l (on_future l' f r).
Proof.
  intros Hf (s & Hl & Hs). unfold points, on_future. simpl.
  destruct (decide (l' = l)) as [->|Hne].
  - exists (f s). rewrite list_lookup_alter_eq, Hl, Hf. done.
  - exists s. by rewrite list_lookup_alter_ne.
Qed.

Lemma on_future_typed op l f r : retypes op f -> points op l r -> keeps_typed r (on_future l f r).
Proof.
  intros Hf (s0 & Hl0 & Hop) [T1 T2 T3 T4]. constructor; [| | |done].
  - apply Forall_lookup. intros l' s'. unfold on_future. simpl. rewrite Forall_lookup in T1.
    destruct (decide (l = l')) as [->|Hne]; [|rewrite list_lookup_alter_ne by done; apply T1].
    rewrite list_lookup_alter_eq, Hl0. intros [= <-].
    destruct (Hf s0) as (_ & _ & Ht). apply Ht; [by eapply T1|done].
  - intros k id l' Hk. destruct (T2 k id l') as (s & Hs & Hk1 & Hk2); [by destruct k|].
    unfold on_future. simpl. destruct (decide (l = l')) as [->|Hne].
    + exists (f s). rewrite list_lookup_alter_eq, Hs. destruct (Hf s) as (-> & -> & _). done.
    + exists s. by rewrite list_lookup_alter_ne.
  - change (cancel_futures_ (on_future l f r)) with (cancel_futures_ r).
    eapply Forall_impl; [exact T3|]. intros l' Hp. apply points_on_future; [|done].
    intros s. apply (Hf s).
Qed.

Lemma on_registered_typed k id f r :
  retypes (op_of k) f -> keeps_typed r (on_registered (futures_of k r) id f r).
Proof.
  intros Hf Ht. unfold on_registered. destruct (futures_of k r !! id) as [l|] eqn:Hl; [|done].
  destruct (ty_tables _ Ht _ _ _ Hl) as (s & Hs & Hop & _).
  apply (on_future_typed (op_of k)); [done|by exists s|done].
Qed.

Lemma retypes_ready op : retypes op (fun s => s <| f_ready := true |>).
Proof. intros s. split_and!; [done..|]. intros [T1 T2 T3] _. constructor; simpl; [done|apply T2|apply T3]. Qed.

Lemma retypes_cancelled : retypes OpTimer (fun s => s <| f_ready := true |> <| f_cancelled := true |>).
Proof. intros s. split_and!; [done..|]. intros [T1 T2 T3] Hs. constructor; simpl; [done|done|apply T3]. Qed.

Lemma retypes_resolved op failed result type message :
  op <> OpTimer -> op <> OpNone -> retypes op (resolve_future failed result type message).
Proof.
  intros Hn1 Hn2 s. split_and!; [done..|]. intros [T1 T2 T3] Hs.
  constructor; simpl; [done|apply T2|]. rewrite Hs. by intros [?|?].
Qed.

Lemma retypes_child_completed result :
  retypes OpChildWorkflow (fun s => s <| f_ready := true |> <| f_result := result |>).
Proof.
  intros s. split_and!; [done..|]. intros [T1 T2 T3] Hs.
  constructor; simpl; [done|apply T2|]. rewrite Hs. by intros [?|?].
Qed.

Lemma retypes_child_failed message type :
  retypes OpChildWorkflow (fun s => s <| f_ready := true |> <| f_failed := true |>
                                      <| f_failure_message := message |> <| f_failure_type := type |>).
Proof.
  intros s. split_and!; [done..|]. intros [T1 T2 T3] Hs.
  constructor; simpl; [done|apply T2|]. rewrite Hs. by intros [?|?].
Qed.

(** ** Allocating a future *)

Lemma alloc_typed s r : typed_future s -> keeps_typed r (fst (alloc s r)).
Proof.
  intros Hs [T1 T2 T3 T4]. constructor; simpl; [by apply Forall_app_2; [|constructor]| | |done].
  - intros k id l Hk. destruct (T2 k id l) as (s' & Hs' & ?); [by destruct k|].
    exists s'. split; [by apply lookup_app_l_Some|done].
  - eapply Forall_impl; [exact T3|]. intros l (s' & Hs' & ?). exists s'.
    split; [by apply lookup_app_l_Some|done].
Qed.

Lemma alloc_at s r : heap_ (fst (alloc s r)) !! length (heap_ r) = Some s.
Proof. simpl. by rewrite lookup_app_r, Nat.sub_diag. Qed.

Lemma typed_new_future op id :
  typed_future (new_future <| f_op := op |> <| f_op_id := id |>).
Proof. by constructor. Qed.

Lemma typed_outcome k id resolved failed result type message :
  k <> Tim -> typed_future (outcome_future (op_of k) id resolved failed result type message).
Proof.
  intros Hk. unfold outcome_future. destruct resolved; [|apply typed_new_future].
  constructor; simpl; [done|done|]. destruct k; simpl; try done; by intros [?|?].
Qed.

(** [m] allocates a future of sort [k] under the id [id]. *)
Definition allocates (k : sort) (id : string) (m : M loc) : Prop := forall r,
  keeps_typed r (fst (m r)) /\
  match snd (m r) with
  | inr l => exists s, heap_ (fst (m r)) !! l = Some s /\ f_op s = op_of k /\ f_op_id s = id
  | inl _ => True
  end.

Lemma allocates_alloc k id s :
  typed_future s -> f_op s = op_of k -> f_op_id s = id -> allocates k id (alloc s).
Proof.
  intros Hs Hk Hid r. split; [by apply alloc_typed|]. exists s. split; [apply alloc_at|done].
Qed.

Lemma allocates_after {A} k id (m : M A) (rest : A -> M loc) :
  respects keeps_typed m -> (forall a, allocates k id (rest a)) -> allocates k id (and_then m rest).
Proof.
  intros Hm Hrest r. unfold and_then. specialize (Hm r). destruct (m r) as [r1 [e|a]]; simpl in *.
  - done.
  - destruct (Hrest a r1) as [Hk Hp]. split; [by etrans|done].
Qed.

(** Entering the future in its table. *)
Lemma allocates_registered k id m (enter : loc -> WorkflowRunner -> WorkflowRunner) :
  allocates k id m ->
  (forall l r, heap_ (enter l r) = heap_ r /\ cancel_futures_ (enter l r) = cancel_futures_ r /\
     signal_cursor_ (enter l r) = signal_cursor_ r /\ scan_ (enter l r) = scan_ r /\
     forall k', futures_of k' (enter l r) = if decide (k' = k) then <[id := l]> (futures_of k r)
                                            else futures_of k' r) ->
  allocates k id (l <- m;; modify (enter l);;; ok l).
Proof.
  intros Hm He r. unfold and_then, modify, ok. destruct (Hm r) as [Hk Hp].
  destruct (m r) as [r1 [e|l]]; simpl in *; [done|].
  destruct (He l r1) as (Hh & Hc & Hs & Hsc & Hf). split; [|by rewrite Hh].
  etrans; [exact Hk|]. intros [T1 T2 T3 T4]. constructor.
  - by rewrite Hh.
  - intros k' id' l' Hl'. rewrite Hf in Hl'. rewrite Hh. case_decide as Hd; [|by eapply T2].
    subst k'. apply lookup_insert_Some in Hl' as [[-> ->]|[_ Hl']]; [done|by apply T2].
  - rewrite Hc. unfold points. by rewrite Hh.
  - rewrite Hs, Hsc. apply T4.
Qed.

(** ** Calls *)

(** [m] answers the address of a future of the operation [op]. *)
Definition allocating (op : Op) (m : M loc) : Prop := forall r,
  keeps_typed r (fst (m r)) /\
  match snd (m r) with inr l => points op l (fst (m r)) | inl _ => True end.

Lemma allocating_get k f (rest : string -> M loc) :
  (forall a, exists id, allocates k id (rest a)) -> allocating (op_of k) (a <- get f;; rest a).
Proof.
  intros Hr r. unfold and_then, get. destruct (Hr (f r)) as [id Hid].
  destruct (Hid r) as [Hk Hp]. split; [done|].
  destruct (snd (rest (f r) r)); [done|]. destruct Hp as (s & Hs & Ho & _). by exists s.
Qed.

Lemma outcome_future_ids op id resolved failed result type message :
  let s := outcome_future op id resolved failed result type message in f_op s = op /\ f_op_id s = id.
Proof. unfold outcome_future. by destruct resolved. Qed.

Ltac quiet_typed := respects_ops; intros ?; same_store_leaf.

Ltac allocates_step :=
  lazymatch goal with
  | |- allocates _ _ (and_then _ (fun l => and_then (modify _) (fun _ => ok l))) =>
    apply allocates_registered; [|by intros l r; split_and!; [done..|intros []]]
  | |- allocates _ _ (and_then _ _) => apply allocates_after; [quiet_typed|intros ?]
  | |- allocates _ _ (match ?x with _ => _ end) => destruct x
  | |- allocates _ _ (alloc _) =>
    apply allocates_alloc;
    [lazymatch goal with
     | |- context [outcome_future OpActivity] => by apply (typed_outcome Act)
     | |- context [outcome_future OpChildWorkflow] => by apply (typed_outcome Chi)
     | |- context [outcome_future OpNexusOperation] => by apply (typed_outcome Nex)
     | |- _ => first [by apply typed_new_future|by constructor]
     end
    |first [done|apply outcome_future_ids]..]
  end.

Lemma ScheduleActivity_allocating type input options :
  allocating OpActivity (ScheduleActivity type input options).
Proof. apply (allocating_get Act). intros id. exists id. repeat allocates_step. Qed.

Lemma StartTimer_allocating duration : allocating OpTimer (StartTimer duration).
Proof. apply (allocating_get Tim). intros id. exists id. repeat allocates_step. Qed.

Lemma StartChildWorkflow_allocating type input options :
  allocating OpChildWorkflow (StartChildWorkflow type input options).
Proof.
  apply (allocating_get Chi). intros auto_id.
  exists (if str_empty (co_id options) then auto_id else co_id options).
  apply allocates_after; [quiet_typed|intros _]. cbv zeta.
  generalize (if str_empty (co_id options) then auto_id else co_id options). intros id.
  repeat allocates_step.
Qed.

Lemma ScheduleNexusOperation_allocating endpoint service operation input timeout :
  allocating OpNexusOperation (ScheduleNexusOperation endpoint service operation input timeout).
Proof. apply (allocating_get Nex). intros id. exists id. repeat allocates_step. Qed.

Lemma AwaitCancellation_allocating : allocating OpNone AwaitCancellationFuture.
Proof.
  intros r. unfold AwaitCancellationFuture, and_then, get.
  destruct (IsCancelRequested r).
  - split; [by apply alloc_typed|]. eexists. split; [apply alloc_at|done].
  - set (r1 := fst (alloc new_future r)).
    assert (Hp : points OpNone (length (heap_ r)) r1) by (eexists; split; [apply alloc_at|done]).
    split; [|exact Hp]. etrans; [apply (alloc_typed new_future); by constructor|].
    fold r1. intros [T1 T2 T3 T4]. constructor; [done| | |done].
    + intros k id l Hk. apply (T2 k id l). by destruct k.
    + change (Forall (fun l => points OpNone l r1) (cancel_futures_ r1 ++ [length (heap_ r)])).
      apply Forall_app_2; [done|by constructor].
Qed.

(** Cancelling a timer resolves it; the other cancellations only ask the server. *)
Lemma CancelTimerFuture_typed l id r :
  points OpTimer l r -> keeps_typed r (fst (CancelTimerFuture l id r)).
Proof.
  intros Hl. unfold CancelTimerFuture, and_then, produce, EmitCancelTimer, emit, get, modify, ok.
  repeat case_match; simplify_eq;
    (etrans; [|eapply (on_future_typed OpTimer); [apply retypes_cancelled|exact Hl]]);
    same_store_leaf.
Qed.

Lemma Cancel_typed l : respects keeps_typed (Cancel l).
Proof.
  intros r. unfold Cancel, and_then, get. simpl. destruct (heap_ r !! l) as [s|] eqn:Hl; [|done].
  destruct (f_cancelled s); [done|]. destruct (f_op s) eqn:Hop; try done.
  - apply CancelTimerFuture_typed. by exists s.
  - generalize r. change (respects keeps_typed (CancelActivityFuture (f_op_id s))). quiet_typed.
  - generalize r. change (respects keeps_typed (request_cancel_external (f_op_id s) true)). quiet_typed.
Qed.

(** A cursor never runs past the signals there are. *)
Lemma TryConsumeSignal_typed name r : keeps_typed r (fst (TryConsumeSignal name r)).
Proof.
  unfold TryConsumeSignal. destruct (ps_signals (scan_ r) !! name) as [buffered|] eqn:Hb; [|done].
  assert (Hset : forall n, typed r -> (n <= length buffered)%nat ->
    typed (r <| signal_cursor_ ::= <[name := n]> |>)).
  { intros n [T1 T2 T3 T4] Hn. constructor; simpl; [done|intros k id l Hk; apply (T2 k id l); by destruct k|done|].
    intros name' n' [[<- <-]|[_ Hn']]%lookup_insert_Some; [by rewrite Hb|by apply T4]. }
  set (cursor := default 0%nat (signal_cursor_ r !! name)).
  assert (Hcur : typed r -> (cursor <= length buffered)%nat).
  { intros Ht. unfold cursor. destruct (signal_cursor_ r !! name) as [n|] eqn:Hc; simpl; [|lia].
    pose proof (ty_cursor _ Ht _ _ Hc) as Hle. by rewrite Hb in Hle. }
  destruct (buffered !! cursor) as [out|] eqn:Hout; intros Ht; simpl; apply Hset; auto.
  apply lookup_lt_Some in Hout. lia.
Qed.

(** The operation whose future a call answers with. *)
Definition call_op (c : call) : option Op :=
  match c with
  | ExecuteActivity _ _ _ => Some OpActivity
  | NewTimer _ => Some OpTimer
  | ExecuteChildWorkflow _ _ _ => Some OpChildWorkflow
  | ExecuteNexusOperation _ _ _ _ _ => Some OpNexusOperation
  | AwaitCancellation => Some OpNone
  | _ => None
  end.

(** An answer that is the address of a future, as an address. *)
Definition future_answered {c : call} (a : answer c) : option loc :=
  match c return answer c -> option loc with
  | ExecuteActivity _ _ _ | NewTimer _ | ExecuteChildWorkflow _ _ _
  | ExecuteNexusOperation _ _ _ _ _ | AwaitCancellation => fun l => Some l
  | _ => fun _ => None
  end a.

Section Calls.
Context `{Codec} (env : Env).

Lemma answering_allocating op m r :
  allocating op m ->
  keeps_typed r (fst (answering m r)) /\
  forall l, snd (answering m r) = Answer (inr l) -> points op l (fst (answering m r)).
Proof.
  intros Hm. destruct (Hm r) as [Hk Hp]. unfold answering. destruct (m r) as [r1 a]. simpl in *.
  split; [done|]. by intros l [= ->].
Qed.

#[local] Hint Resolve ScheduleActivity_allocating StartTimer_allocating
  StartChildWorkflow_allocating ScheduleNexusOperation_allocating AwaitCancellation_allocating : core.

Lemma answering_typed op m r : allocating op m -> keeps_typed r (fst (answering m r)).
Proof. intros Hm. by apply (answering_allocating op). Qed.

Lemma do_call_typed c r : keeps_typed r (fst (do_call env c r)).
Proof.
  destruct c as [| | | | | |l|name|name| | | | | | | | | | | | | | |x v];
    try solve [do_call_one same_store_leaf]; simpl.
  - destruct (_ && _); [done|]. eauto using answering_typed.
  - eauto using answering_typed.
  - eauto using answering_typed.
  - eauto using answering_typed.
  - apply answering_respects, Cancel_typed.
  - pose proof (TryConsumeSignal_typed name r) as Hs. by destruct (TryConsumeSignal name r) as [? []].
  - pose proof (TryConsumeSignal_typed name r) as Hs. by destruct (TryConsumeSignal name r).
  - eauto using answering_typed.
  - same_store_leaf.
Qed.

(** The address a call answers with holds a future of the call's operation. *)
Lemma do_call_answer c r a l :
  snd (do_call env c r) = Answer (inr a) -> future_answered a = Some l ->
  exists op, call_op c = Some op /\ points op l (fst (do_call env c r)).
Proof.
  destruct c; simpl; try done; intros Ha [= <-]; (eexists; split; [reflexivity|]);
    try (revert Ha; apply answering_allocating; by auto).
  destruct (_ && _); [done|]. revert Ha. by apply answering_allocating; auto.
Qed.

Lemma interp_typed p r : run_state_respects keeps_typed r (interp env p r).
Proof.
  apply interp_respects; [apply _|apply do_call_typed|].
  intros kind name h r'. destruct kind; same_store_leaf.
Qed.

Lemma finish_typed : finish_respects env keeps_typed.
Proof.
  split_and!; intros; [unfold finish_body; repeat case_match|..]; same_store_leaf.
Qed.
End Calls.

(** ** Events *)

(** The prescan may take in more signals. *)
Lemma scan_typed f r :
  (forall name, (length (default [] (ps_signals (scan_ r) !! name)) <=
                 length (default [] (ps_signals (f (scan_ r)) !! name)))%nat) ->
  keeps_typed r (r <| scan_ ::= f |>).
Proof.
  intros Hf [T1 T2 T3 T4]. constructor; [done| |done|].
  - intros k id l Hk. apply (T2 k id l). by destruct k.
  - intros name n Hn. simpl. etrans; [|apply Hf]. by apply T4.
Qed.

Lemma apply_signaled_typed name input r : keeps_typed r (apply_signaled name input r).
Proof.
  apply scan_typed. intros name'. unfold scan_signaled, at_key. simpl.
  destruct (decide (name = name')) as [<-|Hne]; [|by rewrite lookup_insert_ne].
  rewrite lookup_insert_eq. simpl. rewrite length_app. lia.
Qed.

Lemma apply_cancel_requested_typed r : keeps_typed r (apply_cancel_requested r).
Proof.
  unfold apply_cancel_requested. intros Ht.
  set (r1 := r <| scan_ ::= _ |>). assert (Ht1 : typed r1) by (by apply scan_typed).
  assert (Hsub : forall l, l ∈ cancel_futures_ r -> points OpNone l r1)
    by (pose proof (ty_cancel _ Ht1) as Hc; by rewrite Forall_forall in Hc).
  cut (typed (fold_left (fun r l => on_future l (fun s => s <| f_ready := true |>) r)
               (cancel_futures_ r) r1) /\
       forall l, points OpNone l r1 -> points OpNone l
         (fold_left (fun r l => on_future l (fun s => s <| f_ready := true |>) r)
            (cancel_futures_ r) r1)); [by intros []|].
  apply (fold_left_inv _ (fun r' => typed r' /\ forall l, points OpNone l r1 -> points OpNone l r'));
    [done|].
  intros r' l [Ht' Hp] Hl. split.
  - apply (on_future_typed OpNone); [apply retypes_ready|by apply Hp, Hsub|done].
  - intros l' Hl'. by apply points_on_future; [|apply Hp].
Qed.

Lemma resolve_activity_typed sched failed result type message r :
  keeps_typed r (ResolveActivity sched failed result type message r).
Proof.
  unfold ResolveActivity. case_match; [|done].
  by apply (on_registered_typed Act), retypes_resolved.
Qed.

Lemma resolve_nexus_typed sched failed result type message r :
  keeps_typed r (ResolveNexusOperation sched failed result type message r).
Proof.
  unfold ResolveNexusOperation. case_match; [|done].
  by apply (on_registered_typed Nex), retypes_resolved.
Qed.

Lemma ApplyEventToState_typed ev r : keeps_typed r (ApplyEventToState ev r).
Proof.
  unfold ApplyEventToState.
  destruct (event_body ev); try done;
    try apply resolve_activity_typed; try apply resolve_nexus_typed;
    try apply apply_signaled_typed; try apply apply_cancel_requested_typed.
  - by apply scan_typed.
  - apply scan_typed. intros name. unfold on_scheduled_activity. by case_match.
  - apply (on_registered_typed Tim), retypes_ready.
  - apply (on_registered_typed Tim), retypes_cancelled.
  - apply (on_registered_typed Chi), retypes_child_completed.
  - apply (on_registered_typed Chi), retypes_child_failed.
  - apply (on_registered_typed Chi), retypes_child_failed.
  - by apply scan_typed.
Qed.

Lemma ApplyEvents_typed h r : keeps_typed r (ApplyEvents h r).
Proof.
  apply (fold_left_inv _ (keeps_typed r)); [done|].
  intros r' ev Hr _. case_match; [done|]. etrans; [exact Hr|].
  etrans; [apply (ApplyEventToState_typed ev)|]. by apply scan_typed.
Qed.

(** ** Driving a runner *)

Section Driving.
Context `{Codec} (env : Env).

Lemma new_runner_typed info replaying ps fn input : typed (new_runner info replaying ps fn input).
Proof. constructor; simpl; [done|intros []; done|done|done]. Qed.

Lemma handler_typed h args r r' res :
  run_handler env h args r = Val (r', res) -> keeps_typed r r'.
Proof. apply run_handler_respects; [apply _|apply interp_typed]. Qed.

Lemma runner_step_typed r r' : runner_step env r r' -> keeps_typed r r'.
Proof.
  pose proof (interp_typed env) as Hi. pose proof (finish_typed env) as Hf.
  intros [r1 res Hr|h r1 Hr|n a r1 res Hr|n a r1 res Hr|n a r1 res Hr|t|].
  - eapply Run_respects; [apply _|exact Hi|exact Hf|apply ApplyEventToState_typed| |exact Hr].
    intros r2. unfold ensure_coroutine. case_match; same_store_leaf.
  - eapply ApplyAndResume_respects; [apply _|exact Hi|exact Hf|apply ApplyEvents_typed| |exact Hr].
    intros r2. same_store_leaf.
  - unfold RunQuery in Hr. case_match; simplify_eq; [by eapply handler_typed|done].
  - unfold RunUpdate in Hr. case_match; simplify_eq; [by eapply handler_typed|done].
  - unfold ValidateUpdate in Hr. case_match; simplify_eq; [by eapply handler_typed|done].
  - same_store_leaf.
  - unfold AbandonCoroutine. case_match; same_store_leaf.
Qed.

(** A moment of a runner's life to the next: a step of the task handler, or a call of
    the body (the states a step goes through). *)
Definition evolves (r r' : WorkflowRunner) : Prop :=
  runner_step env r r' \/ exists c, r' = fst (do_call env c r).

Lemma evolves_typed r r' : evolves r r' -> keeps_typed r r'.
Proof. intros [Hs|[c ->]]; [by apply runner_step_typed|apply do_call_typed]. Qed.

Lemma evolves_heap_le r r' : evolves r r' -> heap_le r r'.
Proof. intros [Hs|[c ->]]; [by eapply runner_step_heap_le|apply do_call_heap_le]. Qed.

Lemma rtc_evolves (R : relation WorkflowRunner) `{!PreOrder R} :
  (forall r r', evolves r r' -> R r r') -> forall r r', rtc evolves r r' -> R r r'.
Proof. intros HR r r'. induction 1 as [|r1 r2 r3 Hs _ IH]; [done|]. etrans; eauto. Qed.

(** C7: futures are well typed for the whole life of a runner.  However the task
    handler drives a runner it created - runs, continuations with any history, queries,
    updates, validators - and at every call of a body on the way, each table's ids lead
    to futures of the table's operation and of that id, a future that is not ready
    holds no result, failure or cancellation, only timers are ever cancelled and
    neither timers nor cancellation futures fail, and no signal cursor is past the
    signals received.  Every address a body is answered with when it starts an
    operation holds, from then on, a future of that operation. *)
Theorem runner_well_typed info replaying ps fn input (r r' : WorkflowRunner) :
  rtc evolves (new_runner info replaying ps fn input) r ->
  typed r /\
  forall c a l, snd (do_call env c r) = Answer (inr a) -> future_answered a = Some l ->
    rtc evolves (fst (do_call env c r)) r' ->
    exists op, call_op c = Some op /\ points op l r'.
Proof.
  intros Hr. split.
  - apply (rtc_evolves keeps_typed evolves_typed _ _ Hr), new_runner_typed.
  - intros c a l Ha Hl Hr'.
    destruct (do_call_answer env c r a l Ha Hl) as (op & Hop & s & Hs & Hsop).
    destruct (rtc_evolves heap_le evolves_heap_le _ _ Hr' l s Hs) as (s' & Hs' & _ & Ho & _).
    exists op. split; [done|]. exists s'. split; [done|congruence].
Qed.
End Driving.

(** After its first task the runner of [one_activity] holds the activity's future;
    starting a timer then answers the address of a timer's. *)
Lemma runner_well_typed_witness :
  let r := after_run ref_env (ref_runner false [started] one_activity) in
  typed r /\ exists l, activity_futures_ r !! "0" = Some l /\
  points OpTimer (S l) (fst (do_call ref_env (NewTimer 5) r)).
Proof.
  set (r := after_run ref_env (ref_runner false [started] one_activity)).
  assert (Hs : rtc (evolves ref_env) (ref_runner false [started] one_activity) r).
  { apply rtc_once. left. apply (step_run _ _ _ (inr tt)). vm_compute. reflexivity. }
  destruct (runner_well_typed ref_env _ _ _ _ _ r (fst (do_call ref_env (NewTimer 5) r)) Hs)
    as [Ht Hcall].
  split; [exact Ht|]. exists 0%nat. split; [vm_compute; reflexivity|].
  destruct (Hcall (NewTimer 5) 1%nat 1%nat) as (op & Hop & Hp);
    [vm_compute; reflexivity|reflexivity|apply rtc_refl|].
  injection Hop as <-. exact Hp.
Defined.
