(* ===== verification/StickyReplay.v ===== *)
(** * Sticky continuation and replay from scratch

    The life of a run, task after task ([lives]), and the theorem that its state and
    its answers are those of a replay of its history. *)

From S2P Require Import Prelude Common Effects Determinism History Workflow Interceptors Runner RunnerFacts.
From S2P Require Import Commands ReplaySpec Replay Reference.
Import CommandEvent.

(** ** From one task to the next *)

(** What the events of a task are to the list of commands: those of the answer. *)
Lemma quiet_command n b : quiet_event b = true -> event_command n b = None.
Proof. by destruct b. Qed.

Lemma resolution_command ps n b x : resolution ps b = Some x -> event_command n b = None.
Proof. by destruct b. Qed.

Lemma admissible_command ps n b : admissible ps b -> event_command n b = None.
Proof.
  intros [Hq|(k & id & s & Hr & _)]; [by apply quiet_command|by eapply resolution_command].
Qed.

Lemma command_nexus n b : event_command n b = None -> is_nexus_scheduled b = false.
Proof. by destruct b. Qed.

Lemma history_commands_none n h :
  Forall (fun ev => forall n, event_command n (event_body ev) = None) h -> history_commands n h = [].
Proof.
  intros Hall. revert n. induction Hall as [|ev h Hev Hall IH]; intros n; simpl; [done|].
  rewrite Hev, IH. done.
Qed.

Lemma all_admissible_commands ps h :
  all_admissible ps h -> Forall (fun ev => forall n, event_command n (event_body ev) = None) h.
Proof.
  revert ps. induction h as [|ev h IH]; intros ps; simpl; [constructor|]. intros [Ha Hh].
  constructor; [intros n; by eapply admissible_command|by eapply IH].
Qed.

(** Only the bodies of the events count. *)
Lemma history_commands_bodies n h1 h2 :
  event_body <$> h1 = event_body <$> h2 -> history_commands n h1 = history_commands n h2.
Proof.
  revert n h2. induction h1 as [|ev h1 IH]; intros n [|ev2 h2]; simpl; try done.
  intros [= -> Heq]. f_equal. by apply IH.
Qed.

Lemma delivered_commands ps h commands fresh :
  delivered ps commands fresh ->
  history_commands 0 (h ++ fresh) = history_commands 0 (h ++ (mkEvent 0 ∘ echo <$> commands)).
Proof.
  intros [_ (before & echoes & after & -> & Hb & He & Ha)].
  rewrite !history_commands_app. f_equal.
  set (n := 0 + _). rewrite (history_commands_none n before); simpl.
  2:{ eapply Forall_impl; [exact Hb|]. intros ev Hq n'. by apply quiet_command. }
  rewrite Z.add_0_r, (history_commands_none _ after), app_nil_r
    by (by eapply all_admissible_commands).
  apply history_commands_bodies. rewrite He, <- list_fmap_compose. done.
Qed.

Lemma command_side_effect b : (forall n, event_command n b = None) -> side_effect_of b = None.
Proof. intros Hn. specialize (Hn 0). by destruct b. Qed.

Lemma omap_none {A B} (f : A -> option B) (l : list A) : Forall (fun x => f x = None) l -> omap f l = [].
Proof. induction 1 as [|x l Hx Hl IH]; simpl; [done|]. by rewrite Hx. Qed.

Lemma delivered_side_effects ps commands fresh :
  delivered ps commands fresh ->
  omap (fun ev => side_effect_of (event_body ev)) fresh = side_effects_of commands.
Proof.
  intros [_ (before & echoes & after & -> & Hb & He & Ha)]. rewrite !omap_app.
  rewrite (omap_none _ before), (omap_none _ after), app_nil_r; simpl.
  - unfold side_effects_of. revert commands He. clear.
    induction echoes as [|ev echoes IH]; intros [|c commands]; simpl; try done.
    intros [= -> Heq]. specialize (IH _ Heq). by destruct (side_effect_of (echo c)); [f_equal|].
  - apply all_admissible_commands in Ha. eapply Forall_impl; [exact Ha|].
    intros ev Hn. by apply command_side_effect.
  - eapply Forall_impl; [exact Hb|]. intros ev Hq. apply command_side_effect.
    intros n. by apply quiet_command.
Qed.

(** Events change no future's identity. *)
Lemma erase_on_future f l r :
  (forall s, erase_future (f s) = erase_future s) ->
  erase_future <$> heap_ (on_future l f r) = erase_future <$> heap_ r.
Proof.
  intros Hf. simpl. generalize (heap_ r) as hp. intros hp. revert l.
  induction hp as [|s hp IH]; intros [|l]; simpl; try done; f_equal; [apply Hf|apply IH].
Qed.

Lemma erase_registered m id f r :
  (forall s, erase_future (f s) = erase_future s) ->
  erase_future <$> heap_ (on_registered m id f r) = erase_future <$> heap_ r.
Proof. intros Hf. unfold on_registered. case_match; [|done]. by apply erase_on_future. Qed.

Lemma erase_apply_event ev r :
  erase_future <$> heap_ (ApplyEventToState ev r) = erase_future <$> heap_ r.
Proof.
  unfold ApplyEventToState, ResolveActivity, ResolveNexusOperation, apply_timer_fired,
    apply_timer_canceled, apply_child_completed, apply_child_failed.
  repeat case_match; try reflexivity; try (by apply erase_registered).
  unfold apply_cancel_requested. apply (fold_left_inv _ (fun r' =>
    erase_future <$> heap_ r' = erase_future <$> heap_ r)); [done|].
  intros r' l Hr' _. rewrite <- Hr'. by apply erase_on_future.
Qed.

Lemma erase_apply_events h r :
  erase_future <$> heap_ (ApplyEvents h r) = erase_future <$> heap_ r.
Proof.
  unfold ApplyEvents. apply (fold_left_inv _ (fun r' =>
    erase_future <$> heap_ r' = erase_future <$> heap_ r)); [done|].
  intros r' ev Hr' _. case_match; [done|]. rewrite <- Hr'. apply erase_apply_event.
Qed.

(** ** A new runner enters its body *)

Section Entry.
Context `{Codec} (env : Env).

Definition inbound_head (fn : Payloads -> prog) : WorkflowInboundInterceptor :=
  chain_head (BuildWorkflowInboundChain (e_interceptors env) (RootWorkflowInbound fn)).

(** The body of a run, as the inbound chain wraps it. *)
Definition body_of (fn : Payloads -> prog) (ps : Prescan) : prog :=
  in_ExecuteWorkflow (inbound_head fn) (ps_input ps) (ps_headers ps).

(** The runner when its body is entered. *)
Definition entered (info : WorkflowInfo) (replaying : bool) (fn : Payloads -> prog) (ps : Prescan) :
    WorkflowRunner :=
  (new_runner info replaying ps fn (ps_input ps))
    <| coroutine_ := Created |> <| resumes_ := 1%nat |>
    <| outbound_chain_ := Some (in_Init (inbound_head fn) RootWorkflowOutbound) |>.

Definition replay_of (info : WorkflowInfo) (replaying : bool) (fn : Payloads -> prog) (h : History) :
    outcome (WorkflowRunner * result unit) :=
  Run env (new_runner info replaying (ScanHistory h) fn (ps_input (ScanHistory h))).

Lemma Run_entered info replaying fn ps :
  Run env (new_runner info replaying ps fn (ps_input ps)) =
  match resume_with env (body_of fn ps) (entered info replaying fn ps) with
  | Val r => ReapplyHistoricalUpdates env r
  | Hang => Hang
  | UB => UB
  end.
Proof. reflexivity. Qed.

Lemma resume_with_scan p r r' : resume_with env p r = Val r' -> scan_ r' = scan_ r.
Proof.
  unfold resume_with. pose proof (interp_frame env p r) as Hf.
  destruct (interp env p r) as [r1 res|r1 p1|]; [| |done]; simpl in Hf; intros [= <-].
  - replace (scan_ (finish_body env res r1)) with (scan_ r1); [by apply Hf|].
    unfold finish_body. by repeat case_match.
  - by apply Hf.
Qed.

(** Without updates in the history there is nothing to re-apply. *)
Lemma Run_proper info replaying fn h :
  ps_post_update_timeline (ScanHistory h) = [] ->
  replay_of info replaying fn h =
  match resume_with env (body_of fn (ScanHistory h)) (entered info replaying fn (ScanHistory h)) with
  | Val r => Val (r, inr tt)
  | Hang => Hang
  | UB => UB
  end.
Proof.
  intros Ht. unfold replay_of. rewrite Run_entered.
  destruct (resume_with _ _ _) as [r| |] eqn:Hr; try done.
  unfold ReapplyHistoricalUpdates. apply resume_with_scan in Hr. rewrite Hr. simpl. by rewrite Ht.
Qed.
End Entry.

(** ** The life of a run *)

(** [env] as a replay sees it: the world answers its reads as it answered the live
    run's from the [n]th on; nothing overruns. *)
Definition replay_env (env : Env) (n : nat) : Env :=
  {| e_world := fun i => e_world env (n + i)%nat; e_overruns := e_overruns env;
     e_local_activity_resolver := e_local_activity_resolver env;
     e_interceptors := e_interceptors env; e_failure_converter := e_failure_converter env |}.

Section Lives.
Context `{Codec, !CodecLaws _} (env : Env) (info : WorkflowInfo) (fn : Payloads -> prog).

(** A workflow whose body is steady under the worker's interceptors, which do not make
    scheduling fail. *)
Definition steady_workflow : Prop :=
  (forall input header, steady (in_ExecuteWorkflow (inbound_head env fn) input header)) /\
  calm (Some (in_Init (inbound_head env fn) RootWorkflowOutbound)).

(** [lives h r before reads]: a worker has processed the history [h] in one or more
    tasks and keeps the runner [r]; [before] is what the body produced and [reads] how
    often it read the world before the last of them. *)
Inductive lives : History -> WorkflowRunner -> list CommandEvent -> nat -> Prop :=
| lives_first h replaying r :
    opening h -> replay_of env info replaying fn h = Val (r, inr tt) -> lives h r [] 0
| lives_next h r before reads fresh r' :
    lives h r before reads -> coro_done r = false ->
    delivered (ScanHistory h) (commands_ r) fresh ->
    ApplyAndResume env fresh r = Val r' ->
    lives (h ++ fresh) r' (before ++ produced_commands_ r) (reads_ r).

(** What can be observed of a runner. *)
Record same_run (r r' : WorkflowRunner) : Prop := {
  sr_coroutine : coroutine_ r = coroutine_ r';
  sr_status : status_ r = status_ r';
  sr_result : result_ r = result_ r';
  sr_failure : failure_ r = failure_ r';
  sr_continue : continue_as_new_ r = continue_as_new_ r';
  sr_futures : heap_ r = heap_ r';
  sr_vars : vars_ r = vars_ r';
  sr_queries : query_handlers_ r = query_handlers_ r';
  sr_updates : update_handlers_ r = update_handlers_ r';
  sr_validators : update_validators_ r = update_validators_ r';
  sr_commands : commands_ r = commands_ r'
}.

(** ** Live runs by themselves *)

(** A replay state that follows [r], whatever [r] is. *)
Definition mirror (h : History) (before : list CommandEvent) (r : WorkflowRunner) : WorkflowRunner :=
  r <| scan_ := ScanHistory h |> <| produced_commands_ ::= app before |> <| reads_ := 0%nat |>.

Lemma mirror_sim h before r :
  live h before r -> sim Fresh before (ScanHistory h) (reads_ r) r (mirror h before r).
Proof.
  intros Hl. constructor; [reflexivity|done|reflexivity| |reflexivity|reflexivity|simpl; lia].
  intros []; [apply (tr_futures _ _ (li_tracks _ _ _ Hl) Act)
             |apply (tr_futures _ _ (li_tracks _ _ _ Hl) Tim)
             |apply (tr_futures _ _ (li_tracks _ _ _ Hl) Chi)
             |apply (tr_futures _ _ (li_tracks _ _ _ Hl) Nex)].
Qed.

Lemma interp_live h before p r :
  proper_history h -> steady p -> live h before r -> calm (outbound_chain_ r) ->
  coro_done r = false ->
  match interp env p r with
  | Finished r1 _ => live h before r1
  | Parked r1 p1 => live h before r1 /\ steady p1 /\ exists c k, p1 = Call c k /\ waits c r1
  | Stuck => False
  end.
Proof.
  intros Hh Hp Hl Hcalm Hd.
  pose proof (interp_agrees h before (ScanHistory h) Fresh (reads_ r) Hh
    (proper_history_well_scanned _ Hh) (reflexivity _) env (replay_env env (reads_ r))
    ltac:(done) p r (mirror h before r) Hp Hl (mirror_sim _ _ _ Hl) Hcalm Hd Hd) as Hi.
  pose proof (interp_not_stuck env p r Hd) as Hns.
  destruct (interp env p r) as [r1 res|r1 p1|]; simpl in Hi; [| |done].
  - by destruct (Hi eq_refl).
  - destruct (Hi eq_refl) as (? & ? & ? & _). done.
Qed.

(** The replay of the current task parks where the live run does. *)
Lemma parks env' h before reads0 c k r r' :
  live h before r -> sim Fresh before (ScanHistory h) reads0 r r' -> waits c r ->
  exists r'', interp env' (Call c k) r' = Parked r'' (Call c k) /\
              sim Fresh before (ScanHistory h) reads0 r r''.
Proof.
  intros Hl Hs Hw. destruct c as [| | | | |l| |nm0| | | | | | | | | | | | | | | |]; simpl in Hw;
    try done; simpl.
  - exists r'. split; [|done]. unfold future_get.
    assert (f_ready (future r' l) = false) as ->; [|done].
    unfold future in *. destruct (heap_ r !! l) as [s|] eqn:Hat; simpl in Hw.
    + destruct (tr_heap _ _ (li_tracks _ _ _ Hl) _ _ Hat) as (k0 & id & -> & Hf).
      rewrite (erase_futures k0 _ _ (sm_erase _ _ _ _ _ _ Hs)) in Hf.
      by rewrite (sm_futures _ _ _ _ _ _ Hs _ _ _ Hf).
    + apply lookup_ge_None in Hat. rewrite (erase_heap_length _ _ (sm_erase _ _ _ _ _ _ Hs)) in Hat.
      by apply lookup_ge_None in Hat as ->.
  - unfold TryConsumeSignal. rewrite (sm_scan _ _ _ _ _ _ Hs), <- (sm_cursor _ _ _ _ _ _ Hs nm0).
    rewrite <- (tr_signals _ _ (li_tracks _ _ _ Hl)).
    destruct (ps_signals (scan_ r) !! nm0) as [buffered|]; simpl in Hw; [|by exists r'].
    rewrite Hw. eexists. split; [reflexivity|].
    (* the cursor entry it may create *)
    destruct Hs as [He Hc Hsc Hf Hp Hm Hr].
    constructor; [exact He| |exact Hsc| |exact Hp|exact Hm|exact Hr].
    + intros nm. simpl. destruct (decide (nm = nm0)) as [->|Hne].
      * by rewrite lookup_insert_eq.
      * by rewrite lookup_insert_ne.
    + intros []; [apply (Hf Act)|apply (Hf Tim)|apply (Hf Chi)|apply (Hf Nex)].
Qed.

(** ** The invariant of a run's life *)

(** The last task's run began at [p0] in [r0], and every replay of a longer history
    gets there too, in a state that follows [r0]. *)
Record started_from (h : History) (before : list CommandEvent) (reads : nat)
    (p0 : prog) (r0 : WorkflowRunner) : Prop := {
  sf_steady : steady p0;
  sf_live : live h before r0;
  sf_calm : calm (outbound_chain_ r0);
  sf_running : coro_done r0 = false;
  sf_unbounded : deadlock_timeout_ r0 = 0;
  sf_reads : reads_ r0 = reads;
  sf_nothing_sent : commands_ r0 = [];
  sf_replays : forall m later replaying env',
    e_interceptors env' = e_interceptors env ->
    well_scanned later -> advances (ScanHistory h) later ->
    ps_input later = ps_input (ScanHistory h) -> ps_headers later = ps_headers (ScanHistory h) ->
    before `prefix_of` ps_commands later ->
    ps_side_effects (ScanHistory h) `prefix_of` ps_side_effects later ->
    exists r0', interp env' (body_of env' fn later) (entered env' info replaying fn later) =
                interp env' p0 r0' /\
                sim m before later reads r0 r0' /\ coro_done r0' = false
}.

Lemma opening_proper h : opening h -> proper_history h /\ history_commands 0 h = [] /\
  omap (fun ev => side_effect_of (event_body ev)) h = [].
Proof.
  intros (ev0 & rest & type & input & header & -> & H0 & Hq).
  assert (Hn : Forall (fun ev => forall n, event_command n (event_body ev) = None) (ev0 :: rest)).
  { constructor; [by rewrite H0|]. eapply Forall_impl; [exact Hq|].
    intros ev Hev n. by apply quiet_command. }
  split_and!.
  - exists ev0, rest, type, input, header. split_and!; [done..|].
    apply all_proper_always. eapply Forall_impl; [exact Hq|]. intros ev Hev. by left.
  - by apply history_commands_none.
  - apply omap_none. eapply Forall_impl; [exact Hn|]. intros ev Hev. by apply command_side_effect.
Qed.

Lemma proper_side_effects h :
  proper_history h ->
  ps_side_effects (ScanHistory h) = omap (fun ev => side_effect_of (event_body ev)) h.
Proof.
  intros Hh. rewrite ScanHistory_scan1 by (by apply proper_history_no_update).
  by rewrite scan_all_side_effects.
Qed.

Lemma proper_timeline h : proper_history h -> ps_post_update_timeline (ScanHistory h) = [].
Proof.
  intros Hh. pose proof (proper_history_no_update h Hh) as Hn.
  destruct Hh as (ev0 & rest & type & input & header & -> & H0 & Hr).
  rewrite ScanHistory_scan1 by done. simpl.
  destruct (scan_all_input _ _ Hr) as (_ & _ & ->).
  unfold scan1. destruct ev0 as [n b]. simpl in H0. by subst b.
Qed.

(** The entered runner, before the body did anything. *)
Lemma entered_sim m replaying replaying' ps later env' :
  e_interceptors env' = e_interceptors env ->
  ps_input later = ps_input ps -> ps_headers later = ps_headers ps ->
  sim m [] later 0 (entered env info replaying fn ps) (entered env' info replaying' fn later).
Proof.
  intros Hi Hin Hhd.
  constructor; [|done|reflexivity|by intros []|reflexivity|by destruct m|by destruct m].
  unfold entered, inbound_head, erase, new_runner. simpl. by rewrite Hi, Hin, Hhd.
Qed.

Lemma entered_live h replaying :
  opening h -> live h [] (entered env info replaying fn (ScanHistory h)).
Proof.
  intros Ho. destruct (opening_proper h Ho) as (Hh & Hc & Hse).
  pose proof (proper_history_well_scanned h Hh) as Hws.
  assert (Hnone : forall k id, recorded (ScanHistory h) k id = false).
  { intros k id. rewrite (ws_recorded _ Hws), ScanHistory_commands_complete, Hc.
    apply bool_decide_eq_false_2, not_elem_of_nil. }
  assert (Hvals : ps_side_effects (ScanHistory h) = []) by (by rewrite proper_side_effects).
  constructor; try done; [| |by intros []|by rewrite app_nil_r|].
  - constructor; try done; try (by intros []).
    + simpl. rewrite (ws_signals _ Hws), ScanHistory_commands_complete, Hc. simpl. lia.
    + simpl. rewrite (ws_upserts _ Hws), ScanHistory_commands_complete, Hc. simpl. lia.
    + simpl. by rewrite Hvals.
  - by intros [].
  - unfold values_of. by rewrite Hvals.
Qed.

Lemma first_started_from h replaying :
  steady_workflow -> opening h ->
  started_from h [] 0 (body_of env fn (ScanHistory h)) (entered env info replaying fn (ScanHistory h)).
Proof.
  intros [Hst Hcalm] Ho. constructor; try done; [apply Hst|by apply entered_live|].
  intros m later replaying' env' Hi Hws Hadv Hin Hhd Hb Hs.
  eexists. split_and!; [|by apply (entered_sim m replaying replaying' (ScanHistory h))|done].
  unfold body_of, inbound_head. by rewrite Hi, Hin, Hhd.
Qed.
(** ** The next task *)

Lemma finish_done res r : coro_done (finish_body env res r) = true.
Proof. unfold finish_body. by repeat case_match. Qed.

Lemma tracks_coroutine ps r c : tracks ps r -> tracks ps (r <| coroutine_ := c |>).
Proof. intros []. constructor; try done; by intros []; eauto. Qed.

Lemma tracks_resumes ps r : tracks ps r -> tracks ps (r <| resumes_ ::= S |>).
Proof. intros []. constructor; try done; by intros []; eauto. Qed.

Section Next.
Context (h : History) (before : list CommandEvent) (fresh : History).
Context (r1 : WorkflowRunner) (p1 : prog).
Hypothesis (Hh : proper_history h) (Hl : live h before r1).
Hypothesis Hdel : delivered (ScanHistory h) (commands_ r1) fresh.

Let before' := before ++ produced_commands_ r1.

(** The runner once the events of the task are applied. *)
Definition applied : WorkflowRunner :=
  (ApplyEvents fresh (clear_commands (r1 <| coroutine_ := Suspended p1 |>))) <| resumes_ ::= S |>.

Lemma fresh_proper : proper_history (h ++ fresh) /\
  ScanHistory (h ++ fresh) = fold_left scan1 fresh (ScanHistory h) /\
  all_proper (ScanHistory h) fresh.
Proof.
  assert (Hp : all_proper (ScanHistory h) fresh)
    by (eapply delivered_proper; [apply (li_starting _ _ _ Hl)|exact Hdel]).
  by destruct (proper_history_app h fresh Hh Hp).
Qed.

Lemma fresh_commands : history_commands 0 (h ++ fresh) = before'.
Proof. by rewrite (delivered_commands _ _ _ _ Hdel), (li_commands _ _ _ Hl). Qed.

Lemma fresh_values : ps_side_effects (ScanHistory (h ++ fresh)) = values_of h r1.
Proof.
  destruct fresh_proper as (_ & -> & _).
  by rewrite scan_all_side_effects, (delivered_side_effects _ _ _ Hdel).
Qed.

Lemma fresh_nexus : ps_nexus_ops_scheduled (ScanHistory (h ++ fresh)) = nexus_seq_ r1.
Proof.
  destruct fresh_proper as (Hp & _ & _).
  rewrite (ws_nexus _ (proper_history_well_scanned _ Hp)), ScanHistory_commands_complete, fresh_commands.
  by apply (live_nexus h).
Qed.

Lemma applied_frame : exists sc hp,
  applied = r1 <| coroutine_ := Suspended p1 |> <| commands_ := [] |> <| produced_commands_ := [] |>
               <| scan_ := sc |> <| heap_ := hp |> <| resumes_ ::= S |>.
Proof.
  unfold applied. destruct (ApplyEvents_event_frame fresh
    (clear_commands (r1 <| coroutine_ := Suspended p1 |>))) as (sc & hp & ->). by exists sc, hp.
Qed.

Lemma applied_tracks : tracks (ScanHistory (h ++ fresh)) applied.
Proof.
  destruct fresh_proper as (_ & Hscan & Hp). pose proof fresh_nexus as Hnx.
  rewrite Hscan in *. apply tracks_resumes, ApplyEvents_tracks; [|done|apply Hdel| |].
  - by apply proper_history_well_scanned.
  - apply clear_commands_tracks, tracks_coroutine, Hl.
  - simpl. lia.
Qed.

Lemma applied_live : live (h ++ fresh) before' applied.
Proof.
  pose proof applied_tracks as Ht. pose proof fresh_values as Hv.
  destruct applied_frame as (sc & hp & Hap). rewrite Hap in *.
  destruct Hl as [_ Hb Hids Hseq Hsig Hups Hstart Hcmd Hval].
  constructor.
  - exact Ht.
  - apply fresh_commands.
  - intros k. simpl. rewrite app_nil_r.
    destruct k; [apply (Hids Act)|apply (Hids Tim)|apply (Hids Chi)|apply (Hids Nex)].
  - intros k. destruct k; [apply (Hseq Act)|apply (Hseq Tim)|apply (Hseq Chi)|apply (Hseq Nex)].
  - simpl. by rewrite app_nil_r.
  - simpl. by rewrite app_nil_r.
  - constructor.
  - simpl. rewrite !app_nil_r. apply fresh_commands.
  - unfold values_of at 1. simpl. by rewrite Hv, app_nil_r.
Qed.

Lemma applied_futures : erase_future <$> heap_ applied = erase_future <$> heap_ r1.
Proof. exact (erase_apply_events fresh (clear_commands (r1 <| coroutine_ := Suspended p1 |>))). Qed.

(** The replay that followed the last task follows this one. *)
Lemma applied_sim m later reads0 r1' :
  sim Recorded before later reads0 r1 r1' -> sim m before' later (reads_ r1) applied r1'.
Proof.
  intros [He Hc Hs Hf Hp Hm Hr].
  assert (Hera : erase applied = erase r1).
  { pose proof applied_futures as Heh. destruct applied_frame as (sc & hp & Hap).
    rewrite Hap in Heh |- *. simpl in Heh. unfold erase. simpl. rewrite Heh. reflexivity. }
  destruct applied_frame as (sc & hp & Hap).
  constructor; [by rewrite Hera|by rewrite Hap|done|done| | |].
  - rewrite Hap. simpl. by rewrite app_nil_r.
  - rewrite Hap. by destruct m.
  - rewrite Hap. destruct m; [done|]. simpl. lia.
Qed.

Lemma resume_applied :
  deadlock_timeout_ applied = 0 ->
  ApplyAndResume env fresh (r1 <| coroutine_ := Suspended p1 |>) = resume_with env p1 applied.
Proof.
  unfold applied, ApplyAndResume.
  pose proof (ApplyEvents_event_frame fresh (clear_commands (r1 <| coroutine_ := Suspended p1 |>)))
    as (sc & hp & Hap).
  set (r2 := ApplyEvents fresh _) in *.
  assert (Hc : coroutine_ r2 = Suspended p1) by (by rewrite Hap).
  clearbody r2. clear Hap. intros Hz. change (deadlock_timeout_ r2 = 0) in Hz.
  rewrite Hc. unfold ResumeCoroutine, overran.
  change (coroutine_ (r2 <| resumes_ ::= S |>)) with (coroutine_ r2).
  change (deadlock_timeout_ (r2 <| resumes_ ::= S |>)) with (deadlock_timeout_ r2).
  by rewrite Hc, Hz.
Qed.

Lemma applied_advances :
  advances (ScanHistory h) (ScanHistory (h ++ fresh)) /\
  ps_input (ScanHistory (h ++ fresh)) = ps_input (ScanHistory h) /\
  ps_headers (ScanHistory (h ++ fresh)) = ps_headers (ScanHistory h).
Proof.
  destruct fresh_proper as (_ & -> & Hp).
  destruct (scan_all _ _ (proper_history_well_scanned _ Hh) Hp) as [_ Ha].
  by destruct (scan_all_input _ _ Hp) as (-> & -> & _).
Qed.

(** From the start of one task to the start of the next. *)
Lemma next_started_from reads p0 r0 :
  started_from h before reads p0 r0 -> interp env p0 r0 = Parked r1 p1 ->
  started_from (h ++ fresh) before' (reads_ r1) p1 applied.
Proof.
  intros [Hst Hl0 Hcalm Hrun Hub _ _ Hrep] Hi.
  pose proof (interp_frame env p0 r0) as Hf. rewrite Hi in Hf. simpl in Hf.
  pose proof (interp_live h before p0 r0 Hh Hst Hl0 Hcalm Hrun) as Hil. rewrite Hi in Hil.
  destruct Hil as (_ & Hp1 & _). destruct applied_frame as (sc & hp & Hap).
  constructor; [done|apply applied_live|rewrite Hap; simpl..|].
  - by destruct Hf as (?&?&?&?&?&?&?&?&?&?&?&?&->&_).
  - done.
  - by destruct Hf as (?&?&->&_).
  - done.
  - done.
  - intros m later replaying env' He Hws Hadv Hin Hhd Hb Hs.
    destruct applied_advances as (Hadv' & Hin' & Hhd'). rewrite fresh_values in Hs.
    destruct (Hrep Recorded later replaying env') as (r0' & Hi' & Hsim & Hd); try done; try congruence.
    { by etrans. } { etrans; [by apply prefix_app_r|exact Hb]. }
    { etrans; [|exact Hs]. by apply prefix_app_r. }
    pose proof (interp_agrees h before later Recorded reads Hh Hws ltac:(by etrans) env env'
      ltac:(done) p0 r0 r0' Hst Hl0 Hsim Hcalm Hrun Hd) as Hag.
    rewrite Hi in Hag. destruct Hag as (_ & _ & _ & r1' & Hi1 & Hsim1 & Hf1); [by split|].
    exists r1'. split_and!; [by rewrite Hi'| |by rewrite (coro_done_frame _ _ Hf1)].
    by eapply applied_sim.
Qed.
End Next.

(** Where a run that lives is: at the end of the task that [started_from] describes. *)
Lemma lives_started h r before reads :
  steady_workflow -> lives h r before reads ->
  exists p0 r0, proper_history h /\ started_from h before reads p0 r0 /\
                resume_with env p0 r0 = Val r.
Proof.
  intros Hst. induction 1 as [h replaying r Ho Hr|h r before reads fresh r' _ IH Hd Hdel Ha].
  - destruct (opening_proper h Ho) as (Hh & _). eexists _, _.
    split_and!; [done|by apply (first_started_from h replaying)|].
    rewrite Run_proper in Hr by (by apply proper_timeline).
    destruct (resume_with _ _ _); [by injection Hr as ->|done..].
  - destruct IH as (p0 & r0 & Hh & Hsf & Hr). unfold resume_with in Hr.
    destruct (interp env p0 r0) as [r1 res|r1 p1|] eqn:Hi; simplify_eq.
    { by rewrite finish_done in Hd. }
    pose proof (interp_live h before p0 r0 Hh (sf_steady _ _ _ _ _ Hsf) (sf_live _ _ _ _ _ Hsf)
      (sf_calm _ _ _ _ _ Hsf) (sf_running _ _ _ _ _ Hsf)) as Hil.
    rewrite Hi in Hil. destruct Hil as (Hl & _ & _).
    pose proof (next_started_from h before fresh r1 p1 Hh Hl Hdel reads p0 r0 Hsf Hi) as Hnext.
    destruct (fresh_proper h before fresh r1 Hh Hl Hdel) as (Hp & _ & _).
    exists p1, (applied fresh r1 p1). split_and!; [done|exact Hnext|].
    rewrite <- Ha. symmetry. apply resume_applied, (sf_unbounded _ _ _ _ _ Hnext).
Qed.

(** ** The two runs compared *)

Lemma sim_heap h before reads0 r r' :
  live h before r -> sim Fresh before (ScanHistory h) reads0 r r' -> heap_ r = heap_ r'.
Proof.
  intros Hl Hs. pose proof (sm_erase _ _ _ _ _ _ Hs) as He. apply list_eq. intros l.
  destruct (heap_ r !! l) as [s|] eqn:Hat.
  - destruct (tr_heap _ _ (li_tracks _ _ _ Hl) _ _ Hat) as (k & id & -> & Hf).
    rewrite (erase_futures k _ _ He) in Hf. by rewrite (sm_futures _ _ _ _ _ _ Hs _ _ _ Hf).
  - apply lookup_ge_None in Hat. rewrite (erase_heap_length _ _ He) in Hat.
    symmetry. by apply lookup_ge_None.
Qed.

Lemma sim_same_run h before reads0 c r r' :
  live h before r -> sim Fresh before (ScanHistory h) reads0 r r' ->
  same_run (r <| coroutine_ := c |>) (r' <| coroutine_ := c |>).
Proof.
  intros Hl Hs. pose proof (sim_heap _ _ _ _ _ Hl Hs) as Hh.
  pose proof (sm_erase _ _ _ _ _ _ Hs) as He. pose proof (sm_commands _ _ _ _ _ _ Hs) as Hc.
  constructor; simpl; [reflexivity|..|exact (eq_sym Hc)]; try (exact Hh);
    apply erase_agree; [reflexivity|exact He|reflexivity|exact He|reflexivity|exact He
      |reflexivity|exact He|reflexivity|exact He|reflexivity|exact He|reflexivity|exact He
      |reflexivity|exact He].
Qed.

Lemma finish_same_run res r r' :
  same_run (r <| coroutine_ := NoCoroutine |>) (r' <| coroutine_ := NoCoroutine |>) ->
  same_run (finish_body env res r) (finish_body env res r').
Proof.
  intros [_ Hst Hr Hf Hcn Hh Hv Hq Hu Hva Hc]. simpl in *. unfold finish_body.
  destruct res as [[]|]; simpl; constructor; simpl; congruence.
Qed.

Lemma finish_produced_after before res r r' :
  status_ r = status_ r' -> produced_commands_ r' = before ++ produced_commands_ r ->
  produced_commands_ (finish_body env res r') =
  before ++ produced_commands_ (finish_body env res r).
Proof.
  intros Hst Hp. unfold finish_body.
  destruct res as [[]|]; simpl; rewrite ?Hp, ?Hst, ?app_assoc; reflexivity.
Qed.

(** The replay of a run that lives ends where the run is. *)
Lemma lives_replayed h r before reads replaying :
  steady_workflow -> lives h r before reads ->
  exists r', replay_of (replay_env env reads) info replaying fn h = Val (r', inr tt) /\
    same_run r r' /\ produced_commands_ r' = before ++ produced_commands_ r /\
    ps_commands (scan_ r') = before.
Proof.
  intros Hw Hlives. destruct (lives_started h r before reads Hw Hlives) as (p0 & r0 & Hh & Hsf & Hr).
  destruct Hsf as [Hst Hl Hcalm Hrun _ _ _ Hrep]. set (env' := replay_env env reads).
  pose proof (proper_history_well_scanned h Hh) as Hws.
  pose proof (li_before _ _ _ Hl) as Hb. rewrite <- ScanHistory_commands_complete in Hb.
  destruct (Hrep Fresh (ScanHistory h) replaying env') as (r0' & Hi' & Hsim & Hd);
    try done; [by rewrite Hb|].
  pose proof (interp_agrees h before (ScanHistory h) Fresh reads Hh Hws (reflexivity _) env env'
    ltac:(done) p0 r0 r0' Hst Hl Hsim Hcalm Hrun Hd) as Hag.
  rewrite Run_proper by (by apply proper_timeline). unfold resume_with in *. rewrite Hi'.
  destruct (interp env p0 r0) as [r1 res|r1 p1|] eqn:Hi; [..|done]; injection Hr as <-;
    simpl in Hag; specialize (Hag eq_refl).
  - destruct Hag as (Hl1 & r1' & -> & Hs1 & _).
    pose proof (finish_same_run res _ _ (sim_same_run _ _ _ NoCoroutine _ _ Hl1 Hs1)) as Hsame.
    exists (finish_body env' res r1'). split_and!; [done|exact Hsame| |].
    + apply finish_produced_after; [exact (sr_status _ _ (sim_same_run _ _ _ NoCoroutine _ _ Hl1 Hs1))|].
      apply (sm_produced _ _ _ _ _ _ Hs1).
    + rewrite <- Hb, <- (sm_scan _ _ _ _ _ _ Hs1). unfold finish_body. by repeat case_match.
  - destruct Hag as (Hl1 & _ & (c & k & -> & Hw1) & r1' & -> & Hs1 & _).
    destruct (parks env' h before reads c k r1 r1' Hl1 Hs1 Hw1) as (r2 & -> & Hs2).
    exists (r2 <| coroutine_ := Suspended (Call c k) |>). split_and!; [done| | |].
    + by apply (sim_same_run h before reads).
    + apply (sm_produced _ _ _ _ _ _ Hs2).
    + by rewrite <- Hb, <- (sm_scan _ _ _ _ _ _ Hs2).
Qed.
End Lives.


Lemma one_activity_steady : steady_workflow ref_env one_activity.
Proof.
  split; [|by intros type options input header; eexists].
  intros input header. constructor; [done|]. intros [e|l]; [constructor|].
  constructor; [done|]. intros [e|v]; constructor.
Qed.

(** The greeting is awaited in the first task and delivered by the second. *)
Definition greeting_runner : WorkflowRunner :=
  after_continue ref_env greeted (after_run ref_env (ref_runner false [started] one_activity)).

Lemma greeting_lives :
  lives ref_env ref_info one_activity ([started] ++ greeted) greeting_runner
    [mk Activity "0" "Greet"] 0.
Proof.
  apply (lives_next _ _ _ [started] (after_run ref_env (ref_runner false [started] one_activity)) []
           0 greeted).
  - apply (lives_first _ _ _ _ false); [|vm_compute; reflexivity].
    exists started, [], "W", (Proto.mkPayloads []), ∅. by split_and!.
  - vm_compute. reflexivity.
  - split; [vm_compute; by split_and!|].
    exists [], [mkEvent 2 (ActivityTaskScheduled "0" "Greet")],
      [mkEvent 3 (ActivityTaskCompleted 2 (ToProtoPayloads [bytes "hi"]))].
    split_and!; [done|constructor|vm_compute; reflexivity|]. split; [|done].
    right. exists Act, "0", (recorded_future (ScanHistory ([started] ++ greeted)) Act "0").
    split_and!; vm_compute; reflexivity.
  - vm_compute. reflexivity.
Qed.

