(* ===== verification/TaskHandler.v ===== *)
(** * The workflow task handler

    [class WorkflowTaskHandler] ([src/src/internal/workflow_task_handler.{h,cpp}]):
    one poll response in, at most one RPC response out.  It decides between
    continuing a cached runner, replaying the full history, paging it in for a
    query, and asking the server to resend it; it checks determinism, delivers
    updates, answers queries and maintains the sticky cache. *)

From S2P Require Import Prelude Common Effects Determinism LruCache History Workflow Interceptors Runner RunnerFacts.
Import CommandEvent.

(** ** Messages *)

(** A protocol message of a task; [body] is what [UnpackTo(update::Request)] gives. *)
Record UpdateMessage := mkUpdateMessage {
  um_id : string;
  um_protocol_instance_id : string;
  um_event_id : Z;
  um_body : option (string * Proto.Payloads)
}.

Record WorkflowTask := mkWorkflowTask {
  wt_task_token : string;
  wt_workflow_id : string;
  wt_run_id : string;
  wt_workflow_type : string;
  wt_next_page_token : string;
  wt_history : History;
  wt_previous_started_event_id : Z;
  wt_query : option (string * Proto.Payloads);
  wt_messages : list UpdateMessage;
  wt_queries : list (string * (string * Proto.Payloads))
}.

Inductive OutMessage :=
| RejectionMessage (id protocol_instance_id request_id : string) (sequencing_event_id : Z)
    (name : string) (args : Proto.Payloads) (failure : Proto.Failure)
| AcceptanceMessage (id protocol_instance_id request_id : string) (sequencing_event_id : Z)
    (name : string) (args : Proto.Payloads)
| ResponseMessage (id protocol_instance_id update_id identity : string)
    (outcome : Proto.Failure + Proto.Payloads).

Inductive FailedCause := NoCause | ResetStickyTaskQueue | NonDeterministicErrorCause.

Inductive QueryOutcome :=
| Answered (answer : option Proto.Payloads)
| QueryFailed (error_message : string).

Record StickyAttributes := mkSticky {
  sa_queue : string;
  sa_normal_name : string;
  sa_schedule_to_start_timeout : Proto.Duration
}.

Inductive Response :=
| RespondWorkflowTaskFailed (task_token identity : string) (cause : FailedCause)
    (failure : option Proto.Failure)
| RespondQueryTaskCompleted (task_token : string) (outcome : QueryOutcome)
| RespondWorkflowTaskCompleted (task_token identity : string) (sticky : option StickyAttributes)
    (commands : list Command) (messages : list OutMessage) (query_results : gmap string QueryOutcome).

(** ** State *)

(** A [std::shared_ptr<WorkflowRunner>]: an address in the store of runners. *)
Abbreviation rptr := nat.

Record WorkflowTaskHandler := mkTaskHandler {
  th_ns : string;
  th_identity : string;
  th_task_queue : string;
  th_sticky_queue : string;
  th_panic_policy : WorkflowPanicPolicy;
  th_deadlock_timeout : Z;
  th_workflows : gmap string (Payloads -> prog);
  th_cache : Lru.LruCache (K := string) (V := rptr);
  th_runners : list WorkflowRunner;
  th_leaked : list rptr;
  th_deadlock_reports : nat;
  th_cache_hits : Z;
  th_replays : Z
}.

#[export] Instance WorkflowTaskHandler_eta : Eta WorkflowTaskHandler := fun h =>
  {| th_ns := th_ns h; th_identity := th_identity h; th_task_queue := th_task_queue h;
     th_sticky_queue := th_sticky_queue h; th_panic_policy := th_panic_policy h;
     th_deadlock_timeout := th_deadlock_timeout h; th_workflows := th_workflows h;
     th_cache := th_cache h; th_runners := th_runners h; th_leaked := th_leaked h;
     th_deadlock_reports := th_deadlock_reports h; th_cache_hits := th_cache_hits h;
     th_replays := th_replays h |}.

Definition make_handler (ns identity task_queue sticky_queue : string)
    (panic_policy : WorkflowPanicPolicy) (max_cached_workflows deadlock_timeout : Z) :
    WorkflowTaskHandler :=
  {| th_ns := ns; th_identity := identity; th_task_queue := task_queue;
     th_sticky_queue := sticky_queue; th_panic_policy := panic_policy;
     th_deadlock_timeout := deadlock_timeout; th_workflows := ∅;
     th_cache :=
       Lru.make (if 0 <? max_cached_workflows then Z.to_nat max_cached_workflows else 0%nat);
     th_runners := []; th_leaked := []; th_deadlock_reports := 0; th_cache_hits := 0;
     th_replays := 0 |}.

Definition Register (name : string) (fn : Payloads -> prog) (h : WorkflowTaskHandler) :
    WorkflowTaskHandler := h <| th_workflows ::= <[name := fn]> |>.

(** ** Steps of the handler

    The state is the handler and the RPCs made so far; a step ends with a value, an
    exception that leaves [Handle], a hang or undefined behaviour. *)

Record HState := mkHState { hs_handler : WorkflowTaskHandler; hs_sent : list Response }.

#[export] Instance HState_eta : Eta HState := fun s =>
  {| hs_handler := hs_handler s; hs_sent := hs_sent s |}.

Abbreviation H A := (Act HState A).

Definition hget {A} (f : WorkflowTaskHandler -> A) : H A := fun s => Val (s, inr (f (hs_handler s))).
Definition hmodify (f : WorkflowTaskHandler -> WorkflowTaskHandler) : H unit := fun s =>
  Val (s <| hs_handler ::= f |>, inr tt).
(** The runner behind a pointer; pointers only come from [new_ptr]. *)
Definition runner_at (h : WorkflowTaskHandler) (p : rptr) : option WorkflowRunner :=
  th_runners h !! p.

Definition with_runner {A} (p : rptr)
    (f : WorkflowRunner -> outcome (WorkflowRunner * result A)) : H A := fun s =>
  match runner_at (hs_handler s) p with
  | None => UB
  | Some r =>
    match f r with
    | Val (r, a) => Val (s <| hs_handler ::= fun h => h <| th_runners ::= <[p := r]> |> |>, a)
    | Hang => Hang
    | UB => UB
    end
  end.

Definition on_runner (p : rptr) (f : WorkflowRunner -> WorkflowRunner) : H unit :=
  with_runner p (fun r => Val (f r, inr tt)).

Definition read_runner {A} (p : rptr) (f : WorkflowRunner -> A) : H A :=
  with_runner p (fun r => Val (r, inr (f r))).

(** [std::make_shared<WorkflowRunner>(...)]. *)
Definition new_ptr (r : WorkflowRunner) : H rptr := fun s =>
  Val (s <| hs_handler ::= fun h => h <| th_runners ::= fun l => l ++ [r] |> |>,
       inr (length (th_runners (hs_handler s)))).

Section Handler.
Context `{Codec} (env : Env).

(** The server side of the RPCs: a response that is sent may throw, and a page of
    history is fetched by its token (the empty token is the first page). *)
Context (rpc : Response -> result unit) (fetch : string -> result (History * string)).

Definition send (resp : Response) : H unit := fun s =>
  Val (s <| hs_sent ::= fun l => l ++ [resp] |>, rpc resp).

(** ** History pagination *)

(** The loop fetching the remaining pages, [fuel] pages at most. *)
Fixpoint fetch_pages (fuel : nat) (events : History) (page_token : string) : H History :=
  if str_empty page_token then hret events
  else
    match fuel with
    | O => fun _ => Hang
    | S fuel =>
      page <== hlift (fetch page_token);;
      fetch_pages fuel (events ++ fst page) (snd page)
    end.

(** The [for (;;)] loop of [BuildRunnerForQuery]: at least one page is fetched. *)
Fixpoint fetch_all (fuel : nat) (events : History) (page_token : string) :
    outcome (result History) :=
  match fuel with
  | O => Hang
  | S fuel =>
    match fetch page_token with
    | inl e => Val (inl e)
    | inr (page, next) =>
      if str_empty next then Val (inr (events ++ page)) else fetch_all fuel (events ++ page) next
    end
  end.

(** The environment of a runner built only to answer a query. *)
Definition query_env : Env :=
  {| e_world := e_world env; e_overruns := e_overruns env; e_local_activity_resolver := None;
     e_interceptors := []; e_failure_converter := e_failure_converter env |}.

Definition BuildRunnerForQuery (fuel : nat) (info : WorkflowInfo) (fn : Payloads -> prog) :
    H (option rptr) := fun s =>
  match fetch_all fuel [] "" with
  | Val (inl e) => if is_std_exception e then Val (s, inr None) else Val (s, inl e)
  | Val (inr full) =>
    let scan := ScanHistory full in
    match Run query_env (new_runner info true scan fn (ps_input scan)) with
    | Val (r, inr _) => (p <== new_ptr r;; hret (Some p)) s
    | Val (_, inl e) => Val (s, inl e)
    | Hang => Hang
    | UB => UB
    end
  | Hang => Hang
  | UB => UB
  end.

(** ** The parts of [Handle] *)

Definition info_of (h : WorkflowTaskHandler) (task : WorkflowTask) : WorkflowInfo :=
  {| wi_workflow_id := wt_workflow_id task; wi_run_id := wt_run_id task;
     wi_workflow_type := wt_workflow_type task; wi_task_queue := th_task_queue h;
     wi_ns := th_ns h; wi_headers := ∅ |}.

Definition fail_task (task : WorkflowTask) (cause : FailedCause)
    (failure : option Proto.Failure) : H unit :=
  identity <== hget th_identity;;
  send (RespondWorkflowTaskFailed (wt_task_token task) identity cause failure).

Definition full_history (task : WorkflowTask) (fuel : nat) : H History :=
  if str_empty (wt_next_page_token task) then hret (wt_history task)
  else fetch_pages fuel (wt_history task) (wt_next_page_token task).

Definition first_event_id (h : History) : Z :=
  match h with [] => 0 | ev :: _ => event_id ev end.

(** A full history begins with the started event. *)
Definition is_full_history (h : History) : bool :=
  match h with
  | mkEvent _ (WorkflowExecutionStarted _ _ _) :: _ => true
  | _ => false
  end.

Definition is_query_task (task : WorkflowTask) : bool := bool_decide (is_Some (wt_query task)).

Definition cache_put (run_id : string) (p : rptr) : H unit :=
  hmodify (fun h => h <| th_cache ::= Lru.Put run_id p |>).

Definition cache_erase (run_id : string) : H unit :=
  hmodify (fun h => h <| th_cache ::= Lru.Erase run_id |>).

(** [Get] marks the run most recently used whether or not it can be continued. *)
Definition cache_get (run_id : string) : H (option rptr) := fun s =>
  let '(v, c) := Lru.Get run_id (th_cache (hs_handler s)) in
  Val (s <| hs_handler ::= fun h => h <| th_cache := c |> |>, inr v).

(** The cached runner, if the task picks up exactly where it left off (or is a
    query, answered from the resident state). *)
Definition select_cached (task : WorkflowTask) (h : History) : H (option rptr) :=
  if is_full_history h then hret None
  else
    slot <== cache_get (wt_run_id task);;
    match slot with
    | None => hret None
    | Some p =>
      last <== read_runner p last_event_id;;
      if is_query_task task || (first_event_id h =? last + 1) then hret (Some p) else hret None
    end.

Definition deadlock_failure : Proto.Failure :=
  MakeApplicationFailure "workflow task deadlocked (exceeded deadlock_detection_timeout)"
    "WorkflowDeadlock" false.

Definition abort_deadlock (task : WorkflowTask) (p : rptr) : H unit :=
  hmodify (fun h => h <| th_deadlock_reports ::= S |>);;==
  on_runner p AbandonCoroutine;;==
  cache_erase (wt_run_id task);;==
  hmodify (fun h => h <| th_leaked ::= fun l => l ++ [p] |>);;==
  fail_task task NoCause (Some deadlock_failure).

Definition nondeterminism_failure (mismatch : string) : Proto.Failure :=
  MakeApplicationFailure mismatch "NonDeterministicError" false.

Definition reject_nondeterministic (task : WorkflowTask) (mismatch : string) : H unit :=
  policy <== hget th_panic_policy;;
  match policy with
  | FailWorkflowPolicy =>
    identity <== hget th_identity;;
    send (RespondWorkflowTaskCompleted (wt_task_token task) identity None
            [FailWorkflowExecution (nondeterminism_failure mismatch)] [] ∅)
  | BlockWorkflow =>
    fail_task task NonDeterministicErrorCause (Some (nondeterminism_failure mismatch))
  end.

(** What the first half of [Handle] decides: [Handle] already responded, or the
    second half goes on with this runner (none when the history of a query could
    not be fetched), driven in this environment. *)
Inductive decision :=
| Responded
| Proceed (p : option rptr) (runner_env : Env).

Definition continue_cached (task : WorkflowTask) (h : History) (p : rptr) : H decision :=
  hmodify (fun h => h <| th_cache_hits ::= Z.succ |>);;==
  if is_query_task task then hret (Proceed (Some p) env)
  else
    timeout <== hget th_deadlock_timeout;;
    on_runner p (SetDeadlockTimeout timeout);;==
    with_runner p (fun r =>
      match ApplyAndResume env h r with
      | Val r => Val (r, inr tt)
      | Hang => Hang
      | UB => UB
      end);;==
    dead <== read_runner p deadlocked_;;
    if dead : bool then abort_deadlock task p;;== hret Responded
    else hret (Proceed (Some p) env).

Definition replay_full (task : WorkflowTask) (h : History) (info : WorkflowInfo)
    (fn : Payloads -> prog) : H decision :=
  hmodify (fun h => h <| th_replays ::= Z.succ |>);;==
  let scan := ScanHistory h in
  timeout <== hget th_deadlock_timeout;;
  p <== new_ptr (SetDeadlockTimeout timeout
                   (new_runner info (0 <? wt_previous_started_event_id task) scan fn (ps_input scan)));;
  with_runner p (Run env);;==
  dead <== read_runner p deadlocked_;;
  if dead : bool then abort_deadlock task p;;== hret Responded
  else if is_query_task task then hret (Proceed (Some p) env)
  else
    mismatch <== read_runner p CheckDeterminism;;
    match mismatch with
    | Some detail => reject_nondeterministic task detail;;== hret Responded
    | None => cache_put (wt_run_id task) p;;== hret (Proceed (Some p) env)
    end.

Definition prepare (fuel : nat) (task : WorkflowTask) (h : History) (info : WorkflowInfo)
    (fn : Payloads -> prog) : H decision :=
  cached <== select_cached task h;;
  match cached with
  | Some p => continue_cached task h p
  | None =>
    if is_query_task task then
      p <== BuildRunnerForQuery fuel info fn;;
      hret (Proceed p query_env)
    else if negb (is_full_history h) then
      fail_task task ResetStickyTaskQueue None;;== hret Responded
    else replay_full task h info fn
  end.

(** ** Queries *)

Definition query_runner (runner_env : Env) (p : rptr) (query_type : string)
    (args : Proto.Payloads) : H Payloads :=
  done <== read_runner p IsDone;;
  if done : bool then
    hthrow (app_error "cannot query a completed workflow" "QueryFailed")
  else with_runner p (RunQuery runner_env query_type (FromProtoPayloads args)).

(** The [try]/[catch] around answering one query. *)
Definition answer_query (runner_env : Env) (p : option rptr) (query : string * Proto.Payloads) :
    H QueryOutcome :=
  htry (match p with
        | None => hthrow (app_error "could not load workflow state to answer query" "QueryFailed")
        | Some p => query_runner runner_env p (fst query) (snd query)
        end)
    (fun x => catch_std x (fun e => hret (QueryFailed (what e)))
                (fun answer => hret (Answered (opt_payloads answer)))).

(** ** Updates *)

Definition process_update (p : rptr) (msg : UpdateMessage) : H (list OutMessage) :=
  match um_body msg with
  | None => hret []
  | Some (name, args) =>
    let pid := um_protocol_instance_id msg in
    htry (with_runner p (ValidateUpdate env name (FromProtoPayloads args))) (fun validated =>
      catch_std validated
        (fun e => hret [RejectionMessage (pid +:+ "/reject") pid (um_id msg) (um_event_id msg)
                          name args
                          (MakeApplicationFailure (what e) "UpdateValidationRejected" false)])
        (fun _ =>
           identity <== hget th_identity;;
           let accepted :=
             AcceptanceMessage (pid +:+ "/accept") pid (um_id msg) (um_event_id msg) name args in
           let completed outcome :=
             [accepted; ResponseMessage (pid +:+ "/complete") pid pid identity outcome] in
           htry (with_runner p (RunUpdate env name (FromProtoPayloads args))) (fun outcome =>
             catch_std outcome
               (fun e => hret (completed (inl (MakeApplicationFailure (what e) "UpdateFailed" false))))
               (fun result => hret (completed (inr (ToProtoPayloads result)))))))
  end.

Fixpoint process_updates (p : rptr) (msgs : list UpdateMessage) : H (list OutMessage) :=
  match msgs with
  | [] => hret []
  | msg :: msgs =>
    out <== process_update p msg;;
    rest <== process_updates p msgs;;
    hret (out ++ rest)
  end.

Fixpoint answer_queries (p : rptr) (queries : list (string * (string * Proto.Payloads)))
    (results : gmap string QueryOutcome) : H (gmap string QueryOutcome) :=
  match queries with
  | [] => hret results
  | (key, query) :: queries =>
    result <== answer_query env (Some p) query;;
    answer_queries p queries (<[key := result]> results)
  end.

(** ** The response to a workflow task *)

Definition sticky_attributes (h : WorkflowTaskHandler) : option StickyAttributes :=
  if str_empty (th_sticky_queue h) then None
  else Some {| sa_queue := th_sticky_queue h; sa_normal_name := th_task_queue h;
               sa_schedule_to_start_timeout := ToProtoDuration (10 * 1000000000) |}.

Definition terminal_command (r : WorkflowRunner) : list Command :=
  if Completed r then [CompleteWorkflowExecution (opt_payloads (result_ r))]
  else if Failed r then [FailWorkflowExecution (failure_ r)]
  else if IsContinueAsNew r then
    [ContinueAsNewWorkflowExecution (fst (continue_as_new_ r)) (opt_payloads (snd (continue_as_new_ r)))]
  else [].

Definition complete_task (task : WorkflowTask) (p : rptr) : H unit :=
  identity <== hget th_identity;;
  sticky <== hget sticky_attributes;;
  commands <== read_runner p commands_;;
  messages <== process_updates p (wt_messages task);;
  terminal <== read_runner p terminal_command;;
  results <== answer_queries p (wt_queries task) ∅;;
  send (RespondWorkflowTaskCompleted (wt_task_token task) identity sticky (commands ++ terminal)
          messages results);;==
  done <== read_runner p IsDone;;
  if done : bool then cache_erase (wt_run_id task) else hret tt.

Definition finish (task : WorkflowTask) (d : decision) : H unit :=
  match d with
  | Responded => hret tt
  | Proceed p runner_env =>
    match wt_query task with
    | Some query =>
      outcome <== answer_query runner_env p query;;
      send (RespondQueryTaskCompleted (wt_task_token task) outcome)
    | None =>
      match p with
      | Some p => complete_task task p
      | None => fun _ => UB
      end
    end
  end.

Definition not_registered (workflow_type : string) : Proto.Failure :=
  MakeApplicationFailure ("no workflow registered for type: " +:+ workflow_type)
    "NotRegisteredError" false.

Definition Handle (fuel : nat) (task : WorkflowTask) : H unit :=
  info <== hget (fun h => info_of h task);;
  wf <== hget (fun h => th_workflows h !! wi_workflow_type info);;
  match wf with
  | None => fail_task task NoCause (Some (not_registered (wi_workflow_type info)))
  | Some fn =>
    h <== full_history task fuel;;
    d <== prepare fuel task h info fn;;
    finish task d
  end.

(** ** Offline replay *)

Fixpoint started_type (h : History) : string :=
  match h with
  | [] => ""
  | ev :: h =>
    match event_body ev with
    | WorkflowExecutionStarted workflow_type _ _ => workflow_type
    | _ => started_type h
    end
  end.

Definition ReplayHistory (h : History) (th : WorkflowTaskHandler) :
    outcome (result (option string)) :=
  let workflow_type := started_type h in
  if str_empty workflow_type then
    Val (inl (app_error "history has no WorkflowExecutionStarted event" "ReplayError"))
  else
    match th_workflows th !! workflow_type with
    | None =>
      Val (inl (app_error ("no workflow registered for type: " +:+ workflow_type) "ReplayError"))
    | Some fn =>
      let info := {| wi_workflow_id := "replay"; wi_run_id := ""; wi_workflow_type := workflow_type;
                     wi_task_queue := th_task_queue th; wi_ns := th_ns th; wi_headers := ∅ |} in
      let scan := ScanHistory h in
      match Run env (new_runner info true scan fn (ps_input scan)) with
      | Val (r, inr _) => Val (inr (CheckDeterminism r))
      | Val (_, inl e) => Val (inl e)
      | Hang => Hang
      | UB => UB
      end
    end.
End Handler.
