(* ===== verification/Replayer.v ===== *)
(** * Replaying a recorded history

    [WorkflowTaskHandler::ReplayHistory] runs a body against a history in a process of
    its own: the workflow's id is "replay", its task queue and namespace those of the
    replaying worker, and the outside world is another one.  A body is [portable] when
    it is steady and does not look at what differs; the histories of portable bodies
    replay anywhere. *)

From S2P Require Import Prelude Common Effects Determinism LruCache History Workflow Interceptors.
From S2P Require Import Runner Reference RunnerFacts Commands ReplaySpec Replay StickyReplay TaskHandler Reference.
Import CommandEvent.

Lemma append_inj_r (s a b : string) : a +:+ s = b +:+ s -> a = b.
Proof.
  assert (Hlen : forall a, String.length (a +:+ s) = (String.length a + String.length s)%nat)
    by (clear; intros a; induction a as [|c a IH]; simpl; [done|by rewrite IH]).
  revert b. induction a as [|c a IH]; intros [|c' b] He; [done|..].
  - apply (f_equal String.length) in He. rewrite !Hlen in He. simpl in He. lia.
  - apply (f_equal String.length) in He. rewrite !Hlen in He. simpl in He. lia.
  - injection He as -> He. f_equal. by apply IH.
Qed.

(** ** Portable bodies *)

(** The steady calls that do not depend on the run's identity: the id of a child
    workflow is made from its parent's, and [GetInfo] returns it. *)
Definition portable_call (c : call) : bool :=
  match c with GetInfo | ExecuteChildWorkflow _ _ _ => false | _ => steady_call c end.

Inductive portable : prog -> Prop :=
| portable_return v : portable (Return v)
| portable_throw e : portable (Throw e)
| portable_step c k : portable_call c = true -> (forall a, portable (k a)) -> portable (Call c k)
| portable_handler kind name handler k : portable k -> portable (SetHandler kind name handler k).

Lemma portable_steady p : portable p -> steady p.
Proof. induction 1 as [| |c k Hc _ IH|]; constructor; try done. by destruct c. Qed.

(** ** Runners that differ in identity *)

(** [r'] is [r] under another identity with the same headers; what it sent may name
    another task queue or namespace. *)
Definition elsewhere (r r' : WorkflowRunner) : Prop := exists i cs,
  wi_headers i = wi_headers (info_ r) /\ r' = r <| info_ := i |> <| commands_ := cs |>.

Lemma elsewhere_intro r i cs :
  wi_headers i = wi_headers (info_ r) -> elsewhere r (r <| info_ := i |> <| commands_ := cs |>).
Proof. intros Hi. by exists i, cs. Qed.

(** An operation that cannot tell the two apart. *)
Definition agree {A} (m : M A) : Prop := forall r r', elsewhere r r' ->
  elsewhere (fst (m r)) (fst (m r')) /\ snd (m r) = snd (m r').

Lemma agree_ok {A} (a : A) : agree (ok a).
Proof. by intros r r' H. Qed.

Lemma agree_lift {A} (x : result A) : agree (lift x).
Proof. by intros r r' H. Qed.

Lemma agree_and_then {A B} (m : M A) (k : A -> M B) :
  agree m -> (forall a, agree (k a)) -> agree (and_then m k).
Proof.
  intros Hm Hk r r' He. unfold and_then. destruct (Hm r r' He) as [H1 H2].
  destruct (m r) as [r1 [e|a]], (m r') as [r1' [e'|a']]; simplify_eq/=; [done|by apply Hk].
Qed.

Lemma agree_get {A} (f : WorkflowRunner -> A) :
  (forall r i cs, wi_headers i = wi_headers (info_ r) ->
     f (r <| info_ := i |> <| commands_ := cs |>) = f r) -> agree (get f).
Proof.
  intros Hf r r' He. split; [done|]. destruct He as (i & cs & Hi & ->). unfold get.
  simpl. by rewrite <- (Hf r i cs Hi).
Qed.

Lemma agree_modify f :
  (forall r i cs, f (r <| info_ := i |> <| commands_ := cs |>) =
                  (f r) <| info_ := i |> <| commands_ := cs |> /\ info_ (f r) = info_ r) ->
  agree (modify f).
Proof.
  intros Hf r r' (i & cs & Hi & ->). split; [|done]. unfold modify.
  destruct (Hf r i cs) as [Heq Hin]. simpl in *. rewrite Heq.
  apply elsewhere_intro. by rewrite Hin.
Qed.

(** Emitting a command, whatever it says. *)
Lemma agree_emit {A} (f : WorkflowRunner -> A) (c : A -> Command) :
  agree (a <- get f;; emit (c a)).
Proof.
  intros r r' (i & cs & Hi & ->). split; [|done]. unfold and_then, get, emit, modify. simpl.
  exists i, (cs ++ [c (f (r <| info_ := i |> <| commands_ := cs |>))]). by split.
Qed.

Lemma agree_emit1 c : agree (emit c).
Proof. intros r r' (i & cs & Hi & ->). split; [|done]. simpl. by exists i, (cs ++ [c]). Qed.

Lemma agree_alloc s : agree (alloc s).
Proof. intros r r' (i & cs & Hi & ->). split; [|done]. simpl. by exists i, cs. Qed.

Ltac agree_step :=
  lazymatch goal with
  | |- agree (and_then (get _) (fun a => emit _)) => apply agree_emit
  | |- agree (and_then _ _) => apply agree_and_then; [|intros ?]
  | |- agree (ok _) => apply agree_ok
  | |- agree (lift _) => apply agree_lift
  | |- agree (alloc _) => apply agree_alloc
  | |- agree (emit _) => apply agree_emit1
  | |- agree (get _) => apply agree_get; intros ? ? ? ?; simpl; done
  | |- agree (modify _) => apply agree_modify; by intros
  | |- agree (match ?x with _ => _ end) => destruct x
  | |- agree (produce _) => unfold produce
  end.

Ltac agree_ops := repeat (autounfold with runner_ops; repeat agree_step).

Section Calls.
Context `{Codec} (env : Env).

Lemma agree_answering {A} (m : M A) r r' :
  agree m -> elsewhere r r' ->
  elsewhere (fst (answering m r)) (fst (answering m r')) /\ snd (answering m r) = snd (answering m r').
Proof.
  intros Hm He. destruct (Hm r r' He) as [H1 H2]. unfold answering.
  destruct (m r), (m r'). simpl in *. by subst.
Qed.

Lemma do_call_elsewhere c r r' :
  portable_call c = true -> elsewhere r r' ->
  elsewhere (fst (do_call env c r)) (fst (do_call env c r')) /\
  snd (do_call env c r) = snd (do_call env c r').
Proof.
  intros Hc He. destruct c; try discriminate Hc; simpl;
    try (apply agree_answering; [agree_ops|done]).
  - assert (Hg : outbound_dangles r' && negb (activity_recorded r' (to_string (activity_seq_ r'))) =
                 outbound_dangles r && negb (activity_recorded r (to_string (activity_seq_ r))))
      by (by destruct He as (i & cs & _ & ->)).
    rewrite Hg. case_match; [done|]. apply agree_answering; [agree_ops|done].
  - split; [done|]. by destruct He as (i & cs & _ & ->).
  - destruct He as (i & cs & Hi & ->). unfold TryConsumeSignal. simpl.
    repeat case_match; simplify_eq; (split; [|done]); by exists i, cs.
  - split; [done|]. by destruct He as (i & cs & _ & ->).
  - split; [|done]. destruct He as (i & cs & Hi & ->). by exists i, cs.
Qed.

(** The two runners get equally far. *)
Definition run_state_elsewhere (s s' : run_state) : Prop :=
  match s, s' with
  | Finished r res, Finished r' res' => elsewhere r r' /\ res = res'
  | Parked r p, Parked r' p' => elsewhere r r' /\ p = p'
  | Stuck, Stuck => True
  | _, _ => False
  end.

Lemma interp_elsewhere p r r' :
  portable p -> elsewhere r r' -> run_state_elsewhere (interp env p r) (interp env p r').
Proof.
  intros Hp. revert r r'. induction Hp as [v|e|c k Hc _ IH|kind name handler k _ IH];
    intros r r' He; simpl; [done|done| |].
  - destruct (do_call_elsewhere c r r' Hc He) as [H1 H2].
    destruct (do_call env c r) as [r1 a], (do_call env c r') as [r1' a']. simpl in *. subst a'.
    destruct a; [by apply IH|done|done].
  - apply IH. destruct He as (i & cs & Hi & ->). exists i, cs. by destruct kind.
Qed.

Lemma finish_elsewhere res r r' :
  elsewhere r r' -> elsewhere (finish_body env res r) (finish_body env res r').
Proof.
  intros (i & cs & Hi & ->). exists i, cs. destruct res as [e|ps]; [destruct e|];
    (split; [exact Hi|reflexivity]).
Qed.

Lemma resume_with_elsewhere p r r' :
  portable p -> elsewhere r r' ->
  match resume_with env p r, resume_with env p r' with
  | Val r1, Val r1' => elsewhere r1 r1'
  | UB, UB => True
  | _, _ => False
  end.
Proof.
  intros Hp He. pose proof (interp_elsewhere p r r' Hp He) as Hi. unfold resume_with.
  destruct (interp env p r) as [r1 res|r1 p1|], (interp env p r') as [r1' res'|r1' p1'|];
    simpl in Hi; try done; destruct Hi as [He1 ->].
  - by apply finish_elsewhere.
  - destruct He1 as (i & cs & Hi & ->). by exists i, cs.
Qed.

Lemma CheckDeterminism_elsewhere r r' : elsewhere r r' -> CheckDeterminism r' = CheckDeterminism r.
Proof. by intros (i & cs & _ & ->). Qed.
End Calls.

(** ** The replayer *)

Section Replays.
Context `{Codec, !CodecLaws _} (env env' : Env) (info : WorkflowInfo) (fn : Payloads -> prog).

(** A workflow whose body is portable under the worker's interceptors, which do not
    make scheduling fail. *)
Definition portable_workflow : Prop :=
  (forall input header, portable (in_ExecuteWorkflow (inbound_head env fn) input header)) /\
  calm (Some (in_Init (inbound_head env fn) RootWorkflowOutbound)).

Lemma portable_workflow_steady : portable_workflow -> steady_workflow env fn.
Proof. intros [Hp Hc]. split; [|done]. intros input header. by apply portable_steady. Qed.

(** The identity a replay runs under. *)
Definition replay_info (type : string) (th : WorkflowTaskHandler) : WorkflowInfo :=
  {| wi_workflow_id := "replay"; wi_run_id := ""; wi_workflow_type := type;
     wi_task_queue := th_task_queue th; wi_ns := th_ns th; wi_headers := ∅ |}.

Lemma entered_elsewhere info1 info2 replaying ps :
  elsewhere (entered env' info1 replaying fn ps) (entered env' info2 replaying fn ps).
Proof. by exists (info2 <| wi_headers := ps_headers ps |>), []. Qed.

Lemma ReplayHistory_run h th :
  started_type h <> "" -> th_workflows th !! started_type h = Some fn ->
  ReplayHistory env' h th =
  match replay_of env' (replay_info (started_type h) th) true fn h with
  | Val (r, inr _) => Val (inr (CheckDeterminism r))
  | Val (_, inl e) => Val (inl e)
  | Hang => Hang
  | UB => UB
  end.
Proof.
  intros Hty Hfn. unfold ReplayHistory, replay_of, replay_info.
  by rewrite (proj2 (str_empty_false _) Hty), Hfn.
Qed.

(** It accepts when the same replay under the run's own identity passes the check. *)
Lemma ReplayHistory_accepts h th r :
  portable (body_of env' fn (ScanHistory h)) ->
  started_type h <> "" -> th_workflows th !! started_type h = Some fn ->
  ps_post_update_timeline (ScanHistory h) = [] ->
  resume_with env' (body_of env' fn (ScanHistory h)) (entered env' info true fn (ScanHistory h)) =
    Val r ->
  CheckDeterminism r = None ->
  ReplayHistory env' h th = Val (inr None).
Proof.
  intros Hp Hty Hfn Htl Hr Hdet. rewrite (ReplayHistory_run h th Hty Hfn), Run_proper by done.
  pose proof (resume_with_elsewhere env' _ _ _ Hp
    (entered_elsewhere info (replay_info (started_type h) th) true (ScanHistory h))) as He.
  rewrite Hr in He. clear Hr. destruct (resume_with _ _ _) as [r2| |]; [|done..].
  by rewrite (CheckDeterminism_elsewhere _ _ He), Hdet.
Qed.

Lemma CheckDeterminism_prefix r :
  ps_commands (scan_ r) `prefix_of` produced_commands_ r -> CheckDeterminism r = None.
Proof.
  intros [rest Hp]. unfold CheckDeterminism. rewrite MatchReplayCommands_from, match_from_None, Hp.
  exists (ps_commands (scan_ r)), rest. split; [done|].
  apply Forall2_same_length_lookup_2; [done|]. intros i x y Hx Hy. simplify_eq.
  apply CommandMatchesEvent_refl.
Qed.

Lemma finish_consistent res r :
  ps_commands (scan_ r) `prefix_of` produced_commands_ r ->
  CheckDeterminism (finish_body env' res r) = None.
Proof.
  intros Hp. apply CheckDeterminism_prefix. unfold finish_body.
  destruct res as [[]|]; simpl; try exact Hp; by apply prefix_app_r.
Qed.

(** A body that goes on from where all recorded commands are produced passes. *)
Lemma resume_with_consistent p r :
  coro_done r = false -> produced_commands_ r = ps_commands (scan_ r) ->
  exists r', resume_with env' p r = Val r' /\ CheckDeterminism r' = None.
Proof.
  intros Hd Hp. pose proof (interp_not_stuck env' p r Hd) as Hns.
  pose proof (interp_outputs env' p r) as Ho. pose proof (interp_frame env' p r) as Hf.
  assert (Hpre : forall r1, outputs_of [] r r1 -> same_frame r r1 ->
                            ps_commands (scan_ r1) `prefix_of` produced_commands_ r1).
  { intros r1 (dp & dc & Hp1 & _) (?&?&?&?&?&->&_). rewrite Hp1, Hp. by apply prefix_app_r. }
  unfold resume_with.
  destruct (interp env' p r) as [r1 res|r1 p1|]; simpl in Ho, Hf; [..|done];
    (eexists; split; [reflexivity|]); specialize (Hpre r1 Ho Hf).
  - by apply finish_consistent.
  - by apply CheckDeterminism_prefix.
Qed.

(** ** The histories of a run *)

(** The event that closes a run of this status. *)
Definition closes (s : Status) (b : EventBody) : bool :=
  match s, b with
  | StatusCompleted, WorkflowExecutionCompleted _ | StatusFailed, WorkflowExecutionFailed _
  | StatusContinueAsNew, WorkflowExecutionContinuedAsNew _ => true
  | _, _ => false
  end.

(** What a server can hand out as the history of a run of [fn]: what the tasks so far
    were given, or, when the body has finished, that and the events of its last answer,
    up to the one that closes the run. *)
Definition open_history (h : History) : Prop :=
  exists r before reads, lives env info fn h r before reads.

Definition closed_history (h : History) : Prop :=
  exists h0 r before reads fresh n b, h = h0 ++ fresh ++ [mkEvent n b] /\
    lives env info fn h0 r before reads /\ coro_done r = true /\
    delivered (ScanHistory h0) (commands_ r) fresh /\ closes (status_ r) b = true.

Definition history_of (h : History) : Prop := open_history h \/ closed_history h.

Hypothesis Hinterceptors : e_interceptors env' = e_interceptors env.
Hypothesis Hworkflow : portable_workflow.

Lemma portable_here ps : portable (body_of env' fn ps).
Proof. unfold body_of, inbound_head. rewrite Hinterceptors. apply Hworkflow. Qed.

(** A runner that sent nothing yet produced nothing yet. *)
Lemma live_idle h before r : live h before r -> commands_ r = [] -> produced_commands_ r = [].
Proof.
  intros Hl Hc. pose proof (li_commands _ _ _ Hl) as Hcmd.
  rewrite Hc, fmap_nil, app_nil_r, (li_before _ _ _ Hl) in Hcmd.
  by apply (app_inv_head before); rewrite app_nil_r.
Qed.

Lemma open_accepted h r before reads th :
  lives env info fn h r before reads ->
  started_type h <> "" -> th_workflows th !! started_type h = Some fn ->
  ReplayHistory env' h th = Val (inr None).
Proof.
  intros Hl Hty Hfn.
  destruct (lives_started env info fn h r before reads (portable_workflow_steady Hworkflow) Hl)
    as (p0 & r0 & Hh & Hsf & _).
  pose proof (proper_history_well_scanned h Hh) as Hws.
  destruct Hsf as [Hst Hl0 Hcalm Hrun _ _ Hsent Hrep].
  pose proof (li_before _ _ _ Hl0) as Hb. rewrite <- ScanHistory_commands_complete in Hb.
  destruct (Hrep Fresh (ScanHistory h) true env') as (r0' & Hi & Hsim & Hd); try done; [by rewrite Hb|].
  assert (Hp : produced_commands_ r0' = before).
  { rewrite (sm_produced _ _ _ _ _ _ Hsim), (live_idle _ _ _ Hl0 Hsent). apply app_nil_r. }
  destruct (resume_with_consistent p0 r0' Hd) as (r' & Hr' & Hdet).
  { by rewrite Hp, (sm_scan _ _ _ _ _ _ Hsim). }
  apply (ReplayHistory_accepts h th r'); try done; [apply portable_here|by apply proper_timeline|].
  unfold resume_with in *. by rewrite Hi.
Qed.

Lemma terminal_kind_other s e :
  terminal_kind s = Some e ->
  (forall k, kind e <> kind_of k) /\ kind e <> SignalExternalWorkflow /\
  kind e <> UpsertSearchAttributes.
Proof. destruct s; intros [= <-]; by split; [intros []|]. Qed.

Lemma closes_command s b :
  closes s b = true ->
  exists e, terminal_kind s = Some e /\ (forall n, event_command n b = Some e) /\
    forall n ps, scan_event (mkEvent n b) ps = push_command e ps.
Proof. destruct s, b; try done; intros _; by eexists. Qed.

(** A closing event records no operation and resolves none. *)
Lemma push_terminal s e ps :
  terminal_kind s = Some e -> well_scanned ps ->
  well_scanned (push_command e ps) /\ advances ps (push_command e ps).
Proof.
  intros (Hk & Hs & Hu)%terminal_kind_other Hws.
  assert (Hids : forall kd, kind e <> kd -> ids_of kd (ps_commands ps ++ [e]) = ids_of kd (ps_commands ps)).
  { intros kd Hne. rewrite ids_of_snoc, decide_False by done. by rewrite app_nil_r. }
  destruct Hws as [[Ha Hc Hx] Hrec Hres Hsig Hups Hnex]. split.
  - assert (Hsame : forall k id, recorded (push_command e ps) k id = recorded ps k id /\
                                 resolved (push_command e ps) k id = resolved ps k id)
      by (by intros []).
    constructor.
    + by constructor.
    + intros k id. rewrite (proj1 (Hsame k id)), Hrec. simpl. by rewrite (Hids _ (Hk k)).
    + intros k id. destruct (Hsame k id) as [-> ->]. apply Hres.
    + simpl. by rewrite Hids.
    + simpl. by rewrite Hids.
    + simpl. specialize (Hids _ (Hk Nex)). simpl in Hids. by rewrite Hids.
  - constructor; [by intros []|by intros name].
Qed.

Lemma finish_terminal res r r' e :
  status_ r = Blocked -> status_ r' = Blocked ->
  terminal_kind (status_ (finish_body env res r)) = Some e ->
  produced_commands_ (finish_body env' res r') = produced_commands_ r' ++ [e].
Proof.
  intros Hr Hr'. unfold finish_body.
  destruct res as [[]|]; simpl; rewrite ?Hr, ?Hr'; simpl; by intros [= <-].
Qed.

Lemma finish_commands res r : commands_ (finish_body env res r) = commands_ r.
Proof. unfold finish_body. by destruct res as [[]|]. Qed.

Lemma finish_scan res r : scan_ (finish_body env' res r) = scan_ r.
Proof. unfold finish_body. by destruct res as [[]|]. Qed.

(** A body is entered, and so runs, with no outcome. *)
Lemma entered_blocked replaying p ps res r :
  interp env' p (entered env' info replaying fn ps) = Finished r res -> status_ r = Blocked.
Proof.
  intros Hi. pose proof (interp_frame env' p (entered env' info replaying fn ps)) as Hf.
  rewrite Hi in Hf. by destruct Hf as (?&?&?&?&?&?&?&?&->&_).
Qed.

(** The prescan of a history that its closing event ends. *)
Lemma closing_scan h n b s e :
  proper_history h -> terminal_kind s = Some e -> (forall m, event_command m b = Some e) ->
  (forall m ps, scan_event (mkEvent m b) ps = push_command e ps) ->
  let later := ScanHistory (h ++ [mkEvent n b]) in
  well_scanned later /\ advances (ScanHistory h) later /\
  ps_commands later = ps_commands (ScanHistory h) ++ [e] /\
  ps_side_effects later = ps_side_effects (ScanHistory h) /\
  ps_input later = ps_input (ScanHistory h) /\ ps_headers later = ps_headers (ScanHistory h) /\
  ps_post_update_timeline later = ps_post_update_timeline (ScanHistory h).
Proof.
  intros Hh Hterm Hev Hscan later. subst later. rewrite ScanHistory_app.
  2:{ apply Forall_app. split; [by apply proper_history_no_update|].
      constructor; [|constructor]. specialize (Hev 0). by destruct b. }
  simpl. unfold scan1. rewrite Hscan.
  set (ps := (ScanHistory h) <| ps_last_event_id := event_id (mkEvent n b) |>).
  assert (Hws : well_scanned ps) by (apply (Hws' (mkEvent n b)), proper_history_well_scanned, Hh).
  destruct (push_terminal s e ps Hterm Hws) as [Hw Ha]. split_and!; try done.
Qed.

Lemma closed_accepted h r before reads fresh n b th :
  lives env info fn h r before reads -> coro_done r = true ->
  delivered (ScanHistory h) (commands_ r) fresh -> closes (status_ r) b = true ->
  started_type (h ++ fresh ++ [mkEvent n b]) <> "" ->
  th_workflows th !! started_type (h ++ fresh ++ [mkEvent n b]) = Some fn ->
  ReplayHistory env' (h ++ fresh ++ [mkEvent n b]) th = Val (inr None).
Proof.
  intros Hlives Hdone Hdel Hclose Hty Hfn.
  destruct (lives_started env info fn h r before reads (portable_workflow_steady Hworkflow) Hlives)
    as (p0 & r0 & Hh & Hsf & Hr).
  pose proof (interp_live env h before p0 r0 Hh (sf_steady _ _ _ _ _ _ _ _ Hsf)
    (sf_live _ _ _ _ _ _ _ _ Hsf) (sf_calm _ _ _ _ _ _ _ _ Hsf)
    (sf_running _ _ _ _ _ _ _ _ Hsf)) as Hlive.
  destruct Hsf as [Hst Hl0 Hcalm Hrun _ _ Hsent Hrep].
  unfold resume_with in Hr. destruct (interp env p0 r0) as [r1 res|r1 p1|] eqn:Hi; simplify_eq.
  rewrite finish_commands in Hdel.
  destruct (closes_command _ _ Hclose) as (e & Hterm & Hev & Hscan).
  destruct (fresh_proper h before fresh r1 Hh Hlive Hdel) as (Hp & _ & _).
  pose proof (fresh_commands h before fresh r1 Hlive Hdel) as Hcmds.
  pose proof (fresh_values h before fresh r1 Hh Hlive Hdel) as Hvals.
  destruct (applied_advances h before fresh r1 Hh Hlive Hdel) as (Hadv & Hin & Hhd).
  rewrite <- ScanHistory_commands_complete in Hcmds.
  destruct (closing_scan (h ++ fresh) n b _ e Hp Hterm Hev Hscan)
    as (Hws & Hlast & Hc & Hv & Hi2 & Hh2 & Htl).
  rewrite <- app_assoc in *. set (later := ScanHistory (h ++ fresh ++ _)) in *.
  destruct (Hrep Recorded later true env') as (r0' & Hi' & Hsim & Hd); [done|done|by etrans|congruence..
    |rewrite Hc, Hcmds, <- app_assoc; by apply prefix_app_r|rewrite Hv, Hvals; by apply prefix_app_r|].
  pose proof (interp_agrees h before later Recorded reads Hh Hws ltac:(by etrans) env env'
    ltac:(done) p0 r0 r0' Hst Hl0 Hsim Hcalm Hrun Hd) as Hag.
  rewrite Hi in Hag. destruct Hag as (_ & r1' & Hi1 & Hsim1 & _).
  { split; [rewrite Hc, Hcmds; by apply prefix_app_r|by rewrite Hv, Hvals]. }
  rewrite <- Hi' in Hi1. pose proof (entered_blocked _ _ _ _ _ Hi1) as Hb'.
  assert (Hb : status_ r1 = Blocked).
  { rewrite <- Hb'. apply erase_agree; [done|apply (sm_erase _ _ _ _ _ _ Hsim1)]. }
  apply (ReplayHistory_accepts _ th (finish_body env' res r1')); try done.
  - apply portable_here.
  - fold later. rewrite Htl. by apply proper_timeline.
  - unfold resume_with. fold later. by rewrite Hi1.
  - apply CheckDeterminism_prefix.
    rewrite finish_scan, (finish_terminal _ _ _ _ Hb Hb' Hterm), (sm_scan _ _ _ _ _ _ Hsim1),
      (sm_produced _ _ _ _ _ _ Hsim1), Hc, Hcmds. reflexivity.
Qed.

(** ** Children with a default id *)

Lemma do_call_child options type input r :
  co_id options = "" ->
  exists r1 l, do_call env' (ExecuteChildWorkflow options type input) r = (r1, Answer (inr l)) /\
    produced_commands_ r1 = produced_commands_ r ++
      [mk ChildWorkflow (wi_workflow_id (info_ r) +:+ "_c" +:+ to_string (child_seq_ r)) type].
Proof.
  intros Hid. unfold do_call, answering, StartChildWorkflow, EmitStartChildWorkflow, and_then, get,
    modify, produce, emit, alloc, ok. rewrite Hid. simpl.
  destruct (ps_children (scan_ r) !! _) as [[[] ? ? ? ? ? ?]|];
    (do 2 eexists; split; [reflexivity|reflexivity]).
Qed.

(** The first command of a body that starts a child without naming it. *)
Lemma default_child_first options type input k r :
  co_id options = "" -> coro_done r = false -> child_seq_ r = 0 -> produced_commands_ r = [] ->
  exists r' rest, resume_with env' (Call (ExecuteChildWorkflow options type input) k) r = Val r' /\
    scan_ r' = scan_ r /\
    produced_commands_ r' = mk ChildWorkflow (wi_workflow_id (info_ r) +:+ "_c0") type :: rest.
Proof.
  intros Hid Hd Hseq Hnil. set (c := ExecuteChildWorkflow options type input).
  destruct (do_call_child options type input r Hid) as (r1 & l & Hcall & Hp). fold c in Hcall.
  pose proof (do_call_frame env' c r) as Hf. rewrite Hcall in Hf. simpl in Hf.
  assert (Hgo : resume_with env' (Call c k) r = resume_with env' (k (inr l)) r1).
  { unfold resume_with. cbn [interp]. by rewrite Hcall. }
  assert (Hd1 : coro_done r1 = false) by (by rewrite (coro_done_frame _ _ Hf)).
  pose proof (interp_not_stuck env' (k (inr l)) r1 Hd1) as Hns.
  destruct (resume_with env' (k (inr l)) r1) as [r'| |] eqn:Hr;
    [|unfold resume_with in Hr; by destruct (interp env' (k (inr l)) r1)..].
  pose proof (resume_with_respects env' _ _ _ _ (interp_outputs env') (finish_outputs env') Hd1 Hr)
    as (dp & dc & Hout & _).
  pose proof (resume_with_scan env' _ _ _ Hgo) as Hscan.
  exists r', dp. split_and!; [by rewrite Hgo|by rewrite Hscan|].
  rewrite Hout, Hp, Hnil, Hseq. reflexivity.
Qed.
End Replays.

(** An offline replay accepts every history the code itself made.  The server's
    history of a run of a registered workflow - open, or closed by the event of the
    run's outcome - replays to the end without a mismatch, in another worker, with
    another identity and another outside world, whenever the body is [portable]:
    steady, and free of the calls that look at the run's identity. *)
Theorem replayer_accepts_own_history `{Codec, !CodecLaws _} (env env' : Env) info fn h th :
  portable_workflow env fn -> e_interceptors env' = e_interceptors env ->
  history_of env info fn h ->
  started_type h <> "" -> th_workflows th !! started_type h = Some fn ->
  ReplayHistory env' h th = Val (inr None).
Proof.
  intros Hw Hi [(r & before & reads & Hl)|(h0 & r & before & reads & fresh & n & b & -> & Hl & Hd & Hdel & Hc)]
    Hty Hfn; [by eapply open_accepted|by eapply closed_accepted].
Qed.


(** ** Closed instances *)

Definition replaying_handler (fn : Payloads -> prog) : WorkflowTaskHandler :=
  Register "W" fn (make_handler "elsewhere" "me" "other" "sticky" BlockWorkflow 0 0).

Definition greeting_closed : History :=
  ([started] ++ greeted) ++ [] ++
  [mkEvent 4 (WorkflowExecutionCompleted (ToProtoPayloads [bytes "hi"]))].

Lemma one_activity_portable : portable_workflow ref_env one_activity.
Proof.
  split; [|by intros type options input header; eexists].
  intros input header. constructor; [done|]. intros [e|l]; [constructor|].
  constructor; [done|]. intros [e|v]; constructor.
Qed.

Lemma greeting_closed_history : history_of ref_env ref_info one_activity greeting_closed.
Proof.
  right. do 7 eexists. split_and!; [reflexivity|exact greeting_lives|vm_compute; reflexivity|
    |vm_compute; reflexivity].
  split; [done|]. exists [], [], []. split_and!; done.
Qed.

(** The greeting's closed history, replayed by another worker in another world. *)
Lemma replayer_accepts_own_history_witness :
  ReplayHistory (world_env "x") greeting_closed (replaying_handler one_activity) = Val (inr None).
Proof.
  apply (replayer_accepts_own_history ref_env (world_env "x") ref_info one_activity).
  - exact one_activity_portable.
  - reflexivity.
  - exact greeting_closed_history.
  - vm_compute. discriminate.
  - vm_compute. reflexivity.
Defined.

Definition one_child (_ : Payloads) : prog :=
  l <~ ExecuteChildWorkflow (mkChildWorkflowOptions "" "" PolicyTerminate) "Child" [];
  r <~ FutureGet l;
  Return r.

(** What the workflow "wf" recorded for its first task. *)
Definition child_history : History :=
  [started; mkEvent 2 (StartChildWorkflowExecutionInitiated "wf_c0" "Child")].

