(* ===== verification/TaskHandlerFacts.v ===== *)
(** * Properties of the workflow task handler *)

From S2P Require Import Prelude Common Effects Determinism LruCache History Workflow Interceptors Runner Reference RunnerFacts TaskHandler.
Import CommandEvent.

(** ** One response per task *)

Abbreviation sent_count s := (length (hs_sent s)).

(** [m] makes at most one RPC, and [f a] of them when it returns [a]. *)
Definition sends {A} (f : A -> nat) (m : H A) : Prop :=
  forall s s' x, m s = Val (s', x) ->
    exists n, (n <= 1)%nat /\ sent_count s' = (sent_count s + n)%nat /\
              match x with inr a => n = f a | inl _ => True end.

Definition quiet {A} (m : H A) : Prop :=
  forall s s' x, m s = Val (s', x) -> hs_sent s' = hs_sent s.

Section Sends.
Context {A B : Type}.

Lemma quiet_sends (m : H A) : quiet m -> sends (fun _ => 0%nat) m.
Proof.
  intros Hq s s' x Hm. exists 0%nat. rewrite (Hq _ _ _ Hm). split_and!; [lia|lia|by case_match].
Qed.

Lemma quiet_bind (m : H A) (k : A -> H B) : quiet m -> (forall a, quiet (k a)) -> quiet (hbind m k).
Proof.
  intros Hm Hk s s' x. unfold hbind. destruct (m s) as [[s1 [e|a]]| |] eqn:H1; try done.
  - intros [= <- <-]. by eapply Hm.
  - intros H2. rewrite (Hk _ _ _ _ H2). by eapply Hm.
Qed.

Lemma quiet_try (m : H A) (k : result A -> H B) :
  quiet m -> (forall a, quiet (k a)) -> quiet (htry m k).
Proof.
  intros Hm Hk s s' x. unfold htry. destruct (m s) as [[s1 y]| |] eqn:H1; try done.
  intros H2. rewrite (Hk _ _ _ _ H2). by eapply Hm.
Qed.

Lemma sends_quiet_bind (m : H A) (k : A -> H B) f :
  quiet m -> (forall a, sends f (k a)) -> sends f (hbind m k).
Proof.
  intros Hm Hk s s' x. unfold hbind. destruct (m s) as [[s1 [e|a]]| |] eqn:H1; try done.
  - intros [= <- <-]. exists 0%nat. rewrite (Hm _ _ _ H1). split_and!; [lia|lia|done].
  - intros H2. destruct (Hk _ _ _ _ H2) as (n & Hn & Hs & Hx). exists n.
    by rewrite <- (Hm _ _ _ H1).
Qed.

Lemma sends_bind (m : H A) (k : A -> H B) f g :
  sends f m -> (forall a, f a = 0%nat -> sends g (k a)) ->
  (forall a, f a <> 0%nat -> quiet (k a) /\ forall b, g b = f a) -> sends g (hbind m k).
Proof.
  intros Hm H0 H1 s s' x. unfold hbind. destruct (m s) as [[s1 [e|a]]| |] eqn:Hms; try done;
    destruct (Hm _ _ _ Hms) as (n & Hn & Hs & Hx).
  - intros [= <- <-]. by exists n.
  - intros Hk. destruct (decide (f a = 0%nat)) as [Hf|Hf].
    + destruct (H0 a Hf _ _ _ Hk) as (n2 & Hn2 & Hs2 & Hx2). exists n2. split_and!; [done|lia|done].
    + destruct (H1 a Hf) as [Hq Hg]. exists n. rewrite (Hq _ _ _ Hk).
      split_and!; [done|done|]. case_match; [done|]. by rewrite Hg.
Qed.
End Sends.

Lemma quiet_ret {A} (a : A) : quiet (hret a).
Proof. by intros s s' x [= <- <-]. Qed.
Lemma quiet_throw {A} e : quiet (hthrow e : H A).
Proof. by intros s s' x [= <- <-]. Qed.
Lemma quiet_lift {A} (y : result A) : quiet (hlift y).
Proof. by intros s s' x [= <- <-]. Qed.
Lemma quiet_get {A} (f : WorkflowTaskHandler -> A) : quiet (hget f).
Proof. by intros s s' x [= <- <-]. Qed.
Lemma quiet_modify f : quiet (hmodify f).
Proof. by intros s s' x [= <- <-]. Qed.
Lemma quiet_new_ptr r : quiet (new_ptr r).
Proof. by intros s s' x [= <- <-]. Qed.
Lemma quiet_cache_get run_id : quiet (cache_get run_id).
Proof. intros s s' x. unfold cache_get. case_match. by intros [= <- <-]. Qed.

Lemma quiet_with_runner {A} p (f : WorkflowRunner -> outcome (WorkflowRunner * result A)) :
  quiet (with_runner p f).
Proof.
  intros s s' x. unfold with_runner. repeat case_match; try done. by intros [= <- <-].
Qed.

Lemma quiet_catch {A B} (x : result A) (on_error : exn -> H B) (on_ok : A -> H B) :
  (forall e, quiet (on_error e)) -> (forall a, quiet (on_ok a)) -> quiet (catch_std x on_error on_ok).
Proof. intros He Hk. unfold catch_std. repeat case_match; auto using quiet_throw. Qed.

#[export] Hint Resolve quiet_ret quiet_throw quiet_lift quiet_get quiet_modify quiet_new_ptr
  quiet_cache_get quiet_with_runner : quiet.
#[export] Hint Unfold on_runner read_runner cache_put cache_erase : quiet_ops.

Ltac quiet_step :=
  lazymatch goal with
  | |- quiet (hbind _ _) => apply quiet_bind; [|intros ?]
  | |- quiet (htry _ _) => apply quiet_try; [|intros ?]
  | |- quiet (catch_std _ _ _) => apply quiet_catch; intros ?
  | |- quiet (match ?x with _ => _ end) => destruct x
  | |- quiet _ => solve [auto with quiet]
  end.

Ltac quiet_ops := repeat (autounfold with quiet_ops; repeat quiet_step).

Section Handler.
Context `{Codec} (env : Env).
Context (rpc : Response -> result unit) (fetch : string -> result (History * string)).

Lemma sends_send resp : sends (fun _ => 1%nat) (send rpc resp).
Proof.
  intros s s' x [= <- <-]. exists 1%nat. simpl. rewrite length_app. simpl.
  split_and!; [done|done|by case_match].
Qed.

Lemma sends_fail_task task cause failure : sends (fun _ => 1%nat) (fail_task rpc task cause failure).
Proof. apply sends_quiet_bind; [apply quiet_get|intros]. apply sends_send. Qed.

Lemma quiet_fetch_pages fuel events token : quiet (fetch_pages fetch fuel events token).
Proof.
  revert events token. induction fuel as [|fuel IH]; intros events token; simpl;
    (case_match; [apply quiet_ret|]); [done|].
  apply quiet_bind; [apply quiet_lift|intros]. apply IH.
Qed.

Lemma quiet_build fuel info fn : quiet (BuildRunnerForQuery env fetch fuel info fn).
Proof.
  intros s s' x. unfold BuildRunnerForQuery, hbind, new_ptr, hret.
  repeat case_match; try done; intros; simplify_eq; done.
Qed.

Lemma quiet_select task h : quiet (select_cached task h).
Proof. unfold select_cached. quiet_ops. Qed.

Lemma quiet_answer renv p q : quiet (answer_query renv p q).
Proof. unfold answer_query, query_runner. quiet_ops. Qed.

Lemma quiet_updates p msgs : quiet (process_updates env p msgs).
Proof.
  induction msgs as [|m msgs IH]; simpl; [apply quiet_ret|].
  apply quiet_bind; [unfold process_update; quiet_ops|intros].
  apply quiet_bind; [done|intros; apply quiet_ret].
Qed.

Lemma quiet_answers p qs results : quiet (answer_queries env p qs results).
Proof.
  revert results. induction qs as [|[k q] qs IH]; intros results; simpl; [apply quiet_ret|].
  apply quiet_bind; [apply quiet_answer|intros; apply IH].
Qed.

(** How many RPCs the first half made, from its decision. *)
Definition made (d : decision) : nat := match d with Responded => 1 | Proceed _ _ => 0 end.

Lemma sends_responded (m : H unit) :
  sends (fun _ => 1%nat) m -> sends made (m;;== hret Responded).
Proof.
  intros Hm s s' x. unfold hbind, hret. destruct (m s) as [[s1 [e|[]]]| |] eqn:H1; try done;
    intros [= <- <-]; destruct (Hm _ _ _ H1) as (n & Hn & Hs & Hx); by exists n.
Qed.

Lemma sends_proceed p renv : sends made (hret (Proceed p renv)).
Proof. intros s s' x [= <- <-]. exists 0%nat. split_and!; [lia|lia|done]. Qed.

Lemma sends_abort task p : sends (fun _ => 1%nat) (abort_deadlock rpc task p).
Proof.
  unfold abort_deadlock.
  repeat first [apply sends_fail_task | apply sends_quiet_bind; [quiet_ops|intros ?]].
Qed.

Lemma sends_continue task h p : sends made (continue_cached env rpc task h p).
Proof.
  unfold continue_cached. apply sends_quiet_bind; [quiet_ops|intros ?].
  case_match; [apply sends_proceed|].
  repeat (apply sends_quiet_bind; [quiet_ops|intros ?]).
  case_match; [apply sends_responded, sends_abort|apply sends_proceed].
Qed.

Lemma sends_reject task detail : sends (fun _ => 1%nat) (reject_nondeterministic rpc task detail).
Proof.
  unfold reject_nondeterministic. apply sends_quiet_bind; [quiet_ops|intros []].
  - apply sends_fail_task.
  - apply sends_quiet_bind; [quiet_ops|intros ?]. apply sends_send.
Qed.

Lemma sends_replay task h info fn : sends made (replay_full env rpc task h info fn).
Proof.
  unfold replay_full.
  repeat first [apply sends_responded, sends_abort | apply sends_responded, sends_reject |
                apply sends_proceed | case_match |
                apply sends_quiet_bind; [solve [quiet_ops]|intros ?]].
Qed.

Lemma sends_prepare fuel task h info fn :
  sends made (prepare env rpc fetch fuel task h info fn).
Proof.
  unfold prepare. apply sends_quiet_bind; [apply quiet_select|intros [p|]];
    [apply sends_continue|].
  case_match; [apply sends_quiet_bind; [apply quiet_build|intros ?; apply sends_proceed]|].
  case_match; [apply sends_responded, sends_fail_task|apply sends_replay].
Qed.

Lemma sends_complete task p : sends (fun _ => 1%nat) (complete_task env rpc task p).
Proof.
  unfold complete_task. repeat (apply sends_quiet_bind;
    [solve [quiet_ops | apply quiet_updates | apply quiet_answers]|intros ?]).
  eapply sends_bind; [apply sends_send|done|]. intros ? _. split; [quiet_ops|done].
Qed.

Lemma sends_finish task d : sends (fun _ => (1 - made d)%nat) (finish env rpc task d).
Proof.
  destruct d as [|p renv]; simpl.
  - intros s s' x [= <- <-]. exists 0%nat. split_and!; [lia|lia|done].
  - case_match; [apply sends_quiet_bind; [apply quiet_answer|intros ?; apply sends_send]|].
    destruct p as [p|]; [apply sends_complete|done].
Qed.

(** The sum over the two halves is one. *)
Lemma sends_halves task (m : H decision) :
  sends made m -> sends (fun _ => 1%nat) (d <== m;; finish env rpc task d).
Proof.
  intros Hm s s' x. unfold hbind. destruct (m s) as [[s1 [e|d]]| |] eqn:H1; try done;
    destruct (Hm _ _ _ H1) as (n & Hn & Hs & Hx).
  - intros [= <- <-]. by exists n.
  - intros H2. destruct (sends_finish task d _ _ _ H2) as (n2 & Hn2 & Hs2 & Hx2).
    subst n. exists (made d + n2)%nat. split_and!; [|lia|].
    + destruct d; simpl in *; [|lia]. injection H2 as <- _. lia.
    + case_match; [done|]. subst n2. destruct d; simpl; lia.
Qed.

(** C3: every task is answered once: [Handle] never makes two RPCs for a task, and
    when it returns normally it has made exactly one, on every path (unknown type,
    resent history, query, deadlock, non-determinism, completion). *)
Theorem Handle_responds_once (fuel : nat) (task : WorkflowTask) (s s' : HState) (x : result unit) :
  Handle env rpc fetch fuel task s = Val (s', x) ->
  (sent_count s' <= S (sent_count s))%nat /\
  (x = inr tt -> sent_count s' = S (sent_count s)).
Proof.
  intros Hh.
  assert (Hs : sends (fun _ => 1%nat) (Handle env rpc fetch fuel task)).
  { unfold Handle. do 2 (apply sends_quiet_bind; [quiet_ops|intros ?]).
    case_match; [|apply sends_fail_task].
    apply sends_quiet_bind; [unfold full_history; case_match;
      [apply quiet_ret|apply quiet_fetch_pages]|intros ?].
    apply sends_halves, sends_prepare. }
  destruct (Hs _ _ _ Hh) as (n & Hn & Hc & Hx). split; [lia|]. intros ->. lia.
Qed.
End Handler.

(** ** The sticky cache *)

Section Cache.
Context (n : nat).

(** What the entries [m] of the cache of [h] satisfy: they point to existing runners
    that were not abandoned at a deadlock, and to each from one run id only. *)
Record sound (m : list (string * rptr)) (h : WorkflowTaskHandler) : Prop := {
  so_lives : forall key p, (key, p) ∈ m -> (p < length (th_runners h))%nat /\ p ∉ th_leaked h;
  so_owner : forall key key' p, (key, p) ∈ m -> (key', p) ∈ m -> key = key';
  so_leaked : forall p, p ∈ th_leaked h -> (p < length (th_runners h))%nat
}.

(** The cache is a well-formed LRU cache of capacity [n] with sound entries. *)
Definition cache_safe (h : WorkflowTaskHandler) : Prop :=
  exists m, Lru.implements n (th_cache h) m /\ sound m h.

(** A task works on the runners of one run. *)
Context (run : string).

Record held (m : list (string * rptr)) (h : WorkflowTaskHandler) (p : rptr) : Prop := {
  he_live : (p < length (th_runners h))%nat /\ p ∉ th_leaked h;
  he_owner : forall key, (key, p) ∈ m -> key = run
}.

(** [cache_safe], while the handler holds the pointers [ps] to runners of the run. *)
Definition safe (ps : list rptr) (s : HState) : Prop :=
  exists m, Lru.implements n (th_cache (hs_handler s)) m /\ sound m (hs_handler s) /\
            forall p, p ∈ ps -> held m (hs_handler s) p.

Definition keeps {A} (ps : list rptr) (m : H A) (qs : list rptr) : Prop :=
  forall s s' x, safe ps s -> m s = Val (s', x) -> safe qs s'.

Lemma safe_nil ps s : safe ps s -> safe [] s.
Proof. intros (m & ? & ? & _). exists m. split_and!; [done..|]. by intros p ?%elem_of_nil. Qed.

Lemma keeps_drop {A} ps (m : H A) : keeps ps m ps -> keeps ps m [].
Proof. intros Hm s s' x Hs H1. eapply safe_nil, Hm; eauto. Qed.

Lemma keeps_bind {A B} ps qs (m : H A) (f : A -> H B) :
  keeps ps m ps -> (forall a, keeps ps (f a) qs) -> (qs = ps \/ qs = []) ->
  keeps ps (hbind m f) qs.
Proof.
  intros Hm Hf Hq s s' x Hs. unfold hbind. destruct (m s) as [[s1 [e|a]]| |] eqn:H1; try done.
  - intros [= <- <-]. destruct Hq as [->| ->]; [|eapply safe_nil]; by eapply Hm.
  - intros H2. eapply Hf; [|exact H2]. by eapply Hm.
Qed.

Lemma keeps_seq {A B} ps (m : H A) (f : A -> H B) :
  keeps ps m [] -> (forall a, keeps [] (f a) []) -> keeps ps (hbind m f) [].
Proof.
  intros Hm Hf s s' x Hs. unfold hbind. destruct (m s) as [[s1 [e|a]]| |] eqn:H1; try done.
  - intros [= <- <-]. by eapply Hm.
  - intros H2. eapply Hf; [|exact H2]. by eapply Hm.
Qed.

Lemma keeps_try {A B} ps qs (m : H A) (f : result A -> H B) :
  keeps ps m ps -> (forall a, keeps ps (f a) qs) -> keeps ps (htry m f) qs.
Proof.
  intros Hm Hf s s' x Hs. unfold htry. destruct (m s) as [[s1 y]| |] eqn:H1; try done.
  intros H2. eapply Hf; [|exact H2]. by eapply Hm.
Qed.

Lemma keeps_pure {A} ps (m : H A) :
  (forall s s' x, m s = Val (s', x) -> hs_handler s' = hs_handler s) -> keeps ps m ps.
Proof. intros Hm s s' x Hs H1. unfold safe. by rewrite (Hm _ _ _ H1). Qed.

(** A change of the handler that leaves the cache, the abandoned runners and the
    number of runners as they are. *)
Lemma safe_same ps s s' :
  th_cache (hs_handler s') = th_cache (hs_handler s) ->
  th_leaked (hs_handler s') = th_leaked (hs_handler s) ->
  length (th_runners (hs_handler s')) = length (th_runners (hs_handler s)) ->
  safe ps s -> safe ps s'.
Proof.
  intros Hc Hl Hr (m & Hi & [H1 H2 H3] & Hp). exists m. rewrite Hc. split; [done|]. split.
  - by constructor; rewrite ?Hl, ?Hr.
  - intros p Hin. destruct (Hp p Hin). by constructor; rewrite ?Hl, ?Hr.
Qed.

Lemma keeps_modify ps f :
  (forall h, th_cache (f h) = th_cache h /\ th_leaked (f h) = th_leaked h /\
             th_runners (f h) = th_runners h) ->
  keeps ps (hmodify f) ps.
Proof.
  intros Hf s s' x Hs [= <- <-]. destruct (Hf (hs_handler s)) as (Hc & Hl & Hr).
  by eapply safe_same; [..|exact Hs]; simpl; rewrite ?Hr.
Qed.

Lemma keeps_with_runner {A} ps p (f : WorkflowRunner -> outcome (WorkflowRunner * result A)) :
  keeps ps (with_runner p f) ps.
Proof.
  intros s s' x Hs. unfold with_runner. destruct (runner_at _ p); [|done].
  destruct (f _) as [[r a]| |]; try done.
  intros [= <- <-]. eapply safe_same; [..|exact Hs]; simpl; by rewrite ?length_insert.
Qed.

Lemma keeps_catch {A B} ps (x : result A) (on_error : exn -> H B) (on_ok : A -> H B) :
  (forall e, keeps ps (on_error e) ps) -> (forall a, keeps ps (on_ok a) ps) ->
  keeps ps (catch_std x on_error on_ok) ps.
Proof.
  intros He Ho. unfold catch_std. destruct x as [e|]; [|done]. case_match; [done|].
  by apply keeps_pure; intros ? ? ? [= <- <-].
Qed.

(** A new runner is in no entry. *)
Lemma safe_new_ptr ps s s' r x :
  safe ps s -> new_ptr r s = Val (s', x) ->
  exists p, x = inr p /\ safe (p :: ps) s'.
Proof.
  intros (m & Hi & [H1 H2 H3] & Hp) [= <- <-]. eexists. split; [reflexivity|].
  exists m. split; [done|].
  assert (Hlt : forall q, (q < length (th_runners (hs_handler s)))%nat ->
                          (q < length (th_runners (hs_handler s) ++ [r]))%nat)
    by (intros q Hq; rewrite length_app; lia).
  split.
  - constructor; simpl; [|done|naive_solver].
    intros key q Hin. destruct (H1 _ _ Hin). auto.
  - intros q [->|Hq]%elem_of_cons.
    + constructor; simpl; [split|].
      * rewrite length_app. simpl. lia.
      * intros Hin%H3. lia.
      * intros key Hin. destruct (H1 _ _ Hin). lia.
    + destruct (Hp q Hq) as [[Hl Hk] Ho]. constructor; simpl; auto.
Qed.

Lemma keeps_new_ptr {B} ps r (f : rptr -> H B) :
  (forall p, keeps (p :: ps) (f p) []) -> keeps ps (hbind (new_ptr r) f) [].
Proof.
  intros Hf s s' x Hs. unfold hbind. destruct (new_ptr r s) as [[s1 y]| |] eqn:H1; try done.
  destruct (safe_new_ptr _ _ _ _ _ Hs H1) as (p & -> & Hs1). intros H2. by eapply Hf.
Qed.

(** Changing the cache to one with fewer entries. *)
Lemma safe_sub ps s c m' :
  safe ps s ->
  (forall m, Lru.implements n (th_cache (hs_handler s)) m ->
     Lru.implements n c (m' m) /\ forall e, e ∈ m' m -> e ∈ m) ->
  safe ps (s <| hs_handler ::= fun h => h <| th_cache := c |> |>).
Proof.
  intros (m & Hi & [H1 H2 H3] & Hp) Hsub. destruct (Hsub m Hi) as [Hi' Hm]. exists (m' m).
  split; [done|]. split; [constructor; simpl; eauto|].
  intros p Hin. destruct (Hp p Hin) as [Hl Ho]. constructor; simpl; eauto.
Qed.

Lemma elem_spec_remove key e (m : list (string * rptr)) :
  e ∈ Lru.spec_remove key m <-> e.1 <> key /\ e ∈ m.
Proof. unfold Lru.spec_remove. by rewrite list_elem_of_filter. Qed.

Lemma elem_spec_put key p e (m : list (string * rptr)) :
  e ∈ Lru.spec_put n key p m -> e = (key, p) \/ (e.1 <> key /\ e ∈ m).
Proof.
  unfold Lru.spec_put, Lru.spec_truncate. intros He.
  assert (Hin : e ∈ (key, p) :: Lru.spec_remove key m)
    by (case_decide; [done|by apply elem_of_take in He as (i & Hl & _);
                          eapply list_elem_of_lookup_2]).
  apply elem_of_cons in Hin as [->|Hin]; [by left|]. right. by apply elem_spec_remove.
Qed.

Lemma keeps_cache_put ps p : p ∈ ps -> keeps ps (cache_put run p) ps.
Proof.
  intros Hin s s' x (m & Hi & [H1 H2 H3] & Hp) [= <- <-].
  exists (Lru.spec_put n run p m). split; [simpl; by apply Lru.Put_implements|].
  destruct (Hp p Hin) as [Hl Ho]. split; [constructor; simpl|].
  - intros key q [[= -> ->]|[_ Hq]]%elem_spec_put; [done|by eapply H1].
  - intros key key' q [[= -> ->]|[Hk Hq]]%elem_spec_put [[= ->]|[Hk' Hq']]%elem_spec_put; subst;
      [done|by rewrite (Ho _ Hq')|by apply Ho|by eapply H2].
  - done.
  - intros q Hq. destruct (Hp q Hq) as [Hl' Ho']. constructor; simpl; [done|].
    intros key [[= ->]|[_ Hk]]%elem_spec_put; auto.
Qed.

Lemma keeps_cache_erase ps key : keeps ps (cache_erase key) ps.
Proof.
  intros s s' x Hs [= <- <-]. apply (safe_sub _ _ _ (Lru.spec_remove key)); [done|].
  intros m Hi. split; [by apply Lru.Erase_implements|]. intros e [_ ?]%elem_spec_remove. done.
Qed.

Lemma spec_lookup_elem key (v : rptr) (m : list (string * rptr)) :
  Lru.spec_lookup key m = Some v -> (key, v) ∈ m.
Proof.
  unfold Lru.spec_lookup. intros ([i [k w]] & Hf & Hv)%fmap_Some. simpl in Hv. subst.
  apply list_find_Some in Hf as (Hl & Hk & _). simpl in Hk. subst.
  by eapply list_elem_of_lookup_2.
Qed.

(** A pointer taken from the cache is the run's own. *)
Lemma safe_cache_get ps s s' x :
  safe ps s -> cache_get run s = Val (s', x) ->
  exists v, x = inr v /\ safe (option_list v ++ ps) s'.
Proof.
  intros Hs. unfold cache_get.
  assert (Hsub : forall (m : list (string * rptr)) e, e ∈ (Lru.spec_get run m).2 -> e ∈ m).
  { intros m e. unfold Lru.spec_get. destruct (Lru.spec_lookup run m) eqn:Hl; [|done].
    intros [->|[_ ?]%elem_spec_remove]%elem_of_cons; [by apply spec_lookup_elem|done]. }
  destruct Hs as (m & Hi & Hso & Hp).
  destruct (Lru.Get_implements n run _ m Hi) as [Hv Hi'].
  destruct (Lru.Get run (th_cache (hs_handler s))) as [v c]. intros [= <- <-].
  exists v. split; [done|]. exists (Lru.spec_get run m).2. split; [done|].
  destruct Hso as [H1 H2 H3]. split; [constructor; simpl; eauto|].
  intros p [Hin|Hin]%elem_of_app.
  - assert (Hl : (run, p) ∈ m).
    { simpl in Hv. subst v. unfold Lru.spec_get in Hin. apply spec_lookup_elem.
      by destruct (Lru.spec_lookup run m); [apply list_elem_of_singleton in Hin as ->|
                                            apply elem_of_nil in Hin]. }
    constructor; simpl; [by eapply H1|]. intros key Hk. eapply H2; eauto.
  - destruct (Hp p Hin) as [Hl Ho]. constructor; simpl; eauto.
Qed.
End Cache.

Ltac keeps_step :=
  lazymatch goal with
  | |- keeps _ _ _ (hbind (new_ptr _) _) _ => apply keeps_new_ptr; intros ?
  | |- keeps _ _ _ (hbind _ _) _ => apply keeps_bind; [|intros ?|by auto]
  | |- keeps _ _ _ (htry _ _) _ => apply keeps_try; [|intros ?]
  | |- keeps _ _ _ (catch_std _ _ _) _ => apply keeps_catch; intros ?
  | |- keeps _ _ _ (match ?x with _ => _ end) _ => destruct x
  | |- keeps _ _ _ (with_runner _ _) _ => apply keeps_with_runner
  | |- keeps _ _ _ (cache_erase _) _ => apply keeps_cache_erase
  | |- keeps _ _ _ (cache_put _ _) _ => apply keeps_cache_put; set_solver
  | |- keeps _ _ _ (hmodify _) _ => apply keeps_modify; by intros []
  | |- keeps _ _ _ _ _ => solve [apply keeps_pure; by intros ? ? ? [= <- <-]]
  end.

#[export] Hint Unfold on_runner read_runner fail_task reject_nondeterministic
  query_runner answer_query process_update complete_task : keeps_ops.

Ltac keeps_ops :=
  repeat (autounfold with keeps_ops;
          first [keeps_step | apply keeps_drop; keeps_step]).

Section CacheProperties.
Context `{Codec} (env : Env).
Context (rpc : Response -> result unit) (fetch : string -> result (History * string)).
Context (n : nat) (task : WorkflowTask).
Let run := wt_run_id task.

Lemma keeps_fetch fuel events token :
  keeps n run [] (fetch_pages fetch fuel events token) [].
Proof.
  revert events token.
  induction fuel as [|fuel IH]; intros events token; simpl; (case_match; [keeps_step|]).
  - intros ? ? ? ? Hf. discriminate Hf.
  - apply keeps_bind; [keeps_step|intros; apply IH|by auto].
Qed.

Lemma keeps_build fuel info fn :
  keeps n run [] (BuildRunnerForQuery env fetch fuel info fn) [].
Proof.
  intros s s' x Hs. unfold BuildRunnerForQuery. repeat case_match; try done;
    try (intros; simplify_eq; done).
  intros Hb. eapply (keeps_new_ptr n run [] w (fun p => hret (Some p))); [|exact Hs|exact Hb].
  intros p. keeps_ops.
Qed.

Lemma keeps_updates p msgs : keeps n run [] (process_updates env p msgs) [].
Proof.
  induction msgs as [|m msgs IH]; simpl; [keeps_step|].
  apply keeps_bind; [keeps_ops|intros|by auto].
  apply keeps_bind; [done|intros; keeps_step|by auto].
Qed.

Lemma keeps_answers p qs results : keeps n run [] (answer_queries env p qs results) [].
Proof.
  revert results. induction qs as [|[key q] qs IH]; intros results; simpl; [keeps_step|].
  apply keeps_bind; [keeps_ops|intros; apply IH|by auto].
Qed.

(** The abandoned runner is out of the cache before it is marked as leaked. *)
Lemma keeps_abort p : keeps n run [p] (abort_deadlock rpc task p) [].
Proof.
  unfold abort_deadlock.
  do 2 (apply keeps_bind; [by keeps_ops|intros _|by auto]).
  intros s s' x (m & Hi & [H1 H2 H3] & Hp). erewrite hbind_val by reflexivity.
  erewrite hbind_val by reflexivity.
  assert (Hs : keeps n run [] (fail_task rpc task NoCause (Some deadlock_failure)) []) by keeps_ops.
  apply Hs. destruct (Hp p) as [Hl Ho]; [set_solver|].
  exists (Lru.spec_remove run m). split; [by apply Lru.Erase_implements|].
  split; [constructor; simpl|by intros ? ?%elem_of_nil].
  - intros key q [Hk Hq]%elem_spec_remove. destruct (H1 _ _ Hq) as [Hlt Hnl].
    split; [done|]. intros [|Heq%list_elem_of_singleton]%elem_of_app; [done|]. subst q.
    by apply Hk, Ho.
  - intros key key' q [_ Hq]%elem_spec_remove [_ Hq']%elem_spec_remove. by eapply H2.
  - intros q [|Heq%list_elem_of_singleton]%elem_of_app; [by apply H3|]. subst q. by apply Hl.
Qed.

Lemma keeps_continue h p : keeps n run [p] (continue_cached env rpc task h p) [].
Proof.
  unfold continue_cached. apply keeps_bind; [keeps_ops|intros _|by auto].
  case_match; [by keeps_ops|].
  do 4 (apply keeps_bind; [by keeps_ops|intros ?|by auto]).
  case_match; [apply keeps_seq; [apply keeps_abort|intros; keeps_ops]|by keeps_ops].
Qed.

Lemma keeps_replay h info fn : keeps n run [] (replay_full env rpc task h info fn) [].
Proof.
  unfold replay_full. do 2 (apply keeps_bind; [by keeps_ops|intros ?|by auto]).
  apply keeps_new_ptr; intros p.
  do 2 (apply keeps_bind; [by keeps_ops|intros ?|by auto]).
  case_match; [apply keeps_seq; [apply keeps_abort|intros; keeps_ops]|].
  case_match; [by keeps_ops|]. by keeps_ops.
Qed.

(** The runner selected for the task is held; otherwise nothing is. *)
Lemma safe_select h s s' x :
  safe n run [] s -> select_cached task h s = Val (s', x) ->
  safe n run (match x with inr v => option_list v | inl _ => [] end) s'.
Proof.
  intros Hs. unfold select_cached. case_match; [by intros [= <- <-]|]. unfold hbind at 1.
  destruct (cache_get (wt_run_id task) s) as [[s1 y]| |] eqn:Hg; try done.
  destruct (safe_cache_get _ _ _ _ _ _ Hs Hg) as (v & -> & Hs1). simpl in Hs1.
  destruct v as [p|]; [|by intros [= <- <-]]. unfold hbind.
  destruct (read_runner p last_event_id s1) as [[s2 [e|last]]| |] eqn:Hr; try done.
  - intros [= <- <-]. eapply safe_nil. by eapply keeps_with_runner.
  - assert (Hs2 : safe n run [p] s2) by (eapply keeps_with_runner; [exact Hs1|exact Hr]).
    case_match; intros [= <- <-]; [done|by eapply safe_nil].
Qed.

Lemma keeps_prepare fuel h info fn :
  keeps n run [] (prepare env rpc fetch fuel task h info fn) [].
Proof.
  intros s s' x Hs. unfold prepare. unfold hbind at 1.
  destruct (select_cached task h s) as [[s1 y]| |] eqn:Hsel; try done.
  apply safe_select in Hsel; [|done]. destruct y as [e|[p|]]; simpl in Hsel.
  - by intros [= <- <-].
  - by apply keeps_continue.
  - revert Hsel. apply (fun Hk => Hk : keeps n run [] _ []).
    case_match; [apply keeps_bind; [apply keeps_build|intros; keeps_ops|by auto]|].
    case_match; [by keeps_ops|apply keeps_replay].
Qed.

Lemma keeps_finish d : keeps n run [] (finish env rpc task d) [].
Proof.
  destruct d as [|p renv]; simpl; [keeps_ops|].
  case_match; [by keeps_ops|]. destruct p as [p|]; [|by intros ? ? ? ? Hf].
  unfold complete_task.
  do 3 (apply keeps_bind; [by keeps_ops|intros ?|by auto]).
  apply keeps_bind; [apply keeps_updates|intros|by auto].
  apply keeps_bind; [by keeps_ops|intros ?|by auto].
  apply keeps_bind; [apply keeps_answers|intros|by auto].
  by keeps_ops.
Qed.

(** C4: the sticky cache stays sound across tasks: whatever [Handle] does, errors
    and deadlocks included, the cache remains a well-formed LRU cache within its
    capacity, every entry points to an existing runner, each runner is cached for one
    run only, and no runner that was abandoned at a deadlock (its coroutine leaked)
    can be reached through the cache by a later task. *)
Theorem Handle_keeps_cache_safe (fuel : nat) (s s' : HState) (x : result unit) :
  cache_safe n (hs_handler s) -> Handle env rpc fetch fuel task s = Val (s', x) ->
  cache_safe n (hs_handler s').
Proof.
  intros (m & Hi & Hso) Hh.
  assert (Hk : keeps n run [] (Handle env rpc fetch fuel task) []).
  { unfold Handle, full_history. do 2 (apply keeps_bind; [by keeps_ops|intros ?|by auto]).
    case_match; [|by keeps_ops].
    apply keeps_bind; [case_match; [by keeps_ops|apply keeps_fetch]|intros|by auto].
    apply keeps_bind; [apply keeps_prepare|intros; apply keeps_finish|by auto]. }
  destruct (Hk s s' x) as (m' & ? & ? & _); [|done|by exists m'].
  exists m. split_and!; [done..|]. by intros p ?%elem_of_nil.
Qed.
End CacheProperties.

(** ** Responses, branch by branch *)

Section Branches.
Context `{Codec} (env : Env).
Context (rpc : Response -> result unit) (fetch : string -> result (History * string)).

Lemma hbind_get {A B} (f : WorkflowTaskHandler -> A) (k : A -> H B) s :
  hbind (hget f) k s = k (f (hs_handler s)) s.
Proof. done. Qed.

Lemma with_runner_val {A} p (f : WorkflowRunner -> outcome (WorkflowRunner * result A)) s r r' a :
  runner_at (hs_handler s) p = Some r -> f r = Val (r', a) ->
  with_runner p f s =
  Val (s <| hs_handler ::= fun h => h <| th_runners ::= <[p := r']> |> |>, a).
Proof. intros Hr Hf. unfold with_runner. by rewrite Hr, Hf. Qed.

Lemma lookup_new (l : list WorkflowRunner) r : (l ++ [r]) !! length l = Some r.
Proof. by rewrite lookup_app_r, Nat.sub_diag by lia. Qed.

Lemma lookup_replaced (l : list WorkflowRunner) a b :
  <[length l := b]> (l ++ [a]) !! length l = Some b.
Proof. apply list_lookup_insert_eq. rewrite length_app. simpl. lia. Qed.

(** [Handle] on a registered type and an unpaged history is [prepare] then [finish]. *)
Lemma Handle_registered fuel task s fn :
  th_workflows (hs_handler s) !! wt_workflow_type task = Some fn ->
  wt_next_page_token task = "" ->
  Handle env rpc fetch fuel task s =
  (d <== prepare env rpc fetch fuel task (wt_history task) (info_of (hs_handler s) task) fn;;
   finish env rpc task d) s.
Proof.
  intros Hwf Htok. unfold Handle. rewrite hbind_get, hbind_get. simpl. rewrite Hwf.
  unfold full_history. by rewrite Htok.
Qed.

(** The runner a full replay of [task] builds. *)
Definition replay_runner (th : WorkflowTaskHandler) (task : WorkflowTask)
    (fn : Payloads -> prog) : WorkflowRunner :=
  let scan := ScanHistory (wt_history task) in
  SetDeadlockTimeout (th_deadlock_timeout th)
    (new_runner (info_of th task) (0 <? wt_previous_started_event_id task) scan fn (ps_input scan)).

Lemma read_runner_val {A} p (f : WorkflowRunner -> A) s r :
  runner_at (hs_handler s) p = Some r -> read_runner p f s = Val (s, inr (f r)).
Proof.
  intros Hr. unfold read_runner. erewrite with_runner_val; [|done|done].
  f_equal. f_equal. unfold runner_at in Hr. destruct s as [[] ?]. simpl in *.
  by rewrite list_insert_id.
Qed.

(** The state after the replay ran: one more replay counted, one more runner. *)
Definition replayed (s : HState) (r : WorkflowRunner) : HState :=
  s <| hs_handler ::= fun h => h <| th_replays ::= Z.succ |>
                                 <| th_runners ::= fun l => l ++ [r] |> |>.

Lemma replay_full_run task s fn r :
  wt_query task = None ->
  Run env (replay_runner (hs_handler s) task fn) = Val (r, inr tt) -> deadlocked_ r = false ->
  replay_full env rpc task (wt_history task) (info_of (hs_handler s) task) fn s =
  (match CheckDeterminism r with
   | Some detail => reject_nondeterministic rpc task detail;;== hret Responded
   | None => cache_put (wt_run_id task) (length (th_runners (hs_handler s)));;==
             hret (Proceed (Some (length (th_runners (hs_handler s)))) env)
   end) (replayed s r).
Proof.
  intros Hq Hrun Hdead. unfold replay_full.
  erewrite hbind_val by reflexivity. rewrite hbind_get. erewrite hbind_val by reflexivity.
  simpl. fold (replay_runner (hs_handler s) task fn).
  erewrite hbind_val; [|eapply with_runner_val; [apply lookup_new|exact Hrun]].
  set (s1 := _ <| hs_handler ::= _ |>).
  assert (s1 = replayed s r) as ->.
  { unfold s1, replayed. destruct s as [[] ?]. simpl. do 2 f_equal.
    by rewrite insert_app_r_alt, Nat.sub_diag by lia. }
  assert (Hat : runner_at (hs_handler (replayed s r)) (length (th_runners (hs_handler s))) = Some r)
    by apply lookup_new.
  erewrite hbind_val; [|by apply read_runner_val]. rewrite Hdead.
  unfold is_query_task. rewrite Hq. simpl.
  by erewrite hbind_val; [|by apply read_runner_val].
Qed.

Lemma prepare_full fuel task s fn :
  is_full_history (wt_history task) = true -> wt_query task = None ->
  prepare env rpc fetch fuel task (wt_history task) (info_of (hs_handler s) task) fn s =
  replay_full env rpc task (wt_history task) (info_of (hs_handler s) task) fn s.
Proof.
  intros Hfull Hq. unfold prepare, select_cached. rewrite Hfull.
  erewrite hbind_val by reflexivity. unfold is_query_task. by rewrite Hq.
Qed.

(** C5: a replay that does not reproduce the recorded commands is never cached and
    never answered as a success: under the blocking policy the task fails with the
    non-determinism cause so the server retries it, under the failing policy the
    execution is failed, and the sticky cache is left as it was. *)
Theorem nondeterministic_replay_rejected (fuel : nat) (task : WorkflowTask) (s : HState)
    (fn : Payloads -> prog) (r : WorkflowRunner) (detail : string) :
  let th := hs_handler s in
  th_workflows th !! wt_workflow_type task = Some fn ->
  wt_next_page_token task = "" -> is_full_history (wt_history task) = true ->
  wt_query task = None ->
  Run env (replay_runner th task fn) = Val (r, inr tt) ->
  deadlocked_ r = false -> CheckDeterminism r = Some detail ->
  let resp :=
    match th_panic_policy th with
    | FailWorkflowPolicy =>
      RespondWorkflowTaskCompleted (wt_task_token task) (th_identity th) None
        [FailWorkflowExecution (nondeterminism_failure detail)] [] ∅
    | BlockWorkflow =>
      RespondWorkflowTaskFailed (wt_task_token task) (th_identity th) NonDeterministicErrorCause
        (Some (nondeterminism_failure detail))
    end in
  exists s' x, Handle env rpc fetch fuel task s = Val (s', x) /\
             hs_sent s' = hs_sent s ++ [resp] /\
             th_cache (hs_handler s') = th_cache (hs_handler s).
Proof.
  intros th Hwf Htok Hfull Hq Hrun Hdead Hdet resp.
  rewrite (Handle_registered _ _ _ fn) by done.
  assert (Hp : prepare env rpc fetch fuel task (wt_history task) (info_of (hs_handler s) task) fn s =
               (reject_nondeterministic rpc task detail;;== hret Responded) (replayed s r))
    by (by rewrite prepare_full, (replay_full_run _ _ _ r), Hdet).
  assert (Hs : reject_nondeterministic rpc task detail (replayed s r) =
               Val ((replayed s r) <| hs_sent ::= fun l => l ++ [resp] |>, rpc resp)).
  { unfold reject_nondeterministic. rewrite hbind_get.
    change (th_panic_policy (hs_handler (replayed s r))) with (th_panic_policy th).
    subst resp. by destruct (th_panic_policy th). }
  unfold hbind at 1. rewrite Hp. unfold hbind. rewrite Hs.
  destruct (rpc resp) as [e|[]]; simpl; eexists _, _; by split_and!.
Qed.

End Branches.

(** ** Closed instances *)

Definition ref_handler (policy : WorkflowPanicPolicy) (fn : Payloads -> prog) : HState :=
  {| hs_handler := Register "W" fn (make_handler "default" "me" "q" "sticky" policy 2 0);
     hs_sent := [] |}.

Definition ref_task (h : History) (messages : list UpdateMessage) : WorkflowTask :=
  {| wt_task_token := "token"; wt_workflow_id := "wf"; wt_run_id := "run"; wt_workflow_type := "W";
     wt_next_page_token := ""; wt_history := h; wt_previous_started_event_id := 0;
     wt_query := None; wt_messages := messages; wt_queries := [] |}.

Definition ok_rpc (_ : Response) : result unit := inr tt.
Definition no_fetch (_ : string) : result (History * string) := inl (RpcError "unavailable" false).

(** [Handle] with a server that accepts every response. *)
Definition handle (task : WorkflowTask) (s : HState) : HState :=
  match Handle ref_env ok_rpc no_fetch 1 task s with Val (s', _) => s' | _ => s end.

Lemma Handle_responds_once_witness :
  let s := ref_handler BlockWorkflow one_activity in
  length (hs_sent (handle (ref_task [started] []) s)) = 1%nat.
Proof.
  intros s.
  refine (proj2 (Handle_responds_once ref_env ok_rpc no_fetch 1 (ref_task [started] []) s _
                   (inr tt) _) eq_refl).
  vm_compute. reflexivity.
Defined.

Lemma Handle_keeps_cache_safe_witness :
  cache_safe 2 (hs_handler (handle (ref_task [started] []) (ref_handler BlockWorkflow one_activity))).
Proof.
  apply (Handle_keeps_cache_safe ref_env ok_rpc no_fetch 2 (ref_task [started] []) 1
           (ref_handler BlockWorkflow one_activity) _ (inr tt)).
  - exists []. split; [apply Lru.make_implements|].
    constructor; [intros ? ? Hin|intros ? ? ? Hin|intros ? Hin]; by apply elem_of_nil in Hin.
  - vm_compute. reflexivity.
Defined.

Definition recorded_timer : History := [started; mkEvent 2 (TimerStarted "t0")].

Lemma nondeterministic_replay_rejected_witness :
  let s := ref_handler FailWorkflowPolicy one_activity in
  exists s' x, Handle ref_env ok_rpc no_fetch 1 (ref_task recorded_timer []) s = Val (s', x) /\
    length (hs_sent s') = 1%nat.
Proof.
  intros s.
  set (r := after_run ref_env (replay_runner (hs_handler s) (ref_task recorded_timer []) one_activity)).
  destruct (nondeterministic_replay_rejected ref_env ok_rpc no_fetch 1 (ref_task recorded_timer []) s
              one_activity r (default "" (CheckDeterminism r))) as (s' & x & Hh & Hs & _);
    [vm_compute; reflexivity..|].
  exists s', x. split; [exact Hh|]. rewrite Hs. reflexivity.
Defined.


(** ** An update handler's commands are not sent *)

(** A body that registers an update handler scheduling an activity, then waits. *)
Definition update_schedules (_ : Payloads) : prog :=
  SetHandler UpdateHandler "u"
    (fun _ => l <~ ExecuteActivity default_activity_options "Greet" []; Return [])
    (r <~ Receive "done"; Return r).

Definition update_message : UpdateMessage :=
  mkUpdateMessage "m" "p" 0 (Some ("u", Proto.mkPayloads [])).

Definition first_runner (s : HState) : option WorkflowRunner := th_runners (hs_handler s) !! 0%nat.

