(* ===== verification/ActivityHandler.v ===== *)
(** * Activity tasks

    The activity context ([src/include/temporal/activity/activity.h]) with its
    heartbeat throttle, and the activity task handler
    ([src/src/internal/activity_task_handler.cpp]). *)

From S2P Require Import Prelude Common Effects Workflow Interceptors.

(** ** The activity context *)

Record Context := mkContext {
  ac_info : ActivityInfo;
  (** the server call behind a heartbeat, if any: the [n]th report's answer *)
  ac_heartbeat : option (nat -> Payloads -> result bool);
  ac_throttle_interval : Z;
  (** when the [n]th clock reading happens *)
  ac_clock : nat -> Z;
  ac_readings : nat;
  ac_last_report : Z;
  ac_reported : bool;
  ac_cancel_requested : bool;
  ac_will_complete_async : bool;
  (** the times of the reports made so far *)
  ac_reports : list Z
}.

#[export] Instance Context_eta : Eta Context := fun c =>
  {| ac_info := ac_info c; ac_heartbeat := ac_heartbeat c;
     ac_throttle_interval := ac_throttle_interval c; ac_clock := ac_clock c;
     ac_readings := ac_readings c; ac_last_report := ac_last_report c;
     ac_reported := ac_reported c; ac_cancel_requested := ac_cancel_requested c;
     ac_will_complete_async := ac_will_complete_async c; ac_reports := ac_reports c |}.

Definition make_context (info : ActivityInfo) (heartbeat : option (nat -> Payloads -> result bool))
    (throttle_interval : Z) (clock : nat -> Z) : Context :=
  {| ac_info := info; ac_heartbeat := heartbeat; ac_throttle_interval := throttle_interval;
     ac_clock := clock; ac_readings := 0; ac_last_report := 0; ac_reported := false;
     ac_cancel_requested := false; ac_will_complete_async := false; ac_reports := [] |}.

(** The report itself: the call may throw, after the bookkeeping. *)
Definition report (heartbeat : nat -> Payloads -> result bool) (details : Payloads) (now : Z)
    (c : Context) : Context * result unit :=
  let n := length (ac_reports c) in
  let c := c <| ac_last_report := now |> <| ac_reported := true |>
             <| ac_reports ::= fun l => l ++ [now] |> in
  match heartbeat n details with
  | inr cancel => (c <| ac_cancel_requested := cancel |>, inr tt)
  | inl e => (c, inl e)
  end.

Definition RecordHeartbeat (details : Payloads) (c : Context) : Context * result unit :=
  match ac_heartbeat c with
  | None => (c, inr tt)
  | Some heartbeat =>
    let now := ac_clock c (ac_readings c) in
    let c := c <| ac_readings ::= S |> in
    if ac_reported c && (now - ac_last_report c <? ac_throttle_interval c) then (c, inr tt)
    else report heartbeat details now c
  end.

Definition IsCancelled (c : Context) : bool := ac_cancel_requested c.
Definition SetWillCompleteAsync (c : Context) : Context := c <| ac_will_complete_async := true |>.
Definition WillCompleteAsync (c : Context) : bool := ac_will_complete_async c.
Definition defer_completion (c : Context) : Context * string :=
  (c <| ac_will_complete_async := true |>, ai_task_token (ac_info c)).

(** ** The task handler *)

Record ActivityTask := mkActivityTask {
  at_activity_id : string;
  at_activity_type : string;
  at_workflow_id : string;
  at_run_id : string;
  at_task_token : string;
  at_attempt : Z;
  at_header : gmap string Proto.Payload;
  at_input : Proto.Payloads;
  at_heartbeat_timeout : option Proto.Duration
}.

Inductive ActivityResponse :=
| RespondActivityTaskCompleted (task_token identity : string) (result : option Proto.Payloads)
| RespondActivityTaskFailed (task_token identity : string) (failure : Proto.Failure).

(** Nanoseconds. *)
Definition kDefaultInterval : Z := 30 * 1000000000.

Definition HeartbeatThrottleInterval (heartbeat_timeout : option Proto.Duration) : Z :=
  match heartbeat_timeout with
  | None => kDefaultInterval
  | Some d =>
    let timeout := Proto.seconds d * 1000000000 + Proto.nanos d in
    if timeout <=? 0 then kDefaultInterval else Z.quot (timeout * 8) 10
  end.

(** An activity function runs against its context. *)
Abbreviation ActivityBody := (ActivityInfo -> Payloads -> Context -> Context * result Payloads).

(** A registered function may also act on what it captured of its worker, [W]. *)
Abbreviation HostedFn W := (ActivityInfo -> Payloads -> Context * W -> (Context * W) * result Payloads).

(** A function that captured nothing. *)
Definition hosted {W} (fn : ActivityBody) : HostedFn W := fun info args s =>
  let '(ctx, r) := fn info args (fst s) in ((ctx, snd s), r).

Record ActivityTaskHandler (W : Type) := mkActivityTaskHandler {
  ah_identity : string;
  ah_task_queue : string;
  ah_activities : gmap string (HostedFn W);
  ah_interceptors : list (ActivityInboundInterceptor (Context * W) ->
                          option (ActivityInboundInterceptor (Context * W)));
  ah_failure_converter : option (exn -> Proto.Failure)
}.
Arguments mkActivityTaskHandler {W}.
Arguments ah_identity {W}.
Arguments ah_task_queue {W}.
Arguments ah_activities {W}.
Arguments ah_interceptors {W}.
Arguments ah_failure_converter {W}.

#[export] Instance ActivityTaskHandler_eta {W} : Eta (ActivityTaskHandler W) := fun h =>
  {| ah_identity := ah_identity h; ah_task_queue := ah_task_queue h;
     ah_activities := ah_activities h; ah_interceptors := ah_interceptors h;
     ah_failure_converter := ah_failure_converter h |}.

Definition Register {W} (name : string) (fn : HostedFn W) (h : ActivityTaskHandler W) :
    ActivityTaskHandler W := h <| ah_activities ::= <[name := fn]> |>.

Section Handle.
Context {W : Type} (h : ActivityTaskHandler W).
(** The server: whether a response is accepted, and what the [n]th heartbeat
    request of the task answers. *)
Context (rpc : ActivityResponse -> result unit) (heartbeat_rpc : nat -> Payloads -> result bool)
        (clock : nat -> Z).

Definition info_of (task : ActivityTask) : ActivityInfo :=
  {| ai_activity_id := at_activity_id task; ai_activity_type := at_activity_type task;
     ai_workflow_id := at_workflow_id task; ai_run_id := at_run_id task;
     ai_task_queue := ah_task_queue h; ai_task_token := at_task_token task;
     ai_headers := FromProtoFields (at_header task); ai_attempt := at_attempt task |}.

Definition encode_failure (e : exn) (default : Proto.Failure) : Proto.Failure :=
  match ah_failure_converter h with Some convert => convert e | None => default end.

Definition respond (sent : list ActivityResponse) (resp : ActivityResponse) :
    list ActivityResponse * result unit :=
  (sent ++ [resp], rpc resp).

(** The two [catch] clauses, entered after [sent] responses were already tried;
    another exception leaves [Handle]. *)
Definition handle_error (task : ActivityTask) (e : exn) (sent : list ActivityResponse) :
    list ActivityResponse * result unit :=
  let failed f := respond sent (RespondActivityTaskFailed (at_task_token task) (ah_identity h) f) in
  match e with
  | ApplicationError msg type non_retryable =>
    failed (encode_failure e (MakeApplicationFailure msg type non_retryable))
  | _ =>
    if is_std_exception e
    then failed (encode_failure e (MakeApplicationFailure (what e) "std::exception" false))
    else (sent, inl e)
  end.

(** Run the registered function through the inbound chain. *)
Definition execute (task : ActivityTask) (fn : HostedFn W) (w : W) :
    outcome ((Context * W) * result Payloads) :=
  let info := info_of task in
  let ctx := make_context info (Some heartbeat_rpc)
               (HeartbeatThrottleInterval (at_heartbeat_timeout task)) clock in
  let chain := BuildActivityInboundChain (ah_interceptors h) (RootActivityInbound fn) in
  in_ExecuteActivity (chain_head chain) info (FromProtoPayloads (at_input task)) (ai_headers info)
    (ctx, w).

(** What was sent and how the call ended, and what the function left of [w]. *)
Definition Handle (task : ActivityTask) (w : W) :
    outcome (W * (list ActivityResponse * result unit)) :=
  match ah_activities h !! at_activity_type task with
  | None =>
    Val (w, respond [] (RespondActivityTaskFailed (at_task_token task) (ah_identity h)
                  (MakeApplicationFailure
                     ("no activity registered for type: " +:+ at_activity_type task)
                     "NotRegisteredError" false)))
  | Some fn =>
    match execute task fn w with
    | Val ((ctx, w), inr result) =>
      if WillCompleteAsync ctx then Val (w, ([], inr tt))
      else
        match respond [] (RespondActivityTaskCompleted (at_task_token task) (ah_identity h)
                            (opt_payloads result)) with
        | (sent, inl e) => Val (w, handle_error task e sent)
        | (sent, inr _) => Val (w, (sent, inr tt))
        end
    | Val ((_, w), inl e) => Val (w, handle_error task e [])
    | Hang => Hang
    | UB => UB
    end
  end.

(** ** Properties *)


(** An activity that succeeded can be reported as failed: the completion RPC is
    made inside the [try], so when it throws, a failure for the same task is sent
    after it. *)
Theorem failed_completion_reported_as_failure (task : ActivityTask) (fn : HostedFn W)
    (w w' : W) (ctx : Context) (result : Payloads) (msg : string) (nf : bool) :
  ah_activities h !! at_activity_type task = Some fn -> execute task fn w = Val ((ctx, w'), inr result) ->
  WillCompleteAsync ctx = false ->
  rpc (RespondActivityTaskCompleted (at_task_token task) (ah_identity h) (opt_payloads result)) =
    inl (RpcError msg nf) ->
  exists reply, Handle task w = Val (w',
  ([RespondActivityTaskCompleted (at_task_token task) (ah_identity h) (opt_payloads result);
   RespondActivityTaskFailed (at_task_token task) (ah_identity h)
     (encode_failure (RpcError msg nf) (MakeApplicationFailure msg "std::exception" false))], reply)).
Proof.
  intros Hfn Hex Ha Hr. unfold Handle. rewrite Hfn, Hex, Ha. unfold respond. rewrite Hr.
  by eexists.
Qed.
End Handle.

(** ** Heartbeats *)

(** The context after a sequence of heartbeat calls (an exception ends the activity,
    so the sequence stops there). *)
Fixpoint record_all (calls : list Payloads) (c : Context) : Context :=
  match calls with
  | [] => c
  | details :: calls =>
    match RecordHeartbeat details c with
    | (c, inr _) => record_all calls c
    | (c, inl _) => c
    end
  end.

(** Consecutive elements are at least [d] apart. *)
Fixpoint spaced (d : Z) (l : list Z) : Prop :=
  match l with
  | a :: (b :: _) as l' => a + d <= b /\ spaced d l'
  | _ => True
  end.

Definition last_reported (c : Context) : Prop :=
  spaced (ac_throttle_interval c) (ac_reports c) /\
  (if ac_reported c then last (ac_reports c) = Some (ac_last_report c) else ac_reports c = []).

Lemma spaced_snoc d l a b : spaced d (l ++ [a]) -> a + d <= b -> spaced d (l ++ [a] ++ [b]).
Proof.
  induction l as [|x [|y l] IH]; simpl in *; intros Hs Hab; [done|by destruct Hs|].
  destruct Hs as [H1 H2]. split; [done|]. by apply IH.
Qed.

Lemma spaced_report c now :
  last_reported c -> (ac_reported c = true -> ac_last_report c + ac_throttle_interval c <= now) ->
  spaced (ac_throttle_interval c) (ac_reports c ++ [now]).
Proof.
  intros [Hs Hl] Hnow. destruct (ac_reported c); [|by rewrite Hl].
  apply last_Some in Hl as [l Hl]. rewrite Hl in *. rewrite <- app_assoc.
  apply spaced_snoc; [done|auto].
Qed.

Lemma RecordHeartbeat_spaced details c :
  last_reported c -> last_reported (fst (RecordHeartbeat details c)) /\
  ac_throttle_interval (fst (RecordHeartbeat details c)) = ac_throttle_interval c.
Proof.
  intros Hc. unfold RecordHeartbeat. destruct (ac_heartbeat c) as [hb|]; [|done].
  simpl. case_match eqn:Hthr; [done|].
  assert (Hs : spaced (ac_throttle_interval c) (ac_reports c ++ [ac_clock c (ac_readings c)])).
  { apply spaced_report; [done|]. intros Hr. rewrite Hr in Hthr. simpl in Hthr.
    apply Z.ltb_ge in Hthr. lia. }
  unfold report; simpl. case_match; simpl; (split; [|done]); split; simpl; try done; by rewrite last_snoc.
Qed.

(** Heartbeats are throttled: over any sequence of calls and whatever the clock
    shows, two consecutive reports to the server are at least the throttle interval
    apart. *)
Theorem heartbeats_throttled (info : ActivityInfo) (hb : option (nat -> Payloads -> result bool))
    (interval : Z) (clock : nat -> Z) (calls : list Payloads) :
  spaced interval (ac_reports (record_all calls (make_context info hb interval clock))).
Proof.
  assert (H : forall c, last_reported c -> ac_throttle_interval c = interval ->
              last_reported (record_all calls c) /\
              ac_throttle_interval (record_all calls c) = interval).
  { induction calls as [|details calls IH]; intros c Hc Hi; simpl; [done|].
    destruct (RecordHeartbeat_spaced details c Hc) as [H1 H2].
    destruct (RecordHeartbeat details c) as [c1 [e|[]]]; simpl in *; [by rewrite H2|].
    apply IH; [done|congruence]. }
  destruct (H (make_context info hb interval clock)) as [[Hs _] Hi]; [by split|done|].
  by rewrite Hi in Hs.
Qed.

(** The throttle leaves headroom: for every positive heartbeat timeout the
    interval is four fifths of it, rounded down, so strictly below it, and for
    timeouts up to 36 years the 64-bit computation does not overflow. *)
Theorem HeartbeatThrottleInterval_headroom (d : Proto.Duration) :
  let timeout := Proto.seconds d * 1000000000 + Proto.nanos d in
  0 < timeout ->
  let interval := HeartbeatThrottleInterval (Some d) in
  0 <= interval < timeout /\ 10 * interval <= 8 * timeout < 10 * (interval + 1) /\
  (0 <= Proto.seconds d <= 36 * 365 * 86400 -> 0 <= Proto.nanos d <= 999999999 ->
   timeout * 8 < 2 ^ 63).
Proof.
  intros timeout Ht interval. unfold interval, HeartbeatThrottleInterval. fold timeout.
  destruct (Z.leb_spec timeout 0); [lia|].
  rewrite Z.quot_div_nonneg by lia.
  pose proof (Z.div_mod (timeout * 8) 10 ltac:(lia)).
  pose proof (Z.mod_pos_bound (timeout * 8) 10 ltac:(lia)).
  split_and!; try lia.
Qed.

(** ** Closed instances *)

Definition echo_activity : ActivityBody := fun _ args c => (c, inr args).

Definition ref_handler : ActivityTaskHandler unit :=
  {| ah_identity := "me"; ah_task_queue := "q"; ah_activities := {["Echo" := hosted echo_activity]};
     ah_interceptors := []; ah_failure_converter := None |}.

Definition ref_task : ActivityTask :=
  {| at_activity_id := "0"; at_activity_type := "Echo"; at_workflow_id := "wf"; at_run_id := "run";
     at_task_token := "token"; at_attempt := 1; at_header := ∅; at_input := Proto.mkPayloads [];
     at_heartbeat_timeout := None |}.


Lemma failed_completion_reported_as_failure_witness :
  let rpc resp := match resp with
                  | RespondActivityTaskCompleted _ _ _ => inl (RpcError "unavailable" false)
                  | _ => inr tt
                  end in
  exists failure reply,
    Handle ref_handler rpc (fun _ _ => inr false) (fun _ => 0) ref_task tt =
    Val (tt, ([RespondActivityTaskCompleted "token" "me" None;
               RespondActivityTaskFailed "token" "me" failure], reply)).
Proof.
  intros rpc.
  destruct (failed_completion_reported_as_failure ref_handler rpc (fun _ _ => inr false) (fun _ => 0)
             ref_task (hosted echo_activity) tt tt _ [] "unavailable" false eq_refl eq_refl eq_refl eq_refl)
    as [reply Hr].
  eexists _, reply. exact Hr.
Defined.

Lemma HeartbeatThrottleInterval_headroom_witness :
  0 <= HeartbeatThrottleInterval (Some (Proto.mkDuration 10 0)) < 10000000000.
Proof.
  exact (proj1 (HeartbeatThrottleInterval_headroom (Proto.mkDuration 10 0) ltac:(reflexivity))).
Defined.
