(* ===== verification/NexusHandler.v ===== *)
(** * Nexus tasks

    [class NexusTaskHandler] ([src/src/internal/nexus_task_handler.{h,cpp}]): the
    registry of operations under one concatenated key, and the dispatch of a task. *)

From Stdlib Require Import Ascii.
From S2P Require Import Prelude Common.

(** An operation: one payload in, one payload out. *)
Abbreviation NexusOperationFn := (Payload -> result Payload).

Record NexusTaskHandler := mkNexusTaskHandler {
  nh_ns : string;
  nh_identity : string;
  nh_operations : gmap string NexusOperationFn
}.

#[export] Instance NexusTaskHandler_eta : Eta NexusTaskHandler := fun h =>
  {| nh_ns := nh_ns h; nh_identity := nh_identity h; nh_operations := nh_operations h |}.

Definition nul : string := String "000"%char EmptyString.

(** [service + '\0' + operation]. *)
Definition Key (service operation : string) : string := service +:+ nul +:+ operation.

Definition Register (service operation : string) (fn : NexusOperationFn) (h : NexusTaskHandler) :
    NexusTaskHandler := h <| nh_operations ::= <[Key service operation := fn]> |>.

Definition has_operations (h : NexusTaskHandler) : bool := negb (bool_decide (nh_operations h = ∅)).

(** A request; only the start variant is handled. *)
Inductive NexusRequest :=
| StartOperation (service operation : string) (payload : Proto.Payload)
| OtherRequest.

Inductive NexusResponse :=
| RespondNexusTaskFailed (ns identity token error_type message : string)
| RespondNexusTaskCompleted (ns identity token : string) (sync_success : Proto.Payload).

Section Handle.
Context (rpc : NexusResponse -> result unit) (h : NexusTaskHandler).

Definition respond (sent : list NexusResponse) (resp : NexusResponse) :
    list NexusResponse * result unit := (sent ++ [resp], rpc resp).

Definition failed (token error_type message : string) : NexusResponse :=
  RespondNexusTaskFailed (nh_ns h) (nh_identity h) token error_type message.

(** The [try] block covers the handler and the completion RPC. *)
Definition Handle (token : string) (request : NexusRequest) :
    list NexusResponse * result unit :=
  match request with
  | OtherRequest =>
    respond [] (failed token "NOT_IMPLEMENTED"
                  "only start-operation Nexus requests are supported")
  | StartOperation service operation payload =>
    match nh_operations h !! Key service operation with
    | None =>
      respond [] (failed token "NOT_FOUND"
                    ("no Nexus operation registered for service '" +:+ service +:+
                     "' operation '" +:+ operation +:+ "'"))
    | Some fn =>
      let '(sent, outcome) :=
        match fn (FromProtoPayload payload) with
        | inl e => ([], inl e)
        | inr result =>
          respond [] (RespondNexusTaskCompleted (nh_ns h) (nh_identity h) token
                        (ToProtoPayload result))
        end in
      match outcome with
      | inr _ => (sent, inr tt)
      | inl e =>
        if is_std_exception e then respond sent (failed token "INTERNAL" (what e))
        else (sent, inl e)
      end
    end
  end.
End Handle.

(** ** The registry as a map of pairs *)

Fixpoint no_nul (s : string) : bool :=
  match s with
  | EmptyString => true
  | String a s => negb (Ascii.eqb a "000"%char) && no_nul s
  end.

(** Keys of names without the NUL byte do not collide. *)
Lemma Key_inj s1 o1 s2 o2 :
  no_nul s1 = true -> no_nul s2 = true -> Key s1 o1 = Key s2 o2 -> s1 = s2 /\ o1 = o2.
Proof.
  unfold Key, nul. revert s2.
  induction s1 as [|a s1 IH]; intros [|b s2] H1 H2 Heq.
  - injection Heq as Heq. by split.
  - injection Heq as Ha _. by subst b.
  - injection Heq as Ha _. by subst a.
  - injection Heq as Ha Hrest. subst b. apply andb_true_iff in H1 as [_ H1]. apply andb_true_iff in H2 as [_ H2].
    by destruct (IH s2 H1 H2 Hrest) as [-> ->].
Qed.

Definition registration : Type := string * string * NexusOperationFn.

Definition register_all (regs : list registration) (h : NexusTaskHandler) : NexusTaskHandler :=
  fold_left (fun h '(service, operation, fn) => Register service operation fn h) regs h.

Definition spec_register_all (regs : list registration) : gmap (string * string) NexusOperationFn :=
  fold_left (fun m '(service, operation, fn) => <[(service, operation) := fn]> m) regs ∅.

Lemma register_all_lookup (regs : list registration) (h : NexusTaskHandler)
    (m : gmap (string * string) NexusOperationFn) service operation :
  Forall (fun r => no_nul (r.1.1) = true) regs -> no_nul service = true ->
  nh_operations h !! Key service operation = m !! (service, operation) ->
  nh_operations (register_all regs h) !! Key service operation =
  fold_left (fun m '(s, o, fn) => <[(s, o) := fn]> m) regs m !! (service, operation).
Proof.
  intros Hregs Hs. revert h m. induction Hregs as [|[[s o] fn] regs Hr _ IH]; intros h m Heq; simpl; [done|].
  apply IH. simpl in *. destruct (decide ((s, o) = (service, operation))) as [[= -> ->]|Hne].
  - by rewrite !lookup_insert_eq.
  - rewrite !lookup_insert_ne; [done|done|].
    intros Hk. apply Hne. apply Key_inj in Hk as [-> ->]; done.
Qed.

(** Dispatch finds the operation that was registered: for any sequence of
    registrations under service names without a NUL byte, a start request is
    handled by the latest registration of exactly that service and operation, and
    is refused as not found when there is none. *)
Theorem registry_refines_pairs (ns identity : string) (regs : list registration)
    (service operation : string) :
  Forall (fun r => no_nul (r.1.1) = true) regs -> no_nul service = true ->
  nh_operations (register_all regs (mkNexusTaskHandler ns identity ∅)) !! Key service operation =
  spec_register_all regs !! (service, operation).
Proof. intros Hr Hs. by apply register_all_lookup. Qed.

(** With a NUL byte in a service name two different operations share a key, so
    registering one replaces the other. *)
Theorem registry_keys_collide :
  exists s1 o1 s2 o2, (s1, o1) <> (s2, o2) /\ Key s1 o1 = Key s2 o2 /\
    forall f1 f2 h, nh_operations (Register s2 o2 f2 (Register s1 o1 f1 h)) !! Key s1 o1 = Some f2.
Proof.
  exists "a", ("b" +:+ nul +:+ "c"), ("a" +:+ nul +:+ "b"), "c". split_and!; [done|done|].
  intros f1 f2 h. unfold Register. simpl. apply lookup_insert_eq.
Qed.

(** One answer per task: with a server that accepts responses, [Handle] sends
    exactly one: the operation's result, or an error whose type tells an unsupported
    request, an unknown operation and a failed handler apart. *)
Theorem Handle_answers_once (rpc : NexusResponse -> result unit) (h : NexusTaskHandler)
    (token service operation : string) (payload : Proto.Payload) :
  (forall resp, rpc resp = inr tt) ->
  Handle rpc h token OtherRequest =
    ([failed h token "NOT_IMPLEMENTED" "only start-operation Nexus requests are supported"], inr tt) /\
  Handle rpc h token (StartOperation service operation payload) =
    match nh_operations h !! Key service operation with
    | None => ([failed h token "NOT_FOUND"
                  ("no Nexus operation registered for service '" +:+ service +:+
                   "' operation '" +:+ operation +:+ "'")], inr tt)
    | Some fn =>
      match fn (FromProtoPayload payload) with
      | inr result =>
        ([RespondNexusTaskCompleted (nh_ns h) (nh_identity h) token (ToProtoPayload result)], inr tt)
      | inl e =>
        if is_std_exception e then ([failed h token "INTERNAL" (what e)], inr tt) else ([], inl e)
      end
    end.
Proof.
  intros Hrpc. unfold Handle, respond. rewrite Hrpc. split; [done|].
  destruct (nh_operations h !! _) as [fn|]; [|by rewrite Hrpc].
  destruct (fn _) as [e|r]; simpl; rewrite ?Hrpc; [|done]. by case_match; rewrite ?Hrpc.
Qed.

(** ** Closed instances *)

Lemma registry_refines_pairs_witness :
  let f : NexusOperationFn := fun p => inr p in
  nh_operations (register_all [("svc", "op", f)] (mkNexusTaskHandler "ns" "me" ∅)) !! Key "svc" "op" =
  Some f.
Proof.
  intros f.
  rewrite (registry_refines_pairs "ns" "me" [("svc", "op", f)] "svc" "op"
             ltac:(by repeat constructor) eq_refl).
  reflexivity.
Defined.

Lemma Handle_answers_once_witness :
  fst (Handle (fun _ => inr tt) (mkNexusTaskHandler "ns" "me" ∅) "token" OtherRequest) =
  [RespondNexusTaskFailed "ns" "me" "token" "NOT_IMPLEMENTED"
     "only start-operation Nexus requests are supported"].
Proof.
  rewrite (proj1 (Handle_answers_once (fun _ => inr tt) (mkNexusTaskHandler "ns" "me" ∅) "token" "s" "o"
                    (Proto.mk ∅ "") (fun _ => eq_refl))).
  reflexivity.
Defined.
