(* ===== verification/Base64.v ===== *)
(** * Base64

    [Base64Encode] and [Base64Decode]
    ([src/src/converter/data_converter.cpp]), with the accumulator [val] kept in a
    32-bit [int] that shifts discard bits from. *)

From Stdlib Require Import Ascii.
From S2P Require Import Prelude.

(** ** Bytes *)

Definition byte_of (a : ascii) : Z := Z.of_N (N_of_ascii a).
Definition char_of (b : Z) : ascii := ascii_of_N (Z.to_N b).

Definition bytes_of (s : string) : list Z := byte_of <$> String.list_ascii_of_string s.
Definition string_of (l : list Z) : string := String.string_of_list_ascii (char_of <$> l).

Definition is_byte (b : Z) : Prop := 0 <= b < 256.

(** ** The code *)

Definition kB64 : string := "ABCDEFGHIJKLMNOPQRSTUVWXYZabcdefghijklmnopqrstuvwxyz0123456789+/".

Definition kB64_bytes : list Z := bytes_of kB64.

(** [kB64[i]]. *)
Definition b64_char (i : Z) : Z := nth (Z.to_nat i) kB64_bytes 0.

(** [rev[c]]: the table filled by the loop over the alphabet, [-1] elsewhere. *)
Definition rev_table : list Z :=
  fold_left (fun t i => <[Z.to_nat (b64_char i) := i]> t) (seqZ 0 64) (replicate 256 (-1)).

Definition rev_of (c : Z) : Z := nth (Z.to_nat c) rev_table (-1).

Definition equals_sign : Z := 61.

(** [(val << n) + x] stored back into an [int]. *)
Definition shift_in (n x val : Z) : Z := wrap_signed 32 (Z.shiftl val n) + x.

(** The inner [while (bits >= 0)] of the encoder: at most two rounds, since eight
    bits are added to at most four pending ones. *)
Fixpoint emit_sextets (fuel : nat) (val bits : Z) (out : list Z) : Z * list Z :=
  match fuel with
  | O => (bits, out)
  | S fuel =>
    if 0 <=? bits
    then emit_sextets fuel val (bits - 6) (out ++ [b64_char (Z.land (Z.shiftr val bits) 63)])
    else (bits, out)
  end.

Fixpoint encode_loop (inp : list Z) (val bits : Z) (out : list Z) : Z * Z * list Z :=
  match inp with
  | [] => (val, bits, out)
  | c :: inp =>
    let val := shift_in 8 c val in
    let '(bits, out) := emit_sextets 2 val (bits + 8) out in
    encode_loop inp val bits out
  end.

(** The final [while (out.size() % 4 != 0)]: at most three rounds. *)
Fixpoint pad (fuel : nat) (out : list Z) : list Z :=
  match fuel with
  | O => out
  | S fuel => if (length out mod 4 =? 0)%nat then out else pad fuel (out ++ [equals_sign])
  end.

(** What follows the loop: the pending bits, then the padding. *)
Definition encode_end (state : Z * Z * list Z) : list Z :=
  let '(val, bits, out) := state in
  let out :=
    if -6 <? bits
    then out ++ [b64_char (Z.land (Z.shiftr (wrap_signed 32 (Z.shiftl val 8)) (bits + 8)) 63)]
    else out in
  pad 3 out.

Definition encode_bytes (inp : list Z) : list Z := encode_end (encode_loop inp 0 (-6) []).

Definition Base64Encode (inp : string) : string := string_of (encode_bytes (bytes_of inp)).

Fixpoint decode_loop (inp : list Z) (val bits : Z) (out : list Z) : list Z :=
  match inp with
  | [] => out
  | c :: inp =>
    if rev_of c =? -1 then out
    else
      let val := shift_in 6 (rev_of c) val in
      let bits := bits + 6 in
      if 0 <=? bits
      then decode_loop inp val (bits - 8) (out ++ [Z.land (Z.shiftr val bits) 255])
      else decode_loop inp val bits out
  end.

Definition Base64Decode (inp : string) : string :=
  string_of (decode_loop (bytes_of inp) 0 (-8) []).

(** ** Arithmetic of the accumulator *)

Lemma land_mod z n : 0 <= n -> Z.land z (2 ^ n - 1) = z mod 2 ^ n.
Proof. intros Hn. rewrite <- Z.land_ones by done. f_equal. rewrite Z.ones_equiv. lia. Qed.

(** Extracting [m] bits at position [k] sees only the low bits. *)
Lemma extract_sextet val k : 0 <= k -> Z.land (Z.shiftr val k) 63 = (val / 2 ^ k) mod 64.
Proof. intros Hk. rewrite Z.shiftr_div_pow2 by done. apply (land_mod _ 6). lia. Qed.

Lemma extract_octet val k : 0 <= k -> Z.land (Z.shiftr val k) 255 = (val / 2 ^ k) mod 256.
Proof. intros Hk. rewrite Z.shiftr_div_pow2 by done. apply (land_mod _ 8). lia. Qed.

(** A shift into the 32-bit accumulator is, up to a multiple of [2 ^ 32], the exact
    shift. *)
Lemma shift_in_exact n x val :
  0 <= n -> exists q, shift_in n x val = val * 2 ^ n + x + q * 4294967296.
Proof.
  intros Hn. unfold shift_in, wrap_signed. rewrite Z.shiftl_mul_pow2 by done.
  change (2 ^ 32) with 4294967296. change (2 ^ (32 - 1)) with 2147483648.
  pose proof (Z.div_mod (val * 2 ^ n + 2147483648) 4294967296 ltac:(lia)) as Hd.
  exists (- ((val * 2 ^ n + 2147483648) / 4294967296)). lia.
Qed.

Lemma wrap_exact z : exists q, wrap_signed 32 z = z + q * 4294967296.
Proof.
  unfold wrap_signed. change (2 ^ 32) with 4294967296. change (2 ^ (32 - 1)) with 2147483648.
  pose proof (Z.div_mod (z + 2147483648) 4294967296 ltac:(lia)) as Hd.
  exists (- ((z + 2147483648) / 4294967296)). lia.
Qed.

(** ** The alphabet *)

Lemma b64_all :
  forallb (fun i => (rev_of (b64_char i) =? i) && (0 <=? b64_char i) && (b64_char i <? 256))
    (seqZ 0 64) = true.
Proof. vm_compute. reflexivity. Qed.

Lemma b64_spec i : 0 <= i < 64 -> rev_of (b64_char i) = i /\ is_byte (b64_char i).
Proof.
  intros Hi. pose proof b64_all as H. rewrite forallb_forall in H.
  specialize (H i). rewrite !andb_true_iff, Z.eqb_eq, Z.leb_le, Z.ltb_lt in H.
  unfold is_byte. destruct H as [[H1 H2] H3]; [|by split].
  apply list_elem_of_In, elem_of_seqZ. lia.
Qed.

Lemma rev_equals : rev_of equals_sign = -1.
Proof. reflexivity. Qed.

(** ** Reference definition (RFC 4648) *)

(** The four sextets of three bytes. *)
Definition sextets (a b c : Z) : list Z :=
  [a / 4; (a mod 4) * 16 + b / 16; (b mod 16) * 4 + c / 64; c mod 64].

Fixpoint base64 (l : list Z) : list Z :=
  match l with
  | a :: b :: c :: l => (b64_char <$> sextets a b c) ++ base64 l
  | [a; b] => (b64_char <$> [a / 4; (a mod 4) * 16 + b / 16; (b mod 16) * 4]) ++ [equals_sign]
  | [a] => (b64_char <$> [a / 4; (a mod 4) * 16]) ++ [equals_sign; equals_sign]
  | [] => []
  end.

(** Induction by groups of three. *)
Lemma list_ind3 {A} (P : list A -> Prop) :
  P [] -> (forall a, P [a]) -> (forall a b, P [a; b]) ->
  (forall a b c l, P l -> P (a :: b :: c :: l)) -> forall l, P l.
Proof.
  intros H0 H1 H2 H3. fix IH 1.
  intros [|a [|b [|c l]]]; [exact H0|apply H1|apply H2|apply H3, IH].
Qed.

(** ** Groups of three bytes *)

Ltac euclid := Z.to_euclidean_division_equations; lia.

(** One byte, by how many bits are pending. *)
Lemma encode_byte0 a inp val out :
  encode_loop (a :: inp) val (-6) out =
  encode_loop inp (shift_in 8 a val) (-4)
    (out ++ [b64_char (Z.land (Z.shiftr (shift_in 8 a val) 2) 63)]).
Proof. reflexivity. Qed.

Lemma encode_byte1 a inp val out :
  encode_loop (a :: inp) val (-4) out =
  encode_loop inp (shift_in 8 a val) (-2)
    (out ++ [b64_char (Z.land (Z.shiftr (shift_in 8 a val) 4) 63)]).
Proof. reflexivity. Qed.

Lemma encode_byte2 a inp val out :
  encode_loop (a :: inp) val (-2) out =
  encode_loop inp (shift_in 8 a val) (-6)
    ((out ++ [b64_char (Z.land (Z.shiftr (shift_in 8 a val) 6) 63)]) ++
     [b64_char (Z.land (Z.shiftr (shift_in 8 a val) 0) 63)]).
Proof. reflexivity. Qed.

Lemma first_sextet a val :
  is_byte a -> Z.land (Z.shiftr (shift_in 8 a val) 2) 63 = a / 4.
Proof.
  intros Ha. unfold is_byte in Ha. destruct (shift_in_exact 8 a val ltac:(lia)) as [q ->].
  rewrite extract_sextet by lia. change (2 ^ 8) with 256. change (2 ^ 2) with 4. euclid.
Qed.

Lemma second_sextet a b val :
  is_byte a -> is_byte b ->
  Z.land (Z.shiftr (shift_in 8 b (shift_in 8 a val)) 4) 63 = (a mod 4) * 16 + b / 16.
Proof.
  intros Ha Hb. unfold is_byte in *. destruct (shift_in_exact 8 a val ltac:(lia)) as [qa Ea].
  destruct (shift_in_exact 8 b (shift_in 8 a val) ltac:(lia)) as [qb ->].
  rewrite extract_sextet by lia. change (2 ^ 8) with 256 in *. change (2 ^ 4) with 16. euclid.
Qed.

Lemma third_sextet b c val :
  is_byte b -> is_byte c ->
  Z.land (Z.shiftr (shift_in 8 c (shift_in 8 b val)) 6) 63 = (b mod 16) * 4 + c / 64.
Proof.
  intros Ha Hb. unfold is_byte in *. destruct (shift_in_exact 8 b val ltac:(lia)) as [qa Ea].
  destruct (shift_in_exact 8 c (shift_in 8 b val) ltac:(lia)) as [qb ->].
  rewrite extract_sextet by lia. change (2 ^ 8) with 256 in *. change (2 ^ 6) with 64. euclid.
Qed.

Lemma fourth_sextet c val :
  is_byte c -> Z.land (Z.shiftr (shift_in 8 c val) 0) 63 = c mod 64.
Proof.
  intros Ha. unfold is_byte in Ha. destruct (shift_in_exact 8 c val ltac:(lia)) as [q ->].
  rewrite extract_sextet by lia. change (2 ^ 8) with 256. change (2 ^ 0) with 1. euclid.
Qed.

Lemma encode_group a b c inp val out :
  is_byte a -> is_byte b -> is_byte c ->
  exists val', encode_loop (a :: b :: c :: inp) val (-6) out =
               encode_loop inp val' (-6) (out ++ (b64_char <$> sextets a b c)).
Proof.
  intros Ha Hb Hc. eexists. rewrite encode_byte0, encode_byte1, encode_byte2.
  rewrite first_sextet, second_sextet, third_sextet, fourth_sextet by done.
  rewrite <- !app_assoc. reflexivity.
Qed.

Lemma pad_stop n out : (length out mod 4 = 0)%nat -> pad (S n) out = out.
Proof. intros H. cbn [pad]. by rewrite (proj2 (Nat.eqb_eq _ _) H). Qed.

Lemma pad_more n out k :
  (length out mod 4 = k)%nat -> k <> 0%nat -> pad (S n) out = pad n (out ++ [equals_sign]).
Proof. intros H Hk. cbn [pad]. rewrite (proj2 (Nat.eqb_neq _ _)); [done|by rewrite H]. Qed.

Lemma length_mod4 {A} (out l : list A) :
  (length out mod 4 = 0)%nat -> (length (out ++ l) mod 4 = length l mod 4)%nat.
Proof.
  intros H. rewrite length_app, Nat.Div0.add_mod, H, Nat.add_0_l. by rewrite Nat.Div0.mod_mod.
Qed.

Lemma pad_two out x y :
  (length out mod 4 = 0)%nat -> pad 3 (out ++ [x; y]) = out ++ [x; y; equals_sign; equals_sign].
Proof.
  intros H. rewrite (pad_more _ _ 2) by (done || by rewrite length_mod4).
  rewrite <- app_assoc, (pad_more _ _ 3) by (done || by rewrite length_mod4).
  rewrite <- app_assoc. apply pad_stop. by rewrite length_mod4.
Qed.

Lemma pad_three out x y z :
  (length out mod 4 = 0)%nat -> pad 3 (out ++ [x; y; z]) = out ++ [x; y; z; equals_sign].
Proof.
  intros H. rewrite (pad_more _ _ 3) by (done || by rewrite length_mod4).
  rewrite <- app_assoc. apply pad_stop. by rewrite length_mod4.
Qed.

Lemma last_sextet1 a val :
  is_byte a ->
  Z.land (Z.shiftr (wrap_signed 32 (Z.shiftl (shift_in 8 a val) 8)) 4) 63 = (a mod 4) * 16.
Proof.
  intros Ha. unfold is_byte in Ha. destruct (shift_in_exact 8 a val ltac:(lia)) as [q ->].
  rewrite Z.shiftl_mul_pow2 by lia.
  destruct (wrap_exact ((val * 2 ^ 8 + a + q * 4294967296) * 2 ^ 8)) as [q2 ->].
  rewrite extract_sextet by lia. change (2 ^ 8) with 256. change (2 ^ 4) with 16. euclid.
Qed.

Lemma last_sextet2 b val :
  is_byte b ->
  Z.land (Z.shiftr (wrap_signed 32 (Z.shiftl (shift_in 8 b val) 8)) 6) 63 = (b mod 16) * 4.
Proof.
  intros Ha. unfold is_byte in Ha. destruct (shift_in_exact 8 b val ltac:(lia)) as [q ->].
  rewrite Z.shiftl_mul_pow2 by lia.
  destruct (wrap_exact ((val * 2 ^ 8 + b + q * 4294967296) * 2 ^ 8)) as [q2 ->].
  rewrite extract_sextet by lia. change (2 ^ 8) with 256. change (2 ^ 6) with 64. euclid.
Qed.

Lemma encode_end_spec l val out :
  Forall is_byte l -> (length out mod 4 = 0)%nat ->
  encode_end (encode_loop l val (-6) out) = out ++ base64 l.
Proof.
  revert val out. induction l as [|a|a b|a b c l IH] using list_ind3; intros val out Hl Hout.
  - rewrite app_nil_r. by apply pad_stop.
  - apply Forall_cons in Hl as [Ha _]. rewrite encode_byte0. unfold encode_end.
    cbn [encode_loop]. change (-6 <? -4) with true. cbv iota. change (-4 + 8) with 4.
    rewrite first_sextet, last_sextet1, <- app_assoc by done. by apply pad_two.
  - apply Forall_cons in Hl as [Ha [Hb _]%Forall_cons]. rewrite encode_byte0, encode_byte1.
    unfold encode_end. cbn [encode_loop]. change (-6 <? -2) with true. cbv iota.
    change (-2 + 8) with 6.
    rewrite first_sextet, second_sextet, last_sextet2, <- !app_assoc by done. by apply pad_three.
  - apply Forall_cons in Hl as [Ha [Hb [Hc Hl]%Forall_cons]%Forall_cons].
    destruct (encode_group a b c l val out Ha Hb Hc) as [val' ->].
    rewrite IH; [|done|by rewrite length_mod4].
    by rewrite <- app_assoc.
Qed.

(** ** Decoding *)

Section DecodeByte.
Context (s : Z) (Hs : 0 <= s < 64) (inp out : list Z) (val : Z).

Lemma not_stop : (rev_of (b64_char s) =? -1) = false.
Proof. destruct (b64_spec s Hs) as [-> _]. apply Z.eqb_neq. lia. Qed.

Ltac decode_byte := cbn [decode_loop]; rewrite not_stop; destruct (b64_spec s Hs) as [-> _]; reflexivity.

Lemma decode_byte0 :
  decode_loop (b64_char s :: inp) val (-8) out = decode_loop inp (shift_in 6 s val) (-2) out.
Proof. decode_byte. Qed.

Lemma decode_byte1 :
  decode_loop (b64_char s :: inp) val (-2) out =
  decode_loop inp (shift_in 6 s val) (-4) (out ++ [Z.land (Z.shiftr (shift_in 6 s val) 4) 255]).
Proof. decode_byte. Qed.

Lemma decode_byte2 :
  decode_loop (b64_char s :: inp) val (-4) out =
  decode_loop inp (shift_in 6 s val) (-6) (out ++ [Z.land (Z.shiftr (shift_in 6 s val) 2) 255]).
Proof. decode_byte. Qed.

Lemma decode_byte3 :
  decode_loop (b64_char s :: inp) val (-6) out =
  decode_loop inp (shift_in 6 s val) (-8) (out ++ [Z.land (Z.shiftr (shift_in 6 s val) 0) 255]).
Proof. decode_byte. Qed.
End DecodeByte.

Lemma decode_stop inp val bits out : decode_loop (equals_sign :: inp) val bits out = out.
Proof. reflexivity. Qed.

(** Two consecutive sextets shifted in: the older bits lie at multiples of [2 ^ 12]. *)
Lemma shift_in_two s t val :
  exists m, shift_in 6 t (shift_in 6 s val) = m * 4096 + (s * 64 + t).
Proof.
  destruct (shift_in_exact 6 s val ltac:(lia)) as [qa Ea].
  destruct (shift_in_exact 6 t (shift_in 6 s val) ltac:(lia)) as [qb ->].
  rewrite Ea. change (2 ^ 6) with 64. exists (val + qa * 67108864 + qb * 1048576). lia.
Qed.

Lemma octet_of s t k val :
  0 <= k <= 4 ->
  Z.land (Z.shiftr (shift_in 6 t (shift_in 6 s val)) k) 255 = ((s * 64 + t) / 2 ^ k) mod 256.
Proof.
  intros Hk. rewrite extract_octet by lia. destruct (shift_in_two s t val) as [m ->].
  generalize (s * 64 + t). intros x.
  assert (k = 0 \/ k = 1 \/ k = 2 \/ k = 3 \/ k = 4) as [->|[->|[->|[->| ->]]]] by lia;
    [change (2 ^ 0) with 1|change (2 ^ 1) with 2|change (2 ^ 2) with 4|change (2 ^ 3) with 8|
     change (2 ^ 4) with 16]; euclid.
Qed.

(** The three octets of a group come back. *)
Lemma octets_of_sextets a b c :
  is_byte a -> is_byte b -> is_byte c ->
  let '(s0, s1, s2, s3) := (a / 4, (a mod 4) * 16 + b / 16, (b mod 16) * 4 + c / 64, c mod 64) in
  ((s0 * 64 + s1) / 16) mod 256 = a /\ ((s1 * 64 + s2) / 4) mod 256 = b /\
  ((s2 * 64 + s3) / 1) mod 256 = c.
Proof. unfold is_byte. intros Ha Hb Hc. split; [|split]; euclid. Qed.

Lemma sextets_range a b c :
  is_byte a -> is_byte b -> is_byte c -> Forall (fun s => 0 <= s < 64) (sextets a b c).
Proof. unfold is_byte. intros Ha Hb Hc. repeat constructor; euclid. Qed.

Lemma decode_group a b c inp val out :
  is_byte a -> is_byte b -> is_byte c ->
  exists val', decode_loop ((b64_char <$> sextets a b c) ++ inp) val (-8) out =
               decode_loop inp val' (-8) (out ++ [a; b; c]).
Proof.
  intros Ha Hb Hc. destruct (octets_of_sextets a b c Ha Hb Hc) as (E0 & E1 & E2).
  pose proof (sextets_range a b c Ha Hb Hc) as Hr. unfold sextets in Hr |- *.
  set (s0 := a / 4) in *. set (s1 := (a mod 4) * 16 + b / 16) in *.
  set (s2 := (b mod 16) * 4 + c / 64) in *. set (s3 := c mod 64) in *.
  rewrite !Forall_cons in Hr. destruct Hr as (R0 & R1 & R2 & R3 & _). cbn [fmap list_fmap app].
  eexists. rewrite decode_byte0, decode_byte1, decode_byte2, decode_byte3 by done.
  rewrite !octet_of by lia. change (2 ^ 4) with 16. change (2 ^ 2) with 4. change (2 ^ 0) with 1.
  rewrite E0, E1, E2, <- !app_assoc. reflexivity.
Qed.

(** The one or two octets of the last group. *)
Lemma decode_end1 a val out :
  is_byte a ->
  decode_loop ((b64_char <$> [a / 4; (a mod 4) * 16]) ++ [equals_sign; equals_sign]) val (-8) out =
  out ++ [a].
Proof.
  intros Ha. pose proof (octets_of_sextets a 0 0 Ha) as E. unfold is_byte in *.
  cbn [fmap list_fmap app].
  rewrite decode_byte0, decode_byte1, decode_stop, octet_of by (lia || euclid).
  do 2 f_equal. change (2 ^ 4) with 16. euclid.
Qed.

Lemma decode_end2 a b val out :
  is_byte a -> is_byte b ->
  decode_loop ((b64_char <$> [a / 4; (a mod 4) * 16 + b / 16; (b mod 16) * 4]) ++ [equals_sign])
    val (-8) out = out ++ [a; b].
Proof.
  intros Ha Hb. unfold is_byte in *. cbn [fmap list_fmap app].
  rewrite decode_byte0, decode_byte1, decode_byte2, decode_stop, !octet_of by (lia || euclid).
  rewrite <- app_assoc. cbn [app]. f_equal. change (2 ^ 4) with 16. change (2 ^ 2) with 4.
  f_equal; [euclid|]. f_equal. euclid.
Qed.

Lemma decode_spec l val out :
  Forall is_byte l -> decode_loop (base64 l) val (-8) out = out ++ l.
Proof.
  revert val out. induction l as [|a|a b|a b c l IH] using list_ind3; intros val out Hl.
  - by rewrite app_nil_r.
  - apply Forall_cons in Hl as [Ha _]. by apply decode_end1.
  - apply Forall_cons in Hl as [Ha [Hb _]%Forall_cons]. by apply decode_end2.
  - apply Forall_cons in Hl as [Ha [Hb [Hc Hl]%Forall_cons]%Forall_cons]. cbn [base64].
    destruct (decode_group a b c (base64 l) val out Ha Hb Hc) as [val' ->].
    by rewrite IH, <- app_assoc.
Qed.

(** ** Strings and bytes *)

Lemma byte_of_range a : is_byte (byte_of a).
Proof. unfold is_byte, byte_of. pose proof (N_ascii_bounded a). lia. Qed.

Lemma char_of_byte_of a : char_of (byte_of a) = a.
Proof. unfold char_of, byte_of. by rewrite N2Z.id, ascii_N_embedding. Qed.

Lemma byte_of_char_of b : is_byte b -> byte_of (char_of b) = b.
Proof. unfold is_byte, char_of, byte_of. intros Hb. rewrite N_ascii_embedding; lia. Qed.

Lemma bytes_of_range s : Forall is_byte (bytes_of s).
Proof. apply Forall_fmap, Forall_true. intros a. apply byte_of_range. Qed.

Lemma string_of_bytes_of s : string_of (bytes_of s) = s.
Proof.
  unfold string_of, bytes_of. rewrite <- (String.string_of_list_ascii_of_string s) at 2.
  f_equal. induction (String.list_ascii_of_string s) as [|a l IH]; cbn; [done|].
  by rewrite char_of_byte_of, IH.
Qed.

Lemma bytes_of_string_of l : Forall is_byte l -> bytes_of (string_of l) = l.
Proof.
  intros Hl. unfold string_of, bytes_of.
  rewrite String.list_ascii_of_string_of_list_ascii, <- list_fmap_compose.
  induction Hl as [|b l Hb Hl IH]; cbn; [done|]. f_equal; [by apply byte_of_char_of|exact IH].
Qed.

Lemma chars_range l : Forall (fun s => 0 <= s < 64) l -> Forall is_byte (b64_char <$> l).
Proof.
  intros Hl. apply Forall_fmap. eapply Forall_impl; [exact Hl|]. intros s Hs. by apply b64_spec.
Qed.

Lemma base64_range l : Forall is_byte l -> Forall is_byte (base64 l).
Proof.
  induction l as [|a|a b|a b c l IH] using list_ind3; intros Hl; [constructor| | |].
  - apply Forall_cons in Hl as [Ha _]. apply Forall_app.
    split; [apply chars_range|]; unfold is_byte in *; rewrite ?Forall_cons, ?Forall_nil;
      unfold equals_sign; repeat split; euclid.
  - apply Forall_cons in Hl as [Ha [Hb _]%Forall_cons]. apply Forall_app.
    split; [apply chars_range|]; unfold is_byte in *; rewrite ?Forall_cons, ?Forall_nil;
      unfold equals_sign; repeat split; euclid.
  - apply Forall_cons in Hl as [Ha [Hb [Hc Hl]%Forall_cons]%Forall_cons]. cbn [base64].
    apply Forall_app. split; [by apply chars_range, sextets_range|by apply IH].
Qed.

Lemma encode_bytes_spec l : Forall is_byte l -> encode_bytes l = base64 l.
Proof. intros Hl. by apply encode_end_spec. Qed.

(** [Base64Encode] computes the RFC 4648 encoding of every string, although its
    accumulator is a 32-bit [int] whose high bits are shifted out; and it is the
    padded form: the length is a multiple of four. *)
Theorem Base64Encode_is_rfc4648 (s : string) :
  Base64Encode s = string_of (base64 (bytes_of s)) /\
  (length (base64 (bytes_of s)) = 4 * ((length (bytes_of s) + 2) / 3))%nat.
Proof.
  split; [unfold Base64Encode; by rewrite encode_bytes_spec by apply bytes_of_range|].
  induction (bytes_of s) as [|a|a b|a b c l IH] using list_ind3; try reflexivity.
  cbn [base64]. rewrite length_app, IH. cbn [length fmap list_fmap sextets].
  replace (S (S (S (length l))) + 2)%nat with (length l + 2 + 1 * 3)%nat by lia.
  rewrite Nat.div_add by done. lia.
Qed.

Lemma Base64Decode_Encode s : Base64Decode (Base64Encode s) = s.
Proof.
  pose proof (bytes_of_range s) as Hs. unfold Base64Decode, Base64Encode.
  rewrite encode_bytes_spec by done. rewrite bytes_of_string_of by by apply base64_range.
  rewrite decode_spec by done. apply string_of_bytes_of.
Qed.

(** [Base64Decode] inverts [Base64Encode] on every string, of any length and with
    any bytes, and ignores whatever follows the first character outside the alphabet,
    such as the padding. *)
Theorem Base64_roundtrip (s : string) :
  Base64Decode (Base64Encode s) = s /\
  (forall l c rest, rev_of c = -1 ->
     decode_loop (l ++ c :: rest) 0 (-8) [] = decode_loop l 0 (-8) []).
Proof.
  split; [apply Base64Decode_Encode|]. intros l c rest Hc.
  generalize 0 (-8) (@nil Z). induction l as [|x l IH]; intros val bits out; cbn [decode_loop app].
  - by rewrite Hc.
  - destruct (rev_of x =? -1); [done|]. destruct (0 <=? bits + 6); apply IH.
Qed.
