(* ===== verification/Converter.v ===== *)
(** * The data converter

    [src/src/converter/data_converter.cpp]: the default stack of payload converters,
    the protobuf encodings, the codec chain with its two bundled codecs, and the two
    payload stores.

    [nlohmann::json], zlib and the protobuf runtime are third-party code: they are the
    type classes [Json], [Zlib] and [Message], with the behaviour the code relies on in
    [JsonLaws], [ZlibLaws] and [MessageLaws].  [std::hash] is implementation-defined and
    a parameter of the stores. *)

From Stdlib Require Import Ascii.
From S2P Require Import Prelude Common Base64 Runner Reference.

(** ** Third-party code *)

Class Json (J : Type) := {
  json_null : J;
  is_null : J -> bool;
  json_binary : string -> J;
  get_binary : J -> option string;
  (** [dump] throws on a string that is not UTF-8. *)
  dump : J -> result string;
  json_parse : string -> result J;
  (** the implicit conversions to and from [std::string] and [int] *)
  of_string : string -> J;
  get_string : J -> result string;
  of_int : Z -> J;
  get_int : J -> result Z;
  (** values without a NaN or a binary inside, which the text form preserves *)
  textual : J -> Prop
}.

Class JsonLaws (J : Type) `{Json J} : Prop := {
  is_null_spec : forall v, is_null v = true <-> v = json_null;
  get_binary_spec : forall s, get_binary (json_binary s) = Some s;
  binary_not_null : forall v s, get_binary v = Some s -> is_null v = false;
  textual_spec : forall v, textual v -> is_null v = false /\ get_binary v = None;
  dump_parse : forall v s, textual v -> dump v = inr s -> json_parse s = inr v;
  of_string_textual : forall s, textual (of_string s);
  get_of_string : forall s, get_string (of_string s) = inr s;
  of_int_textual : forall z, textual (of_int z);
  get_of_int : forall z, get_int (of_int z) = inr z;
  dump_int : forall z, exists s, dump (of_int z) = inr s
}.

(** [compress2] into a buffer of [compressBound] bytes, and [uncompress] into a buffer
    of the given size; [inl] is a return code other than [Z_OK]. *)
Class Zlib := {
  compress2 : string -> Z + string;
  uncompress : string -> Z -> Z + string
}.

Definition size (s : string) : Z := Z.of_nat (String.length s).

Class ZlibLaws `(Zlib) : Prop :=
  zlib_inverse : forall s out, compress2 s = inr out -> uncompress out (size s) = inr s.

(** A generated message class: [inl] is the message of a status that is not [ok]. *)
Class Message (T : Type) := {
  GetTypeName : string;
  SerializeAsString : T -> string;
  ParseFromString : string -> option T;
  MessageToJsonString : T -> string + string;
  JsonStringToMessage : string -> string + T
}.

Class MessageLaws (T : Type) `{Message T} : Prop := {
  serialize_parse : forall m : T, ParseFromString (SerializeAsString m) = Some m;
  message_json : forall (m : T) s, MessageToJsonString m = inr s -> JsonStringToMessage s = inr m
}.

(** ** Standard library *)

Definition isspace (a : ascii) : bool :=
  let n := N_of_ascii a in (n =? 32)%N || ((9 <=? n)%N && (n <=? 13)%N).

Definition digit (a : ascii) : option Z :=
  let n := Z.of_N (N_of_ascii a) in
  if (48 <=? n) && (n <=? 57) then Some (n - 48) else None.

(** The longest run of digits. *)
Fixpoint read_digits (s : string) (acc : Z) : Z :=
  match s with
  | String a s => match digit a with Some d => read_digits s (acc * 10 + d) | None => acc end
  | EmptyString => acc
  end.

Fixpoint skip_spaces (s : string) : string :=
  match s with
  | String a s' => if isspace a then skip_spaces s' else s
  | EmptyString => s
  end.

(** [std::stoull]: white space, an optional sign, then at least one digit; anything
    may follow.  [None] is [invalid_argument] or [out_of_range]; a minus sign negates
    modulo [2 ^ 64]. *)
Definition stoull (s : string) : option Z :=
  let s := skip_spaces s in
  let '(negative, s) :=
    match s with
    | String "-" s' => (true, s')
    | String "+" s' => (false, s')
    | _ => (false, s)
    end in
  match s with
  | String a _ =>
    match digit a with
    | Some _ =>
      let n := read_digits s 0 in
      if n <? 2 ^ 64 then Some (if negative then (- n) mod 2 ^ 64 else n) else None
    | None => None
    end
  | EmptyString => None
  end.

(** ** Payload converters *)

Record PayloadConverter (J : Type) := mkPayloadConverter {
  encoding : string;
  (** [None] when the converter does not handle the value *)
  pc_ToPayload : J -> result (option Payload);
  (** [None] when [FromPayload] returns [false] *)
  pc_FromPayload : Payload -> result (option J)
}.
Arguments encoding {J} _.
Arguments pc_ToPayload {J} _.
Arguments pc_FromPayload {J} _.

Definition with_encoding (enc data : string) : Payload :=
  {| p_metadata := {[ metadata_keys.kEncoding := enc ]}; p_data := data |}.

Record PayloadCodec := mkPayloadCodec {
  Encode : Payload -> result Payload;
  Decode : Payload -> result Payload
}.

Record DataConverter (J : Type) := mkDataConverter {
  converters_ : list (PayloadConverter J);
  codecs_ : list PayloadCodec;
  failure_converter_ : option (exn -> Proto.Failure);
  proto_json_ : bool
}.
Arguments converters_ {J} _.
Arguments codecs_ {J} _.
Arguments failure_converter_ {J} _.
Arguments proto_json_ {J} _.

#[export] Instance DataConverter_eta J : Eta (DataConverter J) := fun d =>
  {| converters_ := converters_ d; codecs_ := codecs_ d;
     failure_converter_ := failure_converter_ d; proto_json_ := proto_json_ d |}.

(** The [encoding] metadata of a payload, empty when absent. *)
Definition encoding_of (p : Payload) : string :=
  default "" (p_metadata p !! metadata_keys.kEncoding).

(** ** The codec chain *)

Fixpoint encode_with (cs : list PayloadCodec) (p : Payload) : result Payload :=
  match cs with
  | [] => inr p
  | c :: cs => match Encode c p with inr p => encode_with cs p | inl e => inl e end
  end.

Fixpoint decode_with (cs : list PayloadCodec) (p : Payload) : result Payload :=
  match cs with
  | [] => inr p
  | c :: cs => match Decode c p with inr p => decode_with cs p | inl e => inl e end
  end.

Definition ApplyCodecsEncode {J} (dc : DataConverter J) (p : Payload) : result Payload :=
  encode_with (codecs_ dc) p.

(** In reverse order. *)
Definition ApplyCodecsDecode {J} (dc : DataConverter J) (p : Payload) : result Payload :=
  decode_with (rev (codecs_ dc)) p.

(** ** The default stack *)

Section Stack.
Context {J : Type} `{Json J}.

Definition NilPayloadConverter : PayloadConverter J :=
  {| encoding := encodings.kNull;
     pc_ToPayload value :=
       inr (if is_null value then Some (with_encoding encodings.kNull "") else None);
     pc_FromPayload _ := inr (Some json_null) |}.

Definition BytesPayloadConverter : PayloadConverter J :=
  {| encoding := encodings.kRaw;
     pc_ToPayload value := inr (with_encoding encodings.kRaw <$> get_binary value);
     pc_FromPayload p := inr (Some (json_binary (p_data p))) |}.

Definition JsonPayloadConverter : PayloadConverter J :=
  {| encoding := encodings.kJson;
     pc_ToPayload value :=
       match dump value with
       | inr s => inr (Some (with_encoding encodings.kJson s))
       | inl e => inl e
       end;
     pc_FromPayload p := match json_parse (p_data p) with inr v => inr (Some v) | inl e => inl e end |}.

Definition DefaultConverters : list (PayloadConverter J) :=
  [NilPayloadConverter; BytesPayloadConverter; JsonPayloadConverter].

Definition Default : DataConverter J :=
  {| converters_ := DefaultConverters; codecs_ := []; failure_converter_ := None;
     proto_json_ := false |}.

Definition WithCodecs (codecs : list PayloadCodec) : DataConverter J :=
  Default <| codecs_ := codecs |>.

Definition WithProtoJson : DataConverter J := Default <| proto_json_ := true |>.

Definition SetProtoJson (enabled : bool) (dc : DataConverter J) : DataConverter J :=
  dc <| proto_json_ := enabled |>.

Definition WithFailureConverter (fc : exn -> Proto.Failure) (dc : DataConverter J) : DataConverter J :=
  dc <| failure_converter_ := Some fc |>.

(** The first converter that accepts the value wins. *)
Fixpoint convert (cs : list (PayloadConverter J)) (value : J) : result Payload :=
  match cs with
  | [] => inl (DataConverterError "no payload converter could encode the value")
  | c :: cs =>
    match pc_ToPayload c value with
    | inr (Some p) => inr p
    | inr None => convert cs value
    | inl e => inl e
    end
  end.

Definition ToPayloadJson (dc : DataConverter J) (value : J) : result Payload :=
  convert (converters_ dc) value.

Fixpoint unconvert (cs : list (PayloadConverter J)) (enc : string) (p : Payload) : result J :=
  match cs with
  | [] => inl (DataConverterError ("no payload converter for encoding: " +:+ enc))
  | c :: cs =>
    if bool_decide (encoding c = enc)
    then match pc_FromPayload c p with
         | inr (Some v) => inr v
         | inr None => unconvert cs enc p
         | inl e => inl e
         end
    else unconvert cs enc p
  end.

Definition FromPayloadJson (dc : DataConverter J) (p : Payload) : result J :=
  unconvert (converters_ dc) (encoding_of p) p.

(** [ToPayload] and [FromPayload] of a value that is not a message. *)
Definition ToPayload (dc : DataConverter J) (value : J) : result Payload :=
  match ToPayloadJson dc value with inr p => ApplyCodecsEncode dc p | inl e => inl e end.

Definition FromPayload (dc : DataConverter J) (p : Payload) : result J :=
  match ApplyCodecsDecode dc p with inr p => FromPayloadJson dc p | inl e => inl e end.

(** [ToPayloads]: the arguments in order, stopping at the first that throws. *)
Fixpoint ToPayloads (dc : DataConverter J) (args : list J) : result Payloads :=
  match args with
  | [] => inr []
  | a :: args =>
    match ToPayload dc a with
    | inr p => match ToPayloads dc args with inr ps => inr (p :: ps) | inl e => inl e end
    | inl e => inl e
    end
  end.

(** ** Messages *)

Section Proto.
Context {T : Type} `{Message T}.

Definition ToProtoPayload (serialized message_type : string) : Payload :=
  {| p_metadata := <[metadata_keys.kMessageType := message_type]>
                     {[ metadata_keys.kEncoding := encodings.kProto ]};
     p_data := serialized |}.

Definition ProtoBytes (p : Payload) : result string :=
  if bool_decide (encoding_of p = encodings.kProto) then inr (p_data p)
  else inl (DataConverterError ("expected binary/protobuf payload, got encoding: " +:+ encoding_of p)).

Definition ToProtoJsonPayload (message : T) (message_type : string) : result Payload :=
  match MessageToJsonString message with
  | inl status =>
    inl (DataConverterError ("failed to encode protobuf payload as json/protobuf: " +:+ status))
  | inr json =>
    inr {| p_metadata := <[metadata_keys.kMessageType := message_type]>
                           {[ metadata_keys.kEncoding := encodings.kProtoJson ]};
           p_data := json |}
  end.

Definition FromProtoPayload (p : Payload) : result T :=
  let enc := encoding_of p in
  if bool_decide (enc = encodings.kProto) then
    match ParseFromString (p_data p) with
    | Some m => inr m
    | None => inl (DataConverterError ("failed to parse protobuf payload as " +:+ GetTypeName))
    end
  else if bool_decide (enc = encodings.kProtoJson) then
    match JsonStringToMessage (p_data p) with
    | inr m => inr m
    | inl status =>
      inl (DataConverterError
             ("failed to parse json/protobuf payload as " +:+ GetTypeName +:+ ": " +:+ status))
    end
  else inl (DataConverterError ("expected a protobuf payload, got encoding: " +:+ enc)).

Definition ToPayloadMessage (dc : DataConverter J) (value : T) : result Payload :=
  match
    (if proto_json_ dc then ToProtoJsonPayload value GetTypeName
     else inr (ToProtoPayload (SerializeAsString value) GetTypeName))
  with
  | inr p => ApplyCodecsEncode dc p
  | inl e => inl e
  end.

Definition FromPayloadMessage (dc : DataConverter J) (p : Payload) : result T :=
  match ApplyCodecsDecode dc p with inr p => FromProtoPayload p | inl e => inl e end.
End Proto.
End Stack.

(** ** The bundled codecs *)

Definition kCodecKey : string := "codec".

Definition Base64PayloadCodec : PayloadCodec :=
  {| Encode p :=
       inr {| p_metadata := <[kCodecKey := "base64"]> (p_metadata p);
              p_data := Base64Encode (p_data p) |};
     Decode p :=
       match p_metadata p !! kCodecKey with
       | Some "base64" =>
         inr {| p_metadata := delete kCodecKey (p_metadata p); p_data := Base64Decode (p_data p) |}
       | _ => inr p
       end |}.

Definition kGzipCodecValue : string := "gzip".
Definition kGzipLenKey : string := "codec-gzip-len".

Section Gzip.
Context `{Zlib}.

Definition GzipCompress (s : string) : result string :=
  match compress2 s with
  | inr out => inr out
  | inl rc =>
    inl (DataConverterError ("gzip codec: compression failed (zlib code " +:+ to_string rc +:+ ")"))
  end.

Definition GzipDecompress (s : string) (original_len : Z) : result string :=
  match uncompress s original_len with
  | inr out => inr out
  | inl rc =>
    inl (DataConverterError ("gzip codec: decompression failed (zlib code " +:+ to_string rc +:+ ")"))
  end.

Definition GzipPayloadCodec : PayloadCodec :=
  {| Encode p :=
       match GzipCompress (p_data p) with
       | inr data =>
         inr {| p_metadata := <[kCodecKey := kGzipCodecValue]>
                                (<[kGzipLenKey := to_string (size (p_data p))]> (p_metadata p));
                p_data := data |}
       | inl e => inl e
       end;
     Decode p :=
       if bool_decide (p_metadata p !! kCodecKey = Some kGzipCodecValue) then
         match p_metadata p !! kGzipLenKey with
         | None => inl (DataConverterError "gzip codec: payload missing original-length marker")
         | Some len =>
           match stoull len with
           | None =>
             inl (DataConverterError ("gzip codec: invalid original-length marker: " +:+ len))
           | Some original_len =>
             match GzipDecompress (p_data p) original_len with
             | inr data =>
               inr {| p_metadata := delete kGzipLenKey (delete kCodecKey (p_metadata p));
                      p_data := data |}
             | inl e => inl e
             end
           end
         end
       else inr p |}.
End Gzip.

(** ** Payload stores *)

Definition kRemoteRefKey : string := "remote-codec-ref".

(** The contents of the files, by path. *)
Abbreviation files := (gmap string string).

Section Stores.
(** [std::hash<std::string>] *)
Context (hash : string -> Z).

Definition PayloadStorageKey (p : Payload) : string :=
  to_string (hash (p_data p)) +:+ "-" +:+ to_string (size (p_data p)).

(** The payload with its body replaced by the reference [key]. *)
Definition reference (key : string) (p : Payload) : Payload :=
  {| p_metadata := <[kRemoteRefKey := key]> (p_metadata p); p_data := key |}.

Definition restored (body : string) (p : Payload) : Payload :=
  {| p_metadata := delete kRemoteRefKey (p_metadata p); p_data := body |}.

Record InMemoryPayloadStorage := mkInMemory { blobs_ : gmap string string }.

Definition Store (p : Payload) (s : InMemoryPayloadStorage) : InMemoryPayloadStorage * Payload :=
  let key := to_string (hash (p_data p)) +:+ "-" +:+ to_string (size (p_data p)) in
  (mkInMemory (<[key := p_data p]> (blobs_ s)), reference key p).

Definition Resolve (p : Payload) (s : InMemoryPayloadStorage) : result Payload :=
  match p_metadata p !! kRemoteRefKey with
  | None => inr p
  | Some key =>
    match blobs_ s !! key with
    | None => inl (DataConverterError ("payload storage reference not found: " +:+ key))
    | Some body => inr (restored body p)
    end
  end.

(** Which operation of the file system, if any, fails. *)
Inductive Fault := CreateFails (message : string) | OpenFails | WriteFails (written : string) | ReadFails.

Record FilePayloadStorage := mkFileStorage { dir_ : string }.

(** [std::filesystem::path(dir) / name]: a separator is added unless [dir] is empty
    or ends with one; an absolute [name] replaces the whole path. *)
Definition path_prefix (dir : string) : string :=
  if str_empty dir then ""
  else match String.get (String.length dir - 1) dir with
       | Some "/"%char => dir
       | _ => dir +:+ "/"
       end.

Definition path_join (dir name : string) : string :=
  match name with String "/" _ => name | _ => path_prefix dir +:+ name end.

Definition FileStore (st : FilePayloadStorage) (fault : option Fault) (p : Payload) (fs : files) :
  files * result Payload :=
  let key := PayloadStorageKey p in
  let file := path_join (dir_ st) key in
  match fault with
  | Some (CreateFails m) =>
    (fs, inl (DataConverterError
                ("payload storage: cannot create directory " +:+ dir_ st +:+ ": " +:+ m)))
  | Some OpenFails =>
    (fs, inl (DataConverterError ("payload storage: cannot open file for writing: " +:+ file)))
  | Some (WriteFails written) =>
    (* the file was truncated and holds what was written *)
    (<[file := written]> fs,
     inl (DataConverterError ("payload storage: failed to write file: " +:+ file)))
  | _ => (<[file := p_data p]> fs, inr (reference key p))
  end.

Definition FileResolve (st : FilePayloadStorage) (fault : option Fault) (p : Payload) (fs : files) :
  result Payload :=
  match p_metadata p !! kRemoteRefKey with
  | None => inr p
  | Some key =>
    let file := path_join (dir_ st) key in
    match fs !! file with
    | None => inl (DataConverterError ("payload storage reference not found: " +:+ file))
    | Some body =>
      match fault with
      | Some OpenFails =>
        inl (DataConverterError ("payload storage: cannot open file for reading: " +:+ file))
      | Some ReadFails =>
        inl (DataConverterError ("payload storage: failed to read file: " +:+ file))
      | _ => inr (restored body p)
      end
    end
  end.
End Stores.

(** ** Decimal lengths *)

Lemma digit_pretty x : (x < 10)%N -> digit (pretty_N_char x) = Some (Z.of_N x).
Proof.
  intros Hx.
  assert (x = 0 \/ x = 1 \/ x = 2 \/ x = 3 \/ x = 4 \/ x = 5 \/ x = 6 \/ x = 7 \/ x = 8 \/ x = 9)%N
    as Hc by lia.
  repeat (destruct Hc as [->|Hc]; [reflexivity|]). by subst.
Qed.

Lemma read_pretty_go x s : (0 < x)%N -> read_digits (pretty_N_go x s) 0 = read_digits s (Z.of_N x).
Proof.
  revert s. induction (N.lt_wf_0 x) as [x _ IH]. intros s Hx. rewrite pretty_N_go_step by done.
  pose proof (N.div_mod x 10 ltac:(lia)) as Hd. pose proof (N.mod_lt x 10 ltac:(lia)) as Hm.
  generalize dependent (x / 10)%N. generalize dependent (x mod 10)%N. intros m Hm q Hd.
  destruct (decide (q = 0)%N) as [E|E].
  - rewrite E, pretty_N_go_0. cbn [read_digits]. rewrite digit_pretty by done. f_equal. lia.
  - rewrite IH by lia. cbn [read_digits]. rewrite digit_pretty by done. f_equal. lia.
Qed.

(** The head of a decimal numeral is a digit, so neither a space nor a sign. *)
Lemma pretty_head_go x s :
  (0 < x)%N -> exists d s', (d < 10)%N /\ pretty_N_go x s = String (pretty_N_char d) s'.
Proof.
  revert s. induction (N.lt_wf_0 x) as [x _ IH]. intros s Hx. rewrite pretty_N_go_step by done.
  pose proof (N.div_mod x 10 ltac:(lia)) as Hd. pose proof (N.mod_lt x 10 ltac:(lia)) as Hm.
  generalize dependent (x / 10)%N. generalize dependent (x mod 10)%N. intros m Hm q Hd.
  destruct (decide (q = 0)%N) as [E|E].
  - rewrite E, pretty_N_go_0. by eauto.
  - apply IH; lia.
Qed.

Lemma stoull_digits d s :
  (d < 10)%N -> read_digits (String (pretty_N_char d) s) 0 < 2 ^ 64 ->
  stoull (String (pretty_N_char d) s) = Some (read_digits (String (pretty_N_char d) s) 0).
Proof.
  intros Hd Hlt.
  assert (d = 0 \/ d = 1 \/ d = 2 \/ d = 3 \/ d = 4 \/ d = 5 \/ d = 6 \/ d = 7 \/ d = 8 \/ d = 9)%N
    as Hc by lia.
  apply Z.ltb_lt in Hlt.
  repeat destruct Hc as [->|Hc]; subst;
    cbv [pretty_N_char] in Hlt |- *; unfold stoull; lazy -[read_digits Z.pow Z.ltb]; by rewrite Hlt.
Qed.

Lemma stoull_to_string n : 0 <= n < 2 ^ 64 -> stoull (to_string n) = Some n.
Proof.
  intros Hn. destruct (decide (n = 0)) as [->|Hz]; [reflexivity|].
  destruct n as [|n|n]; [done| |lia].
  change (to_string (Zpos n)) with (pretty_N_go (Npos n) "").
  pose proof (read_pretty_go (Npos n) "" ltac:(lia)) as Hr. simpl read_digits in Hr at 2.
  destruct (pretty_head_go (Npos n) "" ltac:(lia)) as (d & s' & Hd & E).
  rewrite E in Hr |- *. rewrite stoull_digits, Hr; [done|done|]. rewrite Hr. lia.
Qed.

(** ** Codecs *)

(** [Decode] reads back what [Encode] makes of [p]. *)
Definition invertible_at (c : PayloadCodec) (p : Payload) : Prop :=
  forall q, Encode c p = inr q -> Decode c q = inr p.

(** Every codec of the chain inverts what it is given. *)
Fixpoint chain_invertible (cs : list PayloadCodec) (p : Payload) : Prop :=
  match cs with
  | [] => True
  | c :: cs => invertible_at c p /\ forall q, Encode c p = inr q -> chain_invertible cs q
  end.

Lemma decode_with_app cs cs' p :
  decode_with (cs ++ cs') p =
  match decode_with cs p with inr p => decode_with cs' p | inl e => inl e end.
Proof. revert p. induction cs as [|c cs IH]; intros p; simpl; [done|]. by destruct (Decode c p). Qed.

Lemma chain_roundtrip cs p q :
  chain_invertible cs p -> encode_with cs p = inr q -> decode_with (rev cs) q = inr p.
Proof.
  revert p. induction cs as [|c cs IH]; intros p; simpl; [by intros _ [= ->]|].
  intros [Hc Hcs] He. destruct (Encode c p) as [e|p'] eqn:E; [done|].
  rewrite decode_with_app, (IH p') by eauto. simpl. by rewrite (Hc p' E).
Qed.

(** A payload no bundled codec has stamped yet. *)
Definition unmarked (p : Payload) : Prop :=
  p_metadata p !! kCodecKey = None /\ p_metadata p !! kGzipLenKey = None.

#[export] Instance unmarked_dec p : Decision (unmarked p).
Proof. unfold unmarked. apply _. Defined.

Lemma base64_invertible p : p_metadata p !! kCodecKey = None -> invertible_at Base64PayloadCodec p.
Proof.
  intros Hp q [= <-]. unfold Decode, Base64PayloadCodec. cbn [p_metadata p_data].
  rewrite lookup_insert_eq. rewrite Base64Decode_Encode, delete_insert_id by done. by destruct p.
Qed.

Lemma gzip_invertible `{Hz : Zlib} `{!ZlibLaws Hz} p :
  unmarked p -> size (p_data p) < 2 ^ 64 -> invertible_at GzipPayloadCodec p.
Proof.
  intros [Hc Hl] Hs q. unfold Encode, Decode, GzipPayloadCodec, GzipCompress, GzipDecompress.
  destruct (compress2 (p_data p)) as [rc|out] eqn:E; [done|]. intros [= <-].
  cbn [p_metadata p_data].
  rewrite bool_decide_true by by rewrite lookup_insert_eq.
  rewrite lookup_insert_ne, lookup_insert_eq by done.
  rewrite stoull_to_string by (unfold size in *; lia).
  rewrite (zlib_inverse _ _ E).
  rewrite delete_insert_id by (by rewrite lookup_insert_ne). rewrite delete_insert_id by done.
  by destruct p.
Qed.

(** A payload that carries another codec's mark, or none, is passed through. *)
Lemma base64_passes p : p_metadata p !! kCodecKey <> Some "base64" -> Decode Base64PayloadCodec p = inr p.
Proof. intros Hp. unfold Decode, Base64PayloadCodec. split_match; congruence. Qed.

Lemma gzip_passes `{Zlib} p :
  p_metadata p !! kCodecKey <> Some kGzipCodecValue -> Decode GzipPayloadCodec p = inr p.
Proof. intros Hp. unfold Decode, GzipPayloadCodec. by rewrite bool_decide_false. Qed.

(** ** Values *)

Section Values.
Context {J : Type} `{JsonLaws J}.

(** The values the default stack can carry. *)
Definition carried (v : J) : Prop :=
  v = json_null \/ (exists s, v = json_binary s) \/ textual v.

Lemma encoding_of_with enc s : encoding_of (with_encoding enc s) = enc.
Proof. unfold encoding_of, with_encoding. cbn [p_metadata]. by rewrite lookup_singleton_eq. Qed.

Lemma null_not_binary s : is_null (json_binary s) = false.
Proof. eapply binary_not_null, get_binary_spec. Qed.

Lemma null_is_null : is_null json_null = true.
Proof. by apply is_null_spec. Qed.

Lemma default_roundtrip dc v p :
  converters_ dc = DefaultConverters -> carried v ->
  ToPayloadJson dc v = inr p -> FromPayloadJson dc p = inr v.
Proof.
  unfold ToPayloadJson, FromPayloadJson. intros -> Hv. unfold DefaultConverters.
  cbn [convert NilPayloadConverter BytesPayloadConverter JsonPayloadConverter pc_ToPayload].
  destruct Hv as [->|[[s ->]|Hv]].
  - rewrite null_is_null. intros [= <-]. by rewrite encoding_of_with.
  - rewrite null_not_binary, get_binary_spec. intros [= <-]. by rewrite encoding_of_with.
  - destruct (textual_spec v Hv) as [-> ->]. destruct (dump v) as [e|s] eqn:E; [done|].
    intros [= <-]. rewrite encoding_of_with. cbn [unconvert encoding].
    rewrite !bool_decide_false by done. rewrite bool_decide_true by done.
    pose proof (dump_parse v s Hv E) as Hd. cbn. by rewrite Hd.
Qed.

(** What the default stack makes carries the [encoding] entry and no other. *)
Lemma converted_unmarked dc v p :
  converters_ dc = DefaultConverters -> ToPayloadJson dc v = inr p -> unmarked p.
Proof.
  unfold ToPayloadJson. intros ->. unfold DefaultConverters.
  cbn [convert NilPayloadConverter BytesPayloadConverter JsonPayloadConverter pc_ToPayload].
  assert (Hu : forall enc s, unmarked (with_encoding enc s)).
  { intros enc s. unfold unmarked, with_encoding. cbn [p_metadata].
    by rewrite !lookup_singleton_ne. }
  destruct (is_null v); [by intros [= <-]|]. destruct (get_binary v); [by intros [= <-]|].
  destruct (dump v); [done|by intros [= <-]].
Qed.
End Values.

(** C38: a value encoded by a converter with the default stack and one bundled codec is
    read back by a converter with the same configuration: null, binary and textual
    values alike, through base64 or through zlib. *)
Theorem value_roundtrip {J : Type} `{JsonLaws J} `{Hz : Zlib} `{!ZlibLaws Hz}
  (c : PayloadCodec) (v : J) (p : Payload)
  (Hc : c = Base64PayloadCodec \/ c = GzipPayloadCodec) (Hv : carried v)
  (Hsize : forall q, ToPayloadJson (WithCodecs [c]) v = inr q -> size (p_data q) < 2 ^ 64)
  (Hp : ToPayload (WithCodecs [c]) v = inr p) :
  FromPayload (WithCodecs [c]) p = inr v.
Proof.
  unfold ToPayload, FromPayload, ApplyCodecsEncode, ApplyCodecsDecode in *.
  destruct (ToPayloadJson (WithCodecs [c]) v) as [e|q] eqn:Hq; [done|].
  pose proof (converted_unmarked (WithCodecs [c]) v q eq_refl Hq) as Hu.
  rewrite (chain_roundtrip _ q p); [by apply (default_roundtrip (WithCodecs [c]))| |exact Hp].
  split; [|done]. destruct Hc as [->| ->].
  - by apply base64_invertible, Hu.
  - apply gzip_invertible; [exact Hu|by apply Hsize].
Qed.

(** The two bundled codecs do not compose, in either order nor with themselves:
    they store their mark under the same metadata key, the outer codec's [Decode]
    erases it, and the inner one then passes the payload through still encoded. *)
Theorem bundled_codecs_do_not_compose `{Hz : Zlib} `{!ZlibLaws Hz} (p q : Payload)
  (outer : PayloadCodec) (Ho : outer = Base64PayloadCodec \/ outer = GzipPayloadCodec)
  (Hlen : p_metadata p !! kGzipLenKey = None) (Hs : size (Base64Encode (p_data p)) < 2 ^ 64)
  (Hq : encode_with [Base64PayloadCodec; outer] p = inr q) :
  decode_with (rev [Base64PayloadCodec; outer]) q =
  inr {| p_metadata := delete kCodecKey (p_metadata p); p_data := Base64Encode (p_data p) |}.
Proof.
  set (p' := {| p_metadata := delete kCodecKey (p_metadata p); p_data := Base64Encode (p_data p) |}).
  assert (Henc : Encode outer {| p_metadata := <[kCodecKey := "base64"]> (p_metadata p);
                                 p_data := Base64Encode (p_data p) |} = inr q).
  { revert Hq. cbn [encode_with]. unfold Encode at 1. cbn [Base64PayloadCodec].
    by destruct (Encode outer _). }
  cbn [rev app decode_with].
  assert (Hd : Decode outer q = inr p').
  { assert (Hi : invertible_at outer p').
    { destruct Ho as [->| ->]; [apply base64_invertible|apply gzip_invertible; [split|done]];
        unfold p'; cbn [p_metadata]; by rewrite ?lookup_delete_eq, ?lookup_delete_ne. }
    apply Hi. rewrite <- Henc.
    destruct Ho as [->| ->]; unfold Encode, Base64PayloadCodec, GzipPayloadCodec, p';
      cbn [p_metadata p_data]; [by rewrite insert_delete_eq, insert_insert_eq|].
    destruct (GzipCompress _); [done|]. do 2 f_equal.
    apply map_eq. intros k. destruct (decide (k = kCodecKey)) as [->|Hk]; [by rewrite !lookup_insert_eq|].
    rewrite !(lookup_insert_ne _ kCodecKey) by done.
    destruct (decide (k = kGzipLenKey)) as [->|Hk']; [by rewrite !lookup_insert_eq|].
    by rewrite !(lookup_insert_ne _ kGzipLenKey), lookup_insert_ne, lookup_delete_ne by done. }
  rewrite Hd. by rewrite base64_passes by (unfold p'; cbn [p_metadata]; by rewrite lookup_delete_eq).
Qed.

(** ** Messages *)

(** A protobuf message is read back whichever encoding its writer is configured
    for: the reader dispatches on the [encoding] metadata, not on its own toggle; and a
    payload of any other encoding is refused with an error, never misread. *)
Theorem message_roundtrip {J T : Type} `{MessageLaws T} (writer reader : DataConverter J) (m : T)
  (p : Payload) (Hcodecs : codecs_ writer = [] /\ codecs_ reader = [])
  (Hp : ToPayloadMessage writer m = inr p) :
  FromPayloadMessage reader p = inr m /\
  (forall q, encoding_of q <> encodings.kProto -> encoding_of q <> encodings.kProtoJson ->
     exists e, FromPayloadMessage (T := T) reader q = inl (DataConverterError e)).
Proof.
  destruct Hcodecs as [Hw Hr].
  unfold ToPayloadMessage, FromPayloadMessage, ApplyCodecsEncode, ApplyCodecsDecode in *.
  rewrite Hw in Hp. rewrite Hr. cbn [rev encode_with decode_with] in *. split.
  - unfold FromProtoPayload, encoding_of. destruct (proto_json_ writer).
    + unfold ToProtoJsonPayload in Hp. destruct (MessageToJsonString m) as [e|js] eqn:E; [done|].
      injection Hp as <-. cbn [p_metadata p_data].
      rewrite lookup_insert_ne, lookup_singleton_eq by done. cbn [default].
      rewrite bool_decide_false, bool_decide_true by done. by rewrite (message_json m js E).
    + injection Hp as <-. unfold ToProtoPayload. cbn [p_metadata p_data].
      rewrite lookup_insert_ne, lookup_singleton_eq by done. cbn [default].
      rewrite bool_decide_true by done. by rewrite serialize_parse.
  - intros q H1 H2. unfold FromProtoPayload. rewrite !bool_decide_false by done. eauto.
Qed.

(** ** Stores *)

Section StoreFacts.
Context (hash : string -> Z).

Definition store_all (ps : list Payload) (s : InMemoryPayloadStorage) : InMemoryPayloadStorage :=
  fold_left (fun s p => fst (Store hash p s)) ps s.

(** No other body stored under the same key. *)
Definition no_collision (p p' : Payload) : Prop :=
  PayloadStorageKey hash p' = PayloadStorageKey hash p -> p_data p' = p_data p.

Lemma resolve_reference key p body s :
  p_metadata p !! kRemoteRefKey = None -> p_data p = body ->
  blobs_ s !! key = Some body -> Resolve (reference key p) s = inr p.
Proof.
  intros Hp Hb Hs. unfold Resolve, reference, restored. cbn [p_metadata p_data].
  rewrite lookup_insert_eq, Hs, delete_insert_id by done. subst. by destruct p.
Qed.

Lemma store_all_keeps p ps s :
  Forall (no_collision p) ps -> blobs_ s !! PayloadStorageKey hash p = Some (p_data p) ->
  blobs_ (store_all ps s) !! PayloadStorageKey hash p = Some (p_data p).
Proof.
  intros Hps Hs. unfold store_all. apply fold_left_inv; [done|].
  intros s' p' Hs' Hin. rewrite Forall_forall in Hps. specialize (Hps p' Hin).
  unfold Store. cbn [fst blobs_].
  destruct (decide (PayloadStorageKey hash p' = PayloadStorageKey hash p)) as [E|E].
  - specialize (Hps E). unfold PayloadStorageKey in *. by rewrite E, lookup_insert_eq, Hps.
  - unfold PayloadStorageKey in *. by rewrite lookup_insert_ne.
Qed.
End StoreFacts.

(** A stored payload is resolved to itself, body and metadata, however many
    payloads are stored afterwards, as long as none of them has another body under the
    same hash and length; when one does, the reference silently resolves to that other
    body. *)
Theorem stored_payload_resolves (hash : string -> Z) (p p' : Payload) (ps : list Payload)
  (s : InMemoryPayloadStorage) (Hp : p_metadata p !! kRemoteRefKey = None)
  (Hps : Forall (no_collision hash p) ps) :
  let '(s1, ref) := Store hash p s in
  Resolve ref (store_all hash ps s1) = inr p /\
  (PayloadStorageKey hash p' = PayloadStorageKey hash p ->
   Resolve ref (fst (Store hash p' (store_all hash ps s1))) =
   inr {| p_metadata := p_metadata p; p_data := p_data p' |}).
Proof.
  cbn [Store]. split.
  - apply (resolve_reference _ _ (p_data p)); [done..|]. apply store_all_keeps; [done|].
    apply lookup_insert_eq.
  - intros E. unfold PayloadStorageKey in E. unfold Resolve, reference, restored.
    cbn [p_metadata p_data Store fst blobs_]. rewrite E, !lookup_insert_eq.
    by rewrite delete_insert_id.
Qed.

Section FileStore.
Context (hash : string -> Z) (st : FilePayloadStorage).

(** The directory holds, under the name of each key, the blob of that key. *)
Definition same_blobs (fs : files) (s : InMemoryPayloadStorage) : Prop :=
  forall p, fs !! path_join (dir_ st) (PayloadStorageKey hash p) =
            blobs_ s !! PayloadStorageKey hash p.

Lemma append_inj_l (s a b : string) : s +:+ a = s +:+ b -> a = b.
Proof. induction s as [|c s IH]; [done|]. intros [= E]. by apply IH. Qed.

Lemma key_not_absolute p : 0 <= hash (p_data p) ->
  exists d s', (d < 10)%N /\ PayloadStorageKey hash p = String (pretty_N_char d) s'.
Proof.
  intros Hh. unfold PayloadStorageKey. destruct (hash (p_data p)) as [|n|n] eqn:E; [| |lia].
  - exists 0%N. eexists. split; [lia|reflexivity].
  - destruct (pretty_head_go (Npos n) "" ltac:(lia)) as (d & s' & Hd & En).
    exists d. eexists. split; [done|]. change (to_string (Zpos n)) with (pretty_N_go (Npos n) "").
    by rewrite En.
Qed.

Lemma path_join_inj p p' :
  (forall s, 0 <= hash s) ->
  path_join (dir_ st) (PayloadStorageKey hash p) = path_join (dir_ st) (PayloadStorageKey hash p') ->
  PayloadStorageKey hash p = PayloadStorageKey hash p'.
Proof.
  intros Hh. destruct (key_not_absolute p (Hh _)) as (d & s & Hd & ->).
  destruct (key_not_absolute p' (Hh _)) as (d' & s' & Hd' & ->).
  assert (Hj : forall d s, (d < 10)%N ->
    path_join (dir_ st) (String (pretty_N_char d) s) =
    path_prefix (dir_ st) +:+ String (pretty_N_char d) s).
  { clear. intros d s Hd. unfold path_join.
    assert (d = 0 \/ d = 1 \/ d = 2 \/ d = 3 \/ d = 4 \/ d = 5 \/ d = 6 \/ d = 7 \/ d = 8 \/ d = 9)%N
      as Hc by lia.
    repeat destruct Hc as [->|Hc]; subst; reflexivity. }
  rewrite !Hj by done. apply append_inj_l.
Qed.
End FileStore.

(** Over a file system that does not fail, the file store implements the in-memory
    one: [Store] returns the same reference and keeps the directory equal to the table,
    and [Resolve] of any reference to a stored key gives the same payload, or an error
    in both, so that a reference made by one is resolved by the other. *)
Theorem file_store_refines_memory (hash : string -> Z) (st : FilePayloadStorage) (fs : files)
  (s : InMemoryPayloadStorage) (p : Payload)
  (Hhash : forall x, 0 <= hash x) (Hs : same_blobs hash st fs s) :
  (let '(fs', ref') := FileStore hash st None p fs in
   let '(s', ref) := Store hash p s in
   ref' = inr ref /\ same_blobs hash st fs' s') /\
  (forall q b, p_metadata q !! kRemoteRefKey = Some (PayloadStorageKey hash b) ->
     match FileResolve st None q fs, Resolve q s with
     | inr x, inr y => x = y
     | inl (DataConverterError _), inl (DataConverterError _) => True
     | _, _ => False
     end).
Proof.
  split.
  - unfold FileStore, Store. split; [done|]. intros b. cbn [blobs_].
    fold (PayloadStorageKey hash p).
    destruct (decide (PayloadStorageKey hash b = PayloadStorageKey hash p)) as [E|E].
    + by rewrite E, !lookup_insert_eq.
    + rewrite !lookup_insert_ne; [apply Hs|done|]. intros Hj. apply E. symmetry.
      by apply (path_join_inj hash st).
  - intros q b Hq. unfold FileResolve, Resolve. rewrite Hq, Hs. by destruct (blobs_ s !! _).
Qed.

(** ** The engine's codec

    The workflow engine encodes its own strings and versions through the converter: a
    converter with a chain that inverts what it is given, and that never fails on an
    integer, satisfies the interface [CodecLaws] the engine's theorems assume. *)

Section Engine.
Context {J : Type} `{JsonLaws J} (codecs : list PayloadCodec).

Definition from_payload {A} (get : J -> result A) (p : Payload) : result A :=
  match FromPayload (WithCodecs codecs) p with inr v => get v | inl e => inl e end.

Definition converter_codec : Codec := {|
  ToPayload_string s := ToPayload (WithCodecs codecs) (of_string s);
  FromPayload_string := from_payload get_string;
  ToPayload_int z := ToPayload (WithCodecs codecs) (of_int z);
  FromPayload_int := from_payload get_int
|}.

Context (Hinv : forall p, unmarked p -> chain_invertible codecs p)
        (Htotal : forall p, unmarked p -> exists q, encode_with codecs p = inr q).

Lemma from_to_payload {A} (get : J -> result A) v a p :
  textual v -> get v = inr a -> ToPayload (WithCodecs codecs) v = inr p ->
  from_payload get p = inr a.
Proof.
  intros Hv Hget Hp. unfold from_payload, FromPayload, ApplyCodecsDecode. unfold ToPayload in Hp.
  destruct (ToPayloadJson _ v) as [e|q] eqn:Hq; [done|].
  change (codecs_ (WithCodecs codecs)) with codecs.
  rewrite (chain_roundtrip codecs q p);
    [|by apply Hinv, (converted_unmarked (WithCodecs codecs) v q)|exact Hp].
  rewrite (default_roundtrip (WithCodecs codecs) v q); [done|done|by do 2 right|done].
Qed.

Lemma converter_codec_laws : CodecLaws converter_codec.
Proof.
  split.
  - intros s p. apply from_to_payload; [apply of_string_textual|apply get_of_string].
  - intros z p. apply from_to_payload; [apply of_int_textual|apply get_of_int].
  - intros z. cbn [ToPayload_int converter_codec].
    destruct (dump_int z) as [s Hd]. destruct (textual_spec (of_int z) (of_int_textual z)) as [Hn Hb].
    assert (Hq : ToPayloadJson (WithCodecs codecs) (of_int z) = inr (with_encoding encodings.kJson s)).
    { unfold ToPayloadJson. cbn. by rewrite Hn, Hb, Hd. }
    unfold ToPayload. rewrite Hq. apply Htotal.
    by apply (converted_unmarked (WithCodecs codecs) (of_int z)).
Qed.
End Engine.

#[export] Instance default_codec_laws {J} `{JsonLaws J} : CodecLaws (converter_codec (J := J) []).
Proof. apply converter_codec_laws; [done|]. intros p _. by exists p. Qed.

#[export] Instance base64_codec_laws {J} `{JsonLaws J} :
  CodecLaws (converter_codec (J := J) [Base64PayloadCodec]).
Proof.
  apply converter_codec_laws.
  - intros p [Hp _]. split; [by apply base64_invertible|done].
  - intros p _. eexists. reflexivity.
Qed.

(** ** Closed instances *)

Inductive ref_json := RNull | RBinary (s : string) | RString (s : string) | RInt (z : Z).

#[export] Instance ref_json_ops : Json ref_json := {
  json_null := RNull;
  is_null v := match v with RNull => true | _ => false end;
  json_binary := RBinary;
  get_binary v := match v with RBinary s => Some s | _ => None end;
  dump v :=
    match v with
    | RString s => inr (String "s" s)
    | RInt z => inr (String "i" (encode_int z))
    | _ => inl (StdException "not textual")
    end;
  json_parse s :=
    match s with
    | String "s" s => inr (RString s)
    | String "i" s => match decode_int s with Some z => inr (RInt z) | None => inl (StdException s) end
    | _ => inl (StdException s)
    end;
  of_string := RString;
  get_string v := match v with RString s => inr s | _ => inl (StdException "not a string") end;
  of_int := RInt;
  get_int v := match v with RInt z => inr z | _ => inl (StdException "not an integer") end;
  textual v := match v with RString _ | RInt _ => True | _ => False end
}.

#[export] Instance ref_json_laws : JsonLaws ref_json.
Proof.
  split; simpl; try done.
  - by intros [].
  - by intros [].
  - by intros [].
  - intros [|s|s|z] t Hv; try done; intros [= <-]; [done|]. by rewrite decode_encode_int.
  - eauto.
Qed.

#[export] Instance ref_zlib : Zlib := { compress2 s := inr s; uncompress s _ := inr s }.

#[export] Instance ref_zlib_laws : ZlibLaws ref_zlib.
Proof. by intros s out [= <-]. Qed.

#[export] Instance ref_message : Message string := {
  GetTypeName := "Text";
  SerializeAsString m := m;
  ParseFromString := Some;
  MessageToJsonString := inr;
  JsonStringToMessage := inr
}.

#[export] Instance ref_message_laws : MessageLaws string.
Proof. split; simpl; [done|]. by intros m s [= ->]. Qed.

Lemma value_roundtrip_witness :
  exists p, ToPayload (WithCodecs [GzipPayloadCodec]) (RString "hello") = inr p /\
            FromPayload (WithCodecs [GzipPayloadCodec]) p = inr (RString "hello").
Proof.
  eexists. split; [reflexivity|].
  apply (value_roundtrip GzipPayloadCodec (RString "hello")).
  - by right.
  - do 2 right. exact I.
  - intros q [= <-]. reflexivity.
  - reflexivity.
Defined.

Lemma bundled_codecs_do_not_compose_witness :
  exists q, encode_with [Base64PayloadCodec; GzipPayloadCodec] (bytes "hi") = inr q /\
            decode_with (rev [Base64PayloadCodec; GzipPayloadCodec]) q = inr (bytes "aGk=").
Proof.
  eexists. split; [reflexivity|].
  apply (bundled_codecs_do_not_compose (bytes "hi") _ GzipPayloadCodec).
  - by right.
  - reflexivity.
  - vm_compute. reflexivity.
  - reflexivity.
Defined.

Lemma message_roundtrip_witness :
  exists p, ToPayloadMessage WithProtoJson "hello" = inr p /\
            FromPayloadMessage (Default (J := ref_json)) p = inr "hello".
Proof.
  eexists. split; [reflexivity|].
  apply (message_roundtrip (WithProtoJson (J := ref_json)) (Default (J := ref_json)) "hello").
  - by split.
  - reflexivity.
Defined.

(** The length alone as a hash: bodies of one length collide. *)
Lemma stored_payload_resolves_witness :
  let p := bytes "abc" in let p' := bytes "xyz" in
  let '(s1, ref) := Store (fun _ => 0) p (mkInMemory ∅) in
  Resolve ref s1 = inr p /\ Resolve ref (fst (Store (fun _ => 0) p' s1)) = inr p'.
Proof.
  destruct (stored_payload_resolves (fun _ => 0) (bytes "abc") (bytes "xyz") [] (mkInMemory ∅))
    as [H1 H2].
  - reflexivity.
  - constructor.
  - split; [exact H1|]. apply H2. reflexivity.
Defined.

Lemma file_store_refines_memory_witness :
  let '(fs', ref') := FileStore (fun _ => 7) (mkFileStorage "/tmp/blobs") None (bytes "abc") ∅ in
  let '(s', ref) := Store (fun _ => 7) (bytes "abc") (mkInMemory ∅) in
  ref' = inr ref /\ same_blobs (fun _ => 7) (mkFileStorage "/tmp/blobs") fs' s'.
Proof.
  apply (file_store_refines_memory (fun _ => 7) (mkFileStorage "/tmp/blobs") ∅ (mkInMemory ∅)
           (bytes "abc")).
  - intros _. lia.
  - intros p. reflexivity.
Defined.
