(* ===== verification/Tracing.v ===== *)
(** * The tracing interceptor

    [src/include/temporal/interceptor/tracing.h] and [src/src/interceptor/tracing.cpp]:
    the [Tracer] interface, the no-op and the in-memory tracers, the header format and
    the wrappers [TracingInterceptor] installs.

    A tracer is a class [Tracer] over the tracer's state and its spans; the wrappers
    are written against it.  Tracer and span slot live in the state the interceptors
    share, reached by a [Lens].  [nlohmann::json] is third-party code: the operations
    on objects are the class [JsonObject], beside [Converter.Json]. *)

From S2P Require Import Prelude Common Effects Workflow Interceptors Converter.

(** ** Third-party code *)

Class JsonObject (J : Type) `{Json J} := {
  (** the conversion from a map of strings *)
  json_object : gmap string string -> J;
  (** the members, when [is_object] *)
  members : J -> option (list (string * J));
  is_string : J -> bool
}.

Class JsonObjectLaws (J : Type) `{JsonObject J} : Prop := {
  members_object : forall m, exists l,
    members (json_object m) = Some l /\ NoDup l.*1 /\ list_to_map l = (of_string <$> m);
  is_string_of_string : forall s, is_string (of_string s) = true;
  object_textual : forall m, textual (json_object m)
}.

(** ** Spans and tracers *)

Record SpanContext := mkSpanContext { sc_data : gmap string string }.

#[export] Instance SpanContext_eq_dec : EqDecision SpanContext.
Proof. solve_decision. Defined.

Record StartSpanOptions := mkStartSpanOptions {
  operation : string;
  span_name : string;
  parent : option SpanContext;
  tags : gmap string string
}.

Class Tracer (T Span : Type) := {
  StartSpan : StartSpanOptions -> T -> T * Span;
  SetTag : Span -> string -> string -> T -> T;
  EndSpan : Span -> bool -> T -> T;
  context : Span -> SpanContext;
  Inject : Span -> T -> gmap string string;
  Extract : gmap string string -> T -> option SpanContext
}.

(** The only tracer the SDK ships. *)
#[export] Instance NoopTracer : Tracer unit unit := {
  StartSpan _ t := (t, tt);
  SetTag _ _ _ t := t;
  EndSpan _ _ t := t;
  context _ := mkSpanContext ∅;
  Inject _ _ := ∅;
  Extract _ _ := None
}.

(** ** [InMemoryTracer] *)

Record SpanRecord := mkSpanRecord {
  rec_operation : string;
  rec_name : string;
  rec_trace_id : string;
  rec_span_id : string;
  rec_parent_span_id : string;
  rec_tags : gmap string string;
  rec_ended : bool;
  rec_error : bool
}.

#[export] Instance SpanRecord_eta : Eta SpanRecord := fun r =>
  {| rec_operation := rec_operation r; rec_name := rec_name r; rec_trace_id := rec_trace_id r;
     rec_span_id := rec_span_id r; rec_parent_span_id := rec_parent_span_id r;
     rec_tags := rec_tags r; rec_ended := rec_ended r; rec_error := rec_error r |}.

Record InMemoryTracer := mkInMemoryTracer {
  records_ : list SpanRecord;
  next_trace_id_ : Z;
  next_span_id_ : Z
}.

#[export] Instance InMemoryTracer_eta : Eta InMemoryTracer := fun t =>
  {| records_ := records_ t; next_trace_id_ := next_trace_id_ t; next_span_id_ := next_span_id_ t |}.

Definition new_tracer : InMemoryTracer :=
  {| records_ := []; next_trace_id_ := 1; next_span_id_ := 1 |}.

Record MemSpan := mkMemSpan { record_index_ : nat; ctx_ : SpanContext }.

Definition kTraceIdKey : string := "trace_id".
Definition kSpanIdKey : string := "span_id".

Definition MemStartSpan (options : StartSpanOptions) (t : InMemoryTracer) :
    InMemoryTracer * MemSpan :=
  let data := from_option sc_data ∅ (parent options) in
  let trace_id := default "" (data !! kTraceIdKey) in
  let parent_span_id := default "" (data !! kSpanIdKey) in
  let '(trace_id, t) :=
    if str_empty trace_id
    then ("t" +:+ to_string (next_trace_id_ t), t <| next_trace_id_ ::= Z.succ |>)
    else (trace_id, t) in
  let span_id := "s" +:+ to_string (next_span_id_ t) in
  let t := t <| next_span_id_ ::= Z.succ |> in
  let r := {| rec_operation := operation options; rec_name := span_name options;
              rec_trace_id := trace_id; rec_span_id := span_id;
              rec_parent_span_id := parent_span_id; rec_tags := tags options;
              rec_ended := false; rec_error := false |} in
  (t <| records_ ::= fun l => l ++ [r] |>,
   {| record_index_ := length (records_ t);
      ctx_ := mkSpanContext (<[kTraceIdKey := trace_id]> (<[kSpanIdKey := span_id]> ∅)) |}).

Definition MemSetTag (span : MemSpan) (key value : string) (t : InMemoryTracer) : InMemoryTracer :=
  t <| records_ ::= alter (fun r => r <| rec_tags ::= <[key := value]> |>) (record_index_ span) |>.

Definition MemEnd (span : MemSpan) (error : bool) (t : InMemoryTracer) : InMemoryTracer :=
  t <| records_ ::=
    alter (fun r => (r <| rec_ended := true |>) <| rec_error := error |>) (record_index_ span) |>.

Definition MemInject (span : MemSpan) (_ : InMemoryTracer) : gmap string string :=
  sc_data (ctx_ span).

Definition MemExtract (data : gmap string string) (_ : InMemoryTracer) : option SpanContext :=
  match data !! kTraceIdKey, data !! kSpanIdKey with
  | Some _, Some _ => Some (mkSpanContext data)
  | _, _ => None
  end.

#[export] Instance MemTracer : Tracer InMemoryTracer MemSpan := {
  StartSpan := MemStartSpan;
  SetTag := MemSetTag;
  EndSpan := MemEnd;
  context := ctx_;
  Inject := MemInject;
  Extract := MemExtract
}.

(** ** The header format *)

Definition kDefaultTracerHeaderKey : string := "_tracer-data".

Section Header.
Context {J : Type} `{JsonObject J}.

(** [dump] throws on a string that is not UTF-8. *)
Definition WriteToHeader (header_key : string) (data : gmap string string) (header : Header) :
    result Header :=
  if bool_decide (data = ∅) then inr header
  else
    match dump (json_object data) with
    | inr text =>
      let payload := {| p_metadata := {[ metadata_keys.kEncoding := encodings.kJson ]};
                        p_data := text |} in
      inr (<[header_key := payload]> header)
    | inl e => inl e
    end.

(** [std::map::emplace]: a key that is there keeps its value. *)
Definition emplace (key value : string) (m : gmap string string) : gmap string string :=
  match m !! key with Some _ => m | None => <[key := value]> m end.

Definition read_member (out : gmap string string) (field : string * J) : gmap string string :=
  if is_string field.2
  then match get_string field.2 with inr s => emplace field.1 s out | inl _ => out end
  else out.

(** A parse that fails gives a discarded value, which is no object. *)
Definition ReadFromHeader (header_key : string) (header : Header) : gmap string string :=
  match header !! header_key with
  | None => ∅
  | Some payload =>
    match json_parse (p_data payload) with
    | inl _ => ∅
    | inr j =>
      match members j with
      | None => ∅
      | Some fields => fold_left read_member fields ∅
      end
    end
  end.
End Header.

(** ** The wrappers *)

(** A component of the state the interceptors share. *)
Class Lens (S A : Type) := { view : S -> A; put : A -> S -> S }.
Arguments view {S A} _ _.
Arguments put {S A} _ _ _.

Class LensLaws {S A} (l : Lens S A) : Prop := {
  view_put : forall a s, view l (put l a s) = a;
  put_view : forall s, put l (view l s) s = s;
  put_put : forall a b s, put l a (put l b s) = put l a s
}.

(** Writing one component leaves the other as it is. *)
Class Apart {S A B} (l : Lens S A) (l' : Lens S B) : Prop := {
  apart_view : forall a s, view l' (put l a s) = view l' s;
  apart_view' : forall b s, view l (put l' b s) = view l s
}.

Definition kWorkflowIdTag : string := "temporalWorkflowID".
Definition kRunIdTag : string := "temporalRunID".
Definition kActivityIdTag : string := "temporalActivityID".

Section TracingInterceptor.
Context {J : Type} `{JsonObject J} {S T Span : Type} `{Tracer T Span}.
Context (header_key : string) (tracer : Lens S T).

Definition start_span (opts : StartSpanOptions) : Act S Span := fun s =>
  let '(t, span) := StartSpan opts (view tracer s) in Val (put tracer t s, inr span).

Definition end_span (span : Span) (error : bool) : Act S unit := fun s =>
  Val (put tracer (EndSpan span error (view tracer s)) s, inr tt).

(** [WriteToHeader(header_key, Inject(span), header)]. *)
Definition inject (span : Span) (header : Header) : Act S Header := fun s =>
  Val (s, WriteToHeader header_key (Inject span (view tracer s)) header).

Definition ExtractParent (header : Header) : Act S (option SpanContext) := fun s =>
  Val (s, inr (Extract (ReadFromHeader header_key header) (view tracer s))).

(** Run [call]; [after] sees how it ended; then the value or exception goes on
    ([catch (...)] and [throw]). *)
Definition finally {A} (call : Act S A) (after : bool -> Act S unit) : Act S A :=
  htry call (fun res =>
    after (match res with inl _ => true | inr _ => false end);;== hlift res).

(** [ctx.GetInfo()] as tags. *)
Definition workflow_tags (info : WorkflowInfo) : gmap string string :=
  <[kWorkflowIdTag := wi_workflow_id info]> (<[kRunIdTag := wi_run_id info]> ∅).

Section Workflow.
(** The slot a workflow's inbound wrapper shares with its outbound wrapper. *)
Context (slot : Lens S (option SpanContext)).

Definition set_current (ctx : option SpanContext) : Act S unit := fun s =>
  Val (put slot ctx s, inr tt).

Definition StartAndInject (info : WorkflowInfo) (op name : string) (header : Header) :
    Act S (Span * Header) := fun s =>
  (span <== start_span {| operation := op; span_name := name; parent := view slot s;
                          tags := workflow_tags info |};;
   header <== inject span header;;
   hret (span, header)) s.

(** The header the call left, and the span's end, which an exception skips. *)
Definition traced_call (info : WorkflowInfo) (op name : string) (header : Header)
    (call : Header -> Act S Header) : Act S Header :=
  started <== StartAndInject info op name header;;
  header <== call (snd started);;
  end_span (fst started) false;;==
  hret header.

Definition TracingWorkflowOutbound (next : WorkflowOutbound S) : WorkflowOutbound S :=
  {| wo_ExecuteActivity := fun ctx i header =>
       traced_call ctx "StartActivity" (ea_activity_type i) header (wo_ExecuteActivity next ctx i);
     wo_ExecuteChildWorkflow := fun ctx i header =>
       traced_call ctx "StartChildWorkflow" (ec_workflow_type i) header
         (wo_ExecuteChildWorkflow next ctx i);
     wo_SignalExternalWorkflow := fun ctx i header =>
       traced_call ctx "SignalExternalWorkflow" (se_signal_name i) header
         (wo_SignalExternalWorkflow next ctx i);
     wo_CancelExternalWorkflow :=
       wo_CancelExternalWorkflow (WorkflowOutboundInterceptorBase (Some next));
     wo_UpsertSearchAttributes :=
       wo_UpsertSearchAttributes (WorkflowOutboundInterceptorBase (Some next)) |}.

Definition ExecuteWorkflow (next : WorkflowInbound S) (info : WorkflowInfo) (args : Payloads)
    (header : Header) : Act S Payloads :=
  parent <== ExtractParent header;;
  span <== start_span {| operation := "RunWorkflow"; span_name := wi_workflow_type info;
                         parent := parent; tags := workflow_tags info |};;
  set_current (Some (context span));;==
  finally (wi_ExecuteWorkflow next info args header)
    (fun error => set_current None;;== end_span span error).

Definition HandleSignal (next : WorkflowInbound S) (info : WorkflowInfo) (signal_name : string)
    (args : Payloads) (header : Header) : Act S unit :=
  parent <== ExtractParent header;;
  span <== start_span {| operation := "HandleSignal"; span_name := signal_name; parent := parent;
                         tags := ∅ |};;
  finally (wi_HandleSignal next info signal_name args header) (end_span span).

Definition HandleQuery (next : WorkflowInbound S) (info : WorkflowInfo) (query_type : string)
    (args : Payloads) (header : Header) : Act S Payloads :=
  parent <== ExtractParent header;;
  span <== start_span {| operation := "HandleQuery"; span_name := query_type; parent := parent;
                         tags := ∅ |};;
  finally (wi_HandleQuery next info query_type args header) (end_span span).

Definition TracingWorkflowInbound (next : WorkflowInbound S) : WorkflowInbound S :=
  {| wi_Init := fun outbound => wi_Init next (TracingWorkflowOutbound outbound);
     wi_ExecuteWorkflow := ExecuteWorkflow next;
     wi_HandleSignal := HandleSignal next;
     wi_HandleQuery := HandleQuery next |}.

Definition InterceptWorkflow (next : WorkflowInbound S) : option (WorkflowInbound S) :=
  Some (TracingWorkflowInbound next).
End Workflow.

Definition TracingActivityInbound (next : ActivityInboundInterceptor S) :
    ActivityInboundInterceptor S :=
  {| in_ExecuteActivity := fun info args header =>
       parent <== ExtractParent header;;
       span <== start_span {| operation := "RunActivity"; span_name := ai_activity_type info;
                              parent := parent;
                              tags := <[kActivityIdTag := ai_activity_id info]>
                                        (<[kWorkflowIdTag := ai_workflow_id info]>
                                           (<[kRunIdTag := ai_run_id info]> ∅)) |};;
       finally (in_ExecuteActivity next info args header) (end_span span) |}.

(** The client's spans have no parent. *)
Definition traced_request {A} (op name workflow_id : string) (header : Header)
    (request : Header -> Act S A) : Act S A :=
  span <== start_span {| operation := op; span_name := name; parent := None;
                         tags := {[ kWorkflowIdTag := workflow_id ]} |};;
  header <== inject span header;;
  answer <== request header;;
  end_span span false;;==
  hret answer.

Definition TracingClientOutbound (next : ClientOutboundInterceptor S) : ClientOutboundInterceptor S :=
  {| cl_StartWorkflow := fun i header =>
       traced_request "StartWorkflow" (sw_workflow_type i) (so_id (sw_options i)) header
         (cl_StartWorkflow next i);
     cl_SignalWorkflow := fun i header =>
       traced_request "SignalWorkflow" (sg_signal_name i) (sg_workflow_id i) header
         (cl_SignalWorkflow next i);
     cl_QueryWorkflow := fun i header =>
       traced_request "QueryWorkflow" (qw_query_type i) (qw_workflow_id i) header
         (cl_QueryWorkflow next i) |}.

Definition InterceptActivity (next : ActivityInboundInterceptor S) :
    option (ActivityInboundInterceptor S) := Some (TracingActivityInbound next).

Definition InterceptClient (next : ClientOutboundInterceptor S) :
    option (ClientOutboundInterceptor S) := Some (TracingClientOutbound next).
End TracingInterceptor.
