(* ===== verification/TracingFacts.v ===== *)
(** * Properties of the tracing interceptor

    The header format loses nothing; inbound spans bracket the calls they describe; a
    span's children are found through the header it wrote; the in-memory tracer's
    spans form a forest. *)

From Stdlib Require Import Ascii.
From S2P Require Import Prelude Common Effects Workflow Interceptors Converter Tracing Reference.

(** ** The header format *)

Section Format.
Context {J : Type} `{!Json J, !JsonObject J, !JsonLaws J, !JsonObjectLaws J}.

Lemma read_members_lookup (l : list (string * J)) acc k :
  NoDup l.*1 -> (forall k, k ∈ l.*1 -> acc !! k = None) ->
  Forall (fun f => exists s, f.2 = of_string s) l ->
  fold_left read_member l acc !! k =
  match list_to_map (M := gmap string J) l !! k with
  | Some v => match get_string v with inr s => Some s | inl _ => None end
  | None => acc !! k
  end.
Proof.
  revert acc. induction l as [|[k0 v] l IH]; intros acc Hnd Hacc Hall; simpl; [done|].
  inversion Hnd as [|? ? Hk0 Hnd']. inversion Hall as [|? ? (s & Hs) Hall']. simpl in *. subst.
  unfold read_member at 2. simpl. rewrite is_string_of_string, get_of_string.
  unfold emplace. rewrite Hacc by (by left).
  rewrite IH; [|done| |done].
  - destruct (decide (k = k0)) as [->|Hne].
    + assert (list_to_map (M := gmap string J) l !! k0 = None) as ->
        by (by apply not_elem_of_list_to_map_1).
      rewrite !lookup_insert_eq. by rewrite get_of_string.
    + rewrite !lookup_insert_ne by done. done.
  - intros k' Hin. rewrite lookup_insert_ne; [|by intros ->]. apply Hacc. by right.
Qed.

Lemma read_object (data : gmap string string) l :
  members (json_object data) = Some l -> fold_left read_member l ∅ = data.
Proof.
  intros Hl. destruct (members_object data) as (l' & Hl' & Hnd & Hmap).
  rewrite Hl in Hl'. injection Hl' as <-. apply map_eq. intros k.
  rewrite read_members_lookup; [|done|by intros|].
  - rewrite Hmap, lookup_fmap. destruct (data !! k) as [s|]; simpl; [by rewrite get_of_string|done].
  - apply Forall_forall. intros [k' v] Hin. simpl.
    apply elem_of_list_to_map_1 in Hin; [|done]. rewrite Hmap, lookup_fmap in Hin.
    destruct (data !! k') as [s|]; simplify_eq/=. by exists s.
Qed.

Lemma ReadFromHeader_written key data header header' :
  WriteToHeader key data header = inr header' -> data <> ∅ ->
  ReadFromHeader key header' = data.
Proof.
  unfold WriteToHeader, ReadFromHeader. intros Hw Hne.
  rewrite bool_decide_eq_false_2 in Hw by done.
  destruct (dump (json_object data)) as [e|text] eqn:Hd; [done|]. injection Hw as <-.
  rewrite lookup_insert_eq. simpl.
  rewrite (dump_parse _ _ (object_textual data) Hd).
  destruct (members_object data) as (l & Hl & _). rewrite Hl. by apply read_object.
Qed.

(** What the outbound side writes into the header is what the inbound side reads
    back: the map of an [Inject] survives the JSON text and the payload, nothing else
    in the header changes, and an empty map writes nothing. *)
Theorem header_roundtrip key data header header' :
  WriteToHeader key data header = inr header' ->
  (data <> ∅ -> ReadFromHeader key header' = data) /\
  (data = ∅ -> header' = header) /\
  (forall k, k <> key -> header' !! k = header !! k).
Proof.
  intros Hw. split_and!.
  - by eapply ReadFromHeader_written.
  - intros ->. unfold WriteToHeader in Hw. rewrite bool_decide_eq_true_2 in Hw by done. congruence.
  - intros k Hk. unfold WriteToHeader in Hw. case_bool_decide; [congruence|].
    destruct (dump _); [done|]. injection Hw as <-. by rewrite lookup_insert_ne.
Qed.
End Format.

(** ** What one operation of the in-memory tracer does *)

(** The context a span of this record injects. *)
Definition context_of (r : SpanRecord) : SpanContext :=
  mkSpanContext (<[kTraceIdKey := rec_trace_id r]> (<[kSpanIdKey := rec_span_id r]> ∅)).

Definition parent_field (key : string) (p : option SpanContext) : string :=
  default "" (from_option sc_data ∅ p !! key).

(** The record [StartSpan] adds. *)
Definition opened (opts : StartSpanOptions) (t : InMemoryTracer) : SpanRecord :=
  let trace := parent_field kTraceIdKey (parent opts) in
  {| rec_operation := operation opts; rec_name := span_name opts;
     rec_trace_id := if str_empty trace then "t" +:+ to_string (next_trace_id_ t) else trace;
     rec_span_id := "s" +:+ to_string (next_span_id_ t);
     rec_parent_span_id := parent_field kSpanIdKey (parent opts); rec_tags := tags opts;
     rec_ended := false; rec_error := false |}.

Definition closed (error : bool) (r : SpanRecord) : SpanRecord :=
  (r <| rec_ended := true |>) <| rec_error := error |>.

Lemma StartSpan_opened opts t :
  let '(t', span) := MemStartSpan opts t in
  records_ t' = records_ t ++ [opened opts t] /\
  span = mkMemSpan (length (records_ t)) (context_of (opened opts t)).
Proof.
  unfold MemStartSpan, opened, parent_field, context_of.
  destruct (str_empty (default "" (from_option sc_data ∅ (parent opts) !! kTraceIdKey)));
    simpl; by split.
Qed.

Lemma EndSpan_closed l r l' error ctx t :
  records_ t = l ++ r :: l' ->
  records_ (MemEnd (mkMemSpan (length l) ctx) error t) = l ++ closed error r :: l'.
Proof.
  intros Ht. simpl. rewrite Ht, alter_app_r_alt by done.
  by rewrite Nat.sub_diag.
Qed.

Definition threw {A} (x : result A) : bool := match x with inl _ => true | inr _ => false end.

Section Spans.
Context {J : Type} `{!Json J, !JsonObject J} {S : Type}.
Context (header_key : string) (tracer : Lens S InMemoryTracer) `{!LensLaws tracer}.

Definition recs (s : S) : list SpanRecord := records_ (view tracer s).

(** A call that only adds spans of its own. *)
Definition appends {A} (call : Act S A) : Prop :=
  forall s s' x, call s = Val (s', x) -> exists new, recs s' = recs s ++ new.

(** Starting a span, in the shared state. *)
Lemma start_span_val opts s :
  exists t, start_span tracer opts s =
              Val (put tracer t s, inr (mkMemSpan (length (recs s))
                                          (context_of (opened opts (view tracer s))))) /\
    recs (put tracer t s) = recs s ++ [opened opts (view tracer s)].
Proof.
  unfold start_span, recs. simpl. pose proof (StartSpan_opened opts (view tracer s)) as Hs.
  destruct (MemStartSpan opts (view tracer s)) as [t span]. destruct Hs as [Hr ->].
  exists t. by rewrite view_put.
Qed.

Lemma end_span_val l r l' error ctx s :
  recs s = l ++ r :: l' ->
  exists s', end_span tracer (mkMemSpan (length l) ctx) error s = Val (s', inr tt) /\
             recs s' = l ++ closed error r :: l' /\
             s' = put tracer (MemEnd (mkMemSpan (length l) ctx) error (view tracer s)) s.
Proof.
  intros Hr. eexists. split_and!; [done| |done]. unfold recs. rewrite view_put.
  by apply EndSpan_closed.
Qed.

(** [span] describes the call [call], entered in a state that satisfies [during]: the
    record [r] is open while it runs, and closed with how it ended; what the call
    answers or throws goes on unchanged. *)
Definition bracketed {A} (r : SpanRecord) (during : S -> Prop) (after : S -> Prop)
    (call traced : Act S A) (s : S) : Prop :=
  exists s0, recs s0 = recs s ++ [r] /\ during s0 /\
    match call s0 with
    | Val (s1, x) =>
      exists s' new, recs s1 = recs s0 ++ new /\ traced s = Val (s', x) /\
                     recs s' = recs s ++ closed (threw x) r :: new /\ after s'
    | Hang => traced s = Hang
    | UB => traced s = UB
    end.

(** A step that leaves the tracer alone. *)
Definition keeps_tracer (during : S -> Prop) (step : Act S unit) : Prop :=
  forall s, exists s1, step s = Val (s1, inr tt) /\ view tracer s1 = view tracer s /\ during s1.

Lemma bracket_spec {A} opts (enter : SpanContext -> Act S unit) (leave : Act S unit)
    (during : SpanContext -> S -> Prop) (after : S -> Prop) (call : Act S A) s :
  (forall c, keeps_tracer (during c) (enter c)) -> keeps_tracer after leave ->
  (forall t s, after s -> after (put tracer t s)) -> appends call ->
  let r := opened opts (view tracer s) in
  bracketed r (during (context_of r)) after call
    (span <== start_span tracer opts;;
     enter (ctx_ span);;==
     finally call (fun error => leave;;== end_span tracer span error)) s.
Proof.
  intros He Hle Haf Hc r. destruct (start_span_val opts s) as (t & Hs & Hr). fold r in Hs, Hr.
  destruct (He (context_of r) (put tracer t s)) as (s0 & He0 & Hv0 & Hd0).
  assert (Hr0 : recs s0 = recs s ++ [r]) by (rewrite <- Hr; unfold recs; by rewrite Hv0).
  exists s0. split_and!; [done..|].
  rewrite (hbind_val _ _ _ _ _ Hs). simpl. rewrite (hbind_val _ _ _ _ _ He0).
  unfold finally, htry. destruct (call s0) as [[s1 x]| |] eqn:Hcall; [|done..].
  destruct (Hc _ _ _ Hcall) as [new Hnew]. destruct (Hle s1) as (s2 & Hl2 & Hv2 & Ha2).
  assert (Hat : recs s2 = recs s ++ r :: new).
  { transitivity (recs s1); [unfold recs; by rewrite Hv2|].
    by rewrite Hnew, Hr0, <- app_assoc. }
  destruct (end_span_val _ _ _ (threw x) (context_of r) s2 Hat) as (s3 & He3 & Hr3 & Hs3).
  exists s3, new. split_and!; [done| |done|rewrite Hs3; by apply Haf].
  rewrite hbind_assoc, (hbind_val _ _ _ _ _ Hl2).
  change (match x with inl _ => true | inr _ => false end) with (threw x).
  by rewrite (hbind_val _ _ _ _ _ He3).
Qed.

(** The same without a step around the call. *)
Lemma bracket_plain {A} opts (call : Act S A) s :
  appends call ->
  bracketed (opened opts (view tracer s)) (fun _ => True) (fun _ => True) call
    (span <== start_span tracer opts;; finally call (end_span tracer span)) s.
Proof.
  intros Hc.
  assert (Hskip : keeps_tracer (fun _ => True) (hret tt)) by (intros s1; by exists s1).
  pose proof (bracket_spec opts (fun _ => hret tt) (hret tt) (fun _ _ => True) (fun _ => True) call s
    ltac:(by intros) Hskip ltac:(done) Hc) as Hb.
  exact Hb.
Qed.

(** What an inbound call's span looks like. *)
Definition inbound_span (op name : string) (tags : gmap string string) (header : Header) (s : S) :
    SpanRecord :=
  opened {| operation := op; span_name := name;
            parent := MemExtract (ReadFromHeader header_key header) (view tracer s);
            tags := tags |} (view tracer s).

Section Inbound.
Context (slot : Lens S (option SpanContext)) `{!LensLaws slot, !Apart tracer slot}.

(** Inbound spans bracket the calls they describe.  Running a workflow, a signal
    handler, a query handler or an activity under the interceptor opens one span, whose
    parent is the one the header carries; the call runs with the span open (and, for a
    workflow, current); and however it ends - value or exception - the span is closed
    with exactly that outcome, nothing is left current, and the outcome goes on to the
    caller unchanged.  The call may trace what it likes in between. *)
Theorem inbound_spans_bracket_calls next anext info ainfo name args header s :
  (appends (wi_ExecuteWorkflow next info args header) ->
   let r := inbound_span "RunWorkflow" (wi_workflow_type info) (workflow_tags info) header s in
   bracketed r (fun s0 => view slot s0 = Some (context_of r)) (fun s' => view slot s' = None)
     (wi_ExecuteWorkflow next info args header)
     (wi_ExecuteWorkflow (TracingWorkflowInbound header_key tracer slot next) info args header) s) /\
  (appends (wi_HandleSignal next info name args header) ->
   bracketed (inbound_span "HandleSignal" name ∅ header s) (fun _ => True) (fun _ => True)
     (wi_HandleSignal next info name args header)
     (wi_HandleSignal (TracingWorkflowInbound header_key tracer slot next) info name args header) s) /\
  (appends (wi_HandleQuery next info name args header) ->
   bracketed (inbound_span "HandleQuery" name ∅ header s) (fun _ => True) (fun _ => True)
     (wi_HandleQuery next info name args header)
     (wi_HandleQuery (TracingWorkflowInbound header_key tracer slot next) info name args header) s) /\
  (appends (in_ExecuteActivity anext ainfo args header) ->
   bracketed (inbound_span "RunActivity" (ai_activity_type ainfo)
                (<[kActivityIdTag := ai_activity_id ainfo]>
                   (<[kWorkflowIdTag := ai_workflow_id ainfo]>
                      (<[kRunIdTag := ai_run_id ainfo]> ∅))) header s)
     (fun _ => True) (fun _ => True) (in_ExecuteActivity anext ainfo args header)
     (in_ExecuteActivity (TracingActivityInbound header_key tracer anext) ainfo args header) s).
Proof.
  split_and!; intros Hc; [|by apply bracket_plain..].
  apply (bracket_spec _ (fun c => set_current slot (Some c)) (set_current slot None)
           (fun c s0 => view slot s0 = Some c)); [| |intros t s'; by rewrite apart_view|done].
  - intros c s1. eexists. split_and!; [done|by rewrite apart_view'|by rewrite view_put].
  - intros s1. eexists. split_and!; [done|by rewrite apart_view'|by rewrite view_put].
Qed.
End Inbound.

(** ** Outbound calls *)

(** [traced] makes the call [call] under the span [r] and with the header [header'];
    apart from the tracer, the state is the call's. *)
Definition hands_over {A} (r : SpanRecord) (header' : Header) (call : Header -> Act S A)
    (traced : Act S A) (s : S) : Prop :=
  exists t, recs (put tracer t s) = recs s ++ [r] /\
    match call header' (put tracer t s) with
    | Val (s1, inr a) =>
      forall new, recs s1 = recs (put tracer t s) ++ new ->
      exists t', traced s = Val (put tracer t' s1, inr a) /\
                 recs (put tracer t' s1) = recs s ++ closed false r :: new
    | Val (s1, inl e) => traced s = Val (s1, inl e)
    | Hang => traced s = Hang
    | UB => traced s = UB
    end.

Lemma hands_over_spec {A} opts header header' (call : Header -> Act S A) s :
  let r := opened opts (view tracer s) in
  WriteToHeader header_key (sc_data (context_of r)) header = inr header' ->
  hands_over r header' call
    (span <== start_span tracer opts;;
     header' <== inject header_key tracer span header;;
     answer <== call header';;
     end_span tracer span false;;==
     hret answer) s.
Proof.
  intros r Hw. destruct (start_span_val opts s) as (t & Hs & Hr). fold r in Hs, Hr.
  exists t. split; [done|]. rewrite (hbind_val _ _ _ _ _ Hs).
  assert (Hi : inject header_key tracer (mkMemSpan (length (recs s)) (context_of r)) header
                 (put tracer t s) = Val (put tracer t s, inr header')).
  { unfold inject. simpl. unfold MemInject. simpl. simpl in Hw. by rewrite Hw. }
  rewrite (hbind_val _ _ _ _ _ Hi).
  destruct (call header' (put tracer t s)) as [[s1 [e|a]]| |] eqn:Hcall.
  - by rewrite (hbind_exn _ _ _ _ _ Hcall).
  - intros new Hnew. rewrite (hbind_val _ _ _ _ _ Hcall).
    assert (Hat : recs s1 = recs s ++ r :: new) by (by rewrite Hnew, Hr, <- app_assoc).
    destruct (end_span_val _ _ _ false (context_of r) s1 Hat) as (s2 & He & Hr2 & Heq).
    rewrite Heq in He, Hr2. eexists. by rewrite (hbind_val _ _ _ _ _ He).
  - unfold hbind. by rewrite Hcall.
  - unfold hbind. by rewrite Hcall.
Qed.

(** The span of an outbound call of a workflow. *)
Definition outbound_span (op name : string) (current : option SpanContext) (info : WorkflowInfo)
    (s : S) : SpanRecord :=
  opened {| operation := op; span_name := name; parent := current; tags := workflow_tags info |}
    (view tracer s).

Lemma traced_call_spec slot info op name header header' (call : Header -> Act S Header) s :
  let r := outbound_span op name (view slot s) info s in
  WriteToHeader header_key (sc_data (context_of r)) header = inr header' ->
  hands_over r header' call
    (traced_call header_key tracer slot info op name header call) s.
Proof.
  intros r Hw. destruct (hands_over_spec _ header header' call s Hw) as (t & Hr & Hrun).
  exists t. split; [exact Hr|].
  assert (Heq : forall s, traced_call header_key tracer slot info op name header call s =
    (span <== start_span tracer {| operation := op; span_name := name; parent := view slot s;
                                   tags := workflow_tags info |};;
     header' <== inject header_key tracer span header;;
     answer <== call header';;
     end_span tracer span false;;==
     hret answer) s).
  { clear. intros s. unfold traced_call, StartAndInject, hbind.
    destruct (start_span tracer _ s) as [[s1 [e|span]]| |]; try reflexivity.
    destruct (inject header_key tracer span header s1) as [[s2 [e|h']]| |]; reflexivity. }
  by rewrite Heq.
Qed.

(** ** Spans across calls *)

Lemma opened_trace opts t : rec_trace_id (opened opts t) <> "".
Proof.
  simpl. destruct (str_empty _) eqn:He; [done|]. by apply str_empty_false in He.
Qed.

(** A span whose parent is the context of another is its child in the same trace. *)
Definition child_of (r' r : SpanRecord) : Prop :=
  rec_trace_id r' = rec_trace_id r /\ rec_parent_span_id r' = rec_span_id r.

Lemma opened_child opts t r :
  parent opts = Some (context_of r) -> rec_trace_id r <> "" -> child_of (opened opts t) r.
Proof.
  intros Hp Hr. unfold child_of, opened, parent_field, context_of in *. rewrite Hp. simpl.
  rewrite lookup_insert_eq, lookup_insert_ne, lookup_insert_eq by done. simpl.
  by rewrite (proj2 (str_empty_false _) Hr).
Qed.

Section Across.
Context `{!JsonLaws J, !JsonObjectLaws J}.

(** An inbound call whose header was written under [r] opens a child of [r]. *)
Lemma inbound_child op name tags header header' r s :
  WriteToHeader header_key (sc_data (context_of r)) header = inr header' ->
  rec_trace_id r <> "" -> child_of (inbound_span op name tags header' s) r.
Proof.
  intros Hw Hr. apply opened_child; [|done]. simpl.
  rewrite (ReadFromHeader_written _ _ _ _ Hw) by (by apply insert_non_empty).
  unfold MemExtract, context_of. simpl.
  by rewrite lookup_insert_eq, lookup_insert_ne, lookup_insert_eq.
Qed.

(** One trace follows a request from the client through the workflow into its
    activities.  Whatever the four processes did before, when the client starts a
    workflow under a span, hands the header it wrote to the server, and the header
    reaches a worker that runs the workflow; when that run, while its span is current,
    schedules an activity, and the header of that call reaches a worker that runs the
    activity: then each call is made with the header of its own span, and the four
    spans are one path - same trace id, each the child of the one before. *)
Theorem trace_follows_calls slot nextc nextw (i : StartWorkflowInput) (ea : ExecuteActivityOutboundInput)
    winfo ainfo hc hw h1 h3 s1 s2 s3 s4 tagsa :
  let r1 := opened {| operation := "StartWorkflow"; span_name := sw_workflow_type i; parent := None;
                      tags := {[ kWorkflowIdTag := so_id (sw_options i) ]} |} (view tracer s1) in
  let r2 := inbound_span "RunWorkflow" (wi_workflow_type winfo) (workflow_tags winfo) h1 s2 in
  let r3 := outbound_span "StartActivity" (ea_activity_type ea) (view slot s3) winfo s3 in
  let r4 := inbound_span "RunActivity" (ai_activity_type ainfo) tagsa h3 s4 in
  WriteToHeader header_key (sc_data (context_of r1)) hc = inr h1 ->
  view slot s3 = Some (context_of r2) ->
  WriteToHeader header_key (sc_data (context_of r3)) hw = inr h3 ->
  hands_over r1 h1 (cl_StartWorkflow nextc i)
    (cl_StartWorkflow (TracingClientOutbound header_key tracer nextc) i hc) s1 /\
  hands_over r3 h3 (wo_ExecuteActivity nextw winfo ea)
    (wo_ExecuteActivity (TracingWorkflowOutbound header_key tracer slot nextw) winfo ea hw) s3 /\
  rec_parent_span_id r1 = "" /\ child_of r2 r1 /\ child_of r3 r2 /\ child_of r4 r3.
Proof.
  intros r1 r2 r3 r4 Hw1 Hslot Hw3. split_and!.
  - by apply hands_over_spec.
  - by apply traced_call_spec.
  - done.
  - apply (inbound_child _ _ _ hc h1); [done|apply opened_trace].
  - apply opened_child; [exact Hslot|apply opened_trace].
  - apply (inbound_child _ _ _ hw h3); [done|apply opened_trace].
Qed.
End Across.

(** An outbound call or a client request that throws leaves its span open for
    good: the exception skips [End], unlike on the inbound side. *)
Theorem failed_call_leaves_span_open slot info op name header header' e
    (call : Header -> Act S Header) s s' :
  let r := outbound_span op name (view slot s) info s in
  WriteToHeader header_key (sc_data (context_of r)) header = inr header' ->
  appends (call header') ->
  traced_call header_key tracer slot info op name header call s = Val (s', inl e) ->
  exists new, recs s' = recs s ++ r :: new /\ rec_ended r = false.
Proof.
  intros r Hw Hc Hrun.
  destruct (traced_call_spec slot info op name header header' call s Hw) as (t & Hr & Hm).
  destruct (call header' (put tracer t s)) as [[s1 [e1|a]]| |] eqn:Hcall; [| |congruence..].
  - rewrite Hm in Hrun. injection Hrun as <- <-.
    destruct (Hc _ _ _ Hcall) as [new Hnew]. exists new.
    by rewrite Hnew, Hr, <- app_assoc.
  - destruct (Hc _ _ _ Hcall) as [new Hnew]. destruct (Hm new Hnew) as (t2 & Ht2 & _). congruence.
Qed.
End Spans.

(** ** The in-memory tracer's spans *)

(** What a tracer can become when spans are parented on its own spans. *)
Inductive reachable : InMemoryTracer -> Prop :=
| reachable_new : reachable new_tracer
| reachable_start opts t :
    reachable t ->
    (parent opts = None \/ exists r, r ∈ records_ t /\ parent opts = Some (context_of r)) ->
    reachable (fst (MemStartSpan opts t))
| reachable_tag span key value t : reachable t -> reachable (MemSetTag span key value t)
| reachable_end span error t : reachable t -> reachable (MemEnd span error t).

Definition root (r : SpanRecord) : Prop := rec_parent_span_id r = "".

(** Numbering and structure of the records; the list is in start order. *)
Record forest (l : list SpanRecord) (next_trace next_span : Z) : Prop := {
  fo_next : next_span = Z.of_nat (length l) + 1;
  fo_span : forall i r, l !! i = Some r -> rec_span_id r = "s" +:+ to_string (Z.of_nat i + 1);
  fo_trace : forall i r, l !! i = Some r ->
    exists k, k < next_trace /\ rec_trace_id r = "t" +:+ to_string k;
  fo_parent : forall i r, l !! i = Some r ->
    root r \/ exists j p, (j < i)%nat /\ l !! j = Some p /\ child_of r p;
  fo_roots : forall i j r r', l !! i = Some r -> l !! j = Some r' -> root r -> root r' ->
    rec_trace_id r = rec_trace_id r' -> i = j
}.

Definition same_ids (r r' : SpanRecord) : Prop :=
  rec_trace_id r' = rec_trace_id r /\ rec_span_id r' = rec_span_id r /\
  rec_parent_span_id r' = rec_parent_span_id r.

(** Tags and endings change nothing the forest speaks of. *)
Lemma forest_alter f i l nt ns :
  (forall r, same_ids r (f r)) -> forest l nt ns -> forest (alter f i l) nt ns.
Proof.
  intros Hf [F1 F2 F3 F4 F5].
  assert (Hat : forall j r, alter f i l !! j = Some r -> exists r0, l !! j = Some r0 /\ same_ids r0 r).
  { intros j r. destruct (decide (j = i)) as [->|Hne].
    - rewrite list_lookup_alter_eq. intros (r0 & Hr0 & ->)%fmap_Some. by exists r0.
    - rewrite list_lookup_alter_ne by done. intros Hr. by exists r. }
  constructor.
  - by rewrite length_alter.
  - intros j r (r0 & Hr0 & _ & -> & _)%Hat. by apply F2.
  - intros j r (r0 & Hr0 & -> & _)%Hat. by eapply F3.
  - intros j r (r0 & Hr0 & Ht & Hs & Hp)%Hat. unfold root. rewrite Hp.
    destruct (F4 j r0 Hr0) as [Hroot|(j' & p & Hlt & Hj & Hc)]; [by left|right].
    assert (Hp' : exists p', alter f i l !! j' = Some p' /\ same_ids p p').
    { destruct (decide (j' = i)) as [->|Hne].
      - exists (f p). by rewrite list_lookup_alter_eq, Hj.
      - exists p. by rewrite list_lookup_alter_ne. }
    destruct Hp' as (p' & Hp1 & Ht' & Hs' & _). exists j', p'.
    unfold child_of in *. split_and!; [done..| |]; destruct Hc; congruence.
  - intros j1 j2 r r' (r0 & Hr0 & Ht & _ & Hp)%Hat (r1 & Hr1 & Ht1 & _ & Hp1)%Hat.
    unfold root in *. rewrite Hp, Hp1, Ht, Ht1. by apply F5.
Qed.

Lemma forest_start opts t :
  forest (records_ t) (next_trace_id_ t) (next_span_id_ t) ->
  (parent opts = None \/ exists r, r ∈ records_ t /\ parent opts = Some (context_of r)) ->
  let t' := fst (MemStartSpan opts t) in
  forest (records_ t') (next_trace_id_ t') (next_span_id_ t').
Proof.
  intros [F1 F2 F3 F4 F5] Hp t'.
  set (r := opened opts t).
  assert (Ht' : records_ t' = records_ t ++ [r] /\ next_span_id_ t' = next_span_id_ t + 1 /\
    (root r /\ rec_trace_id r = "t" +:+ to_string (next_trace_id_ t) /\
       next_trace_id_ t' = next_trace_id_ t + 1 \/
     next_trace_id_ t' = next_trace_id_ t /\ ~ root r /\
       exists j p, records_ t !! j = Some p /\ child_of r p)).
  { pose proof (StartSpan_opened opts t) as Hs. unfold t'.
    destruct Hp as [Hp|(p & (j & Hj)%list_elem_of_lookup & Hp)].
    - assert (parent_field kTraceIdKey (parent opts) = "") as He by (by rewrite Hp).
      unfold MemStartSpan in *. unfold parent_field in He. rewrite He in *. simpl in *.
      split_and!; [apply Hs|lia|left]. unfold root, r, opened, parent_field. rewrite Hp. simpl.
      split_and!; [done..|lia].
    - destruct (F3 _ _ Hj) as (k & _ & Hk).
      assert (Htr : rec_trace_id p <> "") by (by rewrite Hk).
      assert (Hc : child_of r p) by (by apply opened_child).
      assert (parent_field kTraceIdKey (parent opts) = rec_trace_id p) as He.
      { rewrite Hp. unfold parent_field, context_of. simpl. by rewrite lookup_insert_eq. }
      unfold MemStartSpan in *. unfold parent_field in He. rewrite He in *.
      rewrite (proj2 (str_empty_false _) Htr) in *. simpl in *.
      split_and!; [apply Hs|lia|right]. split_and!; [done| |by exists j, p].
      unfold root. destruct Hc as [_ ->]. by rewrite (F2 _ _ Hj). }
  destruct Ht' as (Hr & Hn & Hcase). rewrite Hr, Hn.
  assert (Hsnoc : forall j x, (records_ t ++ [r]) !! j = Some x ->
            records_ t !! j = Some x \/ j = length (records_ t) /\ x = r).
  { intros j x. rewrite lookup_snoc_Some. naive_solver. }
  constructor.
  - rewrite length_app. simpl. lia.
  - intros i x [Hx|[-> ->]]%Hsnoc; [by apply F2|]. simpl. do 2 f_equal. lia.
  - intros i x [Hx|[-> ->]]%Hsnoc.
    + destruct (F3 _ _ Hx) as (k & Hk & Hkt). exists k. split; [|done].
      destruct Hcase as [(_ & _ & ->)|(-> & _)]; lia.
    + destruct Hcase as [(_ & Ht & ->)|(-> & _ & j & p & Hj & [Hc _])].
      * exists (next_trace_id_ t). split; [lia|done].
      * destruct (F3 _ _ Hj) as (k & Hk & Hkt). exists k. split; [done|]. congruence.
  - intros i x [Hx|[-> ->]]%Hsnoc.
    + destruct (F4 _ _ Hx) as [Hroot|(j & p & Hlt & Hj & Hc)]; [by left|right].
      exists j, p. split_and!; [done|by apply lookup_app_l_Some|done].
    + destruct Hcase as [(Hroot & _)|(_ & _ & j & p & Hj & Hc)]; [by left|right].
      exists j, p. split_and!; [by eapply lookup_lt_Some|by apply lookup_app_l_Some|done].
  - assert (Hfresh : forall i x, records_ t !! i = Some x -> root x -> root r ->
              rec_trace_id x <> rec_trace_id r).
    { intros i x Hx _ Hroot Heq. destruct Hcase as [(_ & Ht & _)|(_ & Hnr & _)]; [|done].
      destruct (F3 _ _ Hx) as (k & Hk & Hkt). rewrite Ht, Hkt in Heq.
      apply (inj (String.append "t")) in Heq. apply (inj to_string) in Heq. lia. }
    intros i j x y [Hx|[-> ->]]%Hsnoc [Hy|[-> ->]]%Hsnoc Hrx Hry Heq; [by eapply F5| | |done].
    + by destruct (Hfresh i x Hx Hrx Hry).
    + by destruct (Hfresh j y Hy Hry Hrx).
Qed.


(** ** A concrete JSON library and shared state *)

Inductive ref_value :=
| VNull | VBinary (s : string) | VString (s : string) | VInt (z : Z) | VObject (m : gmap string string).

(** Strings one after the other, each character announced and each string ended. *)
Fixpoint write_string (s rest : string) : string :=
  match s with
  | EmptyString => String "." rest
  | String a s => String "," (String a (write_string s rest))
  end.

Fixpoint read_strings (s : string) : option (list string) :=
  match s with
  | EmptyString => Some []
  | String "." s => cons "" <$> read_strings s
  | String "," (String a s) =>
    match read_strings s with Some (x :: l) => Some (String a x :: l) | _ => None end
  | _ => None
  end.

Lemma read_write_string s rest l :
  read_strings rest = Some l -> read_strings (write_string s rest) = Some (s :: l).
Proof. intros Hr. induction s as [|a s IH]; simpl; [by rewrite Hr|by rewrite IH]. Qed.

Definition write_members (l : list (string * string)) : string :=
  fold_right (fun kv rest => write_string kv.1 (write_string kv.2 rest)) "" l.

Fixpoint pair_up (l : list string) : list (string * string) :=
  match l with k :: v :: l => (k, v) :: pair_up l | _ => [] end.

Lemma read_write_members l : pair_up <$> read_strings (write_members l) = Some l.
Proof.
  assert (Hr : exists flat, read_strings (write_members l) = Some flat /\ pair_up flat = l).
  { induction l as [|[k v] l (flat & Hr & Hp)]; simpl; [by exists []|].
    exists (k :: v :: flat). split; [by do 2 apply read_write_string|]. simpl. by rewrite Hp. }
  destruct Hr as (flat & -> & <-). done.
Qed.

#[export] Instance ref_value_json : Json ref_value := {
  json_null := VNull;
  is_null v := match v with VNull => true | _ => false end;
  json_binary := VBinary;
  get_binary v := match v with VBinary s => Some s | _ => None end;
  dump v :=
    match v with
    | VString s => inr (String "s" s)
    | VInt z => inr (String "i" (encode_int z))
    | VObject m => inr (String "o" (write_members (map_to_list m)))
    | _ => inl (StdException "not textual")
    end;
  json_parse s :=
    match s with
    | String "s" s => inr (VString s)
    | String "i" s => match decode_int s with Some z => inr (VInt z) | None => inl (StdException s) end
    | String "o" s =>
      match read_strings s with
      | Some l => inr (VObject (list_to_map (pair_up l)))
      | None => inl (StdException s)
      end
    | _ => inl (StdException s)
    end;
  of_string := VString;
  get_string v := match v with VString s => inr s | _ => inl (StdException "type_error") end;
  of_int := VInt;
  get_int v := match v with VInt z => inr z | _ => inl (StdException "type_error") end;
  textual v := match v with VNull | VBinary _ => False | _ => True end
}.

#[export] Instance ref_value_laws : JsonLaws ref_value.
Proof.
  split; simpl; try done.
  - by intros [].
  - by intros [].
  - by intros [].
  - intros [|s|s|z|m] t Hv; try done; intros [= <-]; [done|by rewrite decode_encode_int|].
    pose proof (read_write_members (map_to_list m)) as Hr.
    destruct (read_strings (write_members (map_to_list m))) as [l|]; [|done].
    injection Hr as Hp. by rewrite Hp, list_to_map_to_list.
  - eauto.
Qed.

#[export] Instance ref_value_object : JsonObject ref_value := {
  json_object := VObject;
  members v := match v with VObject m => Some (map_to_list (of_string <$> m)) | _ => None end;
  is_string v := match v with VString _ => true | _ => false end
}.

#[export] Instance ref_value_object_laws : JsonObjectLaws ref_value.
Proof.
  split; simpl; [|done|done].
  intros m. eexists. split_and!; [done|apply NoDup_fst_map_to_list|apply list_to_map_to_list].
Qed.

(** The tracer and one slot, side by side. *)
Definition ref_state : Type := InMemoryTracer * option SpanContext.

Definition ref_tracer : Lens ref_state InMemoryTracer :=
  {| view := fst; put := fun t s => (t, snd s) |}.
Definition ref_slot : Lens ref_state (option SpanContext) :=
  {| view := snd; put := fun c s => (fst s, c) |}.

#[export] Instance ref_tracer_laws : LensLaws ref_tracer.
Proof. split; simpl; [done|by intros []|done]. Qed.
#[export] Instance ref_slot_laws : LensLaws ref_slot.
Proof. split; simpl; [done|by intros []|done]. Qed.
#[export] Instance ref_apart : Apart ref_tracer ref_slot.
Proof. by split. Qed.

(** A terminal that answers nothing. *)
Definition quiet_outbound : WorkflowOutbound ref_state :=
  {| wo_ExecuteActivity := fun _ _ h => hret h; wo_ExecuteChildWorkflow := fun _ _ h => hret h;
     wo_SignalExternalWorkflow := fun _ _ h => hret h; wo_CancelExternalWorkflow := fun _ _ => hret tt;
     wo_UpsertSearchAttributes := fun _ _ => hret tt |}.

Definition quiet_client : ClientOutboundInterceptor ref_state :=
  {| cl_StartWorkflow := fun _ _ => hret "run"; cl_SignalWorkflow := fun _ _ => hret tt;
     cl_QueryWorkflow := fun _ _ => hret [] |}.

Definition quiet_inbound : WorkflowInbound ref_state :=
  {| wi_Init := fun o => o; wi_ExecuteWorkflow := fun _ args _ => hret args;
     wi_HandleSignal := fun _ _ _ _ => hthrow (StdException "no");
     wi_HandleQuery := fun _ _ args _ => hret args |}.

Definition quiet_activity : ActivityInboundInterceptor ref_state :=
  {| in_ExecuteActivity := fun _ args _ => hret args |}.

Lemma quiet_appends {A} (x : result A) : appends ref_tracer (hlift x : Act ref_state A).
Proof. intros s s' y [= <- _]. exists []. by rewrite app_nil_r. Qed.

(** Writing a span's context never fails with this library. *)
Lemma write_ok key r header :
  exists header', WriteToHeader (J := ref_value) key (sc_data (context_of r)) header = inr header'.
Proof.
  unfold WriteToHeader. rewrite bool_decide_eq_false_2 by (by apply insert_non_empty).
  by eexists.
Qed.

Lemma header_roundtrip_witness :
  exists header', WriteToHeader (J := ref_value) "_tracer-data" {["trace_id" := "t1"]} ∅ = inr header' /\
    ReadFromHeader (J := ref_value) "_tracer-data" header' = {["trace_id" := "t1"]}.
Proof.
  eexists. split; [reflexivity|].
  eapply (header_roundtrip (J := ref_value) "_tracer-data" {["trace_id" := "t1"]} ∅); [reflexivity|].
  discriminate.
Defined.

Definition ref_activity_info : ActivityInfo :=
  {| ai_activity_id := "0"; ai_activity_type := "Greet"; ai_workflow_id := "wf"; ai_run_id := "run";
     ai_task_queue := "q"; ai_task_token := "token"; ai_headers := ∅; ai_attempt := 1 |}.

Lemma inbound_spans_bracket_calls_witness :
  let s := (new_tracer, None) in
  let r := inbound_span (J := ref_value) "k" ref_tracer "RunWorkflow" "W" (workflow_tags ref_info) ∅ s in
  bracketed ref_tracer r (fun s0 => view ref_slot s0 = Some (context_of r))
    (fun s' => view ref_slot s' = None) (hret [])
    (wi_ExecuteWorkflow (TracingWorkflowInbound (J := ref_value) "k" ref_tracer ref_slot quiet_inbound)
       ref_info [] ∅) s.
Proof.
  intros s r.
  exact (proj1 (inbound_spans_bracket_calls (J := ref_value) "k" ref_tracer ref_slot quiet_inbound
           quiet_activity ref_info ref_activity_info "" [] ∅ s) (quiet_appends (inr []))).
Defined.

Lemma trace_follows_calls_witness :
  exists r1 r2 : SpanRecord, rec_operation r1 = "StartWorkflow" /\ rec_operation r2 = "RunWorkflow" /\
    rec_trace_id r1 = "t1" /\ child_of r2 r1.
Proof.
  set (i := mkStartWorkflowInput "W" {| so_id := "wf"; so_task_queue := "q"; so_execution_timeout := 0;
    so_run_timeout := 0; so_task_timeout := 0; so_retry_policy := None; so_memo := ∅;
    so_search_attributes := ∅; so_headers := ∅ |} []).
  set (s := (new_tracer, None) : ref_state).
  set (r1 := opened {| operation := "StartWorkflow"; span_name := "W"; parent := None;
                       tags := {[ kWorkflowIdTag := "wf" ]} |} new_tracer).
  destruct (write_ok "k" r1 ∅) as [h1 Hw1].
  set (r2 := inbound_span (J := ref_value) "k" ref_tracer "RunWorkflow" "W" (workflow_tags ref_info) h1 s).
  set (s3 := (new_tracer, Some (context_of r2)) : ref_state).
  set (ea := mkExecuteActivityOutboundInput "Greet" default_activity_options []).
  destruct (write_ok "k" (outbound_span ref_tracer "StartActivity" "Greet" (view ref_slot s3) ref_info s3) ∅)
    as [h3 Hw3].
  destruct (trace_follows_calls (J := ref_value) "k" ref_tracer ref_slot quiet_client quiet_outbound
    i ea ref_info ref_activity_info ∅ ∅ h1 h3 s s s3 s ∅ Hw1 eq_refl Hw3)
    as (_ & _ & _ & Hchild & _).
  exists r1, r2. split_and!; [reflexivity..|exact Hchild].
Defined.

Lemma failed_call_leaves_span_open_witness :
  exists s' new r, recs ref_tracer s' = r :: new /\ rec_ended r = false.
Proof.
  set (s := (new_tracer, None) : ref_state).
  destruct (write_ok "k" (outbound_span ref_tracer "StartActivity" "Greet" None ref_info s) ∅) as [h Hw].
  destruct (failed_call_leaves_span_open (J := ref_value) "k" ref_tracer ref_slot ref_info "StartActivity" "Greet"
    ∅ h (StdException "no") (fun _ => hthrow (StdException "no")) s _ Hw
    (quiet_appends (inl (StdException "no"))) eq_refl) as (new & Hr & He).
  eexists _, new, _. split; [exact Hr|exact He].
Defined.

