(* ===== verification/Rpc.v ===== *)
(** * The gRPC client

    [src/src/internal/grpc_client.{h,cpp}].  An RPC is a value of the family [rpc],
    indexed by the type of its response; requests and responses are records of the
    fields the SDK sets or reads.  The generated stubs and the server behind them are
    the class [Stub], over the server's state. *)

From S2P Require Import Prelude Common Effects History.

(** ** Statuses and call contexts ([grpcpp]) *)

Inductive StatusCode := OK | DEADLINE_EXCEEDED | NOT_FOUND | OtherCode (code : Z).

#[export] Instance StatusCode_eq_dec : EqDecision StatusCode.
Proof. solve_decision. Defined.

Record Status := mkStatus { error_code : StatusCode; error_message : string }.

(** The deadline is in seconds from the start of the call. *)
Record ClientContext := mkClientContext {
  deadline : option Z;
  call_metadata : list (string * string)
}.

Inductive ChannelCredentials :=
| InsecureChannelCredentials
| SslCredentials (pem_root_certs pem_private_key pem_cert_chain : string).

(** ** Requests *)

Record WorkflowExecution := mkExecution { ex_workflow_id : string; ex_run_id : string }.

Record StartWorkflowExecutionRequest := mkStartRequest {
  sr_namespace : string;
  sr_workflow_id : string;
  sr_workflow_type : string;
  sr_task_queue : string;
  sr_input : option Proto.Payloads;
  sr_identity : string;
  sr_request_id : string;
  sr_execution_timeout : option Proto.Duration;
  sr_run_timeout : option Proto.Duration;
  sr_task_timeout : option Proto.Duration;
  sr_retry_policy : option Proto.RetryPolicy;
  sr_memo : gmap string Proto.Payload;
  sr_search_attributes : gmap string Proto.Payload;
  sr_header : gmap string Proto.Payload
}.

Record GetHistoryRequest := mkGetHistoryRequest {
  gh_namespace : string;
  gh_execution : WorkflowExecution;
  gh_next_page_token : string;
  gh_skip_archival : bool;
  gh_wait_new_event : bool;
  gh_close_event_filter : bool
}.

Record SignalRequest := mkSignalRequest {
  si_namespace : string;
  si_execution : WorkflowExecution;
  si_signal_name : string;
  si_input : option Proto.Payloads;
  si_identity : string;
  si_request_id : string
}.

(** The wait policy is always COMPLETED. *)
Record UpdateRequest := mkUpdateRequest {
  up_namespace : string;
  up_execution : WorkflowExecution;
  up_update_id : string;
  up_name : string;
  up_args : option Proto.Payloads
}.

Record Schedule := mkSchedule {
  sc_interval : option Proto.Duration;
  sc_cron_string : list string;
  sc_workflow_id : string;
  sc_workflow_type : string;
  sc_task_queue : string
}.

Inductive SchedulePatch :=
| TriggerImmediately
| Pause (note : string)
| Unpause (note : string).

Inductive BuildIdOperation :=
| AddNewBuildIdInNewDefaultSet (build_id : string)
| PromoteSetByBuildId (build_id : string).

Inductive VersioningOperation :=
| InsertAssignmentRule (rule_index : Z) (target_build_id : string)
| AddCompatibleRedirectRule (source_build_id target_build_id : string).

Inductive BatchOperation :=
| TerminationOperation (identity : string)
| CancellationOperation (identity : string).

Inductive IndexedValueType :=
| INDEXED_VALUE_TYPE_UNSPECIFIED | INDEXED_VALUE_TYPE_TEXT | INDEXED_VALUE_TYPE_KEYWORD
| INDEXED_VALUE_TYPE_INT | INDEXED_VALUE_TYPE_DOUBLE | INDEXED_VALUE_TYPE_BOOL
| INDEXED_VALUE_TYPE_DATETIME | INDEXED_VALUE_TYPE_KEYWORD_LIST.

#[export] Instance IndexedValueType_eq_dec : EqDecision IndexedValueType.
Proof. solve_decision. Defined.

(** ** Responses *)

(** The status is the number of the protobuf enumerator. *)
Record WorkflowExecutionInfo := mkExecutionInfo {
  wx_execution : WorkflowExecution;
  wx_type : string;
  wx_status : Z;
  wx_memo : gmap string Proto.Payload
}.

Record BatchOperationInfo := mkBatchInfo {
  bi_job_id : string;
  bi_state : Z;
  bi_total : Z;
  bi_complete : Z;
  bi_failure : Z
}.

Record VersioningRules := mkVersioningRules {
  vr_assignment_targets : list string;
  vr_redirects : list (string * string);
  vr_conflict_token : string
}.

Record ClusterInfo := mkClusterInfo {
  ci_cluster_name : string;
  ci_cluster_id : string;
  ci_server_version : string;
  ci_history_shard_count : Z;
  ci_persistence_store : string;
  ci_visibility_store : string
}.

Record NexusEndpoint := mkNexusEndpoint {
  ne_id : string;
  ne_name : string;
  ne_target_namespace : string;
  ne_target_task_queue : string
}.

Record DeploymentInfo := mkDeploymentInfo {
  dp_name : string;
  dp_current_build_id : string;
  dp_ramping_build_id : string;
  dp_conflict_token : string
}.

(** A page of a list and the token of the next. *)
Abbreviation Page A := (list A * string)%type.

(** ** The RPCs a client makes *)

Inductive rpc : Type -> Type :=
| StartWorkflowExecution (req : StartWorkflowExecutionRequest) : rpc string
| SignalWithStartWorkflowExecution (req : StartWorkflowExecutionRequest) (signal_name : string)
    (signal_input : option Proto.Payloads) : rpc string
| DescribeWorkflowExecution (ns : string) (execution : WorkflowExecution) : rpc WorkflowExecutionInfo
| ListWorkflowExecutions (ns query token : string) : rpc (Page WorkflowExecutionInfo)
| CountWorkflowExecutions (ns query : string) : rpc Z
| GetWorkflowExecutionHistory (req : GetHistoryRequest) : rpc (Page HistoryEvent)
| SignalWorkflowExecution (req : SignalRequest) : rpc unit
| RequestCancelWorkflowExecution (ns : string) (execution : WorkflowExecution)
    (identity request_id : string) : rpc unit
| TerminateWorkflowExecution (ns : string) (execution : WorkflowExecution)
    (reason identity : string) : rpc unit
| QueryWorkflow (ns : string) (execution : WorkflowExecution) (query_type : string)
    (query_args : option Proto.Payloads) : rpc Proto.Payloads
| UpdateWorkflowExecution (req : UpdateRequest) : rpc (Proto.Failure + Proto.Payloads)
| ResetWorkflowExecution (ns : string) (execution : WorkflowExecution) (reason : string)
    (workflow_task_finish_event_id : Z) (request_id : string) : rpc string
| CreateSchedule (ns schedule_id identity request_id : string) (schedule : Schedule) : rpc unit
| UpdateSchedule (ns schedule_id identity request_id : string) (schedule : Schedule) : rpc unit
| DescribeSchedule (ns schedule_id : string) : rpc unit
| DeleteSchedule (ns schedule_id identity : string) : rpc unit
| PatchSchedule (ns schedule_id identity request_id : string) (patch : SchedulePatch) : rpc unit
| ListSchedules (ns token : string) : rpc (Page string)
| GetWorkerBuildIdCompatibility (ns task_queue : string) : rpc (list (list string))
| UpdateWorkerBuildIdCompatibility (ns task_queue : string) (op : BuildIdOperation) : rpc unit
| GetWorkerVersioningRules (ns task_queue : string) : rpc VersioningRules
| UpdateWorkerVersioningRules (ns task_queue conflict_token : string) (op : VersioningOperation) :
    rpc unit
| StartBatchOperation (ns job_id visibility_query reason : string) (op : BatchOperation) : rpc unit
| DescribeBatchOperation (ns job_id : string) : rpc BatchOperationInfo
| ListBatchOperations (ns token : string) : rpc (Page string)
| GetClusterInfo : rpc ClusterInfo
| ListWorkerDeployments (ns token : string) : rpc (Page string)
| DescribeWorkerDeployment (ns deployment_name : string) : rpc DeploymentInfo
| SetWorkerDeploymentCurrentVersion (ns deployment_name build_id identity conflict_token : string) :
    rpc string
| RespondActivityTaskCompleted (ns task_token identity : string) (result : option Proto.Payloads) :
    rpc unit
| RespondActivityTaskFailed (ns task_token identity : string) (failure : Proto.Failure) : rpc unit
| AddSearchAttributes (ns : string) (attributes : gmap string IndexedValueType) : rpc unit
| ListSearchAttributes (ns : string) :
    rpc (gmap string IndexedValueType * gmap string IndexedValueType)
| RemoveSearchAttributes (ns : string) (names : list string) : rpc unit
| ListClusters (token : string) : rpc (Page string)
| CreateNexusEndpoint (name target_namespace target_task_queue : string) : rpc string
| GetNexusEndpoint (id : string) : rpc NexusEndpoint
| ListNexusEndpoints (token : string) : rpc (Page string)
| AddOrUpdateRemoteCluster (frontend_address : string) (enable_connection : bool) : rpc unit
| RemoveRemoteCluster (cluster_name : string) : rpc unit
| DeleteNamespace (namespace_name : string) : rpc string
| GetCurrentTime : rpc Proto.Duration
| TestServerSleep (duration : Proto.Duration) : rpc unit
| LockTimeSkipping : rpc unit
| UnlockTimeSkipping : rpc unit.

(** The name [UnaryCall] is given; the test server's sleep is called [Sleep]. *)
Definition rpc_name {R} (m : rpc R) : string :=
  match m with
  | StartWorkflowExecution _ => "StartWorkflowExecution"
  | SignalWithStartWorkflowExecution _ _ _ => "SignalWithStartWorkflowExecution"
  | DescribeWorkflowExecution _ _ => "DescribeWorkflowExecution"
  | ListWorkflowExecutions _ _ _ => "ListWorkflowExecutions"
  | CountWorkflowExecutions _ _ => "CountWorkflowExecutions"
  | GetWorkflowExecutionHistory _ => "GetWorkflowExecutionHistory"
  | SignalWorkflowExecution _ => "SignalWorkflowExecution"
  | RequestCancelWorkflowExecution _ _ _ _ => "RequestCancelWorkflowExecution"
  | TerminateWorkflowExecution _ _ _ _ => "TerminateWorkflowExecution"
  | QueryWorkflow _ _ _ _ => "QueryWorkflow"
  | UpdateWorkflowExecution _ => "UpdateWorkflowExecution"
  | ResetWorkflowExecution _ _ _ _ _ => "ResetWorkflowExecution"
  | CreateSchedule _ _ _ _ _ => "CreateSchedule"
  | UpdateSchedule _ _ _ _ _ => "UpdateSchedule"
  | DescribeSchedule _ _ => "DescribeSchedule"
  | DeleteSchedule _ _ _ => "DeleteSchedule"
  | PatchSchedule _ _ _ _ _ => "PatchSchedule"
  | ListSchedules _ _ => "ListSchedules"
  | GetWorkerBuildIdCompatibility _ _ => "GetWorkerBuildIdCompatibility"
  | UpdateWorkerBuildIdCompatibility _ _ _ => "UpdateWorkerBuildIdCompatibility"
  | GetWorkerVersioningRules _ _ => "GetWorkerVersioningRules"
  | UpdateWorkerVersioningRules _ _ _ _ => "UpdateWorkerVersioningRules"
  | StartBatchOperation _ _ _ _ _ => "StartBatchOperation"
  | DescribeBatchOperation _ _ => "DescribeBatchOperation"
  | ListBatchOperations _ _ => "ListBatchOperations"
  | GetClusterInfo => "GetClusterInfo"
  | ListWorkerDeployments _ _ => "ListWorkerDeployments"
  | DescribeWorkerDeployment _ _ => "DescribeWorkerDeployment"
  | SetWorkerDeploymentCurrentVersion _ _ _ _ _ => "SetWorkerDeploymentCurrentVersion"
  | RespondActivityTaskCompleted _ _ _ _ => "RespondActivityTaskCompleted"
  | RespondActivityTaskFailed _ _ _ _ => "RespondActivityTaskFailed"
  | AddSearchAttributes _ _ => "AddSearchAttributes"
  | ListSearchAttributes _ => "ListSearchAttributes"
  | RemoveSearchAttributes _ _ => "RemoveSearchAttributes"
  | ListClusters _ => "ListClusters"
  | CreateNexusEndpoint _ _ _ => "CreateNexusEndpoint"
  | GetNexusEndpoint _ => "GetNexusEndpoint"
  | ListNexusEndpoints _ => "ListNexusEndpoints"
  | AddOrUpdateRemoteCluster _ _ => "AddOrUpdateRemoteCluster"
  | RemoveRemoteCluster _ => "RemoveRemoteCluster"
  | DeleteNamespace _ => "DeleteNamespace"
  | GetCurrentTime => "GetCurrentTime"
  | TestServerSleep _ => "Sleep"
  | LockTimeSkipping => "LockTimeSkipping"
  | UnlockTimeSkipping => "UnlockTimeSkipping"
  end.

(** Of the RPCs above, the one the client makes as a long poll. *)
Definition rpc_polls {R} (m : rpc R) : bool :=
  match m with GetWorkflowExecutionHistory _ => true | _ => false end.

(** [Resp{}]: every field of a protobuf message starts out empty. *)
Definition empty_execution : WorkflowExecution := {| ex_workflow_id := ""; ex_run_id := "" |}.

Definition empty_response {R} (m : rpc R) : R :=
  match m with
  | StartWorkflowExecution _ | SignalWithStartWorkflowExecution _ _ _
  | ResetWorkflowExecution _ _ _ _ _ | SetWorkerDeploymentCurrentVersion _ _ _ _ _
  | CreateNexusEndpoint _ _ _ | DeleteNamespace _ => ""
  | DescribeWorkflowExecution _ _ => mkExecutionInfo empty_execution "" 0 ∅
  | ListWorkflowExecutions _ _ _ | GetWorkflowExecutionHistory _ | ListSchedules _ _
  | ListBatchOperations _ _ | ListWorkerDeployments _ _ | ListClusters _
  | ListNexusEndpoints _ => ([], "")
  | CountWorkflowExecutions _ _ => 0
  | QueryWorkflow _ _ _ _ => Proto.mkPayloads []
  | UpdateWorkflowExecution _ => inr (Proto.mkPayloads [])
  | GetWorkerBuildIdCompatibility _ _ => []
  | GetWorkerVersioningRules _ _ => mkVersioningRules [] [] ""
  | DescribeBatchOperation _ _ => mkBatchInfo "" 0 0 0 0
  | GetClusterInfo => mkClusterInfo "" "" "" 0 "" ""
  | DescribeWorkerDeployment _ _ => mkDeploymentInfo "" "" "" ""
  | ListSearchAttributes _ => (∅, ∅)
  | GetNexusEndpoint _ => mkNexusEndpoint "" "" "" ""
  | GetCurrentTime => Proto.mkDuration 0 0
  | SignalWorkflowExecution _ | RequestCancelWorkflowExecution _ _ _ _
  | TerminateWorkflowExecution _ _ _ _ | CreateSchedule _ _ _ _ _ | UpdateSchedule _ _ _ _ _
  | DescribeSchedule _ _ | DeleteSchedule _ _ _ | PatchSchedule _ _ _ _ _
  | UpdateWorkerBuildIdCompatibility _ _ _ | UpdateWorkerVersioningRules _ _ _ _
  | StartBatchOperation _ _ _ _ _ | RespondActivityTaskCompleted _ _ _ _
  | RespondActivityTaskFailed _ _ _ _ | AddSearchAttributes _ _ | RemoveSearchAttributes _ _
  | AddOrUpdateRemoteCluster _ _ | RemoveRemoteCluster _ | TestServerSleep _
  | LockTimeSkipping | UnlockTimeSkipping => tt
  end.

(** ** The client object *)

Record TlsConfig := mkTlsConfig {
  enabled : bool;
  server_ca_cert : string;
  client_cert : string;
  client_key : string;
  server_name : string
}.

(** The three stubs share one channel. *)
Record GrpcClient := mkGrpcClient {
  g_target : string;
  g_credentials : ChannelCredentials;
  g_ssl_target_name_override : option string;
  g_ns : string;
  g_identity : string;
  g_api_key : string;
  g_auth_header : string
}.

Definition make_grpc_client (target ns identity : string) (tls : TlsConfig) (api_key : string) :
    GrpcClient :=
  {| g_target := target;
     g_credentials :=
       if enabled tls
       then SslCredentials (server_ca_cert tls) (client_key tls) (client_cert tls)
       else InsecureChannelCredentials;
     g_ssl_target_name_override :=
       if str_empty (server_name tls) then None else Some (server_name tls);
     g_ns := ns; g_identity := identity; g_api_key := api_key;
     g_auth_header := if str_empty api_key then "" else "Bearer " +:+ api_key |}.

Definition kPollSeconds : Z := 5.

(** ** Calls *)

(** The generated stubs and the server: a call ends with a status, and with a response
    whose fields count only if the status is [OK]. *)
Class Stub (W : Type) := invoke : forall {R}, rpc R -> ClientContext -> W -> W * (Status * R).

Record issued := mkIssued { issued_type : Type; issued_rpc : rpc issued_type; issued_context : ClientContext }.

(** What a client process sees: the server, the calls it issued, the UUIDs it drew, and
    the state [U] its interceptors share. *)
Record World (W U : Type) := mkWorld {
  w_server : W;
  w_issued : list issued;
  w_uuids : nat;
  w_user : U
}.
Arguments mkWorld {W U}.
Arguments w_server {W U}.
Arguments w_issued {W U}.
Arguments w_uuids {W U}.
Arguments w_user {W U}.

#[export] Instance World_eta {W U} : Eta (World W U) := fun w =>
  {| w_server := w_server w; w_issued := w_issued w; w_uuids := w_uuids w; w_user := w_user w |}.

Section Calls.
Context {W U : Type} `{Stub W}.

Definition call_context (g : GrpcClient) (poll : bool) : ClientContext :=
  {| deadline := if poll then Some kPollSeconds else None;
     call_metadata :=
       if str_empty (g_auth_header g) then []
       else [("authorization", g_auth_header g); ("temporal-namespace", g_ns g)] |}.

Definition UnaryCall {R} (g : GrpcClient) (m : rpc R) : Act (World W U) R := fun w =>
  let poll := rpc_polls m in
  let ctx := call_context g poll in
  let '(server, (status, resp)) := invoke m ctx (w_server w) in
  let w := (w <| w_server := server |>)
             <| w_issued ::= fun l => l ++ [{| issued_rpc := m; issued_context := ctx |}] |> in
  match error_code status with
  | OK => Val (w, inr resp)
  | code =>
    if poll && bool_decide (code = DEADLINE_EXCEEDED) then Val (w, inr (empty_response m))
    else
      let msg := "rpc " +:+ rpc_name m +:+ " failed: " +:+ error_message status in
      if bool_decide (code = NOT_FOUND) then Val (w, inl (NotFoundError msg))
      else Val (w, inl (RpcError msg false))
  end.
End Calls.
