(* ===== verification/Client.v ===== *)
(** * The workflow client

    [src/include/temporal/client/client.h] and [src/src/client/client.cpp]: class
    [Client] and class [WorkflowHandle].  A method is a call ([Effects.Act]) over the
    client process ([Rpc.World]); a method that loops over RPCs takes the number of
    rounds as fuel and is [Hang] beyond it.

    Parameters: the names protobuf generates for enumerators ([EnumNames]), the UUIDs
    [NewUuid] draws, and the text form of a history ([MessageToJsonString]).  A failure
    converter is the function that decodes a failure. *)

From Stdlib Require Import Ascii.
From S2P Require Import Prelude Common Effects History Interceptors Rpc.

(** ** Third-party code *)

Class EnumNames := {
  WorkflowExecutionStatus_Name : Z -> string;
  BatchOperationState_Name : Z -> string;
  IndexedValueType_Name : IndexedValueType -> string;
  EventType_Name : EventBody -> string
}.

(** [X_Name] answers the name of the enumerator. *)
Class EnumNamesLaws `(EnumNames) : Prop := {
  name_text : IndexedValueType_Name INDEXED_VALUE_TYPE_TEXT = "INDEXED_VALUE_TYPE_TEXT";
  name_keyword : IndexedValueType_Name INDEXED_VALUE_TYPE_KEYWORD = "INDEXED_VALUE_TYPE_KEYWORD";
  name_int : IndexedValueType_Name INDEXED_VALUE_TYPE_INT = "INDEXED_VALUE_TYPE_INT";
  name_double : IndexedValueType_Name INDEXED_VALUE_TYPE_DOUBLE = "INDEXED_VALUE_TYPE_DOUBLE";
  name_bool : IndexedValueType_Name INDEXED_VALUE_TYPE_BOOL = "INDEXED_VALUE_TYPE_BOOL";
  name_datetime : IndexedValueType_Name INDEXED_VALUE_TYPE_DATETIME = "INDEXED_VALUE_TYPE_DATETIME";
  name_keyword_list :
    IndexedValueType_Name INDEXED_VALUE_TYPE_KEYWORD_LIST = "INDEXED_VALUE_TYPE_KEYWORD_LIST"
}.

(** ** Pagination *)

(** [fetch] issues the call for a page token, [next_page_token] reads a response's
    token, [collect] adds the response's items to [out]. *)
Fixpoint Paginate {S Resp A} (fuel : nat) (fetch : string -> Act S Resp)
    (next_page_token : Resp -> string) (collect : A -> Resp -> A) (page_token : string) (out : A) :
    Act S A :=
  match fuel with
  | O => fun _ => Hang
  | Datatypes.S fuel =>
    resp <== fetch page_token;;
    let out := collect out resp in
    let page_token := next_page_token resp in
    if str_empty page_token then hret out
    else Paginate fuel fetch next_page_token collect page_token out
  end.

(** ** Names of enumerators *)

(** [name.starts_with(prefix)] and [name.substr(prefix.size())]. *)
Definition strip_prefix (prefix name : string) : string :=
  if String.prefix prefix name
  then String.substring (String.length prefix) (String.length name - String.length prefix) name
  else name.

(** [std::tolower] in the "C" locale. *)
Definition tolower (ch : ascii) : ascii :=
  let n := N_of_ascii ch in
  if ((65 <=? n) && (n <=? 90))%N then ascii_of_N (n + 32) else ch.

(** The loop over the characters: an underscore starts a word. *)
Fixpoint title_case (at_word_start : bool) (name : string) : string :=
  match name with
  | EmptyString => EmptyString
  | String ch name =>
    if Ascii.eqb ch "_" then title_case true name
    else String (if at_word_start then ch else tolower ch) (title_case false name)
  end.

Definition IndexedValueTypeFromString (type : string) : result IndexedValueType :=
  if String.eqb type "Keyword" then inr INDEXED_VALUE_TYPE_KEYWORD
  else if String.eqb type "Text" then inr INDEXED_VALUE_TYPE_TEXT
  else if String.eqb type "Int" then inr INDEXED_VALUE_TYPE_INT
  else if String.eqb type "Double" then inr INDEXED_VALUE_TYPE_DOUBLE
  else if String.eqb type "Bool" then inr INDEXED_VALUE_TYPE_BOOL
  else if String.eqb type "Datetime" then inr INDEXED_VALUE_TYPE_DATETIME
  else if String.eqb type "KeywordList" then inr INDEXED_VALUE_TYPE_KEYWORD_LIST
  else inl (StdException ("unknown search attribute type: " +:+ type)).

(** ** The objects *)

Record WorkflowDescription := mkDescription {
  wd_workflow_id : string;
  wd_run_id : string;
  wd_workflow_type : string;
  wd_status : string;
  wd_memo : gmap string Payload
}.

Record BatchOperationDescription := mkBatchDescription {
  bd_job_id : string;
  bd_state : string;
  bd_total_operations : Z;
  bd_completed_operations : Z;
  bd_failed_operations : Z
}.

Record SearchAttributes := mkSearchAttributes {
  custom : gmap string string;
  system : gmap string string
}.

(** A failure converter's [FailureToError]. *)
Abbreviation FailureDecoder := (option (Proto.Failure -> exn)).

Record WorkflowHandle := mkWorkflowHandle {
  h_grpc : GrpcClient;
  h_failure_converter : FailureDecoder;
  h_ns : string;
  h_workflow_id : string;
  h_run_id : string
}.

#[export] Instance WorkflowHandle_eta : Eta WorkflowHandle := fun h =>
  {| h_grpc := h_grpc h; h_failure_converter := h_failure_converter h; h_ns := h_ns h;
     h_workflow_id := h_workflow_id h; h_run_id := h_run_id h |}.

(** A client whose interceptors share the state [S]. *)
Record Client (S : Type) := mkClient {
  c_grpc : GrpcClient;
  c_failure_converter : FailureDecoder;
  c_ns : string;
  c_identity : string;
  c_interceptors : list (ClientOutboundInterceptor S -> option (ClientOutboundInterceptor S))
}.
Arguments mkClient {S}.
Arguments c_grpc {S}.
Arguments c_failure_converter {S}.
Arguments c_ns {S}.
Arguments c_identity {S}.
Arguments c_interceptors {S}.

Record ClientOptions (S : Type) := mkClientOptions {
  co_target : string;
  co_ns : string;
  co_identity : string;
  co_failure_converter : FailureDecoder;
  co_tls : TlsConfig;
  co_api_key : string;
  co_interceptors : list (ClientOutboundInterceptor S -> option (ClientOutboundInterceptor S))
}.
Arguments co_target {S}.
Arguments co_ns {S}.
Arguments co_identity {S}.
Arguments co_failure_converter {S}.
Arguments co_tls {S}.
Arguments co_api_key {S}.
Arguments co_interceptors {S}.

(** [default_identity] is [internal::DefaultIdentity()]. *)
Definition Connect {S} (default_identity : string) (options : ClientOptions S) : Client S :=
  let ns := if str_empty (co_ns options) then "default" else co_ns options in
  let identity := if str_empty (co_identity options) then default_identity else co_identity options in
  let target := if str_empty (co_target options) then "localhost:7233" else co_target options in
  {| c_grpc := make_grpc_client target ns identity (co_tls options) (co_api_key options);
     c_failure_converter := co_failure_converter options; c_ns := ns; c_identity := identity;
     c_interceptors := co_interceptors options |}.

Section Client.
Context `{EnumNames} {W U : Type} `{Stub W} (uuid : nat -> string).
Abbreviation IO A := (Act (World W U) A).

Definition NewUuid : IO string := fun w => Val (w <| w_uuids ::= S |>, inr (uuid (w_uuids w))).

Definition StatusName (status : Z) : string :=
  strip_prefix "WORKFLOW_EXECUTION_STATUS_" (WorkflowExecutionStatus_Name status).

Definition IndexedValueTypeName (type : IndexedValueType) : string :=
  title_case true (strip_prefix "INDEXED_VALUE_TYPE_" (IndexedValueType_Name type)).

Definition DescriptionFromInfo (info : WorkflowExecutionInfo) : WorkflowDescription :=
  {| wd_workflow_id := ex_workflow_id (wx_execution info); wd_run_id := ex_run_id (wx_execution info);
     wd_workflow_type := wx_type info; wd_status := StatusName (wx_status info);
     wd_memo := FromProtoFields (wx_memo info) |}.

(** The execution a request names; an empty run id is left unset. *)
Definition execution (workflow_id run_id : string) : WorkflowExecution :=
  {| ex_workflow_id := workflow_id; ex_run_id := if str_empty run_id then "" else run_id |}.

(** ** [WorkflowHandle] *)

Section Handle.
Context (h : WorkflowHandle).
Definition this_execution : WorkflowExecution := execution (h_workflow_id h) (h_run_id h).

Definition history_page (token : string) : IO (Page HistoryEvent) :=
  UnaryCall (h_grpc h) (GetWorkflowExecutionHistory
    {| gh_namespace := h_ns h; gh_execution := this_execution;
       gh_next_page_token := if str_empty token then "" else token; gh_skip_archival := true;
       gh_wait_new_event := false; gh_close_event_filter := false |}).

(** The pages of [FetchHistoryJson], before they are printed. *)
Definition FetchHistory (fuel : nat) : IO (list HistoryEvent) :=
  Paginate fuel history_page snd (fun full resp => full ++ fst resp) "" [].

Definition FetchHistoryJson (MessageToJsonString : list HistoryEvent -> string) (fuel : nat) :
    IO string :=
  full <== FetchHistory fuel;; hret (MessageToJsonString full).

Definition Describe : IO WorkflowDescription :=
  info <== UnaryCall (h_grpc h) (DescribeWorkflowExecution (h_ns h) this_execution);;
  hret (DescriptionFromInfo info).

Definition Signal (signal_name : string) (args : Payloads) : IO unit :=
  request_id <== NewUuid;;
  UnaryCall (h_grpc h) (SignalWorkflowExecution
    {| si_namespace := h_ns h; si_execution := this_execution; si_signal_name := signal_name;
       si_input := opt_payloads args; si_identity := g_identity (h_grpc h);
       si_request_id := request_id |}).

Definition Cancel : IO unit :=
  request_id <== NewUuid;;
  UnaryCall (h_grpc h) (RequestCancelWorkflowExecution (h_ns h) this_execution
                          (g_identity (h_grpc h)) request_id).

Definition Terminate (reason : string) : IO unit :=
  UnaryCall (h_grpc h) (TerminateWorkflowExecution (h_ns h) this_execution
                          (if str_empty reason then "" else reason) (g_identity (h_grpc h))).

Definition QueryPayloads (query_type : string) (args : Payloads) : IO Payloads :=
  result <== UnaryCall (h_grpc h) (QueryWorkflow (h_ns h) this_execution query_type
                                     (opt_payloads args));;
  hret (FromProtoPayloads result).

Definition UpdatePayloads (update_name : string) (args : Payloads) : IO Payloads :=
  update_id <== NewUuid;;
  outcome <== UnaryCall (h_grpc h) (UpdateWorkflowExecution
    {| up_namespace := h_ns h; up_execution := this_execution; up_update_id := update_id;
       up_name := update_name; up_args := opt_payloads args |});;
  match outcome with
  | inl failure => hthrow (WorkflowFailedError ("update failed: " +:+ Proto.message failure) "")
  | inr success => hret (FromProtoPayloads success)
  end.
End Handle.

(** The exception for a [WorkflowExecutionFailed] event; a converter's exception that
    is not a [std::exception] goes through. *)
Definition failure_exception (convert : FailureDecoder) (failure : Proto.Failure) : exn :=
  let message := Proto.message failure in
  let type := Proto.app_type failure in
  match convert with
  | None => WorkflowFailedError ("workflow failed: " +:+ message) type
  | Some fc =>
    match fc failure with
    | ApplicationError m t nr =>
      WorkflowFailedError ("workflow failed: " +:+ what (ApplicationError m t nr)) t
    | e =>
      if is_std_exception e then WorkflowFailedError ("workflow failed: " +:+ what e) type else e
    end
  end.

(** What the loop over a response's events does: every branch ends it at the first
    event. *)
Inductive close_step := CloseReturn (ps : Payloads) | CloseThrow (e : exn) | CloseFollow (run_id : string).

Definition on_close (convert : FailureDecoder) (ev : HistoryEvent) : close_step :=
  match event_body ev with
  | WorkflowExecutionCompleted result => CloseReturn (FromProtoPayloads result)
  | WorkflowExecutionFailed failure => CloseThrow (failure_exception convert failure)
  | WorkflowExecutionContinuedAsNew new_execution_run_id => CloseFollow new_execution_run_id
  | b =>
    CloseThrow (WorkflowFailedError
                  ("workflow did not complete successfully: " +:+ EventType_Name b) "")
  end.

Definition close_page (h : WorkflowHandle) : IO (Page HistoryEvent) :=
  UnaryCall (h_grpc h) (GetWorkflowExecutionHistory
    {| gh_namespace := h_ns h; gh_execution := this_execution h; gh_next_page_token := "";
       gh_skip_archival := true; gh_wait_new_event := true; gh_close_event_filter := true |}).

(** The handle comes back with the run id the loop left in it. *)
Fixpoint ResultPayloads (fuel : nat) (h : WorkflowHandle) (w : World W U) :
    outcome (World W U * (WorkflowHandle * result Payloads)) :=
  match fuel with
  | O => Hang
  | S fuel =>
    match close_page h w with
    | Val (w, inl e) => Val (w, (h, inl e))
    | Val (w, inr (events, _)) =>
      match events with
      | [] => ResultPayloads fuel h w
      | ev :: _ =>
        match on_close (h_failure_converter h) ev with
        | CloseReturn ps => Val (w, (h, inr ps))
        | CloseThrow e => Val (w, (h, inl e))
        | CloseFollow run_id => ResultPayloads fuel (h <| h_run_id := run_id |>) w
        end
      end
    | Hang => Hang
    | UB => UB
    end
  end.

(** [FromPayload<R>(payloads.at(0))], of [Result], [Query] and [Update]. *)
Definition decode_first {R} (FromPayload : Payload -> result R) (payloads : Payloads) : result R :=
  match payloads with
  | p :: _ => FromPayload p
  | [] => inl (StdException "vector::_M_range_check")
  end.

(** ** [Client] *)

Section Methods.
Context (c : Client (World W U)).
Abbreviation grpc := (c_grpc c).
Abbreviation ns := (c_ns c).
Abbreviation identity := (c_identity c).

Definition new_handle (workflow_id run_id : string) : WorkflowHandle :=
  {| h_grpc := grpc; h_failure_converter := c_failure_converter c; h_ns := ns;
     h_workflow_id := workflow_id; h_run_id := run_id |}.

Definition GetHandle (workflow_id run_id : string) : WorkflowHandle := new_handle workflow_id run_id.

(** A list RPC paged to its end; an empty token or query is left unset. *)
Definition list_all {A B} (fuel : nat) (call : string -> rpc (Page A)) (item : A -> B) : IO (list B) :=
  Paginate fuel (fun token => UnaryCall grpc (call (if str_empty token then "" else token)))
    snd (fun out resp => fold_left (fun out x => out ++ [item x]) (fst resp) out) "" [].

Definition ListWorkflows (fuel : nat) (query : string) : IO (list WorkflowDescription) :=
  list_all fuel (ListWorkflowExecutions ns (if str_empty query then "" else query)) DescriptionFromInfo.

Definition CountWorkflows (query : string) : IO Z :=
  UnaryCall grpc (CountWorkflowExecutions ns (if str_empty query then "" else query)).

(** *** Starting workflows *)

Definition workflow_id_or_new (options : StartWorkflowOptions) : IO string :=
  if str_empty (so_id options) then NewUuid else hret (so_id options).

(** [do_start]: the RPC behind the interceptor chain. *)
Definition do_start (workflow_id : string) (i : StartWorkflowInput) (header : Header) : IO string :=
  request_id <== NewUuid;;
  let o := sw_options i in
  UnaryCall grpc (StartWorkflowExecution
    {| sr_namespace := ns; sr_workflow_id := workflow_id; sr_workflow_type := sw_workflow_type i;
       sr_task_queue := so_task_queue o; sr_input := opt_payloads (sw_args i);
       sr_identity := identity; sr_request_id := request_id;
       sr_execution_timeout := opt_timeout (so_execution_timeout o);
       sr_run_timeout := opt_timeout (so_run_timeout o);
       sr_task_timeout := opt_timeout (so_task_timeout o);
       sr_retry_policy := ToProtoRetryPolicy <$> so_retry_policy o;
       sr_memo := ToProtoFields (so_memo o);
       sr_search_attributes := ToProtoFields (so_search_attributes o);
       sr_header := ToProtoFields header |}).

(** The terminal overrides [StartWorkflow]; its [next_] is null. *)
Definition RootClientOutbound (start : StartWorkflowInput -> Header -> IO string) :
    ClientOutboundInterceptor (World W U) :=
  let base := ClientOutboundInterceptorBase None in
  {| cl_StartWorkflow := start; cl_SignalWorkflow := cl_SignalWorkflow base;
     cl_QueryWorkflow := cl_QueryWorkflow base |}.

Definition StartWorkflowPayloads (options : StartWorkflowOptions) (workflow_type : string)
    (input : Payloads) : IO WorkflowHandle :=
  workflow_id <== workflow_id_or_new options;;
  let chain := BuildClientOutboundChain (c_interceptors c) (RootClientOutbound (do_start workflow_id)) in
  let i := {| sw_workflow_type := workflow_type; sw_options := options <| so_id := workflow_id |>;
              sw_args := input |} in
  run_id <== cl_StartWorkflow (chain_head chain) i (so_headers options);;
  hret (new_handle workflow_id run_id).

(** Search attributes and headers are not among the fields it sets, and the call does
    not go through the interceptors. *)
Definition SignalWithStartWorkflowPayloads (o : StartWorkflowOptions)
    (workflow_type signal_name : string) (signal_input input : Payloads) : IO WorkflowHandle :=
  workflow_id <== workflow_id_or_new o;;
  request_id <== NewUuid;;
  run_id <== UnaryCall grpc (SignalWithStartWorkflowExecution
    {| sr_namespace := ns; sr_workflow_id := workflow_id; sr_workflow_type := workflow_type;
       sr_task_queue := so_task_queue o; sr_input := opt_payloads input;
       sr_identity := identity; sr_request_id := request_id;
       sr_execution_timeout := opt_timeout (so_execution_timeout o);
       sr_run_timeout := opt_timeout (so_run_timeout o);
       sr_task_timeout := opt_timeout (so_task_timeout o);
       sr_retry_policy := ToProtoRetryPolicy <$> so_retry_policy o;
       sr_memo := ToProtoFields (so_memo o); sr_search_attributes := ∅; sr_header := ∅ |}
    signal_name (opt_payloads signal_input));;
  hret (new_handle workflow_id run_id).

(** *** Schedules *)

(** The interval is in seconds. *)
Definition schedule_of (schedule_id : string) (o : ScheduleOptions) : Schedule :=
  {| sc_interval :=
       if 0 <? sch_interval o then Some (ToProtoDuration (sch_interval o * 1000000000)) else None;
     sc_cron_string := fold_left (fun out cron => out ++ [cron]) (sch_cron_expressions o) [];
     sc_workflow_id :=
       if str_empty (sch_workflow_id o) then schedule_id +:+ "-workflow" else sch_workflow_id o;
     sc_workflow_type := sch_workflow_type o; sc_task_queue := sch_task_queue o |}.

Definition Client_CreateSchedule (schedule_id : string) (options : ScheduleOptions) : IO unit :=
  request_id <== NewUuid;;
  UnaryCall grpc (CreateSchedule ns schedule_id identity request_id (schedule_of schedule_id options)).

Definition Client_UpdateSchedule (schedule_id : string) (options : ScheduleOptions) : IO unit :=
  request_id <== NewUuid;;
  UnaryCall grpc (UpdateSchedule ns schedule_id identity request_id (schedule_of schedule_id options)).

(** [catch (const RpcError&)]: [not_found()] is answered, anything else rethrown. *)
Definition Client_DescribeSchedule (schedule_id : string) : IO bool :=
  htry (UnaryCall grpc (DescribeSchedule ns schedule_id)) (fun res =>
    match res with
    | inr _ => hret true
    | inl e =>
      match rpc_not_found e with
      | Some true => hret false
      | _ => hthrow e
      end
    end).

Definition Client_DeleteSchedule (schedule_id : string) : IO unit :=
  UnaryCall grpc (DeleteSchedule ns schedule_id identity).

Definition patch_schedule (schedule_id : string) (patch : SchedulePatch) : IO unit :=
  request_id <== NewUuid;;
  UnaryCall grpc (PatchSchedule ns schedule_id identity request_id patch).

Definition TriggerSchedule (schedule_id : string) : IO unit :=
  patch_schedule schedule_id TriggerImmediately.
Definition PauseSchedule (schedule_id note : string) : IO unit :=
  patch_schedule schedule_id (Pause (if str_empty note then "paused" else note)).
Definition UnpauseSchedule (schedule_id note : string) : IO unit :=
  patch_schedule schedule_id (Unpause (if str_empty note then "unpaused" else note)).

Definition Client_ListSchedules (fuel : nat) : IO (list string) :=
  list_all fuel (ListSchedules ns) (fun id => id).

Definition ResetWorkflow (workflow_id run_id reason : string) (workflow_task_finish_event_id : Z) :
    IO string :=
  request_id <== NewUuid;;
  UnaryCall grpc (ResetWorkflowExecution ns (execution workflow_id run_id) reason
                    workflow_task_finish_event_id request_id).

(** *** Worker versioning *)

Definition Client_GetWorkerBuildIdCompatibility (task_queue : string) : IO (list (list string)) :=
  sets <== UnaryCall grpc (GetWorkerBuildIdCompatibility ns task_queue);;
  hret (fold_left (fun out set => out ++ [fold_left (fun ids id => ids ++ [id]) set []]) sets []).

Definition Client_UpdateWorkerBuildIdCompatibility (task_queue build_id : string) : IO unit :=
  UnaryCall grpc (UpdateWorkerBuildIdCompatibility ns task_queue (AddNewBuildIdInNewDefaultSet build_id)).

Definition PromoteWorkerBuildIdSet (task_queue build_id : string) : IO unit :=
  UnaryCall grpc (UpdateWorkerBuildIdCompatibility ns task_queue (PromoteSetByBuildId build_id)).

Definition Client_GetWorkerVersioningRules (task_queue : string) : IO VersioningRules :=
  resp <== UnaryCall grpc (GetWorkerVersioningRules ns task_queue);;
  hret {| vr_assignment_targets :=
            fold_left (fun out x => out ++ [x]) (vr_assignment_targets resp) [];
          vr_redirects := fold_left (fun out r => out ++ [(fst r, snd r)]) (vr_redirects resp) [];
          vr_conflict_token := vr_conflict_token resp |}.

(** Every update echoes the conflict token it read first. *)
Definition update_rules (task_queue : string) (op : VersioningOperation) : IO unit :=
  rules <== Client_GetWorkerVersioningRules task_queue;;
  UnaryCall grpc (UpdateWorkerVersioningRules ns task_queue (vr_conflict_token rules) op).

Definition InsertWorkerAssignmentRule (task_queue target_build_id : string) : IO unit :=
  update_rules task_queue (InsertAssignmentRule 0 target_build_id).
Definition AddWorkerRedirectRule (task_queue source_build_id target_build_id : string) : IO unit :=
  update_rules task_queue (AddCompatibleRedirectRule source_build_id target_build_id).

(** *** Batch operations *)

Definition StartBatchTerminate (job_id visibility_query reason : string) : IO unit :=
  UnaryCall grpc (StartBatchOperation ns job_id visibility_query reason (TerminationOperation identity)).
Definition StartBatchCancel (job_id visibility_query reason : string) : IO unit :=
  UnaryCall grpc (StartBatchOperation ns job_id visibility_query reason (CancellationOperation identity)).

Definition Client_DescribeBatchOperation (job_id : string) : IO BatchOperationDescription :=
  resp <== UnaryCall grpc (DescribeBatchOperation ns job_id);;
  hret {| bd_job_id := bi_job_id resp;
          bd_state := strip_prefix "BATCH_OPERATION_STATE_" (BatchOperationState_Name (bi_state resp));
          bd_total_operations := bi_total resp; bd_completed_operations := bi_complete resp;
          bd_failed_operations := bi_failure resp |}.

Definition Client_ListBatchOperations (fuel : nat) : IO (list string) :=
  list_all fuel (ListBatchOperations ns) (fun id => id).

(** *** Search attributes *)

(** The entries of the map in key order; the first unknown type throws. *)
Definition set_attribute (acc : result (gmap string IndexedValueType)) (entry : string * string) :
    result (gmap string IndexedValueType) :=
  match acc with
  | inl e => inl e
  | inr m =>
    match IndexedValueTypeFromString entry.2 with
    | inl e => inl e
    | inr t => inr (<[entry.1 := t]> m)
    end
  end.

Definition Client_AddSearchAttributes (name_to_type : list (string * string)) : IO unit :=
  attributes <== hlift (fold_left set_attribute name_to_type (inr ∅));;
  UnaryCall grpc (AddSearchAttributes ns attributes).

Definition type_names (m : gmap string IndexedValueType) : gmap string string :=
  map_fold (fun name t out => <[name := IndexedValueTypeName t]> out) ∅ m.

Definition Client_ListSearchAttributes : IO SearchAttributes :=
  resp <== UnaryCall grpc (ListSearchAttributes ns);;
  hret {| custom := type_names (fst resp); system := type_names (snd resp) |}.

Definition Client_RemoveSearchAttributes (names : list string) : IO unit :=
  UnaryCall grpc (RemoveSearchAttributes ns (fold_left (fun out x => out ++ [x]) names [])).

(** *** Clusters, Nexus endpoints, deployments *)

Definition DescribeCluster : IO ClusterInfo := UnaryCall grpc GetClusterInfo.

Definition Client_ListClusters (fuel : nat) : IO (list string) :=
  list_all fuel ListClusters (fun name => name).

(** The target is the namespace of the connection. *)
Definition Client_CreateNexusEndpoint (name target_task_queue : string) : IO string :=
  UnaryCall grpc (CreateNexusEndpoint name (g_ns grpc) target_task_queue).

Definition Client_GetNexusEndpoint (id : string) : IO NexusEndpoint :=
  UnaryCall grpc (GetNexusEndpoint id).

Definition Client_ListNexusEndpoints (fuel : nat) : IO (list string) :=
  list_all fuel ListNexusEndpoints (fun name => name).

Definition Client_ListWorkerDeployments (fuel : nat) : IO (list string) :=
  list_all fuel (ListWorkerDeployments ns) (fun name => name).

Definition Client_DescribeWorkerDeployment (name : string) : IO DeploymentInfo :=
  UnaryCall grpc (DescribeWorkerDeployment ns name).

Definition Client_SetWorkerDeploymentCurrentVersion (deployment_name build_id conflict_token : string) :
    IO string :=
  UnaryCall grpc (SetWorkerDeploymentCurrentVersion ns deployment_name build_id identity
                    (if str_empty conflict_token then "" else conflict_token)).

Definition Client_AddOrUpdateRemoteCluster (frontend_address : string) (enable_connection : bool) :
    IO unit := UnaryCall grpc (AddOrUpdateRemoteCluster frontend_address enable_connection).
Definition Client_RemoveRemoteCluster (cluster_name : string) : IO unit :=
  UnaryCall grpc (RemoveRemoteCluster cluster_name).
Definition Client_DeleteNamespace (namespace_name : string) : IO string :=
  UnaryCall grpc (DeleteNamespace namespace_name).

(** *** Asynchronous activity completion *)

Definition CompleteActivityPayloads (task_token : string) (result : Payloads) : IO unit :=
  UnaryCall grpc (RespondActivityTaskCompleted ns task_token identity (opt_payloads result)).

Definition FailActivity (task_token message type : string) : IO unit :=
  UnaryCall grpc (RespondActivityTaskFailed ns task_token identity
    {| Proto.message := message; Proto.source := "";
       Proto.application_failure_info :=
         Some {| Proto.type := type; Proto.non_retryable := false |} |}).

(** *** The time-skipping test server; the clock ticks in nanoseconds *)

Definition Client_GetCurrentTime : IO Z :=
  ts <== UnaryCall grpc GetCurrentTime;;
  hret (Proto.seconds ts * 1000000000 + Proto.nanos ts).
Definition Sleep (duration : Z) : IO unit :=
  UnaryCall grpc (TestServerSleep (ToProtoDuration duration)).
Definition Client_LockTimeSkipping : IO unit := UnaryCall grpc LockTimeSkipping.
Definition Client_UnlockTimeSkipping : IO unit := UnaryCall grpc UnlockTimeSkipping.
End Methods.
End Client.
