(* ===== verification/ClientFacts.v ===== *)
(** * Properties of the workflow client *)

From S2P Require Import Prelude Common Effects History Interceptors Converter Tracing TracingFacts Rpc Client.
From S2P Require Import Reference.

(** ** One RPC *)

Section Calls.
Context {W U : Type} `{Stub W}.

(** The world after the call [m]. *)
Definition after_call {R} (g : GrpcClient) (m : rpc R) (w : World W U) : World W U :=
  let ctx := call_context g (rpc_polls m) in
  (w <| w_server := fst (invoke m ctx (w_server w)) |>)
    <| w_issued ::= fun l => l ++ [{| issued_rpc := m; issued_context := ctx |}] |>.

Definition status_of {R} (g : GrpcClient) (m : rpc R) (w : World W U) : Status :=
  fst (snd (invoke m (call_context g (rpc_polls m)) (w_server w))).

Definition response_of {R} (g : GrpcClient) (m : rpc R) (w : World W U) : R :=
  snd (snd (invoke m (call_context g (rpc_polls m)) (w_server w))).

Definition rpc_exception {R} (m : rpc R) (st : Status) : exn :=
  let msg := "rpc " +:+ rpc_name m +:+ " failed: " +:+ error_message st in
  if bool_decide (error_code st = NOT_FOUND) then NotFoundError msg else RpcError msg false.

Definition rpc_answer {R} (m : rpc R) (st : Status) (resp : R) : result R :=
  if bool_decide (error_code st = OK) then inr resp
  else if rpc_polls m && bool_decide (error_code st = DEADLINE_EXCEEDED) then inr (empty_response m)
  else inl (rpc_exception m st).

Lemma UnaryCall_eq {R} g (m : rpc R) (w : World W U) :
  UnaryCall g m w = Val (after_call g m w, rpc_answer m (status_of g m w) (response_of g m w)).
Proof.
  unfold UnaryCall, after_call, rpc_answer, rpc_exception, status_of, response_of.
  destruct (invoke m _ (w_server w)) as [srv [st resp]]. simpl.
  destruct (error_code st); simpl; rewrite ?andb_false_r, ?andb_true_r; try done;
    by destruct (rpc_polls m).
Qed.

Lemma UnaryCall_bind {R A} g (m : rpc R) (k : R -> Act (World W U) A) w :
  hbind (UnaryCall g m) k w =
  match rpc_answer m (status_of g m w) (response_of g m w) with
  | inr resp => k resp (after_call g m w)
  | inl e => Val (after_call g m w, inl e)
  end.
Proof. unfold hbind. rewrite UnaryCall_eq. by destruct (rpc_answer _ _ _). Qed.

(** ** Lists *)

(** [serves g call token w pages w']: the pages of a list the server hands out from
    [token] on. *)
Inductive serves {A} (g : GrpcClient) (call : string -> rpc (Page A)) :
    string -> World W U -> list (list A) -> World W U -> Prop :=
| serves_last token w items w' :
    UnaryCall g (call token) w = Val (w', inr (items, "")) -> serves g call token w [items] w'
| serves_more token w items next w1 pages w' :
    UnaryCall g (call token) w = Val (w1, inr (items, next)) -> next <> "" ->
    serves g call next w1 pages w' -> serves g call token w (items :: pages) w'.

Lemma if_empty (s : string) : (if str_empty s then "" else s) = s.
Proof. destruct (str_empty s) eqn:He; [|done]. by apply str_empty_true in He. Qed.

Section Paging.
Context {A B : Type} (g : GrpcClient) (call : string -> rpc (Page A)) (item : A -> B).

Definition collect_items (out : list B) (resp : Page A) : list B :=
  fold_left (fun out x => out ++ [item x]) (fst resp) out.

Definition fetch_page (token : string) : Act (World W U) (Page A) :=
  UnaryCall g (call (if str_empty token then "" else token)).

Lemma Paginate_serves fuel token out w pages w' :
  serves g call token w pages w' -> (length pages <= fuel)%nat ->
  Paginate fuel fetch_page snd collect_items token out w =
  Val (w', inr (out ++ (item <$> concat pages))).
Proof.
  intros Hs. revert fuel out. induction Hs as [token w items w' Hc|token w items next w1 pages w' Hc Hn Hs IH];
    intros [|fuel] out Hf; simpl in Hf; try lia; simpl; unfold fetch_page at 1; rewrite if_empty;
    rewrite (hbind_val _ _ _ _ _ Hc); simpl.
  - unfold collect_items. simpl. by rewrite push_back_all, app_nil_r.
  - rewrite (proj2 (str_empty_false _) Hn), IH by lia.
    unfold collect_items. simpl. by rewrite push_back_all, fmap_app, app_assoc.
Qed.

Lemma Paginate_served fuel token out w l w' :
  Paginate fuel fetch_page snd collect_items token out w = Val (w', inr l) ->
  exists pages, serves g call token w pages w' /\ l = out ++ (item <$> concat pages).
Proof.
  revert token out w. induction fuel as [|fuel IH]; intros token out w; simpl; [done|].
  unfold hbind, fetch_page at 1. rewrite if_empty.
  destruct (UnaryCall g (call token) w) as [[w1 [e|[items next]]]| |] eqn:Hc; try done. simpl.
  destruct (str_empty next) eqn:Hn.
  - intros [= <- <-]. apply str_empty_true in Hn as ->. exists [items].
    split; [by constructor|]. unfold collect_items. simpl. by rewrite push_back_all, app_nil_r.
  - intros (pages & Hs & ->)%IH. apply str_empty_false in Hn. exists (items :: pages).
    split; [by econstructor|]. unfold collect_items. simpl.
    by rewrite push_back_all, fmap_app, app_assoc.
Qed.
End Paging.

(** A list call of the client - workflows, schedules, batch operations, clusters,
    Nexus endpoints, deployments - returns the whole list and nothing else: it answers
    [l] exactly when the server hands out, from the empty token on, pages that
    concatenate to [l], each fetched once and in order; and enough rounds are as many
    as there are pages. *)
Theorem lists_are_complete (c : Client (World W U)) {A B} (call : string -> rpc (Page A))
    (item : A -> B) w w' :
  (forall pages, serves (c_grpc c) call "" w pages w' ->
     list_all c (length pages) call item w = Val (w', inr (item <$> concat pages))) /\
  (forall fuel l, list_all c fuel call item w = Val (w', inr l) ->
     exists pages, serves (c_grpc c) call "" w pages w' /\ l = item <$> concat pages).
Proof.
  split.
  - intros pages Hs. exact (Paginate_serves (c_grpc c) call item (length pages) "" [] w pages w' Hs (le_n _)).
  - intros fuel l Hl.
    destruct (Paginate_served (c_grpc c) call item fuel "" [] w l w' Hl) as (pages & Hs & ->).
    by exists pages.
Qed.

(** ** Fetching a history *)

Definition history_rpc (h : WorkflowHandle) (token : string) : rpc (Page HistoryEvent) :=
  GetWorkflowExecutionHistory
    {| gh_namespace := h_ns h; gh_execution := this_execution h; gh_next_page_token := token;
       gh_skip_archival := true; gh_wait_new_event := false; gh_close_event_filter := false |}.

(** A history can come back truncated without an error.  The history RPC is made
    as a long poll, so a page that takes longer than the poll's deadline answers with
    an empty response; its empty token ends the loop, and the pages fetched so far are
    returned as the whole history. *)
Theorem slow_page_truncates_history (h : WorkflowHandle) (w : World W U) (page : list HistoryEvent)
    (token : string) (fuel : nat) :
  let g := h_grpc h in
  let w1 := after_call g (history_rpc h "") w in
  rpc_answer (history_rpc h "") (status_of g (history_rpc h "") w) (response_of g (history_rpc h "") w) =
    inr (page, token) ->
  token <> "" ->
  error_code (status_of g (history_rpc h token) w1) = DEADLINE_EXCEEDED ->
  FetchHistory h (S (S fuel)) w = Val (after_call g (history_rpc h token) w1, inr page).
Proof.
  intros g w1 H1 Ht H2. unfold FetchHistory. cbn [Paginate].
  change (history_page h "") with (UnaryCall (U := U) g (history_rpc h "")).
  rewrite UnaryCall_bind, H1. fold w1. cbn [snd fst]. rewrite (proj2 (str_empty_false _) Ht).
  assert (history_page h token = UnaryCall (U := U) g (history_rpc h token)) as ->
    by (unfold history_page; by rewrite if_empty).
  rewrite UnaryCall_bind. unfold rpc_answer. rewrite H2. simpl. by rewrite app_nil_r.
Qed.

(** ** Waiting for a result *)

Section Result.
Context `{EnumNames}.

Definition close_request (h : WorkflowHandle) (run_id : string) : rpc (Page HistoryEvent) :=
  GetWorkflowExecutionHistory
    {| gh_namespace := h_ns h; gh_execution := execution (h_workflow_id h) run_id;
       gh_next_page_token := ""; gh_skip_archival := true; gh_wait_new_event := true;
       gh_close_event_filter := true |}.

(** The server's side of the long polls a handle makes: how each run of the workflow
    closed, and how many polls come back without news before the answer to the current
    one ([patience]); an answer without news is an empty page or an expired deadline. *)
Record long_polls (h : WorkflowHandle) (close_of : string -> HistoryEvent) (patience : W -> nat)
    (bound : nat) : Prop := {
  lp_answer : forall run_id s, patience s = 0%nat ->
    let '(s', (status, resp)) := invoke (close_request h run_id) (call_context (h_grpc h) true) s in
    error_code status = OK /\ fst resp = [close_of run_id] /\ (patience s' <= bound)%nat;
  lp_wait : forall run_id s n, patience s = S n ->
    let '(s', (status, resp)) := invoke (close_request h run_id) (call_context (h_grpc h) true) s in
    patience s' = n /\
    (error_code status = DEADLINE_EXCEEDED \/ (error_code status = OK /\ fst resp = []))
}.

(** The run at the end of [n] continuations from [run_id], and how it closed. *)
Fixpoint last_run (convert : FailureDecoder) (close_of : string -> HistoryEvent) (n : nat)
    (run_id : string) : option (string * result Payloads) :=
  match on_close convert (close_of run_id) with
  | CloseReturn ps => Some (run_id, inr ps)
  | CloseThrow e => Some (run_id, inl e)
  | CloseFollow next =>
    match n with O => None | S n => last_run convert close_of n next end
  end.

Lemma close_page_eq h run_id (w : World W U) :
  close_page (h <| h_run_id := run_id |>) w =
  Val (after_call (h_grpc h) (close_request h run_id) w,
       rpc_answer (close_request h run_id) (status_of (h_grpc h) (close_request h run_id) w)
         (response_of (h_grpc h) (close_request h run_id) w)).
Proof. unfold close_page, this_execution. simpl. by rewrite UnaryCall_eq. Qed.

(** Waiting out the polls without news. *)
Lemma ResultPayloads_wait h close_of patience bound run_id fuel (w : World W U) :
  long_polls h close_of patience bound ->
  exists w1, patience (w_server w1) = 0%nat /\
    ResultPayloads (patience (w_server w) + fuel) (h <| h_run_id := run_id |>) w =
    ResultPayloads fuel (h <| h_run_id := run_id |>) w1.
Proof.
  intros Hlp. remember (patience (w_server w)) as n eqn:Hn. revert w Hn.
  induction n as [|n IH]; intros w Hn; [by exists w|].
  pose proof (lp_wait _ _ _ _ Hlp run_id (w_server w) n (eq_sym Hn)) as Hw.
  destruct (IH (after_call (h_grpc h) (close_request h run_id) w)) as (w1 & H1 & Heq).
  { unfold after_call. simpl.
    by destruct (invoke (close_request h run_id) _ (w_server w)) as [s' [st resp]], Hw. }
  exists w1. split; [done|]. rewrite <- Heq. cbn [Nat.add ResultPayloads]. rewrite close_page_eq.
  unfold rpc_answer, status_of, response_of. simpl.
  destruct (invoke (close_request h run_id) (call_context (h_grpc h) true) (w_server w))
    as [s' [st [events tok]]]. simpl in *.
  destruct Hw as (_ & [Hd|[Ho ->]]).
  - by rewrite Hd.
  - by rewrite Ho.
Qed.

Lemma ResultPayloads_from h close_of patience bound n run_id last res fuel (w : World W U) :
  long_polls h close_of patience bound ->
  (patience (w_server w) <= bound)%nat ->
  last_run (h_failure_converter h) close_of n run_id = Some (last, res) ->
  ((n + 1) * (bound + 1) <= fuel)%nat ->
  exists w', ResultPayloads fuel (h <| h_run_id := run_id |>) w =
             Val (w', (h <| h_run_id := last |>, res)).
Proof.
  intros Hlp. revert run_id w fuel.
  induction n as [|n IH]; intros run_id w fuel Hpat Hlast Hfuel;
    destruct (ResultPayloads_wait h close_of patience bound run_id (fuel - patience (w_server w)) w Hlp)
      as (w1 & Hp1 & Heq);
    replace (patience (w_server w) + (fuel - patience (w_server w)))%nat with fuel in Heq by lia;
    rewrite Heq; clear Heq;
    pose proof (lp_answer _ _ _ _ Hlp run_id (w_server w1) Hp1) as Ha;
    destruct (fuel - patience (w_server w))%nat as [|fuel'] eqn:Hf; try lia;
    cbn [ResultPayloads]; rewrite close_page_eq; unfold rpc_answer, status_of, response_of;
    unfold after_call; simpl;
    destruct (invoke (close_request h run_id) (call_context (h_grpc h) true) (w_server w1))
      as [s' [st [events tok]]]; simpl in *; destruct Ha as (Ho & He & Hb); rewrite Ho; subst events;
    simpl; destruct (on_close (h_failure_converter h) (close_of run_id)) as [ps|e|next];
    try (injection Hlast as <- <-; by eexists); [done|].
  apply (IH next); [done|done|lia].
Qed.

(** C14: [Result] waits for the end of the workflow, not of the run.  If the server
    answers long polls - after any number of polls without news, at most [bound] in a
    row, whether they come back empty or run into their deadline - then from a handle
    on a run that reaches its last run in [n] continuations, the call returns within
    [(n + 1) * (bound + 1)] polls, answers the last run's result or failure, and leaves
    the handle on that run. *)
Theorem ResultPayloads_follows_chain h close_of patience bound n last res fuel (w : World W U) :
  long_polls h close_of patience bound ->
  (patience (w_server w) <= bound)%nat ->
  last_run (h_failure_converter h) close_of n (h_run_id h) = Some (last, res) ->
  ((n + 1) * (bound + 1) <= fuel)%nat ->
  exists w', ResultPayloads fuel h w = Val (w', (h <| h_run_id := last |>, res)).
Proof.
  intros Hlp Hpat Hlast Hfuel.
  destruct (ResultPayloads_from h close_of patience bound n (h_run_id h) last res fuel w Hlp Hpat
    Hlast Hfuel) as [w' Hw]. exists w'. rewrite <- Hw. by destruct h.
Qed.
End Result.
End Calls.

(** ** Search attributes *)

Definition type_table : list (string * IndexedValueType) :=
  [("Keyword", INDEXED_VALUE_TYPE_KEYWORD); ("Text", INDEXED_VALUE_TYPE_TEXT);
   ("Int", INDEXED_VALUE_TYPE_INT); ("Double", INDEXED_VALUE_TYPE_DOUBLE);
   ("Bool", INDEXED_VALUE_TYPE_BOOL); ("Datetime", INDEXED_VALUE_TYPE_DATETIME);
   ("KeywordList", INDEXED_VALUE_TYPE_KEYWORD_LIST)].

(** The names the documentation lists. *)
Definition known_types : list string := type_table.*1.

Lemma IndexedValueTypeFromString_cases s :
  (exists t, (s, t) ∈ type_table /\ IndexedValueTypeFromString s = inr t) \/
  (s ∉ known_types /\
   IndexedValueTypeFromString s = inl (StdException ("unknown search attribute type: " +:+ s))).
Proof.
  unfold IndexedValueTypeFromString.
  repeat match goal with
         | |- context [String.eqb s ?k] =>
           destruct (String.eqb_spec s k) as [->|?];
             [left; eexists; split; [|reflexivity]; unfold type_table; set_solver|]
         end.
  right. split; [|done]. unfold known_types, type_table. simpl. set_solver.
Qed.

Lemma known_type s t : (s, t) ∈ type_table -> s ∈ known_types.
Proof. intros Hin. unfold known_types. apply list_elem_of_fmap. by exists (s, t). Qed.

Lemma from_string_known s :
  s ∈ known_types -> exists t, (s, t) ∈ type_table /\ IndexedValueTypeFromString s = inr t.
Proof. intros Hk. by destruct (IndexedValueTypeFromString_cases s) as [Ht|[Hn _]]. Qed.

Lemma from_string_unknown s :
  s ∉ known_types ->
  IndexedValueTypeFromString s = inl (StdException ("unknown search attribute type: " +:+ s)).
Proof.
  intros Hk. destruct (IndexedValueTypeFromString_cases s) as [(t & Ht & _)|[_ He]]; [|done].
  by apply known_type in Ht.
Qed.

Section Attributes.
Context `{EN : EnumNames, !EnumNamesLaws EN}.

Lemma table_names : Forall (fun e => IndexedValueTypeName e.2 = e.1) type_table.
Proof.
  unfold type_table, IndexedValueTypeName.
  repeat constructor; simpl;
    rewrite ?name_text, ?name_keyword, ?name_int, ?name_double, ?name_bool, ?name_datetime,
      ?name_keyword_list; reflexivity.
Qed.

(** The type names of search attributes are spelled one way: what
    [ListSearchAttributes] calls a type is what [AddSearchAttributes] accepts for it,
    and every name it accepts is read back the same; the accepted names are the seven
    documented ones. *)
Theorem attribute_types_roundtrip :
  (forall t, t <> INDEXED_VALUE_TYPE_UNSPECIFIED ->
     IndexedValueTypeFromString (IndexedValueTypeName t) = inr t) /\
  (forall s t, IndexedValueTypeFromString s = inr t -> IndexedValueTypeName t = s) /\
  (forall s, (exists t, IndexedValueTypeFromString s = inr t) <-> s ∈ known_types).
Proof.
  pose proof table_names as Hn. rewrite Forall_forall in Hn. split_and!.
  - intros t Ht. assert (exists s, (s, t) ∈ type_table) as [s Hin]
      by (unfold type_table; destruct t; try done; eexists; repeat first [by left|right]).
    pose proof (Hn _ Hin) as Hname. simpl in Hname. rewrite Hname.
    assert (Hall : Forall (fun e => IndexedValueTypeFromString e.1 = inr e.2) type_table)
      by (repeat constructor).
    rewrite Forall_forall in Hall. apply (Hall _ Hin).
  - intros s t Hs. destruct (IndexedValueTypeFromString_cases s) as [(t' & Hin & Ht')|[_ He]];
      [|congruence].
    rewrite Hs in Ht'. injection Ht' as <-. apply (Hn _ Hin).
  - intros s. split.
    + intros [t Ht]. destruct (IndexedValueTypeFromString_cases s) as [(t' & Hin & _)|[_ He]];
        [by eapply known_type|congruence].
    + intros Hk. destruct (from_string_known s Hk) as (t & _ & Ht). by exists t.
Qed.
End Attributes.

Section Requests.
Context `{EnumNames} {W U : Type} `{Stub W} (uuid : nat -> string).

Lemma set_attribute_throws l e : fold_left set_attribute l (inl e) = inl e.
Proof. by induction l. Qed.

Lemma set_attribute_known l acc :
  Forall (fun a => a.2 ∈ known_types) l -> exists m, fold_left set_attribute l (inr acc) = inr m.
Proof.
  intros Hall. revert acc. induction Hall as [|[n t] l Hk Hall IH]; intros acc; simpl; [by exists acc|].
  destruct (from_string_known t Hk) as (v & _ & ->). apply IH.
Qed.

Lemma set_attribute_unknown l acc :
  ~ Forall (fun a => a.2 ∈ known_types) l ->
  exists type, type ∉ known_types /\
    fold_left set_attribute l (inr acc) =
    inl (StdException ("unknown search attribute type: " +:+ type)).
Proof.
  revert acc. induction l as [|[n t] l IH]; intros acc Hnot; [by destruct Hnot|]. simpl.
  destruct (decide (t ∈ known_types)) as [Hk|Hk].
  - destruct (from_string_known t Hk) as (v & _ & ->). apply IH. intros Hall. apply Hnot.
    by constructor.
  - exists t. split; [done|]. by rewrite (from_string_unknown t Hk), set_attribute_throws.
Qed.

(** [AddSearchAttributes] registers all of its attributes or none: if any of their
    types is not one of the seven, it throws [std::invalid_argument] naming such a type
    and no request is made - the server and everything else are as before; otherwise
    exactly one request is made. *)
Theorem AddSearchAttributes_all_or_nothing (c : Client (World W U)) attributes (w : World W U) :
  if decide (Forall (fun a => a.2 ∈ known_types) attributes)
  then exists m, fold_left set_attribute attributes (inr ∅) = inr m /\
         Client_AddSearchAttributes c attributes w =
         UnaryCall (c_grpc c) (AddSearchAttributes (c_ns c) m) w
  else exists type, type ∉ known_types /\
         Client_AddSearchAttributes c attributes w =
         Val (w, inl (StdException ("unknown search attribute type: " +:+ type))).
Proof.
  unfold Client_AddSearchAttributes. case_decide as Hall.
  - destruct (set_attribute_known attributes ∅ Hall) as [m Hm]. exists m. by rewrite Hm.
  - destruct (set_attribute_unknown attributes ∅ Hall) as (type & Hk & Ht). exists type.
    by rewrite Ht.
Qed.

(** ** Starting workflows *)

(** Signalling with start forgets what the options say about headers and search
    attributes, and no interceptor sees the call: the request is the same whatever they
    are, with both fields empty. *)
Theorem signal_with_start_drops_options (c : Client (World W U)) o o' type signal_name
    signal_input input interceptors (w : World W U) :
  let c' := {| c_grpc := c_grpc c; c_failure_converter := c_failure_converter c; c_ns := c_ns c;
               c_identity := c_identity c; c_interceptors := interceptors |} in
  so_id o <> "" ->
  o' = (o <| so_search_attributes := so_search_attributes o' |>) <| so_headers := so_headers o' |> ->
  SignalWithStartWorkflowPayloads uuid c' o' type signal_name signal_input input w =
    SignalWithStartWorkflowPayloads uuid c o type signal_name signal_input input w /\
  forall w' x, SignalWithStartWorkflowPayloads uuid c o type signal_name signal_input input w =
    Val (w', x) ->
    exists req ctx, sr_workflow_id req = so_id o /\ sr_header req = ∅ /\ sr_search_attributes req = ∅ /\
      w_issued w' = w_issued w ++
        [{| issued_rpc := SignalWithStartWorkflowExecution req signal_name (opt_payloads signal_input);
            issued_context := ctx |}].
Proof.
  intros c' Hid Ho'. split.
  - rewrite Ho'. unfold SignalWithStartWorkflowPayloads, workflow_id_or_new. simpl.
    by rewrite (proj2 (str_empty_false _) Hid).
  - intros w' x. unfold SignalWithStartWorkflowPayloads, workflow_id_or_new.
    rewrite (proj2 (str_empty_false _) Hid), hbind_ret.
    rewrite (hbind_val (NewUuid uuid) _ w (w <| w_uuids ::= S |>) (uuid (w_uuids w))) by done.
    rewrite UnaryCall_bind. intros Hrun.
    eexists _, _. split_and!; [| | |].
    4:{ destruct (rpc_answer _ _ _); injection Hrun as <- _; reflexivity. }
    all: reflexivity.
Qed.

(** A component of what the client's interceptors share. *)
Definition on_user {A} (l : Lens U A) : Lens (World W U) A :=
  {| view := fun w => view l (w_user w); put := fun a w => w <| w_user ::= put l a |> |}.

#[export] Instance on_user_laws {A} (l : Lens U A) : LensLaws l -> LensLaws (on_user l).
Proof.
  intros [Hvp Hpv Hpp]. split; simpl.
  - intros a w. apply Hvp.
  - intros [srv iss uu u]. simpl. by rewrite Hpv.
  - intros a b w. by rewrite Hpp.
Qed.

Context {J : Type} `{!Json J, !JsonObject J, !JsonLaws J, !JsonObjectLaws J}.

(** The request [do_start] makes. *)
Lemma do_start_request (c : Client (World W U)) id i header (w : World W U) :
  exists req w' x, do_start uuid c id i header w = Val (w', x) /\
    w_issued w' = w_issued w ++ [{| issued_rpc := StartWorkflowExecution req;
                                    issued_context := call_context (c_grpc c) false |}] /\
    w_user w' = w_user w /\ sr_workflow_id req = id /\ sr_workflow_type req = sw_workflow_type i /\
    FromProtoFields (sr_header req) = header.
Proof.
  unfold do_start. eexists _, _, _. split_and!.
  - erewrite hbind_val; [apply UnaryCall_eq|done].
  - reflexivity.
  - reflexivity.
  - reflexivity.
  - reflexivity.
  - apply fields_roundtrip.
Qed.

End Requests.

(** ** A concrete server *)

#[export] Instance ref_names : EnumNames := {
  WorkflowExecutionStatus_Name s :=
    if s =? 1 then "WORKFLOW_EXECUTION_STATUS_RUNNING" else "WORKFLOW_EXECUTION_STATUS_COMPLETED";
  BatchOperationState_Name s := "BATCH_OPERATION_STATE_RUNNING";
  IndexedValueType_Name t :=
    match t with
    | INDEXED_VALUE_TYPE_UNSPECIFIED => "INDEXED_VALUE_TYPE_UNSPECIFIED"
    | INDEXED_VALUE_TYPE_TEXT => "INDEXED_VALUE_TYPE_TEXT"
    | INDEXED_VALUE_TYPE_KEYWORD => "INDEXED_VALUE_TYPE_KEYWORD"
    | INDEXED_VALUE_TYPE_INT => "INDEXED_VALUE_TYPE_INT"
    | INDEXED_VALUE_TYPE_DOUBLE => "INDEXED_VALUE_TYPE_DOUBLE"
    | INDEXED_VALUE_TYPE_BOOL => "INDEXED_VALUE_TYPE_BOOL"
    | INDEXED_VALUE_TYPE_DATETIME => "INDEXED_VALUE_TYPE_DATETIME"
    | INDEXED_VALUE_TYPE_KEYWORD_LIST => "INDEXED_VALUE_TYPE_KEYWORD_LIST"
    end;
  EventType_Name _ := "EVENT_TYPE_WORKFLOW_EXECUTION_TERMINATED"
}.

#[export] Instance ref_names_laws : EnumNamesLaws ref_names.
Proof. by split. Qed.

Definition fine : Status := {| error_code := OK; error_message := "" |}.
Definition late : Status := {| error_code := DEADLINE_EXCEEDED; error_message := "late" |}.

(** Run "r1" continued as "r2", which completed. *)
Definition ref_close (run_id : string) : HistoryEvent :=
  if String.eqb run_id "r1" then mkEvent 5 (WorkflowExecutionContinuedAsNew "r2")
  else mkEvent 9 (WorkflowExecutionCompleted (ToProtoPayloads [bytes "done"])).

(** Two schedules on two pages; a history whose second page is late; a long poll that
    expires as often as the state says, then once before every answer. *)
Definition ref_answer {R} (m : rpc R) (n : nat) : Status * R :=
  match m with
  | ListSchedules _ token => (fine, if str_empty token then (["a"], "more") else (["b"], ""))
  | GetWorkflowExecutionHistory req =>
    if gh_wait_new_event req
    then match n with
         | O => (fine, ([ref_close (ex_run_id (gh_execution req))], ""))
         | S _ => (late, ([], ""))
         end
    else if str_empty (gh_next_page_token req) then (fine, ([started], "more")) else (late, ([], ""))
  | m => (fine, empty_response m)
  end.

#[export] Instance ref_stub : Stub nat := fun R m _ n =>
  (match m with
   | GetWorkflowExecutionHistory _ => match n with O => 1%nat | S n => n end
   | _ => n
   end, ref_answer m n).

Definition ref_tls : TlsConfig := mkTlsConfig false "" "" "" "".

Definition ref_options {S} interceptors : ClientOptions S :=
  {| co_target := ""; co_ns := ""; co_identity := ""; co_failure_converter := None; co_tls := ref_tls;
     co_api_key := "secret"; co_interceptors := interceptors |}.

Definition ref_client {S} interceptors : Client S := Connect "1@host" (ref_options interceptors).

Definition ref_world {U} (u : U) : World nat U :=
  {| w_server := 2%nat; w_issued := []; w_uuids := 0%nat; w_user := u |}.

Definition ref_uuid (n : nat) : string := "uuid-" +:+ to_string (Z.of_nat n).

Definition ref_handle : WorkflowHandle := GetHandle (ref_client (S := World nat unit) []) "wf" "r1".

Definition ref_start : StartWorkflowOptions :=
  {| so_id := "wf"; so_task_queue := "q"; so_execution_timeout := 0; so_run_timeout := 0;
     so_task_timeout := 0; so_retry_policy := None; so_memo := ∅;
     so_search_attributes := {["Tier" := bytes "gold"]}; so_headers := {["user" := bytes "me"]} |}.

Lemma lists_are_complete_witness :
  exists w', Client_ListSchedules (ref_client []) 2 (ref_world tt) = Val (w', inr ["a"; "b"]).
Proof.
  set (c := ref_client [] : Client (World nat unit)).
  eexists. refine (proj1 (lists_are_complete c (ListSchedules "default") (fun id => id) (ref_world tt) _)
    [["a"]; ["b"]] _).
  eapply serves_more; [reflexivity|discriminate|]. eapply serves_last. reflexivity.
Defined.

Lemma slow_page_truncates_history_witness :
  exists w', FetchHistory ref_handle 2 (ref_world tt) = Val (w', inr [started]).
Proof.
  eexists. apply (slow_page_truncates_history ref_handle (ref_world tt) [started] "more" 0);
    [reflexivity|discriminate|reflexivity].
Defined.

Lemma ref_long_polls : long_polls ref_handle ref_close (fun n => n) 1.
Proof.
  split.
  - intros run_id s ->. cbn. split_and!; [done| |lia].
    unfold execution. simpl. by rewrite if_empty.
  - intros run_id s n ->. cbn. split; [done|by left].
Qed.

Lemma ResultPayloads_follows_chain_witness :
  exists w', ResultPayloads 6 ref_handle ((ref_world tt) <| w_server := 1%nat |>) =
             Val (w', (ref_handle <| h_run_id := "r2" |>, inr [bytes "done"])).
Proof.
  apply (ResultPayloads_follows_chain ref_handle ref_close (fun n => n) 1 1 "r2" (inr [bytes "done"]) 6
           ((ref_world tt) <| w_server := 1%nat |>) ref_long_polls); [simpl; lia|reflexivity|lia].
Defined.

Lemma signal_with_start_drops_options_witness :
  exists req ctx w' x,
    SignalWithStartWorkflowPayloads ref_uuid (ref_client []) ref_start "W" "sig" [] [] (ref_world tt) =
      Val (w', x) /\
    sr_header req = ∅ /\ sr_search_attributes req = ∅ /\
    w_issued w' = [{| issued_rpc := SignalWithStartWorkflowExecution req "sig" None;
                      issued_context := ctx |}].
Proof.
  destruct (signal_with_start_drops_options ref_uuid (ref_client []) ref_start ref_start "W" "sig" [] []
    [] (ref_world tt) ltac:(discriminate) eq_refl) as [_ Hreq].
  destruct (Hreq _ _ eq_refl) as (req & ctx & _ & Hh & Hs & Hi).
  eexists req, ctx, _, _. split_and!; [reflexivity|exact Hh|exact Hs|exact Hi].
Defined.

