(* ===== verification/Typed.v ===== *)
(** * The typed API

    The templates that let user code work with C++ values instead of payloads: the
    adapters of [worker/worker.h] and [workflow/context.h] that turn a typed function
    into a [WorkflowFn], an [ActivityFn], a [NexusOperationFn] or a handler, the typed
    futures and channels, the coroutine form of a workflow ([workflow/coro.h]), and the
    typed methods of the client.

    A C++ type the data converter carries is an instance of [Typed]; the choice between
    a value and [void] that the templates make with [if constexpr] is the choice of the
    instance of [Returned]; a parameter pack is an instance of [Pack]. *)

From S2P Require Import Prelude Common Effects Determinism History Workflow Interceptors Runner.
From S2P Require Rpc Client ActivityHandler NexusHandler.

(** ** Types *)

(** [DataConverter::ToPayload<T>], [FromPayload<T>], and [T{}]. *)
Class Typed (T : Type) := {
  to_payload : T -> result Payload;
  from_payload : Payload -> result T;
  value_init : T
}.

Class TypedLaws (T : Type) `{Typed T} : Prop :=
  typed_roundtrip : forall v p, to_payload v = inr p -> from_payload p = inr v.

(** The scalars the engine itself encodes. *)
#[export] Instance typed_string `{Codec} : Typed string :=
  {| to_payload := ToPayload_string; from_payload := FromPayload_string; value_init := "" |}.
#[export] Instance typed_int `{Codec} : Typed Z :=
  {| to_payload := ToPayload_int; from_payload := FromPayload_int; value_init := 0 |}.

#[export] Instance typed_string_laws `{CodecLaws} : TypedLaws string.
Proof. intros v p. apply codec_string. Qed.
#[export] Instance typed_int_laws `{CodecLaws} : TypedLaws Z.
Proof. intros v p. apply codec_int. Qed.

(** [vector::at]. *)
Definition at_index (ps : Payloads) (i : nat) : result Payload :=
  match ps !! i with Some p => inr p | None => inl (StdException "vector::_M_range_check") end.

(** The result type of a function or of a call. *)
Class Returned (R : Type) := {
  (** [Payloads{dc.ToPayload(result)}], and [Payloads{}] for [void] *)
  encode_result : R -> result Payloads;
  (** [FromPayload<R>(payloads.at(0))]; [void] looks at nothing *)
  decode_result : Payloads -> result R;
  (** [FromPayload<R>(result.empty() ? Payload{} : result.front())] *)
  decode_front : Payloads -> result R;
  (** the single payload of a Nexus operation *)
  encode_single : R -> result Payload;
  result_init : R
}.

#[export] Instance returned_value `{Typed T} : Returned T | 10 := {
  encode_result v := match to_payload v with inr p => inr [p] | inl e => inl e end;
  decode_result ps := match at_index ps 0 with inr p => from_payload p | inl e => inl e end;
  decode_front ps := from_payload (default empty_payload (head ps));
  encode_single := to_payload;
  result_init := value_init
}.

#[export] Instance returned_void : Returned unit | 1 := {
  encode_result _ := inr [];
  decode_result _ := inr tt;
  decode_front _ := inr tt;
  encode_single _ := inr empty_payload;
  result_init := tt
}.

(** ** Parameter packs *)

(** [ToPayloads] encodes from left to right; [DecodeArgs] decodes the [i]th element of
    the tuple from the [i]th payload, in order. *)
Class Pack (A : Type) := {
  pack_size : nat;
  ToPayloads : A -> result Payloads;
  DecodeFrom : nat -> Payloads -> result A
}.

#[export] Instance pack_nil : Pack unit := {
  pack_size := 0;
  ToPayloads _ := inr [];
  DecodeFrom _ _ := inr tt
}.

#[export] Instance pack_cons `{Typed T, Pack A} : Pack (T * A) := {
  pack_size := S (pack_size (A := A));
  ToPayloads args :=
    match to_payload (fst args) with
    | inl e => inl e
    | inr p =>
      match ToPayloads (snd args) with inl e => inl e | inr ps => inr (p :: ps) end
    end;
  DecodeFrom i ps :=
    match at_index ps i with
    | inl e => inl e
    | inr p =>
      match from_payload p with
      | inl e => inl e
      | inr v => match DecodeFrom (S i) ps with inl e => inl e | inr rest => inr (v, rest) end
      end
    end
}.

Definition DecodeArgs {A} `{Pack A} (in_ : Payloads) : result A := DecodeFrom 0 in_.

(** ** Typed workflow bodies *)

(** A workflow function's body before its result is encoded. *)
Inductive body (R : Type) :=
| Ret (v : R)
| Raise (e : exn)
| Do (c : call) (k : result (answer c) -> body R)
| On (kind : handler_kind) (name : string) (handler : Payloads -> prog) (k : body R).
Arguments Ret {R} v.
Arguments Raise {R} e.
Arguments Do {R} c k.
Arguments On {R} kind name handler k.

Fixpoint and_with {R R'} (b : body R) (k : R -> body R') : body R' :=
  match b with
  | Ret v => k v
  | Raise e => Raise e
  | Do c k' => Do c (fun a => and_with (k' a) k)
  | On kind name handler b' => On kind name handler (and_with b' k)
  end.

(** An expression that may throw. *)
Definition lift_body {R} (x : result R) : body R :=
  match x with inr v => Ret v | inl e => Raise e end.

(** One call of the engine, its exception propagated. *)
Definition perform (c : call) : body (answer c) := Do c lift_body.

Declare Scope body_scope.
Delimit Scope body_scope with body.
Notation "x <- b ;; k" := (and_with b (fun x => k))
  (at level 100, b at next level, right associativity) : body_scope.

(** The body inside an adapter, which encodes what it returns. *)
Fixpoint lower {R} (encode : R -> result Payloads) (b : body R) : prog :=
  match b with
  | Ret v => match encode v with inr ps => Return ps | inl e => Throw e end
  | Raise e => Throw e
  | Do c k => Call c (fun a => lower encode (k a))
  | On kind name handler b => SetHandler kind name handler (lower encode b)
  end.

(** ** Adapters ([worker.h], [context.h]) *)

(** [Worker::MakeWorkflowFn]: decode the arguments, run, encode. *)
Definition MakeWorkflowFn {A R} `{Pack A, Returned R} (fn : A -> body R) (in_ : Payloads) : prog :=
  match DecodeArgs in_ with
  | inl e => Throw e
  | inr args => lower encode_result (fn args)
  end.

(** [Worker::MakeActivityFn]. *)
Definition MakeActivityFn {A R} `{Pack A, Returned R}
    (fn : ActivityInfo -> A -> ActivityHandler.Context -> ActivityHandler.Context * result R) :
    ActivityHandler.ActivityBody := fun info in_ ctx =>
  match DecodeArgs in_ with
  | inl e => (ctx, inl e)
  | inr args =>
    match fn info args ctx with
    | (ctx, inl e) => (ctx, inl e)
    | (ctx, inr v) => (ctx, encode_result v)
    end
  end.

(** [Worker::MakeNexusOperationFn]: one payload in, one out. *)
Definition MakeNexusOperationFn {Arg R} `{Typed Arg, Returned R} (fn : Arg -> result R) :
    NexusHandler.NexusOperationFn := fun in_ =>
  match from_payload in_ with
  | inl e => inl e
  | inr arg => match fn arg with inl e => inl e | inr v => encode_single v end
  end.

(** [Context::MakeQueryFn], for query and update handlers. *)
Definition MakeQueryFn {A R} `{Pack A, Returned R} (handler : A -> body R) : Payloads -> prog :=
  MakeWorkflowFn handler.

(** [Context::MakeValidatorFn]: what the validator returns is ignored. *)
Definition MakeValidatorFn {A R} `{Pack A} (validator : A -> body R) (in_ : Payloads) : prog :=
  match DecodeArgs in_ with
  | inl e => Throw e
  | inr args => lower (fun _ => inr []) (validator args)
  end.

Definition SetQueryHandler {A R} `{Pack A, Returned R} (name : string) (handler : A -> body R) : body unit :=
  On QueryHandler name (MakeQueryFn handler) (Ret tt).

Definition SetUpdateHandler {A R} `{Pack A, Returned R} (name : string) (handler : A -> body R) : body unit :=
  On UpdateHandler name (MakeQueryFn handler) (Ret tt).

Definition SetValidatedUpdateHandler {A R R'} `{Pack A, Returned R} (name : string)
    (handler : A -> body R) (validator : A -> body R') : body unit :=
  On UpdateValidator name (MakeValidatorFn validator)
    (On UpdateHandler name (MakeQueryFn handler) (Ret tt)).

(** ** Coroutine workflows ([coro.h]) *)

(** [promise_type]: [value_] is initialised, [error_] is null until an exception leaves
    the coroutine's body. *)
Record promise (R : Type) := mkPromise { value_ : R; error_ : option exn }.
Arguments mkPromise {R} value_ error_.
Arguments value_ {R} p.
Arguments error_ {R} p.

Definition new_promise {R} `{Returned R} : promise R := mkPromise result_init None.

Definition return_value {R} (v : R) (p : promise R) : promise R := mkPromise v (error_ p).

Definition unhandled_exception {R} (e : exn) (p : promise R) : promise R := mkPromise (value_ p) (Some e).

(** Calling the coroutine: [initial_suspend] never suspends, every [co_await] resumes
    at once ([await_suspend] answers [false]), so it runs to [final_suspend] within the
    call, and the task holds the promise. *)
Fixpoint workflow_task {R} (p : promise R) (b : body R) : body (promise R) :=
  match b with
  | Ret v => Ret (return_value v p)
  | Raise e => Ret (unhandled_exception e p)
  | Do c k => Do c (fun a => workflow_task p (k a))
  | On kind name handler b => On kind name handler (workflow_task p b)
  end.

(** [workflow_task::get] rethrows. *)
Definition task_get {R} (p : promise R) : result R :=
  match error_ p with Some e => inl e | None => inr (value_ p) end.

(** The branch of [MakeWorkflowFn] for a function that returns a [workflow_task<R>]. *)
Definition MakeCoroutineWorkflowFn {A R} `{Pack A, Returned R} (fn : A -> body R) : Payloads -> prog :=
  MakeWorkflowFn (fun args =>
    and_with (workflow_task new_promise (fn args)) (fun task => lift_body (task_get task))).

(** ** Futures and channels ([future.h], [channel.h]) *)

(** [Future<R>]: the shared state's address, at the type its result is read. *)
Record Future (R : Type) := mkFuture { state_ : loc }.
Arguments mkFuture {R} state_.
Arguments state_ {R} f.

Section Futures.
Context {R : Type} `{Returned R} (f : Future R).

Definition IsReady : body bool := perform (FutureIsReady (state_ f)).

Definition Cancel : body unit := perform (FutureCancel (state_ f)).

(** [FutureGet] blocks and throws [ActivityError] when the operation failed. *)
Definition Get : body R := and_with (perform (FutureGet (state_ f))) (fun ps => lift_body (decode_result ps)).

(** [operator co_await]: [await_ready] and [await_suspend] answer [false], so the
    coroutine goes straight to [await_resume]. *)
Definition await_ready : bool := false.
Definition await_suspend : bool := false.
Definition co_await : body R :=
  if await_ready then Get else if await_suspend then Raise ForeignException else Get.
End Futures.

(** [ReceiveChannel<T>]. *)
Record ReceiveChannel (T : Type) := mkChannel { name_ : string }.
Arguments mkChannel {T} name_.
Arguments name_ {T} r.

Section Channels.
Context {T : Type} `{Typed T} (ch : ReceiveChannel T).

(** A signal without arguments is the initial value. *)
Definition Decode (ps : Payloads) : result T :=
  match ps with [] => inr value_init | _ => match at_index ps 0 with inr p => from_payload p | inl e => inl e end end.

Definition Receive : body T :=
  and_with (perform (Workflow.Receive (name_ ch))) (fun ps => lift_body (Decode ps)).

Definition ReceiveAsync : body (option T) :=
  and_with (perform (Workflow.ReceiveAsync (name_ ch))) (fun out : option Payloads =>
    match out with
    | None => Ret None
    | Some ps => and_with (lift_body (Decode ps)) (fun v => Ret (Some v))
    end).

Definition HasPending : body bool := perform (Workflow.HasPending (name_ ch)).
End Channels.

Definition GetSignalChannel {T} (name : string) : ReceiveChannel T := mkChannel name.

(** ** Calls of the context ([context.h]) *)

(** A call that encodes its arguments first. *)
Definition encoded {A X} `{Pack A} (args : A) (k : Payloads -> body X) : body X :=
  and_with (lift_body (ToPayloads args)) k.

Definition ExecuteActivity {R A} `{Pack A} (options : ActivityOptions) (activity_type : string)
    (args : A) : body (Future R) :=
  encoded args (fun input =>
    and_with (perform (Workflow.ExecuteActivity options activity_type input)) (fun l => Ret (mkFuture l))).

Definition NewTimer (duration : Z) : body (Future unit) :=
  and_with (perform (Workflow.NewTimer duration)) (fun l => Ret (mkFuture l)).

Definition ExecuteChildWorkflow {R A} `{Pack A} (options : ChildWorkflowOptions)
    (workflow_type : string) (args : A) : body (Future R) :=
  encoded args (fun input =>
    and_with (perform (Workflow.ExecuteChildWorkflow options workflow_type input)) (fun l => Ret (mkFuture l))).

Definition ExecuteNexusOperation {R Arg} `{Typed Arg} (endpoint service operation : string)
    (input : Arg) (schedule_to_close : Z) : body (Future R) :=
  and_with (lift_body (to_payload input)) (fun p =>
    and_with (perform (Workflow.ExecuteNexusOperation endpoint service operation p schedule_to_close))
      (fun l => Ret (mkFuture l))).

Definition Sleep (duration : Z) : body unit := and_with (NewTimer duration) Get.

Definition ContinueAsNew {R A} `{Pack A} (workflow_type : string) (args : A) : body R :=
  encoded args (fun input => Raise (ContinueAsNewRequested workflow_type input)).

Definition SignalExternalWorkflow {A} `{Pack A} (workflow_id signal_name : string) (args : A) : body unit :=
  encoded args (fun input => perform (Workflow.SignalExternalWorkflow workflow_id signal_name input)).

Definition ExecuteLocalActivity {R A} `{Returned R, Pack A} (options : LocalActivityOptions)
    (activity_type : string) (args : A) : body R :=
  encoded args (fun input =>
    and_with (perform (Workflow.ExecuteLocalActivity options activity_type input))
      (fun ps => lift_body (decode_front ps))).

Definition AwaitCancellation : body (Future unit) :=
  and_with (perform Workflow.AwaitCancellation) (fun l => Ret (mkFuture l)).

(** ** Typed handles ([typed_handles.h])

    A handle is a name at a type; it lowers to the call that takes the name. *)

Record ActivityRef (A R : Type) := mkActivityRef {
  ref_name : string;
  ref_function : ActivityInfo -> A -> ActivityHandler.Context -> ActivityHandler.Context * result R
}.
Arguments ref_name {A R} a.
Arguments ref_function {A R} a.

Definition ExecuteActivityRef {A R} `{Pack A} (options : ActivityOptions) (ref : ActivityRef A R) (args : A) :
    body (Future R) := ExecuteActivity options (ref_name ref) args.

(** The handles of signals, queries and updates: a wire name at the type of the value
    sent or of the result. *)
Record SignalRef (T : Type) := mkSignalRef { signal_ref_name : string }.
Record QueryRef (R : Type) := mkQueryRef { query_ref_name : string }.
Record UpdateRef (R : Type) := mkUpdateRef { update_ref_name : string }.
Arguments signal_ref_name {T} s.
Arguments query_ref_name {R} q.
Arguments update_ref_name {R} u.

Definition GetSignalChannelRef {T} (ref : SignalRef T) : ReceiveChannel T :=
  GetSignalChannel (signal_ref_name ref).

(** The handler's result is the handle's ([static_assert]). *)
Definition SetQueryHandlerRef {A R} `{Pack A, Returned R} (ref : QueryRef R) (handler : A -> body R) :
    body unit := SetQueryHandler (query_ref_name ref) handler.

Definition SetUpdateHandlerRef {A R} `{Pack A, Returned R} (ref : UpdateRef R) (handler : A -> body R) :
    body unit := SetUpdateHandler (update_ref_name ref) handler.

(** [Worker::Register]. *)
Definition RegisterRef {A R} `{Pack A, Returned R} {W} (ref : ActivityRef A R)
    (h : ActivityHandler.ActivityTaskHandler W) : ActivityHandler.ActivityTaskHandler W :=
  ActivityHandler.Register (ref_name ref) (ActivityHandler.hosted (MakeActivityFn (ref_function ref))) h.

(** ** Typed methods of the client ([client.h]) *)

Section TypedClient.
Context `{Client.EnumNames} {W U : Type} `{Rpc.Stub W} (uuid : nat -> string).
Abbreviation IO A := (Act (Rpc.World W U) A).

(** Encoding comes first; nothing is sent when it throws. *)
Definition with_payloads {A X} `{Pack A} (args : A) (k : Payloads -> IO X) : IO X :=
  match ToPayloads args with inl e => hthrow e | inr ps => k ps end.

Definition StartWorkflow {A} `{Pack A} (c : Client.Client (Rpc.World W U)) (options : StartWorkflowOptions)
    (workflow_type : string) (args : A) : IO Client.WorkflowHandle :=
  with_payloads args (Client.StartWorkflowPayloads uuid c options workflow_type).

Definition SignalWithStartWorkflow {A} `{Pack A} (c : Client.Client (Rpc.World W U))
    (options : StartWorkflowOptions) (workflow_type signal_name : string) (signal_input : Payloads)
    (args : A) : IO Client.WorkflowHandle :=
  with_payloads args
    (Client.SignalWithStartWorkflowPayloads uuid c options workflow_type signal_name signal_input).

Definition CompleteActivity {A} `{Pack A} (c : Client.Client (Rpc.World W U)) (task_token : string)
    (result : A) : IO unit :=
  with_payloads result (Client.CompleteActivityPayloads c task_token).

Definition Result {R} `{Returned R} (fuel : nat) (h : Client.WorkflowHandle) (w : Rpc.World W U) :
    outcome (Rpc.World W U * (Client.WorkflowHandle * result R)) :=
  match Client.ResultPayloads fuel h w with
  | Val (w, (h, inr ps)) => Val (w, (h, decode_result ps))
  | Val (w, (h, inl e)) => Val (w, (h, inl e))
  | Hang => Hang
  | UB => UB
  end.

Definition Query {R A} `{Returned R, Pack A} (h : Client.WorkflowHandle) (query_type : string) (args : A) :
    IO R :=
  with_payloads args (fun ps =>
    result <== Client.QueryPayloads h query_type ps;; hlift (decode_result result)).

Definition Update {R A} `{Returned R, Pack A} (h : Client.WorkflowHandle) (update_name : string) (args : A) :
    IO R :=
  with_payloads args (fun ps =>
    result <== Client.UpdatePayloads uuid h update_name ps;; hlift (decode_result result)).

Definition Signal {A} `{Pack A} (h : Client.WorkflowHandle) (signal_name : string) (args : A) : IO unit :=
  with_payloads args (Client.Signal uuid h signal_name).

(** The overloads that take a handle. *)
Definition QueryOf {R A} `{Returned R, Pack A} (h : Client.WorkflowHandle) (ref : QueryRef R) (args : A) :
    IO R := Query h (query_ref_name ref) args.

Definition UpdateOf {R A} `{Returned R, Pack A} (h : Client.WorkflowHandle) (ref : UpdateRef R) (args : A) :
    IO R := Update h (update_ref_name ref) args.

Definition SignalOf {T} `{Typed T} (h : Client.WorkflowHandle) (ref : SignalRef T) (value : T) : IO unit :=
  Signal h (signal_ref_name ref) (value, tt).
End TypedClient.
