(* ===== verification/TypedFacts.v ===== *)
(** * The typed API keeps its types

    What goes through the payloads comes back: between a typed caller and a typed
    function the encoding is invisible, in every direction the templates encode. *)

From Stdlib Require Import FunctionalExtensionality.
From S2P Require Import Prelude Common Effects Determinism History Workflow Interceptors Runner.
From S2P Require Import RunnerFacts Reference ReplaySpec Replay StickyReplay Rpc Client ClientFacts Typed.
From S2P Require ActivityHandler NexusHandler.

(** ** Encoding and decoding *)

(** A result type whose values survive. *)
Class ReturnedLaws (R : Type) `{Returned R} : Prop := {
  decode_encode : forall v ps, encode_result v = inr ps -> decode_result ps = inr v;
  decode_encode_front : forall v ps, encode_result v = inr ps -> decode_front ps = inr v
}.

#[export] Instance returned_value_laws `{TypedLaws T} : ReturnedLaws T.
Proof.
  split; intros v ps; simpl; destruct (to_payload v) as [e|p] eqn:Hp; try done;
    intros [= <-]; simpl; by apply typed_roundtrip.
Qed.

#[export] Instance returned_void_laws : ReturnedLaws unit.
Proof. by split; intros []. Qed.

(** A pack whose values survive: extra payloads are not looked at, and the first one
    that is missing is an [out_of_range]. *)
Definition out_of_range : exn := StdException "vector::_M_range_check".

Class PackLaws (A : Type) `{Pack A} : Prop := {
  pack_length : forall args ps, ToPayloads args = inr ps -> length ps = pack_size;
  decode_from : forall args ps before after, ToPayloads args = inr ps ->
    DecodeFrom (length before) (before ++ ps ++ after) = inr args;
  decode_missing : forall args ps before n, ToPayloads args = inr ps -> (n < pack_size)%nat ->
    DecodeFrom (length before) (before ++ take n ps) = inl out_of_range
}.

#[export] Instance pack_nil_laws : PackLaws unit.
Proof.
  split; simpl.
  - by intros args ps [= <-].
  - by intros [].
  - intros. lia.
Qed.

Lemma at_index_next (before : Payloads) p after : at_index (before ++ p :: after) (length before) = inr p.
Proof. unfold at_index. by rewrite list_lookup_middle. Qed.

#[export] Instance pack_cons_laws `{TypedLaws T, PackLaws A} : PackLaws (T * A).
Proof.
  assert (Hcons : forall (args : T * A) ps, ToPayloads args = inr ps ->
    exists p qs, ps = p :: qs /\ from_payload p = inr (fst args) /\ ToPayloads (snd args) = inr qs).
  { intros [v rest] ps. simpl. destruct (to_payload v) as [e|p] eqn:Hp; [done|].
    destruct (ToPayloads rest) as [e|qs] eqn:Hqs; [done|]. intros [= <-].
    exists p, qs. split_and!; [done|by apply typed_roundtrip|done]. }
  split.
  - intros args ps (p & qs & -> & _ & Hqs)%Hcons. simpl. by rewrite (pack_length _ _ Hqs).
  - intros [v rest] ps before after (p & qs & -> & Hp & Hqs)%Hcons. simpl in *.
    rewrite at_index_next, Hp.
    pose proof (decode_from rest qs (before ++ [p]) after Hqs) as Hd.
    rewrite length_app, <- app_assoc in Hd. simpl in Hd. rewrite Nat.add_1_r in Hd. by rewrite Hd.
  - intros [v rest] ps before n (p & qs & -> & Hp & Hqs)%Hcons Hn. simpl in *.
    destruct n as [|n]; simpl.
    + unfold at_index. by rewrite app_nil_r, lookup_ge_None_2.
    + rewrite at_index_next, Hp.
      pose proof (decode_missing rest qs (before ++ [p]) n Hqs ltac:(lia)) as Hd.
      rewrite length_app, <- app_assoc in Hd. simpl in Hd. rewrite Nat.add_1_r in Hd. by rewrite Hd.
Qed.

Lemma decode_args `{PackLaws A} (args : A) ps extra :
  ToPayloads args = inr ps -> DecodeArgs (ps ++ extra) = inr args.
Proof. apply (decode_from args ps []). Qed.

Lemma decode_args_exact `{PackLaws A} (args : A) ps : ToPayloads args = inr ps -> DecodeArgs ps = inr args.
Proof. intros Hps. rewrite <- (app_nil_r ps). by apply decode_args. Qed.

(** ** The coroutine form *)


(** ** Running a typed body *)

Section Finishes.
Context `{Codec} (env : Env).

(** The body, run by the engine from [r], returns [v] and leaves the runner as [r1]. *)
Inductive finishes {R} : body R -> WorkflowRunner -> WorkflowRunner -> R -> Prop :=
| finishes_ret v r : finishes (Ret v) r r v
| finishes_do c k r r1 a r2 v :
    do_call env c r = (r1, Answer a) -> finishes (k a) r1 r2 v -> finishes (Do c k) r r2 v
| finishes_on kind name handler b r r2 v :
    finishes b (register kind name handler r) r2 v -> finishes (On kind name handler b) r r2 v.

Lemma finishes_interp {R} (encode : R -> result Payloads) (b : body R) r r1 v ps :
  finishes b r r1 v -> encode v = inr ps -> interp env (lower encode b) r = Finished r1 (inr ps).
Proof.
  intros Hf Hv. induction Hf as [v r|c k r r1 a r2 v Hc _ IH|kind name handler b r r2 v _ IH]; simpl.
  - by rewrite Hv.
  - rewrite Hc. by apply IH.
  - by apply IH.
Qed.

(** A body that threw is a run that failed with the exception. *)
Lemma finish_encoded res r : result_ (finish_body env (inr res) r) = res.
Proof. reflexivity. Qed.
End Finishes.

(** The history of a run that a start with this input and header opened. *)
Definition opened_by (type : string) (input : Proto.Payloads) (header : gmap string Proto.Payload)
    (h : History) : Prop :=
  exists ev0 rest, h = ev0 :: rest /\ event_body ev0 = WorkflowExecutionStarted type input header /\
    all_proper (scan1 empty_prescan ev0) rest.

Lemma opened_by_proper type input header h : opened_by type input header h -> proper_history h.
Proof. intros (ev0 & rest & Hh & H0 & Hp). by exists ev0, rest, type, input, header. Qed.

(** The input a body is entered with is the first event's. *)
Lemma ScanHistory_input type input header h :
  opened_by type input header h -> ps_input (ScanHistory h) = FromProtoPayloads input.
Proof.
  intros Ho. pose proof (opened_by_proper _ _ _ _ Ho) as Hh.
  destruct Ho as (ev0 & rest & -> & H0 & Hp).
  rewrite ScanHistory_scan1 by (by apply proper_history_no_update). simpl.
  destruct (scan_all_input _ _ Hp) as (-> & _ & _).
  unfold scan1. destruct ev0 as [n b]. simpl in H0. by subst b.
Qed.

Lemma opt_payloads_roundtrip ps :
  FromProtoPayloads (default (Proto.mkPayloads []) (opt_payloads ps)) = ps.
Proof. destruct ps as [|p ps]; [done|]. simpl. by rewrite payloads_roundtrip. Qed.

(** ** A typed call from end to end *)

Section EndToEnd.
Context `{Client.EnumNames} {W U : Type} `{Stub W} (uuid : nat -> string).

(** A start without interceptors is one request with the encoded arguments. *)
Lemma start_request (c : Client (World W U)) options type input (w w' : World W U) h :
  c_interceptors c = [] -> StartWorkflowPayloads uuid c options type input w = Val (w', inr h) ->
  exists req, w_issued w' = w_issued w ++
      [{| issued_rpc := StartWorkflowExecution req; issued_context := call_context (c_grpc c) false |}] /\
    sr_workflow_type req = type /\ sr_input req = opt_payloads input /\
    sr_header req = ToProtoFields (so_headers options) /\
    sr_search_attributes req = ToProtoFields (so_search_attributes options).
Proof.
  intros Hnone. unfold StartWorkflowPayloads, workflow_id_or_new. rewrite Hnone.
  cbn [BuildClientOutboundChain BuildChain rev app fold_left chain_head RootClientOutbound
       cl_StartWorkflow].
  assert (Hgo : forall id (w0 : World W U), w_issued w0 = w_issued w ->
    hbind (do_start uuid c id {| sw_workflow_type := type; sw_options := options <| so_id := id |>;
                                 sw_args := input |} (so_headers options))
      (fun run_id => hret (new_handle c id run_id)) w0 = Val (w', inr h) ->
    exists req, w_issued w' = w_issued w ++
      [{| issued_rpc := StartWorkflowExecution req; issued_context := call_context (c_grpc c) false |}] /\
      sr_workflow_type req = type /\ sr_input req = opt_payloads input /\
      sr_header req = ToProtoFields (so_headers options) /\
      sr_search_attributes req = ToProtoFields (so_search_attributes options)).
  { intros id w0 Hw0. unfold do_start. rewrite hbind_assoc. unfold NewUuid at 1. unfold hbind at 1.
    rewrite UnaryCall_bind. destruct (rpc_answer _ _ _); [done|]. intros [= <- _].
    eexists. simpl. rewrite Hw0. by split_and!. }
  destruct (str_empty (so_id options)); apply Hgo; reflexivity.
Qed.

(** The worker's side: the typed function gets the arguments back. *)
Lemma typed_body `{PackLaws A, Returned R} env (fn : A -> body R) args input ps type header hist :
  ToPayloads args = inr ps -> input = opt_payloads ps -> e_interceptors env = [] ->
  opened_by type (default (Proto.mkPayloads []) input) header hist ->
  body_of env (MakeWorkflowFn fn) (ScanHistory hist) = lower encode_result (fn args).
Proof.
  intros Hps -> Hint Ho. unfold body_of, inbound_head. rewrite Hint. simpl.
  rewrite (ScanHistory_input _ _ _ _ Ho), opt_payloads_roundtrip. unfold MakeWorkflowFn.
  by rewrite (decode_args_exact args ps Hps).
Qed.

(** C9: a typed call is transparent.  A client starts a workflow with typed arguments
    (no interceptors on either side) and a worker runs, on a history the server opened
    with that request, the typed function registered for it: the engine runs the
    function applied to those arguments, and when it returns [v] the run completes with
    [v]'s encoding.  A handle whose server answers the run's long polls with the event
    of that completion then gets [v] out of [Result]: what the payloads, the protobuf
    messages and the history carry in between cannot be seen. *)
Theorem typed_call_transparent `{Codec} {A R} `{PackLaws A, ReturnedLaws R}
    (c : Client (World W U)) options type (args : A) (fn : A -> body R) ps (w w' : World W U) h :
  c_interceptors c = [] -> ToPayloads args = inr ps ->
  StartWorkflow uuid c options type args w = Val (w', inr h) ->
  exists req, w_issued w' = w_issued w ++
      [{| issued_rpc := StartWorkflowExecution req; issued_context := call_context (c_grpc c) false |}] /\
    sr_workflow_type req = type /\ sr_input req = opt_payloads ps /\
    sr_header req = ToProtoFields (so_headers options) /\
    forall env info hist r1 v out, e_interceptors env = [] ->
      opened_by type (default (Proto.mkPayloads []) (sr_input req)) (sr_header req) hist ->
      finishes env (fn args) (entered env info false (MakeWorkflowFn fn) (ScanHistory hist)) r1 v ->
      encode_result v = inr out ->
      exists r2, replay_of env info false (MakeWorkflowFn fn) hist = Val (r2, inr tt) /\
        Completed r2 = true /\ result_ r2 = out /\
        forall close_of patience bound n fuel (w2 : World W U),
          long_polls h close_of patience bound -> (patience (w_server w2) <= bound)%nat ->
          (bound < fuel)%nat ->
          close_of (h_run_id h) =
            mkEvent n (echo (CompleteWorkflowExecution (opt_payloads (result_ r2)))) ->
          exists w3, Result fuel h w2 = Val (w3, (h, inr v)).
Proof.
  intros Hnone Hps. unfold StartWorkflow, with_payloads. rewrite Hps. intros Hrun.
  destruct (start_request c options type ps w w' h Hnone Hrun) as (req & Hiss & Hty & Hin & Hhd & _).
  exists req. split_and!; [done..|]. intros env info hist r1 v out Hint Ho Hfin Hout.
  pose proof (proper_timeline _ (opened_by_proper _ _ _ _ Ho)) as Htl.
  exists (finish_body env (inr out) r1). split_and!; [|reflexivity|reflexivity|].
  - rewrite Run_proper by done. rewrite (typed_body env fn args _ ps _ _ _ Hps Hin Hint Ho).
    unfold resume_with. by rewrite (finishes_interp env encode_result _ _ _ _ _ Hfin Hout).
  - intros close_of patience bound n fuel w2 Hlp Hpat Hfuel Hclose.
    destruct (ResultPayloads_from h close_of patience bound 0 (h_run_id h) (h_run_id h) (inr out) fuel w2 Hlp Hpat)
      as [w3 Hres]; [|lia|].
    { cbn [last_run]. rewrite Hclose. simpl. by rewrite opt_payloads_roundtrip. }
    exists w3. unfold Result. replace (h <| h_run_id := h_run_id h |>) with h in Hres by (by destruct h).
    rewrite Hres. by rewrite (decode_encode v out Hout).
Qed.
End EndToEnd.

(** ** Arity *)

(** C15: the number of payloads is checked by position.  A caller that sends more than
    the function takes starts the function with the first ones; a caller that sends
    fewer - even none - fails the workflow: [at] throws before the function is entered,
    nothing but the failure is produced, and the failure carries the type
    "std::exception" of an exception that is not the SDK's. *)
Theorem arguments_decoded_by_position `{Codec} {A R} `{PackLaws A, Returned R}
    (env : Env) info (fn : A -> body R) (args : A) ps type header hist :
  e_interceptors env = [] -> ToPayloads args = inr ps ->
  (forall extra, opened_by type (ToProtoPayloads (ps ++ extra)) header hist ->
     body_of env (MakeWorkflowFn fn) (ScanHistory hist) = lower encode_result (fn args)) /\
  (forall n, (n < pack_size (A := A))%nat -> opened_by type (ToProtoPayloads (take n ps)) header hist ->
     exists r, replay_of env info false (MakeWorkflowFn fn) hist = Val (r, inr tt) /\
       Failed r = true /\ commands_ r = [] /\ produced_commands_ r = [CommandEvent.mk CommandEvent.FailWorkflow "" ""] /\
       failure_ r = encode_failure env out_of_range "std::exception").
Proof.
  intros Hint Hps. split.
  - intros extra Ho. unfold body_of, inbound_head. rewrite Hint. simpl.
    rewrite (ScanHistory_input _ _ _ _ Ho), payloads_roundtrip. unfold MakeWorkflowFn.
    by rewrite (decode_args args ps extra Hps).
  - intros n Hn Ho. exists (finish_body env (inl out_of_range)
      (entered env info false (MakeWorkflowFn fn) (ScanHistory hist))).
    split_and!; [|reflexivity..]. rewrite Run_proper by (by eapply proper_timeline, opened_by_proper).
    assert (Hb : body_of env (MakeWorkflowFn fn) (ScanHistory hist) = Throw out_of_range).
    { unfold body_of, inbound_head. rewrite Hint. simpl.
      rewrite (ScanHistory_input _ _ _ _ Ho), payloads_roundtrip. unfold MakeWorkflowFn, DecodeArgs.
      assert (Hd : DecodeFrom (A := A) 0 (take n ps) = inl out_of_range)
        by exact (decode_missing args ps [] n Hps Hn).
      by rewrite Hd. }
    by rewrite Hb.
Qed.

(** ** Activities and Nexus operations *)

(** The typed adapters of activities and Nexus operations are transparent too: on
    the encoded arguments the registered function is the typed function, its result or
    exception included, and the caller decodes the result it returned. *)
Theorem typed_handlers_transparent `{PackLaws A, ReturnedLaws R, TypedLaws Arg}
    (activity : ActivityInfo -> A -> ActivityHandler.Context -> ActivityHandler.Context * result R)
    (operation : Arg -> result R) (args : A) ps extra (arg : Arg) p info ctx :
  ToPayloads args = inr ps -> to_payload arg = inr p ->
  match activity info args ctx with
  | (ctx', inl e) => MakeActivityFn activity info (ps ++ extra) ctx = (ctx', inl e)
  | (ctx', inr v) => MakeActivityFn activity info (ps ++ extra) ctx = (ctx', encode_result v) /\
      forall out, encode_result v = inr out -> decode_result out = inr v /\ decode_front out = inr v
  end /\
  match operation arg with
  | inl e => MakeNexusOperationFn operation p = inl e
  | inr v => MakeNexusOperationFn operation p = encode_single v
  end.
Proof.
  intros Hps Hp. unfold MakeActivityFn, MakeNexusOperationFn.
  rewrite (decode_args args ps extra Hps), (typed_roundtrip arg p Hp). split.
  - destruct (activity info args ctx) as [ctx' [e|v]]; [done|]. split; [done|].
    intros out Hout. split; [by apply decode_encode|by apply decode_encode_front].
  - by destruct (operation arg).
Qed.

(** ** Closed instances *)

(** Greets a person as often as asked. *)
Fixpoint greet_times (name : string) (n : nat) : string :=
  match n with O => "" | S n => "hi " +:+ name +:+ greet_times name n end.

Definition typed_greeter (args : string * (Z * unit)) : body string :=
  match args with
  | (name, (n, _)) =>
    and_with (ExecuteActivity default_activity_options "Log" (name, tt)) (fun f : Future unit =>
      Ret (greet_times name (Z.to_nat n)))
  end.

Definition typed_args : string * (Z * unit) := ("bob ", (2, tt)).

(** The server answers a start at once, and a long poll with the run's completion. *)
Definition typed_answer {R} (m : rpc R) : Status * R :=
  match m with
  | StartWorkflowExecution _ => (fine, "r1")
  | GetWorkflowExecutionHistory _ =>
    (fine, ([mkEvent 9 (WorkflowExecutionCompleted (ToProtoPayloads [bytes "hi bob hi bob "]))], ""))
  | m => (fine, empty_response m)
  end.

Definition typed_stub : Stub nat := fun R m _ n => (n, typed_answer m).

Definition typed_history : History :=
  [mkEvent 1 (WorkflowExecutionStarted "W" (ToProtoPayloads [bytes "bob "; bytes "p01"])
                (ToProtoFields (so_headers ref_start)))].

Definition typed_handle : WorkflowHandle := new_handle (U := unit) (W := nat) (ref_client []) "wf" "r1".

#[local] Existing Instance typed_stub.

Definition typed_client : Client (World nat unit) := ref_client [].

Definition typed_close (_ : string) : HistoryEvent :=
  mkEvent 9 (WorkflowExecutionCompleted (ToProtoPayloads [bytes "hi bob hi bob "])).

Lemma typed_args_encoded : ToPayloads typed_args = inr [bytes "bob "; bytes "p01"].
Proof. reflexivity. Qed.

(** The run's body, entered and finished. *)
Definition typed_entered : WorkflowRunner :=
  entered ref_env ref_info false (MakeWorkflowFn typed_greeter) (ScanHistory typed_history).

Lemma typed_finishes :
  exists r1, finishes ref_env (typed_greeter typed_args) typed_entered r1 "hi bob hi bob ".
Proof.
  eexists. unfold typed_greeter, typed_args. cbn [and_with ExecuteActivity encoded perform lift_body].
  simpl. eapply finishes_do; [vm_compute; reflexivity|]. simpl. apply finishes_ret.
Qed.

(** The typed greeter, started by a typed client, greets Bob twice. *)
Lemma typed_call_transparent_witness :
  exists w' r2 w3,
    StartWorkflow ref_uuid typed_client ref_start "W" typed_args (ref_world tt) =
      Val (w', inr typed_handle) /\
    replay_of ref_env ref_info false (MakeWorkflowFn typed_greeter) typed_history = Val (r2, inr tt) /\
    Result (R := string) 1 typed_handle w' = Val (w3, (typed_handle, inr "hi bob hi bob ")).
Proof.
  assert (Hstart : exists w', StartWorkflow ref_uuid typed_client ref_start "W" typed_args (ref_world tt) =
                              Val (w', inr typed_handle)) by (eexists; vm_compute; reflexivity).
  destruct Hstart as [w' Hstart]. destruct typed_finishes as [r1 Hfin].
  destruct (typed_call_transparent ref_uuid typed_client ref_start "W" typed_args typed_greeter _
    (ref_world tt) w' typed_handle eq_refl typed_args_encoded Hstart)
    as (req & _ & _ & Hin & Hhd & Hrun).
  destruct (Hrun ref_env ref_info typed_history r1 "hi bob hi bob " [bytes "hi bob hi bob "] eq_refl)
    as (r2 & Hr2 & _ & Hres & Hget); [|exact Hfin|reflexivity|].
  { rewrite Hin, Hhd. eexists _, []. by split_and!. }
  destruct (Hget typed_close (fun _ => 0%nat) 0%nat 9 1%nat w') as [w3 Hw3].
  - split; [|intros run_id s n Hn; discriminate Hn].
    intros run_id s _. split_and!; [reflexivity|reflexivity|lia].
  - lia.
  - lia.
  - rewrite Hres. reflexivity.
  - exists w', r2, w3. split_and!; [exact Hstart|exact Hr2|exact Hw3].
Defined.

(** A caller that forgets the count, and one that sends a third argument. *)
Lemma arguments_decoded_by_position_witness :
  exists r, replay_of ref_env ref_info false (MakeWorkflowFn typed_greeter)
      [mkEvent 1 (WorkflowExecutionStarted "W" (ToProtoPayloads [bytes "bob "]) ∅)] = Val (r, inr tt) /\
    Failed r = true /\ commands_ r = [].
Proof.
  destruct (arguments_decoded_by_position ref_env ref_info typed_greeter typed_args _ "W" ∅
    [mkEvent 1 (WorkflowExecutionStarted "W" (ToProtoPayloads [bytes "bob "]) ∅)] eq_refl
    typed_args_encoded) as [_ Hmissing].
  destruct (Hmissing 1%nat) as (r & Hr & Hf & Hc & _).
  - simpl. lia.
  - eexists _, []. by split_and!.
  - exists r. split_and!; [exact Hr|exact Hf|exact Hc].
Defined.

Definition greeting_context : ActivityHandler.Context :=
  ActivityHandler.make_context (ActivityHandler.info_of ActivityHandler.ref_handler ActivityHandler.ref_task)
    None 0 (fun _ => 0).

Lemma two_encoded : to_payload (2 : Z) = inr (bytes "p01").
Proof. reflexivity. Qed.

Lemma typed_handlers_transparent_witness :
  MakeActivityFn (fun info (args : string * (Z * unit)) ctx => (ctx, inr (greet_times args.1 2)))
    (ActivityHandler.ac_info greeting_context) ([bytes "bob "; bytes "p01"] ++ [bytes "extra"])
    greeting_context =
    (greeting_context, inr [bytes "hi bob hi bob "]) /\
  MakeNexusOperationFn (fun n : Z => inr (encode_int n)) (bytes "p01") = inr (bytes "p01").
Proof.
  destruct (typed_handlers_transparent
    (fun info (args : string * (Z * unit)) ctx => (ctx, inr (greet_times args.1 2)))
    (fun n : Z => inr (encode_int n)) typed_args _ [bytes "extra"] 2 (bytes "p01")
    (ActivityHandler.ac_info greeting_context) greeting_context typed_args_encoded
    two_encoded)
    as [[Ha _] Hn].
  split; [exact Ha|exact Hn].
Defined.
