(* ===== verification/SearchAttributes.v ===== *)
(** * Search attributes

    [common/search_attribute.cpp]: typed values as the plain JSON payloads the server
    indexes.  They do not go through the data converter, so the server can read them
    whatever codecs a client has. *)

From S2P Require Import Prelude Common Effects Converter Rpc Client ClientFacts TypedFacts.

Section SearchAttributes.
(** The implicit conversions to [nlohmann::json] that [Json] does not name. *)
Context {J : Type} `{Json J} (of_double : Q -> J) (of_bool : bool -> J) (of_strings : list string -> J).

(** The file's [Encode]; [dump] throws on a string that is not UTF-8. *)
Definition Encode (type : string) (value : J) : result Payload :=
  match dump value with
  | inr s => inr {| p_metadata := <["type" := type]> {["encoding" := "json/plain"]}; p_data := s |}
  | inl e => inl e
  end.

Definition Keyword (value : string) : result Payload := Encode "Keyword" (of_string value).
Definition Text (value : string) : result Payload := Encode "Text" (of_string value).
Definition Int (value : Z) : result Payload := Encode "Int" (of_int value).
Definition Double (value : Q) : result Payload := Encode "Double" (of_double value).
Definition Bool (value : bool) : result Payload := Encode "Bool" (of_bool value).
Definition KeywordList (values : list string) : result Payload := Encode "KeywordList" (of_strings values).

(** ** Facts *)

(** Any peer's default converter reads it, and so does a plain JSON parser. *)
Lemma Encode_readable `{!JsonLaws J} type value p :
  textual value -> Encode type value = inr p ->
  p_metadata p !! "type" = Some type /\ p_metadata p !! "encoding" = Some "json/plain" /\
  json_parse (p_data p) = inr value /\
  FromPayload (Default (J := J)) p = inr value.
Proof.
  intros Ht. unfold Encode. destruct (dump value) as [e|s] eqn:Hd; [done|]. intros [= <-].
  pose proof (dump_parse _ _ Ht Hd) as Hp. split_and!; [done..|].
  unfold FromPayload, FromPayloadJson, encoding_of. cbn. by rewrite Hp.
Qed.
End SearchAttributes.

(** A search attribute a client starts a workflow with reaches the server under its
    name as the payload it was built as, whatever data converter and codecs the client
    has: tagged with its type and with the plain JSON encoding, and with a body a JSON
    parser reads back as the value. *)
Theorem search_attributes_reach_server `{Client.EnumNames} {W U : Type} `{Stub W} (uuid : nat -> string)
    {J : Type} `{Json J, !JsonLaws J} (c : Client (World W U)) options type input (w w' : World W U) h
    name indexed_type (value : J) p :
  c_interceptors c = [] -> StartWorkflowPayloads uuid c options type input w = Val (w', inr h) ->
  textual value -> Encode indexed_type value = inr p -> so_search_attributes options !! name = Some p ->
  exists req q, w_issued w' = w_issued w ++
      [{| issued_rpc := StartWorkflowExecution req; issued_context := call_context (c_grpc c) false |}] /\
    sr_search_attributes req !! name = Some q /\
    Proto.metadata q !! "type" = Some indexed_type /\
    Proto.metadata q !! "encoding" = Some "json/plain" /\
    json_parse (Proto.data q) = inr value.
Proof.
  intros Hnone Hrun Ht He Hn.
  destruct (start_request uuid c options type input w w' h Hnone Hrun) as (req & Hiss & _ & _ & _ & Hsa).
  destruct (Encode_readable indexed_type value p Ht He) as (Hty & Henc & Hp & _).
  exists req, (Common.ToProtoPayload p). split; [exact Hiss|].
  rewrite ToProtoPayload_eq. split_and!; [|exact Hty|exact Henc|exact Hp].
  by rewrite Hsa, ToProtoFields_eq, lookup_fmap, Hn, <- ToProtoPayload_eq.
Qed.

Definition gold_tier : StartWorkflowOptions :=
  ref_start <| so_search_attributes := {["Tier" := {| p_metadata :=
    <["type" := "Keyword"]> {["encoding" := "json/plain"]}; p_data := "sgold" |}]} |>.

Lemma search_attributes_reach_server_witness :
  exists req q w' h,
    StartWorkflowPayloads ref_uuid (ref_client (S := World nat unit) []) gold_tier "W" [] (ref_world tt) =
      Val (w', inr h) /\
    sr_search_attributes req !! "Tier" = Some q /\ json_parse (Proto.data q) = inr (RString "gold").
Proof.
  assert (Hrun : exists w' h, StartWorkflowPayloads ref_uuid (ref_client (S := World nat unit) [])
    gold_tier "W" [] (ref_world tt) = Val (w', inr h)) by (eexists _, _; vm_compute; reflexivity).
  destruct Hrun as (w' & h & Hrun).
  destruct (search_attributes_reach_server ref_uuid (ref_client (S := World nat unit) []) gold_tier "W" []
    (ref_world tt) w' h "Tier" "Keyword" (RString "gold")
    {| p_metadata := <["type" := "Keyword"]> {["encoding" := "json/plain"]}; p_data := "sgold" |})
    as (req & q & _ & Hq & _ & _ & Hp); [reflexivity|exact Hrun|exact I|reflexivity|reflexivity|].
  exists req, q, w', h. split_and!; [exact Hrun|exact Hq|exact Hp].
Defined.
