(* ===== verification/Sessions.v ===== *)
(** * Sessions

    A session pins a sequence of activities to one worker host
    ([common/session.h]): [Context::CreateSession] and [CompleteSession] run two
    built-in activities, and the worker that runs them counts its open sessions
    ([WorkerImpl::RegisterSessionActivities]).  Here the two sides are put together
    with the server between them, which delivers an activity again when it did not get
    the answer. *)

From S2P Require Import Prelude Common Effects Determinism History Workflow Interceptors Runner.
From S2P Require Import RunnerFacts Reference ReplaySpec Replay StickyReplay Typed TypedFacts.

(** ** The workflow's side ([session.h], [context.h]) *)

Definition kSessionCreationActivityType : string := "__temporal_session_creation".
Definition kSessionCompletionActivityType : string := "__temporal_session_completion".

(** In milliseconds. *)
Record SessionOptions := mkSessionOptions { creation_timeout : Z }.
Definition default_session_options : SessionOptions := mkSessionOptions 30000.

Record SessionInfo := mkSessionInfo { session_id : string; task_queue : string }.

(** [catch (...)] with nothing in it. *)
Fixpoint swallow (b : body unit) : body unit :=
  match b with
  | Ret v => Ret v
  | Raise _ => Ret tt
  | Do c k => Do c (fun a => swallow (k a))
  | On kind name handler b => On kind name handler (swallow b)
  end.

Definition creation_options (options : SessionOptions) : ActivityOptions :=
  {| ao_task_queue := ""; ao_schedule_to_close_timeout := creation_timeout options;
     ao_schedule_to_start_timeout := 0; ao_start_to_close_timeout := creation_timeout options;
     ao_heartbeat_timeout := 0; ao_retry_policy := None |}.

Definition completion_options (queue : string) : ActivityOptions :=
  {| ao_task_queue := queue; ao_schedule_to_close_timeout := 0; ao_schedule_to_start_timeout := 0;
     ao_start_to_close_timeout := 10 * 1000; ao_heartbeat_timeout := 0; ao_retry_policy := None |}.

Section Workflow.
Context `{Codec}.

Definition CreateSession (options : SessionOptions) : body SessionInfo :=
  and_with (ExecuteActivity (R := string) (creation_options options) kSessionCreationActivityType tt)
    (fun f => and_with (Get f) (fun queue => Ret (mkSessionInfo queue queue))).

Definition CompleteSession (session : SessionInfo) : body unit :=
  if str_empty (task_queue session) then Ret tt
  else swallow
    (and_with (ExecuteActivity (R := unit) (completion_options (task_queue session))
                 kSessionCompletionActivityType tt) Get).
End Workflow.

(** ** The worker's side ([worker_impl.cpp]) *)

(** The two activities, as they act on [active_sessions_] when nothing interferes. *)
Definition create_session (cap : Z) (session_queue : string) (active : Z) : Z * result string :=
  if 0 <? cap then
    if cap <=? active
    then (active, inl (ApplicationError "worker session capacity reached" "SessionCapacityError" false))
    else (active + 1, inr session_queue)
  else (active + 1, inr session_queue).

Definition complete_session (active : Z) : Z := if 0 <? active then active - 1 else active.

(** ** Between them

    A fleet of session workers, each known by its session queue; the sessions workflows
    hold, and those whose completion is on its way.  A delivery whose answer is lost
    (the activity timed out, or the answer did not reach the server) is made again. *)
Record fleet := mkFleet {
  caps : string -> Z;
  active_sessions : string -> Z;
  held : list string;
  completing : list string
}.

Definition set_active (queue : string) (n : Z) (f : fleet) : fleet :=
  {| caps := caps f; active_sessions q := if decide (q = queue) then n else active_sessions f q;
     held := held f; completing := completing f |}.

Inductive fleet_step : bool -> fleet -> fleet -> Prop :=
(** a worker runs a creation; the workflow gets its queue if the answer arrives *)
| step_create acked queue n f :
    create_session (caps f queue) queue (active_sessions f queue) = (n, inr queue) ->
    fleet_step acked f
      {| caps := caps f; active_sessions := active_sessions (set_active queue n f);
         held := if acked then queue :: held f else held f; completing := completing f |}
(** every slot is taken: the server tries again *)
| step_refused queue n e f :
    create_session (caps f queue) queue (active_sessions f queue) = (n, inl e) ->
    fleet_step true f (set_active queue n f)
(** a workflow ends a session it holds *)
| step_end queue l1 l2 f :
    held f = l1 ++ queue :: l2 ->
    fleet_step true f
      {| caps := caps f; active_sessions := active_sessions f; held := l1 ++ l2;
         completing := queue :: completing f |}
(** the session's worker runs the completion; it is over if the answer arrives *)
| step_complete (acked : bool) queue l1 l2 f :
    completing f = l1 ++ queue :: l2 ->
    fleet_step acked f
      {| caps := caps f;
         active_sessions := active_sessions (set_active queue (complete_session (active_sessions f queue)) f);
         held := held f; completing := if acked then l1 ++ l2 else completing f |}.

Definition idle_fleet (caps : string -> Z) : fleet :=
  {| caps := caps; active_sessions _ := 0; held := []; completing := [] |}.

(** The sessions of a worker in a list. *)
Definition on_host (queue : string) (l : list string) : Z :=
  Z.of_nat (length (filter (fun q => q = queue) l)).

(** ** Facts *)

Lemma on_host_app q l1 l2 : on_host q (l1 ++ l2) = on_host q l1 + on_host q l2.
Proof. unfold on_host. rewrite filter_app, length_app. lia. Qed.

Lemma on_host_cons q q' l : on_host q (q' :: l) = (if decide (q' = q) then 1 else 0) + on_host q l.
Proof. unfold on_host. rewrite filter_cons. case_decide; simpl; lia. Qed.

Lemma on_host_nonneg q l : 0 <= on_host q l.
Proof. unfold on_host. lia. Qed.

Record fleet_exact (f : fleet) : Prop := {
  fe_counts : forall q, active_sessions f q = on_host q (held f) + on_host q (completing f);
  fe_caps : forall q, 0 < caps f q -> active_sessions f q <= caps f q
}.

(** The arithmetic of a step at one worker. *)
Ltac count_sessions :=
  simpl; rewrite ?on_host_cons, ?on_host_app, ?on_host_cons in *; unfold complete_session;
  repeat case_decide; simplify_eq; repeat case_match;
  rewrite ?Z.ltb_lt, ?Z.ltb_ge, ?Z.leb_gt, ?Z.leb_le in *;
  repeat match goal with
  | |- context [on_host ?q ?l] => unless (0 <= on_host q l) by assumption; pose proof (on_host_nonneg q l)
  | _ : context [on_host ?q ?l] |- _ =>
    unless (0 <= on_host q l) by assumption; pose proof (on_host_nonneg q l)
  end; lia.

Lemma create_session_cases cap queue active n r :
  create_session cap queue active = (n, r) ->
  (r = inr queue /\ n = active + 1 /\ (0 < cap -> active < cap)) \/
  ((exists e, r = inl e) /\ n = active /\ 0 < cap <= active).
Proof.
  unfold create_session. repeat case_match; intros [= <- <-];
    rewrite ?Z.ltb_lt, ?Z.ltb_ge, ?Z.leb_gt, ?Z.leb_le in *; [right|left..]; eauto with lia.
Qed.

Lemma fleet_step_exact f f' : fleet_step true f f' -> fleet_exact f -> fleet_exact f' /\ caps f' = caps f.
Proof.
  intros Hs [Hc Hcap].
  inversion Hs as [acked queue n f0 Hcr|queue n e f0 Hcr|queue l1 l2 f0 Hh|acked queue l1 l2 f0 Hh];
    subst; (split; [|reflexivity]).
  - apply create_session_cases in Hcr as [(_ & -> & Hlt)|((e & [=]) & _)].
    split; intros q; specialize (Hc q); specialize (Hcap q); count_sessions.
  - apply create_session_cases in Hcr as [([=] & _)|(_ & -> & Hlt)].
    split; intros q; specialize (Hc q); specialize (Hcap q); count_sessions.
  - split; intros q; specialize (Hc q); specialize (Hcap q); rewrite Hh in Hc; count_sessions.
  - split; intros q; specialize (Hc q); specialize (Hcap q); rewrite Hh in Hc; count_sessions.
Qed.

(** ** What the count promises *)

Definition any_step (f f' : fleet) : Prop := exists acked, fleet_step acked f f'.

(** A step that leaves the other workers alone. *)
Definition host_step (queue : string) (f f' : fleet) : Prop :=
  exists acked, fleet_step acked f f' /\ forall q, q <> queue -> active_sessions f' q = active_sessions f q.

Lemma host_steps_any queue f f' : rtc (host_step queue) f f' -> rtc any_step f f'.
Proof. apply rtc_subrel. intros f1 f2 (acked & Hs & _). by exists acked. Qed.

Lemma exact_steps f f' : rtc (fleet_step true) f f' -> fleet_exact f -> fleet_exact f' /\ caps f' = caps f.
Proof.
  induction 1 as [f|f f1 f' Hs _ IH]; [done|]. intros Hf.
  destruct (fleet_step_exact f f1 Hs Hf) as [H1 <-]. by apply IH.
Qed.

(** While every answer of a session activity reaches the server, each worker's
    counter is the number of sessions workflows hold on it plus those being completed,
    so a worker with a limit never hosts more sessions than that. *)
Theorem acknowledged_sessions_exact (limits : string -> Z) (f : fleet) (queue : string) :
  rtc (fleet_step true) (idle_fleet limits) f ->
  active_sessions f queue = on_host queue (held f) + on_host queue (completing f) /\
  (0 < limits queue -> on_host queue (held f) <= limits queue).
Proof.
  intros Hr. destruct (exact_steps _ _ Hr) as [[Hc Hcap] Hl].
  { split; intros q; simpl; [reflexivity|lia]. }
  simpl in Hl. rewrite Hl in Hcap. split; [apply Hc|]. intros Hpos.
  specialize (Hcap queue Hpos). rewrite Hc in Hcap. pose proof (on_host_nonneg queue (completing f)). lia.
Qed.

(** A fleet where [queue]'s worker counts [n] sessions. *)
Definition counting (limits : string -> Z) (queue : string) (n : Z) (l : list string) (f : fleet) : Prop :=
  caps f = limits /\ active_sessions f queue = n /\ held f = l /\ completing f = [].

Section Lost.
Context (limits : string -> Z) (queue : string).
Hypothesis Hlimit : 0 < limits queue.

(** Take one step of the queue's worker. *)
Ltac step_here acked step :=
  eapply rtc_l; [exists acked; split;
    [eapply step|intros q Hq; simpl; rewrite ?decide_False by done; done]|].

(** One completion delivered twice leaves room for one session too many. *)
Lemma completed_twice l f :
  counting limits queue 0 l f -> exists f', rtc (host_step queue) f f' /\ counting limits queue 0 (queue :: l) f'.
Proof.
  intros (Hcaps & Hn & Hh & Hc). assert (Hcr : forall f1, caps f1 = limits -> active_sessions f1 queue = 0 ->
    create_session (caps f1 queue) queue (active_sessions f1 queue) = (1, inr queue)).
  { intros f1 -> ->. unfold create_session. rewrite (proj2 (Z.ltb_lt _ _) Hlimit).
    by rewrite (proj2 (Z.leb_gt _ _) Hlimit). }
  eexists. split.
  - step_here true (step_create true queue 1). { by apply Hcr. }
    step_here true (step_end queue [] l). { simpl. by rewrite Hh. }
    step_here false (step_complete false queue [] []). { simpl. by rewrite Hc. }
    step_here true (step_create true queue 1). { apply Hcr; [done|]. simpl. by rewrite !decide_True. }
    step_here true (step_complete true queue [] []). { simpl. by rewrite Hc. }
    apply rtc_refl.
  - split_and!; simpl; [done| |done|done]. by rewrite !decide_True.
Qed.

Lemma created_unheard k f n :
  counting limits queue n [] f -> n + Z.of_nat k <= limits queue ->
  exists f', rtc (host_step queue) f f' /\ counting limits queue (n + Z.of_nat k) [] f'.
Proof.
  revert f n. induction k as [|k IH]; intros f n Hf Hk.
  - exists f. split; [apply rtc_refl|]. by replace (n + Z.of_nat 0) with n by lia.
  - destruct Hf as (Hcaps & Hn & Hh & Hc).
    destruct (IH {| caps := caps f; active_sessions := active_sessions (set_active queue (n + 1) f);
                    held := held f; completing := completing f |} (n + 1)) as (f' & Hr & Hf').
    { split_and!; simpl; [done| |done|done]. by rewrite decide_True. }
    { lia. }
    exists f'. split; [|by replace (n + Z.of_nat (S k)) with (n + 1 + Z.of_nat k) by lia].
    eapply rtc_l; [|exact Hr]. exists false.
    split; [apply (step_create false queue (n + 1))|intros q Hq; simpl; by rewrite decide_False].
    unfold create_session. rewrite Hcaps, Hn, (proj2 (Z.ltb_lt _ _) Hlimit).
    by rewrite (proj2 (Z.leb_gt _ _)) by lia.
Qed.
End Lost.

(** Any number of sessions on one worker. *)
Lemma overbooked limits queue n :
  0 < limits queue ->
  exists f, rtc (host_step queue) (idle_fleet limits) f /\ on_host queue (held f) = Z.of_nat n.
Proof.
  intros Hlimit.
  assert (Hn : exists f, rtc (host_step queue) (idle_fleet limits) f /\
                         counting limits queue 0 (replicate n queue) f).
  { induction n as [|n (f & Hr & Hf)]; [by exists (idle_fleet limits)|].
    destruct (completed_twice limits queue Hlimit _ _ Hf) as (f' & Hr' & Hf').
    exists f'. split; [by etrans|done]. }
  destruct Hn as (f & Hr & _ & _ & Hh & _). exists f. split; [done|]. rewrite Hh.
  clear. induction n as [|n IH]; [done|]. simpl. rewrite on_host_cons, decide_True, IH by done. lia.
Qed.

(** A worker full of sessions nobody holds. *)
Lemma exhausted limits queue :
  0 < limits queue ->
  exists f, rtc (host_step queue) (idle_fleet limits) f /\ counting limits queue (limits queue) [] f.
Proof.
  intros Hlimit.
  destruct (created_unheard limits queue Hlimit (Z.to_nat (limits queue)) (idle_fleet limits) 0)
    as (f & Hr & Hf); [done|lia|].
  exists f. split; [done|]. by replace (0 + Z.of_nat (Z.to_nat (limits queue))) with (limits queue) in Hf by lia.
Qed.

Lemma full_refuses limits queue : 0 < limits queue ->
  exists e, create_session (limits queue) queue (limits queue) = (limits queue, inl e).
Proof.
  intros Hlimit. unfold create_session. rewrite (proj2 (Z.ltb_lt _ _) Hlimit).
  rewrite (proj2 (Z.leb_le _ _)) by lia. by eexists.
Qed.

(** Lost answers break the count, in both directions.  A completion that is
    delivered again gives back a slot that is not its own, so a worker with a limit can
    host any number of sessions at once; a creation whose answer is lost keeps a slot
    for nobody, and when it happened [limit] times the worker refuses every session
    although nobody holds one. *)
Theorem lost_answers_break_the_count (limits : string -> Z) (queue : string) :
  0 < limits queue ->
  (forall n, exists f, rtc any_step (idle_fleet limits) f /\ on_host queue (held f) = Z.of_nat n) /\
  exists f, rtc any_step (idle_fleet limits) f /\ held f = [] /\ completing f = [] /\
    exists e, create_session (caps f queue) queue (active_sessions f queue) =
              (active_sessions f queue, inl e).
Proof.
  intros Hlimit. split.
  - intros n. destruct (overbooked limits queue n Hlimit) as (f & Hr & Hn).
    exists f. split; [by eapply host_steps_any|done].
  - destruct (exhausted limits queue Hlimit) as (f & Hr & Hcaps & Hn & Hh & Hc).
    exists f. split; [by eapply host_steps_any|]. rewrite Hcaps, Hn. eauto using full_refuses.
Qed.

(** ** Where the activities go *)

Section Routing.
Context `{Codec} (env : Env).

(** The body's first call makes the engine send [cmd], and [rest] is left to run in the
    runner the call leaves. *)
Definition sends {R} (b : body R) (r : WorkflowRunner) (cmd : Command) (l : loc)
    (r1 : WorkflowRunner) (rest : body R) : Prop :=
  exists c k, b = Do c k /\ exists a, do_call env c r = (r1, Answer a) /\ k a = rest /\
    commands_ r1 = commands_ r ++ [cmd] /\ length (heap_ r1) = S l.

(** A runner that is past its history, so that a new operation is sent. *)
Definition past_history (r : WorkflowRunner) : Prop :=
  coro_done r = false /\ calm (outbound_chain_ r) /\ recorded (scan_ r) Act (next_id Act r) = false.

(** The future of an activity that returned. *)
Definition returned (r : WorkflowRunner) (l : loc) (ps : Payloads) : Prop :=
  f_ready (future r l) = true /\ f_failed (future r l) = false /\ f_result (future r l) = ps.

Lemma activity_sends {R R'} options type (k : Future R -> body R') r :
  past_history r ->
  exists header r1,
    sends (and_with (ExecuteActivity (R := R) (A := unit) options type tt) k) r
      (ScheduleActivityTask (next_id Act r) type (queue_or_default r (ao_task_queue options)) None
        header (opt_timeout (ao_schedule_to_close_timeout options))
        (opt_timeout (ao_schedule_to_start_timeout options))
        (opt_timeout (ao_start_to_close_timeout options)) (opt_timeout (ao_heartbeat_timeout options))
        (ToProtoRetryPolicy <$> ao_retry_policy options))
      (length (heap_ r)) r1 (k (mkFuture (length (heap_ r)))).
Proof.
  intros (Hd & Hcalm & Hrec).
  assert (Hs : exists hd, match outbound_chain_ r with
                          | Some o => out_ExecuteActivity o type options [] (wi_headers (info_ r))
                          | None => inr (wi_headers (info_ r)) end = inr hd).
  { destruct (outbound_chain_ r) as [o|]; [apply Hcalm|by eexists]. }
  destruct Hs as [hd Hhd].
  destruct (do_call_starts env (Workflow.ExecuteActivity options type []) r Act type _ eq_refl
    ltac:(simpl; rewrite Hhd; reflexivity) Hd Hrec) as (a & Ha & Hcall).
  injection Ha as <-. do 2 eexists. unfold sends. do 2 eexists. split; [reflexivity|].
  eexists. split; [exact Hcall|]. split_and!; [reflexivity..|].
  simpl. rewrite length_app. simpl. lia.
Qed.

(** C28: a session's activities go where they should.  [CreateSession] sends the creation
    activity to the workflow's own queue, bounded by the creation timeout; when it
    returns the queue of the worker that took it, as that worker encodes it, the session
    is that queue.  [CompleteSession] sends the completion activity to that queue, and
    returns however the activity ends; the session that has none is not completed. *)
Theorem session_activities_routed `{!CodecLaws _} options queue p (r r' : WorkflowRunner) :
  past_history r -> ToPayload_string queue = inr p -> queue <> "" ->
  (exists header r1 rest,
     sends (CreateSession options) r
       (ScheduleActivityTask (next_id Act r) kSessionCreationActivityType (wi_task_queue (info_ r)) None
          header (opt_timeout (creation_timeout options)) None (opt_timeout (creation_timeout options))
          None None) (length (heap_ r)) r1 rest /\
     (returned r' (length (heap_ r)) [p] -> finishes env rest r' r' (mkSessionInfo queue queue))) /\
  (exists header r1 rest,
     sends (CompleteSession (mkSessionInfo queue queue)) r
       (ScheduleActivityTask (next_id Act r) kSessionCompletionActivityType queue None header None None
          (opt_timeout 10000) None None) (length (heap_ r)) r1 rest /\
     (f_ready (future r' (length (heap_ r))) = true -> finishes env rest r' r' tt)) /\
  finishes env (CompleteSession (mkSessionInfo "" "")) r r tt.
Proof.
  intros Hpast Hp Hq. split_and!.
  - destruct (activity_sends (creation_options options) kSessionCreationActivityType
      (fun f : Future string => and_with (Get f) (fun queue => Ret (mkSessionInfo queue queue))) r Hpast)
      as (header & r1 & Hs).
    do 3 eexists. split; [exact Hs|]. intros (Hrdy & Hok & Hres).
    eapply finishes_do.
    { simpl. unfold future_get. rewrite Hrdy, Hok, Hres. reflexivity. }
    simpl. rewrite (codec_string _ _ Hp). apply finishes_ret.
  - destruct (activity_sends (completion_options queue) kSessionCompletionActivityType
      (Get (R := unit)) r Hpast) as (header & r1 & c & k & Hb & a & Hcall & Hk & Hcmd & Hlen).
    exists header, r1, (swallow (k a)). split.
    + unfold CompleteSession. simpl task_queue. rewrite (proj2 (str_empty_false _) Hq), Hb.
      do 2 eexists. split; [reflexivity|]. eexists. split; [exact Hcall|]. split_and!; [done| |done].
      rewrite Hcmd. unfold queue_or_default. simpl. by rewrite (proj2 (str_empty_false _) Hq).
    + intros Hrdy. rewrite Hk. simpl. destruct (f_failed (future r' (length (heap_ r)))) eqn:Hfail.
      * eapply finishes_do; [simpl; unfold future_get; rewrite Hrdy, Hfail; reflexivity|].
        apply finishes_ret.
      * eapply finishes_do; [simpl; unfold future_get; rewrite Hrdy, Hfail; reflexivity|].
        apply finishes_ret.
  - apply finishes_ret.
Qed.
End Routing.

(** ** Closed instances *)

Definition one_slot (_ : string) : Z := 1.

(** A session is opened on a worker with one slot. *)
Lemma acknowledged_sessions_exact_witness :
  exists f, held f = ["host-1"] /\
    active_sessions f "host-1" = 1 /\ (0 < one_slot "host-1" -> on_host "host-1" (held f) <= 1).
Proof.
  set (f := {| caps := one_slot; active_sessions := active_sessions (set_active "host-1" 1 (idle_fleet one_slot));
               held := ["host-1"]; completing := [] |}).
  exists f. split; [reflexivity|].
  apply (acknowledged_sessions_exact one_slot f "host-1").
  eapply rtc_l; [apply (step_create true "host-1" 1); reflexivity|apply rtc_refl].
Defined.

(** Three sessions on a worker with one slot. *)
Lemma lost_answers_break_the_count_witness :
  exists f, rtc any_step (idle_fleet one_slot) f /\ on_host "host-1" (held f) = 3.
Proof.
  exact (proj1 (lost_answers_break_the_count one_slot "host-1" ltac:(reflexivity)) 3%nat).
Defined.

Definition session_runner : WorkflowRunner :=
  entered ref_env ref_info false one_activity (ScanHistory [started]).

(** The greeting stands for the queue the worker answered with. *)
Lemma session_activities_routed_witness :
  exists header r1 rest,
    sends ref_env (CreateSession default_session_options) session_runner
      (ScheduleActivityTask "0" kSessionCreationActivityType "q" None header
         (Some (Proto.mkDuration 30 0)) None (Some (Proto.mkDuration 30 0)) None None) 0 r1 rest /\
    finishes ref_env rest greeting_runner greeting_runner (mkSessionInfo "hi" "hi").
Proof.
  destruct (session_activities_routed ref_env default_session_options "hi" (bytes "hi") session_runner
    greeting_runner) as ((header & r1 & rest & Hs & Hf) & _).
  - split_and!; [reflexivity| |reflexivity]. intros type options input header. by eexists.
  - reflexivity.
  - discriminate.
  - exists header, r1, rest. split; [exact Hs|]. apply Hf. split_and!; vm_compute; reflexivity.
Defined.
