(* ===== verification/Coroutine.v ===== *)
(** * The stackful coroutine

    [class Coroutine] ([src/src/internal/coroutine.{h,cpp}]): a body on its own
    thread and a controller, alternating through one mutex and one condition
    variable.  The two threads are a transition system: a step is one critical
    section, one wake-up from the condition variable, or one stretch of the body. *)

From S2P Require Import Prelude Common.

Inductive Turn := TurnController | TurnCoroutine.

#[export] Instance Turn_eq_dec : EqDecision Turn.
Proof. solve_decision. Defined.

(** What a stretch of the body comes to: it has more to run; it calls [Yield], which
    returns, or throws [CoroutineAbort] when the coroutine is being torn down; or it
    ends, with the exception it let escape other than the abort. *)
Inductive act (B : Type) :=
| Continue (rest : B)
| Yields (on_resume on_abort : B)
| Ends (error : option exn).
Arguments Continue {B}.
Arguments Yields {B}.
Arguments Ends {B}.

(** Where the coroutine's thread is. *)
Inductive co_pc (B : Type) :=
| WaitFirstTurn                         (* [RunBody], before the body *)
| Running (b : B)                       (* in the body, no lock held *)
| WaitTurn (on_resume on_abort : B)     (* in [Yield] *)
| Exited.                               (* [RunBody] has returned *)
Arguments WaitFirstTurn {B}.
Arguments Running {B}.
Arguments WaitTurn {B}.
Arguments Exited {B}.

(** Where the controller is.  [InResume timed]: in [Resume] or [ResumeFor]. *)
Inductive ctl_pc :=
| Idle
| InResume (timed : bool)
| InDestructor
| Joining
| Destroyed.

(** The fields of the class, the two threads, and what body and controller share. *)
Record state (S B : Type) := mkState {
  turn_ : Turn;
  done_ : bool;
  abort_ : bool;
  abandoned_ : bool;
  error_ : option exn;
  co : co_pc B;
  ctl : ctl_pc;
  shared : S;
  (** a [ResumeFor] gave up while the body was running *)
  overran : bool
}.
Arguments mkState {S B}.
Arguments turn_ {S B}.
Arguments done_ {S B}.
Arguments abort_ {S B}.
Arguments abandoned_ {S B}.
Arguments error_ {S B}.
Arguments co {S B}.
Arguments ctl {S B}.
Arguments shared {S B}.
Arguments overran {S B}.

#[export] Instance state_eta {S B} : Eta (state S B) := fun s =>
  {| turn_ := turn_ s; done_ := done_ s; abort_ := abort_ s; abandoned_ := abandoned_ s;
     error_ := error_ s; co := co s; ctl := ctl s; shared := shared s; overran := overran s |}.

(** The constructor starts the thread. *)
Definition make {S B} (sh : S) : state S B :=
  {| turn_ := TurnController; done_ := false; abort_ := false; abandoned_ := false;
     error_ := None; co := WaitFirstTurn; ctl := Idle; shared := sh; overran := false |}.

(** The end of [RunBody]. *)
Definition finish {S B} (error : option exn) (s : state S B) : state S B :=
  s <| error_ := error |> <| done_ := true |> <| turn_ := TurnController |> <| co := Exited |>.

(** What [RethrowIfError] rethrows. *)
Definition RethrowIfError {S B} (s : state S B) : result unit :=
  match error_ s with Some e => inl e | None => inr tt end.

Section Threads.
(** The body: how it is entered and what one stretch of it does (nothing, when that is
    undefined); what the controller may do to the shared state between two calls; and the
    shared states it makes a coroutine in. *)
Context {S B : Type} (entry : S -> S * B) (stretch : B -> S -> option (S * act B)) (uses : S -> S -> Prop)
        (initial : S -> Prop).

(** ** Steps *)

Inductive co_step (s : state S B) : state S B -> Prop :=
| co_start sh b : co s = WaitFirstTurn -> turn_ s = TurnCoroutine -> abort_ s = false ->
    entry (shared s) = (sh, b) ->
    co_step s (s <| shared := sh |> <| co := Running b |>)
| co_start_aborted : co s = WaitFirstTurn -> turn_ s = TurnCoroutine -> abort_ s = true ->
    co_step s (finish None s)
| co_run b sh b' : co s = Running b -> stretch b (shared s) = Some (sh, Continue b') ->
    co_step s (s <| shared := sh |> <| co := Running b' |>)
| co_yield b sh r a : co s = Running b -> stretch b (shared s) = Some (sh, Yields r a) ->
    co_step s (s <| shared := sh |> <| turn_ := TurnController |> <| co := WaitTurn r a |>)
| co_resumed r a : co s = WaitTurn r a -> turn_ s = TurnCoroutine -> abort_ s = false ->
    co_step s (s <| co := Running r |>)
| co_aborted r a : co s = WaitTurn r a -> turn_ s = TurnCoroutine -> abort_ s = true ->
    co_step s (s <| co := Running a |>)
| co_end b sh error : co s = Running b -> stretch b (shared s) = Some (sh, Ends error) ->
    co_step s (finish error (s <| shared := sh |>)).

Inductive ctl_step (s : state S B) : state S B -> Prop :=
| ctl_use sh : ctl s = Idle -> uses (shared s) sh -> ctl_step s (s <| shared := sh |>)
| ctl_resume timed : ctl s = Idle -> done_ s = false ->
    ctl_step s (s <| turn_ := TurnCoroutine |> <| ctl := InResume timed |>)
| ctl_resume_done : ctl s = Idle -> done_ s = true -> ctl_step s s
| ctl_resumed timed : ctl s = InResume timed -> turn_ s = TurnController ->
    ctl_step s (s <| ctl := Idle |>)
| ctl_timeout : ctl s = InResume true -> turn_ s = TurnCoroutine ->
    ctl_step s (s <| ctl := Idle |> <| overran := true |>)
| ctl_abandon : ctl s = Idle -> ctl_step s (s <| abandoned_ := true |>)
| ctl_destroy_abandoned : ctl s = Idle -> abandoned_ s = true ->
    ctl_step s (s <| ctl := Destroyed |>)
| ctl_destroy_live : ctl s = Idle -> abandoned_ s = false -> done_ s = false ->
    ctl_step s (s <| abort_ := true |> <| turn_ := TurnCoroutine |> <| ctl := InDestructor |>)
| ctl_destroy_done : ctl s = Idle -> abandoned_ s = false -> done_ s = true ->
    ctl_step s (s <| ctl := Joining |>)
| ctl_unwound : ctl s = InDestructor -> turn_ s = TurnController -> ctl_step s (s <| ctl := Joining |>)
| ctl_joined : ctl s = Joining -> co s = Exited -> ctl_step s (s <| ctl := Destroyed |>).

Definition step (s s' : state S B) : Prop := co_step s s' \/ ctl_step s s'.

Definition reachable (s : state S B) : Prop := exists sh, initial sh /\ rtc step (make sh) s.

(** ** Invariant *)

Definition exited (c : co_pc B) : bool := match c with Exited => true | _ => false end.

(** Who may act, by where the two threads are; [abort] is set exactly from the
    destructor on. *)
Definition turn_ok (s : state S B) : Prop :=
  match ctl s, co s with
  | Idle, Running _ => False
  | Idle, _ => turn_ s = TurnController /\ abort_ s = false
  | InResume _, (WaitFirstTurn | Running _) => turn_ s = TurnCoroutine /\ abort_ s = false
  | InResume _, WaitTurn _ _ => abort_ s = false
  | InResume _, Exited => turn_ s = TurnController /\ abort_ s = false
  | InDestructor, (WaitFirstTurn | Running _) => turn_ s = TurnCoroutine /\ abort_ s = true
  | InDestructor, WaitTurn _ _ => abort_ s = true
  | InDestructor, Exited => turn_ s = TurnController /\ abort_ s = true
  | Joining, WaitTurn _ _ => turn_ s = TurnController /\ abort_ s = true
  | Joining, Exited => True
  | Joining, _ => False
  | Destroyed, Running _ => False
  | Destroyed, (WaitFirstTurn | WaitTurn _ _) => turn_ s = TurnController
  | Destroyed, Exited => True
  end.

Record inv (s : state S B) : Prop := {
  inv_done : done_ s = exited (co s);
  inv_turn : overran s = false -> turn_ok s
}.

Lemma inv_make sh : inv (make sh).
Proof. by split. Qed.

Ltac inv_crush :=
  split; unfold turn_ok in *; simpl in *; subst; simpl in *;
  repeat match goal with
         | k : ctl_pc |- _ => destruct k
         | c : co_pc B |- _ => destruct c
         end; simpl in *; try done; try discriminate; intuition congruence.

Lemma inv_co_step s s' : inv s -> co_step s s' -> inv s'.
Proof. clear uses initial.
  destruct s as [t d a ab e c k sh o]. intros [Hd Ht] Hs. destruct Hs; inv_crush.
Qed.

Lemma inv_ctl_step s s' : inv s -> ctl_step s s' -> inv s'.
Proof. clear entry stretch initial.
  destruct s as [t d a ab e c k sh o]. intros [Hd Ht] Hs. destruct Hs; inv_crush.
Qed.

Lemma inv_steps s s' : rtc step s s' -> inv s -> inv s'.
Proof. clear initial. induction 1 as [|s1 s2 s3 [Hs|Hs] _ IH]; eauto using inv_co_step, inv_ctl_step. Qed.

Lemma inv_reachable s : reachable s -> inv s.
Proof. intros (sh & _ & H). by eapply inv_steps, inv_make. Qed.

Lemma reachable_step s s' : reachable s -> step s s' -> reachable s'.
Proof. intros (sh & Hi & H) Hs. exists sh. split; [done|by eapply rtc_r]. Qed.

Lemma reachable_co_steps s s' : reachable s -> rtc co_step s s' -> reachable s'.
Proof. intros Hr. induction 1 as [|s1 s2 s3 Hs _ IH]; [done|]. apply IH. eapply reachable_step; [done|by left]. Qed.

(** ** The body runs to its next suspension *)

(** Steps of the coroutine's thread are deterministic and leave the controller
    alone. *)
Lemma co_step_det s s1 s2 : co_step s s1 -> co_step s s2 -> s1 = s2.
Proof. intros H1 H2. destruct H1; destruct H2; simplify_eq/=; congruence. Qed.

Lemma co_step_ctl s s' :
  co_step s s' -> ctl s' = ctl s /\ abort_ s' = abort_ s /\ overran s' = overran s.
Proof. by destruct 1. Qed.

Lemma co_steps_ctl s s' :
  rtc co_step s s' -> ctl s' = ctl s /\ abort_ s' = abort_ s /\ overran s' = overran s.
Proof.
  induction 1 as [|s1 s2 s3 Hs _ (IH1 & IH2 & IH3)]; [done|].
  destruct (co_step_ctl _ _ Hs) as (H1 & H2 & H3). by rewrite IH1, IH2, IH3.
Qed.

(** What a body comes to from a shared state: its next [Yield], or its end. *)
Inductive stops : B -> S -> S -> act B -> Prop :=
| stops_yield b sh sh' r a : stretch b sh = Some (sh', Yields r a) -> stops b sh sh' (Yields r a)
| stops_end b sh sh' e : stretch b sh = Some (sh', Ends e) -> stops b sh sh' (Ends e)
| stops_run b sh sh1 b1 sh' x : stretch b sh = Some (sh1, Continue b1) -> stops b1 sh1 sh' x -> stops b sh sh' x.

Lemma stops_final b sh sh' x : stops b sh sh' x -> match x with Continue _ => False | _ => True end.
Proof. by induction 1. Qed.

(** The thread of a body that came to [x] with the shared state [sh']. *)
Definition stopped (s : state S B) (sh' : S) (x : act B) : state S B :=
  match x with
  | Yields r a => s <| shared := sh' |> <| turn_ := TurnController |> <| co := WaitTurn r a |>
  | Ends e => finish e (s <| shared := sh' |>)
  | Continue b => s <| shared := sh' |> <| co := Running b |>
  end.

Lemma stops_steps b sh sh' x : stops b sh sh' x -> forall s, co s = Running b -> shared s = sh ->
  rtc co_step s (stopped s sh' x).
Proof.
  induction 1 as [b sh sh' r a Hs|b sh sh' e Hs|b sh sh1 b1 sh' x Hs Hx IH]; intros s Hc Hsh; subst sh.
  - apply rtc_once. by eapply co_yield.
  - apply rtc_once. by eapply co_end.
  - eapply rtc_l; [by eapply co_run|].
    specialize (IH (s <| shared := sh1 |> <| co := Running b1 |>) eq_refl eq_refl).
    by destruct Hx.
Qed.

Lemma stopped_turn s b sh sh' x :
  stops b sh sh' x -> turn_ (stopped s sh' x) = TurnController /\ ctl (stopped s sh' x) = ctl s.
Proof. induction 1; [done|done|]. by destruct x. Qed.

(** Every body the thread gets to run stops: no stretch of it is undefined, and it
    does not run on forever. *)
Definition stops_always : Prop := forall s b,
  reachable s -> overran s = false -> co s = Running b -> exists sh' x, stops b (shared s) sh' x.

Lemma running_stops s b :
  stops_always -> reachable s -> overran s = false -> co s = Running b ->
  exists s', rtc co_step s s' /\ turn_ s' = TurnController /\ ctl s' = ctl s.
Proof.
  intros Hall Hr Ho Hc. destruct (Hall s b Hr Ho Hc) as (sh' & x & Hx).
  exists (stopped s sh' x). split; [by eapply stops_steps|by eapply stopped_turn].
Qed.

(** Given the turn, a coroutine that has not exited comes back with it handed over. *)
Lemma turn_comes_back s :
  stops_always -> reachable s -> overran s = false ->
  turn_ s = TurnCoroutine -> co s <> Exited ->
  exists s', rtc co_step s s' /\ turn_ s' = TurnController /\ ctl s' = ctl s.
Proof.
  intros Hall Hr Ho Ht Hco.
  assert (Hrun : forall b s1, co_step s s1 -> co s1 = Running b ->
    exists s', rtc co_step s s' /\ turn_ s' = TurnController /\ ctl s' = ctl s).
  { intros b s1 H1 Hb. destruct (co_step_ctl _ _ H1) as (Hc1 & _ & Ho1).
    destruct (running_stops s1 b Hall) as (s' & Hr' & Ht' & Hc); [|congruence|done|].
    - eapply reachable_step; [done|by left].
    - exists s'. split_and!; [|done|congruence]. by eapply rtc_l. }
  destruct (co s) as [|b|r a|] eqn:Hc; [| | |done].
  - destruct (abort_ s) eqn:Ha.
    + eexists. split; [apply rtc_once; by apply co_start_aborted|done].
    + destruct (entry (shared s)) as [sh b] eqn:He. by eapply (Hrun b); [by eapply co_start|].
  - by eapply running_stops.
  - destruct (abort_ s) eqn:Ha.
    + by eapply (Hrun a); [by eapply co_aborted|].
    + by eapply (Hrun r); [by eapply co_resumed|].
Qed.

(** ** The controller waits *)

Definition waits (k : ctl_pc) : bool :=
  match k with InResume _ | InDestructor | Joining => true | _ => false end.

(** A step of either thread while the controller is inside a call, no timeout. *)
Definition during (s s' : state S B) : Prop :=
  step s s' /\ waits (ctl s) = true /\ overran s' = false.

Lemma during_reachable s s' : reachable s -> rtc during s s' -> reachable s'.
Proof. intros Hr. induction 1 as [|s1 s2 s3 (Hs & _) _ IH]; [done|]. apply IH. by eapply reachable_step. Qed.

Lemma during_overran s s' : rtc during s s' -> overran s = false -> overran s' = false.
Proof. by induction 1 as [|s1 s2 s3 (_ & _ & Ho) _ IH]; auto. Qed.

Lemma during_step s s' : rtc during s s' -> rtc step s s'.
Proof. apply rtc_subrel. by intros x y (Hs & _). Qed.

Lemma co_during s s' :
  rtc co_step s s' -> waits (ctl s) = true -> overran s = false -> rtc during s s'.
Proof.
  induction 1 as [|s1 s2 s3 Hs _ IH]; intros Hw Ho; [done|].
  destruct (co_step_ctl _ _ Hs) as (Hc & _ & Ho'). eapply rtc_l; [|apply IH; congruence].
  split; [by left|]. split; congruence.
Qed.

(** When it is the controller's turn to move the coroutine's thread cannot, and the
    other way round. *)
Lemma during_det s s1 s2 :
  reachable s -> overran s = false -> during s s1 -> during s s2 -> s1 = s2.
Proof.
  intros Hr Ho (H1 & Hw & Ho1) (H2 & _ & Ho2).
  destruct (inv_reachable s Hr) as [_ Ht]. specialize (Ht Ho). unfold turn_ok in Ht.
  destruct H1 as [H1|H1], H2 as [H2|H2]; [by eapply co_step_det| | |];
    destruct H1; destruct H2; simplify_eq/=;
    repeat match goal with H : ctl s = _ |- _ => rewrite H in Ht, Hw end;
    repeat match goal with H : co s = _ |- _ => rewrite H in Ht end;
    simpl in *; try done; try congruence; intuition congruence.
Qed.

(** So a call has one outcome. *)
Lemma during_unique s t1 t2 :
  reachable s -> overran s = false ->
  rtc during s t1 -> rtc during s t2 -> nf during t1 -> nf during t2 -> t1 = t2.
Proof.
  intros Hr Ho H1. revert Hr Ho t2. induction H1 as [s|s s1 t1 Hs _ IH]; intros Hr Ho t2 H2 Hn1 Hn2.
  - inversion H2 as [|? y ? Hy]; subst; [done|]. destruct Hn1. by eexists.
  - inversion H2 as [|? y ? Hy Hrest]; subst; [destruct Hn2; by eexists|].
    assert (s1 = y) as -> by by eapply during_det.
    destruct Hs as (Hs & _ & Ho1). apply IH; try done. by eapply reachable_step.
Qed.

Lemma not_waiting_nf s : waits (ctl s) = false -> nf during s.
Proof. intros Hw (s' & _ & Hw' & _). congruence. Qed.

(** ** Properties *)

(** C24: strict alternation: in every reachable state, as long as no [ResumeFor] has
    given up, the body's code runs only while the controller is inside [Resume] or the
    destructor, and has the turn then; nothing the controller can do touches the state
    they share, so no access of it is concurrent with another. *)
Theorem body_and_controller_alternate (s : state S B) (b : B) :
  reachable s -> overran s = false -> co s = Running b ->
  turn_ s = TurnCoroutine /\
  match ctl s with InResume _ | InDestructor => True | _ => False end /\
  forall s', ctl_step s s' -> shared s' = shared s /\ co s' = co s.
Proof.
  intros Hr Ho Hc. destruct (inv_reachable s Hr) as [_ Ht]. specialize (Ht Ho).
  unfold turn_ok in Ht. rewrite Hc in Ht.
  assert (Hk : ctl s <> Idle) by (intros Hk; by rewrite Hk in Ht).
  split_and!; [by destruct (ctl s); try done; destruct Ht|by destruct (ctl s)|].
  by destruct 1.
Qed.

(** No lost wake-up: from every reachable state in which the controller waits in
    [Resume], it returns, provided the body stops running at all. *)
Theorem Resume_returns (timed : bool) (s : state S B) :
  stops_always -> reachable s -> overran s = false -> ctl s = InResume timed ->
  exists t, rtc during s t /\ ctl t = Idle.
Proof.
  intros Hall Hr Ho Hk. destruct (inv_reachable s Hr) as [_ Ht]. specialize (Ht Ho).
  assert (Hend : forall s1, rtc co_step s s1 -> turn_ s1 = TurnController -> ctl s1 = ctl s ->
    exists t, rtc during s t /\ ctl t = Idle).
  { intros s1 H1 Ht1 Hk1. exists (s1 <| ctl := Idle |>). split; [|done].
    eapply rtc_r; [apply co_during; [exact H1|by rewrite Hk|done]|].
    destruct (co_steps_ctl _ _ H1) as (_ & _ & Ho1).
    split_and!; [right; apply (ctl_resumed _ timed); congruence|by rewrite Hk1, Hk|exact (eq_trans Ho1 Ho)]. }
  destruct (turn_ s) eqn:Hturn; [by eapply Hend|].
  destruct (turn_comes_back s Hall Hr Ho Hturn) as (s1 & H1 & Ht1 & Hk1); [|by eapply Hend].
  unfold turn_ok in Ht. rewrite Hk in Ht. destruct (co s); try done. destruct Ht; congruence.
Qed.

(** Where a resume takes the body up: at its entry, or behind its [Yield]. *)
Definition resumed_at (s : state S B) : option (S * B) :=
  match co s with
  | WaitFirstTurn => Some (entry (shared s))
  | WaitTurn r _ => Some (shared s, r)
  | _ => None
  end.

Definition in_resume (timed : bool) (s : state S B) : state S B :=
  s <| turn_ := TurnCoroutine |> <| ctl := InResume timed |>.

(** A resume is one call: when the body, taken up where it was left, comes to [x] with
    the shared state [sh'], then [Resume], and a [ResumeFor] that does not time out,
    returns, and whichever way the two threads interleave, it leaves the body at [x] and
    that shared state. *)
Lemma Resume_is_one_call (s : state S B) (timed : bool) (sh sh' : S) (b : B) (x : act B) :
  reachable s -> overran s = false -> ctl s = Idle -> resumed_at s = Some (sh, b) ->
  stops b sh sh' x ->
  rtc during (in_resume timed s) (stopped s sh' x) /\
  forall t, rtc during (in_resume timed s) t -> ctl t = Idle -> t = stopped s sh' x.
Proof.
  intros Hr Ho Hk Hat Hx. destruct (inv_reachable s Hr) as [Hd Ht]. specialize (Ht Ho).
  unfold turn_ok in Ht. rewrite Hk in Ht. unfold resumed_at in Hat.
  assert (Hnd : done_ s = false) by (rewrite Hd; by destruct (co s)).
  assert (Hs0 : step s (in_resume timed s)) by (right; by apply ctl_resume).
  assert (Hr0 : reachable (in_resume timed s)) by by eapply reachable_step.
  set (s1 := in_resume timed s <| shared := sh |> <| co := Running b |>).
  assert (Ha : abort_ s = false) by (by destruct (co s) as [| | |]; [destruct Ht..]).
  assert (H1 : co_step (in_resume timed s) s1).
  { destruct (co s) as [|b0|r a|] eqn:Hc; try done; injection Hat as Hat.
    - by apply (co_start (in_resume timed s) sh b).
    - subst sh r. pose proof (co_resumed (in_resume timed s) b a Hc eq_refl Ha) as H1.
      by destruct s. }
  destruct (stopped_turn s1 b sh sh' x Hx) as [Htn Hkn].
  assert (Hrun : rtc during (in_resume timed s) (stopped s sh' x)).
  { assert (Hstop : rtc co_step (in_resume timed s) (stopped s1 sh' x))
      by (eapply rtc_l; [exact H1|by eapply stops_steps]).
    destruct (co_steps_ctl _ _ Hstop) as (_ & _ & Ho1).
    eapply rtc_r; [by apply co_during|].
    replace (stopped s sh' x) with ((stopped s1 sh' x) <| ctl := Idle |>).
    - split_and!; [right; apply (ctl_resumed _ timed); [by rewrite Hkn|done]|by rewrite Hkn|exact (eq_trans Ho1 Ho)].
    - apply stops_final in Hx. clear -Hx Hk. destruct s, x; simpl in *; by subst. }
  split; [done|]. intros t Ht' Hkt. eapply during_unique; [exact Hr0|done|done|done|..];
    apply not_waiting_nf; [by rewrite Hkt|]. destruct (stopped_turn s b sh sh' x Hx) as [_ ->]. by rewrite Hk.
Qed.
(** The destructor's first critical section. *)
Definition destroying (s : state S B) : state S B :=
  if done_ s then s <| ctl := Joining |>
  else s <| abort_ := true |> <| turn_ := TurnCoroutine |> <| ctl := InDestructor |>.

Lemma destroying_step s : ctl s = Idle -> abandoned_ s = false -> step s (destroying s).
Proof.
  intros Hk Ha. right. unfold destroying. destruct (done_ s) eqn:Hd.
  - by apply ctl_destroy_done.
  - by apply ctl_destroy_live.
Qed.

Lemma stops_det b sh sh1 x1 sh2 x2 : stops b sh sh1 x1 -> stops b sh sh2 x2 -> x1 = x2 /\ sh1 = sh2.
Proof.
  intros H1. revert sh2 x2.
  induction H1 as [b sh sh1 r a H1|b sh sh1 e H1|b sh sh0 b0 sh1 x1 H1 _ IH]; intros sh2 x2 H2;
    inversion H2; subst; try congruence; try (split; congruence).
  apply IH. by simplify_eq.
Qed.

(** The abort unwinds the body: it ends instead of yielding again. *)
Definition unwinds (s : state S B) : Prop :=
  match co s with WaitTurn _ a => exists sh' e, stops a (shared s) sh' (Ends e) | _ => True end.

(** Where the destructor is once the coroutine has given the turn back. *)
Lemma joins s : inv s -> overran s = false -> ctl s = Joining \/ (ctl s = InDestructor /\ turn_ s = TurnController) ->
  exists t, rtc during s t /\ nf during t /\ co t = co s /\
    ctl t = (if exited (co s) then Destroyed else Joining).
Proof.
  intros [Hd Ht] Ho Hk.
  assert (Hj : forall s, inv s -> overran s = false -> ctl s = Joining ->
    exists t, rtc during s t /\ nf during t /\ co t = co s /\
      ctl t = (if exited (co s) then Destroyed else Joining)).
  { clear s Hd Ht Ho Hk. intros s [Hd Ht] Ho Hk. specialize (Ht Ho). unfold turn_ok in Ht. rewrite Hk in Ht.
    destruct (co s) as [|b|r a|] eqn:Hc; try done.
    - exists s. split_and!; [done| |done|done]. intros (s' & [Hs|Hs] & _); destruct Hs; simplify_eq/=;
        destruct Ht; congruence.
    - exists (s <| ctl := Destroyed |>). split_and!; [|by apply not_waiting_nf|done|done].
      apply rtc_once. split_and!; [right; by apply ctl_joined|by rewrite Hk|done]. }
  destruct Hk as [Hk|[Hk Htn]]; [by apply Hj|].
  assert (Hs : during s (s <| ctl := Joining |>)).
  { split_and!; [right; by apply ctl_unwound|by rewrite Hk|done]. }
  destruct (Hj (s <| ctl := Joining |>)) as (t & Hr & Hn & Hc & Hkt); [|done|done|].
  - destruct Hs as ([Hs|Hs] & _); [by eapply inv_co_step|by eapply inv_ctl_step].
  - exists t. split_and!; [by eapply rtc_l|done|done|done].
Qed.

Lemma teardown s :
  reachable s -> overran s = false -> ctl s = Idle -> abandoned_ s = false ->
  (forall r a, co s = WaitTurn r a -> exists sh' x, stops a (shared s) sh' x) ->
  exists t, rtc during (destroying s) t /\ nf during t /\
    (unwinds s -> ctl t = Destroyed) /\ (~ unwinds s -> ctl t = Joining).
Proof.
  intros Hr Ho Hk Hab Hstop.
  assert (Hr0 : reachable (destroying s)) by (eapply reachable_step; [done|by apply destroying_step]).
  assert (Hrun : forall s1, rtc co_step (destroying s) s1 -> waits (ctl (destroying s)) = true ->
      overran (destroying s) = false ->
      ctl s1 = Joining \/ (ctl s1 = InDestructor /\ turn_ s1 = TurnController) ->
      exists t, rtc during (destroying s) t /\ nf during t /\
        ctl t = (if exited (co s1) then Destroyed else Joining)).
  { intros s1 H1 Hw Ho0 Hj. destruct (co_steps_ctl _ _ H1) as (_ & _ & Ho1).
    destruct (joins s1) as (t & Ht & Hn & _ & Hkt); [|congruence|done|].
    - apply inv_reachable. by eapply reachable_co_steps.
    - exists t. split; [|done]. etrans; [by apply co_during|done]. }
  destruct (inv_reachable s Hr) as [Hd Ht]. specialize (Ht Ho). unfold turn_ok in Ht. rewrite Hk in Ht.
  unfold destroying, unwinds in *. rewrite Hd in *. destruct (co s) as [|b|r a|] eqn:Hc; try done; simpl in *.
  - destruct (Hrun (finish None (s <| abort_ := true |> <| turn_ := TurnCoroutine |> <| ctl := InDestructor |>)))
      as (t & H1 & Hn & Hkt); [|done|done|by right|].
    + apply rtc_once. by apply co_start_aborted.
    + exists t. by split_and!.
  - destruct (Hstop r a eq_refl) as (sh' & x & Hx).
    set (s1 := s <| abort_ := true |> <| turn_ := TurnCoroutine |> <| ctl := InDestructor |> <| co := Running a |>).
    destruct (stopped_turn s1 a _ _ _ Hx) as [Htn Hkn].
    destruct (Hrun (stopped s1 sh' x)) as (t & H1 & Hn & Hkt); [|done|done|by right|].
    + eapply rtc_l; [by eapply co_aborted|]. by eapply (stops_steps a).
    + exists t. split_and!; [done|done| |].
      * intros (sh2 & e & Hx2). destruct (stops_det _ _ _ _ _ _ Hx Hx2) as [-> _]. done.
      * intros Hnu. apply stops_final in Hx as Hf. destruct x; [done|done|]. destruct Hnu. by do 2 eexists.
  - destruct (Hrun (s <| ctl := Joining |>)) as (t & H1 & Hn & Hkt); [done|done|done|by left|].
    simpl in Hkt. rewrite Hc in Hkt. exists t. by split_and!.
Qed.

(** The destructor of a coroutine that was not abandoned comes to one end, whichever
    way the threads interleave: it returns, with the thread joined, when the abort unwinds
    the suspended body (or the body never started, or is over); when the body yields
    again instead, it waits in [join] for a thread that waits for a turn, forever. *)
Lemma destructor_outcome (s : state S B) :
  reachable s -> overran s = false -> ctl s = Idle -> abandoned_ s = false ->
  (forall r a, co s = WaitTurn r a -> exists sh' x, stops a (shared s) sh' x) ->
  exists t, rtc during (destroying s) t /\ nf during t /\
    (forall t', rtc during (destroying s) t' -> nf during t' -> t' = t) /\
    (unwinds s -> ctl t = Destroyed) /\
    (~ unwinds s -> ctl t = Joining /\ forall t', ~ step t t').
Proof.
  intros Hr Ho Hk Hab Hstop.
  assert (Hr0 : reachable (destroying s)) by (eapply reachable_step; [done|by apply destroying_step]).
  assert (Ho0 : overran (destroying s) = false) by (unfold destroying; by destruct (done_ s)).
  destruct (teardown s Hr Ho Hk Hab Hstop) as (t & H1 & Hn & Hu & Hnu).
  exists t. split_and!; [done|done| |done|].
  - intros t' H2 Hn'. by eapply during_unique.
  - intros H. split; [auto|]. intros t' Hs. apply Hn. exists t'. specialize (Hnu H).
    split_and!; [done|by rewrite Hnu|]. pose proof (during_overran _ _ H1 Ho0) as Ht.
    destruct Hs as [Hs|Hs]; [by destruct (co_step_ctl _ _ Hs) as (_ & _ & ->)|].
    destruct Hs; simpl; congruence.
Qed.
End Threads.

(** ** Closed instances *)

(** A body that is known in advance, and that counts its stretches. *)
Inductive script :=
| Over
| Then (rest : script)
| Wait (on_resume on_abort : script).

Definition enter (b0 : script) (n : nat) : nat * script := (n, b0).

Definition play (b : script) (n : nat) : option (nat * act script) :=
  Some (S n, match b with Over => Ends None | Then rest => Continue rest | Wait r a => Yields r a end).

Definition untouched (n n' : nat) : Prop := n = n'.

Definition zero (n : nat) : Prop := n = 0%nat.

Abbreviation scripted b0 := (reachable (enter b0) play untouched zero).
Abbreviation scripted_step b0 := (step (enter b0) play untouched).

Lemma script_stops b n : exists n' x, stops play b n n' x.
Proof.
  revert n. induction b as [|b IH|r _ a _]; intros n.
  - do 2 eexists. by apply stops_end.
  - destruct (IH (S n)) as (n' & x & Hx). do 2 eexists. by eapply stops_run.
  - do 2 eexists. by apply stops_yield.
Qed.

Lemma script_stops_always b0 : stops_always (enter b0) play untouched zero.
Proof. intros s b _ _ _. apply script_stops. Qed.

Definition one_yield : script := Then (Wait Over Over).

Definition waiting_first : state nat script := in_resume false (make 0%nat).

Lemma waiting_first_reachable : scripted one_yield waiting_first.
Proof. exists 0%nat. split; [done|]. apply rtc_once. right. by apply (ctl_resume _ (make 0%nat) false). Defined.

Lemma running_reachable : scripted one_yield (waiting_first <| co := Running one_yield |>).
Proof. eapply reachable_step; [exact waiting_first_reachable|]. left.
  by apply (co_start _ _ waiting_first 0%nat one_yield).
Defined.

(** Suspended at its [Yield], after two stretches. *)
Definition parked : state nat script := (make 2%nat) <| co := WaitTurn Over Over |>.

Lemma one_yield_stops : stops play one_yield 0%nat 2%nat (Yields Over Over).
Proof. eapply stops_run; [reflexivity|]. by apply stops_yield. Defined.

Lemma fresh_reachable : scripted one_yield (make 0%nat).
Proof. exists 0%nat. split; [reflexivity|apply rtc_refl]. Defined.

Lemma body_and_controller_alternate_witness :
  turn_ (waiting_first <| co := Running one_yield |>) = TurnCoroutine.
Proof.
  exact (proj1 (body_and_controller_alternate (enter one_yield) play untouched zero _ one_yield running_reachable
                  eq_refl eq_refl)).
Defined.

Lemma Resume_returns_witness :
  exists t, rtc (during (enter one_yield) play untouched) waiting_first t /\ ctl t = Idle.
Proof.
  exact (Resume_returns (enter one_yield) play untouched zero false waiting_first
           (script_stops_always one_yield) waiting_first_reachable eq_refl eq_refl).
Defined.

Lemma Resume_is_one_call_witness :
  rtc (during (enter one_yield) play untouched) waiting_first parked /\
  forall t, rtc (during (enter one_yield) play untouched) waiting_first t -> ctl t = Idle -> t = parked.
Proof.
  exact (Resume_is_one_call (enter one_yield) play untouched zero (make 0%nat) false 0%nat 2%nat one_yield _
           fresh_reachable eq_refl eq_refl eq_refl one_yield_stops).
Defined.

Lemma parked_reachable : scripted one_yield parked.
Proof.
  set (s1 := waiting_first <| co := Running one_yield |>).
  assert (Hs : rtc (co_step (enter one_yield) play) s1 (stopped s1 2%nat (Yields Over Over)))
    by exact (stops_steps _ _ _ _ _ _ one_yield_stops s1 eq_refl eq_refl).
  eapply reachable_step; [eapply reachable_co_steps; [exact running_reachable|exact Hs]|].
  right. exact (ctl_resumed untouched (stopped s1 2%nat (Yields Over Over)) false eq_refl eq_refl).
Defined.

Lemma destructor_outcome_witness :
  exists t, rtc (during (enter one_yield) play untouched) (destroying parked) t /\ ctl t = Destroyed.
Proof.
  destruct (destructor_outcome (enter one_yield) play untouched zero parked parked_reachable eq_refl eq_refl
    eq_refl) as (t & H1 & _ & _ & Hu & _).
  - intros r a _. apply script_stops.
  - exists t. split; [exact H1|]. apply Hu. exists 3%nat, None. by apply stops_end.
Defined.

(** A body whose first [Yield] is inside a [catch (...)] after which it yields again. *)
Definition swallows_abort : script := Wait Over (Wait Over Over).

(** A body that swallows the abort blocks its own teardown: there is a reachable
    state in which the destructor is joining the thread and neither thread can ever
    move again. *)
Theorem swallowed_abort_deadlocks :
  exists s, scripted swallows_abort s /\ ctl s = Joining /\ forall s', ~ scripted_step swallows_abort s s'.
Proof.
  set (s0 := in_resume false (make 0%nat) : state nat script).
  assert (Hw : scripted swallows_abort ((make 1%nat) <| co := WaitTurn Over (Wait Over Over) |>)).
  { exists 0%nat. split; [done|].
    eapply rtc_l; [right; by apply (ctl_resume _ (make 0%nat) false)|].
    eapply rtc_l; [left; by apply (co_start _ _ s0 0%nat swallows_abort)|].
    eapply rtc_l; [left; by eapply (co_yield _ _ (s0 <| co := Running swallows_abort |>))|].
    eapply rtc_l; [right; by eapply (ctl_resumed _ _ false)|]. apply rtc_refl. }
  destruct (destructor_outcome _ _ _ _ _ Hw eq_refl eq_refl eq_refl) as (t & H1 & _ & _ & _ & Hnu).
  { intros r a _. apply script_stops. }
  destruct Hnu as [Hk Hstuck].
  { intros (n & e & Hs). inversion Hs as [|? ? ? ? Hp|? ? ? ? ? ? Hp]; simplify_eq/=; discriminate. }
  exists t. split_and!; [|done|exact Hstuck]. eapply during_reachable; [|exact H1].
  eapply reachable_step; [exact Hw|]. by apply destroying_step.
Qed.
