(* ===== verification/Threads.v ===== *)
(** * A workflow on its thread

    [WorkflowRunner] runs its body on a [Coroutine] and sees a resume as one call
    ([Runner.ResumeCoroutine]).  Here the workflow function is the body of the two threads
    of [Coroutine], and the runner is the state they share: a resume is that call,
    whichever way the threads interleave; and what tearing a suspended workflow down
    comes to depends on what its body does with the abort. *)

From S2P Require Import Prelude Common Effects Determinism History Workflow Interceptors Runner.
From S2P Require Import RunnerFacts Reference ReplaySpec Typed Sessions Coroutine.

Section Threads.
Context `{Codec} (env : Env).

(** [Yield] throws out of the call that waits. *)
Definition on_abort (p : prog) : prog :=
  match p with Call c k => k (inl CoroutineAbort) | p => p end.

(** What the body let escape ([Coroutine::error_]). *)
Definition escaped (r : WorkflowRunner) : option exn :=
  match coroutine_ r with CoroDone e => e | _ => None end.

Definition ended (r : WorkflowRunner) : option (WorkflowRunner * act prog) := Some (r, Ends (escaped r)).

Lemma ended_inv r r' x : ended r = Some (r', x) -> r' = r /\ x = Ends (escaped r).
Proof. unfold ended. intros Hs. by injection Hs as <- <-. Qed.

(** One stretch of the body: up to and including its next call.  The field [coroutine_]
    says where the body is; the runner's own code never reads it while the body runs. *)
Definition stretch (p : prog) (r : WorkflowRunner) : option (WorkflowRunner * act prog) :=
  match p with
  | Return v => ended (finish_body env (inr v) r)
  | Throw e => ended (finish_body env (inl e) r)
  | SetHandler kind name handler k => Some (register kind name handler r, Continue k)
  | Call c k =>
    match do_call env c r with
    | (r, Answer a) => Some (r, Continue (k a))
    | (r, Park) => Some (r <| coroutine_ := Suspended p |>, Yields p (on_abort p))
    | (_, Undef) => None
    end
  end.

(** Between two calls the controller may change anything but the coroutine itself. *)
Definition controls (r r' : WorkflowRunner) : Prop := coroutine_ r' = coroutine_ r.
Definition created (r : WorkflowRunner) : Prop := coroutine_ r = Created.

Abbreviation threads := (state WorkflowRunner prog).
Abbreviation runs := (reachable (RunBody env) stretch controls created).
Abbreviation in_call := (during (RunBody env) stretch controls).

(** ** A stretch after the other is [interp] *)

Lemma finish_body_done res r : exists e, coroutine_ (finish_body env res r) = CoroDone e.
Proof. destruct res as [[]|]; simpl; repeat case_match; by eexists. Qed.

Lemma stretches_interp p r :
  match interp env p r with
  | Finished r1 res =>
    stops stretch p r (finish_body env res r1) (Ends (escaped (finish_body env res r1)))
  | Parked r1 rest =>
    stops stretch p r (r1 <| coroutine_ := Suspended rest |>) (Yields rest (on_abort rest))
  | Stuck => True
  end.
Proof.
  revert r. induction p as [v|e|c k IH|kind name h _ k IH]; intros r; cbn [interp].
  - by apply stops_end.
  - by apply stops_end.
  - destruct (do_call env c r) as [r1 [a| |]] eqn:Hc; [| |done].
    + specialize (IH a r1). destruct (interp env (k a) r1); [| |done];
        (eapply stops_run; [simpl; by rewrite Hc|done]).
    + apply stops_yield. simpl. by rewrite Hc.
  - specialize (IH (register kind name h r)).
    destruct (interp env k (register kind name h r)); [| |done];
      (eapply stops_run; [reflexivity|done]).
Qed.

(** ** The field [coroutine_] says where the body is *)

Record mirrors (s : threads) : Prop := {
  mi_runs : match co s with Exited => True | _ => coro_done (shared s) = false end;
  mi_where : abort_ s = false ->
    match co s with
    | WaitFirstTurn => coroutine_ (shared s) = Created
    | Running _ => True
    | WaitTurn p a => coroutine_ (shared s) = Suspended p /\ a = on_abort p
    | Exited => coroutine_ (shared s) = CoroDone (error_ s)
    end
}.

Lemma do_call_coroutine c r r' x : do_call env c r = (r', x) -> coroutine_ r' = coroutine_ r.
Proof. intros Hc. pose proof (do_call_frame env c r) as Hf. rewrite Hc in Hf. apply Hf. Qed.

Lemma register_coroutine kind name h r : coroutine_ (register kind name h r) = coroutine_ r.
Proof. by destruct kind. Qed.

Lemma stretch_where p r r' x : stretch p r = Some (r', x) ->
  match x with
  | Continue _ => coroutine_ r' = coroutine_ r
  | Yields rest a => coroutine_ r' = Suspended rest /\ a = on_abort rest
  | Ends e => coroutine_ r' = CoroDone e
  end.
Proof.
  assert (Hfin : forall res, coroutine_ (finish_body env res r) = CoroDone (escaped (finish_body env res r))).
  { intros res. unfold escaped. by destruct (finish_body_done res r) as [e ->]. }
  destruct p as [v|e|c k|kind name h k]; unfold stretch.
  - intros [-> ->]%ended_inv. exact (Hfin (inr v)).
  - intros [-> ->]%ended_inv. exact (Hfin (inl e)).
  - destruct (do_call env c r) as [r1 [a| |]] eqn:Hc; intros Hs; [| |done]; injection Hs as <- <-; [|done].
    by eapply do_call_coroutine.
  - intros Hs. injection Hs as <- <-. apply register_coroutine.
Qed.

Lemma mirrors_step s s' : step (RunBody env) stretch controls s s' -> inv s -> mirrors s -> mirrors s'.
Proof.
  intros Hs [Hd _] [Hr Hw]. unfold coro_done in *. destruct Hs as [Hs|Hs].
  - destruct Hs as [sh b Hc _ _ He|Hc _ Ha|b sh b' Hc Hs|b sh r a Hc Hs|r a Hc|r a Hc ? Ha|b sh e Hc Hs];
      rewrite Hc in *; try (apply stretch_where in Hs; destruct_and?);
      constructor; simpl in *; intros; try congruence; try done.
    + unfold RunBody in He. injection He as <- _. exact Hr.
    + unfold coro_done. by rewrite Hs.
    + unfold coro_done. by match goal with Hp : coroutine_ sh = _ |- _ => rewrite Hp end.
  - destruct Hs as [sh Hk Hu|timed Hk Hnd|Hk|timed Hk|Hk|Hk|Hk|Hk|Hk|Hk|Hk]; try by constructor.
    + unfold controls in Hu. constructor; unfold coro_done; simpl in *; by rewrite Hu.
Qed.

Lemma mirrors_reachable s : runs s -> mirrors s.
Proof.
  intros (sh & Hi & Hr).
  assert (Hm : mirrors (make sh)) by (constructor; [unfold coro_done; simpl; by rewrite Hi|done]).
  revert Hm. pose proof (inv_make (B := prog) sh) as Hinv. revert Hinv.
  induction Hr as [s|s s1 s' Hs _ IH]; intros Hinv Hm; [done|]. apply IH.
  - destruct Hs; [by eapply inv_co_step|by eapply inv_ctl_step].
  - by eapply mirrors_step.
Qed.

(** ** A body always stops *)

Lemma workflow_stops p r : coro_done r = false -> exists r' x, stops stretch p r r' x.
Proof.
  intros Hd. pose proof (interp_not_stuck env p r Hd) as Hn. pose proof (stretches_interp p r) as Hs.
  destruct (interp env p r); [by do 2 eexists..|done].
Qed.

Lemma workflow_stops_always : stops_always (RunBody env) stretch controls created.
Proof.
  intros s b Hr _ Hc. apply workflow_stops. pose proof (mi_runs _ (mirrors_reachable s Hr)) as Hm.
  by rewrite Hc in Hm.
Qed.

(** What [resume_with] leaves is what the stretches leave. *)
Lemma resume_with_stops p r r' :
  resume_with env p r = Val r' -> exists x, stops stretch p r r' x.
Proof.
  unfold resume_with. pose proof (stretches_interp p r) as Hs.
  destruct (interp env p r); intros [= <-]; by eexists.
Qed.

(** ** A resume is one call *)

(** [ResumeCoroutine] counts its calls. *)
Definition count_resume (s : threads) : threads := s <| shared ::= fun r => r <| resumes_ ::= S |> |>.

Lemma counted_reachable s : runs s -> ctl s = Idle -> runs (count_resume s).
Proof. intros Hr Hk. eapply reachable_step; [exact Hr|]. right. by apply ctl_use. Qed.

Lemma idle_where s : runs s -> overran s = false -> ctl s = Idle -> done_ s = false ->
  abort_ s = false /\
  ((co s = WaitFirstTurn /\ coroutine_ (shared s) = Created) \/
   exists p, co s = WaitTurn p (on_abort p) /\ coroutine_ (shared s) = Suspended p).
Proof.
  intros Hr Ho Hk Hnd. destruct (inv_reachable _ _ _ _ _ Hr) as [Hd Ht]. specialize (Ht Ho).
  unfold turn_ok in Ht. rewrite Hk in Ht. pose proof (mi_where _ (mirrors_reachable s Hr)) as Hm.
  destruct (co s) as [|b|p a|]; [|done| |simpl in Hd; congruence]; destruct Ht as [_ Ha]; (split; [done|]).
  - left. auto.
  - right. destruct (Hm Ha) as [? ->]. by exists p.
Qed.

Lemma resume_from r :
  Runner.overran env r (resumes_ r) = false ->
  let counted_r := r <| resumes_ ::= S |> in
  ResumeCoroutine env r =
  match coroutine_ r with
  | NoCoroutine => UB
  | CoroDone _ => Val counted_r
  | Created => let '(r, p) := RunBody env counted_r in resume_with env p r
  | Suspended p => resume_with env p counted_r
  end.
Proof.
  intros Ho counted_r. subst counted_r. unfold ResumeCoroutine, Runner.overran in *. cbv zeta.
  change (coroutine_ (r <| resumes_ ::= S |>)) with (coroutine_ r).
  change (deadlock_timeout_ (r <| resumes_ ::= S |>)) with (deadlock_timeout_ r). by rewrite Ho.
Qed.

Lemma resumes_to s : runs s -> overran s = false -> ctl s = Idle -> done_ s = false ->
  Runner.overran env (shared s) (resumes_ (shared s)) = false ->
  exists sh b r' x, ResumeCoroutine env (shared s) = Val r' /\
    resumed_at (RunBody env) (count_resume s) = Some (sh, b) /\ stops stretch b sh r' x.
Proof.
  intros Hr Ho Hk Hnd Hov. destruct (idle_where s Hr Ho Hk Hnd) as [_ Hw].
  assert (Hgo : forall sh b, coro_done sh = false ->
    ResumeCoroutine env (shared s) = resume_with env b sh ->
    resumed_at (RunBody env) (count_resume s) = Some (sh, b) ->
    exists sh b r' x, ResumeCoroutine env (shared s) = Val r' /\
      resumed_at (RunBody env) (count_resume s) = Some (sh, b) /\ stops stretch b sh r' x).
  { intros sh b Hsh Hres Hat. destruct (resume_with_returns env b sh Hsh) as [r' Hr'].
    destruct (resume_with_stops b sh r' Hr') as [x Hx]. exists sh, b, r', x. split_and!; congruence. }
  destruct Hw as [[Hc Hcr]|(p & Hc & Hcr)].
  - destruct (RunBody env (shared (count_resume s))) as [sh b] eqn:Hb. apply (Hgo sh b).
    + assert (Hsh : coroutine_ sh = coroutine_ (shared s)) by by injection Hb as <- _.
      unfold coro_done. by rewrite Hsh, Hcr.
    + rewrite resume_from, Hcr by done. change ((shared s) <| resumes_ ::= S |>) with (shared (count_resume s)).
      by rewrite Hb.
    + unfold resumed_at. change (co (count_resume s)) with (co s). by rewrite Hc, Hb.
  - apply (Hgo (shared (count_resume s)) p).
    + unfold coro_done. simpl. by rewrite Hcr.
    + by rewrite resume_from, Hcr.
    + unfold resumed_at. change (co (count_resume s)) with (co s). by rewrite Hc.
Qed.

(** C25: for a workflow, a resume is the one call [Runner.ResumeCoroutine] is: from any
    moment the controller is between two calls, [Resume] (and [ResumeFor], unless it times
    out) returns, and whichever way the controller's thread and the workflow's interleave,
    the runner they share is the one that call leaves, and its coroutine is where the
    workflow's thread waits. *)
Theorem resume_is_one_call (s : threads) (timed : bool) :
  runs s -> overran s = false -> ctl s = Idle -> done_ s = false ->
  Runner.overran env (shared s) (resumes_ (shared s)) = false ->
  exists t, ResumeCoroutine env (shared s) = Val (shared t) /\
    rtc in_call (in_resume timed (count_resume s)) t /\ ctl t = Idle /\ mirrors t /\
    forall t', rtc in_call (in_resume timed (count_resume s)) t' -> ctl t' = Idle -> t' = t.
Proof.
  intros Hr Ho Hk Hnd Hov. destruct (resumes_to s Hr Ho Hk Hnd Hov) as (sh & b & r' & x & Hres & Hat & Hx).
  pose proof (counted_reachable s Hr Hk) as Hrc.
  destruct (Resume_is_one_call _ _ _ _ (count_resume s) timed sh r' b x Hrc Ho Hk Hat Hx) as [Hrun Huniq].
  exists (stopped (count_resume s) r' x). split_and!.
  - rewrite Hres. apply stops_final in Hx. by destruct x.
  - exact Hrun.
  - by destruct (stopped_turn _ (count_resume s) _ _ _ _ Hx) as [_ ->].
  - apply mirrors_reachable. eapply during_reachable; [|exact Hrun].
    eapply reachable_step; [exact Hrc|]. right. by apply ctl_resume.
  - exact Huniq.
Qed.

(** ** Tearing a suspended workflow down *)

Lemma teardown_outcome s p :
  runs s -> overran s = false -> ctl s = Idle -> abandoned_ s = false ->
  coroutine_ (shared s) = Suspended p ->
  exists t, rtc in_call (destroying s) t /\
    (forall t', rtc in_call (destroying s) t' -> nf in_call t' -> t' = t) /\
    match interp env (on_abort p) (shared s) with
    | Finished _ _ => ctl t = Destroyed
    | _ => ctl t = Joining /\ forall t', ~ step (RunBody env) stretch controls t t'
    end.
Proof.
  intros Hr Ho Hk Hab Hp. destruct (mirrors_reachable s Hr) as [Hm Hw].
  destruct (inv_reachable _ _ _ _ _ Hr) as [Hd Ht]. specialize (Ht Ho). unfold turn_ok in Ht. rewrite Hk in Ht.
  destruct (co s) as [|b|p' a|] eqn:Hc; [destruct Ht as [_ Ha]; specialize (Hw Ha); congruence|done| |].
  2:{ destruct Ht as [_ Ha]. specialize (Hw Ha). congruence. }
  destruct Ht as [_ Ha]. destruct (Hw Ha) as [Hp' ->]. assert (p' = p) as -> by congruence.
  assert (Hns : interp env (on_abort p) (shared s) <> Stuck) by by apply interp_not_stuck.
  pose proof (stretches_interp (on_abort p) (shared s)) as Hs.
  destruct (destructor_outcome _ _ _ _ s Hr Ho Hk Hab) as (t & H1 & _ & Hu & Hend & Hstuck).
  { intros r' a' Hc'. rewrite Hc in Hc'. injection Hc' as <- <-. by apply workflow_stops. }
  exists t. split_and!; [exact H1|exact Hu|].
  destruct (interp env (on_abort p) (shared s)) as [r1 res|r1 rest|]; [| |done].
  - apply Hend. unfold unwinds. rewrite Hc. by do 2 eexists.
  - apply Hstuck. unfold unwinds. rewrite Hc. intros (sh' & e & He).
    by destruct (stops_det _ _ _ _ _ _ _ Hs He).
Qed.

(** C26: the destructor of a suspended workflow's coroutine comes to one end: it returns,
    the thread joined, when the body, called back with the abort where it waits, runs to
    its end; when it waits for something again, the destructor blocks forever. *)
Theorem workflow_teardown (s : threads) (p : prog) :
  runs s -> overran s = false -> ctl s = Idle -> abandoned_ s = false ->
  coroutine_ (shared s) = Suspended p ->
  exists t, rtc in_call (destroying s) t /\
    (forall t', rtc in_call (destroying s) t' -> nf in_call t' -> t' = t) /\
    match interp env (on_abort p) (shared s) with
    | Finished _ _ => ctl t = Destroyed
    | _ => ctl t = Joining /\ forall t', ~ step (RunBody env) stretch controls t t'
    end.
Proof. apply teardown_outcome. Qed.

(** C27: a workflow that completes a session and then waits for anything cannot be torn
    down while the completion is under way: [CompleteSession] catches the abort with
    everything else, the body goes on to its next wait, and the destructor (that of a
    runner evicted from the sticky cache) joins a thread that never ends. *)
Theorem completing_session_blocks_teardown {R} (encode : R -> result Payloads) (k : unit -> body R)
    (l : loc) (s : threads) (r1 : WorkflowRunner) (rest : prog) :
  runs s -> overran s = false -> ctl s = Idle -> abandoned_ s = false ->
  coroutine_ (shared s) = Suspended (lower encode (and_with (swallow (Get (mkFuture (R := unit) l))) k)) ->
  interp env (lower encode (k tt)) (shared s) = Parked r1 rest ->
  exists t, rtc in_call (destroying s) t /\ ctl t = Joining /\
    forall t', ~ step (RunBody env) stretch controls t t'.
Proof.
  intros Hr Ho Hk Hab Hp Hi. destruct (teardown_outcome s _ Hr Ho Hk Hab Hp) as (t & H1 & _ & Ht).
  exists t. split; [exact H1|]. cbn in Ht. by rewrite Hi in Ht.
Qed.

(** The state a resume ends in. *)
Lemma resume_reaches s : runs s -> overran s = false -> ctl s = Idle -> done_ s = false ->
  Runner.overran env (shared s) (resumes_ (shared s)) = false ->
  exists t, runs t /\ overran t = false /\ ctl t = Idle /\ abandoned_ t = abandoned_ s /\
    ResumeCoroutine env (shared s) = Val (shared t).
Proof.
  intros Hr Ho Hk Hnd Hov. destruct (resumes_to s Hr Ho Hk Hnd Hov) as (sh & b & r' & x & Hres & Hat & Hx).
  pose proof (counted_reachable s Hr Hk) as Hrc.
  destruct (Resume_is_one_call _ _ _ _ (count_resume s) false sh r' b x Hrc Ho Hk Hat Hx) as [Hrun _].
  exists (stopped (count_resume s) r' x). apply stops_final in Hx. split_and!.
  - eapply during_reachable; [|exact Hrun]. eapply reachable_step; [exact Hrc|]. right. by apply ctl_resume.
  - by destruct x.
  - by destruct x.
  - by destruct x.
  - rewrite Hres. by destruct x.
Qed.
End Threads.

(** ** Closed instances *)

(** A runner whose coroutine was just made. *)
Definition fresh_runner (fn : Payloads -> prog) : WorkflowRunner :=
  ensure_coroutine (ref_runner false [started] fn).

Lemma fresh_runs fn : reachable (RunBody ref_env) (stretch ref_env) controls created (make (fresh_runner fn)).
Proof. exists (fresh_runner fn). split; [reflexivity|apply rtc_refl]. Qed.

(** What its first resume leaves, and the state of the threads then. *)
Definition first_stop (fn : Payloads -> prog) : WorkflowRunner :=
  match ResumeCoroutine ref_env (fresh_runner fn) with Val r => r | _ => fresh_runner fn end.

Lemma first_resume fn :
  exists t, reachable (RunBody ref_env) (stretch ref_env) controls created t /\ overran t = false /\
    ctl t = Idle /\ abandoned_ t = false /\ shared t = first_stop fn.
Proof.
  destruct (resume_reaches ref_env (make (fresh_runner fn)) (fresh_runs fn) eq_refl eq_refl eq_refl eq_refl)
    as (t & Hr & Ho & Hk & Ha & Hs).
  exists t. split_and!; [done..|]. unfold first_stop. simpl in Hs. by rewrite Hs.
Qed.

Lemma resume_is_one_call_witness :
  exists t, ResumeCoroutine ref_env (fresh_runner one_activity) = Val (shared t) /\ ctl t = Idle /\
    rtc (during (RunBody ref_env) (stretch ref_env) controls)
      (in_resume false (count_resume (make (fresh_runner one_activity)))) t.
Proof.
  destruct (resume_is_one_call ref_env (make (fresh_runner one_activity)) false (fresh_runs one_activity)
    eq_refl eq_refl eq_refl eq_refl) as (t & Hres & Hrun & Hk & _).
  exists t. split_and!; [exact Hres|exact Hk|exact Hrun].
Defined.

(** Suspended in [Future::Get], the activity's body lets the abort out. *)
Lemma workflow_teardown_witness :
  exists s t : state WorkflowRunner prog,
    rtc (during (RunBody ref_env) (stretch ref_env) controls) (destroying s) t /\ ctl t = Destroyed.
Proof.
  destruct (first_resume one_activity) as (s & Hr & Ho & Hk & Ha & Hs).
  destruct (workflow_teardown ref_env s _ Hr Ho Hk Ha ltac:(rewrite Hs; vm_compute; reflexivity))
    as (t & Hrun & _ & Ht).
  exists s, t. split; [exact Hrun|]. rewrite Hs in Ht. vm_compute in Ht |- *. exact Ht.
Defined.

(** Completes a session, then waits for a signal. *)
Definition receive_done : body string := Receive (T := string) (mkChannel "done").

Definition closing_session (_ : Payloads) : prog :=
  lower (fun _ => inr []) (and_with (CompleteSession (mkSessionInfo "host" "host")) (fun _ => receive_done)).

Lemma completing_session_blocks_teardown_witness :
  exists s t : state WorkflowRunner prog,
    rtc (during (RunBody ref_env) (stretch ref_env) controls) (destroying s) t /\
    forall t', ~ step (RunBody ref_env) (stretch ref_env) controls t t'.
Proof.
  destruct (first_resume closing_session) as (s & Hr & Ho & Hk & Ha & Hs).
  destruct (completing_session_blocks_teardown ref_env (fun _ => inr []) (fun _ => receive_done) 0%nat s
    (shared s) (lower (fun _ => inr []) receive_done) Hr Ho Hk Ha) as (t & Hrun & _ & Ht).
  - rewrite Hs. vm_compute. reflexivity.
  - rewrite Hs. vm_compute. reflexivity.
  - exists s, t. split; [exact Hrun|exact Ht].
Defined.
