(* ===== verification/Worker.v ===== *)
(** * The worker

    [src/src/internal/worker_impl.{h,cpp}]: the concurrency gates, the rate limiter, the
    poller scaler, the session slots, the sizing of the poller pools in [Start], and the
    poll loops with [Stop], as a machine whose threads interleave.

    A mutex-protected method is one atomic step.  The condition variable of the scaler
    is modelled explicitly (checking the predicate, deciding to wait, blocked), because
    [Stop] changes what its predicate reads without taking its mutex. *)

From S2P Require Import Prelude Common.

(** ** [ConcurrencyGate] *)

Module Gate.
Record ConcurrencyGate := mk { limit_ : Z; in_flight_ : Z; released_ : bool }.

#[export] Instance ConcurrencyGate_eta : Eta ConcurrencyGate := fun g =>
  {| limit_ := limit_ g; in_flight_ := in_flight_ g; released_ := released_ g |}.

Definition new (limit : Z) : ConcurrencyGate := mk limit 0 false.

(** [None] while it blocks; otherwise the returned boolean. *)
Definition Acquire (g : ConcurrencyGate) : option (ConcurrencyGate * bool) :=
  if limit_ g <=? 0 then Some (g <| in_flight_ ::= Z.succ |>, true)
  else if negb (released_ g || (in_flight_ g <? limit_ g)) then None
  else if released_ g then Some (g, false)
  else Some (g <| in_flight_ ::= Z.succ |>, true).

Definition Release (g : ConcurrencyGate) : ConcurrencyGate :=
  if 0 <? in_flight_ g then g <| in_flight_ ::= Z.pred |> else g.

Definition ReleaseAll (g : ConcurrencyGate) : ConcurrencyGate := g <| released_ := true |>.

(** What [Drain] waits for; it returns [false] when the deadline passes first. *)
Definition Drained (g : ConcurrencyGate) : bool := in_flight_ g =? 0.

Lemma Acquire_spec g g' held :
  Acquire g = Some (g', held) ->
  limit_ g' = limit_ g /\ released_ g' = released_ g /\
  in_flight_ g' = in_flight_ g + Z.b2z held /\
  (0 < limit_ g -> in_flight_ g <= limit_ g -> in_flight_ g' <= limit_ g).
Proof.
  unfold Acquire. destruct (limit_ g <=? 0) eqn:El; [apply Z.leb_le in El|].
  - intros [= <- <-]. cbn. split_and!; [done|done|lia|lia].
  - destruct (released_ g) eqn:Er; cbn -[Z.ltb].
    + intros [= <- <-]. cbn. split_and!; [done|done|lia|lia].
    + destruct (in_flight_ g <? limit_ g) eqn:Ei; [|done]. apply Z.ltb_lt in Ei.
      intros [= <- <-]. cbn. split_and!; [done|done|lia|lia].
Qed.

(** A released gate never blocks; an unlimited one still hands out permits. *)
Lemma Acquire_released g : released_ g = true -> exists x, Acquire g = Some x.
Proof. intros Hr. unfold Acquire. rewrite Hr. case_match; simpl; eauto. Qed.

(** The permit of an execution ([held_] is what [Acquire] returned): the scope that
    declares it ends with [guard_destroy], also when an exception leaves it. *)
Record GateGuard := mkGuard { held_ : bool }.

(** The move constructor: the new guard, and what is left of the old one. *)
Definition guard_move (o : GateGuard) : GateGuard * GateGuard := (mkGuard (held_ o), mkGuard false).

Definition guard_destroy (guard : GateGuard) (g : ConcurrencyGate) : ConcurrencyGate :=
  if held_ guard then Release g else g.

(** A permit that is moved is given back once, in whichever order the two guards die. *)
Lemma guard_move_releases_once o g :
  let '(n, o') := guard_move o in
  guard_destroy n (guard_destroy o' g) = guard_destroy o g /\
  guard_destroy o' (guard_destroy n g) = guard_destroy o g.
Proof. split; reflexivity. Qed.

(** A scope gives back exactly what it acquired, a refused permit nothing. *)
Lemma guard_scope_balanced g g' held :
  0 <= in_flight_ g -> Acquire g = Some (g', held) -> guard_destroy (mkGuard held) g' = g.
Proof.
  intros Hg. unfold Acquire, guard_destroy, Release. destruct g as [limit n released]. cbn in *.
  destruct (limit <=? 0); [|destruct (negb _); [done|destruct released]];
    intros [= <- <-]; cbn -[Z.ltb]; try done;
    destruct (Z.ltb_spec 0 (Z.succ n)); [|lia| |lia]; unfold update; cbn; by rewrite Z.pred_succ.
Qed.
End Gate.

(** ** [PollerScaler] *)

Module Scaler.
Record PollerScaler := mk {
  always_hot_ : Z;
  max_scalable_ : Z;
  empty_threshold_ : Z;
  target_ : Z;
  scalable_active_ : Z;
  empty_streak_ : Z
}.

#[export] Instance PollerScaler_eta : Eta PollerScaler := fun s =>
  {| always_hot_ := always_hot_ s; max_scalable_ := max_scalable_ s;
     empty_threshold_ := empty_threshold_ s; target_ := target_ s;
     scalable_active_ := scalable_active_ s; empty_streak_ := empty_streak_ s |}.

(** The default member initializers. *)
Definition new : PollerScaler := mk 0 0 1 0 0 0.

Definition Configure (always_hot max_scalable empty_polls_before_scale_down : Z)
  (s : PollerScaler) : PollerScaler :=
  s <| always_hot_ := always_hot |> <| max_scalable_ := max_scalable |>
    <| empty_threshold_ := if 0 <? empty_polls_before_scale_down
                           then empty_polls_before_scale_down else 1 |>
    <| target_ := 0 |>.

(** The part of [Acquire]'s predicate that reads the scaler. *)
Definition may_poll (s : PollerScaler) : bool := scalable_active_ s <? target_ s.

Definition take_slot (s : PollerScaler) : PollerScaler := s <| scalable_active_ ::= Z.succ |>.

Definition Release (s : PollerScaler) : PollerScaler :=
  if 0 <? scalable_active_ s then s <| scalable_active_ ::= Z.pred |> else s.

(** The second component says whether waiters are notified. *)
Definition Report (got_task : bool) (s : PollerScaler) : PollerScaler * bool :=
  if got_task then
    let s := s <| empty_streak_ := 0 |> in
    if target_ s <? max_scalable_ s then (s <| target_ ::= Z.succ |>, true) else (s, false)
  else
    let s := s <| empty_streak_ ::= Z.succ |> in
    if empty_threshold_ s <=? empty_streak_ s then
      let s := s <| empty_streak_ := 0 |> in
      (if 0 <? target_ s then s <| target_ ::= Z.pred |> else s, false)
    else (s, false).

Definition active (s : PollerScaler) : Z := always_hot_ s + scalable_active_ s.

(** The target stays in range whatever the polls return. *)
Record in_range (s : PollerScaler) : Prop := {
  target_range : 0 <= target_ s <= max_scalable_ s;
  active_range : 0 <= scalable_active_ s <= max_scalable_ s;
  streak_range : 0 <= empty_streak_ s < empty_threshold_ s
}.

Lemma take_slot_in_range s : in_range s -> may_poll s = true -> in_range (take_slot s).
Proof.
  intros [Ht Ha Hs] Hm%Z.ltb_lt. split; cbn [take_slot update target_ max_scalable_
    scalable_active_ empty_streak_ empty_threshold_]; lia.
Qed.

Lemma Release_in_range s : in_range s -> in_range (Release s).
Proof.
  intros [Ht Ha Hs]. unfold Release. destruct (0 <? scalable_active_ s) eqn:E; [|done].
  apply Z.ltb_lt in E. split; cbn; lia.
Qed.

Lemma Report_active b s : scalable_active_ (fst (Report b s)) = scalable_active_ s.
Proof. unfold Report. destruct b; repeat case_match; reflexivity. Qed.

Lemma Report_in_range b s : in_range s -> in_range (fst (Report b s)).
Proof.
  intros [Ht Ha Hs]. unfold Report. destruct b; cbn -[Z.ltb Z.leb].
  - destruct (target_ s <? max_scalable_ s) eqn:E; [apply Z.ltb_lt in E|]; split; cbn; lia.
  - destruct (empty_threshold_ s <=? Z.succ (empty_streak_ s)) eqn:E; cbn -[Z.ltb];
      [|apply Z.leb_gt in E; split; cbn; lia].
    destruct (0 <? target_ s) eqn:E'; [apply Z.ltb_lt in E'|]; split; cbn; lia.
Qed.
End Scaler.

(** ** [RateLimiter] *)

Module Limiter.
Record RateLimiter := mk { per_second_ : Q; next_slot_ : Z }.

Definition new (per_second : Q) : RateLimiter := mk per_second 0.

Section Limiter.
(** The clock ticks of [duration<double>(1.0 / per_second)]: floating point. *)
Context (interval : Q -> Z).

(** The slot [Acquire] reserves at time [now]; [None] when it is unlimited. *)
Definition reserve (now : Z) (l : RateLimiter) : RateLimiter * option Z :=
  if Qle_bool (per_second_ l) 0 then (l, None)
  else
    let allowed := if next_slot_ l <? now then now else next_slot_ l in
    (mk (per_second_ l) (allowed + interval (per_second_ l)), Some allowed).

(** The slots handed out to calls at the given times, in the order of the lock. *)
Fixpoint slots (times : list Z) (l : RateLimiter) : list (option Z) :=
  match times with
  | [] => []
  | now :: times => let '(l, slot) := reserve now l in slot :: slots times l
  end.

Lemma slots_unlimited times l i t :
  Qle_bool (per_second_ l) 0 = true -> slots times l !! i <> Some (Some t).
Proof.
  intros Hp. revert i. induction times as [|now times IH]; intros i; [done|]. simpl.
  unfold reserve. rewrite Hp. destruct i as [|i]; simpl; [done|apply IH].
Qed.

(** Consecutive reservations, oldest first, are at least an interval apart. *)
Lemma slots_after times l i t :
  0 <= interval (per_second_ l) ->
  slots times l !! i = Some (Some t) ->
  next_slot_ l + Z.of_nat i * interval (per_second_ l) <= t.
Proof.
  revert l i. induction times as [|now times IH]; intros l i Hi; [done|]. simpl.
  unfold reserve. destruct (Qle_bool (per_second_ l) 0) eqn:Ep.
  - destruct i as [|i]; simpl; [done|]. intros Hs. by apply slots_unlimited in Hs.
  - destruct i as [|i]; simpl.
    + intros [= <-]. case_match eqn:E; [apply Z.ltb_lt in E|apply Z.ltb_ge in E]; lia.
    + intros Hs. apply IH in Hs; [|done]. cbn [next_slot_ per_second_] in Hs.
      destruct (next_slot_ l <? now) eqn:E; [apply Z.ltb_lt in E|apply Z.ltb_ge in E]; nia.
Qed.

Lemma slots_spaced times l i j ti tj :
  0 <= interval (per_second_ l) -> (i <= j)%nat ->
  slots times l !! i = Some (Some ti) -> slots times l !! j = Some (Some tj) ->
  ti + Z.of_nat (j - i) * interval (per_second_ l) <= tj.
Proof.
  revert l i j. induction times as [|now times IH]; intros l i j Hi Hij; [done|]. simpl.
  destruct (reserve now l) as [l' slot] eqn:Er.
  assert (Hp : per_second_ l' = per_second_ l)
    by (unfold reserve in Er; by case_match; simplify_eq/=).
  destruct i as [|i], j as [|j]; simpl; [intros; simplify_eq; lia| |lia|].
  - intros [= ->] Hj. apply slots_after in Hj; [|by rewrite Hp]. unfold reserve in Er.
    case_match; simplify_eq/=. lia.
  - intros H1 H2. rewrite <- Hp. apply (IH l'); [by rewrite Hp|lia|done|done].
Qed.

Lemma slots_not_early times l i now t :
  times !! i = Some now -> slots times l !! i = Some (Some t) -> now <= t.
Proof.
  revert l i. induction times as [|n times IH]; intros l i; [done|]. simpl.
  destruct (reserve n l) as [l' slot] eqn:Er. destruct i as [|i]; simpl; [|apply IH].
  intros [= ->] [= ->]. unfold reserve in Er. case_match; simplify_eq/=.
  case_match eqn:E; [|apply Z.ltb_ge in E]; lia.
Qed.

(** C36: [RateLimiter] paces starts: a call is never let through before it is made,
    and among any [n + 1] consecutive reservations the last is at least [n]
    intervals after the first, so no window admits a burst. *)
Theorem RateLimiter_paces (times : list Z) (l : RateLimiter) (i n : nat) (ti tj : Z)
  (Hinterval : 0 <= interval (per_second_ l))
  (Hi : slots times l !! i = Some (Some ti))
  (Hj : slots times l !! (i + n)%nat = Some (Some tj)) :
  ti + Z.of_nat n * interval (per_second_ l) <= tj /\
  (forall now, times !! i = Some now -> now <= ti).
Proof.
  split; [|intros now Hnow; by eapply slots_not_early].
  replace n with (i + n - i)%nat at 1 by lia.
  apply (slots_spaced times l i (i + n)); [done|lia|done|done].
Qed.
End Limiter.

Lemma RateLimiter_paces_witness :
  slots (fun _ => 100) [5; 6; 7] (new 10) = [Some 5; Some 105; Some 205] /\
  5 + Z.of_nat 2 * 100 <= 205.
Proof.
  split; [reflexivity|].
  apply (RateLimiter_paces (fun _ => 100) [5; 6; 7] (new 10) 0 2 5 205);
    [done|reflexivity|reflexivity].
Defined.
End Limiter.

(** ** Session slots

    The built-in creation and completion activities ([RegisterSessionActivities]) run on
    any number of poller threads: each is a loop around a weak compare-and-swap, which may
    fail spuriously. *)

Module Sessions.
Inductive session_op :=
| CreateStart | CreateCas (cur : Z) | Created | Rejected
| CompleteStart | CompleteCas (cur : Z) | Completed.

#[export] Instance session_op_eq_dec : EqDecision session_op.
Proof. solve_decision. Defined.

(** One step of one activity over [active_sessions_]; [None] when it has returned or
    thrown. *)
Definition session_step (cap : Z) (spurious : bool) (op : session_op) (active : Z) :
  option (session_op * Z) :=
  match op with
  | CreateStart =>
    if 0 <? cap then Some (CreateCas active, active) else Some (Created, active + 1)
  | CreateCas cur =>
    if cap <=? cur then Some (Rejected, active)
    else if negb spurious && (active =? cur) then Some (Created, cur + 1)
    else Some (CreateCas active, active)
  | CompleteStart => Some (CompleteCas active, active)
  | CompleteCas cur =>
    if 0 <? cur
    then if negb spurious && (active =? cur) then Some (Completed, cur - 1)
         else Some (CompleteCas active, active)
    else Some (Completed, active)
  | Created | Rejected | Completed => None
  end.

(** The activities in flight or over, and the counter. *)
Inductive sessions_step (cap : Z) : list session_op * Z -> list session_op * Z -> Prop :=
| sessions_run ops active i op spurious op' active' :
    ops !! i = Some op -> session_step cap spurious op active = Some (op', active') ->
    sessions_step cap (ops, active) (<[i := op']> ops, active')
| sessions_dispatch ops active op :
    op = CreateStart \/ op = CompleteStart ->
    sessions_step cap (ops, active) (ops ++ [op], active).

Definition count (op : session_op) (ops : list session_op) : Z :=
  Z.of_nat (length (filter (fun o => o = op) ops)).

Lemma count_ops_app op ops ops' : count op (ops ++ ops') = count op ops + count op ops'.
Proof. unfold count. rewrite filter_app, length_app. lia. Qed.

Lemma count_one op o : count op [o] = if decide (o = op) then 1 else 0.
Proof. unfold count. rewrite filter_cons. by case_decide. Qed.

Lemma count_ops_insert op ops i o o' :
  ops !! i = Some o ->
  count op (<[i := o']> ops) =
  count op ops - (if decide (o = op) then 1 else 0) + (if decide (o' = op) then 1 else 0).
Proof.
  intros Hi. rewrite insert_take_drop by (by eapply lookup_lt_Some).
  pose proof (take_drop_middle ops i o Hi) as E. rewrite <- E at 3.
  change (o' :: drop (S i) ops) with ([o'] ++ drop (S i) ops).
  change (o :: drop (S i) ops) with ([o] ++ drop (S i) ops).
  rewrite !count_ops_app, !count_one. lia.
Qed.

Record sessions_ok (cap : Z) (ops : list session_op) (active : Z) : Prop := {
  so_nonneg : 0 <= active;
  so_cap : 0 < cap -> active <= cap;
  so_balance : count Created ops - count Completed ops <= active
}.

Lemma session_step_ok cap spurious op op' active active' ops i :
  ops !! i = Some op -> session_step cap spurious op active = Some (op', active') ->
  sessions_ok cap ops active -> sessions_ok cap (<[i := op']> ops) active'.
Proof.
  intros Hi Hs [H0 Hc Hb].
  assert (Hbal : (active' - active >= (if decide (op' = Created) then 1 else 0) -
                    (if decide (op' = Completed) then 1 else 0)) /\
                 op <> Created /\ op <> Completed /\ 0 <= active' /\
                 (0 < cap -> active' <= cap)).
  { destruct op; cbn -[Z.ltb Z.leb Z.eqb] in Hs; simplify_eq;
      repeat (case_match; simplify_eq);
      rewrite ?andb_true_iff, ?Z.ltb_lt, ?Z.ltb_ge, ?Z.leb_le, ?Z.leb_gt, ?Z.eqb_eq in *;
      repeat case_decide; simplify_eq; split_and!; try done; lia. }
  destruct Hbal as (Hd & Hn1 & Hn2 & ? & ?). split; [done|done|].
  rewrite !(count_ops_insert _ _ _ _ _ Hi).
  rewrite (decide_False (P := op = Created)), (decide_False (P := op = Completed)) by done. lia.
Qed.

(** Whatever the interleaving of session creations and completions, the counter
    stays between zero and [max_concurrent_sessions] (when that is set), and so do the
    sessions open on the worker: successful creations less completions. *)
Theorem sessions_bounded (cap : Z) (ops : list session_op) (active : Z)
  (Hr : rtc (sessions_step cap) ([], 0) (ops, active)) :
  0 <= active /\
  (0 < cap -> active <= cap /\ count Created ops - count Completed ops <= cap).
Proof.
  assert (Hok : forall s, rtc (sessions_step cap) ([], 0) s -> sessions_ok cap (fst s) (snd s)).
  { intros s Hs. apply (rtc_ind_r (R := sessions_step cap) (fun s => sessions_ok cap (fst s) (snd s)) ([], 0));
      [split; unfold count; cbn; lia| |done].
    intros s1 s2 _ [ops1 a1 i op sp op' a2 Hi Hst|ops1 a1 op Hop] IH; simpl in *.
    - by eapply session_step_ok.
    - destruct IH as [H0 Hc Hb]. split; [done|done|].
      rewrite !count_ops_app, !count_one. destruct Hop as [->| ->]; simpl; lia. }
  destruct (Hok _ Hr) as [H0 Hc Hb]. simpl in *. split; [done|]. intros Hcap.
  specialize (Hc Hcap). lia.
Qed.

(** Two creations race for the single slot: one of them is rejected. *)
Lemma sessions_bounded_witness :
  0 <= 1 /\ (0 < 1 -> 1 <= 1 /\ count Created [Created; Rejected] - count Completed [Created; Rejected] <= 1).
Proof.
  apply (sessions_bounded 1 [Created; Rejected] 1).
  eapply rtc_l; [apply (sessions_dispatch 1 [] 0 CreateStart); by left|].
  eapply rtc_l; [apply (sessions_dispatch 1 _ 0 CreateStart); by left|].
  eapply rtc_l; [eapply (sessions_run 1 _ 0 0 CreateStart false); reflexivity|].
  eapply rtc_l; [eapply (sessions_run 1 _ 0 1 CreateStart false); reflexivity|].
  eapply rtc_l; [eapply (sessions_run 1 _ 0 0 (CreateCas 0) false); reflexivity|].
  eapply rtc_l; [eapply (sessions_run 1 _ 1 1 (CreateCas 0) false); reflexivity|].
  eapply rtc_l; [eapply (sessions_run 1 _ 1 1 (CreateCas 1) false); reflexivity|].
  apply rtc_refl.
Defined.
End Sessions.

(** ** Sticky-cache metrics ([EmitStickyCacheMetrics]) *)

Module StickyMetrics.
(** [last_cache_hits_] and the sum of what was emitted as hits; misses are alike. *)
Record state := mk { last_ : Z; emitted : Z }.

(** The part under the mutex, for a thread that read the cumulative counter earlier. *)
Definition emit (total : Z) (s : state) : state :=
  let delta := total - last_ s in
  {| last_ := total; emitted := if 0 <? delta then emitted s + delta else emitted s |}.

Definition emit_all (totals : list Z) : state := fold_left (fun s t => emit t s) totals (mk 0 0).

Definition increasing (totals : list Z) : Prop :=
  forall i a b, totals !! i = Some a -> totals !! S i = Some b -> a <= b.

Lemma emit_increasing totals s :
  increasing (last_ s :: totals) ->
  emitted (fold_left (fun s t => emit t s) totals s) =
  emitted s + (default (last_ s) (last totals) - last_ s).
Proof.
  revert s. induction totals as [|t totals IH]; intros s Hi; [simpl; lia|].
  cbn [fold_left]. rewrite IH.
  - pose proof (Hi 0%nat (last_ s) t eq_refl eq_refl). unfold emit. cbn [last_ emitted].
    rewrite (last_cons t totals).
    destruct (last totals) as [x|]; cbn [default];
      destruct (0 <? t - last_ s) eqn:E; [apply Z.ltb_lt in E|apply Z.ltb_ge in E|
        apply Z.ltb_lt in E|apply Z.ltb_ge in E]; cbn; lia.
  - intros i a b Ha Hb. by apply (Hi (S i)).
Qed.

(** The sticky-cache deltas add up to the cumulative counter when the threads
    reach the mutex in the order in which they read it; but the read is outside the
    mutex, and when two threads reach it in the other order hits are counted twice. *)
Theorem sticky_metrics_race :
  (forall totals, increasing (0 :: totals) ->
     emitted (emit_all totals) = default 0 (last totals)) /\
  (forall a b c, 0 <= a < b -> b <= c ->
     emitted (emit_all [b; a; c]) = c + (b - a) /\ c < c + (b - a)).
Proof.
  split.
  - intros totals Hi. unfold emit_all. rewrite emit_increasing by done. simpl. lia.
  - intros a b c Ha Hb. unfold emit_all, emit. simpl.
    rewrite (proj2 (Z.ltb_lt 0 (b - 0))) by lia.
    rewrite (proj2 (Z.ltb_ge 0 (a - b))) by lia.
    rewrite (proj2 (Z.ltb_lt 0 (c - a))) by lia. lia.
Qed.
End StickyMetrics.
