(* ===== verification/Pollers.v ===== *)
(** * The poll loops

    [WorkerImpl::Start], [Stop], [WorkflowPollLoop], [ActivityPollLoop] and
    [NexusPollLoop] ([src/src/internal/worker_impl.cpp]) as one machine: every poller
    thread has a program counter, [Stop] runs as the remaining list of its actions, and a
    step moves one thread or [Stop].  What the server, the task handlers and the clock
    answer are the events of a step.  Logging and metrics are not part of the state. *)

From stdpp Require Import functions.
From S2P Require Import Prelude Common Worker.
Import Gate Scaler Limiter.

(** ** Options ([common/options.h]) *)

Record WorkerOptions := mkWorkerOptions {
  workflow_task_pollers : Z;
  activity_task_pollers : Z;
  max_concurrent_activity_executions : Z;
  max_concurrent_workflow_task_executions : Z;
  max_activities_per_second : Q;
  enable_poller_autoscaling : bool;
  min_concurrent_pollers : Z;
  max_concurrent_pollers : Z;
  autoscaling_idle_polls_before_park : Z;
  enable_sessions : bool;
  max_concurrent_sessions : Z
}.

Definition default_worker_options : WorkerOptions :=
  mkWorkerOptions 1 1 0 0 0 false 1 4 5 false 0.

#[export] Instance WorkerOptions_eta : Eta WorkerOptions := fun o =>
  {| workflow_task_pollers := workflow_task_pollers o;
     activity_task_pollers := activity_task_pollers o;
     max_concurrent_activity_executions := max_concurrent_activity_executions o;
     max_concurrent_workflow_task_executions := max_concurrent_workflow_task_executions o;
     max_activities_per_second := max_activities_per_second o;
     enable_poller_autoscaling := enable_poller_autoscaling o;
     min_concurrent_pollers := min_concurrent_pollers o;
     max_concurrent_pollers := max_concurrent_pollers o;
     autoscaling_idle_polls_before_park := autoscaling_idle_polls_before_park o;
     enable_sessions := enable_sessions o;
     max_concurrent_sessions := max_concurrent_sessions o |}.

(** ** Threads *)

(** The loops; the normal and the sticky workflow loops share their gate and scaler. *)
Inductive Kind := KWorkflow (sticky : bool) | KActivity | KSession | KNexus.

Inductive GateId := workflow_gate_ | activity_gate_ | session_gate_ | nexus_gate_.
Inductive ScalerId := wf_scaler_ | act_scaler_.

#[export] Instance GateId_eq_dec : EqDecision GateId.
Proof. solve_decision. Defined.
#[export] Instance ScalerId_eq_dec : EqDecision ScalerId.
Proof. solve_decision. Defined.

Definition gate_of (k : Kind) : GateId :=
  match k with
  | KWorkflow _ => workflow_gate_
  | KActivity => activity_gate_
  | KSession => session_gate_
  | KNexus => nexus_gate_
  end.

Definition scaler_of (k : Kind) : ScalerId :=
  match k with KWorkflow _ => wf_scaler_ | _ => act_scaler_ end.

(** Where a poller is in its loop.  [ParkGranted] and [ParkDecided] hold the scaler's
    mutex: the predicate of [Acquire] was true, or false and the thread is about to
    block; [Parked] is blocked on the condition variable. *)
Inductive pc :=
| Top
| ParkCheck | ParkGranted | ParkDecided | Parked
| Polling
| Reporting (got_task : bool)
| Releasing (got_task : bool)
| Received (got_task : bool)
| Dispatching
| Pacing | PaceWait (allowed : Z) | Paced
| AtGate
| Handling
| Failed (slot_held : bool)
| Backoff
| Exited.

Record thread := mkThread { t_kind : Kind; t_index : Z; t_pc : pc }.

Definition with_pc (p : pc) (t : thread) : thread := mkThread (t_kind t) (t_index t) p.

(** The actions of [Stop], in program order. *)
Inductive StopAction :=
| SetDraining | SetStop
| ReleaseGate (g : GateId)
| WakeScaler (s : ScalerId)
| DrainGates
| Join.

Definition Stop : list StopAction :=
  [SetDraining; SetStop;
   ReleaseGate workflow_gate_; ReleaseGate activity_gate_; ReleaseGate session_gate_;
   ReleaseGate nexus_gate_;
   WakeScaler wf_scaler_; WakeScaler act_scaler_;
   DrainGates; Join].

Record WorkerImpl := mkWorker {
  options_ : WorkerOptions;
  gates : GateId -> ConcurrencyGate;
  scalers : ScalerId -> PollerScaler;
  activity_rate_limiter_ : RateLimiter;
  stop_ : bool;
  draining_ : bool;
  threads_ : list thread;
  (** what [Stop] has left to do, once it is called *)
  stopper : option (list StopAction)
}.

#[export] Instance WorkerImpl_eta : Eta WorkerImpl := fun w =>
  {| options_ := options_ w; gates := gates w; scalers := scalers w;
     activity_rate_limiter_ := activity_rate_limiter_ w; stop_ := stop_ w;
     draining_ := draining_ w; threads_ := threads_ w; stopper := stopper w |}.

(** ** [Start] *)

Definition pool_size (o : WorkerOptions) (pollers : Z) : Z :=
  let base := if 0 <? pollers then pollers else 1 in
  let min_hot := if enable_poller_autoscaling o then Z.max 1 (min_concurrent_pollers o) else 0 in
  if enable_poller_autoscaling o
  then Z.max (Z.max base (max_concurrent_pollers o)) min_hot else base.

(** How many of a pool of [n] never park. *)
Definition hot_size (o : WorkerOptions) (n : Z) : Z :=
  let min_hot := if enable_poller_autoscaling o then Z.max 1 (min_concurrent_pollers o) else 0 in
  if enable_poller_autoscaling o then Z.min min_hot n else n.

Definition new_worker (o : WorkerOptions) : WorkerImpl :=
  {| options_ := o;
     gates g :=
       Gate.new match g with
                | workflow_gate_ => max_concurrent_workflow_task_executions o
                | activity_gate_ => max_concurrent_activity_executions o
                | session_gate_ => max_concurrent_sessions o
                | nexus_gate_ => max_concurrent_activity_executions o
                end;
     scalers _ := Scaler.new;
     activity_rate_limiter_ := Limiter.new (max_activities_per_second o);
     stop_ := false; draining_ := false; threads_ := []; stopper := None |}.

Definition workflow_loops (n : Z) : list thread :=
  flat_map (fun i => [mkThread (KWorkflow false) i Top; mkThread (KWorkflow true) i Top]) (seqZ 0 n).

Definition activity_loops (n : Z) : list thread := (fun i => mkThread KActivity i Top) <$> seqZ 0 n.

Definition Start (has_workflows has_activities has_operations : bool) (w : WorkerImpl) : WorkerImpl :=
  let o := options_ w in
  let wf_pool := pool_size o (workflow_task_pollers o) in
  let act_pool := pool_size o (activity_task_pollers o) in
  let w :=
    if has_workflows then
      let always_hot := 2 * hot_size o wf_pool in
      w <| scalers ::= fun ss => <[wf_scaler_ :=
             Configure always_hot (2 * wf_pool - always_hot)
               (autoscaling_idle_polls_before_park o) (ss wf_scaler_)]> ss |>
        <| threads_ ::= fun ts => ts ++ workflow_loops wf_pool |>
    else w in
  let w :=
    if has_activities then
      let always_hot := hot_size o act_pool in
      w <| scalers ::= fun ss => <[act_scaler_ :=
             Configure always_hot (act_pool - always_hot)
               (autoscaling_idle_polls_before_park o) (ss act_scaler_)]> ss |>
        <| threads_ ::= fun ts => ts ++ activity_loops act_pool ++
             (if enable_sessions o then [mkThread KSession 0 Top] else []) |>
    else w in
  if has_operations then w <| threads_ ::= fun ts => ts ++ [mkThread KNexus 0 Top] |> else w.

(** ** One iteration, statement by statement *)

Section Machine.
Context (interval : Q -> Z).

Inductive event :=
| Step
| PollReturns (got_task : bool) | PollThrows
| HandleReturns | HandleThrows
| ClockReads (now : Z)
(** the waiter that [notify_one] wakes, if there is one *)
| Wakes (i : nat)
| SpuriousWakeup.

(** Whether the autoscaler gates the loop. *)
Definition scalable (o : WorkerOptions) (t : thread) : bool :=
  enable_poller_autoscaling o &&
  match t_kind t with
  | KWorkflow _ | KActivity => Z.max 1 (min_concurrent_pollers o) <=? t_index t
  | KSession | KNexus => false
  end.

(** Whether the loop feeds its polls back to the scaler. *)
Definition reports (o : WorkerOptions) (t : thread) : bool :=
  enable_poller_autoscaling o &&
  match t_kind t with KWorkflow _ | KActivity => true | KSession | KNexus => false end.

Definition paced (k : Kind) : bool :=
  match k with KActivity | KSession => true | KWorkflow _ | KNexus => false end.

Definition on_scaler (s : ScalerId) (t : thread) : bool := bool_decide (scaler_of (t_kind t) = s).

Definition holds_mutex (s : ScalerId) (t : thread) : bool :=
  on_scaler s t && match t_pc t with ParkGranted | ParkDecided => true | _ => false end.

Definition parked (s : ScalerId) (t : thread) : bool :=
  on_scaler s t && match t_pc t with Parked => true | _ => false end.

Definition mutex_free (s : ScalerId) (w : WorkerImpl) : bool :=
  negb (existsb (holds_mutex s) (threads_ w)).

Definition wake (s : ScalerId) (t : thread) : thread :=
  if parked s t then with_pc ParkCheck t else t.

Definition notify_all (s : ScalerId) (ts : list thread) : list thread := wake s <$> ts.

(** [notify_one] wakes one waiter, which the event chooses; it does nothing when
    there is none. *)
Definition notify_one (s : ScalerId) (i : nat) (ts : list thread) : option (list thread) :=
  if existsb (parked s) ts
  then match ts !! i with
       | Some t => if parked s t then Some (<[i := wake s t]> ts) else None
       | None => None
       end
  else Some ts.

Definition set_scaler (s : ScalerId) (f : PollerScaler -> PollerScaler) (w : WorkerImpl) : WorkerImpl :=
  w <| scalers ::= fun ss => <[s := f (ss s)]> ss |>.

Definition set_gate (g : GateId) (f : ConcurrencyGate -> ConcurrencyGate) (w : WorkerImpl) : WorkerImpl :=
  w <| gates ::= fun gs => <[g := f (gs g)]> gs |>.

(** [PollerScaler::Release] *)
Definition release_slot (s : ScalerId) (i : nat) (w : WorkerImpl) : option WorkerImpl :=
  if mutex_free s w then
    match notify_one s i (threads_ w) with
    | Some ts => Some ((set_scaler s Scaler.Release w) <| threads_ := ts |>)
    | None => None
    end
  else None.

(** What a thread does next: the shared state and its own position afterwards, or
    [None] when it cannot move (it is blocked, has exited, or the event is not one it
    waits for). *)
Definition step_at (t : thread) (ev : event) (w : WorkerImpl) : option (WorkerImpl * pc) :=
  let o := options_ w in
  let s := scaler_of (t_kind t) in
  let g := gate_of (t_kind t) in
  match t_pc t, ev with
  | Top, Step =>
    Some (w, if stop_ w then Exited else if scalable o t then ParkCheck else Polling)
  | ParkCheck, Step =>
    if mutex_free s w
    then Some (w, if stop_ w || may_poll (scalers w s) then ParkGranted else ParkDecided)
    else None
  | ParkDecided, Step => Some (w, Parked)
  | Parked, SpuriousWakeup => Some (w, ParkCheck)
  | ParkGranted, Step =>
    if stop_ w then Some (w, Exited) else Some (set_scaler s take_slot w, Polling)
  | Polling, PollReturns got_task => Some (w, Reporting got_task)
  | Polling, PollThrows => Some (w, Failed (scalable o t))
  | Reporting got_task, Step =>
    let next := if scalable o t then Releasing got_task else Received got_task in
    if reports o t then
      if mutex_free s w then
        let '(s', notify) := Report got_task (scalers w s) in
        let w := set_scaler s (fun _ => s') w in
        Some (if notify then w <| threads_ ::= notify_all s |> else w, next)
      else None
    else Some (w, next)
  | Releasing got_task, Wakes i =>
    match release_slot s i w with Some w => Some (w, Received got_task) | None => None end
  | Received got_task, Step =>
    Some (w, if stop_ w then Exited else if got_task then Dispatching else Top)
  | Dispatching, Step =>
    Some (w, if draining_ w then Top else if paced (t_kind t) then Pacing else AtGate)
  | Pacing, ClockReads now =>
    let '(l, slot) := reserve interval now (activity_rate_limiter_ w) in
    Some (w <| activity_rate_limiter_ := l |>,
          match slot with Some allowed => PaceWait allowed | None => Paced end)
  | PaceWait allowed, ClockReads now =>
    if stop_ w || (allowed <=? now) then Some (w, Paced) else None
  | Paced, Step => Some (w, if stop_ w then Exited else AtGate)
  | AtGate, Step =>
    match Gate.Acquire (gates w g) with
    | Some (gate, held) => Some (set_gate g (fun _ => gate) w, if held then Handling else Exited)
    | None => None
    end
  | Handling, HandleReturns => Some (set_gate g Gate.Release w, Top)
  | Handling, HandleThrows => Some (set_gate g Gate.Release w, Failed false)
  | Failed true, Wakes i =>
    match release_slot s i w with Some w => Some (w, Failed false) | None => None end
  | Failed false, Step => Some (w, if stop_ w then Exited else Backoff)
  | Backoff, Step => Some (w, Top)
  | _, _ => None
  end.

Definition thread_step (i : nat) (ev : event) (w : WorkerImpl) : option WorkerImpl :=
  match threads_ w !! i with
  | None => None
  | Some t =>
    match step_at t ev w with
    | Some (w, p) => Some (w <| threads_ ::= fun ts => <[i := with_pc p t]> ts |>)
    | None => None
    end
  end.

Definition exited (t : thread) : bool := match t_pc t with Exited => true | _ => false end.

(** Calling [Stop], or its next action.  [Drain] is bounded by its deadline, so it
    always returns; [Join] waits for the threads. *)
Definition stop_step (w : WorkerImpl) : option WorkerImpl :=
  match stopper w with
  | None => Some (w <| stopper := Some Stop |>)
  | Some [] => None
  | Some (a :: rest) =>
    let done (w : WorkerImpl) := Some (w <| stopper := Some rest |>) in
    match a with
    | SetDraining => done (w <| draining_ := true |>)
    | SetStop => done (w <| stop_ := true |>)
    | ReleaseGate g => done (set_gate g Gate.ReleaseAll w)
    | WakeScaler s => done (w <| threads_ ::= notify_all s |>)
    | DrainGates => done w
    | Join => if forallb exited (threads_ w) then done (w <| threads_ := [] |>) else None
    end
  end.

Inductive step : WorkerImpl -> WorkerImpl -> Prop :=
| step_thread w i ev w' : thread_step i ev w = Some w' -> step w w'
| step_stop w w' : stop_step w = Some w' -> step w w'.

(** From a started worker. *)
Definition reachable (w : WorkerImpl) : Prop :=
  exists o hw ha hn, rtc step (Start hw ha hn (new_worker o)) w.
End Machine.
