(* ===== verification/PollersFacts.v ===== *)
(** * Facts about the poll loops

    The sizing of the pools, the accounting of permits and poll slots in every reachable
    state, and what [Stop] achieves. *)

From stdpp Require Import functions.
From S2P Require Import Prelude Common Worker Pollers.
Import Gate Scaler Limiter.

(** ** Counting threads *)

Definition count (p : thread -> bool) (ts : list thread) : Z :=
  fold_right (fun t n => Z.b2z (p t) + n) 0 ts.

Lemma count_app p ts ts' : count p (ts ++ ts') = count p ts + count p ts'.
Proof. induction ts as [|t ts IH]; simpl; [done|]. rewrite IH. lia. Qed.

Lemma count_nonneg p ts : 0 <= count p ts.
Proof. induction ts as [|t ts IH]; simpl; [done|]. destruct (p t); simpl; lia. Qed.

Lemma count_insert p ts i t t' :
  ts !! i = Some t -> count p (<[i := t']> ts) = count p ts - Z.b2z (p t) + Z.b2z (p t').
Proof.
  revert i. induction ts as [|u ts IH]; intros [|i] Hi; simplify_eq/=; [lia|].
  rewrite (IH i Hi). lia.
Qed.

Lemma count_in p ts i t : ts !! i = Some t -> p t = true -> 1 <= count p ts.
Proof.
  revert i. induction ts as [|u ts IH]; intros [|i] Hi Hp; simplify_eq/=.
  - rewrite Hp. pose proof (count_nonneg p ts). simpl. lia.
  - specialize (IH i Hi Hp). destruct (p u); simpl; lia.
Qed.

Lemma count_two p ts i j t t' :
  ts !! i = Some t -> ts !! j = Some t' -> i <> j -> p t = true -> p t' = true ->
  2 <= count p ts.
Proof.
  revert i j. induction ts as [|u ts IH]; intros [|i] [|j] Hi Hj Hn Hp Hp'; simplify_eq/=.
  - pose proof (count_in p ts j t' Hj Hp'). rewrite Hp. simpl. lia.
  - pose proof (count_in p ts i t Hi Hp). rewrite Hp'. simpl. lia.
  - assert (Hij : i <> j) by congruence. specialize (IH i j Hi Hj Hij Hp Hp').
    destruct (p u); simpl; lia.
Qed.

Lemma count_ext p q ts : Forall (fun t => p t = q t) ts -> count p ts = count q ts.
Proof. induction 1 as [|t ts Ht _ IH]; simpl; [done|]. by rewrite Ht, IH. Qed.

Lemma count_all_false p ts : Forall (fun t => p t = false) ts -> count p ts = 0.
Proof. induction 1 as [|t ts Ht _ IH]; simpl; [done|]. by rewrite Ht, IH. Qed.

Lemma existsb_false {A} (p : A -> bool) l i x : existsb p l = false -> l !! i = Some x -> p x = false.
Proof.
  intros He Hi. destruct (p x) eqn:E; [|done]. rewrite <- He. symmetry. apply existsb_exists.
  exists x. split; [|done]. apply list_elem_of_In. by eapply list_elem_of_lookup_2.
Qed.

(** ** The pools *)

Definition loops (k : Kind) (n : Z) : list thread := (fun i => mkThread k i Top) <$> seqZ 0 n.

Lemma count_workflow_loops p n :
  count p (workflow_loops n) = count p (loops (KWorkflow false) n) + count p (loops (KWorkflow true) n).
Proof.
  unfold workflow_loops, loops. induction (seqZ 0 n) as [|i l IH]; [done|].
  cbn [flat_map fmap list_fmap app count fold_right]. rewrite app_nil_l || idtac.
  fold (count p) in *. cbn. unfold count in *. cbn in *. lia.
Qed.

(** Of [n] loops numbered from zero, those numbered from [m] on. *)
Lemma count_loops p k m n :
  0 <= n -> 0 <= m -> (forall i, p (mkThread k i Top) = (m <=? i)) ->
  count p (loops k n) = n - Z.min m n.
Proof.
  intros Hn Hm Hp. rewrite <- (Z2Nat.id n) by done. clear Hn.
  induction (Z.to_nat n) as [|j IH]; [simpl; lia|].
  unfold loops in *. rewrite seqZ_S, fmap_app, count_app, IH. simpl. rewrite Hp.
  destruct (m <=? 0 + Z.of_nat j) eqn:E; [apply Z.leb_le in E|apply Z.leb_gt in E]; simpl; lia.
Qed.

Lemma count_loops_not p k n :
  0 <= n -> count (fun t => negb (p t)) (loops k n) = n - count p (loops k n).
Proof.
  intros Hn. rewrite <- (Z2Nat.id n) by done. clear Hn.
  induction (Z.to_nat n) as [|j IH]; [done|].
  unfold loops in *. rewrite seqZ_S, fmap_app, !count_app, IH. simpl.
  destruct (p _); simpl; lia.
Qed.

Lemma pool_pos o n : 1 <= pool_size o n.
Proof.
  unfold pool_size. destruct (0 <? n) eqn:E; [apply Z.ltb_lt in E|];
    destruct (enable_poller_autoscaling o); lia.
Qed.

(** The loops that may park, and those that never do. *)
Lemma scalable_loops o k n :
  0 <= n -> match k with KWorkflow _ | KActivity => True | _ => False end ->
  count (scalable o) (loops k n) = n - hot_size o n /\
  count (fun t => negb (scalable o t)) (loops k n) = hot_size o n.
Proof.
  intros Hn Hk.
  assert (Hs : count (scalable o) (loops k n) = n - hot_size o n).
  { unfold hot_size. destruct (enable_poller_autoscaling o) eqn:E.
    - apply count_loops; [done|lia|]. intros i. unfold scalable. rewrite E. by destruct k.
    - rewrite (count_all_false (scalable o)); [lia|]. apply Forall_fmap, Forall_true. intros i.
      unfold compose, scalable. by rewrite E. }
  split; [done|]. rewrite count_loops_not by done. lia.
Qed.

Lemma hot_size_pos o n : 1 <= n -> 1 <= hot_size o n.
Proof. intros Hn. unfold hot_size. destruct (enable_poller_autoscaling o); lia. Qed.

Lemma first_loop k n : 1 <= n -> loops k n !! 0%nat = Some (mkThread k 0 Top).
Proof.
  intros Hn. unfold loops. rewrite list_lookup_fmap, lookup_seqZ_lt by lia. done.
Qed.

Lemma workflow_loops_in o n sticky :
  1 <= n -> mkThread (KWorkflow sticky) 0 Top ∈ workflow_loops n /\
            scalable o (mkThread (KWorkflow sticky) 0 Top) = false.
Proof.
  intros Hn. split.
  - unfold workflow_loops. apply list_elem_of_In, in_flat_map. exists 0. split.
    + apply list_elem_of_In, elem_of_seqZ. lia.
    + destruct sticky; simpl; auto.
  - unfold scalable. simpl. destruct (enable_poller_autoscaling o); [|done]. apply Z.leb_gt. lia.
Qed.

Definition of_scaler (s : ScalerId) (t : thread) : bool :=
  match t_kind t, s with
  | KWorkflow _, wf_scaler_ => true
  | KActivity, act_scaler_ => true
  | _, _ => false
  end.

Lemma count_split p q ts : count (fun t => p t && q t) ts + count (fun t => p t && negb (q t)) ts = count p ts.
Proof. induction ts as [|t ts IH]; simpl; [done|]. destruct (p t), (q t); simpl; lia. Qed.

Lemma count_loops_of s p k n b :
  (forall i, of_scaler s (mkThread k i Top) = b) ->
  count (fun t => of_scaler s t && p t) (loops k n) = if b then count p (loops k n) else 0.
Proof.
  intros Hb. destruct b.
  - apply count_ext, Forall_fmap, Forall_true. intros i. unfold compose. by rewrite Hb.
  - apply count_all_false, Forall_fmap, Forall_true. intros i. unfold compose. by rewrite Hb.
Qed.

(** [Start] configures each scaler for exactly the threads it spawns: as many loops
    never park as [always_hot] says, as many may park as [max_scalable] says; and when
    workflows are registered, one normal and one sticky loop always poll. *)
Theorem Start_pools (o : WorkerOptions) (hw ha hn : bool) (s : ScalerId) :
  let w := Start hw ha hn (new_worker o) in
  count (fun t => of_scaler s t && negb (scalable o t)) (threads_ w) = always_hot_ (scalers w s) /\
  count (fun t => of_scaler s t && scalable o t) (threads_ w) = max_scalable_ (scalers w s) /\
  (hw = true -> forall sticky, exists t,
     t ∈ threads_ w /\ t_kind t = KWorkflow sticky /\ scalable o t = false).
Proof.
  pose proof (pool_pos o (workflow_task_pollers o)) as Hwp.
  pose proof (pool_pos o (activity_task_pollers o)) as Hap.
  assert (Hwp0 : 0 <= pool_size o (workflow_task_pollers o)) by lia.
  assert (Hap0 : 0 <= pool_size o (activity_task_pollers o)) by lia.
  pose proof (fun sticky => scalable_loops o (KWorkflow sticky) _ Hwp0 I) as Hwf.
  pose proof (scalable_loops o KActivity _ Hap0 I) as Hac.
  assert (Hcount : forall q,
    count (fun t => of_scaler s t && q t) (threads_ (Start hw ha hn (new_worker o))) =
    (if hw then if decide (s = wf_scaler_)
       then count q (loops (KWorkflow false) (pool_size o (workflow_task_pollers o))) +
            count q (loops (KWorkflow true) (pool_size o (workflow_task_pollers o))) else 0 else 0) +
    (if ha then if decide (s = act_scaler_)
       then count q (loops KActivity (pool_size o (activity_task_pollers o))) else 0 else 0)).
  { intros q.
    assert (Hw : count (fun t => of_scaler s t && q t) (workflow_loops (pool_size o (workflow_task_pollers o))) =
      if decide (s = wf_scaler_)
       then count q (loops (KWorkflow false) (pool_size o (workflow_task_pollers o))) +
            count q (loops (KWorkflow true) (pool_size o (workflow_task_pollers o))) else 0).
    { rewrite count_workflow_loops. rewrite !(count_loops_of s q _ _ (bool_decide (s = wf_scaler_))) by (by destruct s).
      by destruct s. }
    assert (Ha : count (fun t => of_scaler s t && q t) (activity_loops (pool_size o (activity_task_pollers o))) =
      if decide (s = act_scaler_) then count q (loops KActivity (pool_size o (activity_task_pollers o))) else 0).
    { change (activity_loops ?n) with (loops KActivity n).
      rewrite (count_loops_of s q _ _ (bool_decide (s = act_scaler_))) by (by destruct s). by destruct s. }
    assert (Hrest : forall k, match k with KSession | KNexus => True | _ => False end ->
      count (fun t => of_scaler s t && q t) [mkThread k 0 Top] = 0) by (by intros [] ?; destruct s).
    unfold Start. cbn [options_ new_worker].
    destruct hw, ha, hn, (enable_sessions o); cbn -[count pool_size hot_size decide];
      rewrite ?app_nil_r, ?count_app, ?Hw, ?Ha, ?Hrest by done; simpl count; lia. }
  cbn zeta. rewrite !Hcount. split_and!.
  - destruct s, hw, ha, hn; cbn -[count pool_size hot_size scalable decide];
      repeat (rewrite fn_lookup_insert || rewrite fn_lookup_insert_ne by done); cbn -[count pool_size hot_size scalable decide];
      rewrite ?(proj2 (Hwf false)), ?(proj2 (Hwf true)), ?(proj2 Hac); repeat case_decide; done || lia.
  - destruct s, hw, ha, hn; cbn -[count pool_size hot_size scalable decide];
      repeat (rewrite fn_lookup_insert || rewrite fn_lookup_insert_ne by done); cbn -[count pool_size hot_size scalable decide];
      rewrite ?(proj1 (Hwf false)), ?(proj1 (Hwf true)), ?(proj1 Hac); repeat case_decide; done || lia.
  - intros -> sticky. destruct (workflow_loops_in o _ sticky Hwp) as [Hin Hsc].
    exists (mkThread (KWorkflow sticky) 0 Top). split; [|done].
    unfold Start. cbn [options_ new_worker]. destruct ha, hn; cbn -[workflow_loops pool_size hot_size activity_loops];
      rewrite ?elem_of_app; auto.
Qed.

(** A pool whose maximum does not exceed its base count is not fixed, although
    [options.h] says so: with autoscaling on, every loop beyond the minimum parks. *)
Theorem pool_at_base_is_elastic (o : WorkerOptions) (ha hn : bool)
  (Hscale : enable_poller_autoscaling o = true)
  (Hmax : max_concurrent_pollers o <= workflow_task_pollers o)
  (Hmin : 1 <= min_concurrent_pollers o < workflow_task_pollers o) :
  max_scalable_ (scalers (Start true ha hn (new_worker o)) wf_scaler_) =
    2 * (workflow_task_pollers o - min_concurrent_pollers o) /\
  0 < max_scalable_ (scalers (Start true ha hn (new_worker o)) wf_scaler_).
Proof.
  assert (Hp : pool_size o (workflow_task_pollers o) = workflow_task_pollers o).
  { unfold pool_size. rewrite Hscale, (proj2 (Z.ltb_lt _ _)) by lia. lia. }
  assert (Hh : hot_size o (workflow_task_pollers o) = min_concurrent_pollers o).
  { unfold hot_size. rewrite Hscale. lia. }
  assert (E : max_scalable_ (scalers (Start true ha hn (new_worker o)) wf_scaler_) =
    2 * pool_size o (workflow_task_pollers o) - 2 * hot_size o (pool_size o (workflow_task_pollers o))).
  { unfold Start. cbn [options_ new_worker].
    destruct ha, hn; cbn -[pool_size hot_size];
      repeat (rewrite fn_lookup_insert || rewrite fn_lookup_insert_ne by done); reflexivity. }
  rewrite E, !Hp, Hh. lia.
Qed.

Lemma pool_at_base_is_elastic_witness :
  let o := default_worker_options <| enable_poller_autoscaling := true |>
             <| workflow_task_pollers := 4 |> in
  max_scalable_ (scalers (Start true true false (new_worker o)) wf_scaler_) = 2 * (4 - 1) /\
  0 < max_scalable_ (scalers (Start true true false (new_worker o)) wf_scaler_).
Proof.
  apply (pool_at_base_is_elastic
    (mkWorkerOptions 4 1 0 0 0 true 1 4 5 false 0) true false); simpl; [reflexivity|lia|lia].
Defined.

(** ** Steps *)

Definition handling (g : GateId) (t : thread) : bool :=
  bool_decide (gate_of (t_kind t) = g) && match t_pc t with Handling => true | _ => false end.

(** Whether a thread holds a slot of the scaler. *)
Definition holds_slot (o : WorkerOptions) (s : ScalerId) (t : thread) : bool :=
  on_scaler s t &&
  match t_pc t with
  | Polling | Reporting _ => scalable o t
  | Releasing _ => true
  | Failed held => held
  | _ => false
  end.

(** A predicate that waking a waiter does not change. *)
Definition wake_stable (p : thread -> bool) : Prop := forall s t, p (wake s t) = p t.

(** Only a thread blocked on the condition variable is changed. *)
Lemma wake_cases s t : wake s t = t \/ t_pc t = Parked /\ wake s t = with_pc ParkCheck t.
Proof.
  unfold wake, parked. destruct (on_scaler s t); simpl; [|by left].
  destruct (t_pc t); simpl; auto.
Qed.

Lemma stable_if p : (forall t, t_pc t = Parked -> p (with_pc ParkCheck t) = p t) -> wake_stable p.
Proof. intros Hp s t. destruct (wake_cases s t) as [->|[Ht ->]]; auto. Qed.

Lemma handling_stable g : wake_stable (handling g).
Proof. apply stable_if. intros t Ht. unfold handling. by rewrite Ht. Qed.

Lemma holds_slot_stable o s : wake_stable (holds_slot o s).
Proof. apply stable_if. intros t Ht. unfold holds_slot. by rewrite Ht. Qed.

Lemma holds_mutex_stable s : wake_stable (holds_mutex s).
Proof. apply stable_if. intros t Ht. unfold holds_mutex. by rewrite Ht. Qed.

Lemma count_notify_all p s ts : wake_stable p -> count p (notify_all s ts) = count p ts.
Proof.
  intros Hp. unfold notify_all. induction ts as [|t ts IH]; [done|].
  cbn. rewrite Hp. f_equal. exact IH.
Qed.

(** The threads after some waiters of some scalers were woken. *)
Inductive woken : list thread -> list thread -> Prop :=
| woken_none ts : woken ts ts
| woken_all s ts : woken ts (notify_all s ts)
| woken_one s i t ts : ts !! i = Some t -> woken ts (<[i := wake s t]> ts).

Lemma notify_one_woken s i ts ts' : notify_one s i ts = Some ts' -> woken ts ts'.
Proof.
  unfold notify_one. intros H. split_match_in H; [by constructor|constructor].
Qed.

Lemma count_woken p ts ts' : wake_stable p -> woken ts ts' -> count p ts' = count p ts.
Proof.
  intros Hp [|s|s i t ts0 Hi]; [done|by apply count_notify_all|].
  rewrite (count_insert _ _ _ _ _ Hi), Hp. lia.
Qed.

Lemma woken_lookup ts ts' i t :
  woken ts ts' -> ts !! i = Some t -> exists t', ts' !! i = Some t' /\ (t' = t \/ exists s, t' = wake s t).
Proof.
  intros [|s|s j u ts0 Hj] Hi; [eauto| |].
  - exists (wake s t). unfold notify_all. rewrite list_lookup_fmap, Hi. eauto.
  - destruct (decide (i = j)) as [->|Hn].
    + assert (u = t) as -> by congruence. exists (wake s t).
      rewrite list_lookup_insert_eq by (by eapply lookup_lt_Some). eauto.
    + exists t. rewrite list_lookup_insert_ne by done. eauto.
Qed.

Lemma woken_lookup_inv ts ts' i t' :
  woken ts ts' -> ts' !! i = Some t' -> exists t, ts !! i = Some t /\ (t' = t \/ exists s, t' = wake s t).
Proof.
  intros [|s|s j u ts0 Hj] Hi; [eauto| |].
  - unfold notify_all in Hi. rewrite list_lookup_fmap in Hi.
    destruct (ts0 !! i) as [t|] eqn:E; simplify_eq/=. eauto.
  - destruct (decide (i = j)) as [->|Hn].
    + rewrite list_lookup_insert_eq in Hi by (by eapply lookup_lt_Some). simplify_eq. eauto.
    + rewrite list_lookup_insert_ne in Hi by done. eauto.
Qed.

Lemma length_woken ts ts' : woken ts ts' -> length ts' = length ts.
Proof.
  intros [|s|s i t ts0 Hi]; [done|by apply length_fmap|by rewrite length_insert].
Qed.

Lemma wake_kind s t : t_kind (wake s t) = t_kind t.
Proof. by destruct (wake_cases s t) as [->|[_ ->]]. Qed.

Lemma wake_index s t : t_index (wake s t) = t_index t.
Proof. by destruct (wake_cases s t) as [->|[_ ->]]. Qed.

(** ** The invariant *)

Definition parking (p : pc) : bool :=
  match p with ParkCheck | ParkGranted | ParkDecided | Parked => true | _ => false end.

Record inv (w : WorkerImpl) : Prop := {
  (** permits out are tasks being handled *)
  inv_gate : forall g, in_flight_ (gates w g) = count (handling g) (threads_ w);
  inv_limit : forall g, 0 < limit_ (gates w g) -> in_flight_ (gates w g) <= limit_ (gates w g);
  (** slots out are scalable threads polling *)
  inv_slots : forall s, scalable_active_ (scalers w s) =
                        count (holds_slot (options_ w) s) (threads_ w);
  inv_range : forall s, in_range (scalers w s);
  (** the scaler's mutex has one holder, and what it decided on still holds *)
  inv_mutex : forall s, count (holds_mutex s) (threads_ w) <= 1;
  inv_granted : forall i t, threads_ w !! i = Some t -> t_pc t = ParkGranted ->
    stop_ w = true \/ may_poll (scalers w (scaler_of (t_kind t))) = true;
  (** only the loops the autoscaler gates park *)
  inv_parking : forall i t, threads_ w !! i = Some t -> parking (t_pc t) = true ->
    scalable (options_ w) t = true
}.

(** What a step of thread [t] to [p] does to the shared state. *)
Record effect (t : thread) (w w1 : WorkerImpl) (p : pc) : Prop := {
  ef_options : options_ w1 = options_ w;
  ef_stop : stop_ w1 = stop_ w;
  ef_stopper : stopper w1 = stopper w;
  ef_woken : woken (threads_ w) (threads_ w1);
  ef_released : forall g, released_ (gates w1 g) = released_ (gates w g);
  ef_gates : forall g, limit_ (gates w1 g) = limit_ (gates w g) /\
    in_flight_ (gates w1 g) =
      in_flight_ (gates w g) + Z.b2z (handling g (with_pc p t)) - Z.b2z (handling g t) /\
    (0 < limit_ (gates w g) -> in_flight_ (gates w1 g) <= limit_ (gates w g));
  ef_slots : forall s, in_range (scalers w1 s) /\
    scalable_active_ (scalers w1 s) =
      scalable_active_ (scalers w s) + Z.b2z (holds_slot (options_ w) s (with_pc p t)) -
      Z.b2z (holds_slot (options_ w) s t);
  ef_mutex : forall s, holds_mutex s (with_pc p t) = true ->
    holds_mutex s t = true \/ mutex_free s w = true;
  ef_scalers : forall s, scalers w1 s = scalers w s \/ mutex_free s w = true \/ holds_mutex s t = true;
  ef_granted : p = ParkGranted ->
    stop_ w = true \/ may_poll (scalers w1 (scaler_of (t_kind t))) = true;
  ef_parking : parking p = true -> scalable (options_ w) t = true
}.

Lemma scalers_set s f w s' :
  scalers (set_scaler s f w) s' = if decide (s = s') then f (scalers w s) else scalers w s'.
Proof.
  unfold set_scaler. cbn. destruct (decide (s = s')) as [->|Hn];
    [apply fn_lookup_insert|by apply fn_lookup_insert_ne].
Qed.

Lemma gates_set g f w g' :
  gates (set_gate g f w) g' = if decide (g = g') then f (gates w g) else gates w g'.
Proof.
  unfold set_gate. cbn. destruct (decide (g = g')) as [->|Hn];
    [apply fn_lookup_insert|by apply fn_lookup_insert_ne].
Qed.

Section Effects.
Context (w : WorkerImpl) (Hw : inv w) (i : nat) (t : thread) (Hi : threads_ w !! i = Some t).

(** A step that neither takes nor gives back a permit, a slot or the mutex. *)
Lemma effect_move p :
  (forall g, handling g (with_pc p t) = handling g t) ->
  (forall s, holds_slot (options_ w) s (with_pc p t) = holds_slot (options_ w) s t) ->
  (forall s, holds_mutex s (with_pc p t) = true -> holds_mutex s t = true \/ mutex_free s w = true) ->
  (p = ParkGranted -> stop_ w = true \/ may_poll (scalers w (scaler_of (t_kind t))) = true) ->
  (parking p = true -> scalable (options_ w) t = true) ->
  effect t w w p.
Proof.
  intros Hg Hs Hm Hp Hpk. split; try done; [constructor| | |by left].
  - intros g. rewrite Hg. split_and!; [done|lia|apply (inv_limit _ Hw)].
  - intros s. rewrite Hs. split; [apply (inv_range _ Hw)|lia].
Qed.

(** A step that changes one scaler under its mutex. *)
Lemma effect_scaler s f ts p :
  woken (threads_ w) ts -> scaler_of (t_kind t) = s ->
  (mutex_free s w = true \/ holds_mutex s t = true) ->
  (forall g, handling g (with_pc p t) = handling g t) ->
  (forall s', holds_mutex s' (with_pc p t) = false) -> parking p = false ->
  in_range (f (scalers w s)) ->
  scalable_active_ (f (scalers w s)) =
    scalable_active_ (scalers w s) + Z.b2z (holds_slot (options_ w) s (with_pc p t)) -
    Z.b2z (holds_slot (options_ w) s t) ->
  effect t w ((set_scaler s f w) <| threads_ := ts |>) p.
Proof.
  intros Hts Hsc Hm Hg Hnm Hp Hr Ha. split; try done; [| | | |by intros ->|by rewrite Hp].
  - intros g. change (gates ((set_scaler s f w) <| threads_ := ts |>) g) with (gates w g). rewrite Hg.
    split_and!; [done|cbn; lia|apply (inv_limit _ Hw)].
  - intros s'. change (scalers ((set_scaler s f w) <| threads_ := ts |>) s') with (scalers (set_scaler s f w) s').
    rewrite scalers_set. destruct (decide (s = s')) as [<-|Hn]; [by split|].
    split; [apply (inv_range _ Hw)|].
    assert (Hoff : forall q, holds_slot (options_ w) s' (with_pc q t) = false /\
                             holds_slot (options_ w) s' t = false).
    { intros q. unfold holds_slot, on_scaler. cbn [t_kind with_pc].
      by rewrite bool_decide_false by congruence. }
    destruct (Hoff p) as [-> ->]. simpl. lia.
  - intros s'. by rewrite Hnm.
  - intros s'. change (scalers ((set_scaler s f w) <| threads_ := ts |>) s') with (scalers (set_scaler s f w) s').
    rewrite scalers_set. destruct (decide (s = s')) as [<-|Hn]; auto.
Qed.

(** A step that changes one gate. *)
Lemma effect_gate g f p :
  gate_of (t_kind t) = g ->
  (forall s, holds_slot (options_ w) s (with_pc p t) = holds_slot (options_ w) s t) ->
  (forall s, holds_mutex s (with_pc p t) = false) -> parking p = false ->
  limit_ (f (gates w g)) = limit_ (gates w g) -> released_ (f (gates w g)) = released_ (gates w g) ->
  in_flight_ (f (gates w g)) =
    in_flight_ (gates w g) + Z.b2z (handling g (with_pc p t)) - Z.b2z (handling g t) ->
  (0 < limit_ (gates w g) -> in_flight_ (f (gates w g)) <= limit_ (gates w g)) ->
  effect t w (set_gate g f w) p.
Proof.
  intros Hgo Hs Hnm Hp Hl Hr Hf Hlim.
  assert (Hoff : forall g', g <> g' -> handling g' (with_pc p t) = false /\ handling g' t = false).
  { intros g' Hn. unfold handling. cbn [t_kind with_pc]. by rewrite bool_decide_false by congruence. }
  split; try done.
  - constructor.
  - intros g'. rewrite gates_set. destruct (decide (g = g')) as [<-|Hn]; done.
  - intros g'. rewrite gates_set. destruct (decide (g = g')) as [<-|Hn]; [done|].
    destruct (Hoff g' Hn) as [-> ->]. split_and!; [done|simpl; lia|apply (inv_limit _ Hw)].
  - intros s. change (scalers (set_gate g f w) s) with (scalers w s). rewrite Hs.
    split; [apply (inv_range _ Hw)|lia].
  - intros s. by rewrite Hnm.
  - by left.
  - by intros ->.
  - by rewrite Hp.
Qed.

Lemma slot_held s : holds_slot (options_ w) s t = true -> 0 < scalable_active_ (scalers w s).
Proof. intros Hs. rewrite (inv_slots _ Hw). pose proof (count_in _ _ _ _ Hi Hs). lia. Qed.

Lemma permit_held g : handling g t = true -> 0 < in_flight_ (gates w g).
Proof. intros Hg. rewrite (inv_gate _ Hw). pose proof (count_in _ _ _ _ Hi Hg). lia. Qed.

Lemma release_gate_effect p :
  t_pc t = Handling -> handling (gate_of (t_kind t)) (with_pc p t) = false ->
  (forall s, holds_slot (options_ w) s (with_pc p t) = false) ->
  (forall s, holds_mutex s (with_pc p t) = false) -> parking p = false ->
  effect t w (set_gate (gate_of (t_kind t)) Gate.Release w) p.
Proof.
  intros Ep Hnh Hs Hnm Hp.
  assert (Hh : handling (gate_of (t_kind t)) t = true).
  { unfold handling. by rewrite Ep, bool_decide_true. }
  pose proof (permit_held _ Hh) as Hpos.
  assert (E : Gate.Release (gates w (gate_of (t_kind t))) =
              (gates w (gate_of (t_kind t))) <| in_flight_ ::= Z.pred |>).
  { unfold Gate.Release. by rewrite (proj2 (Z.ltb_lt _ _) Hpos). }
  apply effect_gate; rewrite ?E; auto.
  - intros s. rewrite Hs. unfold holds_slot. by rewrite Ep, andb_false_r.
  - rewrite Hnh, Hh. cbn. lia.
  - intros Hl. pose proof (inv_limit _ Hw (gate_of (t_kind t)) Hl). cbn. lia.
Qed.

Lemma release_slot_effect s j w1 p :
  scaler_of (t_kind t) = s -> release_slot s j w = Some w1 ->
  holds_slot (options_ w) s t = true -> holds_slot (options_ w) s (with_pc p t) = false ->
  (forall g, handling g (with_pc p t) = handling g t) ->
  (forall s', holds_mutex s' (with_pc p t) = false) -> parking p = false ->
  effect t w w1 p.
Proof.
  intros Hsc Hr Hh Hnh Hg Hnm Hp. unfold release_slot in Hr.
  destruct (mutex_free s w) eqn:Hm; [|done].
  destruct (notify_one s j (threads_ w)) as [ts|] eqn:Hn; simplify_eq.
  pose proof (slot_held _ Hh) as Hpos.
  apply effect_scaler; auto; [by eapply notify_one_woken|apply Release_in_range, Hw|].
  unfold Scaler.Release. rewrite (proj2 (Z.ltb_lt _ _) Hpos), Hh, Hnh. cbn. lia.
Qed.
End Effects.

Lemma scalable_pc o p t : scalable o (with_pc p t) = scalable o t.
Proof. done. Qed.

Lemma on_scaler_pc s p t : on_scaler s (with_pc p t) = on_scaler s t.
Proof. done. Qed.

(** Reduce the counted predicates at known positions. *)
Ltac positions Ep :=
  intros; unfold handling, holds_slot, holds_mutex in *; rewrite ?scalable_pc, ?on_scaler_pc;
  cbn [with_pc t_kind t_pc t_index parking] in *; rewrite ?Ep in *; cbn [parking] in *;
  repeat (case_match; simplify_eq);
  rewrite ?andb_false_r, ?andb_true_r, ?orb_true_iff in *; try done; eauto.

Section StepEffect.
Context (interval : Q -> Z).

Lemma on_own_scaler t : on_scaler (scaler_of (t_kind t)) t = true.
Proof. by apply bool_decide_true. Qed.

Lemma step_at_effect w i t ev w1 p :
  inv w -> threads_ w !! i = Some t -> step_at interval t ev w = Some (w1, p) ->
  effect t w w1 p.
Proof.
  intros Hw Hi Hs. unfold step_at in Hs.
  pose proof (inv_parking _ Hw i t Hi) as Hpark.
  pose proof (on_own_scaler t) as Hown.
  destruct (t_pc t) as [| | | | | | |b|b| | |allowed| | | |[]| |] eqn:Ep, ev; try done.
  - (* Top *) injection Hs as <- <-. apply effect_move; [done|positions Ep..].
  - (* ParkCheck *)
    destruct (mutex_free _ w) eqn:Hm; [|done]. injection Hs as <- <-.
    apply effect_move; [done|positions Ep..].
    + right. by rewrite <- (bool_decide_eq_true_1 _ H).
    + right. by rewrite <- (bool_decide_eq_true_1 _ H).
  - (* ParkGranted *)
    destruct (stop_ w) eqn:Hst; injection Hs as <- <-.
    + apply effect_move; [done|positions Ep..].
    + destruct (inv_granted _ Hw i t Hi Ep) as [|Hm]; [congruence|].
      apply (effect_scaler w Hw t (scaler_of (t_kind t)) take_slot (threads_ w));
        [constructor|done|right|positions Ep..|by apply take_slot_in_range, Hm; apply Hw|].
      * unfold holds_mutex. by rewrite Ep, Hown.
      * unfold holds_slot. rewrite scalable_pc. cbn [with_pc t_pc t_kind]. rewrite Ep, Hown.
        rewrite Hpark by done. unfold on_scaler in *. cbn in *. rewrite Hown. cbn. lia.
  - (* ParkDecided *) injection Hs as <- <-. apply effect_move; [done|positions Ep..].
  - (* Parked *) injection Hs as <- <-. apply effect_move; [done|positions Ep..].
  - (* Polling *) injection Hs as <- <-. apply effect_move; [done|positions Ep..].
  - injection Hs as <- <-. apply effect_move; [done|positions Ep..].
  - (* Reporting *)
    destruct (reports (options_ w) t) eqn:Hrep;
      [|injection Hs as <- <-; apply effect_move; [done|positions Ep..]].
    destruct (mutex_free _ w) eqn:Hm; [|done].
    destruct (Report got_task (scalers w (scaler_of (t_kind t)))) as [s' notify] eqn:Hr.
    injection Hs as <- <-.
    pose proof (Report_in_range got_task _ (inv_range _ Hw (scaler_of (t_kind t)))) as Hin.
    rewrite Hr in Hin.
    assert (He : forall ts, woken (threads_ w) ts ->
      effect t w ((set_scaler (scaler_of (t_kind t)) (fun _ => s') w) <| threads_ := ts |>)
        (if scalable (options_ w) t then Releasing got_task else Received got_task)).
    { intros ts Hts. apply effect_scaler; auto; [positions Ep..|].
      pose proof (Report_active got_task (scalers w (scaler_of (t_kind t)))) as Ha.
      rewrite Hr in Ha. cbn [fst] in Ha.
      assert (Hh : holds_slot (options_ w) (scaler_of (t_kind t))
                     (with_pc (if scalable (options_ w) t then Releasing got_task else Received got_task) t) =
                   holds_slot (options_ w) (scaler_of (t_kind t)) t) by positions Ep.
      rewrite Ha, Hh. lia. }
    destruct notify;
      [apply (He (notify_all _ (threads_ w))); constructor|apply (He (threads_ w)); constructor].
  - (* Releasing *)
    destruct (release_slot _ _ w) as [w'|] eqn:Hr; [|done]. injection Hs as <- <-.
    eapply release_slot_effect; eauto; positions Ep.
  - (* Received *) injection Hs as <- <-. apply effect_move; [done|positions Ep..].
  - (* Dispatching *) injection Hs as <- <-. apply effect_move; [done|positions Ep..].
  - (* Pacing *)
    destruct (reserve interval now (activity_rate_limiter_ w)) as [l slot] eqn:Hr.
    injection Hs as <- <-.
    assert (He : effect t w w match slot with Some allowed => PaceWait allowed | None => Paced end)
      by (apply effect_move; [done|positions Ep..]).
    by destruct He; split.
  - (* PaceWait *)
    destruct (stop_ w || (allowed <=? now)); [|done]. injection Hs as <- <-.
    apply effect_move; [done|positions Ep..].
  - (* Paced *) injection Hs as <- <-. apply effect_move; [done|positions Ep..].
  - (* AtGate *)
    destruct (Gate.Acquire _) as [[gate held]|] eqn:Ha; [|done]. injection Hs as <- <-.
    destruct (Acquire_spec _ _ _ Ha) as (Hl & Hrel & Hf & Hlim).
    apply effect_gate; auto; [positions Ep..| |intros Hpos; by apply Hlim, (inv_limit _ Hw)].
    rewrite Hf. unfold handling. cbn [with_pc t_pc t_kind]. rewrite Ep, bool_decide_true by done.
    destruct held; cbn; lia.
  - (* Handling, returned *)
    injection Hs as <- <-. by apply release_gate_effect with i; auto; positions Ep.
  - (* Handling, thrown *)
    injection Hs as <- <-. by apply release_gate_effect with i; auto; positions Ep.
  - (* Failed, holding the slot *)
    destruct (release_slot _ _ w) as [w'|] eqn:Hr; [|done]. injection Hs as <- <-.
    eapply release_slot_effect; eauto; positions Ep.
  - (* Failed *) injection Hs as <- <-. apply effect_move; [done|positions Ep..].
  - (* Backoff *) injection Hs as <- <-. apply effect_move; [done|positions Ep..].
Qed.
End StepEffect.

Lemma mutex_free_count s w : mutex_free s w = true -> count (holds_mutex s) (threads_ w) = 0.
Proof.
  unfold mutex_free. rewrite negb_true_iff. intros He. apply count_all_false, Forall_lookup.
  intros i t Hi. by eapply existsb_false.
Qed.

Section StepInv.
Context (w : WorkerImpl) (Hw : inv w) (i : nat) (t : thread) (Hi : threads_ w !! i = Some t).
Context (w1 : WorkerImpl) (p : pc) (He : effect t w w1 p).

Notation w' := (w1 <| threads_ ::= fun ts => <[i := with_pc p t]> ts |>).

Lemma count_after q :
  wake_stable q ->
  count q (threads_ w') = count q (threads_ w) - Z.b2z (q t) + Z.b2z (q (with_pc p t)).
Proof using He Hi.
  intros Hq. change (threads_ w') with (<[i := with_pc p t]> (threads_ w1)).
  destruct (woken_lookup _ _ _ _ (ef_woken _ _ _ _ He) Hi) as (t1 & H1 & Ht1).
  rewrite (count_insert _ _ _ _ _ H1), (count_woken _ _ _ Hq (ef_woken _ _ _ _ He)).
  destruct Ht1 as [->|[s ->]]; [done|]. by rewrite Hq.
Qed.

(** The other threads keep their kind and index, and their position unless woken. *)
Lemma others j u :
  threads_ w' !! j = Some u -> j <> i ->
  exists u0, threads_ w !! j = Some u0 /\ (u = u0 \/ t_pc u0 = Parked /\ u = with_pc ParkCheck u0).
Proof using He.
  intros Hj Hn. cbn in Hj. rewrite list_lookup_insert_ne in Hj by done.
  destruct (woken_lookup_inv _ _ _ _ (ef_woken _ _ _ _ He) Hj) as (u0 & H0 & [->|[s ->]]); [eauto|].
  destruct (wake_cases s u0) as [->|[Hp ->]]; eauto.
Qed.

Lemma at_i u : threads_ w' !! i = Some u -> u = with_pc p t.
Proof using He Hi.
  intros Hu. cbn in Hu.
  destruct (woken_lookup _ _ _ _ (ef_woken _ _ _ _ He) Hi) as (t1 & H1 & _).
  rewrite list_lookup_insert_eq in Hu by (by eapply lookup_lt_Some). congruence.
Qed.

Lemma granted_after j u :
  threads_ w' !! j = Some u -> t_pc u = ParkGranted ->
  stop_ w1 = true \/ may_poll (scalers w1 (scaler_of (t_kind u))) = true.
Proof using All.
  intros Hj Hp. rewrite (ef_stop _ _ _ _ He). destruct (decide (j = i)) as [->|Hn].
  - pose proof (at_i u Hj) as ->. by apply (ef_granted _ _ _ _ He).
  - destruct (others j u Hj Hn) as (u0 & H0 & [->|[_ ->]]); [|done].
    destruct (inv_granted _ Hw j u0 H0 Hp) as [|Hm]; [by left|right].
    assert (Hh : holds_mutex (scaler_of (t_kind u0)) u0 = true).
    { unfold holds_mutex. by rewrite on_own_scaler, Hp. }
    destruct (ef_scalers _ _ _ _ He (scaler_of (t_kind u0))) as [->|[Hf|Ht]]; [done| |].
    + apply mutex_free_count in Hf. pose proof (count_in _ _ _ _ H0 Hh). lia.
    + pose proof (inv_mutex _ Hw (scaler_of (t_kind u0))) as H1.
      pose proof (count_two _ _ _ _ _ _ H0 Hi Hn Hh Ht). lia.
Qed.

Lemma step_inv : inv w'.
Proof using All.
  split.
  - intros g. change (gates w' g) with (gates w1 g).
    destruct (ef_gates _ _ _ _ He g) as (_ & -> & _).
    rewrite (count_after _ (handling_stable g)), (inv_gate _ Hw). lia.
  - intros g. change (gates w' g) with (gates w1 g).
    destruct (ef_gates _ _ _ _ He g) as (-> & _ & Hl). done.
  - intros s. change (scalers w' s) with (scalers w1 s).
    change (options_ w') with (options_ w1). rewrite (ef_options _ _ _ _ He).
    destruct (ef_slots _ _ _ _ He s) as (_ & ->).
    rewrite (count_after _ (holds_slot_stable _ s)), (inv_slots _ Hw). lia.
  - intros s. apply (ef_slots _ _ _ _ He s).
  - intros s. rewrite (count_after _ (holds_mutex_stable s)).
    pose proof (inv_mutex _ Hw s) as H1. destruct (holds_mutex s (with_pc p t)) eqn:Hp.
    + destruct (ef_mutex _ _ _ _ He s Hp) as [->|Hf]; simpl; [lia|].
      apply mutex_free_count in Hf. destruct (holds_mutex s t); simpl; lia.
    + destruct (holds_mutex s t); simpl; lia.
  - intros j u. apply granted_after.
  - intros j u Hj Hp. change (options_ w') with (options_ w1). rewrite (ef_options _ _ _ _ He).
    destruct (decide (j = i)) as [->|Hn].
    + pose proof (at_i u Hj) as ->. by apply (ef_parking _ _ _ _ He).
    + destruct (others j u Hj Hn) as (u0 & H0 & [->|[Hk ->]]); [by apply (inv_parking _ Hw j)|].
      rewrite scalable_pc. apply (inv_parking _ Hw j); [done|]. by rewrite Hk.
Qed.
End StepInv.

Lemma thread_step_inv interval i ev w w' : inv w -> thread_step interval i ev w = Some w' -> inv w'.
Proof.
  intros Hw Hs. unfold thread_step in Hs. destruct (threads_ w !! i) as [t|] eqn:Hi; [|done].
  destruct (step_at interval t ev w) as [[w1 p]|] eqn:Ha; [|done]. simplify_eq.
  apply (step_inv w Hw i t Hi). by eapply step_at_effect.
Qed.

(** [Stop] only raises flags, releases gates, wakes waiters and forgets dead threads. *)
Lemma inv_stop_flags w b b' l :
  inv w -> inv (w <| draining_ := b |> <| stop_ := stop_ w || b' |> <| stopper := l |>).
Proof.
  intros [H1 H2 H3 H4 H5 H6 H7]. split; try done. cbn. intros i t Hi Hp.
  destruct (H6 i t Hi Hp) as [->|]; auto.
Qed.

Lemma inv_woken w s : inv w -> inv (w <| threads_ ::= notify_all s |>).
Proof.
  intros Hw.
  assert (Et : threads_ (w <| threads_ ::= notify_all s |>) = notify_all s (threads_ w)) by done.
  split.
  - intros g. rewrite Et, count_notify_all by apply handling_stable. apply (inv_gate _ Hw).
  - apply (inv_limit _ Hw).
  - intros s'. rewrite Et, count_notify_all by apply holds_slot_stable. apply (inv_slots _ Hw).
  - apply (inv_range _ Hw).
  - intros s'. rewrite Et, count_notify_all by apply holds_mutex_stable. apply (inv_mutex _ Hw).
  - intros i t Hi Hp. rewrite Et in Hi. unfold notify_all in Hi. rewrite list_lookup_fmap in Hi.
    destruct (threads_ w !! i) as [u|] eqn:Hu; simplify_eq/=.
    destruct (wake_cases s u) as [E|[_ E]]; rewrite E in Hp |- *; [|done].
    by apply (inv_granted _ Hw i).
  - intros i t Hi Hp. rewrite Et in Hi. unfold notify_all in Hi. rewrite list_lookup_fmap in Hi.
    destruct (threads_ w !! i) as [u|] eqn:Hu; simplify_eq/=.
    destruct (wake_cases s u) as [E|[Hk E]]; rewrite E in Hp |- *.
    + by apply (inv_parking _ Hw i).
    + rewrite scalable_pc. apply (inv_parking _ Hw i); [done|]. by rewrite Hk.
Qed.

Lemma inv_release_gate w g : inv w -> inv (set_gate g Gate.ReleaseAll w).
Proof.
  intros Hw. split; try apply Hw.
  - intros g'. rewrite gates_set. destruct (decide (g = g')) as [->|]; apply (inv_gate _ Hw).
  - intros g'. rewrite gates_set. destruct (decide (g = g')) as [->|]; apply (inv_limit _ Hw).
Qed.

Lemma inv_joined w : inv w -> forallb exited (threads_ w) = true -> inv (w <| threads_ := [] |>).
Proof.
  intros Hw Hx.
  assert (Hz : forall q, (forall t, exited t = true -> q t = false) -> count q (threads_ w) = 0).
  { intros q Hq. apply count_all_false, Forall_forall. intros t Ht. apply Hq.
    rewrite forallb_forall in Hx. by apply Hx, list_elem_of_In. }
  split; cbn.
  - intros g. rewrite (inv_gate _ Hw). apply Hz. intros [k j []]; try done. intros _.
    unfold handling. by rewrite andb_false_r.
  - apply (inv_limit _ Hw).
  - intros s. rewrite (inv_slots _ Hw). apply Hz. intros [k j []]; try done. intros _.
    unfold holds_slot. by rewrite andb_false_r.
  - apply (inv_range _ Hw).
  - done.
  - done.
  - done.
Qed.

Lemma inv_stopper w l : inv w -> inv (w <| stopper := l |>).
Proof. intros [H1 H2 H3 H4 H5 H6 H7]. by split. Qed.

Lemma inv_draining w : inv w -> inv (w <| draining_ := true |>).
Proof. intros [H1 H2 H3 H4 H5 H6 H7]. by split. Qed.

Lemma inv_stopped w : inv w -> inv (w <| stop_ := true |>).
Proof. intros [H1 H2 H3 H4 H5 H6 H7]. split; try done. by left. Qed.

Lemma stop_step_inv w w' : inv w -> stop_step w = Some w' -> inv w'.
Proof.
  intros Hw Hs. unfold stop_step in Hs. destruct (stopper w) as [[|a rest]|]; [done| |].
  - destruct a; simplify_eq; try (apply inv_stopper).
    + by apply inv_draining.
    + by apply inv_stopped.
    + by apply inv_release_gate.
    + by apply inv_woken.
    + done.
    + destruct (forallb exited (threads_ w)) eqn:E; simplify_eq. by apply inv_stopper, inv_joined.
  - simplify_eq. by apply inv_stopper.
Qed.

Lemma new_in_range : in_range Scaler.new.
Proof. split; cbn; lia. Qed.

Lemma Configure_in_range hot m e s :
  0 <= m -> scalable_active_ s = 0 -> empty_streak_ s = 0 -> in_range (Configure hot m e s).
Proof.
  intros Hm Ha He. split; cbn -[Z.ltb]; [lia|lia|]. rewrite He.
  destruct (0 <? e) eqn:E; [apply Z.ltb_lt in E|]; lia.
Qed.

Lemma hot_size_le o n : 1 <= n -> hot_size o n <= n.
Proof. intros Hn. unfold hot_size. destruct (enable_poller_autoscaling o); lia. Qed.

(** [Start] from a new worker, field by field. *)
Lemma Start_gates o hw ha hn g : gates (Start hw ha hn (new_worker o)) g = gates (new_worker o) g.
Proof. unfold Start. by destruct hw, ha, hn. Qed.

Lemma Start_options o hw ha hn : options_ (Start hw ha hn (new_worker o)) = o.
Proof. unfold Start. by destruct hw, ha, hn. Qed.

Lemma Start_scalers o hw ha hn s : in_range (scalers (Start hw ha hn (new_worker o)) s) /\
  scalable_active_ (scalers (Start hw ha hn (new_worker o)) s) = 0.
Proof.
  pose proof (pool_pos o (workflow_task_pollers o)) as H1.
  pose proof (pool_pos o (activity_task_pollers o)) as H2.
  pose proof (hot_size_le o _ H1). pose proof (hot_size_le o _ H2).
  unfold Start. cbn [options_ new_worker].
  destruct s, hw, ha, hn; cbn -[pool_size hot_size];
    repeat (rewrite fn_lookup_insert || rewrite fn_lookup_insert_ne by done);
    (split; [|done]); (apply new_in_range || (apply Configure_in_range; [lia|done|done])).
Qed.

Lemma Start_threads o hw ha hn :
  Forall (fun t => t_pc t = Top) (threads_ (Start hw ha hn (new_worker o))).
Proof.
  assert (Hw : forall n, Forall (fun t => t_pc t = Top) (workflow_loops n)).
  { intros n. unfold workflow_loops. induction (seqZ 0 n); simpl; repeat constructor; done. }
  assert (Ha : forall n, Forall (fun t => t_pc t = Top) (activity_loops n)).
  { intros n. by apply Forall_fmap, Forall_true. }
  unfold Start. cbn [options_ new_worker].
  destruct hw, ha, hn, (enable_sessions o); cbn -[workflow_loops activity_loops pool_size];
    rewrite ?Forall_app; repeat split; auto; repeat constructor.
Qed.

Lemma Start_inv o hw ha hn : inv (Start hw ha hn (new_worker o)).
Proof.
  pose proof (Start_threads o hw ha hn) as Ht.
  assert (Hz : forall q, (forall t, t_pc t = Top -> q t = false) ->
    count q (threads_ (Start hw ha hn (new_worker o))) = 0).
  { intros q Hq. apply count_all_false. eapply Forall_impl; [exact Ht|]. auto. }
  rewrite Forall_lookup in Ht.
  split.
  - intros g. rewrite Start_gates, Hz; [done|]. intros t E. unfold handling. by rewrite E, andb_false_r.
  - intros g. rewrite Start_gates. cbn. lia.
  - intros s. rewrite (proj2 (Start_scalers o hw ha hn s)), Hz; [done|]. intros t E.
    unfold holds_slot. by rewrite E, andb_false_r.
  - intros s. apply Start_scalers.
  - intros s. rewrite Hz; [done|]. intros t E. unfold holds_mutex. by rewrite E, andb_false_r.
  - intros i t Hi Hp. rewrite (Ht i t Hi) in Hp. done.
  - intros i t Hi Hp. rewrite (Ht i t Hi) in Hp. done.
Qed.

Lemma reachable_inv interval w : reachable interval w -> inv w.
Proof.
  intros (o & hw & ha & hn & Hr).
  apply (rtc_ind_r (R := step interval) inv (Start hw ha hn (new_worker o))); [apply Start_inv| |done].
  intros w1 w2 _ Hs Hw. destruct Hs as [w1 i ev w2 Hs|w1 w2 Hs];
    [by eapply thread_step_inv|by eapply stop_step_inv].
Qed.

(** C30: in every reachable state of the worker, whatever the interleaving and whichever
    polls and handlers throw: the permits of a gate are exactly the tasks being handled,
    and never more than its limit; the slots of a scaler are exactly the gated threads
    that poll, never more than [max_scalable]; and the scaler's target stays in range.
    In particular no exception path leaks a permit or a slot. *)
Theorem permits_account_for_tasks (interval : Q -> Z) (w : WorkerImpl)
  (Hr : reachable interval w) :
  (forall g, in_flight_ (gates w g) = count (handling g) (threads_ w) /\
     (0 < limit_ (gates w g) -> count (handling g) (threads_ w) <= limit_ (gates w g))) /\
  (forall s, scalable_active_ (scalers w s) = count (holds_slot (options_ w) s) (threads_ w) /\
     scalable_active_ (scalers w s) <= max_scalable_ (scalers w s) /\
     0 <= target_ (scalers w s) <= max_scalable_ (scalers w s)).
Proof.
  apply reachable_inv in Hr as Hw. split.
  - intros g. split; [apply (inv_gate _ Hw)|]. rewrite <- (inv_gate _ Hw). apply (inv_limit _ Hw).
  - intros s. pose proof (inv_range _ Hw s) as [? ? ?].
    split; [apply (inv_slots _ Hw)|]. lia.
Qed.

(** ** [Stop] *)

(** How far a position is from the exit once [stop_] is set. *)
Definition rank (p : pc) : Z :=
  match p with
  | Exited => 0 | Top => 1 | Backoff => 2 | Failed false => 3 | Failed true => 4
  | Handling => 5 | AtGate => 6 | Paced => 7 | PaceWait _ => 8 | Pacing => 9
  | Dispatching => 10 | Received _ => 11 | Releasing _ => 12 | Reporting _ => 13
  | Polling => 14 | ParkGranted => 15 | ParkCheck => 16 | Parked => 17 | ParkDecided => 18
  end.

Definition measure (ts : list thread) : Z := fold_right (fun t n => rank (t_pc t) + n) 0 ts.

Lemma rank_bounds p : 0 <= rank p <= 18.
Proof. by destruct p as [| | | | | | | | | | | | | | |[]| |]. Qed.

Lemma measure_bounds ts : 0 <= measure ts <= 18 * Z.of_nat (length ts).
Proof.
  induction ts as [|t ts IH]; simpl; [done|]. pose proof (rank_bounds (t_pc t)). lia.
Qed.

Lemma measure_insert ts i t t' :
  ts !! i = Some t -> measure (<[i := t']> ts) = measure ts - rank (t_pc t) + rank (t_pc t').
Proof.
  revert i. induction ts as [|u ts IH]; intros [|i] Hi; simplify_eq/=; [lia|].
  rewrite (IH i Hi). lia.
Qed.

Lemma rank_wake s t : rank (t_pc (wake s t)) <= rank (t_pc t).
Proof. destruct (wake_cases s t) as [->|[E ->]]; [done|]. by rewrite E. Qed.

Lemma measure_woken ts ts' : woken ts ts' -> measure ts' <= measure ts.
Proof.
  intros [|s|s i t ts0 Hi]; [done| |].
  - unfold measure, notify_all. induction ts0 as [|t ts0 IH]; [done|].
    pose proof (rank_wake s t). cbn in *. lia.
  - rewrite (measure_insert _ _ _ _ Hi). pose proof (rank_wake s t). lia.
Qed.

Section Stopping.
Context (interval : Q -> Z).

(** Once [stop_] is set every step of a thread takes it closer to its exit. *)
Lemma step_at_rank w t ev w1 p :
  stop_ w = true -> step_at interval t ev w = Some (w1, p) -> rank p < rank (t_pc t).
Proof.
  intros Hst Hs. unfold step_at in Hs. rewrite Hst in Hs.
  destruct (t_pc t) as [| | | | | | |b|b| | |allowed| | | |[]| |], ev; try done;
    repeat case_match; simplify_eq; cbn; repeat case_match; lia.
Qed.

Definition thread_moves (w w' : WorkerImpl) : Prop := exists i ev, thread_step interval i ev w = Some w'.

Lemma thread_step_measure w w' :
  inv w -> stop_ w = true -> thread_moves w w' ->
  measure (threads_ w') < measure (threads_ w) /\ stop_ w' = true /\ inv w' /\
  length (threads_ w') = length (threads_ w).
Proof.
  intros Hw Hst (i & ev & Hs). pose proof (thread_step_inv _ _ _ _ _ Hw Hs) as Hw'.
  unfold thread_step in Hs. destruct (threads_ w !! i) as [t|] eqn:Hi; [|done].
  destruct (step_at interval t ev w) as [[w1 p]|] eqn:Ha; [|done]. simplify_eq.
  pose proof (step_at_rank _ _ _ _ _ Hst Ha) as Hr.
  pose proof (step_at_effect _ _ _ _ _ _ _ Hw Hi Ha) as He.
  pose proof (ef_woken _ _ _ _ He) as Hwk.
  destruct (woken_lookup _ _ _ _ Hwk Hi) as (t1 & H1 & Ht1).
  pose proof (measure_woken _ _ Hwk) as Hm.
  split_and!; [|by rewrite <- Hst, <- (ef_stop _ _ _ _ He)|done|].
  - cbn. rewrite (measure_insert _ _ _ _ H1). cbn [with_pc t_pc].
    assert (t1 = t \/ t_pc t = Parked) as [->|Hp].
    { destruct Ht1 as [->|[s ->]]; [by left|]. destruct (wake_cases s t) as [->|[? _]]; auto. }
    + lia.
    + (* a parked thread moves only by a spurious wakeup, which wakes nobody else *)
      unfold step_at in Ha. rewrite Hp in Ha. destruct ev; simplify_eq.
      rewrite Hp in *. cbn in *. lia.
  - cbn. rewrite length_insert. by apply length_woken.
Qed.

Lemma thread_steps_bounded n w w' :
  inv w -> stop_ w = true -> nsteps thread_moves n w w' ->
  Z.of_nat n + measure (threads_ w') <= measure (threads_ w) /\ inv w' /\ stop_ w' = true.
Proof.
  intros Hw Hst Hn. induction Hn as [w|n w1 w2 w3 H12 H23 IH]; [split; [lia|by split]|].
  destruct (thread_step_measure _ _ Hw Hst H12) as (Hm & Hst2 & Hw2 & _).
  destruct (IH Hw2 Hst2) as (Hm2 & ? & ?). split; [lia|by split].
Qed.

(** A thread that can neither move nor let the holder of the mutex it needs move has
    exited or is parked. *)
Lemma stuck_thread w i t :
  stop_ w = true -> (forall g, released_ (gates w g) = true) ->
  (forall w', ~ thread_moves w w') -> threads_ w !! i = Some t ->
  t_pc t = Exited \/ t_pc t = Parked.
Proof.
  intros Hst Hrel Hno Hi.
  assert (Hno' : forall j u ev, threads_ w !! j = Some u -> step_at interval u ev w = None).
  { intros j u ev Hj. destruct (step_at interval u ev w) as [[w1 p]|] eqn:E; [|done].
    destruct (Hno (w1 <| threads_ ::= fun ts => <[j := with_pc p u]> ts |>)).
    exists j, ev. unfold thread_step. by rewrite Hj, E. }
  assert (Hfree : forall s, mutex_free s w = true).
  { intros s. unfold mutex_free. destruct (existsb (holds_mutex s) (threads_ w)) eqn:E; [|done].
    apply existsb_exists in E as (u & Hin & Hu). apply list_elem_of_In, list_elem_of_lookup in Hin as [j Hj].
    pose proof (Hno' j u Step Hj) as Hn. unfold step_at in Hn. unfold holds_mutex in Hu.
    apply andb_true_iff in Hu as [_ Hu]. destruct (t_pc u); try done. by rewrite Hst in Hn. }
  assert (Hslot : forall s, exists j w1, release_slot s j w = Some w1).
  { intros s. unfold release_slot, notify_one. rewrite Hfree.
    destruct (existsb (parked s) (threads_ w)) eqn:E; [|exists 0%nat; eauto].
    apply existsb_exists in E as (u & Hin & Hu). apply list_elem_of_In, list_elem_of_lookup in Hin as [j Hj].
    exists j. rewrite Hj, Hu. eauto. }
  pose proof (fun ev => Hno' i t ev Hi) as Hn. clear Hno'. unfold step_at in Hn.
  destruct (t_pc t) as [| | | | | | |b|b| | |allowed| | | |[]| |]; auto; exfalso.
  - by specialize (Hn Step).
  - specialize (Hn Step). by rewrite Hfree in Hn.
  - specialize (Hn Step). by rewrite Hst in Hn.
  - by specialize (Hn Step).
  - by specialize (Hn PollThrows).
  - specialize (Hn Step). rewrite Hfree in Hn. repeat case_match; done.
  - destruct (Hslot (scaler_of (t_kind t))) as (j & w1 & E). specialize (Hn (Wakes j)).
    cbn in Hn. by rewrite E in Hn.
  - by specialize (Hn Step).
  - by specialize (Hn Step).
  - specialize (Hn (ClockReads 0)). cbn in Hn. by destruct (reserve _ _ _).
  - specialize (Hn (ClockReads 0)). cbn in Hn. by rewrite Hst in Hn.
  - by specialize (Hn Step).
  - specialize (Hn Step). cbn in Hn.
    destruct (Acquire_released _ (Hrel (gate_of (t_kind t)))) as [[? ?] E]. by rewrite E in Hn.
  - by specialize (Hn HandleReturns).
  - destruct (Hslot (scaler_of (t_kind t))) as (j & w1 & E). specialize (Hn (Wakes j)).
    cbn in Hn. by rewrite E in Hn.
  - by specialize (Hn Step).
  - by specialize (Hn Step).
Qed.
End Stopping.

(** What the actions of [Stop] already taken have established. *)
Definition stop_progress (w : WorkerImpl) : Prop :=
  match stopper w with
  | None => True
  | Some rest =>
    exists taken, Stop = taken ++ rest /\ (SetStop ∈ taken -> stop_ w = true) /\
      (forall g, ReleaseGate g ∈ taken -> released_ (gates w g) = true)
  end.

Lemma stop_step_progress w w' : stop_progress w -> stop_step w = Some w' -> stop_progress w'.
Proof.
  unfold stop_progress, stop_step. destruct (stopper w) as [[|a rest]|] eqn:E; [done| |].
  - intros (taken & Hp & Hs & Hg) Hst.
    assert (Hnext : exists w0, w' = w0 <| stopper := Some rest |> /\
      (SetStop ∈ taken ++ [a] -> stop_ w0 = true) /\
      (forall g, ReleaseGate g ∈ taken ++ [a] -> released_ (gates w0 g) = true)).
    { destruct a; repeat case_match; simplify_eq; eexists; (split; [reflexivity|]);
        (split; [|intros g']);
        rewrite elem_of_app, list_elem_of_singleton; (intros [Hin|Hin]); simplify_eq;
        cbn [stop_ gates update]; eauto.
      - rewrite gates_set. destruct (decide (g = g')) as [->|]; [done|by apply Hg].
      - rewrite gates_set. by rewrite decide_True. }
    destruct Hnext as (w0 & -> & Hs' & Hg'). cbn. exists (taken ++ [a]). split; [|by split].
    by rewrite Hp, <- app_assoc.
  - intros _ [= <-]. cbn. exists []. split_and!; [done| |]; intros *; by intros ?%elem_of_nil.
Qed.

Lemma thread_step_progress interval i ev w w' :
  inv w -> stop_progress w -> thread_step interval i ev w = Some w' -> stop_progress w'.
Proof.
  intros Hw Hp Hs. unfold thread_step in Hs. destruct (threads_ w !! i) as [t|] eqn:Hi; [|done].
  destruct (step_at interval t ev w) as [[w1 p]|] eqn:Ha; [|done]. simplify_eq.
  pose proof (step_at_effect _ _ _ _ _ _ _ Hw Hi Ha) as He. unfold stop_progress in *. cbn.
  rewrite (ef_stopper _ _ _ _ He). destruct (stopper w) as [rest|]; [|done].
  destruct Hp as (taken & Hp & Hst & Hg). exists taken. split; [done|].
  rewrite (ef_stop _ _ _ _ He). split; [done|]. intros g Hin. rewrite (ef_released _ _ _ _ He). auto.
Qed.

Lemma reachable_progress interval w : reachable interval w -> stop_progress w.
Proof.
  intros (o & hw & ha & hn & Hr).
  assert (Hboth : inv w /\ stop_progress w); [|apply Hboth].
  apply (rtc_ind_r (R := step interval) (fun w => inv w /\ stop_progress w)
           (Start hw ha hn (new_worker o))); [| |done].
  - split; [apply Start_inv|]. unfold Start, stop_progress. by destruct hw, ha, hn.
  - intros w1 w2 _ Hs [Hw Hp].
    destruct Hs as [w1 i ev w2 Hs|w1 w2 Hs];
      split; eauto using thread_step_inv, thread_step_progress, stop_step_inv, stop_step_progress.
Qed.

Lemma joining_released w :
  stop_progress w -> stopper w = Some [Join] ->
  stop_ w = true /\ forall g, released_ (gates w g) = true.
Proof.
  unfold stop_progress. intros Hp E. rewrite E in Hp. destruct Hp as (taken & Ht & Hs & Hg).
  assert (taken = [SetDraining; SetStop; ReleaseGate workflow_gate_; ReleaseGate activity_gate_;
    ReleaseGate session_gate_; ReleaseGate nexus_gate_; WakeScaler wf_scaler_;
    WakeScaler act_scaler_; DrainGates]) as ->.
  { unfold Stop in Ht.
    change (?a :: ?b :: ?c :: ?d :: ?e :: ?f :: ?g :: ?h :: ?i :: [Join]) with
      ([a; b; c; d; e; f; g; h; i] ++ [Join]) in Ht.
    by apply app_inj_tail in Ht as [<- _]. }
  split; [apply Hs; set_solver|]. intros []; apply Hg; set_solver.
Qed.

(** C33: once [Stop] waits for the threads they run a bounded number of further steps,
    whatever the server, the handlers and the clock answer; when none of them can move,
    each has exited or is parked on its scaler, and without autoscaling all have exited,
    so that [Stop] returns. *)
Theorem Stop_terminates (interval : Q -> Z) (n : nat) (w w' : WorkerImpl)
  (Hr : reachable interval w) (Hjoin : stopper w = Some [Join])
  (Hn : nsteps (thread_moves interval) n w w') :
  (n <= 18 * length (threads_ w))%nat /\
  ((forall w'', ~ thread_moves interval w' w'') ->
   (forall i t, threads_ w' !! i = Some t -> t_pc t = Exited \/ t_pc t = Parked) /\
   (enable_poller_autoscaling (options_ w') = false -> stopper w' = Some [Join] ->
    exists w'', stop_step w' = Some w'' /\ threads_ w'' = [])).
Proof.
  pose proof (reachable_inv _ _ Hr) as Hw. pose proof (reachable_progress _ _ Hr) as Hp.
  destruct (joining_released w Hp Hjoin) as [Hst Hrel].
  destruct (thread_steps_bounded _ _ _ _ Hw Hst Hn) as (Hb & Hw' & Hst').
  pose proof (measure_bounds (threads_ w)). pose proof (measure_bounds (threads_ w')).
  split; [lia|]. intros Hno.
  assert (Hrel' : forall g, released_ (gates w' g) = true).
  { clear - Hn Hw Hrel. induction Hn as [w|n w1 w2 w3 (i & ev & H12) _ IH]; [done|].
    apply IH; [by eapply thread_step_inv|]. intros g. unfold thread_step in H12.
    destruct (threads_ w1 !! i) as [t|] eqn:Hi; [|done].
    destruct (step_at interval t ev w1) as [[w0 p]|] eqn:Ha; [|done]. simplify_eq.
    pose proof (step_at_effect _ _ _ _ _ _ _ Hw Hi Ha) as He. cbn.
    by rewrite (ef_released _ _ _ _ He). }
  assert (Hall : forall i t, threads_ w' !! i = Some t -> t_pc t = Exited \/ t_pc t = Parked).
  { intros i t Hi. by apply (stuck_thread interval w' i). }
  split; [exact Hall|]. intros Hscale Hjoin'. unfold stop_step. rewrite Hjoin'.
  assert (Hx : forallb exited (threads_ w') = true); [|rewrite Hx; eauto].
  apply forallb_forall. intros t Hin. apply list_elem_of_In, list_elem_of_lookup in Hin as [i Hi].
  unfold exited. destruct (Hall i t Hi) as [->|E]; [done|].
  pose proof (inv_parking _ Hw' i t Hi) as Hpk. rewrite E in Hpk. specialize (Hpk eq_refl).
  unfold scalable in Hpk. by rewrite Hscale in Hpk.
Qed.

(** ** Runs *)

Inductive action := Thread (i : nat) (ev : event) | CallStop.

Fixpoint run (l : list action) (w : WorkerImpl) : option WorkerImpl :=
  match l with
  | [] => Some w
  | a :: l =>
    match (match a with Thread i ev => thread_step (fun _ => 0) i ev w | CallStop => stop_step w end) with
    | Some w => run l w
    | None => None
    end
  end.

Lemma run_steps l w w' : run l w = Some w' -> rtc (step (fun _ => 0)) w w'.
Proof.
  revert w. induction l as [|a l IH]; intros w; simpl; [intros [= ->]; apply rtc_refl|].
  destruct a as [i ev|].
  - destruct (thread_step _ i ev w) eqn:E; [|done]. intros Hr.
    eapply rtc_l; [by eapply step_thread|by apply IH].
  - destruct (stop_step w) eqn:E; [|done]. intros Hr.
    eapply rtc_l; [by eapply step_stop|by apply IH].
Qed.

(** Two normal and two sticky loops, of which one each is gated. *)
Definition scaling : WorkerOptions := mkWorkerOptions 1 1 0 0 0 true 1 2 5 false 0.

(** The third thread reads the predicate before [Stop] sets the flag and blocks after
    [Stop] has notified. *)
Definition lost : list action :=
  [Thread 2 Step; Thread 2 Step] ++ replicate 10 CallStop ++
  [Thread 2 Step; Thread 0 Step; Thread 1 Step; Thread 3 Step].

(** C34: [Stop] sets its flag and notifies the scalers without taking their mutex, so the
    notification can fall between a poller's reading of the predicate and its blocking:
    from a reachable state in which [Stop] only waits for the threads, nothing can
    happen any more except a spurious wakeup, and [Stop] hangs. *)
Theorem Stop_can_lose_wakeup :
  exists w, reachable (fun _ => 0) w /\ stopper w = Some [Join] /\ stop_ w = true /\
    (exists i t, threads_ w !! i = Some t /\ t_pc t = Parked) /\
    (forall w', step (fun _ => 0) w w' -> exists i, thread_step (fun _ => 0) i SpuriousWakeup w = Some w').
Proof.
  destruct (run lost (Start true false false (new_worker scaling))) as [w|] eqn:E; [|by vm_compute in E].
  assert (Ht : (threads_ <$> run lost (Start true false false (new_worker scaling))) =
    Some [mkThread (KWorkflow false) 0 Exited; mkThread (KWorkflow true) 0 Exited;
          mkThread (KWorkflow false) 1 Parked; mkThread (KWorkflow true) 1 Exited])
    by (vm_compute; reflexivity).
  assert (Hs : ((fun w => (stopper w, stop_ w)) <$> run lost (Start true false false (new_worker scaling))) =
    Some (Some [Join], true)) by (vm_compute; reflexivity).
  rewrite E in Ht, Hs. simpl in Ht, Hs. injection Ht as Ht. injection Hs as Hj Hst.
  exists w. split_and!; [|done|done| |].
  - exists scaling, true, false, false. by eapply run_steps.
  - exists 2%nat. rewrite Ht. eexists. split; reflexivity.
  - intros w' Hstep. inversion Hstep as [w0 i ev w0' Hth|w0 w0' Hsp]; subst w0 w0'.
    + exists i. rewrite <- Hth. clear Hstep. unfold thread_step in Hth |- *. rewrite Ht in Hth |- *.
      destruct i as [|[|[|[|i]]]]; simpl in *; try done;
        destruct ev; unfold step_at in *; simpl in *; done.
    + unfold stop_step in Hsp. by rewrite Hj, Ht in Hsp.
Qed.

(** A run with one task: the permit is out while it is handled. *)
Lemma permits_account_for_tasks_witness :
  exists w, reachable (fun _ => 0) w /\ in_flight_ (gates w workflow_gate_) = 1 /\
            count (handling workflow_gate_) (threads_ w) = 1.
Proof.
  destruct (run [Thread 0 Step; Thread 0 (PollReturns true); Thread 0 Step; Thread 0 Step;
                 Thread 0 Step; Thread 0 Step]
              (Start true false false (new_worker default_worker_options))) as [w|] eqn:E;
    [|by vm_compute in E].
  assert (Hf : ((fun w => in_flight_ (gates w workflow_gate_)) <$>
    run [Thread 0 Step; Thread 0 (PollReturns true); Thread 0 Step; Thread 0 Step;
         Thread 0 Step; Thread 0 Step]
      (Start true false false (new_worker default_worker_options))) = Some 1)
    by (vm_compute; reflexivity).
  rewrite E in Hf. simpl in Hf. injection Hf as Hf.
  assert (Hr : reachable (fun _ => 0) w)
    by (exists default_worker_options, true, false, false; by eapply run_steps).
  exists w. split; [exact Hr|]. split; [exact Hf|].
  destruct (permits_account_for_tasks (fun _ => 0) w Hr) as [Hg _].
  destruct (Hg workflow_gate_) as [Hc _]. congruence.
Defined.

(** Without autoscaling, both loops exit after [Stop]. *)
Lemma Stop_terminates_witness :
  exists w w', reachable (fun _ => 0) w /\ stopper w = Some [Join] /\
    nsteps (thread_moves (fun _ => 0)) 2 w w' /\ (2 <= 18 * length (threads_ w))%nat.
Proof.
  destruct (run (replicate 10 CallStop)
              (Start true false false (new_worker default_worker_options))) as [w|] eqn:E;
    [|by vm_compute in E].
  assert (Hs : ((fun w => (stopper w, threads_ w)) <$> run (replicate 10 CallStop)
      (Start true false false (new_worker default_worker_options))) =
    Some (Some [Join], [mkThread (KWorkflow false) 0 Top; mkThread (KWorkflow true) 0 Top]))
    by (vm_compute; reflexivity).
  assert (Hflag : (stop_ <$> run (replicate 10 CallStop)
      (Start true false false (new_worker default_worker_options))) = Some true)
    by (vm_compute; reflexivity).
  rewrite E in Hs, Hflag. simpl in Hs, Hflag. injection Hs as Hj Ht. injection Hflag as Hst.
  assert (Hr : reachable (fun _ => 0) w)
    by (exists default_worker_options, true, false, false; by eapply run_steps).
  assert (Hn : exists w', nsteps (thread_moves (fun _ => 0)) 2 w w').
  { eexists. econstructor; [exists 0%nat, Step; unfold thread_step; rewrite Ht; simpl; reflexivity|].
    econstructor; [|constructor]. exists 1%nat, Step. unfold thread_step. simpl. rewrite Ht. simpl.
    reflexivity. }
  destruct Hn as [w' Hn]. exists w, w'. split; [exact Hr|]. split; [exact Hj|]. split; [exact Hn|].
  apply (Stop_terminates (fun _ => 0) 2 w w' Hr Hj Hn).
Defined.
