(* ===== verification/Loops.v ===== *)
(** * The poll loops as they are written

    The bodies of [WorkerImpl::WorkflowPollLoop], [ActivityPollLoop] and
    [NexusPollLoop] ([src/src/internal/worker_impl.cpp]) statement by statement, with
    their exception handlers, the scope of the permit and every metric, as trees over
    what they do to the other threads and to the metrics sink.  [Pollers] describes the
    same threads by program counters; here each loop is shown to be that machine, which
    brings its theorems to the source, and the metrics are checked against what a loop
    did. *)

From S2P Require Import Prelude Common Worker Pollers PollersFacts.
Import Gate Scaler Limiter.

(** ** What a loop does *)

Definition Tags := list (string * string).

(** The calls of [MetricsHandler]; a timer in nanoseconds. *)
Inductive metric :=
| Counter (name : string) (n : Z) (tags : Tags)
| Gauge (name : string) (v : Z) (tags : Tags)
| Timer (name : string) (latency : Z) (tags : Tags).

(** A loop from some statement on: [Break] leaves it, [Continue] goes back to its
    condition, [Terminate] is an exception nobody catches.  The metrics sink and the
    logger, which are the application's, are taken not to throw. *)
Inductive code :=
| Break | Continue | Terminate
| LoadStop (k : bool -> code)
| LoadDraining (k : bool -> code)
| ScalerAcquire (s : ScalerId) (k : bool -> code)
| ScalerReport (s : ScalerId) (got_task : bool) (k : code)
| ScalerRelease (s : ScalerId) (k : code)
(** the poll: whether the response has a token *)
| Poll (k : result bool -> code)
| RateAcquire (k : code)
| GateAcquire (g : GateId) (k : bool -> code)
(** the permit's destructor *)
| GateRelease (g : GateId) (k : code)
| HandleTask (k : result unit -> code)
| SleepSecond (k : code)
| Now (k : Z -> code)
| InFlight (g : GateId) (k : Z -> code)
| Active (s : ScalerId) (k : Z -> code)
| Emit (m : metric) (k : code)
| EmitStickyCacheMetrics (k : code)
| LogError (message : string) (e : exn) (k : code).

Definition when (b : bool) (stmt : code -> code) (k : code) : code := if b then stmt k else k.

Section Loops.
Context (o : WorkerOptions) (metrics : bool) (task_queue : string).

(** [index >= std::max(1, options_.min_concurrent_pollers)], with autoscaling. *)
Definition surplus (index : Z) : bool :=
  enable_poller_autoscaling o && (Z.max 1 (min_concurrent_pollers o) <=? index).

Definition counted (name : string) (tags : Tags) : code -> code := when metrics (Emit (Counter name 1 tags)).

Definition queue_tags : Tags := [("task_queue", task_queue)].

(** The gauges set once a permit is held. *)
Definition gate_gauges (g : GateId) (in_flight : string) (cap : Z) (worker_type : string) (k : code) : code :=
  when metrics (fun k =>
    InFlight g (fun n =>
    Emit (Gauge in_flight n [])
    (when (0 <? cap) (fun k =>
       InFlight g (fun n =>
       Emit (Gauge "temporal_worker_task_slots_available" (cap - n)
               (queue_tags ++ [("worker_type", worker_type)])) k)) k))) k.
End Loops.

(** What [EmitStickyCacheMetrics] sends once it has the deltas ([Worker.StickyMetrics]). *)
Definition sticky_metrics (task_queue : string) (max_cached_workflows hits misses hit_delta miss_delta : Z) :
    list metric :=
  let tags := queue_tags task_queue in
  (if 0 <? hit_delta then [Counter "temporal_sticky_cache_hit" hit_delta tags] else []) ++
  (if 0 <? miss_delta then [Counter "temporal_sticky_cache_miss" miss_delta tags] else []) ++
  [Gauge "temporal_sticky_cache_total_hits" hits tags; Gauge "temporal_sticky_cache_total_misses" misses tags] ++
  (if 0 <? max_cached_workflows then [Gauge "temporal_sticky_cache_size" max_cached_workflows tags] else []).

(** ** [WorkflowPollLoop] *)

Module WorkflowLoop.
Section Loop.
Context (o : WorkerOptions) (metrics : bool) (task_queue : string) (sticky : bool) (index : Z).

Definition scalable : bool := surplus o index.
Definition poller_tags : Tags :=
  [("task_queue", task_queue); ("poller_type", if sticky then "sticky" else "workflow")].
Definition wf_tags : Tags := queue_tags task_queue.

(** [catch (const std::exception& e)] *)
Definition failed (slot_released : bool) (e : exn) : code :=
  if is_std_exception e then
    when (scalable && negb slot_released) (ScalerRelease wf_scaler_)
    (LoadStop (fun stop => if stop then Break else
     counted metrics "temporal_workflow_task_failed" wf_tags
     (LogError "workflow poll loop error" e
     (SleepSecond Continue))))
  else Terminate.

Definition execute (slot_released : bool) (recv : Z) : code :=
  gate_gauges metrics task_queue workflow_gate_ "temporal_workflow_tasks_in_flight"
    (max_concurrent_workflow_task_executions o) "workflow"
  (Now (fun start =>
   when metrics (Emit (Timer "temporal_workflow_task_schedule_to_start_latency" (start - recv) wf_tags))
   (HandleTask (fun r =>
    match r with
    | inl e => GateRelease workflow_gate_ (failed slot_released e)
    | inr _ =>
      when metrics (fun k =>
        Now (fun now =>
        Emit (Timer "temporal_workflow_task_execution_latency" (now - start) [])
        (Emit (Timer "temporal_workflow_task_end_to_end_latency" (now - recv) wf_tags)
        (Emit (Counter "temporal_workflow_task_handled" 1 [])
        (EmitStickyCacheMetrics k)))))
      (GateRelease workflow_gate_ Continue)
    end)))).

Definition received (slot_released : bool) (recv : Z) (got_task : bool) : code :=
  LoadStop (fun stop => if stop then Break else
  if negb got_task then counted metrics "temporal_workflow_poll_timeout" [] Continue else
  counted metrics "temporal_workflow_poll_success" []
  (LoadDraining (fun draining => if draining then Continue else
   GateAcquire workflow_gate_ (fun held => if held then execute slot_released recv else Break)))).

Definition poll : code :=
  Poll (fun r =>
  match r with
  | inl e => failed (negb scalable) e
  | inr got_task =>
    Now (fun recv =>
    when (enable_poller_autoscaling o) (ScalerReport wf_scaler_ got_task)
    (if scalable then ScalerRelease wf_scaler_ (received true recv got_task)
     else received (negb scalable) recv got_task))
  end).

(** [while (!stop_.load())] *)
Definition iteration : code :=
  LoadStop (fun stop => if stop then Break else
  if scalable then ScalerAcquire wf_scaler_ (fun acquired => if acquired then poll else Break)
  else poll).

Definition WorkflowPollLoop : code :=
  when metrics (fun k =>
    Emit (Counter "temporal_poller_start" 1 poller_tags)
    (Active wf_scaler_ (fun n => Emit (Gauge "temporal_pollers_in_flight" n wf_tags) k)))
  iteration.
End Loop.
End WorkflowLoop.

(** ** [ActivityPollLoop] *)

Module ActivityLoop.
Section Loop.
Context (o : WorkerOptions) (metrics : bool) (task_queue : string) (session : bool) (index : Z).

Definition gate : GateId := if session then session_gate_ else activity_gate_.
Definition scalable : bool := negb session && surplus o index.
Definition poller_tags : Tags :=
  [("task_queue", task_queue); ("poller_type", if session then "session" else "activity")].
Definition act_tags : Tags := queue_tags task_queue.

Definition failed (slot_released : bool) (e : exn) : code :=
  if is_std_exception e then
    when (scalable && negb slot_released) (ScalerRelease act_scaler_)
    (LoadStop (fun stop => if stop then Break else
     counted metrics "temporal_activity_task_failed" act_tags
     (LogError "activity poll loop error" e
     (SleepSecond Continue))))
  else Terminate.

Definition execute (slot_released : bool) (recv : Z) : code :=
  gate_gauges metrics task_queue gate "temporal_activity_tasks_in_flight"
    (if session then max_concurrent_sessions o else max_concurrent_activity_executions o)
    (if session then "session" else "activity")
  (Now (fun start =>
   when metrics (Emit (Timer "temporal_activity_task_schedule_to_start_latency" (start - recv) act_tags))
   (HandleTask (fun r =>
    match r with
    | inl e => GateRelease gate (failed slot_released e)
    | inr _ =>
      when metrics (fun k =>
        Now (fun now =>
        Emit (Timer "temporal_activity_task_execution_latency" (now - start) [])
        (Emit (Timer "temporal_activity_task_end_to_end_latency" (now - recv) act_tags)
        (Emit (Counter "temporal_activity_task_handled" 1 []) k))))
      (GateRelease gate Continue)
    end)))).

Definition received (slot_released : bool) (recv : Z) (got_task : bool) : code :=
  LoadStop (fun stop => if stop then Break else
  if negb got_task then counted metrics "temporal_activity_poll_timeout" [] Continue else
  counted metrics "temporal_activity_poll_success" []
  (LoadDraining (fun draining => if draining then Continue else
   RateAcquire
   (LoadStop (fun stop => if stop then Break else
    GateAcquire gate (fun held => if held then execute slot_released recv else Break)))))).

Definition poll : code :=
  Poll (fun r =>
  match r with
  | inl e => failed (negb scalable) e
  | inr got_task =>
    Now (fun recv =>
    when (enable_poller_autoscaling o && negb session) (ScalerReport act_scaler_ got_task)
    (if scalable then ScalerRelease act_scaler_ (received true recv got_task)
     else received (negb scalable) recv got_task))
  end).

Definition iteration : code :=
  LoadStop (fun stop => if stop then Break else
  if scalable then ScalerAcquire act_scaler_ (fun acquired => if acquired then poll else Break)
  else poll).

Definition ActivityPollLoop : code :=
  when metrics (fun k =>
    Emit (Counter "temporal_poller_start" 1 poller_tags)
    (Active act_scaler_ (fun n =>
     Emit (Gauge "temporal_pollers_in_flight" (n + if enable_sessions o then 1 else 0) act_tags) k)))
  iteration.
End Loop.
End ActivityLoop.

(** ** [NexusPollLoop] *)

Module NexusLoop.
Section Loop.
Context (metrics : bool) (task_queue : string).

Definition nexus_tags : Tags := queue_tags task_queue.

Definition failed (e : exn) : code :=
  if is_std_exception e then
    LoadStop (fun stop => if stop then Break else
    counted metrics "temporal_nexus_task_failed" nexus_tags
    (LogError "nexus poll loop error" e
    (SleepSecond Continue)))
  else Terminate.

Definition execute (recv : Z) : code :=
  Now (fun start =>
  when metrics (Emit (Timer "temporal_nexus_task_schedule_to_start_latency" (start - recv) nexus_tags))
  (HandleTask (fun r =>
   match r with
   | inl e => GateRelease nexus_gate_ (failed e)
   | inr _ =>
     when metrics (fun k =>
       Now (fun now =>
       Emit (Timer "temporal_nexus_task_execution_latency" (now - start) [])
       (Emit (Counter "temporal_nexus_task_handled" 1 []) k)))
     (GateRelease nexus_gate_ Continue)
   end))).

Definition received (recv : Z) (got_task : bool) : code :=
  LoadStop (fun stop => if stop then Break else
  if negb got_task then counted metrics "temporal_nexus_poll_timeout" [] Continue else
  counted metrics "temporal_nexus_poll_success" []
  (LoadDraining (fun draining => if draining then Continue else
   GateAcquire nexus_gate_ (fun held => if held then execute recv else Break)))).

Definition poll : code :=
  Poll (fun r =>
  match r with
  | inl e => failed e
  | inr got_task => Now (fun recv => received recv got_task)
  end).

Definition iteration : code := LoadStop (fun stop => if stop then Break else poll).

Definition NexusPollLoop : code :=
  counted metrics "temporal_poller_start"
    [("task_queue", task_queue); ("poller_type", "nexus")] iteration.
End Loop.
End NexusLoop.

(** The loop a thread of [WorkerImpl::Start] runs. *)
Definition iteration_of (o : WorkerOptions) (metrics : bool) (task_queue : string) (t : thread) : code :=
  match t_kind t with
  | KWorkflow sticky => WorkflowLoop.iteration o metrics task_queue (t_index t)
  | KActivity => ActivityLoop.iteration o metrics task_queue false (t_index t)
  | KSession => ActivityLoop.iteration o metrics task_queue true (t_index t)
  | KNexus => NexusLoop.iteration metrics task_queue
  end.

(** ** The machine of [Pollers]

    A statement's effect, for a thread whose program counter is [p]: the counter says how
    far the two blocking calls, [PollerScaler::Acquire] and [RateLimiter::Acquire], are. *)

Definition caught {A} (r : result A) : Prop :=
  match r with inl e => is_std_exception e = true | inr _ => True end.

Definition report_effect (s : ScalerId) (got_task : bool) (w : WorkerImpl) : WorkerImpl :=
  let '(s', notify) := Report got_task (scalers w s) in
  let w := set_scaler s (fun _ => s') w in
  if notify then w <| threads_ ::= notify_all s |> else w.

Section Steps.
Context (interval : Q -> Z) (metrics : bool) (task_queue : string) (o : WorkerOptions) (t : thread).

Inductive code_step (p : pc) : WorkerImpl -> code -> WorkerImpl -> code -> Prop :=
| run_continue w : code_step p w Continue w (iteration_of o metrics task_queue t)
| run_stop w k : code_step p w (LoadStop k) w (k (stop_ w))
| run_draining w k : code_step p w (LoadDraining k) w (k (draining_ w))
| run_acquire w s k :
    p = ParkGranted ->
    code_step p w (ScalerAcquire s k) (if stop_ w then w else set_scaler s take_slot w)
      (k (negb (stop_ w)))
| run_report w s got_task k :
    mutex_free s w = true ->
    code_step p w (ScalerReport s got_task k) (report_effect s got_task w) k
| run_release w s i w' k :
    release_slot s i w = Some w' -> code_step p w (ScalerRelease s k) w' k
| run_poll w k r : caught r -> code_step p w (Poll k) w (k r)
| run_unpaced w now l k :
    p = Pacing -> reserve interval now (activity_rate_limiter_ w) = (l, None) ->
    code_step p w (RateAcquire k) (w <| activity_rate_limiter_ := l |>) k
| run_paced w now allowed k :
    p = PaceWait allowed -> stop_ w || (allowed <=? now) = true -> code_step p w (RateAcquire k) w k
| run_gate w g gate held k :
    Gate.Acquire (gates w g) = Some (gate, held) ->
    code_step p w (GateAcquire g k) (set_gate g (fun _ => gate) w) (k held)
| run_permit w g k : code_step p w (GateRelease g k) (set_gate g Gate.Release w) k
| run_handle w k r : caught r -> code_step p w (HandleTask k) w (k r)
| run_sleep w k : code_step p w (SleepSecond k) w k
| run_now w k n : code_step p w (Now k) w (k n)
| run_in_flight w g k : code_step p w (InFlight g k) w (k (in_flight_ (gates w g)))
| run_active w s k : code_step p w (Active s k) w (k (active (scalers w s)))
| run_emit w m k : code_step p w (Emit m k) w k
| run_sticky w k : code_step p w (EmitStickyCacheMetrics k) w k
| run_log w m e k : code_step p w (LogError m e k) w k.

(** A position of a loop: at a counter, or with the task handled and the permit not yet
    given back, on the way to a counter. *)
Inductive position := At (p : pc) | Leaving (p : pc).

Definition pc_of (x : position) : pc := match x with At p => p | Leaving _ => Handling end.

(** [follows x c]: [c] is the rest of an iteration of the machine from [x] on. *)
Fixpoint follows (x : position) (c : code) : Prop :=
  match c with
  | Break => x = At Exited
  | Continue => x = At Top
  | Terminate => False
  | LoadStop k =>
    match x with
    | At Top =>
      follows (At Exited) (k true) /\
      follows (At (if scalable o t then ParkCheck else Polling)) (k false)
    | At (Reporting got_task) =>
      (reports o t = false /\ scalable o t = false) /\
      follows (At Exited) (k true) /\ follows (At (if got_task then Dispatching else Top)) (k false)
    | At (Received got_task) =>
      follows (At Exited) (k true) /\ follows (At (if got_task then Dispatching else Top)) (k false)
    | At Paced => follows (At Exited) (k true) /\ follows (At AtGate) (k false)
    | At (Failed false) => follows (At Exited) (k true) /\ follows (At Backoff) (k false)
    | _ => False
    end
  | LoadDraining k =>
    x = At Dispatching /\ follows (At Top) (k true) /\
    follows (At (if paced (t_kind t) then Pacing else AtGate)) (k false)
  | ScalerAcquire s k =>
    match x with
    | At (ParkCheck | ParkGranted | ParkDecided | Parked) =>
      s = scaler_of (t_kind t) /\ follows (At Exited) (k false) /\ follows (At Polling) (k true)
    | _ => False
    end
  | ScalerReport s got_task k =>
    x = At (Reporting got_task) /\ s = scaler_of (t_kind t) /\ reports o t = true /\
    follows (At (if scalable o t then Releasing got_task else Received got_task)) k
  | ScalerRelease s k =>
    s = scaler_of (t_kind t) /\
    match x with
    | At (Releasing got_task) => follows (At (Received got_task)) k
    | At (Failed true) => follows (At (Failed false)) k
    | _ => False
    end
  | Poll k =>
    x = At Polling /\ (forall got_task, follows (At (Reporting got_task)) (k (inr got_task))) /\
    (forall e, is_std_exception e = true -> follows (At (Failed (scalable o t))) (k (inl e)))
  | RateAcquire k =>
    match x with At (Pacing | PaceWait _) => follows (At Paced) k | _ => False end
  | GateAcquire g k =>
    x = At AtGate /\ g = gate_of (t_kind t) /\ follows (At Handling) (k true) /\ follows (At Exited) (k false)
  | GateRelease g k =>
    g = gate_of (t_kind t) /\
    match x with Leaving (Top as p | Failed false as p) => follows (At p) k | _ => False end
  | HandleTask k =>
    x = At Handling /\ follows (Leaving Top) (k (inr tt)) /\
    (forall e, is_std_exception e = true -> follows (Leaving (Failed false)) (k (inl e)))
  | SleepSecond k => x = At Backoff /\ follows (At Top) k
  | Now k => forall n, follows x (k n)
  | InFlight g k => x = At Handling /\ g = gate_of (t_kind t) /\ forall n, follows x (k n)
  | Active _ k => forall n, follows x (k n)
  | Emit _ k | EmitStickyCacheMetrics k | LogError _ _ k => follows x k
  end.

(** Statements the machine does not see, and a statement that is over when the machine
    has moved. *)
Definition settled (c : code) : Prop :=
  match c with
  | Continue | GateRelease _ _ | Now _ | InFlight _ _ | Active _ _ | Emit _ _
  | EmitStickyCacheMetrics _ | LogError _ _ _ => False
  | _ => True
  end.

Definition in_call (c : code) : Prop :=
  match c with ScalerAcquire _ _ | RateAcquire _ => True | _ => False end.

Definition machine_step (w : WorkerImpl) (p : pc) (w' : WorkerImpl) (p' : pc) : Prop :=
  exists ev, step_at interval (with_pc p t) ev w = Some (w', p').

(** A loop that does not report polls passes the machine's reporting position idly. *)
Definition idle (w : WorkerImpl) (p p' : pc) : Prop := p' = p \/ machine_step w p w p'.

Definition code_run (p : pc) (w : WorkerImpl) (c : code) (w' : WorkerImpl) (c' : code) : Prop :=
  rtc (fun x y => code_step p (fst x) (snd x) (fst y) (snd y)) (w, c) (w', c').
End Steps.

(** ** The loops follow the machine *)

Ltac follow :=
  repeat
    lazymatch goal with
    | |- _ /\ _ => split
    | H : scalable ?o ?t = _ |- follows _ _ (At (if scalable ?o ?t then _ else _)) _ => rewrite H
    | H : t_kind ?t = _ |- follows _ _ (At (if paced (t_kind ?t) then _ else _)) _ => rewrite H; cbn [paced]
    | H : scalable ?o ?t = _ |- follows _ _ (At (Failed (scalable ?o ?t))) _ => rewrite H
    | |- follows _ _ (At (match ?b with true => _ | false => _ end)) _ => destruct b
    | H : is_std_exception ?e = _ |- follows _ _ _ (if is_std_exception ?e then _ else _) => rewrite H
    | |- follows _ _ _ (match ?b with true => _ | false => _ end) =>
      lazymatch b with
      | true => cbn beta iota
      | false => cbn beta iota
      | _ => first [progress cbn [negb andb] | destruct b]
      end
    | |- follows _ _ _ _ => progress hnf
    | |- forall _, _ => intros ?
    | H : t_kind ?t = _ |- _ = scaler_of (t_kind ?t) => rewrite H
    | H : t_kind ?t = _ |- _ = gate_of (t_kind ?t) => rewrite H
    | H : ?x = _ |- ?x = _ => exact H
    | |- _ = _ => reflexivity
    end.

Lemma workflow_follows o metrics tq sticky t :
  t_kind t = KWorkflow sticky -> follows o t (At Top) (WorkflowLoop.iteration o metrics tq (t_index t)).
Proof.
  intros Hk.
  assert (Hs : scalable o t = WorkflowLoop.scalable o (t_index t)) by (unfold scalable; by rewrite Hk).
  assert (Hr : reports o t = enable_poller_autoscaling o) by (unfold reports; by rewrite Hk, andb_true_r).
  unfold WorkflowLoop.iteration, WorkflowLoop.poll, WorkflowLoop.received, WorkflowLoop.execute,
    WorkflowLoop.failed, gate_gauges, counted, when.
  destruct (WorkflowLoop.scalable o (t_index t)) eqn:Hi.
  - apply andb_true_iff in Hi as [Ha _]. rewrite Ha in Hr |- *. destruct metrics; follow.
  - destruct (enable_poller_autoscaling o), metrics; follow.
Qed.

Lemma activity_follows o metrics tq (session : bool) t :
  t_kind t = (if session then KSession else KActivity) ->
  follows o t (At Top) (ActivityLoop.iteration o metrics tq session (t_index t)).
Proof.
  intros Hk.
  assert (Hs : scalable o t = ActivityLoop.scalable o session (t_index t)).
  { unfold scalable, ActivityLoop.scalable, surplus. rewrite Hk. destruct session; [apply andb_false_r|done]. }
  assert (Hr : reports o t = enable_poller_autoscaling o && negb session).
  { unfold reports. rewrite Hk. by destruct session. }
  unfold ActivityLoop.iteration, ActivityLoop.poll, ActivityLoop.received, ActivityLoop.execute,
    ActivityLoop.failed, ActivityLoop.gate, gate_gauges, counted, when.
  destruct (ActivityLoop.scalable o session (t_index t)) eqn:Hi.
  - apply andb_true_iff in Hi as [Hn [Ha _]%andb_true_iff]. destruct session; [done|].
    rewrite Ha in Hr |- *. destruct metrics; follow.
  - destruct session, (enable_poller_autoscaling o), metrics; follow.
Qed.

Lemma nexus_follows o metrics tq t :
  t_kind t = KNexus -> follows o t (At Top) (NexusLoop.iteration metrics tq).
Proof.
  intros Hk.
  assert (Hs : scalable o t = false) by (unfold scalable; by rewrite Hk, andb_false_r).
  assert (Hr : reports o t = false) by (unfold reports; by rewrite Hk, andb_false_r).
  unfold NexusLoop.iteration, NexusLoop.poll, NexusLoop.received, NexusLoop.execute,
    NexusLoop.failed, counted, when. destruct metrics; follow.
Qed.

Lemma iteration_follows o metrics tq t : follows o t (At Top) (iteration_of o metrics tq t).
Proof.
  unfold iteration_of. destruct (t_kind t) eqn:Hk;
    [by eapply workflow_follows|by apply activity_follows|by apply activity_follows|by apply nexus_follows].
Qed.
