(* ===== verification/LoopsFacts.v ===== *)
(** * The loops and their machine: facts

    Every step of a loop as it is written is a step of the machine of [Pollers] and
    every step of the machine is one of the loop. *)

From S2P Require Import Prelude Common Worker Pollers PollersFacts Loops.
Import Gate Scaler Limiter.

Section Refinement.
Context (interval : Q -> Z) (metrics : bool) (tq : string) (o : WorkerOptions) (t : thread).

Abbreviation code_step := (code_step interval metrics tq o t).
Abbreviation code_run := (code_run interval metrics tq o t).
Abbreviation machine_step := (machine_step interval t).
Abbreviation idle := (idle interval t).
Abbreviation follows := (follows o t).

Lemma machine_now w p w' p' ev :
  step_at interval (with_pc p t) ev w = Some (w', p') ->
  exists p1, idle w p p1 /\ machine_step w p1 w' p'.
Proof. intros H. exists p. split; [by left|by exists ev]. Qed.

(** The machine's step at a known counter, with the options of the loop. *)
Ltac step Ho := unfold step_at; cbn [t_pc with_pc t_kind pc_of]; rewrite ?Ho; cbn beta zeta.

Lemma scalable_at p : scalable o (with_pc p t) = scalable o t.
Proof. done. Qed.

Lemma reports_at p : reports o (with_pc p t) = reports o t.
Proof. done. Qed.

(** [LoadStop] at each of the positions where the machine reads the flag. *)
Lemma stop_to_machine w x k :
  options_ w = o -> follows x (LoadStop k) ->
  exists x', follows x' (k (stop_ w)) /\
    exists p1, idle w (pc_of x) p1 /\ machine_step w p1 w (pc_of x').
Proof.
  intros Ho Hf. destruct x as [p|p]; [|done].
  destruct p as [| | | | | |got|got|got| | |allowed| | | |[]| |]; try done; cbn [Loops.follows] in Hf.
  - destruct Hf as [Ht Hff]. exists (At (if stop_ w then Exited else if scalable o t then ParkCheck else Polling)).
    split; [by destruct (stop_ w)|].
    apply (machine_now _ _ _ _ Step). step Ho. by rewrite scalable_at.
  - destruct Hf as [[Hr Hs] [Ht Hff]].
    exists (At (if stop_ w then Exited else if got then Dispatching else Top)). split; [by destruct (stop_ w)|].
    exists (Received got). split; [|by exists Step].
    right. exists Step. step Ho. by rewrite scalable_at, reports_at, Hr, Hs.
  - destruct Hf as [Ht Hff].
    exists (At (if stop_ w then Exited else if got then Dispatching else Top)). split; [by destruct (stop_ w)|].
    by apply (machine_now _ _ _ _ Step).
  - destruct Hf as [Ht Hff]. exists (At (if stop_ w then Exited else AtGate)). split; [by destruct (stop_ w)|].
    by apply (machine_now _ _ _ _ Step).
  - destruct Hf as [Ht Hff]. exists (At (if stop_ w then Exited else Backoff)). split; [by destruct (stop_ w)|].
    by apply (machine_now _ _ _ _ Step).
Qed.

(** What a thread at [x] does the machine does at [pc_of x], unless nobody else sees it. *)
Lemma code_to_machine w x c w' c' :
  options_ w = o -> follows x c -> code_step (pc_of x) w c w' c' ->
  exists x', follows x' c' /\
    (w' = w /\ pc_of x' = pc_of x \/
     exists p1, idle w (pc_of x) p1 /\ machine_step w p1 w' (pc_of x')).
Proof.
  intros Ho Hf Hs.
  destruct Hs as [w|w k|w k|w s k Hp|w s got k Hm|w s j w' k Hr|w k r Hc|w now l k Hp Hl|w now allowed k Hp Hl
    |w g gate held k Hg|w g k|w k r Hc|w k|w k n|w g k|w s k|w m k|w k|w m e k].
  - simpl in Hf. subst. exists (At Top). split; [apply iteration_follows|by left].
  - destruct (stop_to_machine w x k Ho Hf) as (x' & Hx & Hm). exists x'. auto.
  - cbn [Loops.follows] in Hf. destruct Hf as (-> & Ht & Hff).
    exists (At (if draining_ w then Top else if paced (t_kind t) then Pacing else AtGate)).
    split; [by destruct (draining_ w)|]. right. by apply (machine_now _ _ _ _ Step).
  - destruct x as [p|p]; cbn [pc_of] in Hp; [subst p|done]. destruct Hf as (-> & Hff & Ht).
    exists (At (if stop_ w then Exited else Polling)). split; [by destruct (stop_ w)|].
    right. apply (machine_now _ _ _ _ Step). step Ho. cbn [pc_of]. by destruct (stop_ w).
  - destruct Hf as (-> & -> & Hr & Hf).
    exists (At (if scalable o t then Releasing got else Received got)). split; [done|].
    right. apply (machine_now _ _ _ _ Step). step Ho. unfold report_effect. rewrite scalable_at, reports_at, Hr, Hm.
    by destruct (Report got _) as [s' []].
  - destruct Hf as (-> & Hf). destruct x as [p|p]; [|done].
    destruct p as [| | | | | |got|got|got| | |allowed| | | |[]| |]; try done.
    + exists (At (Received got)). split; [done|]. right. apply (machine_now _ _ _ _ (Wakes j)). step Ho. by rewrite Hr.
    + exists (At (Failed false)). split; [done|]. right. apply (machine_now _ _ _ _ (Wakes j)). step Ho. by rewrite Hr.
  - destruct Hf as (-> & Hok & Herr). destruct r as [e|got]; simpl in Hc.
    + exists (At (Failed (scalable o t))). split; [by apply Herr|]. right.
      apply (machine_now _ _ _ _ PollThrows). step Ho. by rewrite scalable_at.
    + exists (At (Reporting got)). split; [done|]. right. by apply (machine_now _ _ _ _ (PollReturns got)).
  - destruct x as [p|p]; cbn [pc_of] in Hp; [subst p|done]. exists (At Paced). split; [done|]. right.
    apply (machine_now _ _ _ _ (ClockReads now)). step Ho. by rewrite Hl.
  - destruct x as [p|p]; cbn [pc_of] in Hp; [subst p|done]. exists (At Paced). split; [done|]. right.
    apply (machine_now _ _ _ _ (ClockReads now)). step Ho. by rewrite Hl.
  - destruct Hf as (-> & -> & Ht & Hff). exists (At (if held then Handling else Exited)).
    split; [by destruct held|]. right. apply (machine_now _ _ _ _ Step). step Ho. by rewrite Hg.
  - destruct Hf as (-> & Hf). destruct x as [p|p]; [done|]. exists (At p).
    destruct p as [| | | | | |got|got|got| | |allowed| | | |[]| |]; try done.
    + split; [done|]. right. by apply (machine_now _ _ _ _ HandleReturns).
    + split; [done|]. right. by apply (machine_now _ _ _ _ HandleThrows).
  - destruct Hf as (-> & Hok & Herr). destruct r as [e|[]]; simpl in Hc.
    + exists (Leaving (Failed false)). split; [by apply Herr|by left].
    + exists (Leaving Top). split; [done|by left].
  - destruct Hf as (-> & Hf). exists (At Top). split; [done|]. right. by apply (machine_now _ _ _ _ Step).
  - exists x. split; [apply Hf|by left].
  - destruct Hf as (-> & _ & Hf). eexists (At Handling). split; [apply Hf|by left].
  - exists x. split; [apply Hf|by left].
  - exists x. split; [apply Hf|by left].
  - exists x. split; [apply Hf|by left].
  - exists x. split; [apply Hf|by left].
Qed.

Lemma run_then p w c w1 c1 w2 c2 :
  code_step p w c w1 c1 -> code_run p w1 c1 w2 c2 -> code_run p w c w2 c2.
Proof. intros H H'. by apply rtc_l with (w1, c1). Qed.

Lemma run_one p w c w' c' : code_step p w c w' c' -> code_run p w c w' c'.
Proof. intros H. eapply run_then; [exact H|apply rtc_refl]. Qed.

Lemma run_trans p w c w1 c1 w2 c2 :
  code_run p w c w1 c1 -> code_run p w1 c1 w2 c2 -> code_run p w c w2 c2.
Proof. intros H H'. unfold Loops.code_run in *. by etrans. Qed.

(** Once the task is handled the permit is given back, whichever way the scope is left. *)
Lemma leaving_runs q c w :
  follows (Leaving q) c ->
  exists c', code_run Handling w c (set_gate (gate_of (t_kind t)) Gate.Release w) c' /\ follows (At q) c'.
Proof.
  induction c as [| | |k IH|k IH|s k IH|s got k IH|s k IH|k IH|k IH|g k IH|g k IH|k IH|k IH|k IH|g k IH|s k IH
    |m k IH|k IH|m e k IH]; simpl; intros Hf; try done; try (destruct Hf as [? Hf]; done).
  - destruct Hf as [-> Hf]. exists k. split; [apply run_one; constructor|]. by destruct q as [| | | | | | | | | | | | | | |[]| |].
  - destruct (IH 0 (Hf 0)) as (c' & Hr & Hc). exists c'. split; [|done]. eapply run_then; [constructor|exact Hr].
  - destruct (IH _ (Hf (active (scalers w s)))) as (c' & Hr & Hc). exists c'. split; [|done].
    eapply run_then; [constructor|exact Hr].
  - destruct (IH Hf) as (c' & Hr & Hc). exists c'. split; [|done]. eapply run_then; [constructor|exact Hr].
  - destruct (IH Hf) as (c' & Hr & Hc). exists c'. split; [|done]. eapply run_then; [constructor|exact Hr].
  - destruct (IH Hf) as (c' & Hr & Hc). exists c'. split; [|done]. eapply run_then; [constructor|exact Hr].
Qed.

(** Metrics, logging and the jump back come to an end. *)
Lemma settles p c w :
  follows (At p) c -> exists c', code_run p w c w c' /\ follows (At p) c' /\ settled c'.
Proof.
  induction c as [| | |k IH|k IH|s k IH|s got k IH|s k IH|k IH|k IH|g k IH|g k IH|k IH|k IH|k IH|g k IH|s k IH
    |m k IH|k IH|m e k IH]; intros Hf; try (by eexists; split_and!; [apply rtc_refl|exact Hf|]).
  - injection Hf as ->. eexists. split_and!; [apply run_one; constructor|apply iteration_follows|].
    unfold iteration_of. by destruct (t_kind t).
  - by destruct Hf as [_ Hf].
  - destruct (IH 0 (Hf 0)) as (c' & Hr & Hc). exists c'. split; [|done]. eapply run_then; [constructor|exact Hr].
  - destruct Hf as (Hp & _ & Hf). destruct (IH _ (Hf (in_flight_ (gates w g)))) as (c' & Hr & Hc).
    exists c'. split; [|done]. eapply run_then; [constructor|exact Hr].
  - destruct (IH _ (Hf (active (scalers w s)))) as (c' & Hr & Hc). exists c'. split; [|done].
    eapply run_then; [constructor|exact Hr].
  - destruct (IH Hf) as (c' & Hr & Hc). exists c'. split; [|done]. eapply run_then; [constructor|exact Hr].
  - destruct (IH Hf) as (c' & Hr & Hc). exists c'. split; [|done]. eapply run_then; [constructor|exact Hr].
  - destruct (IH Hf) as (c' & Hr & Hc). exists c'. split; [|done]. eapply run_then; [constructor|exact Hr].
Qed.

(** What the machine does at [p], a loop at [p] does, or it is inside a blocking call. *)
Lemma settled_to_code w p c w' p' :
  options_ w = o -> follows (At p) c -> settled c -> machine_step w p w' p' ->
  exists c', follows (At p') c' /\ (code_run p w c w' c' \/ c' = c /\ in_call c).
Proof.
  intros Ho Hf Hset (ev & Hm).
  unfold step_at in Hm. cbn [t_pc with_pc t_kind] in Hm. rewrite ?Ho, ?scalable_at, ?reports_at in Hm.
  clear Ho.
  destruct c as [| | |k|k|s k|s got k|s k|k|k|g k|g k|k|k|k|g k|s k|m k|k|m e k]; try done;
    cbn [Loops.follows] in Hf.
  - injection Hf as ->. by destruct ev.
  - destruct p as [| | | | | |got|got|got| | |allowed| | | |[]| |]; try done; destruct ev; try done.
    + destruct Hf as [Ht Hff]. injection Hm as <- <-. eexists. split; [|left; apply run_one; constructor].
      by destruct (stop_ w).
    + destruct Hf as [[Hr Hs] Hf]. rewrite Hr, Hs in Hm. injection Hm as <- <-.
      eexists. split; [|left; apply rtc_refl]. exact Hf.
    + destruct Hf as [Ht Hff]. injection Hm as <- <-. eexists. split; [|left; apply run_one; constructor].
      by destruct (stop_ w).
    + destruct Hf as [Ht Hff]. injection Hm as <- <-. eexists. split; [|left; apply run_one; constructor].
      by destruct (stop_ w).
    + destruct Hf as [Ht Hff]. injection Hm as <- <-. eexists. split; [|left; apply run_one; constructor].
      by destruct (stop_ w).
  - destruct Hf as (Hp & Ht & Hff). injection Hp as ->. destruct ev; try done. injection Hm as <- <-.
    eexists. split; [|left; apply run_one; constructor]. by destruct (draining_ w).
  - destruct p; try done; destruct Hf as (Hs & Hff & Ht); destruct ev; try done.
    + destruct (mutex_free _ w); [|done]. injection Hm as <- <-. exists (ScalerAcquire s k).
      split; [by destruct (_ || _)|by right].
    + pose proof (run_acquire interval metrics tq o t ParkGranted w s k eq_refl) as Hrun.
      rewrite <- Hs in Hm. exists (k (negb (stop_ w))).
      destruct (stop_ w); injection Hm as <- <-; (split; [done|left; by apply run_one]).
    + injection Hm as <- <-. exists (ScalerAcquire s k). split; [done|by right].
    + injection Hm as <- <-. exists (ScalerAcquire s k). split; [done|by right].
  - destruct Hf as (Hp & Hs & Hr & Hf). injection Hp as ->. destruct ev; try done. rewrite Hr, <- Hs in Hm.
    destruct (mutex_free s w) eqn:Hm'; [|done].
    pose proof (run_report interval metrics tq o t (Reporting got) w s got k Hm') as Hrun.
    unfold report_effect in Hrun. exists k.
    destruct (Report got (scalers w s)) as [s' []]; injection Hm as <- <-; (split; [exact Hf|left; by apply run_one]).
  - destruct Hf as (Hs & Hf). destruct p as [| | | | | |got|got|got| | |allowed| | | |[]| |]; try done;
      destruct ev as [| | | | | |j|]; try done; rewrite <- Hs in Hm; destruct (release_slot s j w) as [w1|] eqn:Hr; try done;
      injection Hm as <- <-; exists k; (split; [exact Hf|left; apply run_one; by econstructor]).
  - destruct Hf as (Hp & Hok & Herr). injection Hp as ->. destruct ev as [|got| | | | | |]; try done; injection Hm as <- <-.
    + exists (k (inr got)). split; [done|left; apply run_one; by constructor].
    + exists (k (inl (StdException ""))). split; [by apply Herr|left; apply run_one; by constructor].
  - destruct p as [| | | | | |got|got|got| | |allowed| | | |[]| |]; try done; destruct ev as [| | | | |now| |]; try done.
    + destruct (reserve interval now (activity_rate_limiter_ w)) as [l [allowed|]] eqn:Hl; injection Hm as <- <-.
      * exists (RateAcquire k). split; [exact Hf|by right].
      * exists k. split; [exact Hf|left; apply run_one; by econstructor].
    + destruct (stop_ w || (allowed <=? now)) eqn:Hl; [|done]. injection Hm as <- <-.
      exists k. split; [exact Hf|left; apply run_one; by econstructor].
  - destruct Hf as (Hp & Hg & Ht & Hff). injection Hp as ->. destruct ev; try done. rewrite <- Hg in Hm.
    destruct (Acquire (gates w g)) as [[gate held]|] eqn:Ha; [|done]. injection Hm as <- <-.
    exists (k held). split; [by destruct held|left; apply run_one; by constructor].
  - destruct Hf as (Hp & Hok & Herr). injection Hp as ->. destruct ev; try done; injection Hm as <- <-.
    + destruct (leaving_runs _ _ w Hok) as (c' & Hr & Hc). exists c'. split; [done|left].
      eapply run_then; [by apply (run_handle _ _ _ _ _ _ w k (inr tt))|exact Hr].
    + destruct (leaving_runs _ _ w (Herr (StdException "") eq_refl)) as (c' & Hr & Hc). exists c'. split; [done|left].
      eapply run_then; [by apply (run_handle _ _ _ _ _ _ w k (inl (StdException "")))|exact Hr].
  - destruct Hf as (Hp & Hf). injection Hp as ->. destruct ev; try done. injection Hm as <- <-.
    exists k. split; [exact Hf|left; apply run_one; constructor].
Qed.
End Refinement.

(** C31: the poll loops, as they are written, and the machine of [Pollers] are the same.
    An iteration starts where the machine's does.  Whatever a thread does from a
    position of its loop - its exception handlers and the destructor of the permit
    included - the machine does from the counter of that position, up to what no other
    thread sees; and whatever the machine does there, the loop does, or is in the middle
    of one of the two calls that block. *)
Theorem poll_loops_are_the_machine interval (metrics : bool) tq t w :
  follows (options_ w) t (At Top) (iteration_of (options_ w) metrics tq t) /\
  (forall x c w' c', follows (options_ w) t x c ->
     code_step interval metrics tq (options_ w) t (pc_of x) w c w' c' ->
     exists x', follows (options_ w) t x' c' /\
       (w' = w /\ pc_of x' = pc_of x \/
        exists p, idle interval t w (pc_of x) p /\ machine_step interval t w p w' (pc_of x'))) /\
  (forall p c w' p', follows (options_ w) t (At p) c -> machine_step interval t w p w' p' ->
     exists c', follows (options_ w) t (At p') c' /\
       (code_run interval metrics tq (options_ w) t p w c w' c' \/
        code_run interval metrics tq (options_ w) t p w c w c' /\ in_call c')).
Proof.
  split_and!.
  - apply iteration_follows.
  - intros x c w' c1. by apply code_to_machine.
  - intros p c w' p' Hf Hm.
    destruct (settles interval metrics tq (options_ w) t p c w Hf) as (c1 & Hr1 & Hf1 & Hs).
    destruct (settled_to_code interval metrics tq (options_ w) t w p c1 w' p' eq_refl Hf1 Hs Hm)
      as (c' & Hf' & [Hr|[-> Hin]]).
    + exists c'. split; [done|]. left. eapply run_trans; [exact Hr1|exact Hr].
    + exists c1. auto.
Qed.

(** ** Metrics *)

(** The gauge of tasks in flight never reports an idle worker: it is set by a thread
    that holds a permit, so its value is between one and the limit, and the slots it
    reports as available are fewer than there are.  Nothing sets it when the permit is
    given back. *)
Theorem in_flight_gauge_bounds (interval : Q -> Z) (w : WorkerImpl) i t g k :
  reachable interval w -> threads_ w !! i = Some t ->
  follows (options_ w) t (At (t_pc t)) (InFlight g k) ->
  1 <= in_flight_ (gates w g) /\
  (0 < limit_ (gates w g) -> 0 <= limit_ (gates w g) - in_flight_ (gates w g) < limit_ (gates w g)).
Proof.
  intros Hr Ht (Hp & Hg & _). injection Hp as Hp.
  apply reachable_inv in Hr as Hw.
  assert (Hin : 1 <= in_flight_ (gates w g)).
  { rewrite (inv_gate _ Hw). eapply count_in; [exact Ht|]. unfold handling.
    by rewrite Hp, <- Hg, bool_decide_eq_true_2. }
  split; [done|]. intros Hl. pose proof (inv_limit _ Hw g Hl). lia.
Qed.

(** What is seen of an iteration. *)
Inductive obs :=
| SawPoll (r : result bool) | SawHandle (r : result unit)
| SlotTaken | SlotBack | PermitTaken | PermitBack
| SawMetric (m : metric).

(** [P] of what was seen, latest first, and of how the iteration ended, on every path. *)
Fixpoint on_every_path (P : list obs -> code -> Prop) (seen : list obs) (c : code) : Prop :=
  match c with
  | Break | Continue | Terminate => P seen c
  | LoadStop k | LoadDraining k => forall b, on_every_path P seen (k b)
  | ScalerAcquire _ k => forall b : bool, on_every_path P (if b then SlotTaken :: seen else seen) (k b)
  | ScalerRelease _ k => on_every_path P (SlotBack :: seen) k
  | Poll k => forall r, on_every_path P (SawPoll r :: seen) (k r)
  | GateAcquire _ k => forall b : bool, on_every_path P (if b then PermitTaken :: seen else seen) (k b)
  | GateRelease _ k => on_every_path P (PermitBack :: seen) k
  | HandleTask k => forall r, on_every_path P (SawHandle r :: seen) (k r)
  | Now k | InFlight _ k | Active _ k => forall n, on_every_path P seen (k n)
  | Emit m k => on_every_path P (SawMetric m :: seen) k
  | ScalerReport _ _ k | RateAcquire k | SleepSecond k | EmitStickyCacheMetrics k | LogError _ _ k =>
    on_every_path P seen k
  end.

Definition times (p : obs -> bool) (seen : list obs) : Z := Z.of_nat (length (List.filter p seen)).

(** What a counter grew by. *)
Fixpoint counter (name : string) (seen : list obs) : Z :=
  match seen with
  | [] => 0
  | SawMetric (Counter m n _) :: seen => (if String.eqb m name then n else 0) + counter name seen
  | _ :: seen => counter name seen
  end.

Definition family (k : Kind) : string :=
  match k with
  | KWorkflow _ => "temporal_workflow" | KActivity | KSession => "temporal_activity"
  | KNexus => "temporal_nexus"
  end.

Definition threw (x : obs) : bool :=
  match x with SawPoll (inl _) | SawHandle (inl _) => true | _ => false end.

Record accounted (k : Kind) (seen : list obs) (last : code) : Prop := {
  ac_slots : times (fun x => match x with SlotTaken => true | _ => false end) seen =
             times (fun x => match x with SlotBack => true | _ => false end) seen;
  ac_permits : times (fun x => match x with PermitTaken => true | _ => false end) seen =
               times (fun x => match x with PermitBack => true | _ => false end) seen;
  ac_handled : counter (family k +:+ "_task_handled") seen =
               times (fun x => match x with SawHandle (inr _) => true | _ => false end) seen;
  ac_going_on : last = Continue ->
    counter (family k +:+ "_task_failed") seen = times threw seen /\
    counter (family k +:+ "_poll_success") seen + counter (family k +:+ "_poll_timeout") seen =
    times (fun x => match x with SawPoll (inr _) => true | _ => false end) seen;
  ac_leaving : last = Break -> counter (family k +:+ "_task_failed") seen = 0
}.

Ltac every_path :=
  repeat first
    [ progress cbn [on_every_path when negb andb app]
    | match goal with
      | |- Terminate <> Terminate -> _ => let H := fresh in intros H; by destruct H
      | |- _ <> Terminate -> accounted _ _ _ =>
        intros _; constructor;
        [reflexivity|reflexivity|reflexivity
        |intros; first [discriminate|split; reflexivity]
        |intros; first [discriminate|reflexivity]]
      | |- forall _ : bool, _ => intros []
      | |- forall _ : result _, _ => intros [?|[]]
      | |- forall _ : Z, _ => intros ?
      | |- on_every_path _ _ (match ?b with true => _ | false => _ end) => destruct b
      end ].


(** ** On one task *)

Definition workflow_poller (p : pc) : thread := mkThread (KWorkflow false) 0 p.

(** A default worker whose first poller handles a task. *)
Lemma one_task : exists w, reachable (fun _ => 0) w /\ options_ w = default_worker_options /\
  threads_ w !! 0%nat = Some (workflow_poller Handling).
Proof.
  set (l := [Thread 0 Step; Thread 0 (PollReturns true); Thread 0 Step; Thread 0 Step;
             Thread 0 Step; Thread 0 Step]).
  set (w0 := Start true false false (new_worker default_worker_options)).
  destruct (run l w0) as [w|] eqn:E; [|by vm_compute in E].
  assert (Hf : (fun w => (options_ w, threads_ w !! 0%nat)) <$> run l w0 =
    Some (default_worker_options, Some (workflow_poller Handling))) by (vm_compute; reflexivity).
  rewrite E in Hf. simpl in Hf. injection Hf as Ho Ht. exists w. split_and!; [|done|done].
  exists default_worker_options, true, false, false. by eapply run_steps.
Qed.

Lemma execute_follows recv : follows default_worker_options (workflow_poller Handling) (At Handling)
  (WorkflowLoop.execute default_worker_options true "q" 0 true recv).
Proof.
  unfold WorkflowLoop.execute, WorkflowLoop.failed, gate_gauges, counted, when, workflow_poller.
  cbn [Z.ltb Z.compare max_concurrent_workflow_task_executions default_worker_options negb].
  rewrite andb_false_r. follow.
Qed.

(** The first statement of a default loop, in the machine: it goes on to poll. *)
Lemma poll_loops_are_the_machine_witness :
  let w := Start true false false (new_worker default_worker_options) in
  exists x, follows default_worker_options (workflow_poller Top) x
              (WorkflowLoop.poll default_worker_options true "q" 0) /\
    exists p, machine_step (fun _ => 0) (workflow_poller Top) w p w (pc_of x).
Proof.
  intros w.
  destruct (poll_loops_are_the_machine (fun _ => 0) true "q" (workflow_poller Top) w) as (Hi & Hc & _).
  destruct (Hc (At Top) _ w (WorkflowLoop.poll default_worker_options true "q" 0) Hi) as (x & Hx & Hm).
  - apply (run_stop (fun _ => 0) true "q" default_worker_options (workflow_poller Top) Top w).
  - exists x. split; [exact Hx|]. destruct Hm as [[_ Hp]|(p & _ & Hm)]; [|by exists p].
    exfalso. destruct x as [p|p]; simpl in Hp; subst; by destruct Hx.
Defined.

Lemma in_flight_gauge_bounds_witness :
  exists w, reachable (fun _ => 0) w /\ 1 <= in_flight_ (gates w workflow_gate_).
Proof.
  destruct one_task as (w & Hr & Ho & Ht). exists w. split; [exact Hr|].
  assert (Hk : exists k, WorkflowLoop.execute default_worker_options true "q" 0 true 5 =
    InFlight workflow_gate_ k) by (eexists; reflexivity).
  destruct Hk as [k Hk].
  apply (in_flight_gauge_bounds (fun _ => 0) w 0 (workflow_poller Handling) workflow_gate_ k Hr Ht).
  rewrite Ho, <- Hk. apply execute_follows.
Defined.
