(* ===== verification/WorkerApi.v ===== *)
(** * The worker as a whole

    [Worker] ([src/src/worker/worker.cpp]) forwards to [WorkerImpl]
    ([src/src/internal/worker_impl.cpp]): its constructor makes the three task handlers
    with their queues, registers the session activities and lets workflows run the
    registered activities in line; [Start] begins polling those queues;
    [ReplayWorkflowHistory] replays a recorded history. *)

From S2P Require Import Prelude Common Effects Determinism History Workflow Interceptors Runner.
From S2P Require Import RunnerFacts Reference ReplaySpec Replay StickyReplay TaskHandler Replayer.
From S2P Require Import Rpc Client ClientFacts Sessions Worker Pollers PollersFacts.
From S2P Require ActivityHandler NexusHandler.

(** ** Construction *)

(** The options beyond those of the poll loops. *)
Record Options := mkOptions {
  polling : WorkerOptions;
  panic_policy : WorkflowPanicPolicy;
  max_cached_workflows : Z;
  deadlock_detection_timeout : Z;
  workflow_interceptors : list (WorkflowInboundInterceptor -> option WorkflowInboundInterceptor);
  activity_interceptors : list (ActivityInboundInterceptor (ActivityHandler.Context * Z) ->
                                option (ActivityInboundInterceptor (ActivityHandler.Context * Z)))
}.

Definition default_options : Options :=
  {| polling := default_worker_options; panic_policy := BlockWorkflow; max_cached_workflows := 0;
     deadlock_detection_timeout := 0; workflow_interceptors := []; activity_interceptors := [] |}.

Record Impl := mkImpl {
  sticky_queue_ : string;
  session_queue_ : string;
  impl_options_ : Options;
  workflow_handler_ : WorkflowTaskHandler;
  (** its functions may capture [active_sessions_] *)
  activity_handler_ : ActivityHandler.ActivityTaskHandler Z;
  nexus_handler_ : NexusHandler.NexusTaskHandler;
  active_sessions_ : Z;
  (** the threads, gates and scalers *)
  pollers_ : Pollers.WorkerImpl;
  started_ : bool
}.

#[export] Instance Options_eta : Eta Options := fun o =>
  {| polling := polling o; panic_policy := panic_policy o; max_cached_workflows := max_cached_workflows o;
     deadlock_detection_timeout := deadlock_detection_timeout o;
     workflow_interceptors := workflow_interceptors o; activity_interceptors := activity_interceptors o |}.

#[export] Instance Impl_eta : Eta Impl := fun w =>
  {| sticky_queue_ := sticky_queue_ w; session_queue_ := session_queue_ w;
     impl_options_ := impl_options_ w; workflow_handler_ := workflow_handler_ w;
     activity_handler_ := activity_handler_ w; nexus_handler_ := nexus_handler_ w;
     active_sessions_ := active_sessions_ w; pollers_ := pollers_ w; started_ := started_ w |}.

Section Construction.
Context `{Codec}.

(** The session activities, on [active_sessions_]. *)
Definition session_creation (cap : Z) (session_queue : string) : ActivityHandler.HostedFn Z :=
  fun _ _ '(ctx, active) =>
  match create_session cap session_queue active with
  | (active, inr queue) =>
    ((ctx, active), match ToPayload_string queue with inr p => inr [p] | inl e => inl e end)
  | (active, inl e) => ((ctx, active), inl e)
  end.

Definition session_completion : ActivityHandler.HostedFn Z := fun _ _ '(ctx, active) =>
  ((ctx, complete_session active), inr []).

Definition RegisterSessionActivities (cap : Z) (session_queue : string)
    (h : ActivityHandler.ActivityTaskHandler Z) : ActivityHandler.ActivityTaskHandler Z :=
  ActivityHandler.Register kSessionCompletionActivityType session_completion
    (ActivityHandler.Register kSessionCreationActivityType (session_creation cap session_queue) h).

Context (uuid1 uuid2 : string) (failure_converter : option (exn -> Proto.Failure)).

(** [WorkerImpl::WorkerImpl]. *)
Definition make_worker (ns identity task_queue : string) (options : Options) : Impl :=
  let sticky_queue := "temporal-cpp-sdk-sticky-" +:+ uuid1 in
  let session_queue := task_queue +:+ "-session-" +:+ uuid2 in
  let activity_handler :=
    {| ActivityHandler.ah_identity := identity; ActivityHandler.ah_task_queue := task_queue;
       ActivityHandler.ah_activities := ∅;
       ActivityHandler.ah_interceptors := activity_interceptors options;
       ActivityHandler.ah_failure_converter := failure_converter |} in
  {| sticky_queue_ := sticky_queue;
     session_queue_ := session_queue;
     impl_options_ := options;
     workflow_handler_ := make_handler ns identity task_queue sticky_queue (panic_policy options)
       (max_cached_workflows options) (deadlock_detection_timeout options);
     activity_handler_ :=
       if enable_sessions (polling options)
       then RegisterSessionActivities (max_concurrent_sessions (polling options)) session_queue
              activity_handler
       else activity_handler;
     nexus_handler_ := {| NexusHandler.nh_ns := ns; NexusHandler.nh_identity := identity;
                          NexusHandler.nh_operations := ∅ |};
     active_sessions_ := 0; pollers_ := new_worker (polling options); started_ := false |}.
End Construction.

(** ** Registration *)

Definition RegisterWorkflow (name : string) (fn : Payloads -> prog) (w : Impl) : Impl :=
  w <| workflow_handler_ ::= TaskHandler.Register name fn |>.

Definition RegisterActivity (name : string) (fn : ActivityHandler.ActivityBody) (w : Impl) : Impl :=
  w <| activity_handler_ ::= ActivityHandler.Register name (ActivityHandler.hosted fn) |>.

Definition RegisterNexusOperation (service operation : string) (fn : NexusHandler.NexusOperationFn)
    (w : Impl) : Impl :=
  w <| nexus_handler_ ::= NexusHandler.Register service operation fn |>.

(** [ActivityTaskHandler::Lookup] behind [SetLocalActivityResolver]: an activity run in
    line gets a context without a heartbeat; [found] is what its [n]th run finds in
    [active_sessions_]. *)
Definition local_activity (found : nat -> Z) (w : Impl) (type : string) : option ActivityFn :=
  (fun (fn : ActivityHandler.HostedFn Z) (n : nat) info input =>
     snd (fn info input (ActivityHandler.make_context info None 0 (fun _ => 0), found n))) <$>
  ActivityHandler.ah_activities (activity_handler_ w) !! type.

(** The environment the worker's workflow runners live in. *)
Definition worker_env (world : nat -> Payload) (overruns : nat -> bool) (found : nat -> Z)
    (failure_converter : option (exn -> Proto.Failure)) (w : Impl) : Env :=
  {| e_world := world; e_overruns := overruns; e_local_activity_resolver := Some (local_activity found w);
     e_interceptors := workflow_interceptors (impl_options_ w);
     e_failure_converter := failure_converter |}.

(** ** Starting *)

Definition has_workflows (w : Impl) : bool :=
  negb (bool_decide (th_workflows (workflow_handler_ w) = ∅)).

Definition has_activities (w : Impl) : bool :=
  negb (bool_decide (ActivityHandler.ah_activities (activity_handler_ w) = ∅)).

(** [WorkerImpl::Start]: the first call only. *)
Definition Start (w : Impl) : Impl :=
  if started_ w then w
  else (w <| started_ := true |>)
         <| pollers_ ::= Pollers.Start (has_workflows w) (has_activities w)
              (NexusHandler.has_operations (nexus_handler_ w)) |>.

(** [WorkerImpl::Run] waits, in steps of 100 ms, while neither is set. *)
Definition Run_waits (interrupted : bool) (w : Impl) : bool := negb (stop_ (pollers_ w)) && negb interrupted.

(** ** What the loops poll *)

Inductive TaskQueueKind := TASK_QUEUE_KIND_NORMAL | TASK_QUEUE_KIND_STICKY.

Record PollRequest := mkPollRequest {
  pr_queue : string;
  pr_kind : TaskQueueKind;
  pr_normal_name : string
}.

(** The request of [WorkflowPollLoop]. *)
Definition workflow_poll_request (sticky : bool) (w : Impl) : PollRequest :=
  if sticky
  then {| pr_queue := sticky_queue_ w; pr_kind := TASK_QUEUE_KIND_STICKY;
          pr_normal_name := th_task_queue (workflow_handler_ w) |}
  else {| pr_queue := th_task_queue (workflow_handler_ w); pr_kind := TASK_QUEUE_KIND_NORMAL;
          pr_normal_name := "" |}.

(** The request of [ActivityPollLoop]. *)
Definition activity_poll_request (session : bool) (w : Impl) : PollRequest :=
  {| pr_queue := if session then session_queue_ w else th_task_queue (workflow_handler_ w);
     pr_kind := TASK_QUEUE_KIND_NORMAL; pr_normal_name := "" |}.

Definition nexus_poll_request (w : Impl) : PollRequest :=
  {| pr_queue := th_task_queue (workflow_handler_ w); pr_kind := TASK_QUEUE_KIND_NORMAL;
     pr_normal_name := "" |}.

Definition poll_request (k : Pollers.Kind) (w : Impl) : PollRequest :=
  match k with
  | KWorkflow sticky => workflow_poll_request sticky w
  | KActivity => activity_poll_request false w
  | KSession => activity_poll_request true w
  | KNexus => nexus_poll_request w
  end.

(** ** Replaying a recorded history *)

Section Replay.
(** protobuf's JSON parser. *)
Context `{Codec} (JsonStringToMessage : string -> string + History).

(** It throws; [inr tt] is returning. *)
Definition ReplayWorkflowHistory (env : Env) (history_json : string) (w : Impl) : outcome (result unit) :=
  match JsonStringToMessage history_json with
  | inl message =>
    Val (inl (app_error ("failed to parse history JSON: " +:+ message) "ReplayError"))
  | inr history =>
    match ReplayHistory env history (workflow_handler_ w) with
    | Val (inr None) => Val (inr tt)
    | Val (inr (Some mismatch)) => Val (inl (app_error mismatch "NonDeterministicError"))
    | Val (inl e) => Val (inl e)
    | Hang => Hang
    | UB => UB
    end
  end.
End Replay.

Definition cache_hits (w : Impl) : Z := th_cache_hits (workflow_handler_ w).
Definition replays (w : Impl) : Z := th_replays (workflow_handler_ w).

(** ** The handle ([worker.h], [worker.cpp]) *)

(** [std::unique_ptr<WorkerImpl> impl_]: empty once the worker was moved from. *)
Definition Worker := option Impl.

(** [Worker::Worker]: the connection's namespace and identity, the client's converter. *)
Definition Worker_of {S} `{Codec} (uuid1 uuid2 : string) (failure_converter : option (exn -> Proto.Failure))
    (client : Client S) (task_queue : string) (options : Options) : Worker :=
  Some (make_worker uuid1 uuid2 failure_converter (g_ns (c_grpc client)) (g_identity (c_grpc client))
          task_queue options).

(** [impl_->]: a null pointer is not checked for. *)
Definition with_impl {A} (use : Impl -> A) (w : Worker) : outcome A :=
  match w with Some impl => Val (use impl) | None => UB end.

(** The move constructor: what the new worker and the old one hold. *)
Definition Worker_move (w : Worker) : Worker * Worker := (w, None).

Definition RegisterWorkflowFn (name : string) (fn : Payloads -> prog) : Worker -> outcome Worker :=
  with_impl (fun impl => Some (RegisterWorkflow name fn impl)).

Definition RegisterActivityFn (name : string) (fn : ActivityHandler.ActivityBody) : Worker -> outcome Worker :=
  with_impl (fun impl => Some (RegisterActivity name fn impl)).

Definition RegisterNexusOperationFn (service operation : string) (fn : NexusHandler.NexusOperationFn) :
    Worker -> outcome Worker :=
  with_impl (fun impl => Some (RegisterNexusOperation service operation fn impl)).

Definition Worker_Start : Worker -> outcome Worker := with_impl (fun impl => Some (Start impl)).
Definition Worker_cache_hits : Worker -> outcome Z := with_impl cache_hits.
Definition Worker_replays : Worker -> outcome Z := with_impl replays.

Definition Worker_ReplayWorkflowHistory `{Codec} (parse : string -> string + History) (env : Env)
    (history_json : string) (w : Worker) : outcome (result unit) :=
  match w with Some impl => ReplayWorkflowHistory parse env history_json impl | None => UB end.

(** ** Facts *)

(** The workers user code can make: constructed, then registered with. *)
Inductive built `{Codec} : Impl -> Prop :=
| built_new uuid1 uuid2 fc ns identity task_queue options :
    built (make_worker uuid1 uuid2 fc ns identity task_queue options)
| built_workflow name fn w : built w -> built (RegisterWorkflow name fn w)
| built_activity name fn w : built w -> built (RegisterActivity name fn w)
| built_nexus service operation fn w : built w -> built (RegisterNexusOperation service operation fn w).

(** What registration keeps. *)
Record wired (w : Impl) : Prop := {
  wi_pollers : pollers_ w = new_worker (polling (impl_options_ w));
  wi_started : started_ w = false;
  wi_sticky : th_sticky_queue (workflow_handler_ w) = sticky_queue_ w /\ sticky_queue_ w <> "";
  wi_sessions : enable_sessions (polling (impl_options_ w)) = true -> has_activities w = true
}.

Lemma insert_registered {V} (k : string) (v : V) (m : gmap string V) :
  negb (bool_decide (<[k := v]> m = ∅)) = true.
Proof. rewrite bool_decide_eq_false_2; [done|apply insert_non_empty]. Qed.

Lemma built_wired `{Codec} w : built w -> wired w.
Proof.
  induction 1 as [uuid1 uuid2 fc ns identity tq o|name fn w _ [H1 H2 H3 H4]|name fn w _ [H1 H2 H3 H4]
    |service op fn w _ [H1 H2 H3 H4]]; constructor; try done.
  - simpl. intros Hs. unfold has_activities, make_worker. simpl. rewrite Hs. apply insert_registered.
  - intros _. apply insert_registered.
Qed.

Lemma Start_threads_of `{Codec} w :
  wired w -> threads_ (pollers_ (Start w)) =
  threads_ (Pollers.Start (has_workflows w) (has_activities w)
              (NexusHandler.has_operations (nexus_handler_ w)) (new_worker (polling (impl_options_ w)))).
Proof. intros [H1 H2 _ _]. unfold Start. rewrite H2. simpl. by rewrite H1. Qed.

(** A started worker has a thread that is always polling for each kind of loop. *)
Lemma polling_thread o hw ha hn (k : Pollers.Kind) :
  match k with
  | KWorkflow _ => hw | KActivity => ha | KSession => ha && enable_sessions o | KNexus => hn
  end = true ->
  exists t, t ∈ threads_ (Pollers.Start hw ha hn (new_worker o)) /\ t_kind t = k /\ scalable o t = false.
Proof.
  pose proof (pool_pos o (activity_task_pollers o)) as Hap.
  destruct k as [sticky| | |].
  - intros ->. pose proof (pool_pos o (workflow_task_pollers o)) as Hwp.
    destruct (workflow_loops_in o _ sticky Hwp) as [Hin Hsc].
    exists (mkThread (KWorkflow sticky) 0 Top). split; [|done].
    unfold Pollers.Start. cbn [options_ new_worker].
    destruct ha, hn; cbn -[workflow_loops pool_size hot_size activity_loops]; rewrite ?elem_of_app; auto.
  - intros ->. exists (mkThread KActivity 0 Top). split_and!; [|done|].
    + assert (Hin : mkThread KActivity 0 Top ∈ activity_loops (pool_size o (activity_task_pollers o)))
        by (apply (list_elem_of_lookup_2 _ 0), (first_loop KActivity); lia).
      unfold Pollers.Start. cbn [options_ new_worker].
      destruct hw, hn; cbn -[workflow_loops pool_size hot_size activity_loops]; rewrite ?elem_of_app; auto.
    + unfold scalable. simpl. destruct (enable_poller_autoscaling o); [|done]. apply Z.leb_gt. lia.
  - intros [-> Hs]%andb_true_iff. exists (mkThread KSession 0 Top). split_and!; [|done|].
    + unfold Pollers.Start. cbn [options_ new_worker]. rewrite Hs.
      destruct hw, hn; cbn -[workflow_loops pool_size hot_size activity_loops];
        rewrite ?elem_of_app, ?list_elem_of_singleton; auto.
    + unfold scalable. by rewrite andb_false_r.
  - intros ->. exists (mkThread KNexus 0 Top). split_and!; [|done|].
    + unfold Pollers.Start. cbn [options_ new_worker].
      destruct hw, ha; cbn -[workflow_loops pool_size hot_size activity_loops];
        rewrite ?elem_of_app, ?list_elem_of_singleton; auto.
    + unfold scalable. by rewrite andb_false_r.
Qed.

(** A worker made from a client is built, and a moved-from one has undefined methods. *)
Lemma Worker_of_built {S} `{Codec} uuid1 uuid2 fc (c : Client S) task_queue options impl :
  Worker_of uuid1 uuid2 fc c task_queue options = Some impl -> built impl.
Proof. intros [= <-]. apply built_new. Qed.

Lemma moved_worker_undefined (w : Worker) name fn :
  fst (Worker_move w) = w /\ RegisterWorkflowFn name fn (snd (Worker_move w)) = UB /\
  Worker_Start (snd (Worker_move w)) = UB.
Proof. done. Qed.

(** [polls w r]: a started [w] has a thread that never parks and polls with [r]. *)
Definition polls (w : Impl) (r : PollRequest) : Prop :=
  exists t, t ∈ threads_ (pollers_ (Start w)) /\ scalable (polling (impl_options_ w)) t = false /\
            poll_request (t_kind t) w = r.

Lemma polls_kind `{Codec} w (k : Pollers.Kind) :
  wired w ->
  match k with
  | KWorkflow _ => has_workflows w | KActivity => has_activities w
  | KSession => has_activities w && enable_sessions (polling (impl_options_ w))
  | KNexus => NexusHandler.has_operations (nexus_handler_ w)
  end = true ->
  polls w (poll_request k w).
Proof.
  intros Hw Hk. destruct (polling_thread (polling (impl_options_ w)) (has_workflows w) (has_activities w)
    (NexusHandler.has_operations (nexus_handler_ w)) k Hk) as (t & Hin & Hkind & Hsc).
  exists t. split_and!; [|done|by rewrite Hkind]. by rewrite (Start_threads_of w Hw).
Qed.


(** ** Fetched histories replay *)

Section Fetched.
Context {W U : Type} `{Stub W}.

Lemma FetchHistory_serves h token (w w' : World W U) pages :
  serves (h_grpc h) (history_rpc h) token w pages w' -> forall out,
  Paginate (length pages) (history_page h) snd (fun full resp => full ++ fst resp) token out w =
  Val (w', inr (out ++ concat pages)).
Proof.
  assert (Hpage : forall token, history_page (W := W) (U := U) h token =
                                UnaryCall (h_grpc h) (history_rpc h token)).
  { intros t. unfold history_page, history_rpc. by rewrite if_empty. }
  induction 1 as [token w items w' Hc|token w items next w1 pages w' Hc Hn Hs IH]; intros out; simpl;
    rewrite (hbind_val _ _ _ _ _ (eq_trans (f_equal (fun f => f w) (Hpage token)) Hc)); simpl.
  - by rewrite app_nil_r.
  - by rewrite (proj2 (str_empty_false _) Hn), IH, <- app_assoc.
Qed.
End Fetched.


(** ** Closed instances *)

(** A history on two pages. *)
Definition paged_answer {R} (m : rpc R) : Status * R :=
  match m with
  | GetWorkflowExecutionHistory req =>
    (fine, if str_empty (gh_next_page_token req) then ([started], "more")
           else (greeted ++ [mkEvent 4 (WorkflowExecutionCompleted (ToProtoPayloads [bytes "hi"]))], ""))
  | m => (fine, empty_response m)
  end.

#[local] Instance paged_stub : Stub nat := fun R m _ n => (n, paged_answer m).

Definition ref_worker : Impl :=
  RegisterWorkflow "W" one_activity
    (make_worker "u1" "u2" None "default" "me" "q"
       (default_options <| polling ::= fun o => o <| enable_sessions := true |> |>)).

Definition paged_history : list History :=
  [[started]; greeted ++ [mkEvent 4 (WorkflowExecutionCompleted (ToProtoPayloads [bytes "hi"]))]].

Definition paged_handle : WorkflowHandle := new_handle (W := nat) (U := unit) (ref_client []) "wf" "r1".


