(* ===== verification/SessionWorkers.v ===== *)
(** * Sessions on real workers

    The fleet of [Sessions] counts sessions by what the two built-in activities do on
    their own.  Here the same is read off the workers as they are built
    ([internal/worker_impl.cpp]): a session task goes through
    [ActivityTaskHandler::Handle] of the worker that polled it, and whether its answer
    arrives is the network's choice.  Every step of these workers is a step of the
    fleet, so what the fleet's counters promise holds of them. *)

From S2P Require Import Prelude Common Effects Workflow Interceptors Runner Reference.
From S2P Require Import Typed Sessions Worker Pollers WorkerApi.
From S2P Require ActivityHandler.
Import ActivityHandler.

(** ** Handling an activity task *)

(** The server while one task is handled.  A response may arrive although the call
    that made it fails; when the call succeeds it did arrive. *)
Record Delivery := mkDelivery {
  d_rpc : ActivityResponse -> result unit;
  d_arrives : ActivityResponse -> bool;
  d_heartbeat : nat -> Payloads -> result bool;
  d_clock : nat -> Z;
  d_returned : forall resp, d_rpc resp = inr tt -> d_arrives resp = true
}.

(** What the activity loop does with a task it polled. *)
Definition handle_activity (d : Delivery) (task : ActivityTask) (w : Impl) :
    outcome (Impl * (list ActivityResponse * result unit)) :=
  match Handle (activity_handler_ w) (d_rpc d) (d_heartbeat d) (d_clock d) task (active_sessions_ w) with
  | Val (active, r) => Val (w <| active_sessions_ := active |>, r)
  | Hang => Hang
  | UB => UB
  end.

(** The result the server records: that of the first completion to arrive. *)
Definition recorded_result (d : Delivery) (sent : list ActivityResponse) : option Payloads :=
  match filter (fun resp => d_arrives d resp = true) sent with
  | RespondActivityTaskCompleted _ _ result :: _ =>
    Some match result with Some ps => FromProtoPayloads ps | None => [] end
  | _ => None
  end.

Section Cluster.
Context `{Codec}.

(** The queue [CreateSession] makes a session of. *)
Definition granted (d : Delivery) (sent : list ActivityResponse) : option string :=
  match recorded_result d sent with
  | Some ps => match decode_front (R := string) ps with inr queue => Some queue | inl _ => None end
  | None => None
  end.

(** Workers by the session queue they poll, and the sessions of the workflows. *)
Record cluster := mkCluster {
  workers : gmap string Impl;
  sessions_held : list string;
  sessions_completing : list string
}.

Inductive cluster_step (d : Delivery) : cluster -> cluster -> Prop :=
(** any worker may take a creation *)
| cluster_create queue w w' task sent reply c :
    workers c !! queue = Some w -> at_activity_type task = kSessionCreationActivityType ->
    handle_activity d task w = Val (w', (sent, reply)) ->
    cluster_step d c
      {| workers := <[queue := w']> (workers c);
         sessions_held := match granted d sent with
                          | Some q => q :: sessions_held c | None => sessions_held c end;
         sessions_completing := sessions_completing c |}
| cluster_end queue l1 l2 c :
    sessions_held c = l1 ++ queue :: l2 ->
    cluster_step d c
      {| workers := workers c; sessions_held := l1 ++ l2;
         sessions_completing := queue :: sessions_completing c |}
(** a completion goes to the worker that polls the session's queue *)
| cluster_complete queue w w' task sent reply l1 l2 c :
    workers c !! queue = Some w -> at_activity_type task = kSessionCompletionActivityType ->
    sessions_completing c = l1 ++ queue :: l2 ->
    handle_activity d task w = Val (w', (sent, reply)) ->
    cluster_step d c
      {| workers := <[queue := w']> (workers c); sessions_held := sessions_held c;
         sessions_completing := match recorded_result d sent with
                                | Some _ => l1 ++ l2 | None => sessions_completing c end |}
(** any other activity *)
| cluster_other queue w w' task sent reply c :
    workers c !! queue = Some w ->
    at_activity_type task <> kSessionCreationActivityType ->
    at_activity_type task <> kSessionCompletionActivityType ->
    handle_activity d task w = Val (w', (sent, reply)) ->
    cluster_step d c
      {| workers := <[queue := w']> (workers c); sessions_held := sessions_held c;
         sessions_completing := sessions_completing c |}.

(** ** Workers that host sessions *)

(** The interceptors add nothing to the call. *)
Definition passing (h : ActivityTaskHandler Z) : Prop := forall fn info args header s,
  in_ExecuteActivity (chain_head (BuildActivityInboundChain (ah_interceptors h) (RootActivityInbound fn)))
    info args header s = Val (fn info args s).

(** The two names are the SDK's; the user's functions do not see the counter. *)
Record hosts (queue : string) (w : Impl) : Prop := {
  ho_queue : session_queue_ w = queue;
  ho_passing : passing (activity_handler_ w);
  ho_creation : ah_activities (activity_handler_ w) !! kSessionCreationActivityType =
    Some (session_creation (max_concurrent_sessions (polling (impl_options_ w))) queue);
  ho_completion : ah_activities (activity_handler_ w) !! kSessionCompletionActivityType =
    Some session_completion;
  ho_hosted : forall name fn, ah_activities (activity_handler_ w) !! name = Some fn ->
    name <> kSessionCreationActivityType -> name <> kSessionCompletionActivityType ->
    exists user, fn = hosted user
}.

Lemma make_worker_hosts uuid1 uuid2 fc ns identity task_queue options :
  enable_sessions (polling options) = true -> activity_interceptors options = [] ->
  let w := make_worker uuid1 uuid2 fc ns identity task_queue options in
  hosts (session_queue_ w) w.
Proof.
  intros He Hi w. constructor; subst w; unfold make_worker; cbn -[kSessionCreationActivityType];
    rewrite ?He; cbn; rewrite ?Hi; try done.
  intros name fn. rewrite lookup_insert_Some, lookup_insert_Some, lookup_empty.
  intros [[? _]|[_ [[? _]|[_ ?]]]]; congruence.
Qed.

Lemma RegisterActivity_hosts queue name fn w :
  name <> kSessionCreationActivityType -> name <> kSessionCompletionActivityType ->
  hosts queue w -> hosts queue (RegisterActivity name fn w).
Proof.
  intros H1 H2 [Hq Hp Hc Hd Hh]. constructor; cbn; rewrite ?lookup_insert_ne by done; try done.
  intros name' fn' [[<- <-]|[_ Hl]]%lookup_insert_Some; [by exists fn|by eapply Hh].
Qed.

(** ** What handling a session task does *)

Definition is_failure (resp : ActivityResponse) : Prop :=
  match resp with RespondActivityTaskFailed _ _ _ => True | _ => False end.

Lemma handle_error_sends (h : ActivityTaskHandler Z) rpc task e sent sent' reply :
  handle_error h rpc task e sent = (sent', reply) ->
  exists more, sent' = sent ++ more /\ Forall is_failure more.
Proof.
  unfold handle_error, respond. intros Hs.
  repeat case_match; simplify_eq; first [exists []; split; [by rewrite app_nil_r|constructor]
    |eexists; split; [reflexivity|by repeat constructor]].
Qed.

Lemma nothing_recorded d sent : Forall is_failure sent -> recorded_result d sent = None.
Proof.
  unfold recorded_result. induction 1 as [|resp sent Hr _ IH]; [done|].
  rewrite filter_cons. case_decide; [by destruct resp|done].
Qed.

Lemma completion_recorded d token identity r more :
  Forall is_failure more ->
  recorded_result d (RespondActivityTaskCompleted token identity r :: more) =
  if d_arrives d (RespondActivityTaskCompleted token identity r)
  then Some match r with Some ps => FromProtoPayloads ps | None => [] end else None.
Proof.
  intros Hm. unfold recorded_result at 1. rewrite filter_cons.
  destruct (d_arrives d _); case_decide; try done. by apply nothing_recorded.
Qed.

(** A function that leaves the context alone, handled by a passing chain. *)
Lemma handle_activity_runs d task w fn w' sent reply active res :
  passing (activity_handler_ w) ->
  ah_activities (activity_handler_ w) !! at_activity_type task = Some fn ->
  (forall info args ctx, fn info args (ctx, active_sessions_ w) = ((ctx, active), res)) ->
  handle_activity d task w = Val (w', (sent, reply)) ->
  w' = w <| active_sessions_ := active |> /\
  match res with
  | inr ps => exists more, Forall is_failure more /\
      sent = RespondActivityTaskCompleted (at_task_token task) (ah_identity (activity_handler_ w))
               (opt_payloads ps) :: more
  | inl _ => Forall is_failure sent
  end.
Proof.
  intros Hp Hl Hfn. unfold handle_activity, Handle, execute. rewrite Hl, Hp, Hfn.
  destruct res as [e|ps]; cbn.
  - destruct (handle_error _ _ _ _ _) as [sent' reply'] eqn:He. intros [= <- <- <-].
    split; [done|]. by apply handle_error_sends in He as (more & -> & ?).
  - unfold respond. cbn. destruct (d_rpc d _) as [e|[]].
    + destruct (handle_error _ _ _ _ _) as [sent' reply'] eqn:He. intros [= <- <- <-].
      split; [done|]. apply handle_error_sends in He as (more & -> & ?). by exists more.
    + intros [= <- <- <-]. split; [done|]. exists []. by split.
Qed.

(** Only [active_sessions_] of a worker changes, by what the activity does to it. *)
Lemma hosts_counted queue w active : hosts queue w -> hosts queue (w <| active_sessions_ := active |>).
Proof. intros [? ? ? ? ?]. by constructor. Qed.

(** Every answer reaches the server, and the SDK's strings can be encoded. *)
Definition lossless (d : Delivery) : Prop := forall resp, d_arrives d resp = true.
Definition encodes_strings : Prop := forall s, exists p, ToPayload_string s = inr p.

Context `{!CodecLaws _}.

Lemma handle_creation d task queue w w' sent reply :
  hosts queue w -> at_activity_type task = kSessionCreationActivityType ->
  handle_activity d task w = Val (w', (sent, reply)) ->
  let (active, made) := create_session (max_concurrent_sessions (polling (impl_options_ w))) queue
                          (active_sessions_ w) in
  w' = w <| active_sessions_ := active |> /\
  match made with
  | inl _ => granted d sent = None
  | inr queue' => exists acked : bool, granted d sent = (if acked then Some queue' else None) /\
                  (lossless d -> encodes_strings -> acked = true)
  end.
Proof.
  intros Hh Ht Hd. destruct (create_session _ queue _) as [active made] eqn:Hc.
  assert (Hl := ho_creation _ _ Hh). rewrite <- Ht in Hl.
  eapply (handle_activity_runs d task w _ w' sent reply active
    (match made with
     | inr q => match ToPayload_string q with inr p => inr [p] | inl e => inl e end
     | inl e => inl e end)) in Hd; [|exact (ho_passing _ _ Hh)|exact Hl|].
  2:{ intros info args ctx. unfold session_creation. rewrite Hc. by destruct made. }
  destruct Hd as [-> Hsent]. split; [done|]. unfold granted.
  destruct made as [e|q]; [by rewrite nothing_recorded|].
  destruct (ToPayload_string q) as [e|p] eqn:Hp.
  - exists false. rewrite nothing_recorded by done. split; [done|]. intros _ He.
    destruct (He q) as [p Hp']. congruence.
  - destruct Hsent as (more & Hm & ->). rewrite completion_recorded by done. unfold opt_payloads.
    match goal with |- context [d_arrives d ?resp] => exists (d_arrives d resp); destruct (d_arrives d resp) eqn:Ha end;
      (split; [|intros Hl' _; by rewrite <- Ha, Hl']); [|done].
    rewrite payloads_roundtrip. simpl. by rewrite (codec_string _ _ Hp).
Qed.

Lemma handle_completion d task queue w w' sent reply :
  hosts queue w -> at_activity_type task = kSessionCompletionActivityType ->
  handle_activity d task w = Val (w', (sent, reply)) ->
  w' = w <| active_sessions_ := complete_session (active_sessions_ w) |> /\
  exists acked : bool, recorded_result d sent = (if acked then Some [] else None) /\
    (lossless d -> acked = true).
Proof.
  intros Hh Ht Hd. assert (Hl := ho_completion _ _ Hh). rewrite <- Ht in Hl.
  eapply (handle_activity_runs d task w _ w' sent reply _ (inr [])) in Hd;
    [|exact (ho_passing _ _ Hh)|exact Hl|done].
  destruct Hd as (-> & more & Hm & ->). split; [done|]. rewrite completion_recorded by done.
  eexists. split; [reflexivity|]. intros Hl'. apply Hl'.
Qed.

Lemma handle_other d task queue w w' r :
  hosts queue w -> at_activity_type task <> kSessionCreationActivityType ->
  at_activity_type task <> kSessionCompletionActivityType ->
  handle_activity d task w = Val (w', r) -> w' = w.
Proof.
  intros Hh H1 H2. unfold handle_activity, Handle.
  assert (Hw : w <| active_sessions_ := active_sessions_ w |> = w) by by destruct w.
  destruct (ah_activities (activity_handler_ w) !! at_activity_type task) as [fn|] eqn:Hl.
  - destruct (ho_hosted _ _ Hh _ _ Hl H1 H2) as [user ->]. unfold execute.
    rewrite (ho_passing _ _ Hh). unfold hosted at 1. simpl fst. simpl snd.
    destruct (user _ _ _) as [ctx [e|ps]]; repeat case_match; intros [= <- _]; by simplify_eq.
  - intros [= <- _]. exact Hw.
Qed.

(** ** The fleet the workers are *)

Record agrees (c : cluster) (f : fleet) : Prop := {
  ag_hosts : forall queue w, workers c !! queue = Some w -> hosts queue w;
  ag_caps : forall queue w, workers c !! queue = Some w ->
    caps f queue = max_concurrent_sessions (polling (impl_options_ w));
  ag_active : forall queue w, workers c !! queue = Some w ->
    active_sessions f queue = active_sessions_ w;
  ag_held : held f = sessions_held c;
  ag_completing : completing f = sessions_completing c
}.

(** A worker whose counter became what the fleet's did. *)
Lemma agrees_counted c f queue w active h l :
  agrees c f -> workers c !! queue = Some w ->
  agrees {| workers := <[queue := w <| active_sessions_ := active |>]> (workers c);
            sessions_held := h; sessions_completing := l |}
         {| caps := caps f; active_sessions := active_sessions (set_active queue active f);
            held := h; completing := l |}.
Proof.
  intros [Hh Hc Ha _ _] Hw. constructor; cbn; try done;
    intros q w1 [[<- <-]|[Hne Hl]]%lookup_insert_Some; eauto.
  - apply (hosts_counted queue w active), Hh, Hw.
  - apply (Hc queue w), Hw.
  - by rewrite decide_True.
  - rewrite decide_False by done. by apply Ha.
Qed.

(** The sessions of the workflows are on known workers. *)
Definition placed (c : cluster) : Prop :=
  forall queue, queue ∈ sessions_held c ++ sessions_completing c -> is_Some (workers c !! queue).

(** The worker of [queue] handled something; the sessions it now has are on it. *)
Lemma placed_insert c queue w w' h l :
  placed c -> workers c !! queue = Some w -> h ++ l ⊆ queue :: sessions_held c ++ sessions_completing c ->
  placed (mkCluster (<[queue := w']> (workers c)) h l) /\
  dom (<[queue := w']> (workers c)) = dom (workers c).
Proof.
  intros Hp Hw Hsub. split; [|by apply dom_insert_lookup_L; eexists].
  intros q Hq%Hsub%elem_of_cons. cbn. rewrite lookup_insert_is_Some'. destruct Hq; [by left|right; auto].
Qed.

Lemma cluster_step_simulated d c c' f :
  agrees c f -> placed c -> cluster_step d c c' ->
  exists acked f', (fleet_step acked f f' \/ f' = f) /\ agrees c' f' /\ placed c' /\
    (lossless d -> encodes_strings -> acked = true).
Proof.
  intros Hag Hpl Hs. inversion Hs as [queue w w' task sent reply c0 Hw Ht Hd|queue l1 l2 c0 Hheld
    |queue w w' task sent reply l1 l2 c0 Hw Ht Hcompl Hd|queue w w' task sent reply c0 Hw H1 H2 Hd]; subst.
  - apply (handle_creation _ _ queue) in Hd; [|by eapply ag_hosts|done].
    rewrite <- (ag_active _ _ Hag _ _ Hw), <- (ag_caps _ _ Hag _ _ Hw) in Hd.
    destruct (create_session _ queue _) as [active made] eqn:Hc. destruct Hd as [-> Hg].
    destruct made as [e|q].
    + exists true, (set_active queue active f). rewrite Hg. split; [left; by eapply step_refused|].
      pose proof (agrees_counted c f queue w active (held f) (completing f) Hag Hw) as Hn.
      split_and!; [by rewrite <- (ag_held _ _ Hag), <- (ag_completing _ _ Hag)| |done].
      eapply placed_insert; [done..|set_solver].
    + destruct Hg as (acked & -> & Hl).
      pose proof (create_session_cases _ _ _ _ _ Hc) as [([= ->] & _)|((e & [=]) & _)].
      eexists acked, _. split; [left; by eapply step_create|]. apply and_assoc. split; [|done].
      rewrite (ag_held _ _ Hag), (ag_completing _ _ Hag).
      destruct acked; (split; [by apply agrees_counted|eapply placed_insert; [done..|set_solver]]).
  - eexists true, _. split; [left; apply (step_end queue l1 l2); by rewrite (ag_held _ _ Hag)|].
    apply and_assoc. split; [|done]. split.
    + destruct Hag as [? ? ? ? Hc]. constructor; cbn; try done. by rewrite Hc.
    + intros q Hq. apply Hpl. rewrite Hheld. cbn in *. set_solver.
  - apply (handle_completion _ _ queue) in Hd as (-> & acked & -> & Hl); [|by eapply ag_hosts|done].
    eexists acked, _. split; [left; apply (step_complete acked queue l1 l2); by rewrite (ag_completing _ _ Hag)|].
    apply and_assoc. split; [|auto].
    rewrite (ag_held _ _ Hag), (ag_active _ _ Hag _ _ Hw), (ag_completing _ _ Hag).
    destruct acked; (split; [by apply agrees_counted|eapply placed_insert; [done..|]]);
      rewrite ?Hcompl; intros q; rewrite ?elem_of_cons, ?elem_of_app, ?elem_of_cons, ?elem_of_app; tauto.
  - apply (handle_other _ _ queue) in Hd as ->; [|by eapply ag_hosts|done|done].
    exists true, f. split; [by right|]. apply and_assoc. split; [|done].
    split; [|eapply placed_insert; [done..|set_solver]].
    destruct Hag as [? ? ? ? ?]. constructor; cbn; rewrite ?insert_id by done; done.
Qed.

(** ** And the other way: the network can choose every step of the fleet *)

Lemma handle_activity_returns d task queue w :
  hosts queue w -> exists w' sent reply, handle_activity d task w = Val (w', (sent, reply)).
Proof.
  intros Hh. unfold handle_activity, Handle, execute. destruct (_ !! _) as [fn|]; [|by do 3 eexists].
  rewrite (ho_passing _ _ Hh). destruct (fn _ _ _) as [[ctx active] [e|ps]].
  - destruct (handle_error _ _ _ _ _) as [sent reply]. by do 3 eexists.
  - destruct (WillCompleteAsync ctx); [by do 3 eexists|]. unfold respond.
    destruct (d_rpc d _); [|by do 3 eexists].
    destruct (handle_error _ _ _ _ _) as [sent reply]. by do 3 eexists.
Qed.

(** Every call succeeds, or every call fails with nothing sent. *)
Definition answering : Delivery :=
  mkDelivery (fun _ => inr tt) (fun _ => true) (fun _ _ => inr false) (fun _ => 0) (fun _ _ => eq_refl).

Definition silent : Delivery :=
  mkDelivery (fun _ => inl (RpcError "unavailable" false)) (fun _ => false) (fun _ _ => inr false)
    (fun _ => 0) (fun _ H => match H in _ = r return match r with inl _ => True | inr _ => false = true end
                           with eq_refl => I end).

Definition delivery (acked : bool) : Delivery := if acked then answering else silent.

Lemma silent_records_nothing sent : recorded_result silent sent = None.
Proof.
  unfold recorded_result. induction sent as [|resp sent IH]; [done|].
  rewrite filter_cons_False; done.
Qed.

Definition session_task (type : string) : ActivityTask :=
  {| at_activity_id := "0"; at_activity_type := type; at_workflow_id := "wf"; at_run_id := "run";
     at_task_token := "token"; at_attempt := 1; at_header := ∅; at_input := Proto.mkPayloads [];
     at_heartbeat_timeout := None |}.

Lemma create_realized acked c f queue n :
  encodes_strings -> agrees c f -> placed c -> is_Some (workers c !! queue) ->
  create_session (caps f queue) queue (active_sessions f queue) = (n, inr queue) ->
  exists c', cluster_step (delivery acked) c c' /\ placed c' /\ dom (workers c') = dom (workers c) /\
    agrees c' {| caps := caps f; active_sessions := active_sessions (set_active queue n f);
                 held := if acked then queue :: held f else held f; completing := completing f |}.
Proof.
  intros He Hag Hpl [w Hw] Hcr.
  destruct (handle_activity_returns (delivery acked) (session_task kSessionCreationActivityType) queue w)
    as (w' & sent & reply & Hd); [by eapply ag_hosts|].
  pose proof (handle_creation _ (session_task _) queue _ _ _ _ (ag_hosts _ _ Hag _ _ Hw) eq_refl Hd) as Hc.
  rewrite <- (ag_active _ _ Hag _ _ Hw), <- (ag_caps _ _ Hag _ _ Hw), Hcr in Hc.
  destruct Hc as (-> & acked' & Hg & Hl).
  assert (Hg' : granted (delivery acked) sent = if acked then Some queue else None).
  { destruct acked; [by rewrite Hg, Hl|]. unfold granted. by rewrite silent_records_nothing. }
  eexists. split; [by eapply (cluster_create _ queue w _ (session_task _))|]. rewrite Hg'.
  rewrite (ag_held _ _ Hag), (ag_completing _ _ Hag).
  destruct acked; (apply and_assoc; split; [eapply placed_insert; [done..|set_solver]|by apply agrees_counted]).
Qed.

Lemma complete_realized acked c f queue l1 l2 :
  agrees c f -> placed c -> completing f = l1 ++ queue :: l2 ->
  exists c', cluster_step (delivery acked) c c' /\ placed c' /\ dom (workers c') = dom (workers c) /\
    agrees c' {| caps := caps f;
                 active_sessions := active_sessions (set_active queue (complete_session (active_sessions f queue)) f);
                 held := held f; completing := if acked then l1 ++ l2 else completing f |}.
Proof.
  intros Hag Hpl Hcompl. rewrite (ag_completing _ _ Hag) in Hcompl |- *.
  destruct (Hpl queue) as [w Hw]; [rewrite Hcompl; set_solver|].
  destruct (handle_activity_returns (delivery acked) (session_task kSessionCompletionActivityType) queue w)
    as (w' & sent & reply & Hd); [by eapply ag_hosts|].
  pose proof (handle_completion _ (session_task _) queue _ _ _ _ (ag_hosts _ _ Hag _ _ Hw) eq_refl Hd)
    as (-> & acked' & Hr & Hl).
  assert (Hr' : recorded_result (delivery acked) sent = if acked then Some [] else None).
  { destruct acked; [by rewrite Hr, Hl|]. apply silent_records_nothing. }
  eexists. split; [by eapply (cluster_complete _ queue w _ (session_task _))|]. rewrite Hr'.
  rewrite (ag_active _ _ Hag _ _ Hw), (ag_held _ _ Hag).
  destruct acked; (apply and_assoc; split; [eapply placed_insert; [done..|]|by apply agrees_counted]);
    rewrite ?Hcompl; intros q; rewrite ?elem_of_cons, ?elem_of_app, ?elem_of_cons, ?elem_of_app; tauto.
Qed.

Lemma fleet_step_realized acked c f f' :
  encodes_strings -> agrees c f -> placed c -> fleet_step acked f f' ->
  (forall queue, active_sessions f' queue <> active_sessions f queue -> is_Some (workers c !! queue)) ->
  exists c', rtc (cluster_step (delivery acked)) c c' /\ placed c' /\
             dom (workers c') = dom (workers c) /\ agrees c' f'.
Proof.
  intros He Hag Hpl Hs Hw. inversion Hs as [a queue n f0 Hcr|queue n e f0 Hcr|queue l1 l2 f0 Hh
    |a queue l1 l2 f0 Hh]; subst.
  - destruct (create_realized acked c f queue n) as (c' & Hc & Hrest); [done..| |done|].
    + apply Hw. cbn. rewrite decide_True by done.
      apply create_session_cases in Hcr as [(_ & -> & _)|([? [=]] & _)]. lia.
    + exists c'. by split; [apply rtc_once|].
  - exists c. split_and!; [apply rtc_refl|done|done|].
    apply create_session_cases in Hcr as [([=] & _)|(_ & -> & _)].
    destruct Hag as [? ? Ha ? ?]. constructor; cbn; try done. intros q w Hq. case_decide; subst; by apply Ha.
  - eexists. split_and!; [apply rtc_once, (cluster_end _ queue l1 l2); by rewrite <- (ag_held _ _ Hag)| | |].
    + intros q Hq. apply Hpl. rewrite <- (ag_held _ _ Hag), Hh. cbn in *. set_solver.
    + done.
    + destruct Hag as [? ? ? ? Hc]. constructor; cbn; try done. by rewrite Hc.
  - destruct (complete_realized acked c f queue l1 l2) as (c' & Hc & Hrest); [done..|].
    exists c'. by split; [apply rtc_once|].
Qed.

(** ** What this says of the workers *)

(** C17: the workers and the fleet simulate each other.  Whatever a worker's activity
    handler does with a creation, a completion or any other task, and whatever of its
    answers arrives, is a step of the fleet that leaves the same counters and sessions;
    the step is acknowledged when every answer arrives.  And the network can make the
    workers take every step of the fleet. *)
Theorem session_workers_are_the_fleet (c : cluster) (f : fleet) :
  encodes_strings -> agrees c f -> placed c ->
  (forall d c', cluster_step d c c' ->
     exists acked f', (fleet_step acked f f' \/ f' = f) /\ agrees c' f' /\ placed c' /\
       (lossless d -> acked = true)) /\
  (forall acked f', fleet_step acked f f' ->
     (forall queue, active_sessions f' queue <> active_sessions f queue -> is_Some (workers c !! queue)) ->
     exists c', rtc (cluster_step (delivery acked)) c c' /\ agrees c' f' /\ placed c').
Proof.
  intros He Hag Hpl. split.
  - intros d c' Hs. destruct (cluster_step_simulated d c c' f Hag Hpl Hs) as (acked & f' & Hf & Ha & Hp & Hl).
    exists acked, f'. by split_and!; auto.
  - intros acked f' Hs Hw. destruct (fleet_step_realized acked c f f' He Hag Hpl Hs Hw)
      as (c' & Hr & Hp & _ & Ha). by exists c'.
Qed.

(** Workers just built, and no session. *)
Definition fresh (c : cluster) : Prop :=
  sessions_held c = [] /\ sessions_completing c = [] /\
  forall queue w, workers c !! queue = Some w -> hosts queue w /\ active_sessions_ w = 0.

Definition limits (c : cluster) (queue : string) : Z :=
  match workers c !! queue with
  | Some w => max_concurrent_sessions (polling (impl_options_ w)) | None => 0
  end.

Lemma fresh_agrees c : fresh c -> agrees c (idle_fleet (limits c)) /\ placed c.
Proof.
  intros (Hh & Hc & Hw). split; [constructor; cbn; try done|].
  - intros q w Hq. by apply Hw.
  - intros q w Hq. unfold limits. by rewrite Hq.
  - intros q w Hq. symmetry. by apply (Hw q).
  - intros q. rewrite Hh, Hc. by intros ?%elem_of_nil.
Qed.

Definition lossless_step (c c' : cluster) : Prop := exists d, lossless d /\ cluster_step d c c'.
Definition lossy_step (c c' : cluster) : Prop := exists d, cluster_step d c c'.

Lemma lossless_steps_simulated c c' f :
  encodes_strings -> rtc lossless_step c c' -> agrees c f -> placed c ->
  exists f', rtc (fleet_step true) f f' /\ agrees c' f'.
Proof.
  intros He Hr. revert f. induction Hr as [c|c c1 c' (d & Hl & Hs) _ IH]; intros f Hag Hpl; [by exists f|].
  destruct (cluster_step_simulated d c c1 f Hag Hpl Hs) as (acked & f1 & Hf & Ha & Hp & Hack).
  rewrite Hack in Hf by done. destruct (IH f1 Ha Hp) as (f' & Hr' & Ha'). exists f'. split; [|done].
  destruct Hf as [Hf | ->]; [by eapply rtc_l|done].
Qed.

Lemma host_steps_realized c f f' queue :
  encodes_strings -> is_Some (workers c !! queue) -> rtc (host_step queue) f f' -> agrees c f -> placed c ->
  exists c', rtc lossy_step c c' /\ agrees c' f' /\ dom (workers c') = dom (workers c).
Proof.
  intros He Hw Hr. revert c Hw. induction Hr as [f|f f1 f' (acked & Hs & Hat) _ IH]; intros c Hw Hag Hpl.
  { exists c. by split_and!. }
  destruct (fleet_step_realized acked c f f1 He Hag Hpl Hs) as (c1 & Hr1 & Hp1 & Hd1 & Ha1).
  { intros q Hq. destruct (decide (q = queue)) as [-> |Hne]; [done|]. by rewrite Hat in Hq. }
  destruct (IH c1) as (c' & Hr' & Ha' & Hd'); [|done..|].
  - apply elem_of_dom. rewrite Hd1. by apply elem_of_dom.
  - exists c'. split_and!; [|done|congruence]. etrans; [|exact Hr'].
    eapply rtc_subrel; [|exact Hr1]. intros x y Hxy. by exists (delivery acked).
Qed.

(** C18: while every answer of an activity reaches the server, the counter of every worker
    is the number of sessions workflows hold on it plus those being completed, whatever
    tasks its handler was given; so a worker with [max_concurrent_sessions] set never
    hosts more sessions than that. *)
Theorem worker_sessions_exact (c c' : cluster) (queue : string) (w : Impl) :
  encodes_strings -> fresh c -> rtc lossless_step c c' -> workers c' !! queue = Some w ->
  active_sessions_ w = on_host queue (sessions_held c') + on_host queue (sessions_completing c') /\
  let cap := max_concurrent_sessions (polling (impl_options_ w)) in
  (0 < cap -> on_host queue (sessions_held c') <= cap).
Proof.
  intros He [Hag Hpl]%fresh_agrees Hr Hw.
  destruct (lossless_steps_simulated c c' _ He Hr Hag Hpl) as (f & Hf & Ha).
  destruct (exact_steps _ _ Hf) as [[Hc Hcap] _].
  { split; intros q; simpl; [reflexivity|]. lia. }
  rewrite <- (ag_active _ _ Ha _ _ Hw), <- (ag_held _ _ Ha), <- (ag_completing _ _ Ha), Hc.
  split; [done|]. intros cap Hpos. specialize (Hcap queue). rewrite (ag_caps _ _ Ha _ _ Hw) in Hcap.
  specialize (Hcap Hpos). rewrite Hc in Hcap. pose proof (on_host_nonneg queue (completing f)). lia.
Qed.

(** C19: lost answers break the count, in both directions.  A worker with
    [max_concurrent_sessions] set can host any number of sessions at once: a completion
    delivered again, because its answer was lost, gives back a slot that is not its own.
    And it can come to refuse every creation although nobody holds a session anywhere: a
    creation whose answer is lost keeps a slot. *)
Theorem lost_answers_break_the_limit (c : cluster) (queue : string) (w : Impl) :
  encodes_strings -> fresh c -> workers c !! queue = Some w ->
  0 < max_concurrent_sessions (polling (impl_options_ w)) ->
  (forall n, exists c', rtc lossy_step c c' /\ on_host queue (sessions_held c') = Z.of_nat n) /\
  exists c' w', rtc lossy_step c c' /\ sessions_held c' = [] /\ sessions_completing c' = [] /\
    workers c' !! queue = Some w' /\
    forall d task w'' sent reply, at_activity_type task = kSessionCreationActivityType ->
      handle_activity d task w' = Val (w'', (sent, reply)) -> granted d sent = None.
Proof.
  intros He Hf Hw Hpos. destruct (fresh_agrees c Hf) as [Hag Hpl].
  assert (Hlim : 0 < limits c queue) by (unfold limits; by rewrite Hw).
  assert (Hsome : is_Some (workers c !! queue)) by by eexists. split.
  - intros n. destruct (overbooked (limits c) queue n Hlim) as (f & Hr & Hn).
    destruct (host_steps_realized c _ f queue He Hsome Hr Hag Hpl) as (c' & Hc & Ha & _).
    exists c'. by rewrite <- (ag_held _ _ Ha).
  - destruct (exhausted (limits c) queue Hlim) as (f & Hr & Hcaps & Hn & Hh & Hcm).
    destruct (host_steps_realized c _ f queue He Hsome Hr Hag Hpl) as (c' & Hc & Ha & Hd).
    assert (Hs' : is_Some (workers c' !! queue)).
    { apply elem_of_dom. rewrite Hd. by apply elem_of_dom. }
    destruct Hs' as [w' Hw']. exists c', w'.
    rewrite <- (ag_held _ _ Ha), <- (ag_completing _ _ Ha). split_and!; [done..|].
    intros d task w'' sent reply Ht Hdo.
    apply (handle_creation _ _ queue) in Hdo; [|by eapply ag_hosts|done].
    rewrite <- (ag_active _ _ Ha _ _ Hw'), <- (ag_caps _ _ Ha _ _ Hw'), Hcaps, Hn in Hdo.
    destruct (full_refuses (limits c) queue Hlim) as [e He']. rewrite He' in Hdo. apply Hdo.
Qed.
End Cluster.

(** ** Closed instances *)

(** A worker with room for one session. *)
Definition one_session_options : Options :=
  default_options <| polling ::= fun o => (o <| enable_sessions := true |>)
                                            <| max_concurrent_sessions := 1 |> |>.

Definition session_worker : Impl :=
  RegisterActivity "Echo" echo_activity (make_worker "u1" "u2" None "default" "me" "q" one_session_options).

Definition one_worker : cluster := mkCluster {["q-session-u2" := session_worker]} [] [].

Lemma session_worker_hosts : hosts "q-session-u2" session_worker.
Proof.
  apply RegisterActivity_hosts; [discriminate..|].
  exact (make_worker_hosts "u1" "u2" None "default" "me" "q" one_session_options eq_refl eq_refl).
Qed.

Lemma one_worker_fresh : fresh one_worker.
Proof.
  split_and!; [done..|]. intros queue w Hw. unfold one_worker, workers in Hw. apply lookup_singleton_Some in Hw as [<- <-].
  split; [apply session_worker_hosts|reflexivity].
Qed.

Lemma ref_encodes : encodes_strings.
Proof. intros s. by eexists. Qed.

(** The first creation is answered with the worker's queue, the second refused. *)
Example one_session :
  match handle_activity answering (session_task kSessionCreationActivityType) session_worker with
  | Val (w, (sent, _)) =>
    (active_sessions_ w, granted answering sent,
     match handle_activity answering (session_task kSessionCreationActivityType) w with
     | Val (w, (sent, _)) => (active_sessions_ w, granted answering sent)
     | _ => (0, None)
     end)
  | _ => (0, None, (0, None))
  end = (1, Some "q-session-u2", (1, None)).
Proof. vm_compute. reflexivity. Qed.

(** One worker with a session open. *)
Definition session_open : cluster :=
  mkCluster {["q-session-u2" := session_worker <| active_sessions_ := 1 |>]} ["q-session-u2"] [].

Lemma session_opens : cluster_step answering one_worker session_open.
Proof.
  pose proof (cluster_create answering "q-session-u2" session_worker
    (session_worker <| active_sessions_ := 1 |>) (session_task kSessionCreationActivityType)
    [RespondActivityTaskCompleted "token" "me" (Some (ToProtoPayloads [bytes "q-session-u2"]))]
    (inr tt) one_worker) as Hs.
  apply Hs; [by apply lookup_singleton_eq|reflexivity|vm_compute; reflexivity].
Qed.

(** From a fresh worker, the creation is a step of the fleet. *)
Lemma session_workers_are_the_fleet_witness :
  exists acked f', (fleet_step acked (idle_fleet (limits one_worker)) f' \/
                    f' = idle_fleet (limits one_worker)) /\ agrees session_open f' /\ acked = true.
Proof.
  destruct (fresh_agrees one_worker one_worker_fresh) as [Hag Hpl].
  destruct (session_workers_are_the_fleet one_worker _ ref_encodes Hag Hpl) as [Hs _].
  destruct (Hs answering session_open session_opens) as (acked & f' & Hf & Ha & _ & Hl).
  exists acked, f'. split_and!; [exact Hf|exact Ha|]. apply Hl. intros resp. reflexivity.
Defined.

Lemma worker_sessions_exact_witness :
  active_sessions_ (session_worker <| active_sessions_ := 1 |>) = 1 + 0 /\
  (0 < 1 -> on_host "q-session-u2" (sessions_held session_open) <= 1).
Proof.
  assert (Hr : rtc lossless_step one_worker session_open).
  { apply rtc_once. exists answering. split; [intros resp; reflexivity|exact session_opens]. }
  destruct (worker_sessions_exact one_worker session_open "q-session-u2"
    (session_worker <| active_sessions_ := 1 |>) ref_encodes one_worker_fresh Hr) as [_ Hcap].
  - by apply lookup_singleton_eq.
  - split; [reflexivity|exact Hcap].
Defined.

Lemma lost_answers_break_the_limit_witness :
  exists c', rtc lossy_step one_worker c' /\ on_host "q-session-u2" (sessions_held c') = 3.
Proof.
  exact (proj1 (lost_answers_break_the_limit one_worker "q-session-u2" session_worker ref_encodes
           one_worker_fresh ltac:(by apply lookup_singleton_eq) ltac:(reflexivity)) 3%nat).
Defined.
