(* ===== verification/TestEnv.v ===== *)
(** * The test environment

    [testing::TestWorkflowEnvironment] ([testing/test_workflow_environment.h]) is a
    client of the time-skipping test server that unlocks time skipping while it lives.
    The server is not part of the program; what the header says of it - a lock counter
    that starts at one, time skipping only at zero, an unbalanced unlock refused - is
    the record [skipping_server]. *)

From S2P Require Import Prelude Common Effects Interceptors Rpc Client ClientFacts.

Section TestEnv.
Context {W U : Type} `{Stub W}.
Abbreviation IO A := (Act (World W U) A).

Record TestWorkflowEnvironment := mkEnvironment { client_ : Client (World W U) }.

(** [MakeClient]: the target is the argument's. *)
Definition MakeClient (default_identity target : string) (options : ClientOptions (World W U)) :
    Client (World W U) :=
  Connect default_identity
    {| co_target := target; co_ns := co_ns options; co_identity := co_identity options;
       co_failure_converter := co_failure_converter options; co_tls := co_tls options;
       co_api_key := co_api_key options; co_interceptors := co_interceptors options |}.

(** [try { m } catch (const std::exception&) {}]. *)
Definition ignore_errors (m : IO unit) : IO unit :=
  htry m (fun r => match r with
                   | inr _ => hret tt
                   | inl e => if is_std_exception e then hret tt else hthrow e
                   end).

(** The constructor. *)
Definition make_environment (default_identity target : string) (options : ClientOptions (World W U)) :
    IO TestWorkflowEnvironment :=
  let c := MakeClient default_identity target options in
  ignore_errors (Client_UnlockTimeSkipping c) ;;== hret (mkEnvironment c).

(** The destructor. *)
Definition destroy_environment (env : TestWorkflowEnvironment) : IO unit :=
  ignore_errors (Client_LockTimeSkipping (client_ env)).

Definition CurrentTime (env : TestWorkflowEnvironment) : IO Z := Client_GetCurrentTime (client_ env).
Definition Sleep (env : TestWorkflowEnvironment) (duration : Z) : IO unit :=
  Client.Sleep (client_ env) duration.
Definition LockTimeSkipping (env : TestWorkflowEnvironment) : IO unit :=
  Client_LockTimeSkipping (client_ env).
Definition UnlockTimeSkipping (env : TestWorkflowEnvironment) : IO unit :=
  Client_UnlockTimeSkipping (client_ env).

(** ** The server, as documented *)

Record skipping_server (counter : W -> Z) : Prop := {
  sk_lock : forall ctx s, let '(s', (status, _)) := invoke Rpc.LockTimeSkipping ctx s in
    error_code status = OK /\ counter s' = counter s + 1;
  sk_unlock : forall ctx s, let '(s', (status, _)) := invoke Rpc.UnlockTimeSkipping ctx s in
    if 0 <? counter s then error_code status = OK /\ counter s' = counter s - 1
    else error_code status <> OK /\ counter s' = counter s
}.

Context (counter : W -> Z) (Hserver : skipping_server counter).

Definition skips (w : World W U) : Prop := counter (w_server w) = 0.

(** ** Facts *)

(** A call whose error is ignored leaves the world the call leaves. *)
Lemma ignored g (m : rpc unit) (w : World W U) :
  ignore_errors (UnaryCall g m) w = Val (after_call g m w, inr tt).
Proof.
  assert (Hstd : forall st, is_std_exception (rpc_exception m st) = true)
    by (intros st; unfold rpc_exception; by destruct (bool_decide _)).
  unfold ignore_errors, htry. rewrite UnaryCall_eq. unfold rpc_answer.
  destruct (bool_decide _); [reflexivity|]. destruct (rpc_polls m && _); [reflexivity|].
  by rewrite Hstd.
Qed.

Lemma lock_counts g (w : World W U) :
  counter (w_server (after_call g Rpc.LockTimeSkipping w)) = counter (w_server w) + 1.
Proof.
  pose proof (sk_lock _ Hserver (call_context g false) (w_server w)) as Hl. unfold after_call. simpl.
  destruct (invoke Rpc.LockTimeSkipping _ (w_server w)) as [s' [st []]]. simpl in *. by destruct Hl.
Qed.

Lemma unlock_counts g (w : World W U) :
  0 <= counter (w_server w) ->
  counter (w_server (after_call g Rpc.UnlockTimeSkipping w)) = Z.max 0 (counter (w_server w) - 1).
Proof.
  pose proof (sk_unlock _ Hserver (call_context g false) (w_server w)) as Hu. unfold after_call. simpl.
  destruct (invoke Rpc.UnlockTimeSkipping _ (w_server w)) as [s' [st []]]. simpl in *.
  destruct (0 <? counter (w_server w)) eqn:Hz; destruct Hu as [_ ->];
    rewrite ?Z.ltb_lt, ?Z.ltb_ge in Hz; lia.
Qed.

Lemma make_environment_counts id target options (w : World W U) :
  0 <= counter (w_server w) ->
  exists w' env, make_environment id target options w = Val (w', inr env) /\
    counter (w_server w') = Z.max 0 (counter (w_server w) - 1).
Proof.
  intros Hc. unfold make_environment, Client_UnlockTimeSkipping.
  rewrite (hbind_val _ _ _ _ _ (ignored _ _ _)). do 2 eexists. split; [reflexivity|].
  by apply unlock_counts.
Qed.

Lemma destroy_environment_counts env (w : World W U) :
  exists w', destroy_environment env w = Val (w', inr tt) /\
    counter (w_server w') = counter (w_server w) + 1.
Proof.
  unfold destroy_environment, Client_LockTimeSkipping. rewrite ignored. eexists.
  split; [reflexivity|]. apply lock_counts.
Qed.

(** Environments made one after the other, all alive; environments destroyed in turn. *)
Fixpoint open_environments (id target : string) (options : ClientOptions (World W U)) (n : nat) :
    IO (list TestWorkflowEnvironment) :=
  match n with
  | O => hret []
  | S n => env <== make_environment id target options;;
           envs <== open_environments id target options n;; hret (env :: envs)
  end.

Fixpoint close_environments (envs : list TestWorkflowEnvironment) : IO unit :=
  match envs with
  | [] => hret tt
  | env :: envs => destroy_environment env ;;== close_environments envs
  end.

Lemma open_counts id target options n (w : World W U) :
  0 <= counter (w_server w) ->
  exists w' envs, open_environments id target options n w = Val (w', inr envs) /\ length envs = n /\
    counter (w_server w') = Z.max 0 (counter (w_server w) - Z.of_nat n).
Proof.
  revert w. induction n as [|n IH]; intros w Hc; simpl.
  - exists w, []. split_and!; [done|done|lia].
  - destruct (make_environment_counts id target options w Hc) as (w1 & env & Hm & H1).
    destruct (IH w1) as (w2 & envs & Ho & Hl & H2); [lia|].
    rewrite (hbind_val _ _ _ _ _ Hm), (hbind_val _ _ _ _ _ Ho).
    exists w2, (env :: envs). split_and!; [done|simpl; by rewrite Hl|lia].
Qed.

Lemma close_counts envs (w : World W U) :
  exists w', close_environments envs w = Val (w', inr tt) /\
    counter (w_server w') = counter (w_server w) + Z.of_nat (length envs).
Proof.
  revert w. induction envs as [|env envs IH]; intros w; simpl.
  - exists w. split; [done|lia].
  - destruct (destroy_environment_counts env w) as (w1 & Hd & H1).
    destruct (IH w1) as (w2 & Hc & H2). rewrite (hbind_val _ _ _ _ _ Hd).
    exists w2. split; [done|lia].
Qed.

(** C39: neither end of an environment throws, and one environment balances the server's
    lock: time is skipped while it lives, and the server is as it was afterwards.
    Environments that overlap do not: of [n] that share a locked server, made while
    time is skipped from the first on, every one that goes locks the server, the unlock
    of all but the first having been refused.  So time is no longer skipped for those
    that live, and the counter is left at [n], where one unlock no longer opens it. *)
Theorem overlapping_environments_lock id target options n (w : World W U) :
  counter (w_server w) = 1 ->
  exists w1 envs, open_environments id target options (S n) w = Val (w1, inr envs) /\
    length envs = S n /\ skips w1 /\
    forall gone living, envs = gone ++ living ->
      exists w2, close_environments gone w1 = Val (w2, inr tt) /\
        counter (w_server w2) = Z.of_nat (length gone) /\ (skips w2 <-> gone = []).
Proof.
  intros Hc. destruct (open_counts id target options (S n) w) as (w1 & envs & Ho & Hl & H1); [lia|].
  exists w1, envs. split_and!; [done|done|unfold skips; lia|]. intros gone living ->.
  destruct (close_counts gone w1) as (w2 & Hcl & H2). exists w2. split_and!; [done|lia|].
  unfold skips. destruct gone; simpl in *; split; intros; [done|lia|lia|done].
Qed.
End TestEnv.

(** ** Closed instances *)

(** A test server whose state is its lock counter. *)
Definition lock_answer {R} (m : rpc R) (n : nat) : nat * (Status * R) :=
  match m with
  | Rpc.LockTimeSkipping => (S n, (fine, tt))
  | Rpc.UnlockTimeSkipping =>
    match n with
    | O => (O, ({| error_code := OtherCode 9; error_message := "unbalanced" |}, tt))
    | S n => (n, (fine, tt))
    end
  | m => (n, (fine, empty_response m))
  end.

#[local] Instance lock_stub : Stub nat := fun R m _ n => lock_answer m n.

Lemma lock_stub_skips : skipping_server Z.of_nat.
Proof.
  split; intros ctx s; simpl; [split; [reflexivity|lia]|].
  destruct s as [|s]; simpl; [by split|]. split; [done|lia].
Qed.

(** Two environments: when one goes, the other's timers are no longer skipped. *)
Lemma overlapping_environments_lock_witness :
  exists (w1 w2 : World nat unit) env1 env2,
    open_environments "me" "localhost:7244" (ref_options []) 2
      {| w_server := 1%nat; w_issued := []; w_uuids := 0%nat; w_user := tt |} = Val (w1, inr [env1; env2]) /\
    skips Z.of_nat w1 /\
    close_environments [env1] w1 = Val (w2, inr tt) /\ ~ skips Z.of_nat w2.
Proof.
  destruct (overlapping_environments_lock (U := unit) Z.of_nat lock_stub_skips "me" "localhost:7244"
    (ref_options []) 1 {| w_server := 1%nat; w_issued := []; w_uuids := 0%nat; w_user := tt |} eq_refl)
    as (w1 & envs & Ho & Hl & Hs & Hc).
  destruct envs as [|env1 [|env2 [|]]]; try discriminate Hl.
  destruct (Hc [env1] [env2] eq_refl) as (w2 & Hcl & _ & Hiff).
  exists w1, w2, env1, env2. split_and!; [exact Ho|exact Hs|exact Hcl|].
  intros Hk. discriminate (proj1 Hiff Hk).
Defined.
